(* ===== verification/_CoqProject ===== *)
-Q . S2P
Prelude.v
Number.v
ResCounter.v
Kfifo.v
Skb.v
Bpf.v
SieMalloc.v
SieHeap.v
Semaphore.v
Rwsem.v
KString.v
DspRing.v
PromMem.v
Sort.v
Range.v
Bitmap.v
CskyBitops.v
Genalloc.v
Hweight.v
BitmapOps.v
SilanSpi.v
SilanFlash.v
Infrared.v
Calendar.v
SilanRtc.v
