(* ===== verification/Prelude.v ===== *)
(** * Verification of the core services of the silan kernel tree (Linux 3.0.8)

    The repository is a Linux 3.0.8 kernel with the port and the drivers of a
    media processor: the C-SKY and MIPS boards under arch/csky/silan_dlna and
    arch/mips/silan/dlna, and drivers such as drivers/char/dsp_dlna.  All paths
    below are relative to src/kernel.  This development models the services the
    vendor code and the rest of the kernel stand on (memory for media buffers,
    queues, locks, counters, number and string handling, bitmaps, sorting, dates),
    the vendor code that uses them, the vendor's drivers for the serial flash,
    the real-time clock and the remote control, and the packet filter as the one
    interpreter in the tree that runs programs from user space.

    ** The parts and how they interact

    At boot, [prom_meminit] (PromMem) reads the command line with [strstr]
    (KString) and [memparse] (Number) and divides physical memory between the
    kernel, pmem and a pool; [silan_malloc_init] takes the arena of the media heap
    (SieMalloc, SieHeap) from that pool.  The media drivers take buffers from the
    heap and move data to the DSP through the rings of DspRing.  Other drivers
    queue bytes with kfifo (Kfifo), take device memory from pools (Genalloc), whose
    bitmaps are searched by Bitmap or, on this port, by its own versions
    (CskyBitops).  Semaphores (Semaphore, Rwsem) and counters (ResCounter) are used
    throughout; limits are written as text and read by the parsers of Number.  A
    socket filter (Bpf) reads packets through the accessors of Skb.  The flash
    driver (SilanFlash) sends its commands as messages through the SPI core to the
    SPI master (SilanSpi), which moves them through its registers.  The clock
    driver (SilanRtc) keeps dates, which Calendar converts from and to seconds, and
    gives the system its time at boot.  The remote control (Infrared) turns the
    edges of its signal into keys.

    ** Files

    - Prelude: C integers at their width, notations, tactics, hint databases,
      generic lemmas, [is_power_of_2] of include/linux/log2.h.
    - Number: lib/ctype.c, lib/kstrtox.c, lib/vsprintf.c ([simple_strto*],
      [put_dec*], [number]), lib/cmdline.c.
    - ResCounter: kernel/res_counter.c and its header, sequentially (Module [Seq])
      and for interleaved threads (Module [Conc]).
    - Kfifo: kernel/kfifo.c; Module [Spsc] is one reader and one writer without a
      lock, at the granularity of single memory accesses.
    - Skb, Bpf: the data part of struct sk_buff, [skb_copy_bits], [nla_find]; the
      checker, the interpreter and the attachment of filters of net/core/filter.c,
      lib/reciprocal_div.c.
    - SieMalloc, SieHeap: sie_malloc.c of both ports, with its linked lists as
      pointers in a store, and what it guarantees.
    - Semaphore, Rwsem: kernel/semaphore.c with the timers and signals that end a
      wait; lib/rwsem-spinlock.c.
    - KString: all of lib/string.c over one memory.
    - DspRing: ringbuffer.c and the transfer and command queue functions of
      dsp_core.c, task.c and aud_pro.c in drivers/char/dsp_dlna.
    - PromMem: arch/csky/silan_dlna/memory.c, the memory options of
      arch/csky/kernel/setup.c, [silan_malloc_init].
    - Sort, Range: lib/sort.c on raw bytes; kernel/range.c, which sorts with it.
    - Bitmap, CskyBitops: lib/find_next_bit.c and ranges and areas of
      lib/bitmap.c; arch/csky/include/asm/bitops.h.
    - Genalloc: lib/genalloc.c and lib/iommu-helper.c on top of Bitmap.
    - Hweight, BitmapOps: lib/hweight.c; the tests, set operations, shifts and
      weight of lib/bitmap.c.
    - SilanSpi: drivers/spi/silan_spi.c, the message loop of spi_bitbang.c and the
      synchronous calls of spi.c, access by access.
    - SilanFlash: drivers/mtd/devices/silan_flash.c on top of SilanSpi, against a
      chip given by the class [NorChip].
    - Infrared: drivers/input/misc/ir_lg_input.c, the handler and the work queue as
      events in any order.
    - Calendar: lib/bcd.c, drivers/rtc/rtc-lib.c, [mktime] of kernel/time.c,
      kernel/time/timeconv.c.
    - SilanRtc: drivers/rtc/rtc-silan-dlna.c, reading and setting the clock in
      drivers/rtc/interface.c, drivers/rtc/hctosys.c, on top of Calendar.

    Definitions have the names of the source.  A loop is a definition of its own
    next to the function, mapped to the lines of the loop.

    ** How C is represented

    Integers are [Z]; each place where C converts or wraps is written out ([u32],
    [s32], [u64], ..., and [ulong], [slong] for the type that is 32 or 64 bits wide,
    class [LongWidth] with instances [long32] and [long64]).  Signed overflow,
    which C leaves undefined, is excluded by the hypotheses of the theorems or
    shown as a finding.  Memory is a list of bytes or words, or blocks of a known size
    (SilanSpi); an access outside of it has no result ([None], [Bad], [Stray] or
    [Stuck]), so a theorem that gives the result of a call also says that the call
    stays inside.  Structures are
    records; linked structures with aliasing (SieMalloc, ResCounter) are kept in a
    store.  Concurrency is a step relation whose steps are the stretches of code under
    one lock (or single accesses, in [Spsc]); theorems are over all reachable
    states.  What lies outside of the tree or is an effect of the machine is an argument:
    allocation success, faults of user memory, time, the instructions [brev] and
    [ff1].  Devices are classes: their operations are arbitrary functions (of the
    history of accesses, in SilanSpi), and a second class of laws states what the
    driver relies on ([SpiEnvOk], [FlashOk], [RtcClock], and [prompt] for a flash chip
    that meets the driver's deadlines); each has an instance that the witnesses run
    on.  The step relations of the clients (who calls what, and what a caller may
    release) are part of the statements: they model no code, and their steps
    are the functions of the source.

    ** What the theorems show

    - Memory: the heap invariant and the results of the Silan heap; the boot-time
      division of memory and the pool behind it; pools hand out disjoint memory
      under any interleaving, and give it back.
    - Queues: kfifo and DSP rings refine bounded queues; the lock-free pair of
      kfifo; the DSP command queue.
    - Locks and counters: exclusion, order and bounded waiting; accounting of
      hierarchical counters under interleaving.
    - The packet filter: the checker accepts exactly the programs of the documented
      form, accepted programs run without leaving packet, scratch memory or program,
      and the verdict on a socket's packets.
    - Text and data: parse/print round trips, exact parsers, string functions
      with overlap, sorting, ranges, bitmaps against their reference definitions.
    - Flash: what is written to erased, unprotected sectors of a prompt chip is read
      back, down to the register accesses, and nothing else changes; every branch of
      a write, lost pages included; the command buffer that is one byte too short;
      the chip table.  The SPI core frees its static buffer once under this master.
    - Clock: the conversions between seconds and dates are exact and inverse, for
      times before 1970 too; a time that is set is, seconds later, the time the
      system starts with.
    - Remote control: a key is reported only for a complete frame of its code, and
      a held button repeats from the third repeat on.
    - Findings: where a theorem or an example needs a hypothesis that the code does
      not check, the failing case is proved next to it.

    ** Fuel

    Fuel is the first argument of a definition whose recursion is not structural; a
    definition that runs out has no result.  It is chosen so that it does not run out,
    and the theorems prove this: loops over memory get the size of memory (every
    round advances), [sort] the number of elements (offsets at least double, the
    outer counters go down), the searches of bitmaps the number of words, the area
    searches the number of bits (each round starts after a set bit), the BPF
    interpreter the length of the program (jumps go forward), the list walks of the
    heap the number of descriptors (an invariant keeps the lists acyclic), the
    digit loops the number of digits of 64 bits, the flash loops the length of the
    range (every round moves at least one byte or one sector), polls of a device the
    bounds [spin], within which its laws say it answers, and [max_polls], within which
    the clock that ends the wait reaches its deadline, the day loops
    of [time_to_tm] the days in the offset and its year loop four rounds (two are
    enough).

    ** Not modelled

    - vsprintf's format interpreter, kfifo's scatter-gather setup, bitmap printing,
      parsing and remapping, the DSP driver's open, ioctl, mmap and mailbox registers:
      text output, device registers and address translation around the parts that
      are modelled.
    - Registration of devices (probe, remove, init and exit functions), suspend and
      resume, the alarm timers of the RTC core, the flash driver's [jedec_probe] and
      the SPI master's [spi_fast_read], which have no caller.
    - The scheduler, timers and interrupts: only what a waiting semaphore uses of
      them, as events.
    - The rest of the tree (other architectures, drivers, file systems, protocols,
      sound, crypto, security modules, tools): 15 million lines of mostly hardware
      access, which have no model without the device; PROJECT.json lists them.

    ** Plan

    Next in order: lists and trees of lib (list_sort.c, plist.c, rbtree.c), the
    conversions of jiffies in kernel/time.c, the parsing half of lib/bitmap.c, the
    memory code of the DSP driver. *)

From Stdlib Require Import ZArith Lia.
From stdpp Require Import base numbers list gmap fin_maps sets option.

Local Open Scope Z_scope.

(** ** Notations for C expressions *)

Declare Scope c_scope.
Delimit Scope c_scope with C.

Notation "x .& y" := (Z.land x y) (at level 56, left associativity) : c_scope.
Notation "x .| y" := (Z.lor x y) (at level 58, left associativity) : c_scope.
Notation "x .^ y" := (Z.lxor x y) (at level 57, left associativity) : c_scope.
Notation "x .<< y" := (Z.shiftl x y) (at level 54, left associativity) : c_scope.
Notation "x .>> y" := (Z.shiftr x y) (at level 54, left associativity) : c_scope.

Open Scope c_scope.

(** ** Machine integers

    A C integer of width [w] is a [Z]; [uwrap w] and [swrap w] are the
    conversions to the unsigned and to the (two's complement) signed type. *)

Definition uwrap (w x : Z) : Z := x mod 2 ^ w.
Definition swrap (w x : Z) : Z := (x + 2 ^ (w - 1)) mod 2 ^ w - 2 ^ (w - 1).

Definition u8 : Z -> Z := uwrap 8.
Definition u16 : Z -> Z := uwrap 16.
Definition u32 : Z -> Z := uwrap 32.
Definition u64 : Z -> Z := uwrap 64.
Definition s8 : Z -> Z := swrap 8.
Definition s16 : Z -> Z := swrap 16.
Definition s32 : Z -> Z := swrap 32.
Definition s64 : Z -> Z := swrap 64.

Definition ULLONG_MAX : Z := 2 ^ 64 - 1.

(** The width of [unsigned long] is the one parameter of the platform. *)
Class LongWidth := {
  BITS_PER_LONG : Z;
  bits_per_long_ok : BITS_PER_LONG = 32 \/ BITS_PER_LONG = 64
}.

Definition long32 : LongWidth := {| BITS_PER_LONG := 32; bits_per_long_ok := or_introl eq_refl |}.
Definition long64 : LongWidth := {| BITS_PER_LONG := 64; bits_per_long_ok := or_intror eq_refl |}.

Definition ulong `{LongWidth} : Z -> Z := uwrap BITS_PER_LONG.
Definition slong `{LongWidth} : Z -> Z := swrap BITS_PER_LONG.

(** ** Error numbers (include/asm-generic/errno-base.h, errno.h) *)

Definition EPERM : Z := 1.
Definition ENOENT : Z := 2.
Definition EINTR : Z := 4.
Definition EAGAIN : Z := 11.
Definition ENOMEM : Z := 12.
Definition EFAULT : Z := 14.
Definition EBUSY : Z := 16.
Definition EINVAL : Z := 22.
Definition ENOSPC : Z := 28.
Definition ERANGE : Z := 34.
Definition ETIME : Z := 62.

(** A fallible C function that returns 0 and writes its result, or returns a
    negative error number and writes nothing. *)
Inductive result (A : Type) : Type :=
| Ok (x : A)
| Err (e : Z).
Arguments Ok {A} x.
Arguments Err {A} e.

(** ** Automation *)

Create HintDb cint.
Create Rewrite HintDb cint.

(** [zdm] turns [/] and [mod] into linear constraints and calls [lia]. *)
Ltac zdm := Z.div_mod_to_equations; lia.

(** [bool_lia] moves boolean comparisons to propositions, then [lia]. *)
Ltac bool_lia :=
  repeat match goal with
  | H : (_ <? _) = true |- _ => apply Z.ltb_lt in H
  | H : (_ <? _) = false |- _ => apply Z.ltb_ge in H
  | H : (_ <=? _) = true |- _ => apply Z.leb_le in H
  | H : (_ <=? _) = false |- _ => apply Z.leb_gt in H
  | H : (_ =? _) = true |- _ => apply Z.eqb_eq in H
  | H : (_ =? _) = false |- _ => apply Z.eqb_neq in H
  end; lia.

(** [destr_if] splits on the boolean condition of an [if] of the goal and
    keeps the corresponding (in)equality. *)
Ltac destr_if :=
  match goal with
  | |- context [if ?x <? ?y then _ else _] => destruct (Z.ltb_spec x y)
  | |- context [if ?x <=? ?y then _ else _] => destruct (Z.leb_spec x y)
  | |- context [if ?x =? ?y then _ else _] => destruct (Z.eqb_spec x y)
  | |- context [if ?b then _ else _] => destruct b eqn:?
  end.

Ltac destr_if_in H :=
  match type of H with
  | context [if ?x <? ?y then _ else _] => destruct (Z.ltb_spec x y)
  | context [if ?x <=? ?y then _ else _] => destruct (Z.leb_spec x y)
  | context [if ?x =? ?y then _ else _] => destruct (Z.eqb_spec x y)
  | context [if ?b then _ else _] => destruct b eqn:?
  end.

(** ** Lemmas on machine integers *)

Lemma uwrap_range w x : 0 <= w -> 0 <= uwrap w x < 2 ^ w.
Proof. intros. unfold uwrap. apply Z.mod_pos_bound. lia. Qed.

Lemma uwrap_small w x : 0 <= x < 2 ^ w -> uwrap w x = x.
Proof. intros. unfold uwrap. by apply Z.mod_small. Qed.

Lemma uwrap_idem w x : 0 <= w -> uwrap w (uwrap w x) = uwrap w x.
Proof. intros. apply uwrap_small. by apply uwrap_range. Qed.

Lemma uwrap_add_l w x y : uwrap w (uwrap w x + y) = uwrap w (x + y).
Proof. unfold uwrap. apply Zplus_mod_idemp_l. Qed.

Lemma uwrap_add_r w x y : uwrap w (x + uwrap w y) = uwrap w (x + y).
Proof. unfold uwrap. apply Zplus_mod_idemp_r. Qed.

Lemma uwrap_sub_l w x y : uwrap w (uwrap w x - y) = uwrap w (x - y).
Proof. unfold uwrap. apply Zminus_mod_idemp_l. Qed.

Lemma uwrap_sub_r w x y : uwrap w (x - uwrap w y) = uwrap w (x - y).
Proof. unfold uwrap. apply Zminus_mod_idemp_r. Qed.

Lemma uwrap_mul_l w x y : uwrap w (uwrap w x * y) = uwrap w (x * y).
Proof. unfold uwrap. apply Zmult_mod_idemp_l. Qed.

Lemma swrap_small w x : 0 < w -> - 2 ^ (w - 1) <= x < 2 ^ (w - 1) -> swrap w x = x.
Proof.
  intros Hw Hx. unfold swrap.
  assert (2 ^ w = 2 * 2 ^ (w - 1)) by (rewrite <- Z.pow_succ_r by lia; f_equal; lia).
  rewrite Z.mod_small; lia.
Qed.

Lemma swrap_range w x : 0 < w -> - 2 ^ (w - 1) <= swrap w x < 2 ^ (w - 1).
Proof.
  intros Hw. unfold swrap.
  assert (2 ^ w = 2 * 2 ^ (w - 1)) by (rewrite <- Z.pow_succ_r by lia; f_equal; lia).
  pose proof (Z.mod_pos_bound (x + 2 ^ (w - 1)) (2 ^ w)). lia.
Qed.

Lemma u32_range x : 0 <= u32 x < 2 ^ 32.
Proof. by apply uwrap_range. Qed.

Lemma u64_range x : 0 <= u64 x < 2 ^ 64.
Proof. by apply uwrap_range. Qed.

Lemma u8_range x : 0 <= u8 x < 2 ^ 8.
Proof. by apply uwrap_range. Qed.

Lemma u8_small x : 0 <= x < 2 ^ 8 -> u8 x = x.
Proof. apply uwrap_small. Qed.

Lemma u16_small x : 0 <= x < 2 ^ 16 -> u16 x = x.
Proof. apply uwrap_small. Qed.

Lemma u32_small x : 0 <= x < 2 ^ 32 -> u32 x = x.
Proof. apply uwrap_small. Qed.

Lemma u64_small x : 0 <= x < 2 ^ 64 -> u64 x = x.
Proof. apply uwrap_small. Qed.

Lemma s32_small x : - 2 ^ 31 <= x < 2 ^ 31 -> s32 x = x.
Proof. intros. by apply swrap_small. Qed.
Lemma s64_small x : - 2 ^ 63 <= x < 2 ^ 63 -> s64 x = x.
Proof. intros. by apply swrap_small. Qed.

Lemma bits_per_long_pos `{LongWidth} : 0 < BITS_PER_LONG.
Proof. destruct bits_per_long_ok; lia. Qed.

Lemma ulong_range `{LongWidth} x : 0 <= ulong x < 2 ^ BITS_PER_LONG.
Proof. apply uwrap_range. pose proof bits_per_long_pos. lia. Qed.

Lemma ulong_small `{LongWidth} x : 0 <= x < 2 ^ 32 -> ulong x = x.
Proof. intros. apply uwrap_small. destruct bits_per_long_ok as [-> | ->]; lia. Qed.

Lemma slong_small `{LongWidth} x : - 2 ^ 31 <= x < 2 ^ 31 -> slong x = x.
Proof. intros. apply swrap_small; [apply bits_per_long_pos|]. destruct bits_per_long_ok as [-> | ->]; lia. Qed.

(** An [int] survives the way through [size_t]. *)
Lemma s32_ulong `{LongWidth} x : - 2 ^ 31 <= x < 2 ^ 31 -> s32 (ulong x) = x.
Proof.
  intros Hx. unfold s32, ulong, swrap, uwrap. destruct bits_per_long_ok as [-> | ->].
  - rewrite Zplus_mod_idemp_l, Z.mod_small; lia.
  - destruct (decide (x < 0)); [rewrite <- (Z_mod_plus_full x 1)|]; rewrite (Z.mod_small _ (2 ^ 64)) by lia;
      [zdm|rewrite Z.mod_small; lia].
Qed.

#[export] Hint Resolve u8_range u32_range u64_range ulong_range bits_per_long_pos : cint.
#[export] Hint Rewrite u32_small u64_small s64_small using lia : cint.

(** ** Bits *)

Lemma land_ones_mod x n : 0 <= n -> x .& (2 ^ n - 1) = x mod 2 ^ n.
Proof. intros. rewrite <- Z.land_ones by done. f_equal. rewrite Z.ones_equiv. lia. Qed.

Lemma testbit_high x n i : 0 <= x < 2 ^ n -> 0 <= n <= i -> Z.testbit x i = false.
Proof.
  intros Hx Hi. destruct (Z.eq_dec x 0) as [->|]; [apply Z.bits_0|].
  apply Z.bits_above_log2; [lia|]. apply Z.log2_lt_pow2; [lia|].
  eapply Z.lt_le_trans; [apply Hx|]. apply Z.pow_le_mono_r; lia.
Qed.

Lemma land_bound x y n : 0 <= n -> 0 <= x < 2 ^ n -> 0 <= y -> 0 <= x .& y < 2 ^ n.
Proof.
  intros Hn Hx Hy. split; [apply Z.land_nonneg; lia|].
  destruct (Z.eq_dec (x .& y) 0) as [->|Hz]; [lia|].
  assert (0 <= x .& y) by (apply Z.land_nonneg; lia).
  apply Z.log2_lt_pow2; [lia|].
  pose proof (Z.log2_land x y). assert (Z.log2 x < n).
  { destruct (Z.eq_dec x 0) as [->|]; [rewrite Z.land_0_l in Hz; lia|].
    apply Z.log2_lt_pow2; lia. }
  lia.
Qed.

(** Clearing the low [k] bits of a [w]-bit number. *)
Lemma land_high_mask x w k : 0 <= k <= w -> 0 <= x < 2 ^ w -> x .& (2 ^ w - 2 ^ k) = x / 2 ^ k * 2 ^ k.
Proof.
  intros Hk Hx. replace (2 ^ w - 2 ^ k) with (Z.ones (w - k) .<< k).
  2: { rewrite Z.ones_equiv, Z.shiftl_mul_pow2, <- Z.sub_1_r, Z.mul_sub_distr_r, <- Z.pow_add_r by lia. f_equal; [f_equal|]; lia. }
  rewrite <- Z.shiftl_mul_pow2, <- Z.shiftr_div_pow2 by lia. apply Z.bits_inj'. intros n Hn.
  rewrite Z.land_spec, !Z.shiftl_spec by lia. destruct (decide (n < k)).
  - rewrite !(Z.testbit_neg_r _ (n - k)) by lia. apply andb_false_r.
  - rewrite Z.shiftr_spec by lia. replace (n - k + k) with n by lia. destruct (decide (n < w)).
    + by rewrite Z.ones_spec_low, andb_true_r by lia.
    + by rewrite (testbit_high x w n) by lia.
Qed.

(** Disjoint fields combine by addition. *)
Lemma lor_shiftl_add a b n : 0 <= n -> 0 <= a < 2 ^ n -> a .| (b .<< n) = a + b * 2 ^ n.
Proof.
  intros Hn Ha. rewrite <- Z.shiftl_mul_pow2 by lia. symmetry.
  rewrite Z.add_nocarry_lxor; [rewrite Z.lxor_lor; [done|]|];
    (apply Z.bits_inj'; intros i Hi; rewrite Z.land_spec, Z.bits_0, Z.shiftl_spec by lia;
     destruct (decide (i < n)); [by rewrite (Z.testbit_neg_r b), andb_false_r by lia|];
     by rewrite (testbit_high a n i) by lia).
Qed.

Lemma lor_bound x y n : 0 <= n -> 0 <= x < 2 ^ n -> 0 <= y < 2 ^ n -> 0 <= x .| y < 2 ^ n.
Proof.
  intros Hn Hx Hy. split; [apply Z.lor_nonneg; lia|].
  destruct (Z.eq_dec (x .| y) 0) as [->|Hz]; [lia|].
  assert (0 <= x .| y) by (apply Z.lor_nonneg; lia).
  destruct (Z.eq_dec n 0) as [->|].
  { assert (x = 0) as -> by lia. assert (y = 0) as -> by lia. done. }
  apply Z.log2_lt_pow2; [lia|]. rewrite Z.log2_lor by lia.
  assert (forall z, 0 <= z < 2 ^ n -> Z.log2 z < n) as Hl.
  { intros z Hz'. destruct (Z.eq_dec z 0) as [->|]; [cbn; lia|].
    apply Z.log2_lt_pow2; lia. }
  pose proof (Hl _ Hx). pose proof (Hl _ Hy). lia.
Qed.

Lemma lxor_bound x y n : 0 <= n -> 0 <= x < 2 ^ n -> 0 <= y < 2 ^ n -> 0 <= x .^ y < 2 ^ n.
Proof.
  intros Hn Hx Hy. assert (x .^ y = (x .| y) .& (x .^ y)) as ->.
  { apply Z.bits_inj'. intros i Hi. rewrite Z.land_spec, Z.lor_spec, Z.lxor_spec.
    by destruct (Z.testbit x i), (Z.testbit y i). }
  apply land_bound; [done|by apply lor_bound|]. apply Z.lxor_nonneg. lia.
Qed.

(** ** Powers of two (include/linux/log2.h) *)

(** An unsigned long; 1 is subtracted only from [n <> 0], which does not wrap. *)
Definition is_power_of_2 (n : Z) : bool := negb (n =? 0) && (n .& (n - 1) =? 0).

Lemma pow2_land n : 0 <= n -> 2 ^ n .& (2 ^ n - 1) = 0.
Proof. intros Hn. rewrite land_ones_mod by done. by apply Z_mod_same_full. Qed.

(** [x & (x - 1)] clears the lowest set bit: zero only for a power of two. *)
Lemma is_power_of_2_spec n : 0 < n -> is_power_of_2 n = true <-> n = 2 ^ Z.log2 n.
Proof.
  intros Hn. unfold is_power_of_2. rewrite andb_true_iff, negb_true_iff, Z.eqb_neq, Z.eqb_eq.
  pose proof (Z.log2_spec n Hn) as Hlog. pose proof (Z.log2_nonneg n). split.
  - intros [_ E]. destruct (decide (n = 2 ^ Z.log2 n)) as [|Hne]; [done|]. exfalso.
    assert (Z.testbit (n .& (n - 1)) (Z.log2 n) = true) as Ht; [|by rewrite E, Z.bits_0 in Ht].
    rewrite Z.land_spec, Z.bit_log2 by lia. cbn [andb].
    rewrite <- (Z.log2_unique (n - 1) (Z.log2 n)) at 1 by lia. apply Z.bit_log2. lia.
  - intros E. split; [lia|]. rewrite E. apply pow2_land. lia.
Qed.

(** ** Lists *)

(** Reading an array cell; the default stands for a read the C code never makes. *)
Definition znth (l : list Z) (i : Z) : Z := default 0 (l !! Z.to_nat i).

Lemma znth_lookup l i x : l !! Z.to_nat i = Some x -> znth l i = x.
Proof. unfold znth. by intros ->. Qed.

(** Sum of a list of integers. *)
Definition zsum (l : list Z) : Z := foldr Z.add 0 l.

Lemma zsum_app l k : zsum (l ++ k) = zsum l + zsum k.
Proof.
  induction l as [|x l IH]; [done|].
  change (x + zsum (l ++ k) = x + zsum l + zsum k). lia.
Qed.

Lemma zsum_cons x l : zsum (x :: l) = x + zsum l.
Proof. done. Qed.

(** A boolean test on the first [n] integers, decided by evaluation. *)
Lemma forallb_below (f : Z -> bool) (n : nat) :
  forallb f (map Z.of_nat (seq 0 n)) = true ->
  forall d, 0 <= d < Z.of_nat n -> f d = true.
Proof.
  intros Hf d Hd. rewrite forallb_forall in Hf. apply Hf.
  apply List.in_map_iff. exists (Z.to_nat d). split; [lia|].
  apply in_seq. lia.
Qed.

(** ** Byte copies *)

(** [memcpy(dst + off, src, length src)]. *)
Definition memcpy_at (dst : list Z) (off : Z) (src : list Z) : list Z :=
  take (Z.to_nat off) dst ++ src ++ drop (Z.to_nat off + length src) dst.

Abbreviation zlen l := (Z.of_nat (length l)).

Lemma zlen_memcpy_at dst off src :
  0 <= off -> off + zlen src <= zlen dst -> zlen (memcpy_at dst off src) = zlen dst.
Proof.
  intros. unfold memcpy_at. rewrite !length_app, length_take, length_drop. lia.
Qed.

Lemma znth_app_l l k i : 0 <= i < zlen l -> znth (l ++ k) i = znth l i.
Proof. intros. unfold znth. by rewrite lookup_app_l by lia. Qed.

Lemma znth_app_r l k i : zlen l <= i -> znth (l ++ k) i = znth k (i - zlen l).
Proof.
  intros. unfold znth. rewrite lookup_app_r by lia. f_equal. f_equal. lia.
Qed.

Lemma znth_take l n i : 0 <= i < Z.of_nat n -> znth (take n l) i = znth l i.
Proof. intros. unfold znth. by rewrite lookup_take_lt by lia. Qed.

Lemma znth_drop l n i : 0 <= i -> znth (drop n l) i = znth l (Z.of_nat n + i).
Proof. intros. unfold znth. rewrite lookup_drop. f_equal. f_equal. lia. Qed.

Lemma znth_memcpy_at dst off src j :
  0 <= off -> off + zlen src <= zlen dst -> 0 <= j ->
  znth (memcpy_at dst off src) j =
    if (off <=? j) && (j <? off + zlen src) then znth src (j - off) else znth dst j.
Proof.
  intros Ho Hl Hj. unfold memcpy_at. set (k := Z.to_nat off).
  assert (zlen (take k dst) = off) as Ht by (rewrite length_take; lia).
  destruct (Z.leb_spec off j); cbn [andb].
  - rewrite znth_app_r by lia. rewrite Ht. destruct (Z.ltb_spec j (off + zlen src)).
    + by rewrite znth_app_l by lia.
    + rewrite znth_app_r, znth_drop by lia. f_equal. lia.
  - rewrite znth_app_l, znth_take by lia. done.
Qed.

Lemma list_eq_znth (l k : list Z) :
  length l = length k -> (forall i, 0 <= i < zlen l -> znth l i = znth k i) -> l = k.
Proof.
  intros Hlen Heq. apply list_eq. intros i. destruct (decide (i < length l)%nat) as [Hi|Hi].
  - specialize (Heq (Z.of_nat i) ltac:(lia)). unfold znth in Heq. rewrite Nat2Z.id in Heq.
    destruct (lookup_lt_is_Some_2 l i Hi) as [x Hx].
    destruct (lookup_lt_is_Some_2 k i ltac:(lia)) as [y Hy]. by rewrite Hx, Hy in *; cbn in *; subst.
  - rewrite !lookup_ge_None_2; [done|lia|lia].
Qed.

(** ** Counting the keys with a given value *)

Section occurs.

Context {A : Type} `{!EqDecision A}.
Implicit Types (m : gmap nat A) (x y : A) (t : nat).

Definition occurs x m : Z := Z.of_nat (size (filter (fun kv : nat * A => kv.2 = x) m)).

Lemma occurs_nonneg x m : 0 <= occurs x m.
Proof. unfold occurs. lia. Qed.

Lemma occurs_delete x t m : occurs x m = occurs x (delete t m) + (if decide (m !! t = Some x) then 1 else 0).
Proof.
  unfold occurs. rewrite map_filter_delete. case_decide as Ht.
  - rewrite (map_size_delete_Some t) by (eexists; apply map_lookup_filter_Some; by split).
    assert (size (filter (fun kv : nat * A => kv.2 = x) m) <> 0%nat); [|lia].
    intros Hz%map_size_empty_iff. pose proof (map_lookup_filter_Some_2 (fun kv : nat * A => kv.2 = x) m t x Ht eq_refl) as Hx.
    by rewrite Hz in Hx.
  - rewrite (map_size_delete_None t); [lia|]. apply map_lookup_filter_None. right. intros y Hy Hyx. cbn in Hyx. congruence.
Qed.

Lemma occurs_insert x t y m : occurs x (<[t := y]> m) = occurs x (delete t m) + (if decide (y = x) then 1 else 0).
Proof.
  rewrite (occurs_delete x t (<[t := y]> m)), delete_insert_eq, lookup_insert_eq. repeat case_decide; congruence || lia.
Qed.

Lemma occurs_new x t y m : m !! t = None -> occurs x (<[t := y]> m) = occurs x m + (if decide (y = x) then 1 else 0).
Proof. intros Ht. by rewrite occurs_insert, delete_id. Qed.

Lemma occurs_pos x t m : m !! t = Some x -> 0 < occurs x m.
Proof. intros Ht. rewrite (occurs_delete x t), decide_True by done. pose proof (occurs_nonneg x (delete t m)). lia. Qed.

Lemma occurs_inv x m : 0 < occurs x m -> exists t, m !! t = Some x.
Proof.
  unfold occurs. intros Hp. destruct (map_choose (filter (fun kv : nat * A => kv.2 = x) m)) as (t & y & Hy).
  - intros E. rewrite E, map_size_empty in Hp. lia.
  - apply map_lookup_filter_Some in Hy as [Hy Hx]. cbn in Hx. subst. by exists t.
Qed.

(** A value that occurs once has one key. *)
Lemma occurs_unique x t u m : occurs x m = 1 -> m !! t = Some x -> m !! u = Some x -> t = u.
Proof.
  intros H1 Ht Hu. rewrite (occurs_delete x t), decide_True in H1 by done. destruct (decide (t = u)) as [|Hne]; [done|].
  assert (delete t m !! u = Some x) as Hu' by (by rewrite lookup_delete_ne). apply occurs_pos in Hu'. lia.
Qed.

Lemma occurs_bound x m n : (forall t, is_Some (m !! t) -> (t < n)%nat) -> occurs x m <= Z.of_nat n.
Proof.
  intros Hn. unfold occurs. assert (size (filter (fun kv : nat * A => kv.2 = x) m) <= n)%nat; [|lia].
  transitivity (size m); [apply map_size_filter|]. rewrite <- (size_dom (D := gset nat)), <- (size_set_seq (C := gset nat) 0 n).
  apply subseteq_size. intros t Ht%elem_of_dom%Hn. apply elem_of_set_seq. lia.
Qed.

End occurs.
