(* ===== verification/Number.v ===== *)
(** * Number parsing and formatting

    Models lib/ctype.c and include/linux/ctype.h (Module [Ctype]),
    lib/kstrtox.c (Module [Kstrtox]), the string-to-number and
    number-to-string parts of lib/vsprintf.c (Module [Vsprintf]) and
    lib/cmdline.c (Module [Cmdline]).

    A C string is the list of its bytes before the terminating NUL; [ch s i]
    is [s[i]], which reads the NUL at [i = strlen(s)].  A pointer into a string
    is the suffix that starts there. *)

From Stdlib Require Import ZArith Lia.
From stdpp Require Import base numbers list gmap fin_maps option.
From S2P Require Import Prelude.

Local Open Scope Z_scope.

Definition cstr : Type := list Z.
Definition ch (s : list Z) (i : nat) : Z := default 0 (s !! i).

(** The bytes of a well-formed C string: no NUL inside. *)
Definition cstr_ok (s : list Z) : Prop := Forall (fun c => 0 < c < 256) s.

Module Ctype.

Definition _U : Z := 0x01.
Definition _L : Z := 0x02.
Definition _D : Z := 0x04.
Definition _C : Z := 0x08.
Definition _P : Z := 0x10.
Definition _S : Z := 0x20.
Definition _X : Z := 0x40.
Definition _SP : Z := 0x80.

Definition _ctype : list Z := [
_C;_C;_C;_C;_C;_C;_C;_C;
_C;_C.|_S;_C.|_S;_C.|_S;_C.|_S;_C.|_S;_C;_C;
_C;_C;_C;_C;_C;_C;_C;_C;
_C;_C;_C;_C;_C;_C;_C;_C;
_S.|_SP;_P;_P;_P;_P;_P;_P;_P;
_P;_P;_P;_P;_P;_P;_P;_P;
_D;_D;_D;_D;_D;_D;_D;_D;
_D;_D;_P;_P;_P;_P;_P;_P;
_P;_U.|_X;_U.|_X;_U.|_X;_U.|_X;_U.|_X;_U.|_X;_U;
_U;_U;_U;_U;_U;_U;_U;_U;
_U;_U;_U;_U;_U;_U;_U;_U;
_U;_U;_U;_P;_P;_P;_P;_P;
_P;_L.|_X;_L.|_X;_L.|_X;_L.|_X;_L.|_X;_L.|_X;_L;
_L;_L;_L;_L;_L;_L;_L;_L;
_L;_L;_L;_L;_L;_L;_L;_L;
_L;_L;_L;_P;_P;_P;_P;_C;
0;0;0;0;0;0;0;0;0;0;0;0;0;0;0;0;
0;0;0;0;0;0;0;0;0;0;0;0;0;0;0;0;
_S.|_SP;_P;_P;_P;_P;_P;_P;_P;_P;_P;_P;_P;_P;_P;_P;_P;
_P;_P;_P;_P;_P;_P;_P;_P;_P;_P;_P;_P;_P;_P;_P;_P;
_U;_U;_U;_U;_U;_U;_U;_U;_U;_U;_U;_U;_U;_U;_U;_U;
_U;_U;_U;_U;_U;_U;_U;_P;_U;_U;_U;_U;_U;_U;_U;_L;
_L;_L;_L;_L;_L;_L;_L;_L;_L;_L;_L;_L;_L;_L;_L;_L;
_L;_L;_L;_L;_L;_L;_L;_P;_L;_L;_L;_L;_L;_L;_L;_L].

Definition __ismask (x : Z) : Z := znth _ctype (u8 x).

Definition isalnum (c : Z) : bool := negb (__ismask c .& (_U .| _L .| _D) =? 0).
Definition isalpha (c : Z) : bool := negb (__ismask c .& (_U .| _L) =? 0).
Definition iscntrl (c : Z) : bool := negb (__ismask c .& _C =? 0).
Definition isdigit (c : Z) : bool := negb (__ismask c .& _D =? 0).
Definition islower (c : Z) : bool := negb (__ismask c .& _L =? 0).
Definition ispunct (c : Z) : bool := negb (__ismask c .& _P =? 0).
Definition isspace (c : Z) : bool := negb (__ismask c .& _S =? 0).
Definition isupper (c : Z) : bool := negb (__ismask c .& _U =? 0).
Definition isxdigit (c : Z) : bool := negb (__ismask c .& (_D .| _X) =? 0).

Definition __tolower (c : Z) : Z := if isupper c then u8 (c - (65 - 97)) else c.
Definition __toupper (c : Z) : Z := if islower c then u8 (c - (97 - 65)) else c.

End Ctype.

Module Kstrtox.
Import Ctype.

Definition _tolower (c : Z) : Z := c .| 0x20.

(** The digit value of a character, as the two range tests of the loop
    compute it; [None] when neither test holds. *)
Definition digit_val (c : Z) : option Z :=
  if (48 <=? c) && (c <=? 57) then Some (c - 48)
  else if (97 <=? _tolower c) && (_tolower c <=? 102) then Some (_tolower c - 97 + 10)
  else None.

Definition div_u64 (x y : Z) : Z := x / y.

Fixpoint _kstrtoull_loop (s : list Z) (base acc : Z) (ok : bool) : result Z :=
  match s with
  | [] => if ok then Ok acc else Err (- EINVAL)
  | c :: s' =>
      match digit_val c with
      | Some val =>
          if base <=? val then Err (- EINVAL)
          else if div_u64 (ULLONG_MAX - val) base <? acc then Err (- ERANGE)
          else _kstrtoull_loop s' base (u64 (acc * base + val)) true
      | None =>
          if (c =? 10) && (ch s' 0 =? 0)
          then (if ok then Ok acc else Err (- EINVAL))
          else Err (- EINVAL)
      end
  end.

Definition _kstrtoull (s : list Z) (base : Z) : result Z :=
  let base :=
    if base =? 0 then
      if ch s 0 =? 48 then
        if (_tolower (ch s 1) =? 120) && isxdigit (ch s 2) then 16 else 8
      else 10
    else base in
  let s :=
    if (base =? 16) && (ch s 0 =? 48) && (_tolower (ch s 1) =? 120)
    then drop 2 s else s in
  _kstrtoull_loop s base 0 false.

Definition kstrtoull (s : list Z) (base : Z) : result Z :=
  let s := if ch s 0 =? 43 then drop 1 s else s in
  _kstrtoull s base.

Definition kstrtoll (s : list Z) (base : Z) : result Z :=
  if ch s 0 =? 45 then
    match _kstrtoull (drop 1 s) base with
    | Err e => Err e
    | Ok tmp =>
        if 0 <=? s64 (u64 (- tmp)) then Err (- ERANGE) else Ok (s64 (u64 (- tmp)))
    end
  else
    match kstrtoull s base with
    | Err e => Err e
    | Ok tmp => if s64 tmp <? 0 then Err (- ERANGE) else Ok (s64 tmp)
    end.

Definition _kstrtoul `{LongWidth} (s : list Z) (base : Z) : result Z :=
  match kstrtoull s base with
  | Err e => Err e
  | Ok tmp => if negb (tmp =? u64 (ulong tmp)) then Err (- ERANGE) else Ok (ulong tmp)
  end.

Definition _kstrtol `{LongWidth} (s : list Z) (base : Z) : result Z :=
  match kstrtoll s base with
  | Err e => Err e
  | Ok tmp => if negb (tmp =? s64 (slong tmp)) then Err (- ERANGE) else Ok (slong tmp)
  end.

Definition kstrtouint (s : list Z) (base : Z) : result Z :=
  match kstrtoull s base with
  | Err e => Err e
  | Ok tmp => if negb (tmp =? u64 (u32 tmp)) then Err (- ERANGE) else Ok (u32 tmp)
  end.

Definition kstrtoint (s : list Z) (base : Z) : result Z :=
  match kstrtoll s base with
  | Err e => Err e
  | Ok tmp => if negb (tmp =? s64 (s32 tmp)) then Err (- ERANGE) else Ok (s32 tmp)
  end.

Definition kstrtou16 (s : list Z) (base : Z) : result Z :=
  match kstrtoull s base with
  | Err e => Err e
  | Ok tmp => if negb (tmp =? u64 (u16 tmp)) then Err (- ERANGE) else Ok (u16 tmp)
  end.

Definition kstrtos16 (s : list Z) (base : Z) : result Z :=
  match kstrtoll s base with
  | Err e => Err e
  | Ok tmp => if negb (tmp =? s64 (s16 tmp)) then Err (- ERANGE) else Ok (s16 tmp)
  end.

Definition kstrtou8 (s : list Z) (base : Z) : result Z :=
  match kstrtoull s base with
  | Err e => Err e
  | Ok tmp => if negb (tmp =? u64 (u8 tmp)) then Err (- ERANGE) else Ok (u8 tmp)
  end.

Definition kstrtos8 (s : list Z) (base : Z) : result Z :=
  match kstrtoll s base with
  | Err e => Err e
  | Ok tmp => if negb (tmp =? s64 (s8 tmp)) then Err (- ERANGE) else Ok (s8 tmp)
  end.

(** The C string held by a buffer: its bytes up to the first NUL. *)
Fixpoint cut_nul (l : list Z) : list Z :=
  match l with
  | [] => []
  | c :: l' => if c =? 0 then [] else c :: cut_nul l'
  end.

(** [user] is the readable user memory at [s]: [copy_from_user] copies [count]
    bytes when that many are readable and reports a fault otherwise.
    [type_size] is [sizeof(type)]. *)
Definition kstrto_from_user (g : list Z -> Z -> result Z) (type_size : Z)
    (user : list Z) (count base : Z) : result Z :=
  let sizeof_buf := 1 + type_size * 8 + 1 + 1 in
  let count := Z.min count (sizeof_buf - 1) in
  if Z.of_nat (length user) <? count then Err (- EFAULT)
  else g (cut_nul (take (Z.to_nat count) user)) base.

Definition kstrtoull_from_user := kstrto_from_user kstrtoull 8.
Definition kstrtoll_from_user := kstrto_from_user kstrtoll 8.
Definition kstrtouint_from_user := kstrto_from_user kstrtouint 4.
Definition kstrtoint_from_user := kstrto_from_user kstrtoint 4.
Definition kstrtou16_from_user := kstrto_from_user kstrtou16 2.
Definition kstrtos16_from_user := kstrto_from_user kstrtos16 2.
Definition kstrtou8_from_user := kstrto_from_user kstrtou8 1.
Definition kstrtos8_from_user := kstrto_from_user kstrtos8 1.

End Kstrtox.

Module Vsprintf.
Import Ctype.

Definition TOLOWER (x : Z) : Z := x .| 0x20.

Definition simple_guess_base (cp : list Z) : Z :=
  if ch cp 0 =? 48 then
    if (TOLOWER (ch cp 1) =? 120) && isxdigit (ch cp 2) then 16 else 8
  else 10.

Fixpoint simple_strtoull_loop (cp : list Z) (base result : Z) : Z * list Z :=
  match cp with
  | [] => (result, [])
  | c :: cp' =>
      if isxdigit c then
        let value := if isdigit c then c - 48 else TOLOWER c - 97 + 10 in
        if base <=? value then (result, cp)
        else simple_strtoull_loop cp' base (u64 (result * base + value))
      else (result, cp)
  end.

(** Returns the number and the suffix [*endp] points to. *)
Definition simple_strtoull (cp : list Z) (base : Z) : Z * list Z :=
  let base := if base =? 0 then simple_guess_base cp else base in
  let cp :=
    if (base =? 16) && (ch cp 0 =? 48) && (TOLOWER (ch cp 1) =? 120)
    then drop 2 cp else cp in
  simple_strtoull_loop cp base 0.

Definition simple_strtoul `{LongWidth} (cp : list Z) (base : Z) : Z * list Z :=
  let '(r, e) := simple_strtoull cp base in (ulong r, e).

Definition simple_strtol `{LongWidth} (cp : list Z) (base : Z) : Z * list Z :=
  if ch cp 0 =? 45
  then let '(r, e) := simple_strtoul (drop 1 cp) base in (slong (ulong (- r)), e)
  else let '(r, e) := simple_strtoul cp base in (slong r, e).

Definition simple_strtoll (cp : list Z) (base : Z) : Z * list Z :=
  if ch cp 0 =? 45
  then let '(r, e) := simple_strtoull (drop 1 cp) base in (s64 (u64 (- r)), e)
  else let '(r, e) := simple_strtoull cp base in (s64 r, e).

(** The decimal digits, least significant first, as stored from [buf] on. *)
Definition put_dec_trunc (q : Z) : list Z :=
  let d1 := (q .>> 4) .& 0xf in
  let d2 := (q .>> 8) .& 0xf in
  let d3 := q .>> 12 in
  let d0 := u32 (6 * (d3 + d2 + d1) + (q .& 0xf)) in
  let q := u32 (d0 * 0xcd) .>> 11 in
  let d0 := u32 (d0 - 10 * q) in
  let d1 := u32 (q + 9 * d3 + 5 * d2 + d1) in
  u8 (d0 + 48) ::
  if negb (d1 =? 0) then
    let q := u32 (d1 * 0xcd) .>> 11 in
    let d1 := u32 (d1 - 10 * q) in
    let d2 := u32 (q + 2 * d2) in
    u8 (d1 + 48) ::
    if negb (d2 =? 0) || negb (d3 =? 0) then
      let q := u32 (d2 * 0xd) .>> 7 in
      let d2 := u32 (d2 - 10 * q) in
      let d3 := u32 (q + 4 * d3) in
      u8 (d2 + 48) ::
      if negb (d3 =? 0) then
        let q := u32 (d3 * 0xcd) .>> 11 in
        let d3 := u32 (d3 - 10 * q) in
        u8 (d3 + 48) :: if negb (q =? 0) then [u8 (q + 48)] else []
      else []
    else []
  else [].

Definition put_dec_full (q : Z) : list Z :=
  let d1 := (q .>> 4) .& 0xf in
  let d2 := (q .>> 8) .& 0xf in
  let d3 := q .>> 12 in
  let d0 := u32 (6 * (d3 + d2 + d1) + (q .& 0xf)) in
  let q := u32 (d0 * 0xcd) .>> 11 in
  let d0 := u32 (d0 - 10 * q) in
  let c0 := u8 (d0 + 48) in
  let d1 := u32 (q + 9 * d3 + 5 * d2 + d1) in
  let q := u32 (d1 * 0xcd) .>> 11 in
  let d1 := u32 (d1 - 10 * q) in
  let c1 := u8 (d1 + 48) in
  let d2 := u32 (q + 2 * d2) in
  let q := u32 (d2 * 0xd) .>> 7 in
  let d2 := u32 (d2 - 10 * q) in
  let c2 := u8 (d2 + 48) in
  let d3 := u32 (q + 4 * d3) in
  let q := u32 (d3 * 0xcd) .>> 11 in
  let d3 := u32 (d3 - 10 * q) in
  [c0; c1; c2; u8 (d3 + 48); u8 (q + 48)].

(** Each round divides by 100000, so a 64-bit number needs at most four. *)
Fixpoint put_dec_loop (fuel : nat) (num : Z) : list Z :=
  match fuel with
  | O => []
  | S fuel =>
      if num <? 100000 then put_dec_trunc (u32 num)
      else put_dec_full (u32 (num mod 100000)) ++ put_dec_loop fuel (num / 100000)
  end.

Definition put_dec (num : Z) : list Z := put_dec_loop 5 num.

Definition ZEROPAD : Z := 1.
Definition SIGN : Z := 2.
Definition PLUS : Z := 4.
Definition SPACE : Z := 8.
Definition LEFT : Z := 16.
Definition SMALL : Z := 32.
Definition SPECIAL : Z := 64.

Record printf_spec := mk_spec {
  type : Z;
  flags : Z;
  base : Z;
  qualifier : Z;
  field_width : Z;
  precision : Z
}.

Definition flag (f bit : Z) : bool := negb (f .& bit =? 0).

Definition digits : list Z :=
  [48; 49; 50; 51; 52; 53; 54; 55; 56; 57; 65; 66; 67; 68; 69; 70].

(** The [do ... while (num)] loop of bases 8 and 16; at least 3 bits go in each
    round, so 22 rounds exhaust 64 bits. *)
Fixpoint number_digits (fuel : nat) (num mask shift locase : Z) : list Z :=
  match fuel with
  | O => []
  | S fuel =>
      let num' := num .>> shift in
      (znth digits (u8 num .& mask) .| locase) ::
      if num' =? 0 then [] else number_digits fuel num' mask shift locase
  end.

(** The output buffer: memory and the write position.  A character is stored
    only below [e] ([end]), and the position moves in any case. *)
Record obuf := mk_obuf { mem : gmap Z Z; pos : Z }.

Definition emit (e c : Z) (b : obuf) : obuf :=
  mk_obuf (if pos b <? e then <[pos b := c]> (mem b) else mem b) (pos b + 1).

(** [while (--width >= 0) { store c }] on a 16-bit signed width; the width
    left behind is returned. *)
Fixpoint pad_loop (fuel : nat) (e c w : Z) (b : obuf) : Z * obuf :=
  match fuel with
  | O => (w, b)
  | S fuel =>
      let w' := s16 (w - 1) in
      if 0 <=? w' then pad_loop fuel e c w' (emit e c b) else (w', b)
  end.

Definition pad (e c w : Z) (b : obuf) : Z * obuf := pad_loop (Z.to_nat 32769) e c w b.

(** [while (i <= --precision) { store '0' }]. *)
Fixpoint zeros_loop (fuel : nat) (e i p : Z) (b : obuf) : obuf :=
  match fuel with
  | O => b
  | S fuel =>
      let p' := s16 (p - 1) in
      if i <=? p' then zeros_loop fuel e i p' (emit e 48 b) else b
  end.

Fixpoint emit_rev (e : Z) (l : list Z) (b : obuf) : obuf :=
  match l with
  | [] => b
  | c :: l' => emit e c (emit_rev e l' b)
  end.

Definition number (b : obuf) (e num : Z) (spec : printf_spec) : obuf :=
  let need_pfx := flag (flags spec) SPECIAL && negb (base spec =? 10) in
  let locase := flags spec .& SMALL in
  let fl := if flag (flags spec) LEFT
            then u8 (flags spec .& Z.lnot ZEROPAD) else flags spec in
  let '(sign, num, fw) :=
    if flag fl SIGN then
      if s64 num <? 0 then (45, u64 (- s64 num), s16 (field_width spec - 1))
      else if flag fl PLUS then (43, num, s16 (field_width spec - 1))
      else if flag fl SPACE then (32, num, s16 (field_width spec - 1))
      else (0, num, field_width spec)
    else (0, num, field_width spec) in
  let fw := if need_pfx then
              let fw := s16 (fw - 1) in
              if base spec =? 16 then s16 (fw - 1) else fw
            else fw in
  let tmp :=
    if num =? 0 then [48]
    else if negb (base spec =? 10) then
      number_digits 22 num (base spec - 1) (if base spec =? 16 then 4 else 3) locase
    else put_dec num in
  let i := Z.of_nat (length tmp) in
  let prec := if precision spec <? i then s16 i else precision spec in
  let fw := s16 (fw - prec) in
  let '(fw, b) := if negb (flag fl (ZEROPAD + LEFT)) then pad e 32 fw b else (fw, b) in
  let b := if negb (sign =? 0) then emit e sign b else b in
  let b := if need_pfx then
             let b := emit e 48 b in
             if base spec =? 16 then emit e (88 .| locase) b else b
           else b in
  let '(fw, b) := if negb (flag fl LEFT)
                  then pad e (if flag fl ZEROPAD then 48 else 32) fw b else (fw, b) in
  let b := zeros_loop (Z.to_nat 32769) e i prec b in
  let b := emit_rev e tmp b in
  snd (pad e 32 fw b).

End Vsprintf.

Module Cmdline.
Import Vsprintf.

Section cmdline.
Context `{LongWidth}.

(** The stores of [for (x = x0; x < upper_range; x++) *pint++ = x]. *)
Fixpoint range_stores (n : nat) (p x : Z) (ints : gmap Z Z) : gmap Z Z :=
  match n with
  | O => ints
  | S n => range_stores n (p + 1) (x + 1) (<[p := x]> ints)
  end.

(** [p] is the index of [pint] in the caller's array.  Returns the increment,
    the advanced string and the array. *)
Definition get_range (str : list Z) (p : Z) (ints : gmap Z Z) : Z * list Z * gmap Z Z :=
  let str := drop 1 str in
  let x0 := default 0 (ints !! p) in
  let upper_range := s32 (fst (simple_strtol str 0)) in
  let inc_counter := s32 (upper_range - x0) in
  (inc_counter, str, range_stores (Z.to_nat (upper_range - x0)) p x0 ints).

(** Returns the code, the value stored through [pint] if one is stored, and
    the advanced string; [None] is a null [*str]. *)
Definition get_option (str : option (list Z)) : Z * option Z * option (list Z) :=
  match str with
  | None => (0, None, None)
  | Some cur =>
      if ch cur 0 =? 0 then (0, None, Some cur)
      else
        let '(v, rest) := simple_strtol cur 0 in
        let pint := Some (s32 v) in
        if (length cur =? length rest)%nat then (0, pint, Some rest)
        else if ch rest 0 =? 44 then (2, pint, Some (drop 1 rest))
        else if ch rest 0 =? 45 then (3, pint, Some rest)
        else (1, pint, Some rest)
  end.

Definition store_opt (i : Z) (v : option Z) (ints : gmap Z Z) : gmap Z Z :=
  match v with Some v => <[i := v]> ints | None => ints end.

(** Every iteration that continues consumes at least one character, so
    [length str + 1] rounds are enough. *)
Fixpoint get_options_loop (fuel : nat) (str : list Z) (nints i : Z) (ints : gmap Z Z)
    : Z * list Z * gmap Z Z :=
  match fuel with
  | O => (i, str, ints)
  | S fuel =>
      if i <? nints then
        let '(res, v, str') := get_option (Some str) in
        let str := default str str' in
        let ints := store_opt i v ints in
        if res =? 0 then (i, str, ints)
        else if res =? 3 then
          let '(range_nums, str, ints) := get_range str i ints in
          if range_nums <? 0 then (i, str, ints)
          else get_options_loop fuel str nints (i + (range_nums - 1) + 1) ints
        else if res =? 1 then (i + 1, str, ints)
        else get_options_loop fuel str nints (i + 1) ints
      else (i, str, ints)
  end.

Definition get_options (str : list Z) (nints : Z) (ints : gmap Z Z) : list Z * gmap Z Z :=
  let '(i, str, ints) := get_options_loop (S (length str)) str nints 1 ints in
  (str, <[0 := i - 1]> ints).

Definition memparse (ptr : list Z) : Z * list Z :=
  let '(ret, endptr) := simple_strtoull ptr 0 in
  let c := ch endptr 0 in
  if (c =? 71) || (c =? 103)
  then (u64 (u64 (u64 (ret .<< 10) .<< 10) .<< 10), drop 1 endptr)
  else if (c =? 77) || (c =? 109)
  then (u64 (u64 (ret .<< 10) .<< 10), drop 1 endptr)
  else if (c =? 75) || (c =? 107)
  then (u64 (ret .<< 10), drop 1 endptr)
  else (ret, endptr).

End cmdline.
End Cmdline.

(** ** Specifications *)

(** The value of a list of digits, most significant first. *)
Definition digits_value (b : Z) (ds : list Z) (acc : Z) : Z :=
  foldl (fun a d => a * b + d) acc ds.

(** The digits of [n] in base [b], most significant first, no leading zero. *)
Fixpoint to_digits (fuel : nat) (b n : Z) : list Z :=
  match fuel with
  | O => []
  | S fuel => if n <? b then [n] else to_digits fuel b (n / b) ++ [n mod b]
  end.

Definition digit_char (locase d : Z) : Z := znth Vsprintf.digits d .| locase.

(** The text of a number: sign, prefix, zero-extended digits and padding, as
    the printf family documents it. *)
Definition number_text (num : Z) (spec : Vsprintf.printf_spec) : list Z :=
  let fl := Vsprintf.flag (Vsprintf.flags spec) in
  let b := Vsprintf.base spec in
  let locase := if fl Vsprintf.SMALL then 32 else 0 in
  let mag := if fl Vsprintf.SIGN && (s64 num <? 0) then - s64 num else num in
  let sign :=
    if fl Vsprintf.SIGN then
      if s64 num <? 0 then [45]
      else if fl Vsprintf.PLUS then [43]
      else if fl Vsprintf.SPACE then [32] else []
    else [] in
  let pfx :=
    if fl Vsprintf.SPECIAL && negb (b =? 10) then
      if b =? 16 then [48; 88 .| locase] else [48]
    else [] in
  let ds := digit_char (if b =? 10 then 0 else locase) <$> to_digits 64 b mag in
  let body := replicate (Z.to_nat (Vsprintf.precision spec) - length ds) 48 ++ ds in
  let fill := (Z.to_nat (Vsprintf.field_width spec)
               - (length sign + length pfx + length body))%nat in
  if fl Vsprintf.LEFT then sign ++ pfx ++ body ++ replicate fill 32
  else if fl Vsprintf.ZEROPAD then sign ++ pfx ++ replicate fill 48 ++ body
  else replicate fill 32 ++ sign ++ pfx ++ body.

(** ** Parsing: lemmas *)

Section parsing.
Import Ctype Kstrtox Vsprintf.

Lemma digit_val_range c v : digit_val c = Some v -> 0 <= v < 16.
Proof.
  unfold digit_val. destruct (_ && _) eqn:E1.
  - intros [= <-]. apply andb_prop in E1 as [? ?]. bool_lia.
  - destruct ((97 <=? _tolower c) && _) eqn:E2; [|done].
    intros [= <-]. apply andb_prop in E2 as [? ?]. bool_lia.
Qed.

Lemma digits_value_app b ds ds' acc :
  digits_value b (ds ++ ds') acc = digits_value b ds' (digits_value b ds acc).
Proof. unfold digits_value. apply foldl_app. Qed.

Lemma digits_value_ge b ds acc :
  1 <= b -> Forall (fun d => 0 <= d) ds -> 0 <= acc -> acc <= digits_value b ds acc.
Proof.
  intros Hb Hds. revert acc. induction Hds as [|d ds Hd Hds IH]; intros acc Hacc; cbn; [lia|].
  fold (digits_value b ds (acc * b + d)). specialize (IH (acc * b + d)). nia.
Qed.

(** The overflow test is exact. *)
Lemma overflow_test acc base val :
  1 <= base -> 0 <= val <= ULLONG_MAX ->
  (div_u64 (ULLONG_MAX - val) base <? acc) = (ULLONG_MAX <? acc * base + val).
Proof.
  intros Hb Hv. unfold div_u64. generalize ULLONG_MAX Hv. intros M HvM.
  destruct (Z.ltb_spec M (acc * base + val)) as [H|H].
  - apply Z.ltb_lt. apply Z.div_lt_upper_bound; lia.
  - apply Z.ltb_ge. apply Z.div_le_lower_bound; lia.
Qed.

(** The characters of a numeral: the digits [ds], possibly followed by one
    newline. *)
Definition numeral (s ds : list Z) : Prop :=
  mapM digit_val s = Some ds \/ exists s', s = s' ++ [10] /\ mapM digit_val s' = Some ds.

Lemma numeral_cons c s d ds :
  digit_val c = Some d -> numeral s ds -> numeral (c :: s) (d :: ds).
Proof.
  intros Hc [H|(s' & -> & H)].
  - left. cbn. by rewrite Hc, H.
  - right. exists (c :: s'). split; [done|]. cbn. by rewrite Hc, H.
Qed.

Lemma numeral_cons_inv c s ds :
  numeral (c :: s) ds -> is_Some (digit_val c) ->
  exists d ds', digit_val c = Some d /\ ds = d :: ds' /\ numeral s ds'.
Proof.
  intros [H|(s' & Hs & H)] [d Hd].
  - cbn in H. rewrite Hd in H. cbn in H. destruct (mapM digit_val s) eqn:E; [|done].
    injection H as <-. exists d, l. repeat split; [done..|]. by left.
  - destruct s' as [|c' s'].
    + cbn in Hs. injection Hs as -> _. done.
    + cbn in Hs. injection Hs as <- ->. cbn in H. rewrite Hd in H. cbn in H.
      destruct (mapM digit_val s') eqn:E; [|done].
      injection H as <-. exists d, l. repeat split; [done..|]. right. by exists s'.
Qed.

Lemma loop_complete s base ds acc ok :
  2 <= base -> numeral s ds -> Forall (fun d => d < base) ds -> 0 <= acc <= ULLONG_MAX ->
  _kstrtoull_loop s base acc ok =
    if ULLONG_MAX <? digits_value base ds acc then Err (- ERANGE)
    else if ok || negb (bool_decide (ds = [])) then Ok (digits_value base ds acc)
    else Err (- EINVAL).
Proof.
  intros Hb. revert ds acc ok. induction s as [|c s IH]; intros ds acc ok Hn Hds Hacc.
  - assert (ds = []) as ->.
    { destruct Hn as [[= <-]|(s' & Hs & _)]; [done|]. by destruct s'. }
    cbn. destruct (Z.ltb_spec ULLONG_MAX acc); [lia|]. by destruct ok.
  - cbn [_kstrtoull_loop]. destruct (digit_val c) as [val|] eqn:Hc.
    + destruct (numeral_cons_inv _ _ _ Hn) as (d & ds' & Hd & -> & Hn'); [by eexists|].
      rewrite Hc in Hd. injection Hd as <-.
      pose proof (digit_val_range _ _ Hc). inversion Hds as [|? ? Hlt Hds']; subst.
      destruct (Z.leb_spec base val); [lia|].
      rewrite overflow_test by (unfold ULLONG_MAX; lia).
      change (digits_value base (val :: ds') acc) with (digits_value base ds' (acc * base + val)).
      assert (Forall (fun d => 0 <= d) ds') as Hpos.
      { destruct Hn' as [Hm|(s' & -> & Hm)];
          apply mapM_Some_1 in Hm; apply Forall_lookup; intros i x Hi;
          destruct (Forall2_lookup_r _ _ _ _ _ Hm Hi) as (y & _ & Hy);
          pose proof (digit_val_range _ _ Hy); lia. }
      pose proof (digits_value_ge base ds' (acc * base + val) ltac:(lia) Hpos ltac:(nia)).
      destruct (Z.ltb_spec ULLONG_MAX (acc * base + val)).
      * by destruct (Z.ltb_spec ULLONG_MAX (digits_value base ds' (acc * base + val))); [|lia].
      * rewrite u64_small by (unfold ULLONG_MAX in *; nia).
        rewrite (IH ds') by (done || nia). cbn. rewrite orb_true_r. done.
    + destruct Hn as [Hm|(s' & Hs & Hm)].
      { cbn in Hm. by rewrite Hc in Hm. }
      destruct s' as [|c' s']; cbn in Hs.
      * injection Hs as -> ->. cbn in Hm. injection Hm as <-. cbn.
        destruct (Z.ltb_spec ULLONG_MAX acc); [lia|]. by destruct ok.
      * injection Hs as <- ->. cbn in Hm. by rewrite Hc in Hm.
Qed.

Lemma loop_sound s base acc ok n :
  cstr_ok s -> _kstrtoull_loop s base acc ok = Ok n ->
  exists ds, numeral s ds /\ Forall (fun d => d < base) ds /\ (ok = false -> ds <> []).
Proof.
  revert acc ok. induction s as [|c s IH]; intros acc ok Hs; cbn [_kstrtoull_loop].
  - destruct ok; [|done]. intros _. exists []. split; [by left|]. done.
  - inversion Hs as [|? ? Hc Hs']; subst.
    destruct (digit_val c) as [val|] eqn:Hv.
    + destruct (Z.leb_spec base val); [done|]. destr_if; [done|].
      intros Hl. destruct (IH _ _ Hs' Hl) as (ds & Hn & Hds & _).
      exists (val :: ds). split; [by apply numeral_cons|]. split; [by constructor|done].
    + destruct (_ && _) eqn:E; [|done]. destruct ok; [|done]. intros _.
      apply andb_prop in E as [E1%Z.eqb_eq E2%Z.eqb_eq]. subst c.
      exists []. split; [|done]. right. exists []. split; [|done]. cbn. f_equal.
      destruct s as [|c s]; [done|]. cbn in E2. inversion Hs'; subst. lia.
Qed.

End parsing.

(** ** Formatting: lemmas *)

(** Digits of [n], least significant first. *)
Fixpoint lsd (fuel : nat) (b n : Z) : list Z :=
  match fuel with
  | O => []
  | S fuel => n mod b :: if n / b =? 0 then [] else lsd fuel b (n / b)
  end.

Section formatting.
Import Ctype Kstrtox Vsprintf.

Lemma rev_lsd fuel b n : 1 < b -> 0 <= n -> rev (lsd fuel b n) = to_digits fuel b n.
Proof.
  intros Hb. revert n. induction fuel as [|fuel IH]; intros n Hn; [done|].
  cbn. destruct (Z.ltb_spec n b) as [Hlt|Hge].
  - rewrite (Z.div_small n b), (Z.mod_small n b) by lia. done.
  - assert (0 < n / b) by (apply Z.div_str_pos; lia).
    destruct (Z.eqb_spec (n / b) 0); [lia|]. cbn. rewrite IH by lia. done.
Qed.

Lemma to_digits_fuel f1 f2 b n :
  1 < b -> 0 <= n < b ^ Z.of_nat f1 -> n < b ^ Z.of_nat f2 ->
  (0 < f1)%nat -> (0 < f2)%nat -> to_digits f1 b n = to_digits f2 b n.
Proof.
  intros Hb. revert f2 n. induction f1 as [|f1 IH]; intros f2 n Hn1 Hn2 ? ?; [lia|].
  destruct f2 as [|f2]; [lia|]. cbn. destruct (Z.ltb_spec n b) as [|Hge]; [done|].
  rewrite Nat2Z.inj_succ, Z.pow_succ_r in Hn1, Hn2 by lia.
  destruct f1 as [|f1]; [cbn in Hn1; lia|]. destruct f2 as [|f2]; [cbn in Hn2; lia|].
  rewrite (IH (S f2)); [done| | |lia|lia].
  - split; [apply Z.div_pos; lia|]. apply Z.div_lt_upper_bound; lia.
  - apply Z.div_lt_upper_bound; lia.
Qed.

Lemma to_digits_value fuel b n :
  1 < b -> 0 <= n < b ^ Z.of_nat fuel -> digits_value b (to_digits fuel b n) 0 = n.
Proof.
  intros Hb. revert n. induction fuel as [|fuel IH]; intros n Hn; [cbn in *; lia|].
  cbn [to_digits]. destruct (Z.ltb_spec n b) as [|Hge]; [cbn; lia|].
  rewrite Nat2Z.inj_succ, Z.pow_succ_r in Hn by lia.
  rewrite digits_value_app, IH.
  - cbn. pose proof (Z.div_mod n b). lia.
  - split; [apply Z.div_pos; lia|]. apply Z.div_lt_upper_bound; lia.
Qed.

Lemma to_digits_range fuel b n :
  1 < b -> 0 <= n -> Forall (fun d => 0 <= d < b) (to_digits fuel b n).
Proof.
  intros Hb. revert n. induction fuel as [|fuel IH]; intros n Hn; cbn; [constructor|].
  destruct (Z.ltb_spec n b); [constructor; [lia|constructor]|].
  apply Forall_app. split; [apply IH, Z.div_pos; lia|].
  constructor; [apply Z.mod_pos_bound; lia|constructor].
Qed.

Lemma to_digits_head fuel b n :
  1 < b -> 0 < n -> (0 < fuel)%nat -> n < b ^ Z.of_nat fuel ->
  exists d ds, to_digits fuel b n = d :: ds /\ 0 < d.
Proof.
  intros Hb. revert n. induction fuel as [|fuel IH]; intros n Hn ? Hlt; [lia|]. cbn.
  destruct (Z.ltb_spec n b) as [|Hge]; [by exists n, []|].
  rewrite Nat2Z.inj_succ, Z.pow_succ_r in Hlt by lia.
  destruct fuel as [|fuel]; [cbn in Hlt; lia|].
  destruct (IH (n / b)) as (d & ds & -> & Hd).
  - apply Z.div_str_pos; lia.
  - lia.
  - apply Z.div_lt_upper_bound; lia.
  - by exists d, (ds ++ [n mod b]).
Qed.

Lemma digit_char_dec d : 0 <= d < 10 -> digit_char 0 d = d + 48.
Proof.
  intros Hd. apply Z.eqb_eq.
  apply (forallb_below (fun d => digit_char 0 d =? d + 48) 10); [|done].
  vm_compute. reflexivity.
Qed.

(** Division by ten by multiplication, in the ranges the code uses it. *)
Lemma div10_cd x : 0 <= x < 1024 -> u32 (x * 0xcd) .>> 11 = x / 10.
Proof.
  intros Hx. apply Z.eqb_eq.
  apply (forallb_below (fun x => u32 (x * 0xcd) .>> 11 =? x / 10) 1024); [|done].
  vm_compute. reflexivity.
Qed.

Lemma div10_d x : 0 <= x < 69 -> u32 (x * 0xd) .>> 7 = x / 10.
Proof.
  intros Hx. apply Z.eqb_eq.
  apply (forallb_below (fun x => u32 (x * 0xd) .>> 7 =? x / 10) 69); [|done].
  vm_compute. reflexivity.
Qed.

Lemma nibbles q : 0 <= q < 100000 ->
  exists a0 a1 a2 a3, q .& 0xf = a0 /\ (q .>> 4) .& 0xf = a1 /\ (q .>> 8) .& 0xf = a2 /\
    q .>> 12 = a3 /\ q = 4096 * a3 + 256 * a2 + 16 * a1 + a0 /\
    0 <= a0 < 16 /\ 0 <= a1 < 16 /\ 0 <= a2 < 16 /\ 0 <= a3 < 25.
Proof.
  intros Hq. eexists _, _, _, _. repeat split.
  all: change 0xf with (2 ^ 4 - 1); rewrite ?land_ones_mod, ?Z.shiftr_div_pow2 by lia.
  all: change (2 ^ 12) with 4096; change (2 ^ 8) with 256; change (2 ^ 4) with 16; zdm.
Qed.

(** One decimal digit of the carry chain. *)
Lemma put_digit x : 0 <= x < 2 ^ 32 -> u8 (u32 (x - 10 * (x / 10)) + 48) = x mod 10 + 48.
Proof.
  intros Hx. assert (x - 10 * (x / 10) = x mod 10) as -> by zdm.
  assert (0 <= x mod 10 < 10) by (apply Z.mod_pos_bound; lia).
  rewrite u32_small by lia. apply uwrap_small. lia.
Qed.

(** The carry chain both printers share: names the nibbles [a0..a3] and the
    running sums [d0..d3], and relates the sums to the quotients of [q]. *)
Ltac carry_chain q Hq :=
  destruct (nibbles q Hq) as (a0 & a1 & a2 & a3 & E0 & E1 & E2 & E3 & Eq & R0 & R1 & R2 & R3);
  rewrite E0, E1, E2, E3; cbv zeta;
  rewrite (u32_small (6 * (a3 + a2 + a1) + a0)) by lia;
  rewrite (div10_cd (6 * (a3 + a2 + a1) + a0)) by lia;
  set (d0 := 6 * (a3 + a2 + a1) + a0); rewrite (put_digit d0) by lia;
  rewrite (u32_small (d0 / 10 + 9 * a3 + 5 * a2 + a1)) by zdm;
  set (d1 := d0 / 10 + 9 * a3 + 5 * a2 + a1);
  assert (B1 : 0 <= d1 < 1024) by (subst d1 d0; zdm);
  rewrite (div10_cd d1), (put_digit d1) by lia;
  rewrite (u32_small (d1 / 10 + 2 * a2)) by zdm; set (d2 := d1 / 10 + 2 * a2);
  assert (B2 : 0 <= d2 < 69) by (subst d2 d1 d0; zdm);
  rewrite (div10_d d2), (put_digit d2) by lia;
  rewrite (u32_small (d2 / 10 + 4 * a3)) by zdm; set (d3 := d2 / 10 + 4 * a3);
  assert (B3 : 0 <= d3 < 1024) by (subst d3; zdm);
  rewrite (div10_cd d3), (put_digit d3) by lia;
  rewrite (u8_small (d3 / 10 + 48)) by zdm;
  assert (H1 : q / 10 = 400 * a3 + 20 * a2 + d1) by (subst d1 d0; zdm);
  assert (P1 : d1 = 0 <-> q / 10 = 0) by (subst d1; zdm);
  assert (H2 : q / 100 = 40 * a3 + d2) by (clearbody d1; subst d2; zdm);
  assert (H3 : q / 1000 = d3) by (clearbody d2; subst d3; zdm);
  assert (M0 : d0 mod 10 = q mod 10) by (subst d0; zdm);
  assert (M1 : d1 mod 10 = q / 10 mod 10) by (rewrite H1; zdm);
  assert (M2 : d2 mod 10 = q / 100 mod 10) by (rewrite H2; zdm).

Lemma put_dec_full_spec q : 0 <= q < 100000 ->
  put_dec_full q = (fun d => d + 48) <$>
    [q mod 10; q / 10 mod 10; q / 100 mod 10; q / 1000 mod 10; q / 10000].
Proof.
  intros Hq. unfold put_dec_full. carry_chain q Hq. cbn.
  rewrite H3. assert (q / 10000 = d3 / 10) as -> by zdm. congruence.
Qed.

Lemma put_dec_trunc_spec q : 0 <= q < 100000 ->
  put_dec_trunc q = (fun d => d + 48) <$> lsd 5 10 q.
Proof.
  intros Hq. unfold put_dec_trunc. carry_chain q Hq. cbn [lsd].
  rewrite !Z.div_div by lia. change (10 * 10) with 100. change (100 * 10) with 1000.
  change (1000 * 10) with 10000. change (10000 * 10) with 100000.
  assert (q / 100000 = 0) as -> by zdm. rewrite M0. cbn [fmap list_fmap]. f_equal.
  destruct (Z.eqb_spec d1 0), (Z.eqb_spec (q / 10) 0); [done|lia|lia|]. cbn [negb fmap list_fmap].
  rewrite M1. f_equal.
  assert (d2 = 0 /\ a3 = 0 <-> q / 100 = 0) by lia.
  destruct (Z.eqb_spec d2 0), (Z.eqb_spec a3 0), (Z.eqb_spec (q / 100) 0);
    cbn [negb orb fmap list_fmap]; try lia; try done; rewrite M2; f_equal.
  all: rewrite <- H3; destruct (Z.eqb_spec (q / 1000) 0); [done|]; cbn [negb fmap list_fmap]; f_equal.
  all: assert (q / 1000 / 10 = q / 10000) as -> by zdm.
  all: destruct (Z.eqb_spec (q / 10000) 0); [done|]; cbn; f_equal; zdm.
Qed.

Lemma lsd_fuel f1 f2 b n :
  1 < b -> 0 <= n < b ^ Z.of_nat f1 -> n < b ^ Z.of_nat f2 ->
  (0 < f1)%nat -> (0 < f2)%nat -> lsd f1 b n = lsd f2 b n.
Proof.
  intros. apply rev_inj. rewrite !rev_lsd by lia. by apply to_digits_fuel.
Qed.

Lemma lsd_five k n : 100000 <= n ->
  lsd (5 + k) 10 n =
    [n mod 10; n / 10 mod 10; n / 100 mod 10; n / 1000 mod 10; n / 10000 mod 10]
    ++ lsd k 10 (n / 100000).
Proof.
  intros Hn. cbn [lsd Nat.add app]. rewrite !Z.div_div by lia.
  change (10 * 10) with 100. change (100 * 10) with 1000.
  change (1000 * 10) with 10000. change (10000 * 10) with 100000.
  repeat (destr_if; [exfalso; zdm|]). done.
Qed.

Lemma put_dec_loop_spec fuel num :
  0 <= num < 100000 ^ Z.of_nat (S fuel) ->
  put_dec_loop (S fuel) num = (fun d => d + 48) <$> lsd (5 * S fuel) 10 num.
Proof.
  revert num. induction fuel as [|fuel IH]; intros num Hn.
  - cbn [put_dec_loop]. change (100000 ^ Z.of_nat 1) with 100000 in Hn.
    destruct (Z.ltb_spec num 100000); [|lia].
    rewrite u32_small, put_dec_trunc_spec by lia. done.
  - remember (S fuel) as f. cbn [put_dec_loop]. destruct (Z.ltb_spec num 100000) as [Hlt|Hge].
    + rewrite u32_small, put_dec_trunc_spec by lia. f_equal.
      apply lsd_fuel; [lia|..|lia|lia].
      * change (10 ^ Z.of_nat 5) with 100000. lia.
      * eapply Z.lt_le_trans; [exact Hlt|]. change 100000 with (10 ^ 5).
        apply Z.pow_le_mono_r; lia.
    + rewrite Nat2Z.inj_succ, Z.pow_succ_r in Hn by lia.
      rewrite u32_small by zdm. rewrite put_dec_full_spec by zdm.
      replace (5 * S f)%nat with (5 + 5 * f)%nat by lia.
      rewrite lsd_five, fmap_app by lia. subst f. rewrite IH.
      * f_equal. cbn. do 5 (apply (f_equal2 cons); [zdm|]). done.
      * split; [apply Z.div_pos; lia|]. apply Z.div_lt_upper_bound; lia.
Qed.

Lemma put_dec_spec num : 0 <= num < 2 ^ 64 ->
  put_dec num = digit_char 0 <$> lsd 64 10 num.
Proof.
  intros Hn. unfold put_dec. rewrite put_dec_loop_spec by (cbn; lia).
  rewrite (lsd_fuel _ 64) by (cbn; lia).
  assert (Forall (fun d => 0 <= d < 10) (lsd 64 10 num)) as HF.
  { rewrite <- (rev_involutive (lsd _ _ _)), rev_lsd by lia.
    apply Forall_rev, to_digits_range; lia. }
  apply list_fmap_ext. intros i d Hi. symmetry. apply digit_char_dec.
  by apply (Forall_lookup_1 _ _ _ _ HF Hi).
Qed.

(** The shift-and-mask loop prints the digits of bases 8 and 16. *)
Lemma number_digits_spec fuel num b sh locase :
  b = 2 ^ sh -> 0 < sh <= 8 -> 0 <= num ->
  number_digits fuel num (b - 1) sh locase = digit_char locase <$> lsd fuel b num.
Proof.
  intros -> Hsh. revert num. induction fuel as [|fuel IH]; intros num Hn; [done|].
  cbn [number_digits lsd]. rewrite Z.shiftr_div_pow2, land_ones_mod by lia.
  assert (u8 num mod 2 ^ sh = num mod 2 ^ sh) as ->.
  { unfold u8, uwrap. apply Z.mod_mod_divide.
    exists (2 ^ (8 - sh)). rewrite <- Z.pow_add_r by lia. f_equal. lia. }
  assert (0 <= num / 2 ^ sh) by (apply Z.div_pos; lia).
  cbn. f_equal. destr_if; [done|]. by apply IH.
Qed.

Definition emit_all (e : Z) (l : list Z) (b : obuf) : obuf := foldl (fun b c => emit e c b) b l.

Lemma emit_all_app e l k b : emit_all e (l ++ k) b = emit_all e k (emit_all e l b).
Proof. apply foldl_app. Qed.

Lemma emit_rev_all e l b : emit_rev e l b = emit_all e (rev l) b.
Proof.
  induction l as [|c l IH]; [done|]. cbn [emit_rev rev]. rewrite emit_all_app, IH. done.
Qed.

(** What a sequence of stores leaves in memory: the text, cut at [e]. *)
Lemma emit_all_mem e l b :
  pos (emit_all e l b) = pos b + Z.of_nat (length l) /\
  forall a, mem (emit_all e l b) !! a =
    if (pos b <=? a) && (a <? Z.min e (pos b + Z.of_nat (length l)))
    then l !! Z.to_nat (a - pos b) else mem b !! a.
Proof.
  revert b. induction l as [|c l IH]; intros b.
  - change (Z.of_nat (length [])) with 0. rewrite Z.add_0_r. split; [done|]. intros a.
    destruct (Z.leb_spec (pos b) a), (Z.ltb_spec a (Z.min e (pos b))); done || lia.
  - change (emit_all e (c :: l) b) with (emit_all e l (emit e c b)).
    destruct (IH (emit e c b)) as [Hp Hm]. cbn [pos emit length] in *. split; [lia|].
    intros a. rewrite Hm. clear Hp Hm IH. cbn [mem emit].
    destruct (Z.leb_spec (pos b + 1) a), (Z.leb_spec (pos b) a); try lia; cbn [andb].
    + replace (Z.min e (pos b + Z.of_nat (S (length l)))) with (Z.min e (pos b + 1 + Z.of_nat (length l))) by lia.
      destr_if.
      * replace (Z.to_nat (a - pos b)) with (S (Z.to_nat (a - (pos b + 1)))) by lia. done.
      * destr_if; [|done]. rewrite lookup_insert_ne by lia. done.
    + assert (a = pos b) as -> by lia. rewrite Z.sub_diag. cbn.
      destruct (Z.ltb_spec (pos b) e), (Z.ltb_spec (pos b) (Z.min e (pos b + Z.of_nat (S (length l)))));
        try lia; [by rewrite lookup_insert_eq|done].
    + destr_if; [|done]. rewrite lookup_insert_ne by lia. done.
Qed.

Lemma pad_loop_spec fuel e c w b :
  -32768 < w <= 32767 -> Z.max 0 w < Z.of_nat fuel ->
  pad_loop fuel e c w b =
    (if 0 <? w then -1 else w - 1, emit_all e (replicate (Z.to_nat w) c) b).
Proof.
  revert w b. induction fuel as [|fuel IH]; intros w b Hw Hf; [lia|]. cbn [pad_loop].
  unfold s16. rewrite swrap_small by lia.
  destruct (Z.leb_spec 0 (w - 1)).
  - rewrite IH by lia. destruct (Z.ltb_spec 0 w); [|lia].
    replace (Z.to_nat w) with (S (Z.to_nat (w - 1))) by lia. cbn [replicate].
    f_equal. destr_if; lia.
  - destruct (Z.ltb_spec 0 w); [lia|]. replace (Z.to_nat w) with 0%nat by lia. done.
Qed.

Lemma zeros_loop_spec fuel e i p b :
  0 <= i -> 0 <= p <= 32767 -> p - i < Z.of_nat fuel -> (0 < fuel)%nat ->
  zeros_loop fuel e i p b = emit_all e (replicate (Z.to_nat p - Z.to_nat i) 48) b.
Proof.
  intros Hi. revert p b. induction fuel as [|fuel IH]; intros p b Hp Hf ?; [lia|].
  cbn [zeros_loop]. unfold s16. rewrite swrap_small by lia. destruct (Z.leb_spec i (p - 1)).
  - rewrite IH by lia.
    replace (Z.to_nat p - Z.to_nat i)%nat with (S (Z.to_nat (p - 1) - Z.to_nat i)) by lia. done.
  - replace (Z.to_nat p - Z.to_nat i)%nat with 0%nat by lia. done.
Qed.

(** The flag word after [LEFT] has cleared [ZEROPAD]. *)
Definition eff_flags (f : Z) : Z := if flag f LEFT then u8 (f .& Z.lnot ZEROPAD) else f.

Lemma eff_flags_spec f : 0 <= f < 256 ->
  flag (eff_flags f) SIGN = flag f SIGN /\ flag (eff_flags f) PLUS = flag f PLUS /\
  flag (eff_flags f) SPACE = flag f SPACE /\ flag (eff_flags f) LEFT = flag f LEFT /\
  flag (eff_flags f) ZEROPAD = flag f ZEROPAD && negb (flag f LEFT) /\
  flag (eff_flags f) (ZEROPAD + LEFT) = flag f ZEROPAD || flag f LEFT /\
  f .& SMALL = if flag f SMALL then 32 else 0.
Proof.
  intros Hf.
  assert (H : (eqb (flag (eff_flags f) SIGN) (flag f SIGN) && eqb (flag (eff_flags f) PLUS) (flag f PLUS)
    && eqb (flag (eff_flags f) SPACE) (flag f SPACE) && eqb (flag (eff_flags f) LEFT) (flag f LEFT)
    && eqb (flag (eff_flags f) ZEROPAD) (flag f ZEROPAD && negb (flag f LEFT))
    && eqb (flag (eff_flags f) (ZEROPAD + LEFT)) (flag f ZEROPAD || flag f LEFT)
    && (f .& SMALL =? if flag f SMALL then 32 else 0)) = true).
  { revert f Hf. apply (forallb_below _ 256). vm_compute. reflexivity. }
  rewrite !andb_true_iff, !eqb_true_iff, Z.eqb_eq in H. tauto.
Qed.

Lemma pad_spec e c w b :
  -32768 < w <= 32767 ->
  pad e c w b = (if 0 <? w then -1 else w - 1, emit_all e (replicate (Z.to_nat w) c) b).
Proof. intros. unfold pad. apply pad_loop_spec; lia. Qed.

(** The second half of [number]: from the digits in [tmp] to the end. *)
Lemma number_tail e b (zp lf : bool) sign pfx tmp fw pr :
  -10 <= fw <= 32767 -> -1 <= pr <= 32000 -> (1 <= length tmp <= 64)%nat ->
  let i := Z.of_nat (length tmp) in
  let prec := if pr <? i then s16 i else pr in
  let fw1 := s16 (fw - prec) in
  let fill := Z.to_nat (fw - Z.max pr i) in
  let s := if negb (sign =? 0) then [sign] else [] in
  let body := replicate (Z.to_nat pr - length tmp) 48 ++ rev tmp in
  (let '(fw2, b1) := if negb (zp || lf) then pad e 32 fw1 b else (fw1, b) in
   let b3 := emit_all e pfx (if negb (sign =? 0) then emit e sign b1 else b1) in
   let '(fw3, b4) := if negb lf
     then pad e (if zp && negb lf then 48 else 32) fw2 b3 else (fw2, b3) in
   snd (pad e 32 fw3 (emit_rev e tmp (zeros_loop (Z.to_nat 32769) e i prec b4)))) =
  emit_all e (if lf then s ++ pfx ++ body ++ replicate fill 32
              else if zp then s ++ pfx ++ replicate fill 48 ++ body
              else replicate fill 32 ++ s ++ pfx ++ body) b.
Proof.
  intros Hfw Hpr Ht i prec fw1 fill s body.
  assert (prec = Z.max pr i) as Hprec.
  { subst prec i. unfold s16. rewrite swrap_small by lia. destr_if; lia. }
  clearbody prec. subst prec.
  assert (fw1 = fw - Z.max pr i) as Hf1 by (subst fw1 i; apply swrap_small; lia).
  clearbody fw1. subst fw1.
  assert (forall b', zeros_loop (Z.to_nat 32769) e i (Z.max pr i) b' =
    emit_all e (replicate (Z.to_nat pr - length tmp) 48) b') as Hz.
  { intros b'. rewrite zeros_loop_spec by (subst i; lia). f_equal. f_equal. subst i. lia. }
  assert (forall b1, (if negb (sign =? 0) then emit e sign b1 else b1) = emit_all e s b1) as Hs.
  { intros b1. subst s. by destruct (sign =? 0). }
  assert (forall b1 w, w <= 0 -> replicate (Z.to_nat w) b1 = ([] : list Z)) as Hnil.
  { intros b1 w Hw. by replace (Z.to_nat w) with 0%nat by lia. }
  assert (-32768 < fw - Z.max pr i - 10 /\ fw - Z.max pr i <= 32767) as Hw by (subst i; lia).
  destruct lf; [|destruct zp]; cbn [orb andb negb]; cbv beta zeta iota.
  - rewrite orb_true_r. cbn [negb]. rewrite Hs, Hz, emit_rev_all, pad_spec by lia. cbn [snd].
    rewrite <- !emit_all_app. subst body. by rewrite <- ?app_assoc.
  - rewrite Hs, pad_spec by lia. cbn [snd]. rewrite Hz, emit_rev_all.
    rewrite pad_spec by (destr_if; lia). cbn [snd]. rewrite (Hnil 32) by (destr_if; lia).
    rewrite <- !emit_all_app. subst body fill. by rewrite ?app_nil_r, <- ?app_assoc.
  - rewrite pad_spec by lia. cbv beta zeta iota. rewrite Hs.
    rewrite pad_spec by (destr_if; lia). cbn [snd].
    rewrite Hz, emit_rev_all. rewrite pad_spec by (repeat destr_if; lia). cbn [snd].
    change (Z.to_nat (fw - pr `max` i)) with fill. rewrite !Hnil by (repeat destr_if; lia).
    rewrite <- !emit_all_app. subst body fill.
    by rewrite ?app_nil_r, <- ?app_assoc.
Qed.

Definition spec_ok (spec : printf_spec) : Prop :=
  0 <= flags spec < 256 /\ (base spec = 8 \/ base spec = 10 \/ base spec = 16) /\
  -1 <= field_width spec <= 32767 /\ -1 <= precision spec <= 32000.

Lemma number_tmp b n locase :
  (b = 8 \/ b = 10 \/ b = 16) -> 0 <= n < 2 ^ 64 ->
  (if n =? 0 then [48]
   else if negb (b =? 10) then number_digits 22 n (b - 1) (if b =? 16 then 4 else 3) locase
   else put_dec n) = digit_char (if b =? 10 then 0 else locase) <$> lsd 64 b n \/
  (n = 0 /\ locase <> 0 /\ locase <> 32).
Proof.
  intros Hb Hn. destruct (Z.eqb_spec n 0) as [->|].
  - destruct (decide (locase = 0)) as [->|]; [left; by destruct Hb as [->|[->| ->]]|].
    destruct (decide (locase = 32)) as [->|]; [left; by destruct Hb as [->|[->| ->]]|by right].
  - left. destruct Hb as [->|[->| ->]]; cbn [Z.eqb Pos.eqb negb].
    + rewrite (number_digits_spec _ _ 8 3) by (done || lia). by rewrite (lsd_fuel 22 64) by (cbn; lia).
    + by apply put_dec_spec.
    + rewrite (number_digits_spec _ _ 16 4) by (done || lia). by rewrite (lsd_fuel 22 64) by (cbn; lia).
Qed.

Lemma lsd_length_bound fuel b n : (0 < fuel)%nat -> (1 <= length (lsd fuel b n) <= fuel)%nat.
Proof.
  intros Hf. split; [destruct fuel; cbn; lia|]. clear Hf. revert n.
  induction fuel as [|fuel IH]; intros n; [done|]. cbn. destr_if; cbn; [lia|].
  specialize (IH (n / b)). lia.
Qed.

Lemma s64_neg_mag num : 0 <= num < 2 ^ 64 -> s64 num < 0 ->
  u64 (- s64 num) = - s64 num /\ 0 < - s64 num < 2 ^ 64.
Proof.
  intros Hn Hs. pose proof (swrap_range 64 num ltac:(lia)) as Hr.
  change (swrap 64 num) with (s64 num) in Hr. split; [apply u64_small|]; lia.
Qed.

(** The sign character, the magnitude and the width that is left. *)
Lemma sign_split num fw (sign plus space : bool) :
  0 <= num < 2 ^ 64 -> - 2 ^ 15 < fw < 2 ^ 15 ->
  (if sign then if s64 num <? 0 then (45, u64 (- s64 num), s16 (fw - 1))
    else if plus then (43, num, s16 (fw - 1))
    else if space then (32, num, s16 (fw - 1)) else (0, num, fw) else (0, num, fw)) =
  (let sg := if sign then if s64 num <? 0 then 45 else if plus then 43 else if space then 32 else 0 else 0 in
   (sg, if sign && (s64 num <? 0) then - s64 num else num, fw - Z.of_nat (length (if negb (sg =? 0) then [sg] else [])))).
Proof.
  intros Hn Hfw. unfold s16. rewrite swrap_small by lia. cbv zeta.
  destruct sign, (Z.ltb_spec (s64 num) 0), plus, space; cbn [andb Z.eqb Pos.eqb negb length]; try (by rewrite Z.sub_0_r); try done.
  all: by rewrite (proj1 (s64_neg_mag num Hn ltac:(done))).
Qed.

(** The width after the prefix 0 or 0x. *)
Lemma prefix_width w x (special hex : bool) : - 2 ^ 15 + 2 <= w < 2 ^ 15 ->
  (if special then if hex then s16 (s16 (w - 1) - 1) else s16 (w - 1) else w) =
  w - Z.of_nat (length (if special then if hex then [48; x] else [48] else [])).
Proof.
  intros Hw. unfold s16. rewrite (swrap_small 16 (w - 1)), (swrap_small 16 (w - 1 - 1)) by lia.
  destruct special, hex; cbn [length]; lia.
Qed.

(** [number] stores exactly the text of the number. *)
Lemma number_emits b e num spec :
  spec_ok spec -> 0 <= num < 2 ^ 64 ->
  number b e num spec = emit_all e (number_text num spec) b.
Proof.
  destruct spec as [ty f bs q fw pr]. intros (Hf & Hb & Hfw & Hpr) Hn. cbn [flags base field_width precision] in *.
  unfold number, number_text. cbn [flags base field_width precision].
  fold (eff_flags f).
  destruct (eff_flags_spec f Hf) as (F1 & F2 & F3 & F4 & F5 & F6 & F7).
  rewrite F1, F2, F3, F4, F5, F6, F7. clear F1 F2 F3 F4 F5 F6 F7.
  set (lc := if flag f SMALL then 32 else 0).
  set (mag := if flag f SIGN && (s64 num <? 0) then - s64 num else num).
  set (sg := if flag f SIGN then if s64 num <? 0 then 45 else
             if flag f PLUS then 43 else if flag f SPACE then 32 else 0 else 0).
  set (sl := if negb (sg =? 0) then [sg] else []).
  replace (if flag f SIGN then if s64 num <? 0 then (45, u64 (- s64 num), s16 (fw - 1))
    else if flag f PLUS then (43, num, s16 (fw - 1))
    else if flag f SPACE then (32, num, s16 (fw - 1)) else (0, num, fw) else (0, num, fw))
    with (sg, mag, fw - Z.of_nat (length sl)).
  2: { subst sl sg mag. symmetry. apply sign_split; [done|lia]. }
  replace (if flag f SIGN then if s64 num <? 0 then [45] else if flag f PLUS then [43]
    else if flag f SPACE then [32] else [] else []) with sl.
  2: { subst sl sg. by destruct (flag f SIGN), (s64 num <? 0), (flag f PLUS), (flag f SPACE). }
  assert (0 <= mag < 2 ^ 64) as Hm.
  { subst mag. destruct (flag f SIGN && (s64 num <? 0)) eqn:E; [|done].
    apply andb_prop in E as [_ E%Z.ltb_lt]. pose proof (s64_neg_mag num Hn E). lia. }
  assert (length sl <= 1)%nat as Hsl by (subst sl; by destruct (negb (sg =? 0)); cbn; lia).
  set (pfx := if flag f SPECIAL && negb (bs =? 10)
              then if bs =? 16 then [48; 88 .| lc] else [48] else []).
  cbv beta zeta iota.
  destruct (number_tmp bs mag lc Hb Hm) as [->|(_ & Hl & Hl')];
    [|subst lc; by destruct (flag f SMALL)].
  set (ds := digit_char (if bs =? 10 then 0 else lc) <$> lsd 64 bs mag).
  replace (digit_char (if bs =? 10 then 0 else lc) <$> to_digits 64 bs mag) with (rev ds).
  2: { subst ds. rewrite <- rev_lsd by lia. symmetry. apply map_rev. }
  assert (1 <= length ds <= 64)%nat as Hds.
  { subst ds. rewrite length_fmap. apply lsd_length_bound. lia. }
  replace (if flag f SPECIAL && negb (bs =? 10)
    then if bs =? 16 then s16 (s16 (fw - Z.of_nat (length sl) - 1) - 1)
         else s16 (fw - Z.of_nat (length sl) - 1) else fw - Z.of_nat (length sl))
    with (fw - Z.of_nat (length sl) - Z.of_nat (length pfx)).
  2: { symmetry. apply prefix_width. lia. }
  assert (length pfx <= 2)%nat as Hpfx.
  { subst pfx. by destruct (flag f SPECIAL && negb (bs =? 10)), (bs =? 16); cbn; lia. }
  pose proof (number_tail e b (flag f ZEROPAD) (flag f LEFT) sg pfx ds
    (fw - Z.of_nat (length sl) - Z.of_nat (length pfx)) pr ltac:(lia) ltac:(lia) Hds) as HT.
  cbv beta zeta in HT. fold sl in HT. rewrite length_rev.
  rewrite length_app, length_replicate, length_rev.
  replace (Z.to_nat fw - (length sl + length pfx + (Z.to_nat pr - length ds + length ds)))%nat with
    (Z.to_nat (fw - Z.of_nat (length sl) - Z.of_nat (length pfx) - Z.max pr (Z.of_nat (length ds))))
    by lia.
  rewrite <- HT.
  assert (forall b', (if flag f SPECIAL && negb (bs =? 10)
     then if bs =? 16 then emit e (88 .| lc) (emit e 48 b') else emit e 48 b' else b')
     = emit_all e pfx b') as Hp.
  { intros b'. subst pfx. by destruct (flag f SPECIAL && negb (bs =? 10)), (bs =? 16). }
  destruct (negb (flag f ZEROPAD || flag f LEFT)); [destruct (pad _ _ _ b)|]; rewrite Hp; done.
Qed.

End formatting.

(** ** The radix and the digits of a numeral

    The documented rules of lib/kstrtox.c: an explicit base other than 16 is
    used as it is; base 16 accepts a "0x" prefix; base 0 detects "0x" followed
    by a hexadecimal digit as 16, another leading "0" as 8, and is 10 otherwise.
    [radix_of base s r body]: the text [s] is read in radix [r] from [body] on. *)
Inductive radix_of : Z -> list Z -> Z -> list Z -> Prop :=
| radix_plain b s : 2 <= b -> b <> 16 -> radix_of b s b s
| radix_hex_prefix x s : x = 120 \/ x = 88 -> radix_of 16 (48 :: x :: s) 16 s
| radix_hex s : (forall x s', x = 120 \/ x = 88 -> s <> 48 :: x :: s') -> radix_of 16 s 16 s
| radix_auto_hex x d s : x = 120 \/ x = 88 -> Ctype.isxdigit d = true ->
    radix_of 0 (48 :: x :: d :: s) 16 (d :: s)
| radix_auto_oct s :
    (forall x d s', x = 120 \/ x = 88 -> Ctype.isxdigit d = true -> s <> x :: d :: s') ->
    radix_of 0 (48 :: s) 8 (48 :: s)
| radix_auto_dec s : ch s 0 <> 48 -> radix_of 0 s 10 s.

Section theorems.
Import Ctype Kstrtox Vsprintf Cmdline.

Lemma tolower_x c : 0 <= c < 256 -> (_tolower c =? 120) = (c =? 120) || (c =? 88).
Proof.
  intros Hc. apply eqb_prop.
  apply (forallb_below (fun c => eqb (_tolower c =? 120) ((c =? 120) || (c =? 88))) 256); [|lia].
  vm_compute. reflexivity.
Qed.

Lemma tolower_x_cases c : 0 <= c < 256 -> (_tolower c =? 120) = true <-> c = 120 \/ c = 88.
Proof. intros. rewrite tolower_x, orb_true_iff, !Z.eqb_eq by done. done. Qed.

Lemma ch_range s i : cstr_ok s -> 0 <= ch s i < 256.
Proof.
  intros Hs. unfold ch. destruct (s !! i) eqn:E; cbn; [|lia].
  pose proof (Forall_lookup_1 _ _ _ _ Hs E) as H. cbn in H. lia.
Qed.

Lemma radix_ge base s r body : radix_of base s r body -> 2 <= r.
Proof. destruct 1; lia. Qed.

Lemma radix_ok base s r body : radix_of base s r body -> cstr_ok s -> cstr_ok body.
Proof.
  destruct 1; intros Hs; try done; unfold cstr_ok in *.
  - by do 2 apply Forall_inv_tail in Hs.
  - by do 2 apply Forall_inv_tail in Hs.
Qed.

Lemma _kstrtoull_body base s r body :
  cstr_ok s -> radix_of base s r body -> _kstrtoull s base = _kstrtoull_loop body r 0 false.
Proof.
  intros Hs Hr. unfold _kstrtoull.
  pose proof (tolower_x_cases (ch s 1) (ch_range s 1 Hs)) as Hx.
  destruct Hr as [b s Hb Hb'|x s Hx'|s Hno|x d s Hx' Hd|s Hno|s Hno].
  - destruct (Z.eqb_spec b 0); [lia|]. destruct (Z.eqb_spec b 16); [lia|]. done.
  - cbn [Z.eqb]. cbn in Hx |- *. by rewrite (proj2 Hx Hx').
  - cbn [Z.eqb Pos.eqb andb]. destruct (Z.eqb_spec (ch s 0) 48) as [E|]; [|done].
    destruct (_tolower (ch s 1) =? 120); [|done]. exfalso.
    pose proof (proj1 Hx eq_refl) as Ex. destruct s as [|c0 [|c1 s]]; cbn in E, Ex; [lia|lia|].
    subst c0. by apply (Hno c1 s).
  - cbn in Hx |- *. rewrite (proj2 Hx Hx'), Hd. done.
  - change (ch (48 :: s) 0 =? 48) with true. change (0 =? 0) with true. cbv beta zeta iota.
    destruct (_tolower (ch (48 :: s) 1) =? 120); [|done].
    destruct (isxdigit (ch (48 :: s) 2)) eqn:Ed; [|done]. exfalso.
    pose proof (proj1 Hx eq_refl) as Ex. destruct s as [|c1 [|c2 s]]; cbn in Ex, Ed; [lia|done|].
    by apply (Hno c1 c2 s).
  - destruct (Z.eqb_spec (ch s 0) 48); [done|]. done.
Qed.

Lemma plus_body s base : ch s 0 <> 43 -> kstrtoull s base = _kstrtoull s base.
Proof. intros H. unfold kstrtoull. by destruct (Z.eqb_spec (ch s 0) 43). Qed.

(** One plus sign in front of the number is skipped. *)
Lemma plus_text s t base :
  cstr_ok s -> s = 43 :: t \/ s = t /\ ch t 0 <> 43 -> cstr_ok t /\ kstrtoull s base = _kstrtoull t base.
Proof. intros Hs [->|[-> Hp]]; [split; [by apply Forall_cons_1 in Hs as [_ ?]|done]|split; [done|by apply plus_body]]. Qed.

Lemma digit_char_val locase d :
  locase = 0 \/ locase = 32 -> 0 <= d < 16 -> digit_val (digit_char locase d) = Some d.
Proof.
  intros Hl Hd.
  assert (bool_decide (digit_val (digit_char locase d) = Some d) = true) as H.
  { revert d Hd. apply (forallb_below _ 16). by destruct Hl as [->| ->]; vm_compute. }
  by apply bool_decide_eq_true in H.
Qed.

Lemma digit_char_ok locase d :
  locase = 0 \/ locase = 32 -> 0 <= d < 16 ->
  0 < digit_char locase d < 256 /\ isxdigit (digit_char locase d) = true /\
  digit_char locase d <> 43 /\ digit_char locase d <> 45 /\
  (_tolower (digit_char locase d) =? 120) = false /\ (digit_char locase d =? 48) = (d =? 0).
Proof.
  intros Hl Hd.
  assert (((0 <? digit_char locase d) && (digit_char locase d <? 256) &&
    isxdigit (digit_char locase d) && negb (digit_char locase d =? 43) &&
    negb (digit_char locase d =? 45) && negb (_tolower (digit_char locase d) =? 120) &&
    eqb (digit_char locase d =? 48) (d =? 0)) = true) as H.
  { revert d Hd. apply (forallb_below _ 16). by destruct Hl as [->| ->]; vm_compute. }
  rewrite !andb_true_iff, !negb_true_iff, !Z.ltb_lt, eqb_true_iff, !Z.eqb_neq in H.
  rewrite Z.eqb_neq. tauto.
Qed.

Lemma mapM_digit_chars locase ds :
  locase = 0 \/ locase = 32 -> Forall (fun d => 0 <= d < 16) ds ->
  mapM digit_val (digit_char locase <$> ds) = Some ds.
Proof.
  intros Hl Hds. induction Hds as [|d ds Hd Hds IH]; [done|].
  cbn. rewrite digit_char_val by done. cbn. by rewrite IH.
Qed.

(** The text an output buffer holds from [lo] to its position. *)
Definition obuf_string (lo : Z) (b : obuf) : list Z :=
  (fun k => default 0 (mem b !! (lo + Z.of_nat k))) <$> seq 0 (Z.to_nat (pos b - lo)).

Lemma obuf_string_emit e l b :
  pos b + Z.of_nat (length l) <= e -> obuf_string (pos b) (emit_all e l b) = l.
Proof.
  intros He. unfold obuf_string. destruct (emit_all_mem e l b) as [-> Hm].
  replace (Z.to_nat (pos b + Z.of_nat (length l) - pos b)) with (length l) by lia.
  apply list_eq. intros i. rewrite list_lookup_fmap.
  destruct (decide (i < length l)%nat) as [Hi|Hi].
  - rewrite lookup_seq_lt by done. cbn. rewrite Hm.
    destruct (Z.leb_spec (pos b) (pos b + Z.of_nat i)); [|lia].
    destruct (Z.ltb_spec (pos b + Z.of_nat i) (Z.min e (pos b + Z.of_nat (length l)))); [|lia].
    cbn. replace (Z.to_nat (pos b + Z.of_nat i - pos b)) with i by lia.
    destruct (lookup_lt_is_Some_2 l i Hi) as [x ->]. done.
  - rewrite lookup_seq_ge by lia. symmetry. apply lookup_ge_None. lia.
Qed.

(** C29. Parsing an unsigned number succeeds exactly on a non-empty numeral in the
    detected radix whose value fits 64 bits, optionally after one plus sign and
    before one newline, and yields that value; a numeral that does not fit is rejected
    with -ERANGE. *)
Theorem kstrtoull_exact s t base r body :
  cstr_ok s -> s = 43 :: t \/ s = t /\ ch t 0 <> 43 -> radix_of base t r body ->
  (forall n, kstrtoull s base = Ok n <->
     exists ds, numeral body ds /\ ds <> [] /\ Forall (fun d => d < r) ds /\
       digits_value r ds 0 = n /\ n <= ULLONG_MAX) /\
  (forall ds, numeral body ds -> Forall (fun d => d < r) ds ->
     ULLONG_MAX < digits_value r ds 0 -> kstrtoull s base = Err (- ERANGE)).
Proof.
  intros Hs Hp Hr. destruct (plus_text s t base Hs Hp) as [Ht ->]. rewrite (_kstrtoull_body _ _ _ _ Ht Hr).
  pose proof (radix_ge _ _ _ _ Hr) as Hge. pose proof (radix_ok _ _ _ _ Hr Ht) as Hb.
  assert (0 <= 0 <= ULLONG_MAX) as H0 by (unfold ULLONG_MAX; lia).
  split; [intros n; split|].
  - intros Hl. destruct (loop_sound _ _ _ _ _ Hb Hl) as (ds & Hn & Hds & Hne).
    exists ds. specialize (Hne eq_refl). rewrite (loop_complete _ _ _ _ _ Hge Hn Hds H0) in Hl.
    destr_if_in Hl; [done|]. rewrite bool_decide_eq_false_2 in Hl by done. cbn in Hl.
    injection Hl as <-. done.
  - intros (ds & Hn & Hne & Hds & <- & Hle). rewrite (loop_complete _ _ _ _ _ Hge Hn Hds H0).
    destr_if; [lia|]. by rewrite bool_decide_eq_false_2.
  - intros ds Hn Hds Hgt. rewrite (loop_complete _ _ _ _ _ Hge Hn Hds H0). destr_if; [done|lia].
Qed.

(** The text "+0x1f" with a newline is the number 31 in base 0. *)
Lemma kstrtoull_exact_witness : kstrtoull [43; 48; 120; 49; 102; 10] 0 = Ok 31.
Proof.
  apply (kstrtoull_exact [43; 48; 120; 49; 102; 10] [48; 120; 49; 102; 10] 0 16 [49; 102; 10]).
  - repeat constructor; lia.
  - by left.
  - apply radix_auto_hex; [by left|by vm_compute].
  - exists [1; 15]. split; [right; exists [49; 102]; by vm_compute|].
    split; [done|]. split; [repeat constructor; lia|]. split; [done|]. unfold ULLONG_MAX. lia.
Defined.

(** A signed numeral: after "-", the magnitude [v] is accepted exactly when
    it is between 1 and 2^63 and yields [-v]; without "-", exactly when it is
    below 2^63.  In particular "-0" is refused with -ERANGE although the value 0
    fits the type. *)
Theorem kstrtoll_exact s base v :
  0 <= v <= ULLONG_MAX ->
  (ch s 0 = 45 -> _kstrtoull (drop 1 s) base = Ok v ->
     kstrtoll s base = if (0 <? v) && (v <=? 2 ^ 63) then Ok (- v) else Err (- ERANGE)) /\
  (ch s 0 <> 45 -> kstrtoull s base = Ok v ->
     kstrtoll s base = if v <? 2 ^ 63 then Ok v else Err (- ERANGE)).
Proof.
  unfold ULLONG_MAX. intros Hv. unfold kstrtoll. split; intros Hc Hk.
  - rewrite Hc, Hk. cbn [Z.eqb Pos.eqb]. unfold s64, u64, swrap, uwrap.
    destruct (Z.ltb_spec 0 v), (Z.leb_spec v (2 ^ 63)); cbn [andb];
      destr_if; try (exfalso; zdm); try done; f_equal; zdm.
  - destruct (Z.eqb_spec (ch s 0) 45); [done|]. rewrite Hk. unfold s64, swrap.
    destruct (Z.ltb_spec v (2 ^ 63)); destr_if; try (exfalso; zdm); try done; f_equal; zdm.
Qed.

Lemma kstrtoll_exact_witness :
  kstrtoll [45; 48] 10 = Err (- ERANGE) /\ kstrtoll [45; 55] 10 = Ok (-7).
Proof.
  split.
  - apply (kstrtoll_exact [45; 48] 10 0); [by vm_compute|done|by vm_compute].
  - apply (kstrtoll_exact [45; 55] 10 7); [by vm_compute|done|by vm_compute].
Defined.

(** The narrow variants return the parsed value when it fits their type and
    -ERANGE when it does not; they never return a truncated value. *)
Theorem kstrto_narrow_exact s base v w :
  0 <= v <= ULLONG_MAX -> - 2 ^ 63 <= w < 2 ^ 63 ->
  (kstrtoull s base = Ok v ->
     kstrtouint s base = (if v <? 2 ^ 32 then Ok v else Err (- ERANGE)) /\
     kstrtou16 s base = (if v <? 2 ^ 16 then Ok v else Err (- ERANGE)) /\
     kstrtou8 s base = (if v <? 2 ^ 8 then Ok v else Err (- ERANGE))) /\
  (kstrtoll s base = Ok w ->
     kstrtoint s base = (if (- 2 ^ 31 <=? w) && (w <? 2 ^ 31) then Ok w else Err (- ERANGE)) /\
     kstrtos16 s base = (if (- 2 ^ 15 <=? w) && (w <? 2 ^ 15) then Ok w else Err (- ERANGE)) /\
     kstrtos8 s base = (if (- 2 ^ 7 <=? w) && (w <? 2 ^ 7) then Ok w else Err (- ERANGE))).
Proof.
  unfold ULLONG_MAX. intros Hv Hw.
  assert (HU : forall n, 0 < n <= 63 -> (if negb (v =? u64 (uwrap n v)) then Err (- ERANGE)
    else Ok (uwrap n v)) = if v <? 2 ^ n then Ok v else Err (- ERANGE)).
  { intros n Hn. assert (2 ^ n <= 2 ^ 63) by (apply Z.pow_le_mono_r; lia).
    pose proof (uwrap_range n v ltac:(lia)). rewrite u64_small by lia.
    destruct (Z.ltb_spec v (2 ^ n)).
    - rewrite uwrap_small by lia. by rewrite Z.eqb_refl.
    - destruct (Z.eqb_spec v (uwrap n v)); [lia|done]. }
  assert (HS : forall n, 0 < n <= 63 -> (if negb (w =? s64 (swrap n w)) then Err (- ERANGE)
    else Ok (swrap n w)) =
    if (- 2 ^ (n - 1) <=? w) && (w <? 2 ^ (n - 1)) then Ok w else Err (- ERANGE)).
  { intros n Hn. assert (2 ^ (n - 1) <= 2 ^ 62) by (apply Z.pow_le_mono_r; lia).
    pose proof (swrap_range n w ltac:(lia)). rewrite s64_small by lia.
    destruct (Z.leb_spec (- 2 ^ (n - 1)) w), (Z.ltb_spec w (2 ^ (n - 1))); cbn [andb].
    1: rewrite swrap_small by lia; by rewrite Z.eqb_refl.
    all: destruct (Z.eqb_spec w (swrap n w)); [lia|done]. }
  unfold kstrtouint, kstrtou16, kstrtou8, kstrtoint, kstrtos16, kstrtos8.
  split; intros ->; repeat split; (apply HU || apply HS); lia.
Qed.

Lemma kstrto_narrow_exact_witness :
  kstrtou8 [50; 53; 54] 10 = Err (- ERANGE) /\ kstrtos8 [45; 49; 50; 56] 10 = Ok (-128).
Proof.
  split.
  - apply (kstrto_narrow_exact [50; 53; 54] 10 256 0); [by vm_compute|by vm_compute|by vm_compute].
  - apply (kstrto_narrow_exact [45; 49; 50; 56] 10 0 (-128)); [by vm_compute|by vm_compute|by vm_compute].
Defined.

(** Formatting a number writes the documented text (sign, radix prefix,
    precision zeros, digits, padding), advances the position by its full length,
    and touches no byte at or beyond [end]. *)
Theorem number_stores_text b e num spec :
  spec_ok spec -> 0 <= num < 2 ^ 64 ->
  let text := number_text num spec in
  pos (number b e num spec) = pos b + Z.of_nat (length text) /\
  forall a, mem (number b e num spec) !! a =
    if (pos b <=? a) && (a <? Z.min e (pos b + Z.of_nat (length text)))
    then text !! Z.to_nat (a - pos b) else mem b !! a.
Proof. intros Hs Hn text. rewrite number_emits by done. apply emit_all_mem. Qed.

(** Printing 255 with "%#06x" into 4 bytes: the position is 6, byte 4 untouched. *)
Lemma number_stores_text_witness :
  pos (number (mk_obuf ∅ 0) 4 255 (mk_spec 0 (SPECIAL + SMALL + ZEROPAD) 16 0 6 (-1))) = 6 /\
  mem (number (mk_obuf ∅ 0) 4 255 (mk_spec 0 (SPECIAL + SMALL + ZEROPAD) 16 0 6 (-1))) !! 4 = None.
Proof.
  destruct (number_stores_text (mk_obuf ∅ 0) 4 255 (mk_spec 0 (SPECIAL + SMALL + ZEROPAD) 16 0 6 (-1)))
    as [Hp Hm].
  - unfold spec_ok. cbn [flags base field_width precision].
    unfold SPECIAL, SMALL, ZEROPAD. lia.
  - lia.
  - split; [rewrite Hp; by vm_compute|rewrite Hm; by vm_compute].
Defined.

(** The conversions whose text says its radix: "%u", and "%#o", "%#u", "%#X", "%#x". *)
Definition plain_conversion (f b : Z) : Prop :=
  f = 0 /\ b = 10 \/ (f = SPECIAL \/ f = SPECIAL + SMALL) /\ (b = 8 \/ b = 10 \/ b = 16).

Lemma number_text_plain num f b ty q :
  plain_conversion f b ->
  number_text num (mk_spec ty f b q (-1) (-1)) =
    (if b =? 10 then [] else if b =? 16 then [48; 88 .| (if flag f SMALL then 32 else 0)] else [48]) ++
    (digit_char (if b =? 10 then 0 else if flag f SMALL then 32 else 0) <$> to_digits 64 b num).
Proof.
  intros Hf. unfold number_text. cbn [flags base field_width precision].
  change (Z.to_nat (-1)) with 0%nat. rewrite !Nat.sub_0_l. cbn [replicate app].
  by destruct Hf as [[-> ->]|[[->| ->] [->|[->| ->]]]].
Qed.

Lemma radix_numeral_value base s r body ds n :
  cstr_ok s -> ch s 0 <> 43 -> radix_of base s r body -> mapM digit_val body = Some ds ->
  ds <> [] -> Forall (fun d => d < r) ds -> digits_value r ds 0 = n -> n <= ULLONG_MAX ->
  kstrtoull s base = Ok n.
Proof.
  intros Hs Hp Hr Hm Hne Hds <- Hle.
  rewrite plus_body, (_kstrtoull_body _ _ _ _ Hs Hr) by done.
  rewrite (loop_complete _ _ ds _ _ (radix_ge _ _ _ _ Hr)) by (done || by left).
  destr_if; [lia|]. by rewrite bool_decide_eq_false_2.
Qed.

Lemma digit_chars_ok locase ds :
  locase = 0 \/ locase = 32 -> Forall (fun d => 0 <= d < 16) ds ->
  cstr_ok (digit_char locase <$> ds).
Proof.
  intros Hl Hds. apply Forall_fmap. eapply Forall_impl; [|exact Hds].
  intros d Hd. by apply digit_char_ok.
Qed.

(** Reading back the digits of [num] in radix [b], with the prefix "%#" prints. *)
Lemma text_roundtrip num b lc :
  lc = 0 \/ lc = 32 -> b = 8 \/ b = 10 \/ b = 16 -> 0 <= num < 2 ^ 64 ->
  kstrtoull ((if b =? 10 then [] else if b =? 16 then [48; 88 .| lc] else [48]) ++
    (digit_char (if b =? 10 then 0 else lc) <$> to_digits 64 b num)) 0 = Ok num.
Proof.
  intros Hl Hb Hn.
  pose proof (to_digits_range 64 b num ltac:(lia) ltac:(lia)) as Hr.
  assert (num < b ^ Z.of_nat 64) as Hlt.
  { eapply Z.lt_le_trans; [apply Hn|]. apply Z.pow_le_mono_l. lia. }
  pose proof (to_digits_value 64 b num ltac:(lia) ltac:(lia)) as Hv.
  assert (Forall (fun d => 0 <= d < 16) (to_digits 64 b num)) as Hr16.
  { eapply Forall_impl; [|exact Hr]. cbn. lia. }
  assert (Forall (fun d => d < b) (to_digits 64 b num)) as Hrb.
  { eapply Forall_impl; [|exact Hr]. cbn. lia. }
  assert (num <= ULLONG_MAX) as Hmax by (unfold ULLONG_MAX; lia).
  assert (exists d ds, to_digits 64 b num = d :: ds /\ (num = 0 /\ d = 0 /\ ds = [] \/ 0 < d)) as (d & ds & Eds & Hd).
  { destruct (Z.eq_dec num 0) as [->|].
    - exists 0, []. split; [by destruct Hb as [->|[->| ->]]|by left].
    - destruct (to_digits_head 64 b num) as (d & ds & E & Hd); try lia. exists d, ds. auto. }
  rewrite Eds in *. inversion Hr16 as [|? ? Hd16 _]; subst.
  destruct Hb as [->|[->| ->]]; cbn [Z.eqb Pos.eqb app].
  - apply (radix_numeral_value 0 _ 8 (48 :: (digit_char lc <$> d :: ds)) (0 :: d :: ds)); try done.
    + constructor; [lia|]. by apply digit_chars_ok.
    + apply radix_auto_oct. intros x d' s' Hx _ [= E _].
      destruct (digit_char_ok lc d Hl Hd16) as (Hc & _ & _ & _ & Ht & _).
      apply Bool.not_true_iff_false in Ht. apply Ht, tolower_x_cases; [lia|]. by rewrite E.
    + cbn [mapM list_fmap]. by rewrite (mapM_digit_chars lc (d :: ds)).
    + constructor; [lia|done].
  - apply (radix_numeral_value 0 _ (if d =? 0 then 8 else 10) (digit_char 0 <$> d :: ds) (d :: ds)); try done.
    + apply digit_chars_ok; [by left|done].
    + by apply digit_char_ok; [left|].
    + pose proof (digit_char_ok 0 d (or_introl eq_refl) Hd16) as (_ & _ & _ & _ & _ & H48).
      destruct (Z.eqb_spec d 0) as [->|].
      * assert (ds = []) as -> by (destruct Hd as [(_ & _ & ->)|]; [done|lia]).
        apply radix_auto_oct. intros. discriminate.
      * apply radix_auto_dec. cbn. by apply Z.eqb_neq in H48.
    + by apply mapM_digit_chars; [left|].
    + destruct (Z.eqb_spec d 0) as [->|]; [|done].
      assert (ds = []) as -> by (destruct Hd as [(_ & _ & ->)|]; [done|lia]). by repeat constructor.
    + destruct (Z.eqb_spec d 0) as [->|]; [|done].
      by destruct Hd as [(-> & _ & ->)|]; [|lia].
  - apply (radix_numeral_value 0 _ 16 (digit_char lc <$> d :: ds) (d :: ds)); try done.
    + constructor; [lia|]. constructor; [by destruct Hl as [->| ->]; vm_compute|]. by apply digit_chars_ok.
    + cbn [fmap list_fmap]. apply radix_auto_hex; [by destruct Hl as [->| ->]; vm_compute; auto|].
      by apply digit_char_ok.
    + by apply mapM_digit_chars.
Qed.

(** C28. Round trip: the text that [number] stores for "%llu", "%#llo", "%#llu", "%#llx"
    and "%#llX" without width and precision is read back by [kstrtoull] with base 0 as
    the same number, for every 64-bit number, when the buffer has at least 66 bytes left. *)
Theorem number_kstrtoull_roundtrip b e num f bs ty q :
  plain_conversion f bs -> 0 <= num < 2 ^ 64 -> pos b + 66 <= e ->
  kstrtoull (obuf_string (pos b) (number b e num (mk_spec ty f bs q (-1) (-1)))) 0 = Ok num.
Proof.
  intros Hf Hn He. assert (bs = 8 \/ bs = 10 \/ bs = 16) as Hb by (destruct Hf as [[_ ->]|[_ ?]]; auto).
  rewrite number_emits; [|unfold spec_ok; cbn [flags base field_width precision]|done].
  2: { split; [destruct Hf as [[-> _]|[[->| ->] _]]; by vm_compute|]. lia. }
  rewrite (number_text_plain _ _ _ _ _ Hf). rewrite obuf_string_emit.
  - apply text_roundtrip; [|done|done]. destruct (flag f SMALL); auto.
  - rewrite length_app, length_fmap, <- rev_lsd, length_rev by lia.
    pose proof (lsd_length_bound 64 bs num). destruct (bs =? 10), (bs =? 16); cbn [length]; lia.
Qed.

Lemma number_kstrtoull_roundtrip_witness :
  kstrtoull (obuf_string 0 (number (mk_obuf ∅ 0) 80 51966 (mk_spec 0 (SPECIAL + SMALL) 16 0 (-1) (-1)))) 0
  = Ok 51966.
Proof.
  apply (number_kstrtoull_roundtrip (mk_obuf ∅ 0) 80 51966 (SPECIAL + SMALL) 16 0 0);
    [right; split; [by right|by right; right]|lia|cbn; lia].
Defined.

(** *** Option lists *)

Lemma loop_suffix s base acc : exists t, s = t ++ snd (simple_strtoull_loop s base acc).
Proof.
  revert acc. induction s as [|c s IH]; intros acc; cbn; [by exists []|].
  destruct (isxdigit c); [|by exists []]. destr_if; [by exists []|].
  edestruct (IH) as [t Ht]. exists (c :: t). cbn. by rewrite <- Ht.
Qed.

Lemma simple_strtoull_suffix s base : exists t, s = t ++ snd (simple_strtoull s base).
Proof.
  unfold simple_strtoull. set (b := if base =? 0 then _ else base). clearbody b.
  destruct (_ && (TOLOWER _ =? 120)).
  - destruct (loop_suffix (drop 2 s) b 0) as [t Ht]. exists (take 2 s ++ t).
    rewrite <- app_assoc, <- Ht. symmetry. apply take_drop.
  - apply loop_suffix.
Qed.

Section options.
Context `{LongWidth}.

Lemma simple_strtol_suffix s base : exists t, s = t ++ snd (simple_strtol s base).
Proof.
  unfold simple_strtol, simple_strtoul. destr_if.
  - destruct (simple_strtoull_suffix (drop 1 s) base) as [t Ht].
    destruct (simple_strtoull (drop 1 s) base) as [r e'] eqn:E. cbn in *.
    exists (take 1 s ++ t). rewrite <- app_assoc, <- Ht. symmetry. apply take_drop.
  - destruct (simple_strtoull_suffix s base) as [t Ht].
    destruct (simple_strtoull s base) as [r e'] eqn:E. by exists t.
Qed.

(** [get_option] consumes a prefix, a non-empty one unless it returns 0, and
    only reports a range when a hyphen follows the number. *)
Lemma get_option_progress s res v s' :
  get_option (Some s) = (res, v, s') ->
  exists t r, s' = Some r /\ s = t ++ r /\ (res = 0 \/ t <> []) /\
    (res = 0 \/ res = 1 \/ res = 2 \/ res = 3) /\ (res = 3 -> In 45 s).
Proof.
  unfold get_option. destr_if.
  { intros [= <- <- <-]. exists [], s. repeat split; auto; lia. }
  destruct (simple_strtol_suffix s 0) as [t Ht]. destruct (simple_strtol s 0) as [num r] eqn:E.
  cbn [snd] in Ht. destruct (length s =? length r)%nat eqn:El.
  { intros [= <- <- <-]. exists t, r. repeat split; auto; lia. }
  apply Nat.eqb_neq in El.
  assert (t <> []) as Hne by (intros ->; by subst s).
  destruct (Z.eqb_spec (ch r 0) 44).
  { intros [= <- <- <-]. exists (t ++ take 1 r), (drop 1 r). repeat split; auto; try lia.
    - rewrite <- app_assoc, take_drop. done.
    - right. by destruct t. }
  destruct (Z.eqb_spec (ch r 0) 45) as [E45|].
  - intros [= <- <- <-]. exists t, r. repeat split; auto. intros _. subst s.
    apply in_app_iff. right. destruct r as [|c r]; cbn in E45; [lia|]. subst c. by left.
  - intros [= <- <- <-]. exists t, r. repeat split; auto; lia.
Qed.

(** Without hyphens every store goes to an index below [nints]. *)
Lemma get_options_loop_bounds fuel s nints i ints i' s' ints' :
  ~ In 45 s -> 1 <= i -> (length s < fuel)%nat ->
  get_options_loop fuel s nints i ints = (i', s', ints') ->
  i <= i' <= Z.max i nints /\ (exists t, s = t ++ s') /\
  (forall a, ~ (i <= a < nints) -> ints' !! a = ints !! a).
Proof.
  revert s i ints. induction fuel as [|fuel IH]; intros s i ints Hs Hi Hf Hg; [lia|].
  cbn [get_options_loop] in Hg. destruct (Z.ltb_spec i nints) as [Hlt|].
  2: { injection Hg as <- <- <-. split; [lia|]. split; [by exists []|done]. }
  destruct (get_option (Some s)) as [[res v] r0] eqn:E.
  destruct (get_option_progress _ _ _ _ E) as (t & r & -> & -> & Hne & Hres & H3).
  change (default (t ++ r) (Some r)) with r in Hg.
  assert (forall a, ~ (i <= a < nints) -> store_opt i v ints !! a = ints !! a) as Hst.
  { intros a Ha. destruct v; [|done]. cbn. apply lookup_insert_ne. lia. }
  destruct (Z.eqb_spec res 0) as [->|H0].
  { injection Hg as <- <- <-. split; [lia|]. split; [by exists t|done]. }
  destruct (Z.eqb_spec res 3) as [->|].
  { exfalso. apply Hs. by apply H3. }
  destruct (Z.eqb_spec res 1) as [->|].
  { injection Hg as <- <- <-. split; [lia|]. split; [by exists t|done]. }
  destruct Hne as [|Hne]; [done|].
  apply IH in Hg as (Hr & (t' & ->) & Hm).
  - split; [lia|]. split; [exists (t ++ t'); by rewrite app_assoc|].
    intros a Ha. rewrite Hm by lia. by apply Hst.
  - intros Hin. apply Hs, in_app_iff. by right.
  - lia.
  - rewrite length_app in Hf. destruct t; [done|]. cbn in Hf. lia.
Qed.

End options.

(** A list of options without ranges only writes the entries 0 .. nints-1 of
    the caller's array and stores the number of parsed integers, below [nints],
    in entry 0.  A range writes past the array: "0-9" with room for 3 integers
    stores to index 9. *)
Theorem get_options_bounds `{LongWidth} s nints ints :
  1 <= nints ->
  (~ In 45 s ->
     (forall a, ~ (0 <= a < nints) -> snd (get_options s nints ints) !! a = ints !! a) /\
     exists k, snd (get_options s nints ints) !! 0 = Some k /\ 0 <= k < nints) /\
  snd (get_options [48; 45; 57] 3 ∅) !! 9 = Some 8.
Proof.
  intros Hn. split.
  - intros Hs. unfold get_options.
    destruct (get_options_loop (S (length s)) s nints 1 ints) as [[i r] ints'] eqn:E.
    destruct (get_options_loop_bounds _ _ _ _ _ _ _ _ Hs (Z.le_refl 1) (Nat.lt_succ_diag_r _) E)
      as (Hi & _ & Hm).
    cbn [snd]. split.
    + intros a Ha. rewrite lookup_insert_ne by lia. apply Hm. lia.
    + exists (i - 1). rewrite lookup_insert_eq. split; [done|lia].
  - destruct H as [w [-> | ->]]; vm_compute; reflexivity.
Qed.

Lemma get_options_bounds_witness :
  snd (@get_options long32 [49; 44; 50] 2 ∅) !! 2 = None.
Proof.
  destruct (@get_options_bounds long32 [49; 44; 50] 2 ∅ ltac:(lia)) as [Hb _].
  destruct Hb as [Hb _]; [cbn; lia|]. rewrite Hb by lia. reflexivity.
Defined.

End theorems.
