(* ===== verification/ResCounter.v ===== *)
(** * Hierarchical resource counters (kernel/res_counter.c, include/linux/res_counter.h)

    A counter lives in a store indexed by its address; [parent] links build the
    hierarchy.  Module [Seq] has the functions of the source, run without
    interference.  Module [Conc] interleaves any number of threads: a step is
    one critical section (the code between [spin_lock(&c->lock)] and
    [spin_unlock]), so a walk up the hierarchy is not atomic, as in the source. *)

From Stdlib Require Import ZArith Lia.
From stdpp Require Import base numbers list gmap fin_maps option.
From S2P Require Import Prelude Number.

Local Open Scope Z_scope.

Record res_counter := mk_counter {
  usage : Z;
  max_usage : Z;
  limit : Z;
  soft_limit : Z;
  failcnt : Z;
  parent : option nat
}.

Abbreviation store := (gmap nat res_counter).

Definition RESOURCE_MAX : Z := 2 ^ 63 - 1.

Inductive res_member := RES_USAGE | RES_MAX_USAGE | RES_LIMIT | RES_FAILCNT | RES_SOFT_LIMIT.

Definition set_usage (c : res_counter) (x : Z) : res_counter :=
  mk_counter x (max_usage c) (limit c) (soft_limit c) (failcnt c) (parent c).
Definition set_max_usage (c : res_counter) (x : Z) : res_counter :=
  mk_counter (usage c) x (limit c) (soft_limit c) (failcnt c) (parent c).
Definition set_limit_field (c : res_counter) (x : Z) : res_counter :=
  mk_counter (usage c) (max_usage c) x (soft_limit c) (failcnt c) (parent c).
Definition set_soft_limit_field (c : res_counter) (x : Z) : res_counter :=
  mk_counter (usage c) (max_usage c) (limit c) x (failcnt c) (parent c).
Definition set_failcnt (c : res_counter) (x : Z) : res_counter :=
  mk_counter (usage c) (max_usage c) (limit c) (soft_limit c) x (parent c).

Module Seq.

Definition res_counter_init (c : res_counter) (p : option nat) : res_counter :=
  mk_counter (usage c) (max_usage c) RESOURCE_MAX RESOURCE_MAX (failcnt c) p.

Definition res_counter_charge_locked (c : res_counter) (val : Z) : Z * res_counter :=
  if limit c <? u64 (usage c + val)
  then (- ENOMEM, set_failcnt c (u64 (failcnt c + 1)))
  else
    let c := set_usage c (u64 (usage c + val)) in
    (0, if max_usage c <? usage c then set_max_usage c (usage c) else c).

(** Also reports whether [WARN_ON] fired. *)
Definition res_counter_uncharge_locked (c : res_counter) (val : Z) : bool * res_counter :=
  let warn := usage c <? val in
  let val := if warn then usage c else val in
  (warn, set_usage c (u64 (usage c - val))).

(** The walk to the root: the new store and the counter that refused, if any.
    [None] is a dangling parent pointer or too little fuel. *)
Fixpoint charge_loop (fuel : nat) (h : store) (c : option nat) (val : Z)
    : option (store * option nat) :=
  match fuel, c with
  | _, None => Some (h, None)
  | O, Some _ => None
  | S fuel, Some a =>
      match h !! a with
      | None => None
      | Some r =>
          let '(ret, r') := res_counter_charge_locked r val in
          let h := <[a := r']> h in
          if ret <? 0 then Some (h, Some a) else charge_loop fuel h (parent r') val
      end
  end.

(** [for (u = counter; u != c; u = u->parent)]. *)
Fixpoint undo_loop (fuel : nat) (h : store) (u c : option nat) (val : Z) : option store :=
  if decide (u = c) then Some h
  else
    match fuel, u with
    | S fuel, Some a =>
        match h !! a with
        | None => None
        | Some r =>
            let r' := snd (res_counter_uncharge_locked r val) in
            undo_loop fuel (<[a := r']> h) (parent r') c val
        end
    | _, _ => None
    end.

(** Returns the code, [*limit_fail_at] and the store.  The chain of parents of a
    counter has at most as many elements as the store. *)
Definition res_counter_charge (h : store) (counter : nat) (val : Z)
    : option (Z * option nat * store) :=
  match charge_loop (S (size h)) h (Some counter) val with
  | None => None
  | Some (h, None) => Some (0, None, h)
  | Some (h, Some c) =>
      match undo_loop (S (size h)) h (Some counter) (Some c) val with
      | None => None
      | Some h => Some (- ENOMEM, Some c, h)
      end
  end.

Fixpoint uncharge_loop (fuel : nat) (h : store) (c : option nat) (val : Z) : option store :=
  match fuel, c with
  | _, None => Some h
  | O, Some _ => None
  | S fuel, Some a =>
      match h !! a with
      | None => None
      | Some r =>
          let r' := snd (res_counter_uncharge_locked r val) in
          uncharge_loop fuel (<[a := r']> h) (parent r') val
      end
  end.

Definition res_counter_uncharge (h : store) (counter : nat) (val : Z) : option store :=
  uncharge_loop (S (size h)) h (Some counter) val.

Definition res_counter_member (c : res_counter) (member : res_member) : Z :=
  match member with
  | RES_USAGE => usage c
  | RES_MAX_USAGE => max_usage c
  | RES_LIMIT => limit c
  | RES_FAILCNT => failcnt c
  | RES_SOFT_LIMIT => soft_limit c
  end.

(** The store through the pointer [res_counter_member] returns. *)
Definition set_member (c : res_counter) (member : res_member) (x : Z) : res_counter :=
  match member with
  | RES_USAGE => set_usage c x
  | RES_MAX_USAGE => set_max_usage c x
  | RES_LIMIT => set_limit_field c x
  | RES_FAILCNT => set_failcnt c x
  | RES_SOFT_LIMIT => set_soft_limit_field c x
  end.

Definition res_counter_read_u64 (c : res_counter) (member : res_member) : Z :=
  res_counter_member c member.

(** [PAGE_ALIGN] on an [unsigned long long], for pages of [2 ^ page_shift] bytes. *)
Definition PAGE_ALIGN (page_shift x : Z) : Z :=
  u64 (x + (2 ^ page_shift - 1)) .& Z.lnot (2 ^ page_shift - 1).

Definition res_counter_memparse_write_strategy (page_shift : Z) (buf : list Z) : result Z :=
  if ch buf 0 =? 45 then
    let '(res, e) := Vsprintf.simple_strtoull (drop 1 buf) 10 in
    if negb (res =? 1) || negb (ch e 0 =? 0) then Err (- EINVAL) else Ok RESOURCE_MAX
  else
    let '(res, e) := Cmdline.memparse buf in
    if negb (ch e 0 =? 0) then Err (- EINVAL) else Ok (PAGE_ALIGN page_shift res).

Definition res_counter_write (c : res_counter) (member : res_member) (buf : list Z)
    (write_strategy : option (list Z -> result Z)) : Z * res_counter :=
  let tmp :=
    match write_strategy with
    | Some f => match f buf with Ok tmp => Some tmp | Err _ => None end
    | None =>
        let '(tmp, e) := Vsprintf.simple_strtoull buf 10 in
        if negb (ch e 0 =? 0) then None else Some tmp
    end in
  match tmp with
  | None => (- EINVAL, c)
  | Some tmp => (0, set_member c member tmp)
  end.

Definition res_counter_margin (c : res_counter) : Z := u64 (limit c - usage c).

Definition res_counter_soft_limit_excess (c : res_counter) : Z :=
  if usage c <=? soft_limit c then 0 else u64 (usage c - soft_limit c).

Definition res_counter_reset_max (c : res_counter) : res_counter := set_max_usage c (usage c).

Definition res_counter_reset_failcnt (c : res_counter) : res_counter := set_failcnt c 0.

Definition res_counter_set_limit (c : res_counter) (l : Z) : Z * res_counter :=
  if usage c <=? l then (0, set_limit_field c l) else (- EBUSY, c).

Definition res_counter_set_soft_limit (c : res_counter) (l : Z) : Z * res_counter :=
  (0, set_soft_limit_field c l).

End Seq.

(** ** Interleaved execution *)

Module Conc.
Import Seq.

(** Where a thread stands in one of the walks.  [paid], [owed] and [full] are
    history variables: the counters this call has charged, those it still has to
    give back, and the whole chain. *)
Inductive pc :=
| Idle
| Charging (counter : nat) (val : Z) (paid : list nat) (c : option nat)
| Undoing (val : Z) (owed : list nat) (u : option nat) (c : nat)
| Uncharging (val : Z) (owed : list nat) (c : option nat).

(** [held] records what the completed charges still hold, each with the counters
    it charged. *)
Record cstate := mk_cstate {
  heap : store;
  threads : gmap nat pc;
  held : list (list nat * Z);
  warned : bool
}.

(** The calls and the critical sections.  A caller charges less than [2^63] at a
    time and releases, in one or several calls, no more than a charge of its own
    still holds, on the counter it charged; the code does not check this. *)
Inductive cstep : cstate -> cstate -> Prop :=
| step_charge_call h ts hd w t counter val :
    ts !! t = Some Idle -> 0 <= val < 2 ^ 63 ->
    cstep (mk_cstate h ts hd w)
          (mk_cstate h (<[t := Charging counter val [] (Some counter)]> ts) hd w)
| step_charge_ok h ts hd w t counter val paid a r r' :
    ts !! t = Some (Charging counter val paid (Some a)) -> h !! a = Some r ->
    res_counter_charge_locked r val = (0, r') ->
    cstep (mk_cstate h ts hd w)
          (mk_cstate (<[a := r']> h)
             (<[t := Charging counter val (paid ++ [a]) (parent r')]> ts) hd w)
| step_charge_fail h ts hd w t counter val paid a r r' e :
    ts !! t = Some (Charging counter val paid (Some a)) -> h !! a = Some r ->
    res_counter_charge_locked r val = (e, r') -> e < 0 ->
    cstep (mk_cstate h ts hd w)
          (mk_cstate (<[a := r']> h) (<[t := Undoing val paid (Some counter) a]> ts) hd w)
| step_charge_return h ts hd w t counter val paid :
    ts !! t = Some (Charging counter val paid None) ->
    cstep (mk_cstate h ts hd w)
          (mk_cstate h (<[t := Idle]> ts) ((paid, val) :: hd) w)
| step_undo h ts hd w t val owed a c r b r' :
    ts !! t = Some (Undoing val owed (Some a) c) -> a <> c -> h !! a = Some r ->
    res_counter_uncharge_locked r val = (b, r') ->
    cstep (mk_cstate h ts hd w)
          (mk_cstate (<[a := r']> h) (<[t := Undoing val (drop 1 owed) (parent r') c]> ts)
             hd (w || b))
| step_undo_return h ts hd w t val owed c :
    ts !! t = Some (Undoing val owed (Some c) c) ->
    cstep (mk_cstate h ts hd w) (mk_cstate h (<[t := Idle]> ts) hd w)
| step_uncharge_call h ts hd1 hd2 w t counter chain val part :
    ts !! t = Some Idle -> 0 <= part <= val ->
    cstep (mk_cstate h ts (hd1 ++ (counter :: chain, val) :: hd2) w)
          (mk_cstate h (<[t := Uncharging part (counter :: chain) (Some counter)]> ts)
             (hd1 ++ (counter :: chain, val - part) :: hd2) w)
| step_uncharge h ts hd w t val owed a r b r' :
    ts !! t = Some (Uncharging val owed (Some a)) -> h !! a = Some r ->
    res_counter_uncharge_locked r val = (b, r') ->
    cstep (mk_cstate h ts hd w)
          (mk_cstate (<[a := r']> h) (<[t := Uncharging val (drop 1 owed) (parent r')]> ts)
             hd (w || b))
| step_uncharge_return h ts hd w t val owed :
    ts !! t = Some (Uncharging val owed None) ->
    cstep (mk_cstate h ts hd w) (mk_cstate h (<[t := Idle]> ts) hd w)
| step_set_limit h ts hd w a r l e r' :
    h !! a = Some r -> 0 <= l <= RESOURCE_MAX -> res_counter_set_limit r l = (e, r') ->
    cstep (mk_cstate h ts hd w) (mk_cstate (<[a := r']> h) ts hd w).

End Conc.

(** ** Sequential behaviour *)

(** The counters from [c] to the root. *)
Inductive chain (h : store) : option nat -> list nat -> Prop :=
| chain_root : chain h None []
| chain_link a r l : h !! a = Some r -> chain h (parent r) l -> chain h (Some a) (a :: l).

(** A path of parent links from [c], through [l], to [stop]. *)
Inductive path (h : store) : option nat -> list nat -> option nat -> Prop :=
| path_here c : path h c [] c
| path_link a r l s : h !! a = Some r -> path h (parent r) l s -> path h (Some a) (a :: l) s.

Definition apply_all (f : res_counter -> res_counter) (l : list nat) (h : store) : store :=
  foldl (fun h a => alter f a h) h l.

Definition accepts (val : Z) (r : res_counter) : Prop := usage r + val <= limit r.

(** What a successful charge does to a counter. *)
Definition charged (val : Z) (r : res_counter) : res_counter :=
  mk_counter (usage r + val) (Z.max (max_usage r) (usage r + val)) (limit r) (soft_limit r)
    (failcnt r) (parent r).

Definition refused (r : res_counter) : res_counter := set_failcnt r (u64 (failcnt r + 1)).

Definition uncharged (val : Z) (r : res_counter) : res_counter :=
  snd (Seq.res_counter_uncharge_locked r val).

(** Usage is not negative and adding [val] does not overflow 64 bits. *)
Definition no_wrap (val : Z) (r : res_counter) : Prop :=
  0 <= usage r /\ 0 <= val /\ usage r + val < 2 ^ 64.

Section sequential.
Import Seq.

Lemma charge_locked_ok r val :
  no_wrap val r -> accepts val r -> res_counter_charge_locked r val = (0, charged val r).
Proof.
  unfold no_wrap, accepts, res_counter_charge_locked, charged. intros Hw Ha.
  rewrite u64_small by lia. destr_if; [lia|]. destruct r as [u m l s f p].
  cbn [usage max_usage limit set_usage soft_limit failcnt parent] in *.
  destr_if; unfold set_max_usage, set_usage; cbn; f_equal; f_equal; lia.
Qed.

Lemma charge_locked_fail r val :
  no_wrap val r -> ~ accepts val r -> res_counter_charge_locked r val = (- ENOMEM, refused r).
Proof.
  unfold no_wrap, accepts, res_counter_charge_locked. intros Hw Ha.
  rewrite u64_small by lia. destr_if; [done|lia].
Qed.

Lemma charge_locked_parent r val : parent (snd (res_counter_charge_locked r val)) = parent r.
Proof. unfold res_counter_charge_locked. destr_if; [done|]. cbn. by destr_if. Qed.

Lemma uncharged_charged val r :
  no_wrap val r -> uncharged val (charged val r) =
    mk_counter (usage r) (Z.max (max_usage r) (usage r + val)) (limit r) (soft_limit r)
      (failcnt r) (parent r).
Proof.
  unfold no_wrap, uncharged, res_counter_uncharge_locked, charged, set_usage. intros Hw. cbn.
  destr_if; [lia|]. f_equal. rewrite u64_small; lia.
Qed.

Lemma chain_det h c l l' : chain h c l -> chain h c l' -> l = l'.
Proof.
  intros H. revert l'. induction H as [|a r l Hr Hc IH]; intros l' H'; inversion H'; subst; [done|].
  f_equal. apply IH. by simplify_eq.
Qed.

Lemma chain_suffix h c l1 a l2 : chain h c (l1 ++ a :: l2) -> chain h (Some a) (a :: l2).
Proof.
  revert c. induction l1 as [|b l1 IH]; intros c H; cbn in H.
  - inversion H; subst. by econstructor.
  - inversion H; subst. by eapply IH.
Qed.

Lemma chain_NoDup h c l : chain h c l -> NoDup l.
Proof.
  induction 1 as [|a r l Hr Hc IH]; [constructor|]. constructor; [|done].
  intros Hin. apply list_elem_of_split in Hin as (l1 & l2 & ->).
  pose proof (chain_suffix _ _ _ _ _ Hc) as Hs.
  assert (chain h (Some a) (a :: l1 ++ a :: l2)) as Ha by by econstructor.
  pose proof (chain_det _ _ _ _ Hs Ha) as E. injection E as E.
  apply (f_equal length) in E. rewrite length_app in E. cbn in E. lia.
Qed.

Lemma chain_dom h c l : chain h c l -> Forall (fun a => is_Some (h !! a)) l.
Proof. induction 1; constructor; eauto. Qed.

Lemma chain_size h c l : chain h c l -> (length l <= size h)%nat.
Proof.
  intros Hc. rewrite <- size_dom, <- (size_list_to_set (C := gset nat) l) by by eapply chain_NoDup.
  apply subseteq_size. intros a Ha. apply elem_of_list_to_set in Ha. apply elem_of_dom.
  by apply (proj1 (list.Forall_forall _ _) (chain_dom _ _ _ Hc)).
Qed.

Lemma apply_all_cons f a l h : apply_all f (a :: l) h = apply_all f l (alter f a h).
Proof. done. Qed.

Lemma apply_all_lookup f l h a :
  NoDup l -> apply_all f l h !! a = if decide (a ∈ l) then f <$> h !! a else h !! a.
Proof.
  intros Hl. revert h. induction Hl as [|b l Hb Hl IH]; intros h.
  - by rewrite decide_False by set_solver.
  - rewrite apply_all_cons, IH. destruct (decide (a = b)) as [->|].
    + rewrite decide_False by done. rewrite decide_True by set_solver. by rewrite lookup_alter_eq.
    + rewrite lookup_alter_ne by done.
      destruct (decide (a ∈ l)); [rewrite decide_True by set_solver|rewrite decide_False by set_solver]; done.
Qed.

Lemma apply_all_size f l h : size (apply_all f l h) = size h.
Proof.
  revert h. induction l as [|a l IH]; intros h; [done|].
  rewrite apply_all_cons, IH. by rewrite <- !size_dom, dom_alter_L.
Qed.

Lemma insert_alter (h : store) a r f : h !! a = Some r -> <[a := f r]> h = alter f a h.
Proof.
  intros Hr. apply map_eq. intros b. destruct (decide (a = b)) as [->|].
  - by rewrite lookup_insert_eq, lookup_alter_eq, Hr.
  - by rewrite lookup_insert_ne, lookup_alter_ne.
Qed.

Lemma chain_alter h f b c l :
  (forall r, parent (f r) = parent r) -> chain h c l -> chain (alter f b h) c l.
Proof.
  intros Hf. induction 1 as [|a r l Hr Hc IH]; [constructor|].
  destruct (decide (a = b)) as [->|].
  - econstructor; [by rewrite lookup_alter_eq, Hr|]. by rewrite Hf.
  - econstructor; [by rewrite lookup_alter_ne, Hr|]. done.
Qed.

(** All counters of [l] exist and satisfy [P]. *)
Definition all_at (P : res_counter -> Prop) (h : store) (l : list nat) : Prop :=
  forall a r, a ∈ l -> h !! a = Some r -> P r.

Lemma all_at_alter P h f b l : b ∉ l -> all_at P h l -> all_at P (alter f b h) l.
Proof.
  intros Hb HP a r Ha Hr. apply (HP a r Ha). rewrite lookup_alter_ne in Hr; [done|].
  intros ->. done.
Qed.

Lemma charge_loop_ok fuel h c l val :
  chain h c l -> (length l < fuel)%nat -> all_at (no_wrap val) h l -> all_at (accepts val) h l ->
  charge_loop fuel h c val = Some (apply_all (charged val) l h, None).
Proof.
  intros Hc. revert h c Hc fuel. induction l as [|a l IH]; intros h c Hc fuel Hf Hw Ha.
  - inversion Hc; subst. by destruct fuel.
  - inversion Hc as [|? r ? Hr Hc']; subst. destruct fuel as [|fuel]; [cbn in Hf; lia|].
    pose proof (chain_NoDup _ _ _ Hc) as Hnd. apply list.NoDup_cons in Hnd as [Hnin _].
    cbn [charge_loop]. rewrite Hr.
    rewrite charge_locked_ok by (apply (Hw a) || apply (Ha a); [by left|done]).
    cbn [Z.ltb Z.compare]. rewrite (insert_alter _ _ _ (charged val) Hr), apply_all_cons.
    apply IH; [by apply chain_alter|cbn in Hf; lia|..].
    + apply all_at_alter; [done|]. intros b r' Hb. apply Hw. by right.
    + apply all_at_alter; [done|]. intros b r' Hb. apply Ha. by right.
Qed.

Lemma charge_loop_fail fuel h c l1 a r l2 val :
  chain h c (l1 ++ a :: l2) -> (length l1 < fuel)%nat -> all_at (no_wrap val) h (l1 ++ [a]) ->
  all_at (accepts val) h l1 -> h !! a = Some r -> ~ accepts val r ->
  charge_loop fuel h c val = Some (alter refused a (apply_all (charged val) l1 h), Some a).
Proof.
  intros Hc. revert h c Hc fuel. induction l1 as [|b l1 IH]; intros h c Hc fuel Hf Hw Ha Hr Hna.
  - inversion Hc as [|? r' ? Hr' Hc']; subst. simplify_eq. destruct fuel as [|fuel]; [cbn in Hf; lia|].
    cbn [charge_loop]. rewrite Hr, charge_locked_fail; [|by apply (Hw a); [set_solver|]|done].
    cbn. by rewrite (insert_alter _ _ _ refused Hr).
  - inversion Hc as [|? r' ? Hr' Hc']; subst. destruct fuel as [|fuel]; [cbn in Hf; lia|].
    pose proof (chain_NoDup _ _ _ Hc) as Hnd. apply list.NoDup_cons in Hnd as [Hnin _].
    cbn [charge_loop]. rewrite Hr'.
    rewrite charge_locked_ok by (apply (Hw b) || apply (Ha b); [by left|done]).
    cbn [Z.ltb Z.compare]. rewrite (insert_alter _ _ _ (charged val) Hr'), apply_all_cons.
    apply IH; [by apply chain_alter|cbn in Hf; lia|..].
    + apply all_at_alter; [set_solver|]. intros x r0 Hx. apply Hw. set_solver.
    + apply all_at_alter; [set_solver|]. intros x r0 Hx. apply Ha. by right.
    + rewrite lookup_alter_ne; [done|]. set_solver.
    + done.
Qed.

Lemma undo_loop_spec fuel h u l1 a val :
  path h u l1 (Some a) -> NoDup (l1 ++ [a]) -> (length l1 <= fuel)%nat ->
  undo_loop fuel h u (Some a) val = Some (apply_all (uncharged val) l1 h).
Proof.
  intros Hp. revert h u Hp fuel. induction l1 as [|b l1 IH]; intros h u Hp fuel Hnd Hf.
  - inversion Hp; subst. destruct fuel; cbn; by rewrite decide_True.
  - inversion Hp as [|? r ? ? Hr Hp']; subst. destruct fuel as [|fuel]; [cbn in Hf; lia|].
    cbn [app] in Hnd. apply list.NoDup_cons in Hnd as [Hnin Hnd].
    cbn [undo_loop]. rewrite decide_False by (intros [= ->]; set_solver).
    rewrite Hr. change (snd (res_counter_uncharge_locked r val)) with (uncharged val r).
    rewrite (insert_alter _ _ _ (uncharged val) Hr), apply_all_cons.
    apply IH; [|done|cbn in Hf; lia].
    assert (b ∉ l1) as Hb by set_solver. clear -Hp' Hb. change (parent (uncharged val r)) with (parent r).
    induction Hp' as [|x r0 l s Hr0 Hp' IH]; [constructor|].
    econstructor; [rewrite lookup_alter_ne by set_solver; exact Hr0|]. apply IH. set_solver.
Qed.

Lemma chain_path h c l1 a l2 : chain h c (l1 ++ a :: l2) -> path h c l1 (Some a).
Proof.
  revert c. induction l1 as [|b l1 IH]; intros c Hc; cbn in Hc; inversion Hc; subst.
  - constructor.
  - econstructor; [done|]. by apply IH.
Qed.

Lemma path_apply f l h c l1 s :
  (forall r, parent (f r) = parent r) -> path h c l1 s -> path (apply_all f l h) c l1 s.
Proof.
  intros Hf. revert h. induction l as [|b l IH]; intros h Hp; [done|]. rewrite apply_all_cons.
  apply IH. clear IH. induction Hp as [|a r l' s Hr Hp IHp]; [constructor|].
  destruct (decide (a = b)) as [->|].
  - econstructor; [by rewrite lookup_alter_eq, Hr|]. by rewrite Hf.
  - econstructor; [by rewrite lookup_alter_ne, Hr|]. done.
Qed.

End sequential.

(** ** Interleaved behaviour *)

(** How often [x] occurs in [l], as an integer. *)
Definition occ (x : nat) (l : list nat) : Z := Z.of_nat (length (filter (fun y => y = x) l)).

(** The part of the usage of [x] that a thread has charged and may still give back. *)
Definition pc_contrib (x : nat) (p : Conc.pc) : Z :=
  match p with
  | Conc.Idle => 0
  | Conc.Charging _ v paid _ => v * occ x paid
  | Conc.Undoing v owed _ _ => v * occ x owed
  | Conc.Uncharging v owed _ => v * occ x owed
  end.

Definition in_flight (x : nat) (ts : gmap nat Conc.pc) : Z :=
  map_fold (fun _ p acc => pc_contrib x p + acc) 0 ts.

(** The sum of the charges held by completed calls at or below [x]. *)
Definition held_total (x : nat) (hd : list (list nat * Z)) : Z :=
  zsum ((fun e => snd e * occ x (fst e)) <$> hd).

(** Every counter reaches the root. *)
Definition forest (h : store) : Prop :=
  forall a r, h !! a = Some r -> exists l, chain h (Some a) l.

(** The states the counters start from: nothing charged, nobody running. *)
Record initial (s : Conc.cstate) : Prop := {
  init_forest : forest (Conc.heap s);
  init_usage : forall a r, Conc.heap s !! a = Some r -> usage r = 0 /\ 0 <= limit r <= RESOURCE_MAX;
  init_idle : forall t p, Conc.threads s !! t = Some p -> p = Conc.Idle;
  init_held : Conc.held s = [];
  init_warned : Conc.warned s = false
}.

Definition pc_ok (h : store) (p : Conc.pc) : Prop :=
  match p with
  | Conc.Idle => True
  | Conc.Charging counter v paid c => 0 <= v < 2 ^ 63 /\ path h (Some counter) paid c
  | Conc.Undoing v owed u c => 0 <= v /\ path h u owed (Some c)
  | Conc.Uncharging v owed c => 0 <= v /\ path h c owed None
  end.

Record inv (s : Conc.cstate) : Prop := {
  inv_forest : forest (Conc.heap s);
  inv_usage : forall a r, Conc.heap s !! a = Some r ->
    usage r = held_total a (Conc.held s) + in_flight a (Conc.threads s) /\
    0 <= usage r <= limit r /\ limit r <= RESOURCE_MAX;
  inv_threads : forall t p, Conc.threads s !! t = Some p -> pc_ok (Conc.heap s) p;
  inv_held : forall l v, (l, v) ∈ Conc.held s -> 0 <= v /\ exists c, path (Conc.heap s) (Some c) l None;
  inv_warned : Conc.warned s = false
}.

Section concurrent.
Import Seq Conc.

Lemma occ_nonneg x l : 0 <= occ x l.
Proof. unfold occ. lia. Qed.

Lemma occ_nil x : occ x [] = 0.
Proof. done. Qed.

Lemma occ_cons x a l : occ x (a :: l) = (if decide (a = x) then 1 else 0) + occ x l.
Proof. unfold occ. rewrite filter_cons. case_decide; cbn [length]; lia. Qed.

Lemma occ_app x l k : occ x (l ++ k) = occ x l + occ x k.
Proof. unfold occ. rewrite list.filter_app, length_app. lia. Qed.

Lemma in_flight_fresh x t p ts :
  ts !! t = None -> in_flight x (<[t := p]> ts) = pc_contrib x p + in_flight x ts.
Proof.
  intros Ht. unfold in_flight. rewrite map_fold_insert_L; [done| |done].
  intros. lia.
Qed.

Lemma in_flight_update x t p p' ts :
  ts !! t = Some p -> in_flight x (<[t := p']> ts) = in_flight x ts - pc_contrib x p + pc_contrib x p'.
Proof.
  intros Ht. rewrite <- insert_delete_eq, in_flight_fresh by apply lookup_delete_eq.
  rewrite <- (insert_id _ _ _ Ht) at 2.
  rewrite <- insert_delete_eq, (in_flight_fresh x t p) by apply lookup_delete_eq. lia.
Qed.

Lemma in_flight_ge x t p ts :
  ts !! t = Some p -> (forall u q, ts !! u = Some q -> 0 <= pc_contrib x q) ->
  pc_contrib x p <= in_flight x ts.
Proof.
  intros Ht Hnn. rewrite <- (insert_id _ _ _ Ht), <- insert_delete_eq.
  rewrite in_flight_fresh by apply lookup_delete_eq.
  assert (0 <= in_flight x (delete t ts)); [|lia].
  unfold in_flight. apply (map_fold_weak_ind (fun acc m => (forall u q, m !! u = Some q -> 0 <= pc_contrib x q) -> 0 <= acc)).
  - lia.
  - intros u q m acc Hu IH Hm. specialize (Hm u q) as Hq. rewrite lookup_insert_eq in Hq.
    specialize (Hq eq_refl). apply Z.add_nonneg_nonneg; [done|]. apply IH. intros u' q' Hu'.
    apply (Hm u'). rewrite lookup_insert_ne; [done|]. intros ->. congruence.
  - intros u q Hu. apply (Hnn u). by apply lookup_delete_Some in Hu as [_ ?].
Qed.

Lemma pc_contrib_nonneg x h p : pc_ok h p -> 0 <= pc_contrib x p.
Proof.
  destruct p as [|? v paid c|v owed u c|v owed c]; cbn; [lia|..]; intros [Hv _];
    apply Z.mul_nonneg_nonneg; lia || apply occ_nonneg.
Qed.

Lemma held_nonneg x hd : (forall l v, (l, v) ∈ hd -> 0 <= v) -> 0 <= held_total x hd.
Proof.
  induction hd as [|[l v] hd IH]; intros Hhd; [done|].
  unfold held_total. cbn [fmap list_fmap]. rewrite zsum_cons. cbn [fst snd].
  fold (held_total x hd). pose proof (occ_nonneg x l).
  assert (0 <= v) by (apply (Hhd l); left). assert (0 <= held_total x hd); [|nia].
  apply IH. intros l' v' Hin. apply (Hhd l'). by right.
Qed.

(** A store that differs in one counter, with the same parent, has the same paths. *)
Lemma path_update h a r r' c l s :
  h !! a = Some r -> parent r' = parent r -> path h c l s -> path (<[a := r']> h) c l s.
Proof.
  intros Hr Hp. induction 1 as [|b rb l s Hb Hl IH]; [constructor|].
  destruct (decide (a = b)) as [->|].
  - econstructor; [by rewrite lookup_insert_eq|]. simplify_eq. by rewrite Hp.
  - econstructor; [by rewrite lookup_insert_ne|]. done.
Qed.

Lemma chain_update h a r r' c l :
  h !! a = Some r -> parent r' = parent r -> chain h c l -> chain (<[a := r']> h) c l.
Proof.
  intros Hr Hp. induction 1 as [|b rb l Hb Hl IH]; [constructor|].
  destruct (decide (a = b)) as [->|].
  - econstructor; [by rewrite lookup_insert_eq|]. simplify_eq. by rewrite Hp.
  - econstructor; [by rewrite lookup_insert_ne|]. done.
Qed.

Lemma forest_update h a r r' :
  h !! a = Some r -> parent r' = parent r -> forest h -> forest (<[a := r']> h).
Proof.
  intros Hr Hp Hf b rb Hb. assert (is_Some (h !! b)) as [rb0 Hb0].
  { destruct (decide (a = b)) as [->|]; [by eexists|]. rewrite lookup_insert_ne in Hb by done. by eexists. }
  destruct (Hf _ _ Hb0) as [l Hl]. exists l. by eapply chain_update.
Qed.

Lemma pc_ok_update h a r r' p :
  h !! a = Some r -> parent r' = parent r -> pc_ok h p -> pc_ok (<[a := r']> h) p.
Proof.
  intros Hr Hp. destruct p; cbn; [done|..]; intros [? ?]; split; try done; by eapply path_update.
Qed.

Lemma path_snoc h c l a r : path h c l (Some a) -> h !! a = Some r -> path h c (l ++ [a]) (parent r).
Proof.
  intros Hp Ha. remember (Some a) as s. revert Heqs.
  induction Hp as [c|b rb l s Hb Hl IH]; intros ->; cbn.
  - econstructor; [done|constructor].
  - econstructor; [done|]. by apply IH.
Qed.

Lemma path_chain_app h c l1 a l2 : path h c l1 (Some a) -> chain h (Some a) l2 -> chain h c (l1 ++ l2).
Proof.
  intros Hp Hc. remember (Some a) as s. revert Heqs.
  induction Hp as [c|b rb l s Hb Hl IH]; intros ->; [done|]. cbn. econstructor; [done|]. by apply IH.
Qed.

(** In a forest no path returns to its start. *)
Lemma path_loop_nil h a l : forest h -> path h (Some a) l (Some a) -> l = [].
Proof.
  intros Hf Hp. inversion Hp as [|? r ? ? Ha _]; subst; [done|]. destruct (Hf _ _ Ha) as [l2 Hl2].
  pose proof (path_chain_app _ _ _ _ _ Hp Hl2) as H.
  pose proof (chain_det _ _ _ _ Hl2 H) as E. apply (f_equal length) in E.
  rewrite length_app in E. cbn in E. lia.
Qed.

(** A step that rewrites counter [a] and moves thread [t] from [p] to [p']. *)
Lemma inv_critical h ts hd a r r' t p p' :
  inv (mk_cstate h ts hd false) -> h !! a = Some r -> parent r' = parent r ->
  ts !! t = Some p -> pc_ok h p' ->
  usage r' = usage r - pc_contrib a p + pc_contrib a p' ->
  (forall x, x <> a -> pc_contrib x p' = pc_contrib x p) ->
  0 <= usage r' <= limit r' -> limit r' <= RESOURCE_MAX ->
  inv (mk_cstate (<[a := r']> h) (<[t := p']> ts) hd false).
Proof.
  intros [Hf Hu Ht Hh _] Hr Hp Hts Hok Huse Hoth Hb Hl. cbn [heap threads held warned] in *. constructor; cbn [heap threads held warned].
  - by eapply forest_update.
  - intros b rb Hb'. rewrite (in_flight_update _ _ _ _ _ Hts).
    destruct (decide (a = b)) as [->|Hne].
    + rewrite lookup_insert_eq in Hb'. injection Hb' as <-. specialize (Hu _ _ Hr). lia.
    + rewrite lookup_insert_ne in Hb' by done. specialize (Hu _ _ Hb').
      rewrite Hoth by done. lia.
  - intros u q Hq. eapply pc_ok_update; [done|done|]. destruct (decide (t = u)) as [->|].
    + rewrite lookup_insert_eq in Hq. by injection Hq as <-.
    + rewrite lookup_insert_ne in Hq by done. by apply (Ht u).
  - intros l v Hin. destruct (Hh _ _ Hin) as (? & c & Hc). split; [done|]. exists c. by eapply path_update.
  - done.
Qed.

(** A step that leaves the counters alone: the totals do not change. *)
Lemma inv_local h ts hd hd' t p p' :
  inv (mk_cstate h ts hd false) -> ts !! t = Some p -> pc_ok h p' ->
  (forall x, held_total x hd' + pc_contrib x p' = held_total x hd + pc_contrib x p) ->
  (forall l v, (l, v) ∈ hd' -> 0 <= v /\ exists c, path h (Some c) l None) ->
  inv (mk_cstate h (<[t := p']> ts) hd' false).
Proof.
  intros [Hf Hu Ht Hh _] Hts Hok Htot Hhd. cbn [heap threads held warned] in *. constructor; cbn [heap threads held warned]; [done| |..|done|done].
  - intros b rb Hb. rewrite (in_flight_update _ _ _ _ _ Hts). specialize (Hu _ _ Hb).
    specialize (Htot b). lia.
  - intros u q Hq. destruct (decide (t = u)) as [->|].
    + rewrite lookup_insert_eq in Hq. by injection Hq as <-.
    + rewrite lookup_insert_ne in Hq by done. by apply (Ht u).
Qed.

(** A counter that a thread has charged holds at least that charge. *)
Lemma usage_covers h ts hd w t p a r :
  inv (mk_cstate h ts hd w) -> ts !! t = Some p -> h !! a = Some r -> pc_contrib a p <= usage r.
Proof.
  intros [Hf Hu Ht Hh _] Hts Hr. cbn [heap threads held warned] in *. destruct (Hu _ _ Hr) as [-> _].
  pose proof (in_flight_ge a t p ts Hts) as Hg.
  assert (0 <= held_total a hd) by (apply held_nonneg; intros l v Hin; by apply (Hh l v)).
  assert (pc_contrib a p <= in_flight a ts); [|lia].
  apply Hg. intros u q Hq. by eapply pc_contrib_nonneg, (Ht u).
Qed.

Lemma uncharge_exact r val : 0 <= val <= usage r -> usage r <= RESOURCE_MAX ->
  res_counter_uncharge_locked r val = (false, set_usage r (usage r - val)).
Proof.
  intros Hv Hr. unfold res_counter_uncharge_locked, RESOURCE_MAX in *.
  destruct (Z.ltb_spec (usage r) val); [lia|]. rewrite u64_small by lia. done.
Qed.

Lemma held_total_app x hd1 hd2 : held_total x (hd1 ++ hd2) = held_total x hd1 + held_total x hd2.
Proof. unfold held_total. by rewrite fmap_app, zsum_app. Qed.

Lemma held_total_cons x l v hd : held_total x ((l, v) :: hd) = v * occ x l + held_total x hd.
Proof. done. Qed.

Lemma occ_head x a l v : v * occ x (a :: l) = v * occ x l + (if decide (a = x) then v else 0).
Proof. rewrite occ_cons. case_decide; lia. Qed.

(** One counter charged on the way up. *)
Lemma inv_charge h ts hd t counter val paid a r e r' :
  inv (mk_cstate h ts hd false) -> ts !! t = Some (Charging counter val paid (Some a)) ->
  h !! a = Some r -> res_counter_charge_locked r val = (e, r') ->
  (e = 0 -> inv (mk_cstate (<[a := r']> h)
     (<[t := Charging counter val (paid ++ [a]) (parent r')]> ts) hd false)) /\
  (e < 0 -> inv (mk_cstate (<[a := r']> h) (<[t := Undoing val paid (Some counter) a]> ts) hd false)).
Proof.
  intros Hinv Ht Hr Hc. destruct (inv_threads _ Hinv _ _ Ht) as [Hv Hp].
  destruct (inv_usage _ Hinv _ _ Hr) as (_ & Hu & Hlim).
  assert (no_wrap val r) as Hnw by (unfold no_wrap, RESOURCE_MAX in *; lia).
  destruct (decide (usage r + val <= limit r)) as [Ha|Ha].
  - rewrite charge_locked_ok in Hc by done. injection Hc as <- <-. split; [intros _|lia].
    eapply inv_critical; [done|done|done|done|..]; cbn [usage limit charged pc_contrib parent]; try done.
    + split; [done|]. by apply path_snoc.
    + rewrite occ_app, occ_cons, decide_True, occ_nil by done. lia.
    + intros x Hx. rewrite occ_app, occ_cons, decide_False, occ_nil by done. lia.
    + lia.
  - rewrite charge_locked_fail in Hc by done. injection Hc as <- <-. split; [done|intros _].
    eapply inv_critical; [done|done|done|done|..]; cbn; try done; try lia.
    split; [lia|done].
Qed.

(** One counter given back, on the way up, by an undo or an uncharge. *)
Lemma inv_give_back h ts hd t p p' val owed a r b r' :
  inv (mk_cstate h ts hd false) -> ts !! t = Some p ->
  (forall x, pc_contrib x p = val * occ x (a :: owed)) ->
  (forall x, pc_contrib x p' = val * occ x owed) ->
  0 <= val -> pc_ok h p' -> h !! a = Some r ->
  res_counter_uncharge_locked r val = (b, r') ->
  b = false /\ inv (mk_cstate (<[a := r']> h) (<[t := p']> ts) hd false).
Proof.
  intros Hinv Ht Hp Hp' Hv Hok Hr Hc.
  pose proof (usage_covers _ _ _ _ _ _ a r Hinv Ht Hr) as Hcov.
  rewrite Hp, occ_cons, decide_True in Hcov by done. pose proof (occ_nonneg a owed).
  destruct (inv_usage _ Hinv _ _ Hr) as (_ & Hu & Hlim).
  rewrite uncharge_exact in Hc by nia. injection Hc as <- <-. split; [done|].
  eapply inv_critical; [done|done|done|done|..]; cbn [usage limit set_usage parent]; try done; try nia.
  - rewrite Hp, Hp', occ_head, decide_True by done. lia.
  - intros x Hx. rewrite Hp, Hp', occ_head, decide_False by done. lia.
Qed.

Lemma inv_set_limit h ts hd a r l e r' :
  inv (mk_cstate h ts hd false) -> h !! a = Some r -> 0 <= l <= RESOURCE_MAX ->
  res_counter_set_limit r l = (e, r') -> inv (mk_cstate (<[a := r']> h) ts hd false).
Proof.
  intros [Hf Hu Ht Hh _] Hr Hl Hc. unfold res_counter_set_limit in Hc.
  cbn [heap threads held warned] in *. pose proof (Hu _ _ Hr) as Hur.
  assert (r' = r \/ usage r <= l /\ r' = set_limit_field r l) as Hr'.
  { destr_if_in Hc; injection Hc as <- <-; auto. }
  assert (parent r' = parent r) as Hp by by destruct Hr' as [->|[_ ->]].
  constructor; cbn [heap threads held warned]; [by eapply forest_update| | | |done].
  - intros b rb Hb. destruct (decide (a = b)) as [->|].
    + rewrite lookup_insert_eq in Hb. injection Hb as <-. destruct Hr' as [->|[? ->]]; cbn; lia.
    + rewrite lookup_insert_ne in Hb by done. by apply Hu.
  - intros t p Htp. eapply pc_ok_update; [done|done|]. by apply (Ht t).
  - intros l' v Hin. destruct (Hh _ _ Hin) as (? & c & Hc'). split; [done|]. exists c. by eapply path_update.
Qed.

Lemma inv_step s s' : inv s -> cstep s s' -> inv s'.
Proof.
  intros Hinv Hs. pose proof (inv_warned _ Hinv) as Hw. destruct Hs as
    [h ts hd w t counter val Ht Hv|h ts hd w t counter val paid a r r' Ht Hr Hc
    |h ts hd w t counter val paid a r r' e Ht Hr Hc He|h ts hd w t counter val paid Ht
    |h ts hd w t val owed a c r b r' Ht Hac Hr Hc|h ts hd w t val owed c Ht
    |h ts hd1 hd2 w t counter chn val part Ht Hpart|h ts hd w t val owed a r b r' Ht Hr Hc
    |h ts hd w t val owed Ht|h ts hd w a r l e r' Hr Hl Hc]; cbn in Hw; subst w;
    try (destruct (inv_threads _ Hinv _ _ Ht) as [Hv' Hp]).
  - apply (inv_local _ _ hd _ _ Idle); [done|done| | |exact (inv_held _ Hinv)].
    + split; [done|constructor].
    + intros x. cbn [pc_contrib]. rewrite occ_nil. lia.
  - by apply (inv_charge _ _ _ _ _ _ _ _ _ _ _ Hinv Ht Hr Hc).
  - by apply (inv_charge _ _ _ _ _ _ _ _ _ _ _ Hinv Ht Hr Hc).
  - apply (inv_local _ _ hd _ _ (Charging counter val paid None)); [done|done|done|..].
    + intros x. rewrite held_total_cons. cbn [pc_contrib]. lia.
    + intros l v [[= -> ->]|Hin]%elem_of_cons; [split; [lia|by exists counter]|].
      by apply (inv_held _ Hinv).
  - inversion Hp as [|? r0 owed' ? Hr0 Hp']; subst; [done|]. cbn [heap] in *.
    assert (r0 = r) as -> by congruence. change (drop 1 (a :: owed')) with owed'.
    assert (parent r' = parent r) as Hpar by by injection Hc as _ <-.
    edestruct (inv_give_back h ts hd t _ (Undoing val owed' (parent r') c) val owed' a r b r' Hinv Ht)
      as [-> ?]; try done. split; [done|]. by rewrite Hpar.
  - apply path_loop_nil in Hp; [subst owed|exact (inv_forest _ Hinv)].
    apply (inv_local _ _ hd _ _ (Undoing val [] (Some c) c)); [done|done|done| |exact (inv_held _ Hinv)].
    intros x. cbn [pc_contrib]. rewrite occ_nil. lia.
  - destruct (inv_held _ Hinv (counter :: chn) val) as (Hv & c0 & Hp); [cbn; set_solver|].
    apply (inv_local _ _ _ _ _ Idle _ Hinv); [done|..].
    + split; [lia|]. by inversion Hp; subst.
    + intros x. rewrite !held_total_app, !held_total_cons. cbn [pc_contrib]. lia.
    + intros l v [Hin|[[= -> ->]|Hin]%elem_of_cons]%elem_of_app; [|by split; [lia|exists c0]|];
        apply (inv_held _ Hinv); cbn [held]; set_solver.
  - inversion Hp as [|? r0 owed' ? Hr0 Hp']; subst. cbn [heap] in *.
    assert (r0 = r) as -> by congruence. change (drop 1 (a :: owed')) with owed'.
    assert (parent r' = parent r) as Hpar by by injection Hc as _ <-.
    edestruct (inv_give_back h ts hd t _ (Uncharging val owed' (parent r')) val owed' a r b r' Hinv Ht)
      as [-> ?]; try done. split; [done|]. by rewrite Hpar.
  - inversion Hp; subst.
    apply (inv_local _ _ hd _ _ (Uncharging val [] None)); [done|done|done| |exact (inv_held _ Hinv)].
    intros x. cbn [pc_contrib]. rewrite occ_nil. lia.
  - by eapply inv_set_limit.
Qed.

Lemma in_flight_idle x ts : (forall t p, ts !! t = Some p -> p = Idle) -> in_flight x ts = 0.
Proof.
  unfold in_flight.
  apply (map_fold_weak_ind (fun acc m => (forall t p, m !! t = Some p -> p = Idle) -> acc = 0)); [done|].
  intros t p m acc Hm IH Hall. rewrite (Hall t p (lookup_insert_eq _ _ _)). cbn [pc_contrib].
  rewrite IH; [done|]. intros t' p' H'. apply (Hall t'). rewrite lookup_insert_ne; congruence.
Qed.

Lemma initial_inv s : initial s -> inv s.
Proof.
  intros [Hf Hu Hi Hh Hw]. constructor; try done.
  - intros a r Hr. rewrite Hh. destruct (Hu _ _ Hr) as [-> Hl]. cbn [held_total fmap list_fmap].
    rewrite in_flight_idle by done. change (held_total a []) with 0. lia.
  - intros t p Ht. by rewrite (Hi _ _ Ht).
  - intros l v Hin. rewrite Hh in Hin. by apply elem_of_nil in Hin.
Qed.

Lemma reachable_inv s s' : initial s -> rtc cstep s s' -> inv s'.
Proof.
  intros Hi Hs. apply initial_inv in Hi. induction Hs as [|s1 s2 s3 H1 H2 IH]; [done|].
  apply IH. by eapply inv_step.
Qed.

End concurrent.

(** ** Theorems *)

Section theorems.
Import Seq Conc.

(** C27. Charging a hierarchy is all or nothing: when every counter up to the root
    has room, each of them is charged; otherwise the call fails at the first
    counter without room, every usage is as before, and only that counter's
    failure count (and the high-water marks below it) change. *)
Theorem res_counter_charge_all_or_nothing h counter l val :
  chain h (Some counter) l -> all_at (no_wrap val) h l ->
  (all_at (accepts val) h l ->
     exists h', res_counter_charge h counter val = Some (0, None, h') /\
       forall a, h' !! a = if decide (a ∈ l) then charged val <$> h !! a else h !! a) /\
  (forall l1 c r l2, l = l1 ++ c :: l2 -> all_at (accepts val) h l1 ->
     h !! c = Some r -> ~ accepts val r ->
     exists h', res_counter_charge h counter val = Some (- ENOMEM, Some c, h') /\
       forall a, h' !! a =
         if decide (a ∈ l1) then (fun r => set_max_usage r (Z.max (max_usage r) (usage r + val))) <$> h !! a
         else if decide (a = c) then refused <$> h !! a else h !! a).
Proof.
  intros Hc Hw. pose proof (chain_NoDup _ _ _ Hc) as Hnd.
  pose proof (chain_size _ _ _ Hc) as Hsz. unfold res_counter_charge. split.
  - intros Ha. rewrite (charge_loop_ok _ _ _ l) by (done || lia). eexists. split; [done|].
    intros a. by apply apply_all_lookup.
  - intros l1 c r l2 -> Ha Hr Hna.
    assert (all_at (no_wrap val) h (l1 ++ [c])) as Hw1 by (intros a ra Hin; apply Hw; set_solver).
    rewrite length_app in Hsz. cbn in Hsz.
    rewrite (charge_loop_fail _ _ _ l1 c r l2) by (done || lia).
    assert ((c ∉ l1) /\ NoDup l1) as [Hcl Hnd1].
    { apply list.NoDup_app in Hnd as (? & Hd & _). split; [|done]. intros Hin. by apply (Hd c Hin); left. }
    rewrite (undo_loop_spec _ _ _ l1).
    + eexists. split; [done|]. intros a. rewrite apply_all_lookup by done.
      destruct (decide (a ∈ l1)) as [Hin|Hin].
      * rewrite lookup_alter_ne by set_solver. rewrite apply_all_lookup, decide_True by done.
        destruct (h !! a) as [ra|] eqn:Hra; [|done]. cbn [fmap option_fmap option_map]. rewrite uncharged_charged; [done|].
        apply (Hw a); [set_solver|done].
      * destruct (decide (a = c)) as [->|].
        -- rewrite lookup_alter_eq, apply_all_lookup, decide_False by done. done.
        -- rewrite lookup_alter_ne, apply_all_lookup, decide_False by done. done.
    + change (alter refused c (apply_all (charged val) l1 h)) with
        (apply_all refused [c] (apply_all (charged val) l1 h)).
      apply path_apply; [done|]. apply path_apply; [done|]. by eapply chain_path.
    + apply list.NoDup_app. split; [done|]. split; [|apply NoDup_singleton]. set_solver.
    + rewrite <- size_dom, dom_alter_L, size_dom, apply_all_size. lia.
Qed.

(** A child with room below a full root: the charge fails at the root. *)
Lemma res_counter_charge_all_or_nothing_witness :
  let root := mk_counter 10 10 10 10 0 None in
  let child := mk_counter 4 5 100 100 0 (Some 1%nat) in
  exists h', res_counter_charge (<[2%nat := child]> {[1%nat := root]}) 2 3 = Some (-12, Some 1%nat, h') /\
    h' !! 2%nat = Some (mk_counter 4 7 100 100 0 (Some 1%nat)) /\
    h' !! 1%nat = Some (mk_counter 10 10 10 10 1 None).
Proof.
  intros root child. set (h := <[2%nat := child]> {[1%nat := root]}).
  destruct (res_counter_charge_all_or_nothing h 2 [2%nat; 1%nat] 3) as [_ Hfail].
  - econstructor; [reflexivity|]. econstructor; [reflexivity|]. constructor.
  - intros a r Ha Hr. apply elem_of_cons in Ha as [->|Ha]; [|apply elem_of_cons in Ha as [->|Ha]].
    + change (Some child = Some r) in Hr. injection Hr as <-. unfold no_wrap, root, child. cbn [usage]. lia.
    + change (Some root = Some r) in Hr. injection Hr as <-. unfold no_wrap, root, child. cbn [usage]. lia.
    + by apply elem_of_nil in Ha.
  - destruct (Hfail [2%nat] 1%nat root []) as (h' & Hc & Hl).
    + done.
    + intros a r Ha Hr. apply elem_of_cons in Ha as [->|Ha]; [|by apply elem_of_nil in Ha].
      change (Some child = Some r) in Hr. injection Hr as <-. unfold accepts, child. cbn [usage limit]. lia.
    + reflexivity.
    + unfold accepts, root. cbn [usage limit]. lia.
    + exists h'. split; [exact Hc|]. split; rewrite Hl; reflexivity.
Defined.

(** C4. Under any interleaving of charge, uncharge, undo and limit changes by any
    number of threads that release no more than they charged, the usage of every
    counter is exactly what completed charges at or below it still hold plus what
    calls in progress have charged so far, stays within the limit, and the
    underflow warning never fires; with no call in progress it is the sum of the
    charges held. *)
Theorem res_counter_interleaved_accounting s s' :
  initial s -> rtc cstep s s' ->
  warned s' = false /\
  (forall a r, heap s' !! a = Some r ->
     usage r = held_total a (held s') + in_flight a (threads s') /\ 0 <= usage r <= limit r) /\
  ((forall t p, threads s' !! t = Some p -> p = Idle) ->
     forall a r, heap s' !! a = Some r -> usage r = held_total a (held s')).
Proof.
  intros Hi Hs. pose proof (reachable_inv _ _ Hi Hs) as Hinv.
  split; [exact (inv_warned _ Hinv)|]. split.
  - intros a r Hr. destruct (inv_usage _ Hinv _ _ Hr) as (? & ? & _). done.
  - intros Hidle a r Hr. destruct (inv_usage _ Hinv _ _ Hr) as (-> & _).
    rewrite in_flight_idle by done. lia.
Qed.

(** Two threads charge 6 of the same root of 10 at the same time: the second to
    come is refused, and what the first one releases comes off. *)
Lemma res_counter_interleaved_accounting_witness :
  let root := mk_counter 0 0 10 10 0 None in
  let s0 := mk_cstate {[1%nat := root]} (<[7%nat := Idle]> {[8%nat := Idle]}) [] false in
  exists s1, rtc cstep s0 s1 /\ held s1 = [([1%nat], 4)] /\ heap s1 !! 1%nat = Some (mk_counter 4 6 10 10 1 None) /\
    warned s1 = false /\ forall r, heap s1 !! 1%nat = Some r -> usage r = held_total 1 (held s1).
Proof.
  intros root s0.
  assert (exists s1, rtc cstep s0 s1 /\ held s1 = [([1%nat], 4)] /\ heap s1 !! 1%nat = Some (mk_counter 4 6 10 10 1 None) /\
    forall t p, threads s1 !! t = Some p -> p = Idle) as (s1 & Hrun & Hh & Hc & Hidle).
  { eexists. split; [|split; [|split]].
    - eapply rtc_l; [apply (step_charge_call _ _ _ _ 7 1 6); [reflexivity|lia]|].
      eapply rtc_l; [apply (step_charge_call _ _ _ _ 8 1 6); [reflexivity|lia]|].
      eapply rtc_l; [eapply (step_charge_ok _ _ _ _ 7); [reflexivity|reflexivity|vm_compute; reflexivity]|].
      eapply rtc_l; [eapply (step_charge_fail _ _ _ _ 8); [reflexivity|reflexivity|vm_compute; reflexivity|lia]|].
      eapply rtc_l; [eapply (step_charge_return _ _ _ _ 7); reflexivity|].
      eapply rtc_l; [eapply (step_undo_return _ _ _ _ 8); reflexivity|].
      eapply rtc_l; [apply (step_uncharge_call _ _ [] [] _ 8 1 [] 6 2); [reflexivity|lia]|].
      eapply rtc_l; [eapply (step_uncharge _ _ _ _ 8); [reflexivity|reflexivity|vm_compute; reflexivity]|].
      eapply rtc_l; [eapply (step_uncharge_return _ _ _ _ 8); reflexivity|]. apply rtc_refl.
    - reflexivity.
    - reflexivity.
    - intros t p Ht. cbn [threads] in Ht. repeat (apply lookup_insert_Some in Ht as [[<- <-]|[? Ht]]; [done|]).
      apply lookup_singleton_Some in Ht as [<- <-]. done. }
  exists s1. split; [exact Hrun|]. split; [exact Hh|]. split; [exact Hc|].
  destruct (res_counter_interleaved_accounting s0 s1) as (Hw & _ & Hu); [|exact Hrun|exact (conj Hw (Hu Hidle 1%nat))].
  constructor; cbn; [| | |done|done].
  - intros a r Hr. apply lookup_singleton_Some in Hr as [<- <-]. exists [1%nat]. econstructor; [reflexivity|constructor].
  - intros a r Hr. apply lookup_singleton_Some in Hr as [<- <-]. cbn. unfold RESOURCE_MAX. lia.
  - intros t p Ht. apply lookup_insert_Some in Ht as [[_ <-]|[_ Ht]]; [done|]. by apply lookup_singleton_Some in Ht as [_ <-].
Defined.

End theorems.
