(* ===== verification/Kfifo.v ===== *)
(** * The generic kernel FIFO (kernel/kfifo.c, struct __kfifo of include/linux/kfifo.h)

    A ring of [mask + 1] elements of [esize] bytes with free-running 32-bit
    indices.  The byte and element operations, the record operations and the
    user-space copies are modelled; the scatter-gather (DMA) setup is not.

    [data] is the buffer as a list of bytes.  The copies between kernel and user
    space follow the documented behaviour of [copy_from_user] and
    [copy_to_user]: they copy the readable (writable) prefix, return the number
    of bytes left, and the former pads its destination with zeros. *)

From Stdlib Require Import ZArith Lia.
From stdpp Require Import base numbers list gmap fin_maps option.
From S2P Require Import Prelude.

Local Open Scope Z_scope.

Record kfifo := mk_kfifo {
  fin : Z;
  fout : Z;
  mask : Z;
  esize : Z;
  data : list Z
}.

Definition set_in (f : kfifo) (x : Z) : kfifo := mk_kfifo x (fout f) (mask f) (esize f) (data f).
Definition set_out (f : kfifo) (x : Z) : kfifo := mk_kfifo (fin f) x (mask f) (esize f) (data f).
Definition set_data (f : kfifo) (d : list Z) : kfifo := mk_kfifo (fin f) (fout f) (mask f) (esize f) d.

(** [1UL << (fls_long(n) - 1)]; undefined for 0, as documented. *)
Definition rounddown_pow_of_two (n : Z) : Z := 1 .<< Z.log2 n.

Definition DIV_ROUND_UP (n d : Z) : Z := (n + d - 1) / d.

Section kfifo.
Context `{LongWidth}.

Definition kfifo_unused (f : kfifo) : Z := u32 (u32 (mask f + 1) - u32 (fin f - fout f)).

(** [kmalloc n] is the allocator: a buffer of [n] bytes or nothing. *)
Definition __kfifo_alloc (kmalloc : Z -> option (list Z)) (size es : Z) : Z * kfifo :=
  let size := if negb (is_power_of_2 size) then u32 (rounddown_pow_of_two size) else size in
  if size <? 2 then (- EINVAL, mk_kfifo 0 0 0 es [])
  else
    match kmalloc (ulong (size * es)) with
    | None => (- ENOMEM, mk_kfifo 0 0 0 es [])
    | Some buf => (0, mk_kfifo 0 0 (size - 1) es buf)
    end.

Definition __kfifo_free (f : kfifo) : kfifo := mk_kfifo 0 0 0 0 [].

Definition __kfifo_init (buffer : list Z) (size es : Z) : Z * kfifo :=
  let size := size / es in
  let size := if negb (is_power_of_2 size) then u32 (rounddown_pow_of_two size) else size in
  if size <? 2 then (- EINVAL, mk_kfifo 0 0 0 es buffer)
  else (0, mk_kfifo 0 0 (size - 1) es buffer).

(** The offset, the buffer size and the length in bytes: the common start of the
    copy routines. *)
Definition scale (f : kfifo) (len off : Z) : Z * Z * Z :=
  let size := u32 (mask f + 1) in
  let off := off .& mask f in
  if negb (esize f =? 1)
  then (u32 (off * esize f), u32 (size * esize f), u32 (len * esize f))
  else (off, size, len).

Definition kfifo_copy_in (f : kfifo) (src : list Z) (len off : Z) : kfifo :=
  let '(off, size, len) := scale f len off in
  let l := Z.min len (u32 (size - off)) in
  let d := memcpy_at (data f) off (take (Z.to_nat l) src) in
  let d := memcpy_at d 0 (take (Z.to_nat (u32 (len - l))) (drop (Z.to_nat l) src)) in
  set_data f d.

Definition __kfifo_in (f : kfifo) (buf : list Z) (len : Z) : Z * kfifo :=
  let l := kfifo_unused f in
  let len := if l <? len then l else len in
  let f := kfifo_copy_in f buf len (fin f) in
  (len, set_in f (u32 (fin f + len))).

(** The bytes copied to the destination. *)
Definition kfifo_copy_out (f : kfifo) (len off : Z) : list Z :=
  let '(off, size, len) := scale f len off in
  let l := Z.min len (u32 (size - off)) in
  take (Z.to_nat l) (drop (Z.to_nat off) (data f)) ++ take (Z.to_nat (u32 (len - l))) (data f).

Definition __kfifo_out_peek (f : kfifo) (len : Z) : Z * list Z :=
  let l := u32 (fin f - fout f) in
  let len := if l <? len then l else len in
  (len, kfifo_copy_out f len (fout f)).

Definition __kfifo_out (f : kfifo) (len : Z) : Z * list Z * kfifo :=
  let '(len, buf) := __kfifo_out_peek f len in
  (len, buf, set_out f (u32 (fout f + len))).

(** User memory is its readable bytes: what is copied, padded, and the number of
    bytes not copied. *)
Definition copy_from_user (user : list Z) (n : Z) : Z * list Z :=
  let got := take (Z.to_nat n) user in
  (n - zlen got, got ++ replicate (Z.to_nat n - length got) 0).

(** Returns the elements not copied, [*copied] and the fifo. *)
Definition kfifo_copy_from_user (f : kfifo) (from : list Z) (len off : Z) : Z * Z * kfifo :=
  let '(off, size, len) := scale f len off in
  let l := Z.min len (u32 (size - off)) in
  let '(ret, bytes) := copy_from_user from l in
  let d := memcpy_at (data f) off bytes in
  let '(ret, d) :=
    if negb (ret =? 0)
    then (ulong (ulong (ulong (ulong (ret + len) - l) + esize f - 1) / esize f), d)
    else
      let '(ret, bytes) := copy_from_user (drop (Z.to_nat l) from) (u32 (len - l)) in
      let d := memcpy_at d 0 bytes in
      if negb (ret =? 0) then (ulong (ulong (ret + esize f) - 1) / esize f, d) else (ret, d) in
  (ret, u32 (len - ret), set_data f d).

(** Returns the error, [*copied] and the fifo. *)
Definition __kfifo_from_user (f : kfifo) (from : list Z) (len : Z) : Z * Z * kfifo :=
  let len := if negb (esize f =? 1) then len / esize f else len in
  let l := kfifo_unused f in
  let len := if l <? len then l else len in
  let '(ret, copied, f) := kfifo_copy_from_user f from (u32 len) (fin f) in
  let '(len, err) := if negb (ret =? 0) then (ulong (len - ret), - EFAULT) else (len, 0) in
  (err, copied, set_in f (u32 (fin f + len))).

(** [room] writable bytes of user memory. *)
Definition copy_to_user (room : Z) (src : list Z) : Z * list Z :=
  let put := take (Z.to_nat room) src in (zlen src - zlen put, put).

Definition kfifo_copy_to_user (f : kfifo) (room len off : Z) : Z * Z * list Z :=
  let '(off, size, len) := scale f len off in
  let l := Z.min len (u32 (size - off)) in
  let '(ret, put) := copy_to_user room (take (Z.to_nat l) (drop (Z.to_nat off) (data f))) in
  let '(ret, put) :=
    if negb (ret =? 0)
    then (ulong (ulong (ulong (ulong (ret + len) - l) + esize f - 1) / esize f), put)
    else
      let '(ret, put2) := copy_to_user (room - l) (take (Z.to_nat (u32 (len - l))) (data f)) in
      (if negb (ret =? 0) then ulong (ulong (ret + esize f) - 1) / esize f else ret, put ++ put2) in
  (ret, u32 (len - ret), put).

Definition __kfifo_to_user (f : kfifo) (room len : Z) : Z * Z * list Z * kfifo :=
  let len := if negb (esize f =? 1) then len / esize f else len in
  let l := u32 (fin f - fout f) in
  let len := if l <? len then l else len in
  let '(ret, copied, put) := kfifo_copy_to_user f room (u32 len) (fout f) in
  let '(len, err) := if negb (ret =? 0) then (ulong (len - ret), - EFAULT) else (len, 0) in
  (err, copied, put, set_out f (u32 (fout f + len))).

(** *** Records: a length of [recsize] bytes before each record *)

Definition __kfifo_max_r (len recsize : Z) : Z :=
  let max := u32 (s32 (1 .<< (recsize .<< 3)) - 1) in
  if max <? len then max else len.

Definition __KFIFO_PEEK (d : list Z) (out m : Z) : Z := znth d (u32 out .& m).

Definition __kfifo_peek_n (f : kfifo) (recsize : Z) : Z :=
  let l := __KFIFO_PEEK (data f) (fout f) (mask f) in
  if negb (recsize - 1 =? 0)
  then l .| (__KFIFO_PEEK (data f) (fout f + 1) (mask f) .<< 8) else l.

Definition __KFIFO_POKE (d : list Z) (i m v : Z) : list Z := memcpy_at d (u32 i .& m) [u8 v].

Definition __kfifo_poke_n (f : kfifo) (n recsize : Z) : kfifo :=
  let d := __KFIFO_POKE (data f) (fin f) (mask f) n in
  set_data f (if 1 <? recsize then __KFIFO_POKE d (fin f + 1) (mask f) (n .>> 8) else d).

Definition __kfifo_len_r (f : kfifo) (recsize : Z) : Z := __kfifo_peek_n f recsize.

Definition __kfifo_in_r (f : kfifo) (buf : list Z) (len recsize : Z) : Z * kfifo :=
  if kfifo_unused f <? ulong (len + recsize) then (0, f)
  else
    let f := __kfifo_poke_n f len recsize in
    let f := kfifo_copy_in f buf len (u32 (fin f + recsize)) in
    (len, set_in f (u32 (fin f + (len + recsize)))).

(** Returns the length, the bytes and [*n]. *)
Definition kfifo_out_copy_r (f : kfifo) (len recsize : Z) : Z * list Z * Z :=
  let n := __kfifo_peek_n f recsize in
  let len := if n <? len then n else len in
  (len, kfifo_copy_out f len (u32 (fout f + recsize)), n).

Definition __kfifo_out_peek_r (f : kfifo) (len recsize : Z) : Z * list Z :=
  if fin f =? fout f then (0, [])
  else let '(len, buf, _) := kfifo_out_copy_r f len recsize in (len, buf).

Definition __kfifo_out_r (f : kfifo) (len recsize : Z) : Z * list Z * kfifo :=
  if fin f =? fout f then (0, [], f)
  else
    let '(len, buf, n) := kfifo_out_copy_r f len recsize in
    (len, buf, set_out f (u32 (fout f + (n + recsize)))).

Definition __kfifo_skip_r (f : kfifo) (recsize : Z) : kfifo :=
  let n := __kfifo_peek_n f recsize in
  set_out f (u32 (fout f + (n + recsize))).

Definition __kfifo_from_user_r (f : kfifo) (from : list Z) (len recsize : Z) : Z * Z * kfifo :=
  let len := __kfifo_max_r (u32 len) recsize in
  if kfifo_unused f <? ulong (len + recsize) then (0, 0, f)
  else
    let f := __kfifo_poke_n f (u32 len) recsize in
    let '(ret, copied, f) := kfifo_copy_from_user f from (u32 len) (u32 (fin f + recsize)) in
    if negb (ret =? 0) then (- EFAULT, 0, f)
    else (0, copied, set_in f (u32 (fin f + (len + recsize)))).

Definition __kfifo_to_user_r (f : kfifo) (room len recsize : Z) : Z * Z * list Z * kfifo :=
  if fin f =? fout f then (0, 0, [], f)
  else
    let n := __kfifo_peek_n f recsize in
    let len := if n <? len then n else len in
    let '(ret, copied, put) := kfifo_copy_to_user f room (u32 len) (u32 (fout f + recsize)) in
    if negb (ret =? 0) then (- EFAULT, 0, put, f)
    else (0, copied, put, set_out f (u32 (fout f + (n + recsize)))).

Definition __kfifo_dma_in_finish_r (f : kfifo) (len recsize : Z) : kfifo :=
  let len := __kfifo_max_r len recsize in
  let f := __kfifo_poke_n f len recsize in
  set_in f (u32 (fin f + (len + recsize))).

Definition __kfifo_dma_out_finish_r (f : kfifo) (recsize : Z) : kfifo :=
  let len := __kfifo_peek_n f recsize in
  set_out f (u32 (fout f + (len + recsize))).

End kfifo.

(** ** The abstract queue *)

(** [n] bytes of the ring [d] from position [p] on. *)
Definition ring (d : list Z) (p : Z) (n : nat) : list Z :=
  (fun i => znth d ((p + Z.of_nat i) mod zlen d)) <$> seq 0 n.

Definition count (f : kfifo) : Z := u32 (fin f - fout f).

(** The bytes in the queue, oldest first. *)
Definition contents (f : kfifo) : list Z :=
  ring (data f) (fout f mod (mask f + 1) * esize f) (Z.to_nat (count f * esize f)).

(** Well-formed: the size is a power of two, the buffer is as long as the size
    says, the byte size fits 32 bits, and no more than the size is in use. *)
Record wf (f : kfifo) : Prop := {
  wf_pow : exists k, 0 <= k <= 31 /\ mask f + 1 = 2 ^ k;
  wf_esize : 1 <= esize f;
  wf_data : zlen (data f) = (mask f + 1) * esize f;
  wf_bytes : (mask f + 1) * esize f < 2 ^ 32;
  wf_in : 0 <= fin f < 2 ^ 32;
  wf_out : 0 <= fout f < 2 ^ 32;
  wf_count : count f <= mask f + 1
}.

Section ring_lemmas.

Lemma length_ring d p n : length (ring d p n) = n.
Proof. unfold ring. by rewrite length_fmap, length_seq. Qed.

Lemma znth_ring d p n i :
  0 <= i < Z.of_nat n -> znth (ring d p n) i = znth d ((p + i) mod zlen d).
Proof.
  intros Hi. unfold ring. unfold znth at 1. rewrite list_lookup_fmap, lookup_seq_lt by lia. cbn.
  f_equal. f_equal. lia.
Qed.

Lemma ring_app d p n k : ring d p (n + k) = ring d p n ++ ring d (p + Z.of_nat n) k.
Proof.
  apply list_eq_znth.
  - by rewrite length_app, !length_ring.
  - intros i Hi. rewrite length_ring in Hi. rewrite znth_ring by lia.
    destruct (decide (i < Z.of_nat n)).
    + by rewrite znth_app_l, znth_ring by (rewrite ?length_ring; lia).
    + rewrite znth_app_r, length_ring, znth_ring by (rewrite ?length_ring; lia).
      f_equal. f_equal. lia.
Qed.

Lemma ring_mod d p n : 0 < zlen d -> ring d (p mod zlen d) n = ring d p n.
Proof.
  intros Hd. apply list_eq_znth; [by rewrite !length_ring|]. intros i Hi.
  rewrite length_ring in Hi. rewrite !znth_ring by lia. by rewrite Zplus_mod_idemp_l.
Qed.

Lemma memcpy_at_nil d off : memcpy_at d off [] = d.
Proof. unfold memcpy_at. cbn [length app]. by rewrite Nat.add_0_r, take_drop. Qed.

(** Storing [src] at [off], in two copies when it wraps. *)
Definition store_ring (d : list Z) (off : Z) (src : list Z) : list Z :=
  let l := Z.min (zlen src) (zlen d - off) in
  memcpy_at (memcpy_at d off (take (Z.to_nat l) src)) 0 (drop (Z.to_nat l) src).

Lemma zlen_store_ring d off src :
  0 <= off < zlen d -> zlen src <= zlen d -> zlen (store_ring d off src) = zlen d.
Proof.
  intros Ho Hs. unfold store_ring.
  assert (zlen (memcpy_at d off (take (Z.to_nat (zlen src `min` (zlen d - off))) src)) = zlen d) as E
    by (apply zlen_memcpy_at; [lia|rewrite length_take; lia]).
  rewrite zlen_memcpy_at; [done|lia|]. rewrite E, length_drop. lia.
Qed.

(** The bytes of a store, in ring order from [off], are [src] and then the old ones. *)
Lemma znth_store_ring d off src i :
  0 <= off < zlen d -> zlen src <= zlen d -> 0 <= i < zlen d ->
  znth (store_ring d off src) ((off + i) mod zlen d) =
    if i <? zlen src then znth src i else znth d ((off + i) mod zlen d).
Proof.
  intros Ho Hs Hi. unfold store_ring. set (l := zlen src `min` (zlen d - off)).
  set (d1 := memcpy_at d off (take (Z.to_nat l) src)).
  assert (zlen d1 = zlen d) as E by (apply zlen_memcpy_at; [lia|rewrite length_take; lia]).
  assert (0 <= (off + i) mod zlen d < zlen d) as Hm by (apply Z.mod_pos_bound; lia).
  rewrite znth_memcpy_at by (rewrite ?E, ?length_drop; lia). subst d1.
  rewrite znth_memcpy_at by (rewrite ?length_take; lia).
  rewrite length_drop, length_take.
  assert (off + i < zlen d /\ (off + i) mod zlen d = off + i \/
          zlen d <= off + i /\ (off + i) mod zlen d = off + i - zlen d) as Hc.
  { destruct (Z.lt_ge_cases (off + i) (zlen d)); [left|right]; split; try done.
    - apply Z.mod_small. lia.
    - symmetry. apply (Z.mod_unique _ _ 1); lia. }
  destruct Hc as [[Hc ->]|[Hc ->]];
    repeat match goal with |- context [?a <=? ?b] => destruct (Z.leb_spec a b) end;
    repeat match goal with |- context [?a <? ?b] => destruct (Z.ltb_spec a b) end;
    cbn [andb]; try (subst l; lia); try done.
  all: rewrite ?znth_drop, ?znth_take by lia; f_equal; subst l; lia.
Qed.

Lemma ring_store_new d off src :
  0 <= off < zlen d -> zlen src <= zlen d -> ring (store_ring d off src) off (length src) = src.
Proof.
  intros Ho Hs. apply list_eq_znth; [by rewrite length_ring|]. intros i Hi.
  rewrite length_ring in Hi. rewrite znth_ring, zlen_store_ring by lia.
  rewrite znth_store_ring by lia. by destruct (Z.ltb_spec i (zlen src)); [|lia].
Qed.

(** A store does not touch the bytes before [off], as far as they do not overlap. *)
Lemma ring_store_old d p n src :
  0 < zlen d -> Z.of_nat n + zlen src <= zlen d ->
  ring (store_ring d ((p + Z.of_nat n) mod zlen d) src) p n = ring d p n.
Proof.
  intros Hd Hs. set (off := (p + Z.of_nat n) mod zlen d).
  assert (0 <= off < zlen d) as Ho by (apply Z.mod_pos_bound; lia).
  apply list_eq_znth; [by rewrite !length_ring|]. intros i Hi. rewrite length_ring in Hi.
  rewrite !znth_ring, zlen_store_ring by lia.
  assert ((p + i) mod zlen d = (off + (i - Z.of_nat n + zlen d)) mod zlen d) as ->.
  { subst off. rewrite Zplus_mod_idemp_l.
    replace (p + Z.of_nat n + (i - Z.of_nat n + zlen d)) with (p + i + 1 * zlen d) by lia.
    by rewrite Z.mod_add by lia. }
  rewrite znth_store_ring by lia. by destr_if; [lia|].
Qed.

Lemma ring_read d off n :
  0 <= off < zlen d -> Z.of_nat n <= zlen d ->
  take (Z.to_nat (Z.min (Z.of_nat n) (zlen d - off))) (drop (Z.to_nat off) d) ++
  take (Z.to_nat (Z.of_nat n - Z.min (Z.of_nat n) (zlen d - off))) d = ring d off n.
Proof.
  intros Ho Hn. set (l := Z.of_nat n `min` (zlen d - off)). apply list_eq_znth.
  - rewrite length_app, !length_take, length_drop, length_ring. lia.
  - intros i Hi. rewrite length_app, !length_take, length_drop in Hi. rewrite znth_ring by lia.
    destruct (decide (i < l)).
    + rewrite znth_app_l by (rewrite length_take, length_drop; lia).
      rewrite znth_take, znth_drop by lia. f_equal. rewrite Z.mod_small; lia.
    + rewrite znth_app_r by (rewrite length_take, length_drop; lia).
      rewrite znth_take by (rewrite length_take, length_drop; lia).
      f_equal. rewrite length_take, length_drop.
      transitivity (off + i - zlen d); [lia|]. apply (Z.mod_unique _ _ 1); lia.
Qed.

End ring_lemmas.

Section fifo_lemmas.
Context `{LongWidth}.

Lemma wf_size f : wf f -> 1 <= mask f + 1 <= 2 ^ 31 /\ 0 <= mask f /\
  (forall x, x .& mask f = x mod (mask f + 1)) /\ (forall x, u32 x mod (mask f + 1) = x mod (mask f + 1)).
Proof.
  intros [(k & Hk & E) _ _ _ _ _ _].
  assert (1 <= 2 ^ k <= 2 ^ 31) by (split; [|apply Z.pow_le_mono_r; lia]; pose proof (Z.pow_pos_nonneg 2 k); lia).
  repeat split; try lia.
  - intros x. replace (mask f) with (2 ^ k - 1) at 1 by lia. rewrite E. apply land_ones_mod. lia.
  - intros x. rewrite E. unfold u32, uwrap. apply Z.mod_mod_divide.
    exists (2 ^ (32 - k)). rewrite <- Z.pow_add_r by lia. f_equal. lia.
Qed.

Lemma count_range f : 0 <= count f.
Proof. unfold count. pose proof (u32_range (fin f - fout f)). lia. Qed.

Lemma mask_u32 f : wf f -> u32 (mask f + 1) = mask f + 1.
Proof. intros Hf. destruct (wf_size f Hf) as (? & ? & _). apply u32_small. lia. Qed.

Lemma unused_count f : wf f -> kfifo_unused f = mask f + 1 - count f.
Proof.
  intros Hf. unfold kfifo_unused. rewrite mask_u32 by done. change (u32 (fin f - fout f)) with (count f).
  destruct (wf_size f Hf) as (? & ? & _). pose proof (count_range f). pose proof (wf_count f Hf).
  apply u32_small. lia.
Qed.

Lemma scale_eq f len off : wf f -> 0 <= len <= mask f + 1 ->
  scale f len off = (off mod (mask f + 1) * esize f, zlen (data f), len * esize f).
Proof.
  intros Hf Hl. destruct (wf_size f Hf) as (Hs & Hm & Hand & _). unfold scale.
  rewrite Hand, mask_u32, wf_data by done.
  pose proof (wf_esize f Hf). pose proof (wf_bytes f Hf).
  assert (0 <= off mod (mask f + 1) < mask f + 1) by (apply Z.mod_pos_bound; lia).
  destruct (Z.eqb_spec (esize f) 1) as [->|]; cbn [negb]; [by rewrite !Z.mul_1_r|].
  rewrite !u32_small by nia. done.
Qed.

Lemma zlen_data_pos f : wf f -> 0 < zlen (data f) < 2 ^ 32.
Proof.
  intros Hf. rewrite wf_data by done. destruct (wf_size f Hf) as (Hs & _).
  pose proof (wf_esize f Hf). pose proof (wf_bytes f Hf). nia.
Qed.

Lemma start_range f off : wf f -> 0 <= off mod (mask f + 1) * esize f < zlen (data f).
Proof.
  intros Hf. rewrite wf_data by done. destruct (wf_size f Hf) as (Hs & _). pose proof (wf_esize f Hf).
  assert (0 <= off mod (mask f + 1) < mask f + 1) by (apply Z.mod_pos_bound; lia). nia.
Qed.

Lemma copy_in_eq f src len off :
  wf f -> 0 <= len <= mask f + 1 -> len * esize f <= zlen src ->
  kfifo_copy_in f src len off =
    set_data f (store_ring (data f) (off mod (mask f + 1) * esize f) (take (Z.to_nat (len * esize f)) src)).
Proof.
  intros Hf Hl Hsrc. unfold kfifo_copy_in. rewrite scale_eq by done.
  pose proof (start_range f off Hf). pose proof (zlen_data_pos f Hf). pose proof (wf_esize f Hf).
  rewrite u32_small by lia. set (o := off mod (mask f + 1) * esize f) in *.
  rewrite u32_small by (pose proof (wf_data f Hf); nia).
  assert (zlen (take (Z.to_nat (len * esize f)) src) = len * esize f) as E
    by (rewrite length_take; nia).
  unfold store_ring. rewrite E. f_equal. f_equal; [f_equal|].
  - rewrite take_take. f_equal. nia.
  - rewrite take_drop_commute. f_equal. f_equal. nia.
Qed.

Lemma copy_out_eq f len off :
  wf f -> 0 <= len <= mask f + 1 ->
  kfifo_copy_out f len off =
    ring (data f) (off mod (mask f + 1) * esize f) (Z.to_nat (len * esize f)).
Proof.
  intros Hf Hl. unfold kfifo_copy_out. rewrite scale_eq by done.
  pose proof (start_range f off Hf). pose proof (zlen_data_pos f Hf). pose proof (wf_esize f Hf).
  pose proof (wf_data f Hf) as Hd. rewrite u32_small by lia. rewrite u32_small by nia.
  rewrite <- ring_read by nia. by rewrite Z2Nat.id by nia.
Qed.

(** The write position is where the contents end. *)
Lemma end_position f n :
  wf f -> 0 <= n ->
  (fout f mod (mask f + 1) * esize f + n * esize f) mod zlen (data f) =
    u32 (fout f + n) mod (mask f + 1) * esize f.
Proof.
  intros Hf Hn. destruct (wf_size f Hf) as (Hs & _ & _ & Hu). pose proof (wf_esize f Hf).
  rewrite wf_data, Hu by done. rewrite <- Z.mul_add_distr_r, Z.mul_mod_distr_r by lia.
  by rewrite Zplus_mod_idemp_l.
Qed.

Lemma out_plus_count f : wf f -> u32 (fout f + count f) = fin f.
Proof.
  intros Hf. unfold count, u32. rewrite uwrap_add_r.
  replace (fout f + (fin f - fout f)) with (fin f) by lia. apply uwrap_small, wf_in, Hf.
Qed.

Lemma count_push f n : wf f -> 0 <= n <= mask f + 1 - count f ->
  u32 (u32 (fin f + n) - fout f) = count f + n.
Proof.
  intros Hf Hn. destruct (wf_size f Hf) as (Hs & _). pose proof (count_range f).
  unfold u32. rewrite uwrap_sub_l. replace (fin f + n - fout f) with ((fin f - fout f) + n) by lia.
  rewrite <- uwrap_add_l. change (uwrap 32 (fin f - fout f)) with (count f).
  apply uwrap_small. lia.
Qed.

Lemma count_pop f n : wf f -> 0 <= n <= count f ->
  u32 (fin f - u32 (fout f + n)) = count f - n.
Proof.
  intros Hf Hn. destruct (wf_size f Hf) as (Hs & _). pose proof (wf_count f Hf).
  unfold u32. rewrite uwrap_sub_r. replace (fin f - (fout f + n)) with ((fin f - fout f) - n) by lia.
  rewrite <- uwrap_sub_l. change (uwrap 32 (fin f - fout f)) with (count f).
  apply uwrap_small. lia.
Qed.

(** A store where the first [n] bytes from [p] on end leaves them and appends. *)
Lemma ring_store_app d p n src :
  0 < zlen d -> Z.of_nat n + zlen src <= zlen d ->
  ring (store_ring d ((p + Z.of_nat n) mod zlen d) src) p (n + length src) = ring d p n ++ src.
Proof.
  intros Hd Hn. assert (0 <= (p + Z.of_nat n) mod zlen d < zlen d) by (apply Z.mod_pos_bound; lia).
  rewrite ring_app. f_equal; [by apply ring_store_old|].
  rewrite <- (ring_mod _ (_ + _)) by (rewrite zlen_store_ring; lia).
  rewrite zlen_store_ring by lia. apply ring_store_new; lia.
Qed.

(** The first byte of the contents in the buffer, and the bytes in use. *)
Definition start (f : kfifo) : Z := fout f mod (mask f + 1) * esize f.
Definition used (f : kfifo) : nat := Z.to_nat (count f * esize f).

Lemma used_eq f : wf f -> Z.of_nat (used f) = count f * esize f.
Proof. intros Hf. pose proof (wf_esize f Hf). pose proof (count_range f). unfold used. nia. Qed.

Lemma write_position f :
  wf f -> fin f mod (mask f + 1) * esize f = (start f + Z.of_nat (used f)) mod zlen (data f).
Proof.
  intros Hf. rewrite used_eq by done. unfold start.
  rewrite end_position by (done || apply count_range). by rewrite out_plus_count.
Qed.

(** Moving [in] over bytes that follow the contents appends them. *)
Lemma push_spec f src n d :
  wf f -> 0 <= n <= mask f + 1 - count f -> zlen src = n * esize f -> zlen d = zlen (data f) ->
  ring d (start f) (used f + length src) = contents f ++ src ->
  wf (set_in (set_data f d) (u32 (fin f + n))) /\
  contents (set_in (set_data f d) (u32 (fin f + n))) = contents f ++ src.
Proof.
  intros Hf Hn Hsrc Hlen Hring. pose proof (wf_esize f Hf). pose proof (wf_data f Hf) as Hd.
  pose proof (count_range f). split.
  - destruct Hf as [W1 W2 W3 W4 W5 W6 W7]. constructor; cbn; try done; [lia|apply u32_range|].
    change (u32 (u32 (fin f + n) - fout f) <= mask f + 1). rewrite count_push; [lia|by constructor|done].
  - rewrite <- Hring. unfold contents at 1, count. cbn [fin fout mask esize data set_in set_data].
    rewrite count_push by done. fold (start f). f_equal. pose proof (used_eq f Hf). nia.
Qed.

Lemma unused_bytes f n :
  wf f -> 0 <= n <= mask f + 1 - count f -> Z.of_nat (used f) + n * esize f <= zlen (data f).
Proof.
  intros Hf Hn. rewrite used_eq, wf_data by done. pose proof (wf_esize f Hf). nia.
Qed.

(** Removing [n] elements: [out] moves, what follows stays. *)
Lemma pop_ring f n k :
  wf f -> 0 <= n <= count f ->
  let f' := set_out f (u32 (fout f + n)) in
  ring (data f) (start f') (used f' + k) =
    drop (Z.to_nat (n * esize f)) (ring (data f) (start f) (used f + k)).
Proof.
  intros Hf Hn f'. pose proof (wf_esize f Hf). pose proof (zlen_data_pos f Hf).
  assert (used f = Z.to_nat (n * esize f) + used f')%nat as ->.
  { unfold used. subst f'. cbn [esize set_out]. unfold count at 2. cbn [fin fout set_out].
    rewrite count_pop by done. nia. }
  rewrite <- Nat.add_assoc, (ring_app _ (start f)), drop_app_length' by by rewrite length_ring.
  rewrite <- (ring_mod _ (_ + _)) by lia. rewrite Z2Nat.id by nia. unfold start.
  by rewrite end_position by (done || lia).
Qed.

Lemma pop_spec f n :
  wf f -> 0 <= n <= count f ->
  wf (set_out f (u32 (fout f + n))) /\
  contents (set_out f (u32 (fout f + n))) = drop (Z.to_nat (n * esize f)) (contents f).
Proof.
  intros Hf Hn. split.
  - destruct Hf as [W1 W2 W3 W4 W5 W6 W7]. constructor; cbn; try done; [apply u32_range|].
    change (u32 (fin f - u32 (fout f + n)) <= mask f + 1). rewrite count_pop; [lia|by constructor|done].
  - pose proof (pop_ring f n 0 Hf Hn) as Hp. cbn zeta in Hp. rewrite !Nat.add_0_r in Hp. exact Hp.
Qed.

Lemma peek_spec f n :
  wf f -> 0 <= n <= count f ->
  kfifo_copy_out f n (fout f) = take (Z.to_nat (n * esize f)) (contents f).
Proof.
  intros Hf Hn. pose proof (wf_esize f Hf). pose proof (wf_count f Hf).
  rewrite copy_out_eq by (done || lia). unfold contents.
  replace (Z.to_nat (count f * esize f)) with
    (Z.to_nat (n * esize f) + Z.to_nat ((count f - n) * esize f))%nat by nia.
  rewrite ring_app, take_app_length' by by rewrite length_ring. done.
Qed.

(** *** The operations on the contents *)

Lemma in_spec f buf len :
  wf f -> 0 <= len < 2 ^ 32 -> Z.min len (mask f + 1 - count f) * esize f <= zlen buf ->
  let n := Z.min len (mask f + 1 - count f) in
  let '(r, f') := __kfifo_in f buf len in
  r = n /\ wf f' /\ contents f' = contents f ++ take (Z.to_nat (n * esize f)) buf /\
  mask f' = mask f /\ esize f' = esize f.
Proof.
  intros Hf Hlen Hbuf n. pose proof (wf_count f Hf). pose proof (wf_esize f Hf). pose proof (count_range f).
  unfold __kfifo_in. rewrite unused_count by done.
  replace (if _ <? len then _ else len) with n by (subst n; destr_if; lia).
  rewrite copy_in_eq by (done || lia). cbn [fin set_data].
  set (src := take _ buf). assert (zlen src = n * esize f) as Hsrc by (subst src; rewrite length_take; nia).
  pose proof (unused_bytes f n Hf ltac:(lia)). pose proof (zlen_data_pos f Hf).
  destruct (push_spec f src n (store_ring (data f) (fin f mod (mask f + 1) * esize f) src)) as [? Hc].
  - done.
  - lia.
  - done.
  - apply zlen_store_ring; [by apply start_range|lia].
  - rewrite write_position by done. apply ring_store_app; lia.
  - rewrite Hc. done.
Qed.

Lemma out_spec f len :
  wf f -> 0 <= len < 2 ^ 32 ->
  let n := Z.min len (count f) in
  let '(r, buf, f') := __kfifo_out f len in
  r = n /\ buf = take (Z.to_nat (n * esize f)) (contents f) /\ wf f' /\
  contents f' = drop (Z.to_nat (n * esize f)) (contents f) /\
  mask f' = mask f /\ esize f' = esize f.
Proof.
  intros Hf Hlen n. pose proof (count_range f). unfold __kfifo_out, __kfifo_out_peek.
  change (u32 (fin f - fout f)) with (count f).
  replace (if _ <? len then _ else len) with n by (subst n; destr_if; lia).
  destruct (pop_spec f n Hf ltac:(lia)) as [? Hc]. rewrite peek_spec by (done || lia). done.
Qed.

End fifo_lemmas.

(** ** The bounded queue, and the fifo as an implementation of it *)

(** A request of a client: put [len] elements, take [len], look at [len]. *)
Inductive request : Type :=
| Put (buf : list Z) (len : Z)
| Take (len : Z)
| Peek (len : Z).

(** What a client can see: the number of elements, and the bytes. *)
Abbreviation answer := (Z * list Z)%type.

Definition serve (f : kfifo) (r : request) : answer * kfifo :=
  match r with
  | Put buf len => let '(n, f) := __kfifo_in f buf len in ((n, []), f)
  | Take len => let '(n, buf, f) := __kfifo_out f len in ((n, buf), f)
  | Peek len => (__kfifo_out_peek f len, f)
  end.

(** A queue of at most [cap] elements of [e] bytes, with bytes [q]. *)
Definition serve_queue (cap e : Z) (q : list Z) (r : request) : answer * list Z :=
  let have := zlen q / e in
  match r with
  | Put buf len =>
      let n := Z.min len (cap - have) in ((n, []), q ++ take (Z.to_nat (n * e)) buf)
  | Take len =>
      let n := Z.min len have in
      ((n, take (Z.to_nat (n * e)) q), drop (Z.to_nat (n * e)) q)
  | Peek len => let n := Z.min len have in ((n, take (Z.to_nat (n * e)) q), q)
  end.

Fixpoint serve_all {S : Type} (step : S -> request -> answer * S) (s : S) (rs : list request) :
  list answer * S :=
  match rs with
  | [] => ([], s)
  | r :: rs => let '(a, s) := step s r in let '(rest, s) := serve_all step s rs in (a :: rest, s)
  end.

(** The arguments of a request are in range: the length is an [unsigned int] and
    the caller's buffer holds what is asked of it. *)
Definition request_ok (e : Z) (r : request) : Prop :=
  match r with
  | Put buf len => 0 <= len < 2 ^ 32 /\ len * e <= zlen buf
  | Take len | Peek len => 0 <= len < 2 ^ 32
  end.

Section refinement.

Lemma count_contents f : wf f -> zlen (contents f) / esize f = count f.
Proof.
  intros Hf. unfold contents. rewrite length_ring. fold (used f). rewrite used_eq by done.
  pose proof (wf_esize f Hf). apply Z.div_mul. lia.
Qed.

Lemma serve_refines f r :
  wf f -> request_ok (esize f) r ->
  let '(a, f') := serve f r in
  serve_queue (mask f + 1) (esize f) (contents f) r = (a, contents f') /\
  wf f' /\ mask f' = mask f /\ esize f' = esize f.
Proof.
  intros Hf Hr. unfold serve_queue. rewrite count_contents by done.
  pose proof (wf_esize f Hf). pose proof (wf_count f Hf).
  destruct r as [buf len|len|len]; cbn [serve request_ok] in *.
  - assert (Z.min len (mask f + 1 - count f) * esize f <= zlen buf) by nia.
    pose proof (in_spec f buf len Hf (proj1 Hr) ltac:(done)) as Hin. cbn zeta in Hin.
    destruct (__kfifo_in f buf len) as [n f']. by destruct Hin as (-> & ? & -> & ? & ?).
  - pose proof (out_spec f len Hf Hr) as Hout. cbn zeta in Hout.
    destruct (__kfifo_out f len) as [[n buf] f']. by destruct Hout as (-> & -> & ? & -> & ? & ?).
  - pose proof (out_spec f len Hf Hr) as Hout. cbn zeta in Hout. unfold __kfifo_out in Hout.
    destruct (__kfifo_out_peek f len) as [n buf]. by destruct Hout as (-> & -> & _).
Qed.

(** C5. A kfifo is a bounded FIFO queue: served any sequence of put, take and peek
    requests, it gives the answers the abstract queue of [mask + 1] elements gives
    (partial puts and takes included), whatever the free-running 32-bit indexes
    are, and stays well formed. *)
Theorem kfifo_refines_queue f rs :
  wf f -> Forall (request_ok (esize f)) rs ->
  let '(answers, f') := serve_all serve f rs in
  serve_all (serve_queue (mask f + 1) (esize f)) (contents f) rs = (answers, contents f') /\ wf f'.
Proof.
  intros Hf Hrs. revert f Hf Hrs. induction rs as [|r rs IH]; intros f Hf Hrs; [done|].
  inversion Hrs as [|? ? Hr Hrs2]; subst. cbn [serve_all].
  pose proof (serve_refines f r Hf Hr) as Hs. destruct (serve f r) as [a f1].
  destruct Hs as (-> & Hf1 & Hm & He). rewrite <- He in Hrs2. specialize (IH f1 Hf1 Hrs2).
  rewrite <- Hm, <- He. destruct (serve_all serve f1 rs) as [rest f2].
  destruct IH as [-> ?]. done.
Qed.

End refinement.

Lemma kfifo_refines_queue_witness :
  let f := {| fin := 2; fout := 2 ^ 32 - 1; mask := 3; esize := 2; data := [1; 2; 3; 4; 5; 6; 7; 8] |} in
  let rs := [Put [9; 10; 11; 12] 2; Peek 1; Take 9] in
  (serve_all serve f rs).1 = [(1, []); (1, [7; 8]); (4, [7; 8; 1; 2; 3; 4; 9; 10])] /\
  (let '(answers, f') := serve_all serve f rs in
   serve_all (serve_queue (mask f + 1) (esize f)) (contents f) rs = (answers, contents f') /\ wf f').
Proof.
  intros f rs. split; [by vm_compute|]. apply (kfifo_refines_queue f rs).
  - constructor; subst f; cbn; try lia; [exists 2; lia|vm_compute; congruence].
  - repeat constructor; cbn; lia.
Defined.

(** ** One writer and one reader, without a lock *)

Module Spsc.

(** The buffer index of byte [i] of a copy of [len] elements at [off]: before the
    end of the buffer, or at its start. *)
Definition slot (f : kfifo) (len off i : Z) : Z :=
  let '(off, size, len) := scale f len off in
  let l := Z.min len (u32 (size - off)) in
  if i <? l then off + i else i - l.

(** Where the writer is in [__kfifo_in]: [i] of the bytes [src] of [n] elements are
    stored and [in] is not updated yet. *)
Inductive writer_state : Type :=
| WIdle
| WCopy (src : list Z) (n : Z) (i : nat).

(** Where the reader is in [__kfifo_out]: the bytes [acc] are read and [out] is not
    updated yet. *)
Inductive reader_state : Type :=
| RIdle
| RCopy (n : Z) (acc : list Z).

(** [written] and [received] are the bytes of the completed calls. *)
Record system : Type := mk_system {
  fifo : kfifo;
  writer : writer_state;
  reader : reader_state;
  written : list Z;
  received : list Z
}.

Inductive step : system -> system -> Prop :=
| w_start f r w rd buf len n :
    0 <= len < 2 ^ 32 ->
    n = (if kfifo_unused f <? len then kfifo_unused f else len) ->
    n * esize f <= zlen buf ->
    step (mk_system f WIdle r w rd) (mk_system f (WCopy (take (Z.to_nat (n * esize f)) buf) n 0) r w rd)
| w_byte f r w rd src n i b :
    src !! i = Some b ->
    step (mk_system f (WCopy src n i) r w rd)
         (mk_system (set_data f (memcpy_at (data f) (slot f n (fin f) (Z.of_nat i)) [b]))
                    (WCopy src n (S i)) r w rd)
| w_publish f r w rd src n :
    step (mk_system f (WCopy src n (length src)) r w rd)
         (mk_system (set_in f (u32 (fin f + n))) WIdle r (w ++ src) rd)
| r_start f wr w rd len n :
    0 <= len < 2 ^ 32 ->
    n = (if u32 (fin f - fout f) <? len then u32 (fin f - fout f) else len) ->
    step (mk_system f wr RIdle w rd) (mk_system f wr (RCopy n []) w rd)
| r_byte f wr w rd n acc :
    zlen acc < n * esize f ->
    step (mk_system f wr (RCopy n acc) w rd)
         (mk_system f wr (RCopy n (acc ++ [znth (data f) (slot f n (fout f) (zlen acc))])) w rd)
| r_finish f wr w rd n acc :
    zlen acc = n * esize f ->
    step (mk_system f wr (RCopy n acc) w rd)
         (mk_system (set_out f (u32 (fout f + n))) wr RIdle w (rd ++ acc)).

Definition init (f : kfifo) : system := mk_system f WIdle RIdle (contents f) [].

Definition writer_inv (f : kfifo) (w : writer_state) : Prop :=
  match w with
  | WIdle => True
  | WCopy src n i =>
      0 <= n <= mask f + 1 - count f /\ zlen src = n * esize f /\ (i <= length src)%nat /\
      ring (data f) (start f) (used f + i) = contents f ++ take i src
  end.

Definition reader_inv (f : kfifo) (r : reader_state) : Prop :=
  match r with
  | RIdle => True
  | RCopy n acc =>
      0 <= n <= count f /\ zlen acc <= n * esize f /\ acc = take (length acc) (contents f)
  end.

Record inv (s : system) : Prop := {
  inv_wf : wf (fifo s);
  inv_bytes : written s = received s ++ contents (fifo s);
  inv_writer : writer_inv (fifo s) (writer s);
  inv_reader : reader_inv (fifo s) (reader s)
}.

Lemma slot_eq f n off i :
  wf f -> 0 <= n <= mask f + 1 -> 0 <= i < n * esize f ->
  slot f n off i = (off mod (mask f + 1) * esize f + i) mod zlen (data f).
Proof.
  intros Hf Hn Hi. unfold slot. rewrite scale_eq by done.
  pose proof (start_range f off Hf). pose proof (zlen_data_pos f Hf).
  assert (n * esize f <= zlen (data f)) by (pose proof (wf_data f Hf); pose proof (wf_esize f Hf); nia).
  rewrite u32_small by lia. set (o := off mod (mask f + 1) * esize f) in *.
  destruct (Z.ltb_spec i (Z.min (n * esize f) (zlen (data f) - o))).
  - rewrite Z.mod_small; lia.
  - apply (Z.mod_unique _ _ 1); lia.
Qed.

Lemma store_ring_one d p b : 0 <= p < zlen d -> store_ring d p [b] = memcpy_at d p [b].
Proof.
  intros Hp. unfold store_ring. cbn [length]. replace (Z.min _ _) with 1 by lia. cbn [Z.to_nat Pos.to_nat Pos.iter_op take drop].
  apply memcpy_at_nil.
Qed.

Lemma ring_prefix d p n k xs ys :
  ring d p (n + k) = xs ++ ys -> length xs = n -> ring d p n = xs.
Proof.
  intros Hr Hx. rewrite ring_app in Hr. apply app_inj_1 in Hr as [-> _]; [done|].
  by rewrite length_ring.
Qed.

Lemma ring_take d p n m k xs ys :
  ring d p (n + m) = xs ++ ys -> length xs = n -> ring d p (n + length (take k ys)) = xs ++ take k ys.
Proof.
  intros Hr Hx. assert (length ys = m) as Hm
    by (apply (f_equal length) in Hr; rewrite length_ring, length_app in Hr; lia).
  rewrite length_take. destruct (decide (k <= m)%nat).
  - rewrite <- (take_drop k ys), app_assoc in Hr. replace (n + m)%nat with (n + k + (m - k))%nat in Hr by lia.
    rewrite Nat.min_l by lia. apply (ring_prefix _ _ _ _ _ _ Hr). rewrite length_app, length_take. lia.
  - by rewrite Nat.min_r, firstn_all2, Hm by lia.
Qed.

Lemma length_contents f : length (contents f) = used f.
Proof. apply length_ring. Qed.

(** The writer stores behind the contents. *)
Lemma w_byte_inv f src n i b :
  wf f -> writer_inv f (WCopy src n i) -> src !! i = Some b ->
  let f' := set_data f (memcpy_at (data f) (slot f n (fin f) (Z.of_nat i)) [b]) in
  wf f' /\ contents f' = contents f /\ writer_inv f' (WCopy src n (S i)).
Proof.
  intros Hf (Hn & Hsrc & Hi & Hr) Hb f'. pose proof (lookup_lt_Some _ _ _ Hb) as Hlt.
  pose proof (zlen_data_pos f Hf). pose proof (unused_bytes f n Hf Hn). pose proof (count_range f).
  assert (slot f n (fin f) (Z.of_nat i) = (start f + Z.of_nat (used f + i)) mod zlen (data f)) as Es.
  { rewrite slot_eq by (done || lia). rewrite write_position, Zplus_mod_idemp_l by done.
    f_equal. lia. }
  assert (0 <= slot f n (fin f) (Z.of_nat i) < zlen (data f)) as Hs
    by (rewrite Es; apply Z.mod_pos_bound; lia).
  assert (zlen (data f') = zlen (data f)) as Hd by (apply zlen_memcpy_at; cbn [length]; lia).
  assert (ring (data f') (start f) (used f + S i) = contents f ++ take (S i) src) as Hr'.
  { subst f'. cbn [data set_data]. rewrite <- store_ring_one, Es by done.
    replace (used f + S i)%nat with (used f + i + length [b])%nat by (cbn; lia).
    rewrite ring_store_app by (cbn [length]; lia). rewrite Hr, <- app_assoc.
    by rewrite (take_S_r _ _ b). }
  assert (contents f' = contents f) as Hc
    by (apply (ring_prefix _ _ _ _ _ _ Hr'), length_contents).
  split_and!; [|done|].
  - destruct Hf as [W1 W2 W3 W4 W5 W6 W7]. constructor; try done. by rewrite Hd.
  - split_and!; [apply Hn..|done|lia|]. by rewrite Hc.
Qed.

(** Publishing does not move what the reader holds; consuming does not move what
    the writer has stored. *)
Lemma w_publish_inv f src n r :
  wf f -> writer_inv f (WCopy src n (length src)) -> reader_inv f r ->
  let f' := set_in f (u32 (fin f + n)) in
  wf f' /\ contents f' = contents f ++ src /\ reader_inv f' r.
Proof.
  intros Hf (Hn & Hsrc & _ & Hr) Hrd f'. rewrite firstn_all in Hr.
  destruct (push_spec f src n (data f) Hf Hn Hsrc eq_refl Hr) as [Hf' Hc].
  assert (count f' = count f + n) as Hcnt by exact (count_push f n Hf Hn).
  split_and!; [exact Hf'|exact Hc|]. destruct r as [|m acc]; [done|].
  destruct Hrd as (Hm & Hl & Ha). split_and!; [lia|rewrite Hcnt; lia|done|].
  change (contents f') with (contents (set_in (set_data f (data f)) (u32 (fin f + n)))).
  rewrite Hc, take_app_le; [done|]. pose proof (used_eq f Hf). pose proof (wf_esize f Hf).
  rewrite length_contents. nia.
Qed.

Lemma r_finish_inv f n w :
  wf f -> 0 <= n <= count f -> writer_inv f w -> writer_inv (set_out f (u32 (fout f + n))) w.
Proof.
  intros Hf Hn Hw. destruct w as [|src m i]; [done|]. destruct Hw as (Hm & Hsrc & Hi & Hr).
  destruct (pop_spec f n Hf Hn) as [_ Hc].
  split_and!; try done; try apply Hm.
  - change (m <= mask f + 1 - u32 (fin f - u32 (fout f + n))). rewrite count_pop by done. lia.
  - rewrite Hc. change (data (set_out f (u32 (fout f + n)))) with (data f).
    rewrite pop_ring by done. rewrite Hr, drop_app_le; [done|].
    pose proof (used_eq f Hf). pose proof (wf_esize f Hf). rewrite length_contents. nia.
Qed.

(** The reader reads the contents in order. *)
Lemma r_byte_inv f n acc :
  wf f -> reader_inv f (RCopy n acc) -> zlen acc < n * esize f ->
  reader_inv f (RCopy n (acc ++ [znth (data f) (slot f n (fout f) (zlen acc))])).
Proof.
  intros Hf (Hn & Hl & Ha) Hlt. pose proof (wf_count f Hf). pose proof (used_eq f Hf).
  pose proof (wf_esize f Hf).
  split_and!; [lia|lia|rewrite length_app; cbn; lia|].
  rewrite length_app, Nat.add_1_r. rewrite slot_eq by (done || lia).
  assert (zlen acc < Z.of_nat (used f)) by nia.
  rewrite (take_S_r _ _ (znth (contents f) (zlen acc))).
  - rewrite <- Ha. do 2 f_equal. unfold contents. rewrite znth_ring by (fold (used f); lia). done.
  - unfold znth. rewrite Nat2Z.id. destruct (lookup_lt_is_Some_2 (contents f) (length acc)) as [x Hx].
    { rewrite length_contents. lia. }
    by rewrite Hx.
Qed.

Lemma step_inv s s' : inv s -> step s s' -> inv s'.
Proof.
  intros [Hf Hb Hw Hr] Hs. destruct Hs; cbn [fifo writer reader written received] in *.
  - constructor; try done. cbn. pose proof (wf_esize f Hf). pose proof (wf_count f Hf).
    pose proof (count_range f). rewrite unused_count in H0 by done.
    assert (0 <= n <= mask f + 1 - count f) by (subst n; destr_if; lia).
    split_and!; [lia..|rewrite length_take; nia|lia|]. by rewrite take_0, Nat.add_0_r, app_nil_r.
  - destruct (w_byte_inv f src n i b Hf Hw H) as (? & Hc & ?). constructor; cbn; try done.
    + by rewrite Hc.
    + destruct r; [done|]. unfold reader_inv in *. by rewrite Hc.
  - destruct (w_publish_inv f src n r Hf Hw Hr) as (? & Hc & ?). constructor; cbn; try done.
    rewrite Hc, Hb. by rewrite app_assoc.
  - constructor; try done. cbn. pose proof (count_range f). change (u32 (fin f - fout f)) with (count f) in H0.
    pose proof (wf_esize f Hf). split_and!; [subst n; destr_if; lia..|cbn; subst n; destr_if; nia|done].
  - constructor; try done. by apply r_byte_inv.
  - destruct Hr as (Hn & _ & Ha). destruct (pop_spec f n Hf Hn) as [? Hc]. constructor; cbn; try done.
    + rewrite Hc, Hb, Ha, <- app_assoc. replace (length acc) with (Z.to_nat (n * esize f)) by lia.
      by rewrite take_drop.
    + by apply r_finish_inv.
Qed.

(** C9. One writer and one reader need no lock: however the byte stores of a running
    [__kfifo_in], the byte loads of a running [__kfifo_out] and their index
    updates interleave, the fifo stays well formed, the bytes received so far
    followed by the contents are the bytes written, and what a running reader has
    copied is the next bytes of the stream. *)
Theorem kfifo_lock_free f s :
  wf f -> rtc step (init f) s ->
  wf (fifo s) /\ written s = received s ++ contents (fifo s) /\
  match reader s with RCopy _ acc => (received s ++ acc) `prefix_of` written s | RIdle => True end.
Proof.
  intros Hf Hs. assert (inv s) as [W B _ R].
  { assert (inv (init f)) as Hi by by constructor.
    clear Hf. induction Hs as [|x y z Hxy _ IH]; [done|]. apply IH. by apply (step_inv x). }
  split_and!; [done|done|]. destruct (reader s) as [|n acc]; [done|]. destruct R as (_ & _ & ->).
  exists (drop (length acc) (contents (fifo s))). by rewrite B, <- app_assoc, take_drop.
Qed.

Lemma store_ring_snoc d off src b :
  0 <= off < zlen d -> zlen src + 1 <= zlen d ->
  store_ring d off (src ++ [b]) = memcpy_at (store_ring d off src) ((off + zlen src) mod zlen d) [b].
Proof.
  intros Ho Hs. assert (0 <= (off + zlen src) mod zlen d < zlen d) by (apply Z.mod_pos_bound; lia).
  assert (zlen (store_ring d off src) = zlen d) by (apply zlen_store_ring; lia).
  assert (zlen (store_ring d off (src ++ [b])) = zlen d)
    by (apply zlen_store_ring; rewrite ?length_app; cbn [length]; lia).
  apply list_eq_znth; [apply Nat2Z.inj; rewrite zlen_memcpy_at by (cbn [length]; lia); lia|]. intros j Hj.
  set (i := (j - off) mod zlen d). assert (0 <= i < zlen d) by (apply Z.mod_pos_bound; lia).
  assert (j = (off + i) mod zlen d) as Ej.
  { subst i. rewrite Zplus_mod_idemp_r. replace (off + (j - off)) with j by lia. rewrite Z.mod_small; lia. }
  clearbody i. subst j.
  rewrite znth_memcpy_at by (cbn [length]; lia).
  rewrite !znth_store_ring by (rewrite ?length_app; cbn [length]; lia).
  rewrite length_app. cbn [length].
  destruct (decide (i = zlen src)) as [->|].
  - rewrite Z.leb_refl, Z.sub_diag. rewrite (proj2 (Z.ltb_lt _ _)) by lia.
    rewrite (proj2 (Z.ltb_lt (_ mod _) _)) by lia. cbn [andb]. rewrite znth_app_r by lia. by rewrite Z.sub_diag.
  - replace (andb _ _) with false.
    + destruct (Z.ltb_spec i (zlen src)), (Z.ltb_spec i (Z.of_nat (length src + 1))); try lia.
      by rewrite znth_app_l by lia.
    + symmetry. apply andb_false_iff. destruct (decide ((off + i) mod zlen d = (off + zlen src) mod zlen d)) as [E|];
        [|rewrite Z.leb_gt, Z.ltb_ge; lia].
      exfalso. assert ((off + i - off) mod zlen d = (off + zlen src - off) mod zlen d) as E2
        by (rewrite <- Zminus_mod_idemp_l, E, Zminus_mod_idemp_l; done).
      rewrite !Z.add_simpl_l, !Z.mod_small in E2; lia.
Qed.

Lemma w_bytes_run f r w rd src n i :
  wf f -> 0 <= n <= mask f + 1 -> zlen src = n * esize f -> (i <= length src)%nat ->
  let d k := store_ring (data f) (fin f mod (mask f + 1) * esize f) (take k src) in
  rtc step (mk_system f (WCopy src n 0) r w rd) (mk_system (set_data f (d i)) (WCopy src n i) r w rd).
Proof.
  intros Hf Hn Hsrc. pose proof (start_range f (fin f) Hf) as Hst. pose proof (zlen_data_pos f Hf).
  pose proof (wf_data f Hf). pose proof (wf_esize f Hf).
  assert (zlen src <= zlen (data f)) by nia.
  induction i as [|i IH]; intros Hi d.
  - replace (set_data f (d O)) with f; [done|]. subst d. cbn beta. rewrite take_0. unfold store_ring.
    rewrite take_nil, drop_nil, !memcpy_at_nil. by destruct f.
  - eapply rtc_r; [apply IH; lia|]. destruct (lookup_lt_is_Some_2 src i ltac:(lia)) as [b Hb].
    replace (set_data f (d (S i))) with
      (set_data (set_data f (d i)) (memcpy_at (d i) (slot (set_data f (d i)) n (fin f) (Z.of_nat i)) [b]));
      [exact (w_byte (set_data f (d i)) r w rd src n i b Hb)|].
    change (slot (set_data f (d i)) n (fin f) (Z.of_nat i)) with (slot f n (fin f) (Z.of_nat i)).
    rewrite slot_eq by (done || lia). unfold set_data. cbn. f_equal. subst d. cbn beta.
    rewrite (take_S_r _ _ b) by done. rewrite store_ring_snoc by (rewrite ?length_take; lia).
    rewrite length_take. do 2 f_equal. lia.
Qed.

(** The interleaved model is the code: run without interruption, the steps of a
    put end in the state that [__kfifo_in] returns. *)
Theorem kfifo_in_steps f buf len r w rd :
  wf f -> 0 <= len < 2 ^ 32 -> len * esize f <= zlen buf ->
  let '(n, f') := __kfifo_in f buf len in
  rtc step (mk_system f WIdle r w rd)
           (mk_system f' WIdle r (w ++ take (Z.to_nat (n * esize f)) buf) rd).
Proof.
  intros Hf Hlen Hbuf. pose proof (wf_count f Hf). pose proof (wf_esize f Hf). pose proof (count_range f).
  unfold __kfifo_in. set (n := if kfifo_unused f <? len then kfifo_unused f else len).
  assert (0 <= n <= mask f + 1 /\ n <= len) as Hn
    by (subst n; rewrite unused_count by done; destr_if; lia).
  assert (n * esize f <= zlen buf) by nia.
  eapply rtc_l; [by apply (w_start f r w rd buf len n)|].
  rewrite copy_in_eq by (done || lia). set (src := take (Z.to_nat (n * esize f)) buf).
  assert (zlen src = n * esize f) by (subst src; rewrite length_take; nia).
  pose proof (w_bytes_run f r w rd src n (length src)) as Hrun. cbn beta zeta in Hrun.
  rewrite firstn_all in Hrun. eapply rtc_r; [apply Hrun; done || lia|].
  exact (w_publish (set_data f _) r w rd src n).
Qed.

Definition spsc_demo : kfifo :=
  {| fin := 0; fout := 2 ^ 32 - 1; mask := 3; esize := 1; data := [1; 2; 3; 4] |}.

Lemma spsc_demo_wf : wf spsc_demo.
Proof. constructor; cbn; try lia; [exists 2; lia|vm_compute; congruence]. Qed.

Lemma kfifo_lock_free_witness :
  let s := mk_system (set_data spsc_demo [9; 2; 3; 4]) (WCopy [9; 8] 2 1) (RCopy 1 [4]) [4] [] in
  wf (fifo s) /\ written s = received s ++ contents (fifo s) /\
  match reader s with RCopy _ acc => (received s ++ acc) `prefix_of` written s | RIdle => True end.
Proof.
  intros s. apply (kfifo_lock_free spsc_demo s spsc_demo_wf). unfold init.
  eapply rtc_l; [apply (w_start _ _ _ _ [9; 8] 2 2); [lia|by vm_compute|by vm_compute]|].
  eapply rtc_l; [apply (r_start _ _ _ _ 7 1); [lia|by vm_compute]|].
  eapply rtc_l; [by apply (w_byte _ _ _ _ [9; 8] 2 0 9)|].
  eapply rtc_l; [by apply r_byte|]. apply rtc_refl.
Defined.

Lemma kfifo_in_steps_witness :
  let '(n, f') := __kfifo_in spsc_demo [5; 6; 7; 8] 4 in
  n = 3 /\ rtc step (mk_system spsc_demo WIdle RIdle [] [])
                   (mk_system f' WIdle RIdle ([] ++ take (Z.to_nat (n * 1)) [5; 6; 7; 8]) []).
Proof.
  split; [by vm_compute|].
  apply (kfifo_in_steps spsc_demo [5; 6; 7; 8] 4 RIdle [] [] spsc_demo_wf); cbn; lia.
Defined.

End Spsc.

(** ** Records *)

(** The length field of a record: one byte or two, low byte first. *)
Definition rec_header (recsize n : Z) : list Z :=
  if recsize =? 1 then [u8 n] else [u8 n; u8 (n .>> 8)].

Definition rec_encode (recsize : Z) (r : list Z) : list Z := rec_header recsize (zlen r) ++ r.

(** The byte stream of a queue of records. *)
Definition rec_flat (recsize : Z) (q : list (list Z)) : list Z := concat (rec_encode recsize <$> q).

(** The element size is a byte, the length field one or two, and the lengths fit it. *)
Definition rec_fits (recsize : Z) (r : list Z) : Prop := zlen r < 2 ^ (8 * recsize).

Section records.
Context `{LongWidth} (recsize : Z).
Hypothesis recsize_ok : recsize = 1 \/ recsize = 2.

Lemma zlen_rec_header n : zlen (rec_header recsize n) = recsize.
Proof. unfold rec_header. destruct recsize_ok as [-> | ->]; done. Qed.

(** Storing [src] at [in + k] extends the [k] bytes stored behind the contents. *)
Lemma append_at f d k xs src :
  wf f -> esize f = 1 -> zlen d = zlen (data f) -> 0 <= k -> zlen xs = k ->
  ring d (start f) (used f + length xs) = contents f ++ xs ->
  count f + k + zlen src <= mask f + 1 ->
  let d' := store_ring d (u32 (fin f + k) mod (mask f + 1)) src in
  zlen d' = zlen (data f) /\
  ring d' (start f) (used f + length (xs ++ src)) = contents f ++ (xs ++ src).
Proof.
  intros Hf He Hd Hk Hxs Hr Hfit. pose proof (zlen_data_pos f Hf). pose proof (wf_data f Hf) as Hw.
  pose proof (used_eq f Hf) as Hu. rewrite He in Hw, Hu. pose proof (count_range f).
  destruct (wf_size f Hf) as (Hs & _ & _ & Hmod).
  assert (u32 (fin f + k) mod (mask f + 1) = (start f + Z.of_nat (used f + length xs)) mod zlen d) as ->.
  { rewrite Hmod, Hd. pose proof (write_position f Hf) as Hp. rewrite He, Z.mul_1_r in Hp.
    rewrite <- Zplus_mod_idemp_l, Hp, Hw. rewrite Z.mul_1_r, Zplus_mod_idemp_l. f_equal. lia. }
  cbn zeta. split.
  - rewrite zlen_store_ring; [done|apply Z.mod_pos_bound; lia|lia].
  - rewrite length_app, Nat.add_assoc, ring_store_app by lia. by rewrite Hr, app_assoc.
Qed.

Lemma poke_at f d i v :
  wf f -> esize f = 1 -> zlen d = zlen (data f) ->
  __KFIFO_POKE d i (mask f) v = store_ring d (u32 i mod (mask f + 1)) [u8 v].
Proof.
  intros Hf He Hd. destruct (wf_size f Hf) as (Hs & _ & Hand & _). pose proof (wf_data f Hf) as Hw.
  unfold __KFIFO_POKE. rewrite Hand, Spsc.store_ring_one; [done|].
  rewrite Hd, Hw, He, Z.mul_1_r. apply Z.mod_pos_bound. lia.
Qed.

(** Storing the length field. *)
Lemma poke_n_spec f n :
  wf f -> esize f = 1 -> count f + recsize <= mask f + 1 ->
  exists d, __kfifo_poke_n f n recsize = set_data f d /\ zlen d = zlen (data f) /\
    ring d (start f) (used f + length (rec_header recsize n)) = contents f ++ rec_header recsize n.
Proof.
  intros Hf He Hc. unfold __kfifo_poke_n, rec_header. eexists. split; [done|].
  assert (ring (data f) (start f) (used f + length ([] : list Z)) = contents f ++ []) as H0
    by (rewrite Nat.add_0_r, app_nil_r; done).
  destruct (append_at f (data f) 0 [] [u8 n] Hf He eq_refl ltac:(lia) eq_refl H0) as [Hd1 Hr1];
    [cbn [length]; lia|].
  rewrite !(poke_at f (data f)) by done. rewrite Z.add_0_r in Hd1, Hr1.
  destruct recsize_ok as [-> | ->]; cbn [Z.eqb Pos.eqb]; [done|].
  change (1 <? 2) with true. cbn iota. rewrite poke_at by done.
  apply (append_at f _ 1 [u8 n]); try done; cbn [length]; lia.
Qed.

Lemma in_r_spec f buf len :
  wf f -> esize f = 1 -> 0 <= len < 2 ^ (8 * recsize) -> len <= zlen buf ->
  let '(r, f') := __kfifo_in_r f buf len recsize in
  wf f' /\ mask f' = mask f /\ esize f' = 1 /\
  if mask f + 1 - count f <? len + recsize then r = 0 /\ f' = f
  else r = len /\ contents f' = contents f ++ rec_encode recsize (take (Z.to_nat len) buf).
Proof.
  intros Hf He Hlen Hbuf.
  assert (2 ^ (8 * recsize) <= 2 ^ 16) by (destruct recsize_ok as [-> | ->]; vm_compute; congruence).
  unfold __kfifo_in_r. rewrite unused_count by done.
  assert (ulong (len + recsize) = len + recsize) as ->.
  { apply uwrap_small. destruct bits_per_long_ok as [-> | ->]; destruct recsize_ok as [-> | ->]; lia. }
  destr_if; [done|]. assert (0 <= recsize <= 2) by lia. pose proof (count_range f).
  destruct (poke_n_spec f len Hf He ltac:(lia)) as (d & -> & Hd & Hr).
  assert (wf (set_data f d)) as Hf1.
  { destruct Hf as [W1 W2 W3 W4 W5 W6 W7]. constructor; try done. cbn. by rewrite Hd. }
  rewrite copy_in_eq by (done || cbn; rewrite ?He; lia). cbn [fin mask esize data set_data].
  rewrite He, !Z.mul_1_r. set (src := take (Z.to_nat len) buf).
  assert (zlen src = len) as Hsrc by (subst src; rewrite length_take; lia).
  pose proof (zlen_rec_header len) as Hh.
  destruct (append_at f d recsize (rec_header recsize len) src Hf He Hd ltac:(lia) Hh Hr ltac:(lia)) as [Hd2 Hr2].
  destruct (push_spec f (rec_header recsize len ++ src) (len + recsize) _ Hf ltac:(lia)
    ltac:(rewrite length_app, He; lia) Hd2 Hr2) as [Hf2 Hc2].
  split_and!; [exact Hf2|done|done|done|]. unfold rec_encode. rewrite Hsrc. exact Hc2.
Qed.

Lemma peek_at f i :
  wf f -> esize f = 1 -> 0 <= i < count f ->
  __KFIFO_PEEK (data f) (fout f + i) (mask f) = znth (contents f) i.
Proof.
  intros Hf He Hi. destruct (wf_size f Hf) as (Hs & _ & Hand & Hmod).
  unfold __KFIFO_PEEK, contents. rewrite Hand, Hmod, znth_ring by (rewrite He; lia).
  rewrite wf_data, He, !Z.mul_1_r by done. by rewrite Zplus_mod_idemp_l.
Qed.

Lemma zlen_contents f : wf f -> esize f = 1 -> zlen (contents f) = count f.
Proof. intros Hf He. rewrite Spsc.length_contents, used_eq, He by done. lia. Qed.

(** The length field is read back. *)
Lemma peek_n_spec f n rest :
  wf f -> esize f = 1 -> 0 <= n < 2 ^ (8 * recsize) ->
  contents f = rec_header recsize n ++ rest -> __kfifo_peek_n f recsize = n.
Proof.
  intros Hf He Hn Hc. pose proof (zlen_contents f Hf He) as Hl. rewrite Hc, length_app in Hl.
  pose proof (zlen_rec_header n). unfold __kfifo_peek_n.
  assert (__KFIFO_PEEK (data f) (fout f) (mask f) = znth (contents f) 0) as ->
    by (rewrite <- peek_at by (done || lia); by rewrite Z.add_0_r).
  rewrite Hc. unfold rec_header in *. destruct recsize_ok as [-> | ->]; cbn [Z.eqb Pos.eqb] in *.
  - change (u8 n = n). apply uwrap_small. lia.
  - change (negb (2 - 1 =? 0)) with true. cbn iota. rewrite peek_at, Hc by (done || lia).
    change (znth ([u8 n; u8 (n .>> 8)] ++ rest) 0) with (u8 n).
    change (znth ([u8 n; u8 (n .>> 8)] ++ rest) 1) with (u8 (n .>> 8)).
    rewrite lor_shiftl_add by (lia || apply u8_range). rewrite Z.shiftr_div_pow2 by lia.
    unfold u8, uwrap. rewrite (Z.mod_small (n / _)) by (split; [apply Z.div_pos|apply Z.div_lt_upper_bound]; lia).
    change (2 ^ 8) with 256. pose proof (Z.div_mod n 256). lia.
Qed.

Lemma copy_out_at f k n :
  wf f -> 0 <= k -> 0 <= n -> k + n <= count f ->
  kfifo_copy_out f n (u32 (fout f + k)) =
    take (Z.to_nat (n * esize f)) (drop (Z.to_nat (k * esize f)) (contents f)).
Proof.
  intros Hf Hk Hn Hkn. destruct (pop_spec f k Hf ltac:(lia)) as [Hf' Hc]. rewrite <- Hc.
  apply (peek_spec (set_out f (u32 (fout f + k))) n Hf').
  change (0 <= n <= u32 (fin f - u32 (fout f + k))). rewrite count_pop by (done || lia). lia.
Qed.

Lemma out_r_spec f len r rest :
  wf f -> esize f = 1 -> rec_fits recsize r -> contents f = rec_encode recsize r ++ rest ->
  0 <= len < 2 ^ 32 ->
  let n := Z.min len (zlen r) in
  let '(k, buf, f') := __kfifo_out_r f len recsize in
  k = n /\ buf = take (Z.to_nat n) r /\ contents f' = rest /\
  wf f' /\ mask f' = mask f /\ esize f' = 1.
Proof.
  intros Hf He Hr Hc Hlen n. pose proof (zlen_contents f Hf He) as Hl.
  pose proof (zlen_rec_header (zlen r)) as Hh. unfold rec_encode in Hc. rewrite <- app_assoc in Hc.
  rewrite Hc, !length_app in Hl. unfold __kfifo_out_r, kfifo_out_copy_r.
  destruct (Z.eqb_spec (fin f) (fout f)) as [E|_].
  { unfold count in Hl. rewrite E, Z.sub_diag in Hl. change (u32 0) with 0 in Hl. lia. }
  rewrite (peek_n_spec f (zlen r) (r ++ rest)) by (done || unfold rec_fits in Hr; lia).
  replace (if _ <? len then _ else len) with n by (subst n; destr_if; lia).
  destruct (pop_spec f (zlen r + recsize) Hf ltac:(lia)) as [? Hc'].
  rewrite copy_out_at by (done || lia). rewrite Hc', Hc, He, !Z.mul_1_r.
  rewrite drop_app_length' by lia. rewrite take_app_le by lia.
  split_and!; try done. rewrite app_assoc, drop_app_length'; [done|]. rewrite length_app. lia.
Qed.

End records.

(** A queue of records; a full queue refuses a record, a short read loses its rest. *)
Definition serve_records (cap recsize : Z) (q : list (list Z)) (r : request) :
  answer * list (list Z) :=
  match r with
  | Put buf len =>
      if cap - zlen (rec_flat recsize q) <? len + recsize then ((0, []), q)
      else ((len, []), q ++ [take (Z.to_nat len) buf])
  | Take len =>
      match q with
      | [] => ((0, []), [])
      | x :: q => let n := Z.min len (zlen x) in ((n, take (Z.to_nat n) x), q)
      end
  | Peek len =>
      match q with
      | [] => ((0, []), [])
      | x :: q => let n := Z.min len (zlen x) in ((n, take (Z.to_nat n) x), x :: q)
      end
  end.

Definition serve_r `{LongWidth} (recsize : Z) (f : kfifo) (r : request) : answer * kfifo :=
  match r with
  | Put buf len => let '(n, f) := __kfifo_in_r f buf len recsize in ((n, []), f)
  | Take len => let '(n, buf, f) := __kfifo_out_r f len recsize in ((n, buf), f)
  | Peek len => (__kfifo_out_peek_r f len recsize, f)
  end.

(** What the caller keeps to: the length fits the length field and the buffer. *)
Definition rec_request_ok (recsize : Z) (r : request) : Prop :=
  match r with
  | Put buf len => 0 <= len < 2 ^ (8 * recsize) /\ len <= zlen buf
  | Take len | Peek len => 0 <= len < 2 ^ 32
  end.

Section record_queue.
Context `{LongWidth} (recsize : Z).
Hypothesis recsize_ok : recsize = 1 \/ recsize = 2.

Record represents (f : kfifo) (q : list (list Z)) : Prop := {
  rep_wf : wf f;
  rep_esize : esize f = 1;
  rep_bytes : contents f = rec_flat recsize q;
  rep_fits : Forall (rec_fits recsize) q
}.

Lemma out_empty f : wf f -> esize f = 1 -> contents f = [] -> fin f = fout f.
Proof.
  intros Hf He Hc. pose proof (zlen_contents f Hf He) as Hl. rewrite Hc in Hl.
  rewrite <- (out_plus_count f Hf), <- Hl. rewrite Z.add_0_r. apply u32_small, wf_out, Hf.
Qed.

Lemma serve_r_refines f q r :
  represents f q -> rec_request_ok recsize r ->
  let '(a, f') := serve_r recsize f r in
  let '(b, q') := serve_records (mask f + 1) recsize q r in
  a = b /\ represents f' q' /\ mask f' = mask f.
Proof.
  intros [Hf He Hc Hq] Hr. destruct r as [buf len|len|len]; cbn [serve_r serve_records rec_request_ok] in *.
  - pose proof (in_r_spec recsize recsize_ok f buf len Hf He (proj1 Hr) (proj2 Hr)) as Hin.
    rewrite <- Hc, zlen_contents by done. destruct (__kfifo_in_r f buf len recsize) as [n f'].
    destruct Hin as (? & ? & ? & Hin). destruct (_ <? _); destruct Hin as [-> Hin].
    + subst f'. split_and!; done.
    + split_and!; try done. constructor; try done.
      * unfold rec_flat in *. rewrite Hin, Hc, fmap_app, concat_app. cbn. by rewrite app_nil_r.
      * apply Forall_app_2; [done|]. constructor; [|constructor]. unfold rec_fits. rewrite length_take. lia.
  - destruct q as [|x q].
    { unfold __kfifo_out_r. rewrite (out_empty f Hf He Hc), Z.eqb_refl. split_and!; done. }
    inversion Hq as [|? ? Hx Hq']; subst.
    pose proof (out_r_spec recsize recsize_ok f len x (rec_flat recsize q) Hf He Hx Hc Hr) as Hout.
    cbn zeta in Hout. destruct (__kfifo_out_r f len recsize) as [[n b] f'].
    destruct Hout as (-> & -> & ? & ? & ? & ?). split_and!; done.
  - destruct q as [|x q].
    { unfold __kfifo_out_peek_r. rewrite (out_empty f Hf He Hc), Z.eqb_refl. split_and!; done. }
    inversion Hq as [|? ? Hx Hq']; subst.
    pose proof (out_r_spec recsize recsize_ok f len x (rec_flat recsize q) Hf He Hx Hc Hr) as Hout.
    cbn zeta in Hout. unfold __kfifo_out_peek_r, __kfifo_out_r in *.
    destruct (fin f =? fout f); [|destruct (kfifo_out_copy_r f len recsize) as [[n b] m]];
      destruct Hout as (<- & <- & _); split_and!; done.
Qed.

(** C30. With a length field of one or two bytes a kfifo is a queue of records: any
    sequence of record puts, reads and peeks gives the answers of the abstract
    queue, which keeps the record boundaries, refuses a record that does not fit
    and drops the unread rest of a record.  The records put are shorter than 2^8 or
    2^16 bytes, so that the length field holds their length, and not longer than the
    caller's buffer: [__kfifo_in_r] checks neither, [__kfifo_max_r] tells the caller. *)
Theorem kfifo_records_refine_queue f q rs :
  represents f q -> Forall (rec_request_ok recsize) rs ->
  let '(answers, f') := serve_all (serve_r recsize) f rs in
  let '(answers', q') := serve_all (serve_records (mask f + 1) recsize) q rs in
  answers = answers' /\ represents f' q'.
Proof.
  intros Hf Hrs. revert f q Hf. induction Hrs as [|r rs Hr _ IH]; intros f q Hf; [done|].
  cbn [serve_all]. pose proof (serve_r_refines f q r Hf Hr) as Hs.
  destruct (serve_r recsize f r) as [a f1], (serve_records (mask f + 1) recsize q r) as [b q1].
  destruct Hs as (-> & Hf1 & <-). specialize (IH f1 q1 Hf1).
  destruct (serve_all (serve_r recsize) f1 rs) as [as1 f2], (serve_all _ q1 rs) as [bs q2].
  by destruct IH as [-> ?].
Qed.

End record_queue.

Lemma kfifo_records_refine_queue_witness :
  let f := {| fin := 2 ^ 32 - 2; fout := 2 ^ 32 - 2; mask := 7; esize := 1; data := replicate 8 0 |} in
  let rs := [Put [1; 2; 3] 3; Put [4; 5] 2; Take 2; Take 8] in
  (serve_all (serve_r (H := long32) 2) f rs).1 = [(3, []); (0, []); (2, [1; 2]); (0, [])] /\
  (let '(answers, f') := serve_all (serve_r (H := long32) 2) f rs in
   let '(answers', q') := serve_all (serve_records (mask f + 1) 2) [] rs in
   answers = answers' /\ represents 2 f' q').
Proof.
  intros f rs. split; [by vm_compute|].
  apply (kfifo_records_refine_queue (H := long32) 2 (or_intror eq_refl) f [] rs).
  - constructor; try done. constructor; cbn; try lia; [exists 3; lia|vm_compute; congruence].
  - repeat constructor; cbn; lia.
Defined.

(** ** Copies from user space and allocation *)

Section user_copies.
Context `{LongWidth}.

(** Elements of [e] bytes cut by a fault after [g] of [n * e] bytes: those not copied. *)
Lemma faulted_elements n e g : 1 <= e -> 0 <= g -> (n * e - g + e - 1) / e = n - g / e.
Proof.
  intros He Hg. symmetry. pose proof (Z.div_mod g e ltac:(lia)).
  pose proof (Z.mod_pos_bound g e ltac:(lia)).
  apply (Z.div_unique _ _ _ (e - 1 - g mod e)); nia.
Qed.

Lemma copy_from_user_eq user n : 0 <= n ->
  let '(ret, bytes) := copy_from_user user n in
  ret = n - Z.min n (zlen user) /\ zlen bytes = n /\
  take (Z.to_nat (Z.min n (zlen user))) bytes = take (Z.to_nat n) user.
Proof.
  intros Hn. unfold copy_from_user. split_and!.
  - rewrite length_take. lia.
  - rewrite length_app, length_replicate, length_take. lia.
  - apply take_app_length'. rewrite length_take. lia.
Qed.

Lemma take_le_eq (a b : nat) (xs ys : list Z) : (a <= b)%nat -> take b xs = take b ys -> take a xs = take a ys.
Proof. intros Hab E. rewrite <- (Nat.min_l a b), <- !take_take by lia. by rewrite E. Qed.

Lemma take_app_eq (l j : nat) (xs ys zs : list Z) :
  (l <= length xs)%nat -> take l zs = take l xs -> length zs = l -> take j ys = take j (drop l xs) ->
  take (l + j) (zs ++ ys) = take (l + j) xs.
Proof.
  intros Hl Hz Hzl Hy.
  assert (take (l + j) xs = take l xs ++ take j (drop l xs)) as ->.
  { rewrite take_drop_commute. rewrite <- (take_drop l (take (l + j) xs)) at 1. rewrite take_take. f_equal. f_equal. lia. }
  assert (take l zs = zs) as E by (apply firstn_all2; lia). rewrite <- Hz, E, <- Hy.
  rewrite <- Hzl. apply take_app_add.
Qed.

Lemma take_clip (a b : nat) (xs : list Z) : (a = b `min` length xs)%nat -> take b xs = take a xs.
Proof.
  intros ->. destruct (Nat.min_spec b (length xs)) as [[_ ->]|[? ->]]; [done|].
  by rewrite firstn_all, firstn_all2 by lia.
Qed.

Lemma store_ring_two d off xs ys :
  zlen xs = Z.min (zlen xs + zlen ys) (zlen d - off) ->
  memcpy_at (memcpy_at d off xs) 0 ys = store_ring d off (xs ++ ys).
Proof.
  intros Hx. unfold store_ring. rewrite length_app, Nat2Z.inj_add, <- Hx, Nat2Z.id.
  by rewrite take_app_length, drop_app_length.
Qed.

(** The bytes that reach the fifo: what could be read, then padding. *)
Lemma copy_from_user_spec f from n off :
  wf f -> (mask f + 2) * esize f <= 2 ^ 32 -> 0 <= n <= mask f + 1 ->
  let k := Z.min n (zlen from / esize f) in
  exists xs, zlen xs <= n * esize f /\ k * esize f <= zlen xs /\
    take (Z.to_nat (k * esize f)) xs = take (Z.to_nat (k * esize f)) from /\
    kfifo_copy_from_user f from n off =
      (n - k, u32 (n * esize f - (n - k)),
       set_data f (store_ring (data f) (off mod (mask f + 1) * esize f) xs)).
Proof.
  intros Hf Hbig Hn k. pose proof (wf_esize f Hf) as He. pose proof (zlen_data_pos f Hf).
  pose proof (start_range f off Hf). pose proof (wf_data f Hf) as Hd.
  unfold kfifo_copy_from_user. rewrite scale_eq by done.
  set (o := off mod (mask f + 1) * esize f) in *. set (m := n * esize f).
  assert (0 <= m <= zlen (data f)) as Hm by (subst m; nia).
  assert (m + esize f <= 2 ^ 32) as Hme by (subst m; nia).
  rewrite (u32_small (_ - o)) by lia. set (l := Z.min m (zlen (data f) - o)).
  rewrite (u32_small (m - l)) by lia.
  pose proof (Z.div_mod (zlen from) (esize f) ltac:(lia)) as Hdm.
  pose proof (Z.mod_pos_bound (zlen from) (esize f) ltac:(lia)) as Hmb.
  assert (k * esize f <= zlen from /\ k * esize f <= m) as Hk by (subst k m; nia).
  assert (m <= zlen from -> k = n) as Hfull by (intros; subst k m; nia).
  assert (zlen from < m -> k = zlen from / esize f) as Hpart by (intros; subst k m; nia).
  assert (0 <= k) by (subst k; pose proof (Z.div_pos (zlen from) (esize f)); lia).
  pose proof (copy_from_user_eq from l ltac:(lia)) as C1.
  destruct (copy_from_user from l) as [ret1 b1]. destruct C1 as (-> & Hb1 & Ht1).
  destruct (Z.eqb_spec (l - Z.min l (zlen from)) 0) as [E1|E1]; cbn [negb].
  - pose proof (copy_from_user_eq (drop (Z.to_nat l) from) (m - l) ltac:(lia)) as C2.
    destruct (copy_from_user _ (m - l)) as [ret2 b2]. rewrite length_drop in C2.
    destruct C2 as (-> & Hb2 & Ht2). exists (b1 ++ b2). rewrite length_app.
    rewrite (Z.min_l l) in Ht1 by lia. replace (Z.of_nat (length from - Z.to_nat l)) with (zlen from - l) in * by lia.
    split_and!; [lia|lia| |].
    + apply (take_le_eq _ (Z.to_nat l + Z.to_nat (Z.min (m - l) (zlen from - l)))); [lia|].
      apply take_app_eq; [lia|done|lia|]. rewrite Ht2. apply (take_clip _ _ (drop _ from)). rewrite length_drop. lia.
    + rewrite <- (store_ring_two _ _ b1 b2) by lia. destruct (Z.eqb_spec (m - l - Z.min (m - l) (zlen from - l)) 0); cbn [negb].
      * rewrite Hfull by lia. do 2 f_equal; [|f_equal]; lia.
      * rewrite !ulong_small by (rewrite ?ulong_small; lia). rewrite Hpart by lia.
        replace (_ - 1) with (n * esize f - zlen from + esize f - 1) by lia.
        by rewrite faulted_elements by lia.
  - exists b1. split_and!; [lia|lia| |].
    + apply (take_le_eq _ (Z.to_nat (Z.min l (zlen from)))); [lia|]. rewrite Ht1.
      apply take_clip. lia.
    + pose proof (store_ring_two (data f) o b1 [] ltac:(cbn [length]; lia)) as E2.
      rewrite app_nil_r, memcpy_at_nil in E2. rewrite E2.
      replace (ulong (ulong (l - Z.min l (zlen from) + m) - l)) with (m - zlen from).
      2:{ unfold ulong. rewrite uwrap_sub_l. symmetry.
          replace (l - _ + m - l) with (m - zlen from) by lia. apply ulong_small. lia. }
      rewrite (ulong_small (m - zlen from + esize f - 1)) by lia. rewrite Hpart in * by lia.
      subst m. rewrite faulted_elements, ulong_small by nia. done.
Qed.

(** [kfifo_from_user] appends exactly the whole elements that could be read from
    user space: of the elements that were asked for and have room, a fault after
    [zlen from] bytes leaves the first [zlen from / esize], and -EFAULT is
    returned just then.  [*copied] is the byte count less the number of elements
    not copied. *)
Theorem kfifo_from_user_appends f from len :
  wf f -> (mask f + 2) * esize f <= 2 ^ 32 -> 0 <= len < 2 ^ 32 ->
  let n := Z.min (len / esize f) (mask f + 1 - count f) in
  let k := Z.min n (zlen from / esize f) in
  let '(err, copied, f') := __kfifo_from_user f from len in
  wf f' /\ contents f' = contents f ++ take (Z.to_nat (k * esize f)) from /\
  err = (if n * esize f <=? zlen from then 0 else - EFAULT) /\
  copied = n * esize f - (n - k).
Proof.
  intros Hf Hbig Hlen n k. pose proof (wf_esize f Hf) as He. pose proof (count_range f).
  pose proof (wf_count f Hf). pose proof (Z.div_pos len (esize f)).
  pose proof (Z.div_pos (zlen from) (esize f)).
  assert (0 <= k <= n) as Hk by lia. assert (n <= mask f + 1) by lia.
  unfold __kfifo_from_user. rewrite unused_count by done.
  replace (if negb (esize f =? 1) then len / esize f else len) with (len / esize f)
    by (destruct (Z.eqb_spec (esize f) 1) as [E|]; [by rewrite E, Z.div_1_r|done]).
  replace (if _ <? _ then _ else _) with n by (subst n; destr_if; lia).
  destruct (wf_size f Hf) as (Hs & _). rewrite u32_small by lia.
  destruct (copy_from_user_spec f from n (fin f) Hf Hbig ltac:(lia)) as (xs & Hx1 & Hx2 & Hx3 & ->).
  fold k in Hx2, Hx3 |- *. pose proof (unused_bytes f n Hf ltac:(lia)). pose proof (zlen_data_pos f Hf).
  set (d := store_ring (data f) _ xs).
  assert (zlen d = zlen (data f)) as Hd by (apply zlen_store_ring; [by apply start_range|lia]).
  assert (ring d (start f) (used f + length (take (Z.to_nat (k * esize f)) from)) =
            contents f ++ take (Z.to_nat (k * esize f)) from) as Hr.
  { rewrite <- Hx3. apply (Spsc.ring_take _ _ (used f) (length xs)); [|apply Spsc.length_contents].
    subst d. rewrite write_position by done. apply ring_store_app; lia. }
  destruct (push_spec f (take (Z.to_nat (k * esize f)) from) k d Hf ltac:(lia)) as [Hf' Hc];
    [rewrite <- Hx3, length_take; lia|done|done|].
  assert ((n - k =? 0) = (n * esize f <=? zlen from)) as Ek.
  { pose proof (Z.div_mod (zlen from) (esize f)). pose proof (Z.mod_pos_bound (zlen from) (esize f)).
    destruct (Z.eqb_spec (n - k) 0), (Z.leb_spec (n * esize f) (zlen from)); try done; nia. }
  rewrite Ek in *. assert (u32 (n * esize f - (n - k)) = n * esize f - (n - k)) as -> by (apply u32_small; nia).
  destruct (n * esize f <=? zlen from) eqn:E; cbn [negb].
  - apply Z.eqb_eq in Ek. clearbody d k. clearbody n. assert (n = k) as -> by lia. split_and!; done.
  - rewrite ulong_small by lia. replace (n - (n - k)) with k by lia. split_and!; done.
Qed.

End user_copies.

(** The third element is cut after one byte: one element arrives, and [*copied] is 5. *)
Lemma kfifo_from_user_appends_witness :
  let f := {| fin := 0; fout := 0; mask := 3; esize := 2; data := replicate 8 0 |} in
  let '(err, copied, f') := __kfifo_from_user (H := long32) f [1; 2; 3] 8 in
  wf f' /\ contents f' = [1; 2] /\ err = - EFAULT /\ copied = 5.
Proof.
  intros f. assert (wf f) as Hf.
  { constructor; cbn; try lia; [exists 2; lia|vm_compute; congruence]. }
  exact (kfifo_from_user_appends (H := long32) f [1; 2; 3] 8 Hf ltac:(cbn; lia) ltac:(lia)).
Defined.

Section allocation.
Context `{LongWidth}.

(** The rounding of both initialisers. *)
Lemma rounded_size n :
  0 < n < 2 ^ 32 ->
  (if negb (is_power_of_2 n) then u32 (rounddown_pow_of_two n) else n) = 2 ^ Z.log2 n.
Proof.
  intros Hn. pose proof (Z.log2_nonneg n). pose proof (Z.log2_spec n ltac:(lia)).
  destruct (is_power_of_2 n) eqn:E; cbn [negb].
  - apply is_power_of_2_spec; [lia|done].
  - unfold rounddown_pow_of_two. rewrite Z.shiftl_1_l. apply u32_small. lia.
Qed.

Lemma log2_u32 n : 0 < n < 2 ^ 32 -> 0 <= Z.log2 n <= 31.
Proof.
  intros Hn. pose proof (Z.log2_nonneg n). pose proof (Z.log2_lt_pow2 n 32 ltac:(lia)). lia.
Qed.

(** [kfifo_alloc] gives an empty, well-formed fifo whose capacity is the largest
    power of two that is at most the requested size; a capacity below two is
    refused with -EINVAL, and -ENOMEM is returned when the allocator fails. *)
Theorem kfifo_alloc_wf kmalloc size es :
  0 < size < 2 ^ 32 -> 1 <= es -> size * es < 2 ^ 32 ->
  (forall n buf, kmalloc n = Some buf -> zlen buf = n) ->
  let '(ret, f) := __kfifo_alloc kmalloc size es in
  (size = 1 -> ret = - EINVAL) /\
  (2 <= size -> kmalloc (2 ^ Z.log2 size * es) = None -> ret = - ENOMEM) /\
  (2 <= size -> kmalloc (2 ^ Z.log2 size * es) <> None ->
     ret = 0 /\ wf f /\ contents f = [] /\ esize f = es /\
     mask f + 1 = 2 ^ Z.log2 size /\ mask f + 1 <= size < 2 * (mask f + 1)).
Proof.
  intros Hs Hes Hfit Hk. pose proof (Z.log2_spec size ltac:(lia)) as Hlog.
  pose proof (log2_u32 size Hs). rewrite Z.pow_succ_r in Hlog by lia.
  unfold __kfifo_alloc. rewrite rounded_size by done.
  destruct (Z.ltb_spec (2 ^ Z.log2 size) 2) as [Hlt|Hge]; [split_and!; intros; done || lia|].
  rewrite ulong_small by nia. destruct (kmalloc _) as [buf|] eqn:E; [|split_and!; intros; try done].
  - split_and!; intros; [lia|done|]. apply Hk in E.
    split_and!; cbn [mask esize]; try done; try lia.
    constructor; cbn [mask esize fin fout data]; try done; rewrite ?Z.sub_add; try done; try lia.
    + by exists (Z.log2 size).
    + nia.
    + change (count _) with 0. lia.
  - lia.
Qed.

End allocation.

Lemma kfifo_alloc_wf_witness :
  let kmalloc n := if n <=? 4096 then Some (replicate (Z.to_nat n) 0) else None in
  let '(ret, f) := __kfifo_alloc (H := long32) kmalloc 100 4 in
  ret = 0 /\ wf f /\ contents f = [] /\ esize f = 4 /\ mask f + 1 = 2 ^ Z.log2 100 /\
  mask f + 1 <= 100 < 2 * (mask f + 1).
Proof.
  intros kmalloc.
  assert (forall n buf, kmalloc n = Some buf -> zlen buf = n \/ n < 0) as Hk.
  { unfold kmalloc. intros n buf E. destr_if_in E; [|done]. inversion E. rewrite length_replicate. lia. }
  pose proof (kfifo_alloc_wf (H := long32)
    (fun n => if n <? 0 then None else kmalloc n) 100 4 ltac:(lia) ltac:(lia) ltac:(lia)) as Hw.
  apply Hw; [|lia|by vm_compute]. intros n buf E. destruct (Z.ltb_spec n 0); [done|].
  destruct (Hk n buf E); lia.
Defined.
