(* ===== verification/Skb.v ===== *)
(** * Socket buffers as the packet filter reads them

    The part of struct sk_buff (include/linux/skbuff.h) that holds packet data: a
    linear area, page fragments and a list of further buffers; the copy routine
    over the three (skb_copy_bits of net/core/skbuff.c), the pointer helpers and
    the attribute search of lib/nlattr.c and include/net/netlink.h.

    A buffer is the list of its bytes; pointers into it are offsets from [head].
    Every read is checked: one that is not between [head] and [tail], or not
    inside of its fragment, is the value [Bad], so that safety is the statement
    that no operation returns it. *)

From Stdlib Require Import ZArith Lia.
From stdpp Require Import base numbers list gmap fin_maps option.
From S2P Require Import Prelude.

Local Open Scope Z_scope.

(** What the filter reads of struct net_device. *)
Record net_device := mk_net_device { ifindex : Z; dev_type : Z }.

(** [head] are the bytes from [skb->head] on; [data], [tail] and the two header
    fields are offsets into it; each fragment is its bytes. *)
Inductive sk_buff : Type := mk_sk_buff {
  skb_len : Z;
  data_len : Z;
  head : list Z;
  skb_data : Z;
  tail : Z;
  network_header : Z;
  mac_header : Z;
  frags : list (list Z);
  frag_list : list sk_buff;
  protocol : Z;
  pkt_type : Z;
  dev : option net_device;
  mark : Z;
  queue_mapping : Z;
  rxhash : Z
}.

(** [n] bytes from [off] on. *)
Definition slice (l : list Z) (off n : Z) : list Z := take (Z.to_nat n) (drop (Z.to_nat off) l).

(** The result of reading memory: what was read, or a stray access. *)
Inductive access (A : Type) : Type :=
| Got (x : A)
| Bad.
Arguments Got {A} x.
Arguments Bad {A}.

(** Reading [n] bytes at [off] of a memory that ends at [limit]. *)
Definition read (l : list Z) (limit off n : Z) : access (list Z) :=
  if (0 <=? off) && (off + n <=? limit) then Got (slice l off n) else Bad.

Definition skb_headlen (skb : sk_buff) : Z := u32 (skb_len skb - data_len skb).

Definition skb_is_nonlinear (skb : sk_buff) : bool := negb (data_len skb =? 0).

(** ** Copying out of a buffer *)

(** The state of the copy loops: the position [start] in the packet, the bytes
    copied, and the offset and length of what is left; or the copy is complete,
    or it read a stray address. *)
Inductive copying : Type :=
| Copied (to : list Z)
| Copying (start : Z) (to : list Z) (offset len : Z)
| Stray.

Fixpoint copy_frags (fs : list (list Z)) (start : Z) (to : list Z) (offset len : Z) : copying :=
  match fs with
  | [] => Copying start to offset len
  | f :: fs =>
      let end_ := start + zlen f in
      let copy := end_ - offset in
      if 0 <? copy then
        let copy := if len <? copy then len else copy in
        match read f (zlen f) (offset - start) copy with
        | Bad => Stray
        | Got bytes =>
            let to := to ++ bytes in
            let len := len - copy in
            if len =? 0 then Copied to
            else copy_frags fs end_ to (offset + copy) len
        end
      else copy_frags fs end_ to offset len
  end.

(** The copy from the linear area. *)
Definition copy_head (skb : sk_buff) (offset len : Z) : copying :=
  let start := skb_headlen skb in
  let copy := start - offset in
  if 0 <? copy then
    let copy := if len <? copy then len else copy in
    match read (head skb) (tail skb) (skb_data skb + offset) copy with
    | Bad => Stray
    | Got to =>
        let len := len - copy in
        if len =? 0 then Copied to else Copying start to (offset + copy) len
    end
  else Copying start [] offset len.

(** The walk over the fragment list; [copy_bits] is the recursive call. *)
Definition walk_frags (copy_bits : sk_buff -> Z -> Z -> access (option (list Z))) :
  list sk_buff -> Z -> list Z -> Z -> Z -> access (option (list Z)) :=
  fix walk l start to offset len :=
    match l with
    | [] => Got (if len =? 0 then Some to else None)
    | frag_iter :: l =>
        let end_ := start + skb_len frag_iter in
        let copy := end_ - offset in
        if 0 <? copy then
          let copy := if len <? copy then len else copy in
          match copy_bits frag_iter (offset - start) copy with
          | Bad => Bad
          | Got None => Got None
          | Got (Some bytes) =>
              let to := to ++ bytes in
              let len := len - copy in
              if len =? 0 then Got (Some to) else walk l end_ to (offset + copy) len
          end
        else walk l end_ to offset len
    end.

(** The bytes, or nothing for -EFAULT. *)
Fixpoint skb_copy_bits (skb : sk_buff) (offset len : Z) {struct skb} : access (option (list Z)) :=
  if s32 (skb_len skb) - len <? offset then Got None
  else
    match copy_head skb offset len with
    | Stray => Bad
    | Copied to => Got (Some to)
    | Copying start to offset len =>
        match copy_frags (frags skb) start to offset len with
        | Stray => Bad
        | Copied to => Got (Some to)
        | Copying start to offset len =>
            walk_frags (fun s => skb_copy_bits s) (frag_list skb) start to offset len
        end
    end.

(** The [len] bytes at the returned pointer, or nothing for the null pointer. *)
Definition skb_header_pointer (skb : sk_buff) (offset len : Z) : access (option (list Z)) :=
  let hlen := s32 (skb_headlen skb) in
  if len <=? hlen - offset then
    match read (head skb) (tail skb) (skb_data skb + offset) len with Got bytes => Got (Some bytes) | Bad => Bad end
  else skb_copy_bits skb offset len.

(** ** Netlink attributes *)

(** A byte at [skb->data + off]; outside the packet data it is a stray access. *)
Definition read8 (skb : sk_buff) (off : Z) : access Z :=
  if (0 <=? off) && (skb_data skb + off <? tail skb) then Got (znth (head skb) (skb_data skb + off)) else Bad.

Section nlattr.
Context (big_endian : bool).

Definition read16 (skb : sk_buff) (off : Z) : access Z :=
  match read8 skb off, read8 skb (off + 1) with
  | Got a, Got b => Got (if big_endian then a * 256 + b else a + b * 256)
  | _, _ => Bad
  end.

Definition sizeof_nlattr : Z := 4.
Definition NLA_HDRLEN : Z := 4.
Definition NLA_ALIGN (len : Z) : Z := (len + 4 - 1) .& Z.lnot 3.
Definition NLA_TYPE_MASK : Z := Z.lnot (2 ^ 15 .| 2 ^ 14).

(** The two fields of the attribute at [nla]. *)
Definition nla_len_field (skb : sk_buff) (nla : Z) : access Z := read16 skb nla.

Definition nla_type (skb : sk_buff) (nla : Z) : access Z :=
  match read16 skb (nla + 2) with Got t => Got (t .& NLA_TYPE_MASK) | Bad => Bad end.

Definition nla_ok (skb : sk_buff) (nla remaining : Z) : access bool :=
  if sizeof_nlattr <=? remaining then
    match nla_len_field skb nla with
    | Got l => Got ((sizeof_nlattr <=? l) && (l <=? remaining))
    | Bad => Bad
    end
  else Got false.

(** The next attribute and the bytes remaining. *)
Definition nla_next (skb : sk_buff) (nla remaining : Z) : access (Z * Z) :=
  match nla_len_field skb nla with
  | Got l => Got (nla + NLA_ALIGN l, remaining - NLA_ALIGN l)
  | Bad => Bad
  end.

(** [nla_for_each_attr] in [nla_find]; [Bad] also when the fuel is used up, which
    [nla_find_safe] excludes. *)
Fixpoint nla_find_loop (fuel : nat) (skb : sk_buff) (nla rem attrtype : Z) : access (option Z) :=
  match fuel with
  | O => Bad
  | S fuel =>
      match nla_ok skb nla rem with
      | Bad => Bad
      | Got false => Got None
      | Got true =>
          match nla_type skb nla with
          | Bad => Bad
          | Got t =>
              if t =? attrtype then Got (Some nla)
              else
                match nla_next skb nla rem with
                | Bad => Bad
                | Got (nla, rem) => nla_find_loop fuel skb nla rem attrtype
                end
          end
      end
  end.

(** Each attribute passed is at least a header of packet data, so the packet's
    length is fuel enough. *)
Definition nla_find (skb : sk_buff) (hd len attrtype : Z) : access (option Z) :=
  nla_find_loop (S (length (head skb))) skb hd len attrtype.

Definition nla_data (nla : Z) : Z := nla + NLA_HDRLEN.

Definition nla_len (skb : sk_buff) (nla : Z) : access Z :=
  match nla_len_field skb nla with Got l => Got (l - NLA_HDRLEN) | Bad => Bad end.

Definition nla_find_nested (skb : sk_buff) (nla attrtype : Z) : access (option Z) :=
  match nla_len skb nla with
  | Got l => nla_find skb (nla_data nla) l attrtype
  | Bad => Bad
  end.

End nlattr.

(** ** The packet, and buffers that represent one *)

Fixpoint packet (skb : sk_buff) : list Z :=
  slice (head skb) (skb_data skb) (tail skb - skb_data skb) ++
  concat (frags skb) ++ concat (packet <$> frag_list skb).

Definition is_byte (b : Z) : Prop := 0 <= b < 256.

(** The lengths agree with the data, down to the buffers of the fragment list. *)
Inductive wf_skb : sk_buff -> Prop :=
| wf_skb_intro skb :
    0 <= skb_data skb <= tail skb -> tail skb <= zlen (head skb) ->
    Forall is_byte (head skb) -> Forall (Forall is_byte) (frags skb) ->
    skb_len skb = zlen (packet skb) -> skb_len skb < 2 ^ 31 ->
    data_len skb = zlen (concat (frags skb) ++ concat (packet <$> frag_list skb)) ->
    Forall wf_skb (frag_list skb) ->
    wf_skb skb.

Lemma sk_buff_nested_ind (P : sk_buff -> Prop) :
  (forall skb, Forall P (frag_list skb) -> P skb) -> forall skb, P skb.
Proof.
  intros IH. fix go 1. intros skb. apply IH. destruct skb as [? ? ? ? ? ? ? ? fl ? ? ? ? ? ?]. cbn.
  induction fl as [|s fl IHl]; constructor; [apply go|exact IHl].
Qed.

Lemma slice_app a b off n : 0 <= off -> 0 <= n ->
  slice (a ++ b) off n = slice a off n ++ slice b (off - zlen a) (n - Z.max 0 (zlen a - off)).
Proof.
  intros Ho Hn. unfold slice. rewrite drop_app, take_app, length_drop. do 2 f_equal; [|f_equal]; lia.
Qed.

Lemma zlen_slice l off n : 0 <= off -> 0 <= n -> off + n <= zlen l -> zlen (slice l off n) = n.
Proof. intros. unfold slice. rewrite length_take, length_drop. lia. Qed.

Lemma read_in l limit off n : 0 <= off -> off + n <= limit -> read l limit off n = Got (slice l off n).
Proof. intros Ho Hn. unfold read. by rewrite (proj2 (Z.leb_le _ _) Ho), (proj2 (Z.leb_le _ _) Hn). Qed.

Lemma slice_none l off n : n <= 0 -> slice l off n = [].
Proof. intros Hn. unfold slice. by replace (Z.to_nat n) with O by lia. Qed.

Lemma slice_past l off n : zlen l <= off -> slice l off n = [].
Proof. intros Ho. unfold slice. rewrite drop_ge by lia. apply take_nil. Qed.

Lemma slice_clip l off n : 0 <= off -> slice l off n = slice l off (Z.min n (Z.max 0 (zlen l - off))).
Proof.
  intros Ho. unfold slice. destruct (Z.le_gt_cases n (zlen l - off)); [f_equal; lia|].
  rewrite !take_ge by (rewrite length_drop; lia). done.
Qed.

Lemma slice_slice l a b off n :
  0 <= a -> 0 <= off -> off + n <= b -> slice (slice l a b) off n = slice l (a + off) n.
Proof.
  intros Ha Ho Hn. unfold slice. rewrite skipn_firstn_comm, drop_drop, take_take.
  f_equal; [lia|]. f_equal. lia.
Qed.

(** ** The copy is the slice of the packet *)

Section copy.
Context (off len : Z).
Hypothesis off_ok : 0 <= off.
Hypothesis len_ok : 0 < len.

(** The state of the loops after the bytes [pre] of the packet. *)
Definition scanned (pre : list Z) : copying :=
  if off + len <=? zlen pre then Copied (slice pre off len)
  else
    let n := Z.max 0 (zlen pre - off) in Copying (zlen pre) (slice pre off len) (off + n) (len - n).

(** One more piece [f]. *)
Definition scan (c : copying) (f : list Z) : copying :=
  match c with
  | Copied to => Copied to
  | Copying start to offset len =>
      let copy := start + zlen f - offset in
      if 0 <? copy then
        let copy := if len <? copy then len else copy in
        match read f (zlen f) (offset - start) copy with
        | Bad => Stray
        | Got bytes =>
            if len - copy =? 0 then Copied (to ++ bytes)
            else Copying (start + zlen f) (to ++ bytes) (offset + copy) (len - copy)
        end
      else Copying (start + zlen f) to offset len
  | Stray => Stray
  end.

Lemma scan_scanned pre f : scan (scanned pre) f = scanned (pre ++ f).
Proof.
  unfold scanned. rewrite length_app, Nat2Z.inj_add, slice_app by lia.
  destruct (Z.leb_spec (off + len) (zlen pre)) as [Hd|Hd]; cbn [scan].
  - destruct (Z.leb_spec (off + len) (zlen pre + zlen f)); [|lia].
    by rewrite (slice_none f), app_nil_r by lia.
  - set (n := Z.max 0 (zlen pre - off)).
    assert (slice f (off - zlen pre) (len - n) = slice f (off + n - zlen pre) (len - n)) as E.
    { destruct (Z.le_gt_cases (zlen pre) off); unfold slice; do 2 f_equal; lia. }
    rewrite E. destruct (Z.ltb_spec 0 (zlen pre + zlen f - (off + n))) as [Hc|Hc].
    + destruct (Z.ltb_spec (len - n) (zlen pre + zlen f - (off + n))) as [Hl|Hl].
      * rewrite read_in, Z.sub_diag by lia. destruct (Z.leb_spec (off + len) (zlen pre + zlen f)); [done|lia].
      * rewrite read_in, (slice_clip f _ (len - n)) by lia.
        replace (Z.min (len - n) _) with (zlen pre + zlen f - (off + n)) by lia.
        destruct (Z.eqb_spec (len - n - (zlen pre + zlen f - (off + n))) 0),
                 (Z.leb_spec (off + len) (zlen pre + zlen f)); try lia; [done|]. f_equal; lia.
    + rewrite (slice_past f) by lia. rewrite app_nil_r.
      destruct (Z.leb_spec (off + len) (zlen pre + zlen f)); [lia|]. f_equal; lia.
Qed.

Lemma copy_frags_scan fs start to offset n :
  copy_frags fs start to offset n = foldl scan (Copying start to offset n) fs.
Proof.
  revert start to offset n. induction fs as [|f fs IH]; intros start to offset n; [done|].
  cbn [copy_frags foldl scan]. destruct (0 <? _); [|apply IH].
  set (copy := if _ <? _ then _ else _). destruct (read f _ _ _); [|clear; by induction fs].
  destruct (_ =? 0); [|apply IH]. clear. by induction fs.
Qed.

Lemma foldl_scanned pre fs : foldl scan (scanned pre) fs = scanned (pre ++ concat fs).
Proof.
  revert pre. induction fs as [|f fs IH]; intros pre; cbn [foldl concat]; [by rewrite app_nil_r|].
  by rewrite scan_scanned, IH, app_assoc.
Qed.

(** The fragment list, when the recursive call copies slices. *)
Lemma walk_frags_scan copy_bits l :
  Forall (fun s => skb_len s = zlen (packet s) /\
    forall o n, 0 <= o -> 0 < n -> o + n <= zlen (packet s) -> copy_bits s o n = Got (Some (slice (packet s) o n))) l ->
  forall start to offset n, 0 < n -> start <= offset ->
  walk_frags copy_bits l start to offset n =
    match foldl scan (Copying start to offset n) (packet <$> l) with
    | Copied to => Got (Some to) | Copying _ _ _ _ => Got None | Stray => Bad
    end.
Proof.
  induction 1 as [|s l [Hlen Hs] Hl IH]; intros start to offset n Hn Hso.
  - cbn. by destruct (Z.eqb_spec n 0); [lia|].
  - cbn [walk_frags fmap list_fmap foldl scan]. rewrite Hlen.
    destruct (Z.ltb_spec 0 (start + zlen (packet s) - offset)) as [Hc|Hc]; [|by apply IH; lia].
    set (copy := if n <? _ then _ else _).
    assert (0 < copy <= n /\ offset + copy <= start + zlen (packet s)) by (subst copy; destr_if; lia).
    rewrite Hs, read_in by lia. destruct (Z.eqb_spec (n - copy) 0).
    + clear. by induction (packet <$> l).
    + apply IH; [lia|]. subst copy. destruct (Z.ltb_spec n (start + zlen (packet s) - offset)); lia.
Qed.

End copy.

Section packet.

Definition linear (skb : sk_buff) : list Z := slice (head skb) (skb_data skb) (tail skb - skb_data skb).

Lemma wf_linear skb : wf_skb skb ->
  zlen (linear skb) = tail skb - skb_data skb /\ skb_headlen skb = zlen (linear skb) /\
  packet skb = linear skb ++ concat (frags skb) ++ concat (packet <$> frag_list skb) /\
  skb_len skb = zlen (packet skb) /\ 0 <= skb_len skb < 2 ^ 31.
Proof.
  intros Hw. destruct Hw as [skb Hd Ht _ _ Hl Hb Hdl _].
  assert (zlen (linear skb) = tail skb - skb_data skb) as Hlin by (apply zlen_slice; lia).
  assert (packet skb = linear skb ++ concat (frags skb) ++ concat (packet <$> frag_list skb)) as Hp
    by by destruct skb.
  split_and!; try done; [|lia]. unfold skb_headlen. rewrite Hl, Hdl, Hp, !length_app.
  rewrite u32_small; rewrite Hl, Hp, !length_app in Hb; lia.
Qed.

(** A read out of the linear area. *)
Lemma linear_read skb off n : wf_skb skb -> 0 <= off -> off + n <= zlen (linear skb) ->
  read (head skb) (tail skb) (skb_data skb + off) n = read (linear skb) (zlen (linear skb)) off n.
Proof.
  intros Hw Ho Hn. pose proof (wf_linear skb Hw) as (El & _). destruct Hw as [skb Hd _ _ _ _ _ _ _].
  rewrite !read_in by lia. unfold linear in *. rewrite slice_slice by lia. done.
Qed.

Lemma skb_copy_bits_unfold skb offset len :
  skb_copy_bits skb offset len =
  if s32 (skb_len skb) - len <? offset then Got None
  else
    match copy_head skb offset len with
    | Stray => Bad
    | Copied to => Got (Some to)
    | Copying start to offset len =>
        match copy_frags (frags skb) start to offset len with
        | Stray => Bad
        | Copied to => Got (Some to)
        | Copying start to offset len => walk_frags skb_copy_bits (frag_list skb) start to offset len
        end
    end.
Proof. by destruct skb. Qed.

Lemma copy_header skb off len :
  wf_skb skb -> 0 <= off -> 0 < len ->
  copy_head skb off len = scanned off len (linear skb).
Proof.
  intros Hw Ho Hl. unfold copy_head. destruct (wf_linear skb Hw) as (_ & -> & _).
  pose proof (scan_scanned off len Ho Hl [] (linear skb)) as Hs. cbn [app] in Hs. rewrite <- Hs.
  assert (scanned off len [] = Copying 0 [] off len) as ->.
  { unfold scanned. cbn [length]. rewrite Nat2Z.inj_0. destruct (Z.leb_spec (off + len) 0); [lia|].
    rewrite slice_past by (cbn; lia). f_equal; lia. }
  cbn [scan]. rewrite Z.add_0_l, Z.sub_0_r. cbn zeta.
  destruct (Z.ltb_spec 0 (zlen (linear skb) - off)); [|done].
  rewrite linear_read by (done || destr_if; lia). done.
Qed.

Lemma foldl_copied to fs : foldl scan (Copied to) fs = Copied to.
Proof. by induction fs. Qed.

Lemma scanned_copying off len pre start to o n :
  0 <= off -> 0 < len -> scanned off len pre = Copying start to o n -> 0 < n /\ start <= o.
Proof.
  intros Ho Hl. unfold scanned. destr_if; intros E; inversion E; subst. lia.
Qed.

Lemma skb_copy_bits_packet skb :
  wf_skb skb -> forall off len, 0 <= off -> 0 < len ->
  skb_copy_bits skb off len =
    Got (if off + len <=? zlen (packet skb) then Some (slice (packet skb) off len) else None).
Proof.
  induction skb as [skb IH] using sk_buff_nested_ind. intros Hw off len Ho Hl.
  pose proof (wf_linear skb Hw) as (_ & Hh & Hp & Hlen & Hb).
  assert (Forall (fun s => skb_len s = zlen (packet s) /\
    forall o n, 0 <= o -> 0 < n -> o + n <= zlen (packet s) ->
      skb_copy_bits s o n = Got (Some (slice (packet s) o n))) (frag_list skb)) as Hfl.
  { assert (Forall wf_skb (frag_list skb)) as Hws by by destruct Hw.
    apply Forall_lookup. intros i s Hs. rewrite Forall_lookup in IH, Hws.
    destruct (wf_linear s (Hws i s Hs)) as (_ & _ & _ & ? & _). split; [done|].
    intros o n Ho' Hn' Hon. rewrite (IH i s Hs (Hws i s Hs)) by done.
    by destruct (Z.leb_spec (o + n) (zlen (packet s))); [|lia]. }
  rewrite skb_copy_bits_unfold, s32_small by lia. rewrite Hlen, copy_header by done.
  destruct (Z.ltb_spec (zlen (packet skb) - len) off), (Z.leb_spec (off + len) (zlen (packet skb))); try lia; [done|].
  assert (scanned off len (packet skb) = Copied (slice (packet skb) off len)) as Hfin
    by (unfold scanned; destr_if; [done|lia]).
  set (r := slice (packet skb) off len) in *. clearbody r. rewrite Hp, app_assoc, <- foldl_scanned, <- foldl_scanned in Hfin by done.
  destruct (scanned off len (linear skb)) as [to|start to o n|] eqn:E1.
  { rewrite !foldl_copied in Hfin. by inversion Hfin. }
  2: { unfold scanned in E1. by destr_if_in E1. }
  rewrite copy_frags_scan. rewrite <- E1, foldl_scanned in Hfin |- * by done.
  destruct (scanned off len (linear skb ++ concat (frags skb))) as [to'|start' to' o' n'|] eqn:E2.
  { rewrite foldl_copied in Hfin. by inversion Hfin. }
  2: { unfold scanned in E2. by destr_if_in E2. }
  apply scanned_copying in E2 as [? ?]; [|done..].
  rewrite (walk_frags_scan _ _ Hfl) by done. by rewrite Hfin.
Qed.

Lemma slice_bytes l off n : Forall is_byte l -> Forall is_byte (slice l off n).
Proof. intros Hl. apply Forall_take, Forall_drop, Hl. Qed.

Lemma concat_bytes (ls : list (list Z)) : Forall (Forall is_byte) ls -> Forall is_byte (concat ls).
Proof. induction 1; cbn; [constructor|]. by apply Forall_app_2. Qed.

Lemma packet_bytes skb : wf_skb skb -> Forall is_byte (packet skb).
Proof.
  induction skb as [skb IH] using sk_buff_nested_ind. intros Hw.
  destruct (wf_linear skb Hw) as (_ & _ & -> & _). destruct Hw as [skb _ _ Hh Hf _ _ _ Hl].
  repeat apply Forall_app_2; [by apply slice_bytes|by apply concat_bytes|]. apply concat_bytes.
  apply Forall_lookup. intros i l Hi. apply list_lookup_fmap_Some in Hi as (s & -> & Hs).
  rewrite Forall_lookup in IH, Hl. eauto.
Qed.

Lemma header_pointer_packet skb off len :
  wf_skb skb -> 0 <= off < 2 ^ 31 -> 0 < len < 2 ^ 31 ->
  skb_header_pointer skb off len =
    Got (if off + len <=? zlen (packet skb) then Some (slice (packet skb) off len) else None).
Proof.
  intros Hw Ho Hl. unfold skb_header_pointer. pose proof (wf_linear skb Hw) as (_ & Hh & Hp & Hlen & Hb).
  assert (zlen (linear skb) <= zlen (packet skb)) by (rewrite Hp, length_app; lia).
  rewrite Hh, s32_small by lia. destruct (Z.leb_spec len (zlen (linear skb) - off)) as [Hlin|].
  - rewrite linear_read, read_in by (done || lia). rewrite Hp at 2. rewrite slice_app by lia.
    rewrite (slice_none (_ ++ _)), app_nil_r by lia. by destruct (Z.leb_spec (off + len) (zlen (packet skb))); [|lia].
  - apply skb_copy_bits_packet; done || lia.
Qed.

End packet.

(** C31. The layout of a buffer is invisible to its readers: [skb_header_pointer] gives
    the bytes [off .. off + len) of the packet whether they lie in the linear
    area, in page fragments, in the buffers of the fragment list or across
    several of them, fails exactly when the packet is too short, and reads
    nothing outside of them. *)
Theorem skb_header_pointer_reads_packet skb off len :
  wf_skb skb -> 0 <= off < 2 ^ 31 -> 0 < len < 2 ^ 31 ->
  skb_header_pointer skb off len =
    Got (if off + len <=? zlen (packet skb) then Some (slice (packet skb) off len) else None).
Proof. apply header_pointer_packet. Qed.

(** Three bytes in the linear area, two in a page fragment, three in a second buffer. *)
Definition skb_demo : sk_buff :=
  mk_sk_buff 8 5 [0; 0; 1; 2; 3; 0] 2 5 2 2 [[4; 5]]
    [mk_sk_buff 3 0 [6; 7; 8] 0 3 0 0 [] [] 0 0 None 0 0 0] 0 0 None 0 0 0.

Lemma skb_demo_wf : wf_skb skb_demo.
Proof.
  constructor; cbn; try lia; repeat constructor; cbn; try lia; repeat constructor; lia.
Qed.

Lemma skb_header_pointer_reads_packet_witness :
  skb_header_pointer skb_demo 2 4 = Got (Some [3; 4; 5; 6]) /\ skb_header_pointer skb_demo 5 4 = Got None.
Proof.
  split.
  - exact (skb_header_pointer_reads_packet skb_demo 2 4 skb_demo_wf ltac:(lia) ltac:(lia)).
  - exact (skb_header_pointer_reads_packet skb_demo 5 4 skb_demo_wf ltac:(lia) ltac:(lia)).
Defined.

Section attributes.
Context (big_endian : bool).

Lemma nla_align_bounds l : l <= NLA_ALIGN l <= l + 3.
Proof.
  unfold NLA_ALIGN. rewrite <- Z.ldiff_land. change 3 with (Z.ones 2).
  rewrite Z.ldiff_ones_r, Z.shiftl_mul_pow2, Z.shiftr_div_pow2 by lia. change (2 ^ 2) with 4.
  pose proof (Z.div_mod (l + 4 - 1) 4). pose proof (Z.mod_pos_bound (l + 4 - 1) 4). change (Z.ones 2) with 3. lia.
Qed.

Lemma read8_in skb off :
  0 <= off -> skb_data skb + off < tail skb ->
  read8 skb off = Got (znth (head skb) (skb_data skb + off)).
Proof.
  intros Ho Ht. unfold read8. apply Z.leb_le in Ho. apply Z.ltb_lt in Ht. by rewrite Ho, Ht.
Qed.

Lemma read16_in skb off :
  0 <= off -> skb_data skb + off + 1 < tail skb -> exists v, read16 big_endian skb off = Got v.
Proof.
  intros Ho Ht. unfold read16. rewrite !read8_in by lia. by eexists.
Qed.

(** The search stays inside [hd .. hd + len) when that is packet data. *)
Lemma nla_find_loop_safe fuel skb nla rem t :
  0 <= nla -> skb_data skb + nla + rem <= tail skb -> (0 < fuel)%nat -> rem < Z.of_nat fuel ->
  exists r, nla_find_loop big_endian fuel skb nla rem t = Got r /\
    forall n, r = Some n -> nla <= n /\ n + sizeof_nlattr <= nla + rem.
Proof.
  unfold sizeof_nlattr. revert nla rem. induction fuel as [|fuel IH]; intros nla rem Hn Ht Hpos Hf;
    cbn [nla_find_loop]; unfold nla_ok, sizeof_nlattr, nla_len_field.
  - lia.
  - destruct (Z.leb_spec 4 rem) as [H4|]; [|by eexists].
    destruct (read16_in skb nla) as [l El]; [lia..|]. rewrite El.
    destruct ((4 <=? l) && (l <=? rem)) eqn:Eok; [|by eexists].
    unfold nla_type, nla_next, nla_len_field. rewrite El.
    destruct (read16_in skb (nla + 2)) as [ty ->]; [lia..|].
    destruct (_ =? t); [eexists; split; [done|]; intros n [= <-]; lia|].
    pose proof (nla_align_bounds l). destruct (IH (nla + NLA_ALIGN l) (rem - NLA_ALIGN l)) as (r & -> & Hr); [lia..|].
    eexists. split; [done|]. intros n Hn'. specialize (Hr n Hn'). lia.
Qed.

Lemma nla_find_safe skb hd len t :
  wf_skb skb -> 0 <= hd -> skb_data skb + hd + len <= tail skb ->
  exists r, nla_find big_endian skb hd len t = Got r /\
    forall n, r = Some n -> hd <= n /\ n + sizeof_nlattr <= hd + len.
Proof.
  intros Hw Hh Hl. apply nla_find_loop_safe; [done|done|lia|]. destruct Hw as [skb Hd Ht _ _ _ _ _ _]. lia.
Qed.

End attributes.
