(* ===== verification/Bpf.v ===== *)
(** * The socket packet filter (net/core/filter.c, include/linux/filter.h)

    The BPF checker ([sk_chk_filter], [check_load_and_stores]), the interpreter
    ([sk_run_filter]) with its loads and ancillary data, reciprocal division
    (lib/reciprocal_div.c), and the attachment of filters to sockets.

    The interpreter is a step function on the registers, the scratch memory and
    the program counter.  What the C code leaves undefined is the outcome
    [Stuck]: a read of a scratch cell that was not written, an index outside the
    scratch memory or the program, a read outside the packet.  Safety of checked
    programs is the theorem that [Stuck] does not occur. *)

From Stdlib Require Import ZArith Lia.
From stdpp Require Import base numbers list gmap fin_maps option.
From S2P Require Import Prelude Skb.

Local Open Scope Z_scope.

(** ** Programs *)

Record sock_filter := mk_insn { code : Z; jt : Z; jf : Z; k : Z }.

Definition set_code (f : sock_filter) (c : Z) : sock_filter := mk_insn c (jt f) (jf f) (k f).
Definition set_k (f : sock_filter) (v : Z) : sock_filter := mk_insn (code f) (jt f) (jf f) v.

(** The instruction encoding of user space. *)
Definition BPF_LD : Z := 0x00.
Definition BPF_LDX : Z := 0x01.
Definition BPF_ST : Z := 0x02.
Definition BPF_STX : Z := 0x03.
Definition BPF_ALU : Z := 0x04.
Definition BPF_JMP : Z := 0x05.
Definition BPF_RET : Z := 0x06.
Definition BPF_MISC : Z := 0x07.
Definition BPF_W : Z := 0x00.
Definition BPF_H : Z := 0x08.
Definition BPF_B : Z := 0x10.
Definition BPF_IMM : Z := 0x00.
Definition BPF_ABS : Z := 0x20.
Definition BPF_IND : Z := 0x40.
Definition BPF_MEM : Z := 0x60.
Definition BPF_LEN : Z := 0x80.
Definition BPF_MSH : Z := 0xa0.
Definition BPF_ADD : Z := 0x00.
Definition BPF_SUB : Z := 0x10.
Definition BPF_MUL : Z := 0x20.
Definition BPF_DIV : Z := 0x30.
Definition BPF_OR : Z := 0x40.
Definition BPF_AND : Z := 0x50.
Definition BPF_LSH : Z := 0x60.
Definition BPF_RSH : Z := 0x70.
Definition BPF_NEG : Z := 0x80.
Definition BPF_JA : Z := 0x00.
Definition BPF_JEQ : Z := 0x10.
Definition BPF_JGT : Z := 0x20.
Definition BPF_JGE : Z := 0x30.
Definition BPF_JSET : Z := 0x40.
Definition BPF_K : Z := 0x00.
Definition BPF_X : Z := 0x08.
Definition BPF_A : Z := 0x10.
Definition BPF_TAX : Z := 0x00.
Definition BPF_TXA : Z := 0x80.

Definition BPF_MAXINSNS : Z := 4096.
Definition BPF_MEMWORDS : Z := 16.

Definition SKF_AD_OFF : Z := - 0x1000.
Definition SKF_AD_PROTOCOL : Z := 0.
Definition SKF_AD_PKTTYPE : Z := 4.
Definition SKF_AD_IFINDEX : Z := 8.
Definition SKF_AD_NLATTR : Z := 12.
Definition SKF_AD_NLATTR_NEST : Z := 16.
Definition SKF_AD_MARK : Z := 20.
Definition SKF_AD_QUEUE : Z := 24.
Definition SKF_AD_HATYPE : Z := 28.
Definition SKF_AD_RXHASH : Z := 32.
Definition SKF_AD_CPU : Z := 36.
Definition SKF_NET_OFF : Z := - 0x100000.
Definition SKF_LL_OFF : Z := - 0x200000.

(** The codes a checked program is rewritten to. *)
Inductive bpf_s : Type :=
| BPF_S_RET_K | BPF_S_RET_A
| BPF_S_ALU_ADD_K | BPF_S_ALU_ADD_X | BPF_S_ALU_SUB_K | BPF_S_ALU_SUB_X
| BPF_S_ALU_MUL_K | BPF_S_ALU_MUL_X | BPF_S_ALU_DIV_X
| BPF_S_ALU_AND_K | BPF_S_ALU_AND_X | BPF_S_ALU_OR_K | BPF_S_ALU_OR_X
| BPF_S_ALU_LSH_K | BPF_S_ALU_LSH_X | BPF_S_ALU_RSH_K | BPF_S_ALU_RSH_X
| BPF_S_ALU_NEG
| BPF_S_LD_W_ABS | BPF_S_LD_H_ABS | BPF_S_LD_B_ABS | BPF_S_LD_W_LEN
| BPF_S_LD_W_IND | BPF_S_LD_H_IND | BPF_S_LD_B_IND | BPF_S_LD_IMM
| BPF_S_LDX_W_LEN | BPF_S_LDX_B_MSH | BPF_S_LDX_IMM
| BPF_S_MISC_TAX | BPF_S_MISC_TXA
| BPF_S_ALU_DIV_K | BPF_S_LD_MEM | BPF_S_LDX_MEM | BPF_S_ST | BPF_S_STX
| BPF_S_JMP_JA | BPF_S_JMP_JEQ_K | BPF_S_JMP_JEQ_X | BPF_S_JMP_JGE_K | BPF_S_JMP_JGE_X
| BPF_S_JMP_JGT_K | BPF_S_JMP_JGT_X | BPF_S_JMP_JSET_K | BPF_S_JMP_JSET_X
| BPF_S_ANC_PROTOCOL | BPF_S_ANC_PKTTYPE | BPF_S_ANC_IFINDEX | BPF_S_ANC_NLATTR
| BPF_S_ANC_NLATTR_NEST | BPF_S_ANC_MARK | BPF_S_ANC_QUEUE | BPF_S_ANC_HATYPE
| BPF_S_ANC_RXHASH | BPF_S_ANC_CPU.

#[export] Instance bpf_s_eq_dec : EqDecision bpf_s.
Proof. solve_decision. Defined.

(** In the order of the C enumeration, which starts at 1. *)
Definition all_bpf_s : list bpf_s :=
  [BPF_S_RET_K; BPF_S_RET_A;
   BPF_S_ALU_ADD_K; BPF_S_ALU_ADD_X; BPF_S_ALU_SUB_K; BPF_S_ALU_SUB_X;
   BPF_S_ALU_MUL_K; BPF_S_ALU_MUL_X; BPF_S_ALU_DIV_X;
   BPF_S_ALU_AND_K; BPF_S_ALU_AND_X; BPF_S_ALU_OR_K; BPF_S_ALU_OR_X;
   BPF_S_ALU_LSH_K; BPF_S_ALU_LSH_X; BPF_S_ALU_RSH_K; BPF_S_ALU_RSH_X;
   BPF_S_ALU_NEG;
   BPF_S_LD_W_ABS; BPF_S_LD_H_ABS; BPF_S_LD_B_ABS; BPF_S_LD_W_LEN;
   BPF_S_LD_W_IND; BPF_S_LD_H_IND; BPF_S_LD_B_IND; BPF_S_LD_IMM;
   BPF_S_LDX_W_LEN; BPF_S_LDX_B_MSH; BPF_S_LDX_IMM;
   BPF_S_MISC_TAX; BPF_S_MISC_TXA;
   BPF_S_ALU_DIV_K; BPF_S_LD_MEM; BPF_S_LDX_MEM; BPF_S_ST; BPF_S_STX;
   BPF_S_JMP_JA; BPF_S_JMP_JEQ_K; BPF_S_JMP_JEQ_X; BPF_S_JMP_JGE_K; BPF_S_JMP_JGE_X;
   BPF_S_JMP_JGT_K; BPF_S_JMP_JGT_X; BPF_S_JMP_JSET_K; BPF_S_JMP_JSET_X;
   BPF_S_ANC_PROTOCOL; BPF_S_ANC_PKTTYPE; BPF_S_ANC_IFINDEX; BPF_S_ANC_NLATTR;
   BPF_S_ANC_NLATTR_NEST; BPF_S_ANC_MARK; BPF_S_ANC_QUEUE; BPF_S_ANC_HATYPE;
   BPF_S_ANC_RXHASH; BPF_S_ANC_CPU].

Definition bpf_s_val (s : bpf_s) : Z :=
  match list_find (eq s) all_bpf_s with Some (i, _) => Z.of_nat i + 1 | None => 0 end.

(** The code of a checked instruction; nothing for the default branch of a switch. *)
Definition bpf_s_of (c : Z) : option bpf_s :=
  if 1 <=? c then all_bpf_s !! Z.to_nat (c - 1) else None.

Definition scode (f : sock_filter) : option bpf_s := bpf_s_of (code f).

(** ** Reciprocal division *)

Definition reciprocal_value (k : Z) : Z :=
  let val := u64 ((1 .<< 32) + u32 (k - 1)) in u32 (val / k).

Definition reciprocal_divide (A R : Z) : Z := u32 (u64 (A * R) .>> 32).

(** ** Loads from the packet *)

(** The [size] bytes at the returned pointer, or nothing for the null pointer.
    [ptr] is an offset from [skb->head]; the null pointer is below it.  The read
    is that of the caller, and checked like every other. *)
Definition __load_pointer (skb : sk_buff) (k size : Z) : access (option (list Z)) :=
  let ptr :=
    if SKF_NET_OFF <=? k then Some (network_header skb + k - SKF_NET_OFF)
    else if SKF_LL_OFF <=? k then Some (mac_header skb + k - SKF_LL_OFF)
    else None in
  match ptr with
  | Some ptr =>
      if (0 <=? ptr) && (ptr + size <=? tail skb) then
        match read (head skb) (tail skb) ptr size with Got bytes => Got (Some bytes) | Bad => Bad end
      else Got None
  | None => Got None
  end.

Definition load_pointer (skb : sk_buff) (k size : Z) : access (option (list Z)) :=
  if 0 <=? k then skb_header_pointer skb k size else __load_pointer skb k size.

(** [get_unaligned_be32], [get_unaligned_be16] and a byte. *)
Definition be_value (bytes : list Z) : Z := foldl (fun acc b => acc * 256 + b) 0 bytes.

(** ** The interpreter *)

Record machine := mk_machine { A : Z; X : Z; mem : list (option Z); pc : Z }.

Definition set_A (m : machine) (v : Z) : machine := mk_machine v (X m) (mem m) (pc m).
Definition set_X (m : machine) (v : Z) : machine := mk_machine (A m) v (mem m) (pc m).
Definition set_mem (m : machine) (c : list (option Z)) : machine := mk_machine (A m) (X m) c (pc m).
Definition skip (m : machine) (n : Z) : machine := mk_machine (A m) (X m) (mem m) (pc m + n).

(** After an instruction: go on (the loop adds one to the program counter),
    return, or an access that C leaves undefined. *)
Inductive outcome : Type :=
| Next (m : machine)
| Return (v : Z)
| Stuck.

Section run.
Context `{LongWidth}.
(** Byte order, the number of the running processor, and the machine's shift
    instructions, which decide shifts by 32 and more. *)
Context (big_endian : bool) (cpu : Z) (shl shr : Z -> Z -> Z).

Definition ntohs (x : Z) : Z := if big_endian then x else (x mod 256) * 256 + x / 256.

(** [load_w], [load_h] and [load_b]. *)
Definition load_A (skb : sk_buff) (k size : Z) (m : machine) : outcome :=
  match load_pointer skb k size with
  | Got (Some bytes) => Next (set_A m (be_value bytes))
  | Got None => Return 0
  | Bad => Stuck
  end.

Definition load_mem (m : machine) (i : Z) : option Z :=
  if (0 <=? i) && (i <? BPF_MEMWORDS) then mjoin (mem m !! Z.to_nat i) else None.

Definition store_mem (m : machine) (i v : Z) : outcome :=
  if (0 <=? i) && (i <? BPF_MEMWORDS) then Next (set_mem m (<[Z.to_nat i := Some v]> (mem m))) else Stuck.

Definition jump (f : sock_filter) (m : machine) (cond : bool) : outcome :=
  Next (skip m (if cond then jt f else jf f)).

(** The attribute found, as an offset into the packet. *)
Definition nla_result (m : machine) (r : access (option Z)) : outcome :=
  match r with
  | Got (Some nla) => Next (set_A m (u32 nla))
  | Got None => Next (set_A m 0)
  | Bad => Stuck
  end.

Definition run_nlattr (skb : sk_buff) (m : machine) : outcome :=
  if skb_is_nonlinear skb then Return 0
  else if ulong (skb_len skb - sizeof_nlattr) <? A m then Return 0
  else nla_result m (nla_find big_endian skb (A m) (s32 (u32 (skb_len skb - A m))) (s32 (X m))).

Definition run_nlattr_nest (skb : sk_buff) (m : machine) : outcome :=
  if skb_is_nonlinear skb then Return 0
  else if ulong (skb_len skb - sizeof_nlattr) <? A m then Return 0
  else
    match nla_len_field big_endian skb (A m) with
    | Bad => Stuck
    | Got l =>
        if u32 (A m - skb_len skb) <? l then Return 0
        else nla_result m (nla_find_nested big_endian skb (A m) (s32 (X m)))
    end.

(** The ancillary data; other codes are not passed. *)
Definition run_ancillary (skb : sk_buff) (c : bpf_s) (m : machine) : outcome :=
  match c with
  | BPF_S_ANC_PROTOCOL => Next (set_A m (ntohs (protocol skb)))
  | BPF_S_ANC_PKTTYPE => Next (set_A m (pkt_type skb))
  | BPF_S_ANC_IFINDEX =>
      match dev skb with None => Return 0 | Some d => Next (set_A m (u32 (ifindex d))) end
  | BPF_S_ANC_MARK => Next (set_A m (mark skb))
  | BPF_S_ANC_QUEUE => Next (set_A m (queue_mapping skb))
  | BPF_S_ANC_HATYPE =>
      match dev skb with None => Return 0 | Some d => Next (set_A m (dev_type d)) end
  | BPF_S_ANC_RXHASH => Next (set_A m (rxhash skb))
  | BPF_S_ANC_CPU => Next (set_A m cpu)
  | BPF_S_ANC_NLATTR => run_nlattr skb m
  | BPF_S_ANC_NLATTR_NEST => run_nlattr_nest skb m
  | _ => Return 0
  end.

(** One round of the interpreter's loop, without the increment of its head. *)
Definition run_insn (skb : sk_buff) (f : sock_filter) (m : machine) : outcome :=
  let K := k f in
  let a := A m in
  let x := X m in
  match scode f with
  | Some BPF_S_ALU_ADD_X => Next (set_A m (u32 (a + x)))
  | Some BPF_S_ALU_ADD_K => Next (set_A m (u32 (a + K)))
  | Some BPF_S_ALU_SUB_X => Next (set_A m (u32 (a - x)))
  | Some BPF_S_ALU_SUB_K => Next (set_A m (u32 (a - K)))
  | Some BPF_S_ALU_MUL_X => Next (set_A m (u32 (a * x)))
  | Some BPF_S_ALU_MUL_K => Next (set_A m (u32 (a * K)))
  | Some BPF_S_ALU_DIV_X => if x =? 0 then Return 0 else Next (set_A m (a / x))
  | Some BPF_S_ALU_DIV_K => Next (set_A m (reciprocal_divide a K))
  | Some BPF_S_ALU_AND_X => Next (set_A m (a .& x))
  | Some BPF_S_ALU_AND_K => Next (set_A m (a .& K))
  | Some BPF_S_ALU_OR_X => Next (set_A m (a .| x))
  | Some BPF_S_ALU_OR_K => Next (set_A m (a .| K))
  | Some BPF_S_ALU_LSH_X => Next (set_A m (shl a x))
  | Some BPF_S_ALU_LSH_K => Next (set_A m (shl a K))
  | Some BPF_S_ALU_RSH_X => Next (set_A m (shr a x))
  | Some BPF_S_ALU_RSH_K => Next (set_A m (shr a K))
  | Some BPF_S_ALU_NEG => Next (set_A m (u32 (- a)))
  | Some BPF_S_JMP_JA => Next (skip m K)
  | Some BPF_S_JMP_JGT_K => jump f m (K <? a)
  | Some BPF_S_JMP_JGE_K => jump f m (K <=? a)
  | Some BPF_S_JMP_JEQ_K => jump f m (a =? K)
  | Some BPF_S_JMP_JSET_K => jump f m (negb (a .& K =? 0))
  | Some BPF_S_JMP_JGT_X => jump f m (x <? a)
  | Some BPF_S_JMP_JGE_X => jump f m (x <=? a)
  | Some BPF_S_JMP_JEQ_X => jump f m (a =? x)
  | Some BPF_S_JMP_JSET_X => jump f m (negb (a .& x =? 0))
  | Some BPF_S_LD_W_ABS => load_A skb (s32 K) 4 m
  | Some BPF_S_LD_H_ABS => load_A skb (s32 K) 2 m
  | Some BPF_S_LD_B_ABS => load_A skb (s32 K) 1 m
  | Some BPF_S_LD_W_LEN => Next (set_A m (skb_len skb))
  | Some BPF_S_LDX_W_LEN => Next (set_X m (skb_len skb))
  | Some BPF_S_LD_W_IND => load_A skb (s32 (u32 (x + K))) 4 m
  | Some BPF_S_LD_H_IND => load_A skb (s32 (u32 (x + K))) 2 m
  | Some BPF_S_LD_B_IND => load_A skb (s32 (u32 (x + K))) 1 m
  | Some BPF_S_LDX_B_MSH =>
      match load_pointer skb (s32 K) 1 with
      | Got (Some bytes) => Next (set_X m ((be_value bytes .& 0xf) .<< 2))
      | Got None => Return 0
      | Bad => Stuck
      end
  | Some BPF_S_LD_IMM => Next (set_A m K)
  | Some BPF_S_LDX_IMM => Next (set_X m K)
  | Some BPF_S_LD_MEM => match load_mem m K with Some v => Next (set_A m v) | None => Stuck end
  | Some BPF_S_LDX_MEM => match load_mem m K with Some v => Next (set_X m v) | None => Stuck end
  | Some BPF_S_MISC_TAX => Next (set_X m a)
  | Some BPF_S_MISC_TXA => Next (set_A m x)
  | Some BPF_S_RET_K => Return K
  | Some BPF_S_RET_A => Return a
  | Some BPF_S_ST => store_mem m K a
  | Some BPF_S_STX => store_mem m K x
  | Some c => run_ancillary skb c m
  | None => Return 0
  end.

(** The loop; [None] when the fuel is used up. *)
Fixpoint run_loop (fuel : nat) (skb : sk_buff) (prog : list sock_filter) (m : machine) : option outcome :=
  match fuel with
  | O => None
  | S fuel =>
      match (if 0 <=? pc m then prog !! Z.to_nat (pc m) else None) with
      | None => Some Stuck
      | Some f =>
          match run_insn skb f m with
          | Next m => run_loop fuel skb prog (skip m 1)
          | o => Some o
          end
      end
  end.

Definition init_machine : machine := mk_machine 0 0 (replicate 16 None) 0.

(** Every jump is forward, so one round per instruction is fuel enough. *)
Definition sk_run_filter (skb : sk_buff) (prog : list sock_filter) : option outcome :=
  run_loop (length prog) skb prog init_machine.

End run.

(** ** The checker *)

(** The table [codes] of [sk_chk_filter]; an index that is not listed holds 0. *)
Definition codes : list (Z * bpf_s) :=
  [(BPF_ALU .| BPF_ADD .| BPF_K, BPF_S_ALU_ADD_K);
   (BPF_ALU .| BPF_ADD .| BPF_X, BPF_S_ALU_ADD_X);
   (BPF_ALU .| BPF_SUB .| BPF_K, BPF_S_ALU_SUB_K);
   (BPF_ALU .| BPF_SUB .| BPF_X, BPF_S_ALU_SUB_X);
   (BPF_ALU .| BPF_MUL .| BPF_K, BPF_S_ALU_MUL_K);
   (BPF_ALU .| BPF_MUL .| BPF_X, BPF_S_ALU_MUL_X);
   (BPF_ALU .| BPF_DIV .| BPF_X, BPF_S_ALU_DIV_X);
   (BPF_ALU .| BPF_AND .| BPF_K, BPF_S_ALU_AND_K);
   (BPF_ALU .| BPF_AND .| BPF_X, BPF_S_ALU_AND_X);
   (BPF_ALU .| BPF_OR .| BPF_K, BPF_S_ALU_OR_K);
   (BPF_ALU .| BPF_OR .| BPF_X, BPF_S_ALU_OR_X);
   (BPF_ALU .| BPF_LSH .| BPF_K, BPF_S_ALU_LSH_K);
   (BPF_ALU .| BPF_LSH .| BPF_X, BPF_S_ALU_LSH_X);
   (BPF_ALU .| BPF_RSH .| BPF_K, BPF_S_ALU_RSH_K);
   (BPF_ALU .| BPF_RSH .| BPF_X, BPF_S_ALU_RSH_X);
   (BPF_ALU .| BPF_NEG, BPF_S_ALU_NEG);
   (BPF_LD .| BPF_W .| BPF_ABS, BPF_S_LD_W_ABS);
   (BPF_LD .| BPF_H .| BPF_ABS, BPF_S_LD_H_ABS);
   (BPF_LD .| BPF_B .| BPF_ABS, BPF_S_LD_B_ABS);
   (BPF_LD .| BPF_W .| BPF_LEN, BPF_S_LD_W_LEN);
   (BPF_LD .| BPF_W .| BPF_IND, BPF_S_LD_W_IND);
   (BPF_LD .| BPF_H .| BPF_IND, BPF_S_LD_H_IND);
   (BPF_LD .| BPF_B .| BPF_IND, BPF_S_LD_B_IND);
   (BPF_LD .| BPF_IMM, BPF_S_LD_IMM);
   (BPF_LDX .| BPF_W .| BPF_LEN, BPF_S_LDX_W_LEN);
   (BPF_LDX .| BPF_B .| BPF_MSH, BPF_S_LDX_B_MSH);
   (BPF_LDX .| BPF_IMM, BPF_S_LDX_IMM);
   (BPF_MISC .| BPF_TAX, BPF_S_MISC_TAX);
   (BPF_MISC .| BPF_TXA, BPF_S_MISC_TXA);
   (BPF_RET .| BPF_K, BPF_S_RET_K);
   (BPF_RET .| BPF_A, BPF_S_RET_A);
   (BPF_ALU .| BPF_DIV .| BPF_K, BPF_S_ALU_DIV_K);
   (BPF_LD .| BPF_MEM, BPF_S_LD_MEM);
   (BPF_LDX .| BPF_MEM, BPF_S_LDX_MEM);
   (BPF_ST, BPF_S_ST);
   (BPF_STX, BPF_S_STX);
   (BPF_JMP .| BPF_JA, BPF_S_JMP_JA);
   (BPF_JMP .| BPF_JEQ .| BPF_K, BPF_S_JMP_JEQ_K);
   (BPF_JMP .| BPF_JEQ .| BPF_X, BPF_S_JMP_JEQ_X);
   (BPF_JMP .| BPF_JGE .| BPF_K, BPF_S_JMP_JGE_K);
   (BPF_JMP .| BPF_JGE .| BPF_X, BPF_S_JMP_JGE_X);
   (BPF_JMP .| BPF_JGT .| BPF_K, BPF_S_JMP_JGT_K);
   (BPF_JMP .| BPF_JGT .| BPF_X, BPF_S_JMP_JGT_X);
   (BPF_JMP .| BPF_JSET .| BPF_K, BPF_S_JMP_JSET_K);
   (BPF_JMP .| BPF_JSET .| BPF_X, BPF_S_JMP_JSET_X)].

(** One more than the largest index. *)
Definition ARRAY_SIZE_codes : Z := (BPF_LDX .| BPF_B .| BPF_MSH) + 1.

Definition codes_at (c : Z) : option bpf_s := 
  match list_find (fun e => fst e = c) codes with Some (_, (_, s)) => Some s | None => None end.

(** The [ANCILLARY] cases: a load from [SKF_AD_OFF] on names ancillary data. *)
Definition ancillary (k : Z) : option bpf_s :=
  let at_ off := k =? u32 (SKF_AD_OFF + off) in
  if at_ SKF_AD_PROTOCOL then Some BPF_S_ANC_PROTOCOL
  else if at_ SKF_AD_PKTTYPE then Some BPF_S_ANC_PKTTYPE
  else if at_ SKF_AD_IFINDEX then Some BPF_S_ANC_IFINDEX
  else if at_ SKF_AD_NLATTR then Some BPF_S_ANC_NLATTR
  else if at_ SKF_AD_NLATTR_NEST then Some BPF_S_ANC_NLATTR_NEST
  else if at_ SKF_AD_MARK then Some BPF_S_ANC_MARK
  else if at_ SKF_AD_QUEUE then Some BPF_S_ANC_QUEUE
  else if at_ SKF_AD_HATYPE then Some BPF_S_ANC_HATYPE
  else if at_ SKF_AD_RXHASH then Some BPF_S_ANC_RXHASH
  else if at_ SKF_AD_CPU then Some BPF_S_ANC_CPU
  else None.

(** The check of the instruction at [pc] and the instruction it is rewritten to. *)
Definition check_insn (flen pc : Z) (ftest : sock_filter) : result sock_filter :=
  if ARRAY_SIZE_codes <=? code ftest then Err EINVAL
  else
    match codes_at (code ftest) with
    | None => Err EINVAL
    | Some c =>
        let ok := Ok (set_code ftest (bpf_s_val c)) in
        match c with
        | BPF_S_ALU_DIV_K =>
            if k ftest =? 0 then Err EINVAL
            else Ok (set_code (set_k ftest (reciprocal_value (k ftest))) (bpf_s_val c))
        | BPF_S_LD_MEM | BPF_S_LDX_MEM | BPF_S_ST | BPF_S_STX =>
            if BPF_MEMWORDS <=? k ftest then Err EINVAL else ok
        | BPF_S_JMP_JA => if u32 (flen - pc - 1) <=? k ftest then Err EINVAL else ok
        | BPF_S_JMP_JEQ_K | BPF_S_JMP_JEQ_X | BPF_S_JMP_JGE_K | BPF_S_JMP_JGE_X
        | BPF_S_JMP_JGT_K | BPF_S_JMP_JGT_X | BPF_S_JMP_JSET_X | BPF_S_JMP_JSET_K =>
            if (flen <=? pc + jt ftest + 1) || (flen <=? pc + jf ftest + 1) then Err EINVAL else ok
        | BPF_S_LD_W_ABS | BPF_S_LD_H_ABS | BPF_S_LD_B_ABS =>
            match ancillary (k ftest) with
            | Some a => Ok (set_code ftest (bpf_s_val a))
            | None => ok
            end
        | _ => ok
        end
    end.

(** The loop over the instructions from [pc] on. *)
Fixpoint check_insns (flen pc : Z) (l : list sock_filter) : result (list sock_filter) :=
  match l with
  | [] => Ok []
  | f :: l =>
      match check_insn flen pc f with
      | Err e => Err e
      | Ok f => match check_insns flen (pc + 1) l with Err e => Err e | Ok l => Ok (f :: l) end
      end
  end.

(** [masks[i] &= v]; the checks before bound [i]. *)
Definition mask_and (masks : list Z) (i v : Z) : list Z := alter (fun w => w .& v) (Z.to_nat i) masks.

(** The loop of [check_load_and_stores] from [pc] on. *)
Fixpoint check_cells (pc : Z) (l : list sock_filter) (masks : list Z) (memvalid : Z) : Z :=
  match l with
  | [] => 0
  | f :: l =>
      let memvalid := memvalid .& znth masks pc in
      match scode f with
      | Some BPF_S_ST | Some BPF_S_STX =>
          check_cells (pc + 1) l masks (u16 (memvalid .| (1 .<< k f)))
      | Some BPF_S_LD_MEM | Some BPF_S_LDX_MEM =>
          if memvalid .& (1 .<< k f) =? 0 then - EINVAL else check_cells (pc + 1) l masks memvalid
      | Some BPF_S_JMP_JA =>
          check_cells (pc + 1) l (mask_and masks (pc + 1 + k f) memvalid) 0xffff
      | Some BPF_S_JMP_JEQ_K | Some BPF_S_JMP_JEQ_X | Some BPF_S_JMP_JGE_K | Some BPF_S_JMP_JGE_X
      | Some BPF_S_JMP_JGT_K | Some BPF_S_JMP_JGT_X | Some BPF_S_JMP_JSET_X | Some BPF_S_JMP_JSET_K =>
          let masks := mask_and masks (pc + 1 + jt f) memvalid in
          let masks := mask_and masks (pc + 1 + jf f) memvalid in
          check_cells (pc + 1) l masks 0xffff
      | _ => check_cells (pc + 1) l masks memvalid
      end
  end.

(** [kmalloc_ok]: the array of masks could be allocated. *)
Definition check_load_and_stores (kmalloc_ok : bool) (filter : list sock_filter) (flen : Z) : Z :=
  if negb kmalloc_ok then - ENOMEM
  else check_cells 0 (take (Z.to_nat flen) filter) (replicate (Z.to_nat flen) 0xffff) 0.

(** The return value and the rewritten program; on an error the program is of no
    further use. *)
Definition sk_chk_filter (kmalloc_ok : bool) (filter : list sock_filter) (flen : Z) : Z * list sock_filter :=
  if (flen =? 0) || (BPF_MAXINSNS <? flen) then (- EINVAL, filter)
  else
    match check_insns flen 0 (take (Z.to_nat flen) filter) with
    | Err e => (- e, filter)
    | Ok prog =>
        match prog !! Z.to_nat (flen - 1) with
        | Some last =>
            match scode last with
            | Some BPF_S_RET_K | Some BPF_S_RET_A => (check_load_and_stores kmalloc_ok prog flen, prog)
            | _ => (- EINVAL, prog)
            end
        | None => (- EINVAL, prog)
        end
    end.

(** ** Filters of sockets *)

(** Filters live in a heap, with the number of references to each. *)
Record sk_filter := mk_sk_filter { refcnt : Z; flen : Z; insns : list sock_filter }.

Abbreviation filters := (gmap positive sk_filter).

Record sock := mk_sock { sk_filter_ptr : option positive; sk_omem_alloc : Z }.

(** The user's program: the length, and what can be read at the pointer, if it is
    not null; [None] inside is a fault. *)
Record sock_fprog := mk_fprog { fprog_len : Z; fprog_filter : option (option (list sock_filter)) }.

Section sockets.
(** The size of struct sk_filter and the limit on option memory. *)
Context (sizeof_sk_filter sysctl_optmem_max : Z).

Definition sizeof_sock_filter : Z := 8.

Definition sk_filter_len (fp : sk_filter) : Z := u32 (flen fp * sizeof_sock_filter + sizeof_sk_filter).

(** Whether the block was allocated, and the charged socket. *)
Definition sock_kmalloc (kmalloc_ok : bool) (sk : sock) (size : Z) : bool * sock :=
  if (u32 size <=? sysctl_optmem_max) && (sk_omem_alloc sk + size <? sysctl_optmem_max) && kmalloc_ok
  then (true, mk_sock (sk_filter_ptr sk) (sk_omem_alloc sk + size))
  else (false, sk).

Definition sock_kfree_s (sk : sock) (size : Z) : sock := mk_sock (sk_filter_ptr sk) (sk_omem_alloc sk - size).

(** Dropping the last reference frees the filter. *)
Definition sk_filter_release (h : filters) (l : positive) (fp : sk_filter) : filters :=
  if refcnt fp - 1 =? 0 then delete l h
  else <[l := mk_sk_filter (refcnt fp - 1) (flen fp) (insns fp)]> h.

Definition sk_filter_uncharge (h : filters) (sk : sock) (l : positive) (fp : sk_filter) : filters * sock :=
  (sk_filter_release h l fp, mk_sock (sk_filter_ptr sk) (sk_omem_alloc sk - sk_filter_len fp)).

Definition sk_filter_charge (h : filters) (sk : sock) (l : positive) (fp : sk_filter) : filters * sock :=
  (<[l := mk_sk_filter (refcnt fp + 1) (flen fp) (insns fp)]> h,
   mk_sock (sk_filter_ptr sk) (sk_omem_alloc sk + sk_filter_len fp)).

(** Releasing what the socket pointed to; a filter in use is in the heap. *)
Definition uncharge_ptr (h : filters) (sk : sock) (old : option positive) : filters * sock :=
  match old with
  | Some l => match h !! l with Some fp => sk_filter_uncharge h sk l fp | None => (h, sk) end
  | None => (h, sk)
  end.

(** [new] is the address the allocator returns. *)
Definition sk_attach_filter (kmalloc_ok masks_ok : bool) (new : positive) (fprog : sock_fprog)
    (h : filters) (sk : sock) : Z * filters * sock :=
  let fsize := u32 (sizeof_sock_filter * fprog_len fprog) in
  match fprog_filter fprog with
  | None => (- EINVAL, h, sk)
  | Some user =>
      match sock_kmalloc kmalloc_ok sk (fsize + sizeof_sk_filter) with
      | (false, sk) => (- ENOMEM, h, sk)
      | (true, sk) =>
          match user with
          | None => (- EFAULT, h, sock_kfree_s sk (fsize + sizeof_sk_filter))
          | Some prog =>
              let '(err, prog) := sk_chk_filter masks_ok prog (fprog_len fprog) in
              let fp := mk_sk_filter 1 (fprog_len fprog) prog in
              let h := <[new := fp]> h in
              if negb (err =? 0) then
                let '(h, sk) := sk_filter_uncharge h sk new fp in (err, h, sk)
              else
                let old := sk_filter_ptr sk in
                let sk := mk_sock (Some new) (sk_omem_alloc sk) in
                let '(h, sk) := uncharge_ptr h sk old in (0, h, sk)
          end
      end
  end.

Definition sk_detach_filter (h : filters) (sk : sock) : Z * filters * sock :=
  match sk_filter_ptr sk with
  | Some l =>
      let '(h, sk) := uncharge_ptr h (mk_sock None (sk_omem_alloc sk)) (Some l) in (0, h, sk)
  | None => (- ENOENT, h, sk)
  end.

(** [security] is the verdict of the security module, [run] the interpreter and
    [trim] the function __pskb_trim; a stuck program has no verdict. *)
Definition sk_filter_rcv (security : Z) (run : sk_buff -> list sock_filter -> option outcome)
    (trim : sk_buff -> Z -> Z) (h : filters) (sk : sock) (skb : sk_buff) : option Z :=
  if negb (security =? 0) then Some security
  else
    match sk_filter_ptr sk with
    | None => Some 0
    | Some l =>
        match h !! l with
        | None => None
        | Some fp =>
            match run skb (insns fp) with
            | Some (Return pkt_len) =>
                Some (if negb (pkt_len =? 0)
                      then (if pkt_len <? skb_len skb then trim skb pkt_len else 0)
                      else - EPERM)
            | _ => None
            end
        end
    end.

End sockets.

(** ** What a legal program is *)

(** How an instruction takes part in the control flow and the use of the cells. *)
Inductive flow : Type := FStore | FLoad | FJump | FBranch | FOther.

Definition flow_of (s : option bpf_s) : flow :=
  match s with
  | Some BPF_S_ST | Some BPF_S_STX => FStore
  | Some BPF_S_LD_MEM | Some BPF_S_LDX_MEM => FLoad
  | Some BPF_S_JMP_JA => FJump
  | Some BPF_S_JMP_JEQ_K | Some BPF_S_JMP_JEQ_X | Some BPF_S_JMP_JGE_K | Some BPF_S_JMP_JGE_X
  | Some BPF_S_JMP_JGT_K | Some BPF_S_JMP_JGT_X | Some BPF_S_JMP_JSET_X | Some BPF_S_JMP_JSET_K => FBranch
  | _ => FOther
  end.

(** The fields have the width of the C structure. *)
Record insn_wf (f : sock_filter) : Prop := {
  wf_code : 0 <= code f < 2 ^ 16;
  wf_jt : 0 <= jt f < 2 ^ 8;
  wf_jf : 0 <= jf f < 2 ^ 8;
  wf_k : 0 <= k f < 2 ^ 32
}.

(** The operands of an instruction with flow [fl] at [pc] are in range. *)
Definition operands_ok (flen pc : Z) (fl : flow) (f : sock_filter) : Prop :=
  match fl with
  | FStore | FLoad => k f < BPF_MEMWORDS
  | FJump => pc + 1 + k f < flen
  | FBranch => pc + 1 + jt f < flen /\ pc + 1 + jf f < flen
  | FOther => True
  end.

Definition legal_insn (flen pc : Z) (f : sock_filter) : Prop :=
  exists s, codes_at (code f) = Some s /\ operands_ok flen pc (flow_of (Some s)) f /\
            (s = BPF_S_ALU_DIV_K -> k f <> 0).

Section paths.
Context (fl : sock_filter -> flow) (prog : list sock_filter).

(** Where control can go from an instruction at [pc]; a return counts as going on. *)
Definition edges (f : sock_filter) (pc : Z) : list Z :=
  match fl f with
  | FJump => [pc + 1 + k f]
  | FBranch => [pc + 1 + jt f; pc + 1 + jf f]
  | _ => [pc + 1]
  end.

(** The cells written, as a bit mask, after an instruction. *)
Definition writes (f : sock_filter) (M : Z) : Z :=
  match fl f with FStore => M .| (1 .<< k f) | _ => M end.

(** A path of the program from its start leads to [pc] and has written [M]. *)
Inductive reach : Z -> Z -> Prop :=
| reach_start : reach 0 0
| reach_edge p M f q :
    reach p M -> 0 <= p -> prog !! Z.to_nat p = Some f -> q ∈ edges f p -> reach q (writes f M).

(** Every load of a cell is preceded by a store to it on every path. *)
Definition cells_written : Prop :=
  forall p M f, 0 <= p -> reach p M -> prog !! Z.to_nat p = Some f -> fl f = FLoad ->
  Z.testbit M (k f) = true.

End paths.

Definition raw_flow (f : sock_filter) : flow := flow_of (codes_at (code f)).
Definition sflow (f : sock_filter) : flow := flow_of (scode f).

(** The documented contract of [sk_chk_filter]: known codes, no reference or jump
    out of range, no division by a constant zero, a return at the end, and no
    cell read before it is written. *)
Record legal_program (prog : list sock_filter) : Prop := {
  legal_length : 1 <= zlen prog <= BPF_MAXINSNS;
  legal_insns : forall i f, prog !! i = Some f -> legal_insn (zlen prog) (Z.of_nat i) f;
  legal_last : exists f, prog !! (length prog - 1)%nat = Some f /\
    (codes_at (code f) = Some BPF_S_RET_K \/ codes_at (code f) = Some BPF_S_RET_A);
  legal_cells : cells_written raw_flow prog
}.

(** ** The checker decides it *)

Section checker.

Lemma bpf_s_of_val s : bpf_s_of (bpf_s_val s) = Some s.
Proof. by destruct s. Qed.

Lemma bpf_s_val_range s : 0 <= bpf_s_val s < 2 ^ 16.
Proof. by destruct s. Qed.

Lemma codes_at_small c s : codes_at c = Some s -> c < ARRAY_SIZE_codes.
Proof.
  unfold codes_at. destruct (list_find _ codes) as [[i [c' s']]|] eqn:E; [|done]. intros _.
  apply list_find_Some in E as (Hi & Hc & _). cbn in Hc. subst c'.
  assert (forallb (fun e => fst e <? ARRAY_SIZE_codes) codes = true) as Hall by by vm_compute.
  rewrite forallb_forall in Hall. apply list_elem_of_lookup_2, list_elem_of_In, Hall in Hi. cbn in Hi. lia.
Qed.

Definition is_ret (s : bpf_s) : bool := bool_decide (s = BPF_S_RET_K) || bool_decide (s = BPF_S_RET_A).

Lemma ancillary_other c a : ancillary c = Some a -> flow_of (Some a) = FOther /\ is_ret a = false.
Proof.
  unfold ancillary. intros E. repeat (destr_if_in E; [by inversion E|]). done.
Qed.

(** [f'] is the checked form of the legal instruction [f]. *)
Record checked (flen pc : Z) (f f' : sock_filter) : Prop := {
  ck_legal : legal_insn flen pc f;
  ck_wf : insn_wf f';
  ck_flow : sflow f' = raw_flow f;
  ck_operands : operands_ok flen pc (sflow f') f';
  ck_jt : jt f' = jt f;
  ck_jf : jf f' = jf f;
  ck_k : raw_flow f <> FOther -> k f' = k f;
  ck_ret : (is_ret <$> scode f') = (is_ret <$> codes_at (code f))
}.

Lemma checked_intro flen pc f s s' kk :
  insn_wf f -> codes_at (code f) = Some s -> flow_of (Some s') = flow_of (Some s) -> is_ret s' = is_ret s ->
  operands_ok flen pc (flow_of (Some s)) f -> (s = BPF_S_ALU_DIV_K -> k f <> 0) ->
  0 <= kk < 2 ^ 32 -> (flow_of (Some s) <> FOther -> kk = k f) ->
  checked flen pc f (mk_insn (bpf_s_val s') (jt f) (jf f) kk).
Proof.
  intros [] Hs Hfl Hret Hop Hdiv Hkk Hk.
  assert (scode (mk_insn (bpf_s_val s') (jt f) (jf f) kk) = Some s') as Hsc by apply bpf_s_of_val.
  constructor; unfold sflow, raw_flow; rewrite ?Hsc, ?Hs; try done.
  - by exists s.
  - constructor; try done. apply bpf_s_val_range.
  - rewrite Hfl. destruct (flow_of (Some s)) eqn:E; cbn in *; rewrite ?Hk by done; done.
  - cbn. by rewrite Hret.
Qed.

(** The rewritten instruction. *)
Lemma check_insn_spec flen pc f :
  insn_wf f -> 0 <= pc < flen -> flen <= BPF_MAXINSNS ->
  match check_insn flen pc f with
  | Ok f' => checked flen pc f f'
  | Err e => e = EINVAL /\ ~ legal_insn flen pc f
  end.
Proof.
  intros Hf Hpc Hlen. unfold check_insn. destruct (Z.leb_spec ARRAY_SIZE_codes (code f)) as [Hc|Hc].
  { split; [done|]. intros (s & Hs & _). apply codes_at_small in Hs. lia. }
  destruct (codes_at (code f)) as [s|] eqn:Es.
  2:{ split; [done|]. unfold legal_insn. rewrite Es. by intros (s & ? & _). }
  assert (forall P : Prop, (operands_ok flen pc (flow_of (Some s)) f /\ (s = BPF_S_ALU_DIV_K -> k f <> 0) -> P) ->
            legal_insn flen pc f -> P) as Hill.
  { intros P HP (s2 & Hs2 & ?). rewrite Es in Hs2. injection Hs2 as <-. by apply HP. }
  assert (forall s', flow_of (Some s') = flow_of (Some s) -> is_ret s' = is_ret s ->
            operands_ok flen pc (flow_of (Some s)) f -> (s = BPF_S_ALU_DIV_K -> k f <> 0) ->
            checked flen pc f (set_code f (bpf_s_val s'))) as Hok.
  { intros s' ? ? ? ?. apply (checked_intro flen pc f s); try done. apply wf_k, Hf. }
  pose proof (wf_k f Hf). unfold BPF_MAXINSNS in Hlen.
  destruct s; try (by apply Hok); cbn [flow_of operands_ok] in *.
  all: try (destruct (ancillary (k f)) as [a|] eqn:Ea; [apply ancillary_other in Ea as [? ?]|]; by apply Hok).
  all: rewrite ?u32_small by lia.
  all: match goal with |- context [if ?b then _ else _] => destruct b eqn:Eb end.
  all: try (split; [done|]; refine (Hill False _); unfold BPF_MEMWORDS in *; intros [? ?]; lia).
  all: try (apply Hok; unfold BPF_MEMWORDS in *; done || lia).
  - split; [done|]. refine (Hill False _). intros [_ Hk]. specialize (Hk eq_refl). lia.
  - apply (checked_intro flen pc f BPF_S_ALU_DIV_K); try done; [lia|apply u32_range].
Qed.

Lemma check_insns_spec flen pc l :
  Forall insn_wf l -> 0 <= pc -> pc + zlen l <= flen -> flen <= BPF_MAXINSNS ->
  match check_insns flen pc l with
  | Ok l' => length l' = length l /\ forall i f, l !! i = Some f ->
               exists f', l' !! i = Some f' /\ checked flen (pc + Z.of_nat i) f f'
  | Err e => e = EINVAL /\ exists i f, l !! i = Some f /\ ~ legal_insn flen (pc + Z.of_nat i) f
  end.
Proof.
  intros Hl. revert pc. induction Hl as [|f l Hf _ IH]; intros pc Hpc Hlen Hmax; cbn [check_insns]; [done|].
  cbn [length] in Hlen. pose proof (check_insn_spec flen pc f Hf ltac:(lia) Hmax) as Hck.
  destruct (check_insn flen pc f) as [f'|e].
  - specialize (IH (pc + 1) ltac:(lia) ltac:(lia) Hmax).
    assert (forall i, pc + 1 + Z.of_nat i = pc + Z.of_nat (S i)) as Ei by lia.
    destruct (check_insns flen (pc + 1) l) as [l'|e].
    + destruct IH as [Hl' IH]. split; [cbn; lia|]. intros [|i] g Hg; cbn in Hg.
      * injection Hg as <-. exists f'. by rewrite Z.add_0_r.
      * rewrite <- Ei. by apply IH.
    + destruct IH as [-> (i & g & Hg & Hn)]. split; [done|]. exists (S i), g. by rewrite <- Ei.
  - destruct Hck as [-> Hn]. split; [done|]. exists 0%nat, f. by rewrite Z.add_0_r.
Qed.

End checker.

(** ** The cell analysis is exact *)

Section cells.
Context (P : list sock_filter).

(** What the first pass leaves. *)
Definition prog_safe : Prop :=
  forall i f, P !! i = Some f -> insn_wf f /\ operands_ok (zlen P) (Z.of_nat i) (sflow f) f.

Hypothesis P_safe : prog_safe.

Lemma edges_forward p f q :
  0 <= p -> P !! Z.to_nat p = Some f -> q ∈ edges sflow f p -> p < q /\ (q < zlen P \/ q = p + 1).
Proof.
  intros Hp Hf. destruct (P_safe _ _ Hf) as [[] Hop]. rewrite Z2Nat.id in Hop by lia. unfold edges.
  rewrite list_elem_of_In. destruct (sflow f); cbn [operands_ok In] in *; intuition lia.
Qed.

(** Arrivals at [q] over edges from before [n]. *)
Definition arrives (n q M : Z) : Prop :=
  (q = 0 /\ M = 0) \/
  exists p M' f, reach sflow P p M' /\ 0 <= p < n /\ P !! Z.to_nat p = Some f /\
                 q ∈ edges sflow f p /\ M = writes sflow f M'.

Lemma arrives_reach q M : reach sflow P q M <-> arrives q q M.
Proof.
  split.
  - destruct 1 as [|p M f q Hr Hp Hf Hq]; [by left|]. right. exists p, M, f.
    pose proof (edges_forward p f q Hp Hf Hq). split_and!; done || lia.
  - intros [[-> ->]|(p & M' & f & Hr & Hp & Hf & Hq & ->)]; [constructor|]. apply (reach_edge _ _ p); done || lia.
Qed.

Lemma arrives_succ n f q M :
  0 <= n -> P !! Z.to_nat n = Some f ->
  arrives (n + 1) q M <->
  arrives n q M \/ (q ∈ edges sflow f n /\ exists M', reach sflow P n M' /\ M = writes sflow f M').
Proof.
  intros Hn Hf. split.
  - intros [?|(p & M' & g & Hr & Hp & Hg & Hq & ->)]; [by left; left|].
    destruct (decide (p = n)) as [->|].
    + rewrite Hf in Hg. injection Hg as <-. right. split; [done|]. by exists M'.
    + left. right. exists p, M', g. split_and!; done || lia.
  - intros [[?|(p & M' & g & ? & ? & ? & ? & ->)]|(Hq & M' & Hr & ->)]; [by left|right..].
    + exists p, M', g. split_and!; done || lia.
    + exists n, M', f. split_and!; done || lia.
Qed.

(** The mask the loop has for an instruction not before [n]: a bit is set when all
    arrivals have written the cell. *)
Definition mask_exact (n : Z) (cur : Z -> Z) : Prop :=
  forall q i, n <= q < zlen P -> 0 <= i < 16 ->
  Z.testbit (cur q) i = true <-> forall M, arrives n q M -> Z.testbit M i = true.

Definition cur_mask (n memvalid : Z) (masks : list Z) (q : Z) : Z :=
  if q =? n then memvalid .& znth masks q else znth masks q.

(** The mask after the instruction at [n], and its meet into the targets. *)
Lemma mask_exact_step n f cur cur' :
  0 <= n < zlen P -> P !! Z.to_nat n = Some f -> mask_exact n cur ->
  (forall q, n < q < zlen P -> forall i, 0 <= i < 16 ->
     Z.testbit (cur' q) i =
       Z.testbit (cur q) i && (if bool_decide (q ∈ edges sflow f n) then Z.testbit (writes sflow f (cur n)) i else true)) ->
  mask_exact (n + 1) cur'.
Proof.
  intros Hn Hf Hcur Hcur' q i Hq Hi. rewrite Hcur', andb_true_iff, (Hcur q i) by lia.
  pose proof (Hcur n i ltac:(lia) Hi) as Hself. destruct (P_safe _ _ Hf) as [[] Hop].
  assert (Z.testbit (writes sflow f (cur n)) i = true <->
          forall M', reach sflow P n M' -> Z.testbit (writes sflow f M') i = true) as Hw.
  { unfold writes. destruct (sflow f) eqn:E; cbn [operands_ok] in Hop.
    2-5: setoid_rewrite arrives_reach; apply Hself.
    setoid_rewrite Z.lor_spec. rewrite Z.shiftl_1_l, Z.pow2_bits_eqb by lia.
    destruct (k f =? i); [setoid_rewrite orb_true_r; done|]. setoid_rewrite orb_false_r.
    setoid_rewrite arrives_reach. apply Hself. }
  setoid_rewrite (arrives_succ n f) ; [|lia|done].
  destruct (bool_decide_reflect (q ∈ edges sflow f n)) as [Hin|Hin].
  - rewrite Hw. naive_solver.
  - naive_solver.
Qed.

Lemma check_cells_cons n f l masks memvalid :
  check_cells n (f :: l) masks memvalid =
  let mv := memvalid .& znth masks n in
  match sflow f with
  | FStore => check_cells (n + 1) l masks (u16 (mv .| (1 .<< k f)))
  | FLoad => if mv .& (1 .<< k f) =? 0 then - EINVAL else check_cells (n + 1) l masks mv
  | FJump => check_cells (n + 1) l (mask_and masks (n + 1 + k f) mv) 0xffff
  | FBranch =>
      check_cells (n + 1) l (mask_and (mask_and masks (n + 1 + jt f) mv) (n + 1 + jf f) mv) 0xffff
  | FOther => check_cells (n + 1) l masks mv
  end.
Proof. unfold sflow. cbn [check_cells]. by destruct (scode f) as [[]|]. Qed.

Lemma znth_mask_and masks i v q :
  0 <= i -> 0 <= q < zlen masks ->
  znth (mask_and masks i v) q = if q =? i then znth masks q .& v else znth masks q.
Proof.
  intros Hi Hq. unfold znth, mask_and. rewrite list_lookup_alter.
  destruct (Z.eqb_spec q i) as [->|Hne].
  - rewrite decide_True by done. by destruct (lookup_lt_is_Some_2 masks (Z.to_nat i) ltac:(lia)) as [w ->].
  - by rewrite decide_False by lia.
Qed.

Lemma length_mask_and masks i v : length (mask_and masks i v) = length masks.
Proof. apply length_alter. Qed.

Lemma testbit_ffff i : 0 <= i < 16 -> Z.testbit 0xffff i = true.
Proof. intros Hi. change 0xffff with (Z.ones 16). apply Z.ones_spec_low. lia. Qed.

Lemma testbit_u16 x i : 0 <= i < 16 -> Z.testbit (u16 x) i = Z.testbit x i.
Proof. intros Hi. apply Z.mod_pow2_bits_low. lia. Qed.

(** The loop's variables after the instruction at [n]. *)
Definition masks_next (n : Z) (f : sock_filter) (masks : list Z) (memvalid : Z) (masks' : list Z) (memvalid' : Z) : Prop :=
  let mv := memvalid .& znth masks n in
  match sflow f with
  | FStore => masks' = masks /\ memvalid' = u16 (mv .| (1 .<< k f))
  | FJump => masks' = mask_and masks (n + 1 + k f) mv /\ memvalid' = 0xffff
  | FBranch => masks' = mask_and (mask_and masks (n + 1 + jt f) mv) (n + 1 + jf f) mv /\ memvalid' = 0xffff
  | _ => masks' = masks /\ memvalid' = mv
  end.

(** The masks after the instruction at [n] are what [mask_exact_step] asks for. *)
Lemma next_masks n f masks memvalid masks' memvalid' q i :
  0 <= n < q -> q < zlen P -> zlen masks = zlen P -> insn_wf f -> 0 <= i < 16 ->
  masks_next n f masks memvalid masks' memvalid' ->
  Z.testbit (cur_mask (n + 1) memvalid' masks' q) i =
    Z.testbit (cur_mask n memvalid masks q) i &&
    (if bool_decide (q ∈ edges sflow f n)
     then Z.testbit (writes sflow f (cur_mask n memvalid masks n)) i else true).
Proof.
  intros Hn Hq Hlen [] Hi Hm. unfold masks_next in Hm. unfold cur_mask, edges, writes. cbn zeta in Hm.
  rewrite Z.eqb_refl. replace (q =? n) with false by lia.
  set (mv := memvalid .& znth masks n) in *.
  destruct (sflow f); destruct Hm as [-> ->];
    rewrite ?znth_mask_and by (rewrite ?length_mask_and; lia);
    repeat case_bool_decide; repeat destr_if; set_unfold;
    rewrite ?Z.land_spec, ?testbit_u16, ?testbit_ffff by lia;
    rewrite ?andb_true_l, ?andb_true_r; try lia; try tauto.
  all: repeat match goal with |- context [Z.testbit ?x ?y] => destruct (Z.testbit x y) end; done.
Qed.

Lemma land_pow2_zero x i : 0 <= i -> (x .& (1 .<< i) =? 0) = negb (Z.testbit x i).
Proof.
  intros Hi. rewrite Z.shiftl_1_l. destruct (Z.testbit x i) eqn:E; cbn [negb].
  - apply Z.eqb_neq. intros E0. assert (Z.testbit (x .& 2 ^ i) i = true) as Ht
      by (rewrite Z.land_spec, E, Z.pow2_bits_true; done).
    by rewrite E0, Z.bits_0 in Ht.
  - apply Z.eqb_eq, Z.bits_inj'. intros j Hj. rewrite Z.land_spec, Z.bits_0, Z.pow2_bits_eqb by lia.
    destruct (Z.eqb_spec i j) as [->|]; [by rewrite E|]. by rewrite andb_false_r.
Qed.

(** Loads from [n] on are preceded by stores. *)
Definition cells_written_from (n : Z) : Prop :=
  forall p M f, n <= p -> reach sflow P p M -> P !! Z.to_nat p = Some f -> sflow f = FLoad ->
  Z.testbit M (k f) = true.

Lemma cells_written_cons n f :
  0 <= n -> P !! Z.to_nat n = Some f ->
  cells_written_from n <->
  (sflow f = FLoad -> forall M, reach sflow P n M -> Z.testbit M (k f) = true) /\ cells_written_from (n + 1).
Proof.
  intros Hn Hf. split.
  - intros Hc. split; [intros Hl M HM; by apply (Hc n M f)|]. intros p M g Hp. apply Hc. lia.
  - intros [H1 H2] p M g Hp HM Hg Hl. destruct (decide (p = n)) as [->|]; [|apply (H2 p M g); done || lia].
    rewrite Hf in Hg. injection Hg as <-. by apply H1.
Qed.

Lemma check_cells_exact l n masks memvalid :
  0 <= n -> l = drop (Z.to_nat n) P -> zlen masks = zlen P -> mask_exact n (cur_mask n memvalid masks) ->
  (check_cells n l masks memvalid = 0 \/ check_cells n l masks memvalid = - EINVAL) /\
  (check_cells n l masks memvalid = 0 <-> cells_written_from n).
Proof.
  revert n masks memvalid. induction l as [|f l IH]; intros n masks memvalid Hn Hl Hlen Hm.
  - split; [by left|]. split; [|done]. intros _ p M f Hp _ Hf _. apply lookup_lt_Some in Hf.
    assert (length (drop (Z.to_nat n) P) = 0%nat) as Hd by by rewrite <- Hl. rewrite length_drop in Hd. lia.
  - assert (P !! Z.to_nat n = Some f) as Hf
      by (rewrite <- (Nat.add_0_r (Z.to_nat n)), <- lookup_drop, <- Hl; done).
    assert (l = drop (Z.to_nat (n + 1)) P) as Hl'
      by (rewrite Z2Nat.inj_add, <- drop_drop, <- Hl by lia; done).
    pose proof (lookup_lt_Some _ _ _ Hf). destruct (P_safe _ _ Hf) as [Hwf Hop].
    assert (forall masks' memvalid', zlen masks' = zlen P -> masks_next n f masks memvalid masks' memvalid' ->
      (check_cells (n + 1) l masks' memvalid' = 0 \/ check_cells (n + 1) l masks' memvalid' = - EINVAL) /\
      (check_cells (n + 1) l masks' memvalid' = 0 <-> cells_written_from (n + 1))) as Hgo.
    { intros masks' memvalid' Hlen' Hnext. apply IH; try done; [lia|].
      apply (mask_exact_step n f (cur_mask n memvalid masks)); [lia|done|done|].
      intros q Hq i Hi. apply next_masks; done || lia. }
    rewrite (cells_written_cons n f) by done. rewrite check_cells_cons. cbn zeta.
    unfold masks_next in Hgo. rewrite ?length_mask_and in Hgo.
    destruct (sflow f) eqn:Ef; cbn [operands_ok] in Hop.
    2:{ destruct Hwf. rewrite land_pow2_zero by lia.
        specialize (Hm n (k f) ltac:(lia) ltac:(unfold BPF_MEMWORDS in Hop; lia)).
        unfold cur_mask in Hm. rewrite Z.eqb_refl in Hm. setoid_rewrite <- arrives_reach in Hm.
        destruct (Z.testbit _ (k f)) eqn:Et; cbn [negb].
        - destruct (Hgo masks (memvalid .& znth masks n)) as [H1 H2]; [done..|].
          split; [exact H1|]. rewrite H2. split; [|by intros [_ ?]]. intros Hc. split; [|done]. intros _. by apply Hm.
        - split; [by right|]. split; [done|]. intros [Hc _]. apply Hm in Hc; done. }
    all: match goal with |- context [check_cells _ _ ?m ?v] => destruct (Hgo m v) as [H1 H2] end;
      rewrite ?length_mask_and; try done; (split; [exact H1|]; rewrite H2; split; [done|by intros [_ ?]]).
Qed.

End cells.

Section verdict.

(** What the interpreter relies on. *)
Record accepted (P : list sock_filter) : Prop := {
  acc_safe : prog_safe P;
  acc_last : exists f, P !! (length P - 1)%nat = Some f /\ (is_ret <$> scode f) = Some true;
  acc_cells : cells_written sflow P
}.

(** Paths depend on the edges and the stores only. *)
Lemma reach_transfer fl P fl' P' p M :
  (forall i f, P !! i = Some f -> exists f', P' !! i = Some f' /\
     (forall q, edges fl f q = edges fl' f' q) /\ (forall N, writes fl f N = writes fl' f' N)) ->
  reach fl P p M -> reach fl' P' p M.
Proof.
  intros HP. induction 1 as [|p M f q Hr IH Hp Hf Hq]; [constructor|].
  destruct (HP _ _ Hf) as (f' & Hf' & He & Hw). rewrite Hw. rewrite He in Hq. by apply (reach_edge _ _ p).
Qed.

Lemma checked_same flen pc f f' : checked flen pc f f' ->
  (forall q, edges raw_flow f q = edges sflow f' q) /\ (forall N, writes raw_flow f N = writes sflow f' N).
Proof.
  intros [_ _ Hfl _ Hjt Hjf Hk _]. unfold edges, writes. rewrite Hfl, Hjt, Hjf.
  destruct (raw_flow f); split; intros; rewrite ?Hk by done; done.
Qed.

Lemma checked_cells flen prog P :
  length P = length prog ->
  (forall i f, prog !! i = Some f -> exists f', P !! i = Some f' /\ checked flen (0 + Z.of_nat i) f f') ->
  cells_written raw_flow prog <-> cells_written sflow P.
Proof.
  intros Hlen Hck.
  assert (forall i f', P !! i = Some f' -> exists f, prog !! i = Some f /\ checked flen (0 + Z.of_nat i) f f') as Hck'.
  { intros i f' Hf'. destruct (lookup_lt_is_Some_2 prog i) as [f Hf];
      [rewrite <- Hlen; by eapply lookup_lt_Some|]. destruct (Hck i f Hf) as (f2 & Hf2 & ?).
    rewrite Hf' in Hf2. injection Hf2 as <-. by exists f. }
  assert (forall p M, reach raw_flow prog p M <-> reach sflow P p M) as Hreach.
  { split; apply reach_transfer; intros i f Hf.
    - destruct (Hck i f Hf) as (f' & Hf' & Hc). exists f'. split; [done|]. by apply (checked_same flen (0 + Z.of_nat i)).
    - destruct (Hck' i f Hf) as (f' & Hf' & Hc). exists f'. split; [done|].
      destruct (checked_same _ _ _ _ Hc) as [He Hw]. split; intros; [by rewrite He|by rewrite Hw]. }
  split; intros Hc p M f Hp HM Hf Hl; apply Hreach in HM.
  - destruct (Hck' _ _ Hf) as (g & Hg & Hchk). destruct Hchk as [_ _ Hfl _ _ _ Hk _].
    rewrite Hk by (rewrite <- Hfl, Hl; done). apply (Hc p M g Hp HM Hg). by rewrite <- Hfl.
  - destruct (Hck _ _ Hf) as (g & Hg & Hchk). destruct Hchk as [_ _ Hfl _ _ _ Hk _].
    rewrite <- Hk by (rewrite Hl; done). apply (Hc p M g Hp HM Hg). by rewrite Hfl.
Qed.

Lemma match_ret {T : Type} (s : option bpf_s) (x y : T) :
  match s with Some BPF_S_RET_K | Some BPF_S_RET_A => x | _ => y end =
  if bool_decide ((is_ret <$> s) = Some true) then x else y.
Proof. by destruct s as [[]|]. Qed.

Lemma is_ret_spec s :
  (is_ret <$> s) = Some true <-> s = Some BPF_S_RET_K \/ s = Some BPF_S_RET_A.
Proof. destruct s as [[]|]; cbn; naive_solver. Qed.

(** At the start of the analysis nothing is written and nothing is known of later
    instructions. *)
Lemma mask_exact_init P : mask_exact P 0 (cur_mask 0 0 (replicate (length P) 0xffff)).
Proof.
  intros q i Hq Hi. unfold cur_mask. destruct (Z.eqb_spec q 0) as [->|Hne].
  - rewrite Z.land_0_l, Z.bits_0. split; [done|]. intros HM.
    specialize (HM 0 (or_introl (conj eq_refl eq_refl))). by rewrite Z.bits_0 in HM.
  - unfold znth. rewrite lookup_replicate_2 by lia. cbn [default]. rewrite testbit_ffff by done.
    split; [|done]. intros _ M [[? _]|(p & ? & ? & _ & Hp & _)]; lia.
Qed.

Lemma chk_spec prog :
  Forall insn_wf prog ->
  let '(ret, P) := sk_chk_filter true prog (zlen prog) in
  (ret = 0 /\ legal_program prog /\ accepted P /\ length P = length prog) \/
  (ret = - EINVAL /\ ~ legal_program prog).
Proof.
  intros Hwf. unfold sk_chk_filter. rewrite Nat2Z.id, firstn_all.
  destruct ((zlen prog =? 0) || (BPF_MAXINSNS <? zlen prog)) eqn:El.
  { right. split; [done|]. intros [[] _ _ _]. lia. }
  assert (0 < zlen prog <= BPF_MAXINSNS) as Hlen by lia. clear El.
  pose proof (check_insns_spec (zlen prog) 0 prog Hwf ltac:(lia) ltac:(lia) ltac:(lia)) as Hck.
  destruct (check_insns (zlen prog) 0 prog) as [P|e].
  2:{ destruct Hck as [-> (i & f & Hf & Hn)]. right. split; [done|]. intros [_ Hl _ _]. by apply Hn, Hl. }
  destruct Hck as [HPlen Hck].
  assert (prog_safe P) as Hsafe.
  { intros i f' Hf'. destruct (lookup_lt_is_Some_2 prog i) as [f Hf];
      [rewrite <- HPlen; by eapply lookup_lt_Some|]. destruct (Hck i f Hf) as (f2 & Hf2 & Hchk).
    rewrite Hf' in Hf2. injection Hf2 as <-. rewrite HPlen. split; apply Hchk. }
  replace (Z.to_nat (zlen prog - 1)) with (length prog - 1)%nat by lia.
  destruct (lookup_lt_is_Some_2 prog (length prog - 1)%nat ltac:(lia)) as [fl Hfl].
  destruct (Hck _ _ Hfl) as (fl' & Hfl' & Hlast). rewrite Hfl', match_ret.
  assert ((is_ret <$> scode fl') = (is_ret <$> codes_at (code fl))) as Hret by apply Hlast.
  case_bool_decide as Hr.
  2:{ right. split; [done|]. intros [_ _ (f & Hf & Hc) _]. rewrite Hfl in Hf. injection Hf as <-.
      apply Hr. rewrite Hret. by apply is_ret_spec. }
  unfold check_load_and_stores. cbn [negb]. rewrite Nat2Z.id, <- HPlen, firstn_all.
  destruct (check_cells_exact P Hsafe P 0 (replicate (length P) 0xffff) 0) as [Hor Hiff];
    [done|by rewrite drop_0|by rewrite length_replicate|apply mask_exact_init|].
  pose proof (checked_cells (zlen prog) prog P HPlen Hck) as Hcells.
  assert (cells_written_from P 0 <-> cells_written sflow P) as Hfrom by (split; intros Hc p M f; naive_solver).
  destruct Hor as [E|E]; rewrite E in Hiff |- *; [left|right].
  - assert (cells_written sflow P) as Hc by (apply Hfrom, Hiff; done).
    split_and!; try done; constructor; try done.
    + lia.
    + intros i f Hf. destruct (Hck i f Hf) as (? & _ & Hchk). apply Hchk.
    + exists fl. split; [done|]. by rewrite <- is_ret_spec, <- Hret.
    + by apply Hcells.
    + exists fl'. by rewrite HPlen.
  - split; [done|]. intros [_ _ _ Hc]. apply Hcells, Hfrom, Hiff in Hc. done.
Qed.

End verdict.

(** C11. [sk_chk_filter] accepts exactly the legal programs and answers -EINVAL to all
    others: known codes, operands and jumps in range, no division by a constant
    zero, a return at the end, and on every path each scratch cell written before
    it is read (a return counting as a fall-through). *)
Theorem sk_chk_filter_exact prog :
  Forall insn_wf prog ->
  let '(ret, _) := sk_chk_filter true prog (zlen prog) in
  (ret = 0 \/ ret = - EINVAL) /\ (ret = 0 <-> legal_program prog).
Proof.
  intros Hwf. pose proof (chk_spec prog Hwf) as Hs. destruct (sk_chk_filter true prog (zlen prog)) as [ret P].
  destruct Hs as [(-> & ? & _)|[-> ?]]; split; try naive_solver; split; done.
Qed.

(** ** Checked programs run safely *)

Section safety.
Context `{LongWidth} (big_endian : bool) (cpu : Z) (shl shr : Z -> Z -> Z).
(** The machine's shifts give 32-bit words. *)
Hypothesis shl_ok : forall a n, 0 <= shl a n < 2 ^ 32.
Hypothesis shr_ok : forall a n, 0 <= shr a n < 2 ^ 32.
Hypothesis cpu_ok : 0 <= cpu < 2 ^ 32.

(** The ancillary fields have their widths. *)
Record meta_ok (skb : sk_buff) : Prop := {
  ok_protocol : 0 <= protocol skb < 2 ^ 16;
  ok_pkt_type : 0 <= pkt_type skb < 2 ^ 32;
  ok_mark : 0 <= mark skb < 2 ^ 32;
  ok_queue : 0 <= queue_mapping skb < 2 ^ 32;
  ok_rxhash : 0 <= rxhash skb < 2 ^ 32;
  ok_dev : forall d, dev skb = Some d -> 0 <= dev_type d < 2 ^ 32
}.

Record regs_ok (m : machine) : Prop := {
  ok_A : 0 <= A m < 2 ^ 32;
  ok_X : 0 <= X m < 2 ^ 32;
  ok_cells : length (mem m) = 16%nat;
  ok_values : forall i v, mem m !! i = Some (Some v) -> 0 <= v < 2 ^ 32
}.

(** A good outcome of the instruction [f] in the state [m]. *)
Definition good (f : sock_filter) (m : machine) (o : outcome) : Prop :=
  match o with
  | Stuck => False
  | Return v => 0 <= v < 2 ^ 32
  | Next m' =>
      regs_ok m' /\ pc m' + 1 ∈ edges sflow f (pc m) /\
      match sflow f with
      | FStore => exists v, mem m' = <[Z.to_nat (k f) := Some v]> (mem m)
      | _ => mem m' = mem m
      end
  end.

Lemma be_value_range bytes :
  Forall is_byte bytes -> 0 <= be_value bytes < 256 ^ zlen bytes.
Proof.
  intros Hb. unfold be_value.
  assert (forall acc, 0 <= acc -> 0 <= foldl (fun acc b => acc * 256 + b) acc bytes < (acc + 1) * 256 ^ zlen bytes) as Hgen.
  { induction Hb as [|b l Hb _ IH]; intros acc Hacc; cbn [foldl].
    - cbn [length]. rewrite Z.pow_0_r. lia.
    - unfold is_byte in Hb. specialize (IH (acc * 256 + b) ltac:(lia)). cbn [length].
      rewrite Nat2Z.inj_succ, Z.pow_succ_r by lia.
      assert (0 < 256 ^ zlen l) by (apply Z.pow_pos_nonneg; lia). nia. }
  specialize (Hgen 0 ltac:(lia)). lia.
Qed.

Lemma load_pointer_value skb kk size :
  wf_skb skb -> - 2 ^ 31 <= kk < 2 ^ 31 -> 0 < size <= 4 ->
  exists r, load_pointer skb kk size = Got r /\ forall bytes, r = Some bytes -> 0 <= be_value bytes < 2 ^ (8 * size).
Proof.
  intros Hw Hk Hs.
  assert (exists r, load_pointer skb kk size = Got r /\ forall bytes, r = Some bytes -> Forall is_byte bytes /\ zlen bytes = size) as (r & Hr & Hb).
  { unfold load_pointer. destr_if.
    - rewrite header_pointer_packet by (done || lia). eexists. split; [done|]. intros bytes Hl. destr_if_in Hl; [|done].
      injection Hl as <-. split; [by apply slice_bytes, packet_bytes|]. apply zlen_slice; lia.
    - unfold __load_pointer. destruct (if SKF_NET_OFF <=? kk then _ else _) as [ptr|]; [|by exists None].
      destruct ((0 <=? ptr) && (ptr + size <=? tail skb)) eqn:E; [|by exists None].
      rewrite read_in by lia. eexists. split; [done|]. intros bytes [= <-].
      destruct Hw as [skb ? ? ? _ _ _ _ _]. split; [by apply slice_bytes|]. apply zlen_slice; lia. }
  exists r. split; [done|]. intros bytes ->. destruct (Hb bytes eq_refl) as [Hbytes Hz].
  pose proof (be_value_range bytes Hbytes) as Hv. rewrite Hz in Hv.
  replace (2 ^ (8 * size)) with (256 ^ size); [done|]. rewrite Z.pow_mul_r by lia. done.
Qed.

Lemma good_set_A f m v :
  regs_ok m -> sflow f = FOther \/ sflow f = FLoad -> 0 <= v < 2 ^ 32 -> good f m (Next (set_A m v)).
Proof.
  intros [] Hf Hv. split; [by constructor|]. unfold edges. cbn [pc set_A mem].
  destruct Hf as [-> | ->]; (split; [set_solver|done]).
Qed.

Lemma good_set_X f m v :
  regs_ok m -> sflow f = FOther \/ sflow f = FLoad -> 0 <= v < 2 ^ 32 -> good f m (Next (set_X m v)).
Proof.
  intros [] Hf Hv. split; [by constructor|]. unfold edges. cbn [pc set_X mem].
  destruct Hf as [-> | ->]; (split; [set_solver|done]).
Qed.

Lemma good_jump f m c : regs_ok m -> sflow f = FBranch -> good f m (jump f m c).
Proof.
  intros [] Hf. split; [by constructor|]. unfold edges. rewrite Hf. split; [|done].
  cbn [pc skip]. rewrite list_elem_of_In. destruct c; cbn [In]; lia.
Qed.

Lemma good_store f m v :
  regs_ok m -> insn_wf f -> sflow f = FStore -> k f < BPF_MEMWORDS -> 0 <= v < 2 ^ 32 ->
  good f m (store_mem m (k f) v).
Proof.
  intros [] [] Hf Hk Hv. unfold store_mem, BPF_MEMWORDS in *. replace ((0 <=? k f) && (k f <? 16)) with true by lia.
  unfold good, edges. rewrite Hf. split; [|split; [set_solver|by eexists]].
  constructor; cbn; try done; [by rewrite length_insert|].
  intros i w Hw. apply list_lookup_insert_Some in Hw as [(_ & [= ->] & _)|[_ ?]]; eauto.
Qed.

Lemma good_load_A skb f m kk size :
  wf_skb skb -> regs_ok m -> sflow f = FOther -> - 2 ^ 31 <= kk < 2 ^ 31 -> size = 1 \/ size = 2 \/ size = 4 ->
  good f m (load_A skb kk size m).
Proof.
  intros Hw Hm Hf Hk Hs. unfold load_A. destruct (load_pointer_value skb kk size Hw Hk ltac:(lia)) as ([bytes|] & -> & E); [|done].
  specialize (E bytes eq_refl). apply good_set_A; [done|by left|].
  destruct Hs as [-> |[-> | ->]]; cbn in E; lia.
Qed.

Lemma linear_skb skb : wf_skb skb -> skb_is_nonlinear skb = false -> tail skb - skb_data skb = skb_len skb.
Proof.
  intros Hw Hl. unfold skb_is_nonlinear in Hl. destruct (wf_linear skb Hw) as (<- & _ & Hp & -> & _).
  destruct Hw as [skb _ _ _ _ _ _ Hd _]. rewrite Hp, length_app. lia.
Qed.

(** The attribute search is safe when a header fits the packet. *)
Lemma good_nlattr skb f m :
  wf_skb skb -> 4 <= skb_len skb -> regs_ok m -> sflow f = FOther -> good f m (run_nlattr big_endian skb m).
Proof.
  intros Hw H4 Hm Hf. destruct (wf_linear skb Hw) as (_ & _ & _ & _ & Hb). pose proof (ok_A m Hm).
  unfold run_nlattr, sizeof_nlattr. destruct (skb_is_nonlinear skb) eqn:El; [done|].
  pose proof (linear_skb skb Hw El).
  assert (ulong (skb_len skb - 4) = skb_len skb - 4) as ->.
  { apply uwrap_small. split; [lia|]. eapply Z.lt_le_trans; [|apply (Z.pow_le_mono_r 2 32); [|pose proof bits_per_long_ok]; lia]. lia. }
  destruct (Z.ltb_spec (skb_len skb - 4) (A m)); [done|].
  rewrite u32_small, s32_small by (rewrite ?u32_small; lia).
  destruct (nla_find_safe big_endian skb (A m) (skb_len skb - A m) (s32 (X m)) Hw) as (r & -> & Hr); [lia..|].
  destruct r as [n|]; cbn [nla_result]; (apply good_set_A; [done|by left|]); [apply u32_range|lia].
Qed.

Lemma load_mem_written m i v :
  0 <= i < 16 -> mem m !! Z.to_nat i = Some (Some v) -> load_mem m i = Some v.
Proof. intros Hi Hv. unfold load_mem, BPF_MEMWORDS. replace ((0 <=? i) && (i <? 16)) with true by lia. by rewrite Hv. Qed.

Lemma ntohs_range x : 0 <= x < 2 ^ 16 -> 0 <= ntohs big_endian x < 2 ^ 32.
Proof. intros Hx. unfold ntohs. destruct big_endian; [lia|]. pose proof (Z.mod_pos_bound x 256). zdm. Qed.

(** The attribute searches that stay inside of the packet: none that is nested,
    and a plain one only in a packet of at least an attribute header. *)
Definition search_ok (skb : sk_buff) (f : sock_filter) : Prop :=
  scode f <> Some BPF_S_ANC_NLATTR_NEST /\ (scode f = Some BPF_S_ANC_NLATTR -> sizeof_nlattr <= skb_len skb).

(** Every instruction of a checked program has a good outcome. *)
Lemma run_insn_good skb f m :
  wf_skb skb -> meta_ok skb -> regs_ok m -> insn_wf f ->
  (forall flen, operands_ok flen (pc m) (sflow f) f -> search_ok skb f ->
  (sflow f = FLoad -> exists v, mem m !! Z.to_nat (k f) = Some (Some v)) ->
  good f m (run_insn big_endian cpu shl shr skb f m)).
Proof.
  intros Hw [] Hm Hf flen Hop [Hnest H4] Hload.
  pose proof (wf_k f Hf) as Hk. pose proof (ok_A m Hm) as HA. pose proof (ok_X m Hm) as HX.
  assert (forall x, - 2 ^ 31 <= s32 x < 2 ^ 31) as Hs32 by (intros; apply (swrap_range 32); lia).
  destruct (wf_linear skb Hw) as (_ & _ & _ & _ & Hlen).
  unfold run_insn, run_ancillary. unfold sflow in *. destruct (scode f) as [[]|] eqn:Es; try done; cbn [flow_of operands_ok] in *.
  all: try (apply good_load_A; [done|done|unfold sflow; by rewrite Es|apply Hs32|lia]).
  all: try (apply good_jump; [done|unfold sflow; by rewrite Es]).
  all: try (apply good_store; [done|done|unfold sflow; by rewrite Es|done|done]).
  (* the conditional results *)
  all: try match goal with
       | |- context [dev ?s] => destruct (dev s) as [d|] eqn:Ed; [specialize (ok_dev0 d eq_refl)|done]
       | |- context [X ?r =? 0] => destruct (Z.eqb_spec (X r) 0); [done|]
       | |- context [load_pointer ?s ?o 1] =>
           destruct (load_pointer_value s o 1 Hw (Hs32 _) ltac:(lia)) as ([bytes|] & -> & El); [|done];
           specialize (El bytes eq_refl)
       | |- context [load_mem _ _] =>
           destruct (Hload eq_refl) as [v Hv]; pose proof (ok_values m Hm _ _ Hv);
           rewrite (load_mem_written m (k f) v) by (done || unfold BPF_MEMWORDS in Hop; lia)
       end.
  (* the register assignments *)
  all: try (first [apply good_set_A | apply good_set_X]; [done|unfold sflow; rewrite Es; auto|];
            first [done | apply u32_range | apply shl_ok | apply shr_ok | by apply ntohs_range
                  | by apply land_bound; lia | by apply lor_bound; lia | lia | idtac]).
  - split; [apply Z.div_pos; lia|]. apply Z.div_lt_upper_bound; nia.
  - rewrite Z.shiftl_mul_pow2 by lia. change 0xf with (2 ^ 4 - 1). rewrite land_ones_mod by lia.
    pose proof (Z.mod_pos_bound (be_value bytes) (2 ^ 4)). lia.
  - split; [destruct Hm; by constructor|]. unfold edges, sflow. rewrite Es. cbn [flow_of pc skip mem].
    split; [|done]. rewrite list_elem_of_In. cbn [In]. lia.
  - apply good_nlattr; [done|by apply H4|done|]. unfold sflow. by rewrite Es.
Qed.

Definition searches_ok (skb : sk_buff) (P : list sock_filter) : Prop := Forall (search_ok skb) P.

Lemma init_regs_ok : regs_ok init_machine.
Proof.
  constructor; [cbn; lia|cbn; lia|done|]. intros i v Hi. by apply lookup_replicate_1 in Hi as [? _].
Qed.

(** The cells that a mask lists are written. *)
Definition cells_ok (m : machine) (M : Z) : Prop :=
  forall i, 0 <= i < 16 -> Z.testbit M i = true -> exists v, mem m !! Z.to_nat i = Some (Some v).

Lemma cells_ok_next f m m' M :
  insn_wf f -> operands_ok 0 0 (match sflow f with FStore => FStore | _ => FOther end) f ->
  length (mem m) = 16%nat -> cells_ok m M ->
  match sflow f with
  | FStore => exists v, mem m' = <[Z.to_nat (k f) := Some v]> (mem m)
  | _ => mem m' = mem m
  end -> cells_ok m' (writes sflow f M).
Proof.
  intros [] Hop Hlen Hc Hm i Hi. unfold writes. specialize (Hc i Hi).
  destruct (sflow f); try (rewrite Hm; exact Hc). destruct Hm as [v ->]. cbn [operands_ok] in Hop.
  rewrite Z.lor_spec, Z.shiftl_1_l, Z.pow2_bits_eqb by lia. unfold BPF_MEMWORDS in Hop.
  destruct (Z.eqb_spec (k f) i) as [<-|Hne].
  - intros _. exists v. apply list_lookup_insert_eq. lia.
  - rewrite orb_false_r. intros Ht. rewrite list_lookup_insert_ne by lia. by apply Hc.
Qed.

Lemma run_loop_ok skb P fuel m M :
  accepted P -> searches_ok skb P -> wf_skb skb -> meta_ok skb ->
  regs_ok m -> reach sflow P (pc m) M -> cells_ok m M -> 0 <= pc m < zlen P -> zlen P - pc m <= Z.of_nat fuel ->
  exists v, run_loop big_endian cpu shl shr fuel skb P m = Some (Return v) /\ 0 <= v < 2 ^ 32.
Proof.
  intros [Hsafe (fl & Hfl & Hret) Hcells] Hnest Hw Hmeta. revert m M.
  induction fuel as [|fuel IH]; intros m M Hm HM Hc Hpc Hfuel; [lia|]. cbn [run_loop].
  destruct (Z.leb_spec 0 (pc m)); [|lia].
  destruct (lookup_lt_is_Some_2 P (Z.to_nat (pc m)) ltac:(lia)) as [f Hf]. rewrite Hf.
  destruct (Hsafe _ _ Hf) as [Hwf Hop]. rewrite Z2Nat.id in Hop by lia.
  assert (good f m (run_insn big_endian cpu shl shr skb f m)) as Hgood.
  { apply (run_insn_good skb f m Hw Hmeta Hm Hwf (zlen P) Hop); [by eapply Forall_lookup_1|].
    intros Hl. destruct Hwf. rewrite Hl in Hop. cbn in Hop. unfold BPF_MEMWORDS in Hop.
    apply Hc; [lia|]. apply (Hcells (pc m) M f); done || lia. }
  destruct (run_insn big_endian cpu shl shr skb f m) as [m'|v|] eqn:Er; [|by exists v|done].
  destruct Hgood as (Hm' & Hq & Hmem).
  destruct (edges_forward P Hsafe (pc m) f (pc m' + 1) ltac:(lia) Hf Hq) as [Hfwd Hin].
  assert (pc m <> zlen P - 1) as Hnl.
  { intros E. rewrite E in Hf. replace (Z.to_nat (zlen P - 1)) with (length P - 1)%nat in Hf by lia.
    rewrite Hfl in Hf. injection Hf as <-. apply is_ret_spec in Hret.
    unfold run_insn in Er. by destruct Hret as [E2|E2]; rewrite E2 in Er. }
  apply (IH (skip m' 1) (writes sflow f M)); cbn [pc skip].
  - destruct Hm'. by constructor.
  - by apply (reach_edge _ _ (pc m)).
  - apply (cells_ok_next f m); try done; [|apply Hm]. by destruct (sflow f).
  - lia.
  - lia.
Qed.

(** C2. A program that [sk_chk_filter] accepts runs safely on every packet: it returns
    a 32-bit value within as many steps as it has instructions, never leaves the
    program, never reads an unwritten scratch cell or outside the scratch memory,
    and never reads outside of the packet's memory, whatever offsets it computes.
    Programs with the nested attribute search are excepted, and ones with the
    plain attribute search on packets shorter than an attribute header: for
    these the statement is false. *)
Theorem bpf_checked_program_safe prog P skb :
  Forall insn_wf prog -> sk_chk_filter true prog (zlen prog) = (0, P) -> searches_ok skb P ->
  wf_skb skb -> meta_ok skb ->
  exists v, sk_run_filter big_endian cpu shl shr skb P = Some (Return v) /\ 0 <= v < 2 ^ 32.
Proof.
  intros Hwf Hchk Hnest Hw Hmeta. pose proof (chk_spec prog Hwf) as Hs. rewrite Hchk in Hs.
  destruct Hs as [(_ & Hlegal & Hacc & Hlen)|[? _]]; [|done]. destruct Hlegal as [? _ _ _].
  apply (run_loop_ok skb P (length P) init_machine 0); try done; cbn [pc init_machine].
  - apply init_regs_ok.
  - constructor.
  - intros i _. by rewrite Z.bits_0.
  - lia.
  - lia.
Qed.

End safety.

(** [ld #5; st M[3]; ldx M[3]; ld [2]; jge x, 0, 1; ret a; ret #0]. *)
Definition demo_prog : list sock_filter :=
  [mk_insn (BPF_LD .| BPF_IMM) 0 0 5; mk_insn BPF_ST 0 0 3; mk_insn (BPF_LDX .| BPF_MEM) 0 0 3;
   mk_insn (BPF_LD .| BPF_W .| BPF_ABS) 0 0 2; mk_insn (BPF_JMP .| BPF_JGE .| BPF_X) 0 1 0;
   mk_insn (BPF_RET .| BPF_A) 0 0 0; mk_insn (BPF_RET .| BPF_K) 0 0 0].

Lemma demo_prog_wf : Forall insn_wf demo_prog.
Proof. do 7 (apply Forall_cons_2; [constructor; vm_compute; split; congruence|]). apply Forall_nil_2. Qed.

Lemma sk_chk_filter_exact_witness :
  (sk_chk_filter true demo_prog (zlen demo_prog)).1 = 0 /\ legal_program demo_prog.
Proof.
  split; [by vm_compute|]. pose proof (sk_chk_filter_exact demo_prog demo_prog_wf) as Hx.
  destruct (sk_chk_filter true demo_prog (zlen demo_prog)) as [ret P] eqn:E.
  apply Hx. apply (f_equal fst) in E. cbn in E. by vm_compute in E.
Defined.

Definition shl32 (a n : Z) : Z := u32 (a .<< (n mod 32)).
Definition shr32 (a n : Z) : Z := u32 (a .>> (n mod 32)).

Lemma skb_demo_meta : meta_ok skb_demo.
Proof. constructor; cbn; lia || done. Qed.

Lemma demo_searches_ok P : (sk_chk_filter true demo_prog (zlen demo_prog)).2 = P -> searches_ok skb_demo P.
Proof. intros <-. vm_compute (sk_chk_filter _ _ _). do 7 (apply Forall_cons_2; [split; [done|intros _; vm_compute; discriminate]|]). apply Forall_nil_2. Qed.

Lemma bpf_checked_program_safe_witness :
  exists v, sk_run_filter (H := long32) false 0 shl32 shr32 skb_demo
              (sk_chk_filter true demo_prog (zlen demo_prog)).2 = Some (Return v) /\ 0 <= v < 2 ^ 32.
Proof.
  apply (bpf_checked_program_safe (H := long32) false 0 shl32 shr32
           ltac:(intros; apply u32_range) ltac:(intros; apply u32_range) ltac:(lia) demo_prog).
  - exact demo_prog_wf.
  - by vm_compute.
  - exact (demo_searches_ok _ (eq_refl _)).
  - exact skb_demo_wf.
  - exact skb_demo_meta.
Defined.

(** ** Attached filters *)

Section attached.
Context (sizeof_sk_filter sysctl_optmem_max : Z).
Hypothesis sizeof_ok : 0 <= sizeof_sk_filter < 2 ^ 16.

Abbreviation flen_bytes := (sk_filter_len sizeof_sk_filter).

(** The memory charged to the socket is [base] and the attached filter, which is
    checked. *)
Record sock_inv (base : Z) (h : filters) (sk : sock) : Prop := {
  inv_charge : sk_omem_alloc sk =
    base + match sk_filter_ptr sk with
           | Some l => match h !! l with Some fp => flen_bytes fp | None => 0 end
           | None => 0
           end;
  inv_filter : forall l, sk_filter_ptr sk = Some l ->
    exists fp, h !! l = Some fp /\ accepted (insns fp) /\ 1 <= refcnt fp
}.

Definition fprog_ok (p : sock_fprog) : Prop :=
  0 <= fprog_len p < 2 ^ 16 /\
  forall prog, fprog_filter p = Some (Some prog) -> zlen prog = fprog_len p /\ Forall insn_wf prog.

Lemma chk_accepted masks_ok prog P :
  Forall insn_wf prog -> sk_chk_filter masks_ok prog (zlen prog) = (0, P) -> accepted P.
Proof.
  intros Hwf Hchk. destruct masks_ok.
  - pose proof (chk_spec prog Hwf) as Hs. rewrite Hchk in Hs. by destruct Hs as [(_ & _ & ? & _)|[? _]].
  - exfalso. unfold sk_chk_filter in Hchk. destruct (_ || _); [done|].
    destruct (check_insns _ _ _) as [Q|e] eqn:E.
    + destruct (Q !! _) as [f|]; [|done]. rewrite match_ret in Hchk. by case_bool_decide.
    + assert (e = EINVAL) as ->; [|done]. clear Hchk Hwf. revert E. generalize (take (Z.to_nat (zlen prog)) prog) 0.
      intros l. induction l as [|f l IH]; intros n E; cbn [check_insns] in E; [done|].
      destruct (check_insn (zlen prog) n f) eqn:E1; [|injection E as <-; revert E1; unfold check_insn].
      * destruct (check_insns (zlen prog) (n + 1) l) eqn:E2; [done|]. injection E as <-. by eapply IH.
      * destr_if; [by injection 1|]. destruct (codes_at (code f)) as [[]|]; try done; try (by injection 1).
        all: repeat (match goal with |- context [if ?b then _ else _] => destruct b end); try done; try (by injection 1).
        all: destruct (ancillary (k f)); done.
Qed.

(** The outcome of an attachment. *)
Lemma attach_spec base kmalloc_ok masks_ok new fprog h sk :
  sock_inv base h sk -> h !! new = None -> fprog_ok fprog ->
  let '(ret, h', sk') := sk_attach_filter sizeof_sk_filter sysctl_optmem_max kmalloc_ok masks_ok new fprog h sk in
  sock_inv base h' sk' /\
  (ret <> 0 -> h' = h /\ sk' = sk) /\ (ret = 0 -> sk_filter_ptr sk' = Some new).
Proof.
  intros Hinv Hnew [Hlen Hprog]. unfold sk_attach_filter.
  destruct (fprog_filter fprog) as [user|]; [|done].
  set (fsize := u32 (sizeof_sock_filter * fprog_len fprog)).
  assert (fsize = 8 * fprog_len fprog) as Hfs by (apply u32_small; unfold sizeof_sock_filter; lia).
  unfold sock_kmalloc. destruct (_ && kmalloc_ok); [|done]. cbn [sk_filter_ptr sk_omem_alloc].
  destruct sk as [ptr omem]. cbn [sk_filter_ptr sk_omem_alloc].
  destruct user as [prog|].
  2:{ unfold sock_kfree_s. cbn [sk_filter_ptr sk_omem_alloc].
      replace (omem + (fsize + sizeof_sk_filter) - (fsize + sizeof_sk_filter)) with omem by lia. done. }
  destruct (Hprog prog eq_refl) as [Hl Hwf].
  destruct (sk_chk_filter masks_ok prog (fprog_len fprog)) as [err P] eqn:Echk.
  assert (forall Q, flen_bytes (mk_sk_filter 1 (fprog_len fprog) Q) = fsize + sizeof_sk_filter) as Hfl.
  { intros Q. unfold sk_filter_len. cbn [flen]. unfold sizeof_sock_filter. rewrite u32_small; lia. }
  destruct (Z.eqb_spec err 0) as [->|Herr]; cbn [negb].
  - rewrite <- Hl in Echk. apply chk_accepted in Echk as Hacc; [|done]. destruct Hinv as [Hc Hf]. cbn in Hc, Hf.
    assert (forall h' sk', sk_filter_ptr sk' = Some new -> h' !! new = Some (mk_sk_filter 1 (fprog_len fprog) P) ->
              sk_omem_alloc sk' = base + (fsize + sizeof_sk_filter) -> sock_inv base h' sk') as Hintro.
    { intros h' sk' Hp Hh Ho. constructor; rewrite Hp; [by rewrite Hh, Hfl|].
      intros l [= <-]. eexists. split; [exact Hh|]. done. }
    destruct ptr as [l|]; cbn [uncharge_ptr].
    + destruct (Hf l eq_refl) as (fp & Hfp & _ & _). assert (new <> l) by congruence.
      rewrite lookup_insert_ne, Hfp by done. unfold sk_filter_uncharge. cbn [sk_filter_ptr sk_omem_alloc].
      rewrite Hfp in Hc. split; [|done]. apply Hintro; cbn; [done| |lia].
      unfold sk_filter_release. destr_if; [rewrite lookup_delete_ne by done|rewrite lookup_insert_ne by done];
        apply lookup_insert_eq.
    + split; [|done]. apply Hintro; cbn; [done|apply lookup_insert_eq|lia].
  - unfold sk_filter_uncharge, sk_filter_release. cbn [refcnt]. rewrite Hfl. cbn.
    rewrite delete_insert_id by done.
    replace (omem + (fsize + sizeof_sk_filter) - (fsize + sizeof_sk_filter)) with omem by lia. done.
Qed.

Lemma detach_spec base h sk :
  sock_inv base h sk ->
  let '(ret, h', sk') := sk_detach_filter sizeof_sk_filter h sk in
  sock_inv base h' sk' /\ sk_filter_ptr sk' = None /\
  (ret = 0 <-> sk_filter_ptr sk <> None) /\ sk_omem_alloc sk' = base.
Proof.
  intros [Hc Hf]. unfold sk_detach_filter. destruct (sk_filter_ptr sk) as [l|] eqn:Ep.
  - destruct (Hf l eq_refl) as (fp & Hfp & _ & _). cbn [uncharge_ptr]. rewrite Hfp in *.
    unfold sk_filter_uncharge. cbn. split_and!; try done; [|lia]. constructor; cbn; [lia|done].
  - split_and!; [by constructor; rewrite Ep|done|done|lia].
Qed.

End attached.

(** The socket calls of user space: attaching any program, and detaching. *)
Inductive sock_step (sizeof_sk_filter sysctl_optmem_max : Z) : filters * sock -> filters * sock -> Prop :=
| step_attach h sk kmalloc_ok masks_ok new fprog ret h' sk' :
    h !! new = None -> fprog_ok fprog ->
    sk_attach_filter sizeof_sk_filter sysctl_optmem_max kmalloc_ok masks_ok new fprog h sk = (ret, h', sk') ->
    sock_step sizeof_sk_filter sysctl_optmem_max (h, sk) (h', sk')
| step_detach h sk ret h' sk' :
    sk_detach_filter sizeof_sk_filter h sk = (ret, h', sk') ->
    sock_step sizeof_sk_filter sysctl_optmem_max (h, sk) (h', sk').

Lemma sock_steps_inv sz opt base s s' :
  0 <= sz < 2 ^ 16 -> rtc (sock_step sz opt) s s' -> sock_inv sz base s.1 s.2 -> sock_inv sz base s'.1 s'.2.
Proof.
  intros Hsz. induction 1 as [|x y z Hxy _ IH]; [done|]. intros Hx. apply IH. clear IH.
  destruct Hxy as [h sk ko mo new fprog ret h' sk' Hnew Hfp E|h sk ret h' sk' E]; cbn [fst snd] in *.
  - pose proof (attach_spec sz opt Hsz base ko mo new fprog h sk Hx Hnew Hfp) as Hs. rewrite E in Hs. apply Hs.
  - pose proof (detach_spec sz base h sk Hx) as Hs. rewrite E in Hs. apply Hs.
Qed.

(** C24. Whatever programs user space attaches to a socket and detaches from it, in any
    order and whatever allocations or copies fail: the option memory charged to
    the socket is exactly that of the attached filter, so nothing leaks, and the
    receive path has a verdict on every packet.  It is the one of the security
    module if that refuses, and otherwise what the attached filter, a checked
    program that runs to its return, says: drop, or trim to the length returned.
    An attached filter that searches attributes is excepted as in the safety of
    checked programs: the nested search, and the plain one on packets shorter
    than an attribute header. *)
Theorem socket_filter_verdict `{LongWidth} be cpu shl shr sz opt security trim h sk skb :
  (forall a n, 0 <= shl a n < 2 ^ 32) -> (forall a n, 0 <= shr a n < 2 ^ 32) -> 0 <= cpu < 2 ^ 32 ->
  0 <= sz < 2 ^ 16 -> rtc (sock_step sz opt) (∅, mk_sock None 0) (h, sk) ->
  (forall l fp, sk_filter_ptr sk = Some l -> h !! l = Some fp -> searches_ok skb (insns fp)) ->
  wf_skb skb -> meta_ok skb ->
  let verdict := sk_filter_rcv security (sk_run_filter be cpu shl shr) trim h sk skb in
  match sk_filter_ptr sk with
  | Some l => exists fp pkt_len, h !! l = Some fp /\ sk_omem_alloc sk = sk_filter_len sz fp /\
      sk_run_filter be cpu shl shr skb (insns fp) = Some (Return pkt_len) /\
      verdict = Some (if decide (security <> 0) then security else if decide (pkt_len = 0) then - EPERM
                      else if pkt_len <? skb_len skb then trim skb pkt_len else 0)
  | None => sk_omem_alloc sk = 0 /\ verdict = Some security
  end.
Proof.
  intros Hshl Hshr Hcpu Hsz Hsteps Hnest Hw Hmeta.
  assert (sock_inv sz 0 h sk) as [Hc Hf]
    by (apply (sock_steps_inv sz opt 0 _ _ Hsz Hsteps); constructor; done).
  unfold sk_filter_rcv. destruct (sk_filter_ptr sk) as [l|]; [|split; [lia|]; by destruct (Z.eqb_spec security 0) as [->|]].
  destruct (Hf l eq_refl) as (fp & Hfp & Hacc & _). rewrite Hfp in *.
  destruct (run_loop_ok be cpu shl shr Hshl Hshr Hcpu skb (insns fp) (length (insns fp)) init_machine 0)
    as (v & Hv & _); try done.
  - by apply (Hnest l).
  - apply init_regs_ok.
  - constructor.
  - intros i _. by rewrite Z.bits_0.
  - destruct Hacc as [_ (f & Hl & _) _]. apply lookup_lt_Some in Hl. cbn. lia.
  - cbn. lia.
  - exists fp, v. split; [done|]. split; [lia|]. unfold sk_run_filter. split; [done|]. rewrite Hv.
    destruct (Z.eqb_spec security 0), (Z.eqb_spec v 0); cbn [negb]; repeat case_decide; done.
Qed.

Lemma socket_filter_verdict_witness :
  let fprog := mk_fprog 7 (Some (Some demo_prog)) in
  let '(ret, h, sk) := sk_attach_filter 24 10240 true true 1 fprog ∅ (mk_sock None 0) in
  exists fp pkt_len, h !! 1%positive = Some fp /\ sk_omem_alloc sk = sk_filter_len 24 fp /\
    sk_run_filter (H := long32) false 0 shl32 shr32 skb_demo (insns fp) = Some (Return pkt_len) /\
    sk_filter_rcv 0 (sk_run_filter (H := long32) false 0 shl32 shr32) (fun _ _ => 0) h sk skb_demo =
      Some (if decide (0 <> 0) then 0 else if decide (pkt_len = 0) then - EPERM else if pkt_len <? skb_len skb_demo then 0 else 0).
Proof.
  intros fprog. destruct (sk_attach_filter 24 10240 true true 1 fprog ∅ (mk_sock None 0)) as [[ret h] sk] eqn:E.
  assert (rtc (sock_step 24 10240) (∅, mk_sock None 0) (h, sk)) as Hsteps.
  { eapply rtc_once, (step_attach _ _ _ _ true true 1%positive fprog ret); [done| |exact E].
    split; [cbn; lia|]. intros prog [= <-]. split; [done|exact demo_prog_wf]. }
  vm_compute in E. injection E as <- <- <-.
  assert (forall l fp, ({[1%positive := mk_sk_filter 1 7 (sk_chk_filter true demo_prog (zlen demo_prog)).2]} : filters) !! l = Some fp ->
    searches_ok skb_demo (insns fp)) as Hnest.
  { intros l fp Hl. apply lookup_singleton_Some in Hl as [_ <-]. by apply demo_searches_ok. }
  exact (socket_filter_verdict (H := long32) false 0 shl32 shr32 24 10240 0 (fun _ _ => 0) _ _ skb_demo
    ltac:(intros; apply u32_range) ltac:(intros; apply u32_range) ltac:(lia) ltac:(lia) Hsteps (fun l fp _ => Hnest l fp)
    skb_demo_wf skb_demo_meta).
Defined.

(** ** Where the filter does not do what it says *)

(** An eight-byte packet whose first attribute claims 200 bytes; its nested
    search walks off the end.  And a three-byte packet, shorter than an attribute
    header, with an offset that wraps the length check. *)
Definition nest_prog : list sock_filter :=
  [mk_insn (BPF_LDX .| BPF_IMM) 0 0 2; mk_insn (BPF_LD .| BPF_IMM) 0 0 0;
   mk_insn (BPF_LD .| BPF_W .| BPF_ABS) 0 0 (u32 (SKF_AD_OFF + SKF_AD_NLATTR_NEST));
   mk_insn (BPF_RET .| BPF_A) 0 0 0].

Definition nest_skb : sk_buff :=
  mk_sk_buff 8 0 [200; 0; 1; 0; 8; 0; 1; 0] 0 8 0 0 [] [] 0 0 None 0 0 0.

Definition short_prog : list sock_filter :=
  [mk_insn (BPF_LD .| BPF_IMM) 0 0 0x80000005;
   mk_insn (BPF_LD .| BPF_W .| BPF_ABS) 0 0 (u32 (SKF_AD_OFF + SKF_AD_NLATTR));
   mk_insn (BPF_RET .| BPF_A) 0 0 0].

Definition short_skb : sk_buff := mk_sk_buff 3 0 [1; 2; 3] 0 3 0 0 [] [] 0 0 None 0 0 0.

(** The two conditions of the safety theorem are needed: [sk_chk_filter] accepts a
    program whose nested attribute search reads beyond the packet, because the
    length test subtracts the wrong way round, and one whose attribute search
    reads two gigabytes away from a packet shorter than an attribute header,
    because the bound wraps. *)
Theorem nlattr_search_leaves_packet :
  (sk_chk_filter true nest_prog (zlen nest_prog)).1 = 0 /\ wf_skb nest_skb /\ meta_ok nest_skb /\
  sk_run_filter (H := long32) false 0 shl32 shr32 nest_skb (sk_chk_filter true nest_prog (zlen nest_prog)).2 =
    Some Stuck /\
  (sk_chk_filter true short_prog (zlen short_prog)).1 = 0 /\ wf_skb short_skb /\ meta_ok short_skb /\
  sk_run_filter (H := long32) false 0 shl32 shr32 short_skb (sk_chk_filter true short_prog (zlen short_prog)).2 =
    Some Stuck.
Proof.
  assert (forall l, Forall is_byte l -> forall n, zlen l = n -> n < 2 ^ 31 ->
    wf_skb (mk_sk_buff n 0 l 0 n 0 0 [] [] 0 0 None 0 0 0)) as Hwf.
  { intros l Hl n Hn Hb. constructor; cbn [skb_data tail head frags frag_list skb_len data_len]; try done; try lia.
    change (packet _) with (slice l 0 (n - 0) ++ [] ++ []). rewrite length_app. cbn [length app].
    rewrite Nat.add_0_r, zlen_slice by lia. lia. }
  split_and!; try (by vm_compute); try (apply Hwf; [repeat constructor; unfold is_byte; lia|done|lia]);
    constructor; cbn; lia || done.
Qed.

(** Division by a constant goes through a rounded-up reciprocal: it is exact while
    the dividend times the divisor minus one fits 32 bits, it is at most one too
    large for any operands, and division by one gives zero. *)
Theorem bpf_div_k_value a d :
  0 <= a < 2 ^ 32 -> 1 <= d < 2 ^ 32 ->
  let q := reciprocal_divide a (reciprocal_value d) in
  (d = 1 -> q = 0) /\
  (2 <= d -> a / d <= q <= a / d + 1 /\ (a * (d - 1) < 2 ^ 32 -> q = a / d)).
Proof.
  intros Ha Hd q. split; [intros ->; subst q; change (reciprocal_value 1) with 0; unfold reciprocal_divide; by rewrite Z.mul_0_r|].
  intros Hd2. subst q. unfold reciprocal_divide, reciprocal_value. rewrite Z.shiftl_1_l.
  rewrite (u32_small (d - 1)), (u64_small (2 ^ 32 + _)) by lia.
  pose proof (Z.div_mod (2 ^ 32 + (d - 1)) d ltac:(lia)). pose proof (Z.mod_pos_bound (2 ^ 32 + (d - 1)) d ltac:(lia)).
  set (r := (2 ^ 32 + (d - 1)) / d) in *.
  assert (0 <= r < 2 ^ 32) by (subst r; split; [apply Z.div_pos|apply Z.div_lt_upper_bound]; lia).
  rewrite (u32_small r), u64_small by nia. rewrite Z.shiftr_div_pow2 by lia.
  pose proof (Z.div_mod a d ltac:(lia)). pose proof (Z.mod_pos_bound a d ltac:(lia)).
  assert (0 <= a / d) by (apply Z.div_pos; lia).
  set (e := d * r - 2 ^ 32). assert (0 <= e <= d - 1) by lia.
  assert (a / d <= a * r / 2 ^ 32) by (apply Z.div_le_lower_bound; nia).
  assert (a * r / 2 ^ 32 < a / d + 2) by (apply Z.div_lt_upper_bound; nia).
  assert (a * (d - 1) < 2 ^ 32 -> a * r / 2 ^ 32 < a / d + 1) by (intros; apply Z.div_lt_upper_bound; nia).
  rewrite u32_small by nia. lia.
Qed.

Lemma bpf_div_k_value_witness :
  reciprocal_divide 1000 (reciprocal_value 7) = 142 /\ reciprocal_divide 1000 (reciprocal_value 1) = 0.
Proof.
  split.
  - exact (proj2 (proj2 (bpf_div_k_value 1000 7 ltac:(lia) ltac:(lia)) ltac:(lia)) ltac:(lia)).
  - exact (proj1 (bpf_div_k_value 1000 1 ltac:(lia) ltac:(lia)) eq_refl).
Defined.
