(* ===== verification/SieMalloc.v ===== *)
(** * The heap of the Silan media drivers (arch/mips/silan/dlna/sie_malloc.c)

    A best-fit allocator for one physical arena.  Descriptors live in a static
    pool of [TOTAL_RAM_FRAG] entries and are on one of three doubly linked lists:
    the pool of spare descriptors, the free blocks by increasing size, and the
    used blocks.  The model keeps the descriptors in a store and the links as
    pointers (indices; [None] is the null pointer), so that what the list surgery
    does to shared descriptors is part of what is proved.

    (The file is the same, one include apart, in arch/csky/silan_dlna.) *)

From Stdlib Require Import ZArith Lia.
From stdpp Require Import base numbers list gmap fin_maps option sorting.
From S2P Require Import Prelude.

Local Open Scope Z_scope.

Definition TOTAL_RAM_FRAG : nat := 128.
Definition SILAN_MALLOC_SIZE : Z := 0x4000000.

Record ram_frag := mk_frag {
  ram_start : Z;
  ram_size : Z;
  next : option nat;
  pre : option nat
}.

(** The static pool, its free list, and the control block. *)
Record sie_heap := mk_heap {
  pool : gmap nat ram_frag;
  mem_frag_free : option nat;
  used : option nat;
  free : option nat;
  heap_address : Z;
  heap_size : Z
}.

Definition frag_at (s : gmap nat ram_frag) (i : nat) : ram_frag :=
  default (mk_frag 0 0 None None) (s !! i).

(** Assignments to a field of the descriptor [i]. *)
Definition put_next (v : option nat) (f : ram_frag) : ram_frag := mk_frag (ram_start f) (ram_size f) v (pre f).
Definition put_pre (v : option nat) (f : ram_frag) : ram_frag := mk_frag (ram_start f) (ram_size f) (next f) v.
Definition put_block (st sz : Z) (f : ram_frag) : ram_frag := mk_frag st sz (next f) (pre f).

Definition set_pool (h : sie_heap) (s : gmap nat ram_frag) : sie_heap :=
  mk_heap s (mem_frag_free h) (used h) (free h) (heap_address h) (heap_size h).
Definition set_spare (h : sie_heap) (p : option nat) : sie_heap :=
  mk_heap (pool h) p (used h) (free h) (heap_address h) (heap_size h).
Definition set_used (h : sie_heap) (p : option nat) : sie_heap :=
  mk_heap (pool h) (mem_frag_free h) p (free h) (heap_address h) (heap_size h).
Definition set_free (h : sie_heap) (p : option nat) : sie_heap :=
  mk_heap (pool h) (mem_frag_free h) (used h) p (heap_address h) (heap_size h).

Definition upd (h : sie_heap) (i : nat) (g : ram_frag -> ram_frag) : sie_heap :=
  set_pool h (alter g i (pool h)).

(** An assignment through a pointer that was tested against null. *)
Definition upd_opt (h : sie_heap) (p : option nat) (g : ram_frag -> ram_frag) : sie_heap :=
  match p with Some i => upd h i g | None => h end.

Definition get (h : sie_heap) (i : nat) : ram_frag := frag_at (pool h) i.

(** [ASSIGNED_FOR_1024BYTE]. *)
Definition ASSIGNED_FOR_1024BYTE (sz : Z) : Z :=
  if sz =? 0 then 1024 else u32 (sz + 1023) .& u32 (Z.lnot 1023).

(** ** The pool of descriptors *)

Fixpoint init_pool_loop (n : nat) (i tmp : nat) (h : sie_heap) : sie_heap :=
  match n with
  | O => h
  | S n =>
      let tmp2 := i in
      let h := upd h tmp (put_next (Some tmp2)) in
      let h := upd h tmp2 (put_pre (Some tmp)) in
      let h := upd h tmp2 (put_next None) in
      init_pool_loop n (S i) tmp2 h
  end.

Definition init_mem_frag_pool (h : sie_heap) : sie_heap :=
  let h := set_spare h (Some 0%nat) in
  let h := upd h 0 (put_pre None) in
  init_pool_loop (TOTAL_RAM_FRAG - 1) 1 0 h.

Definition alloc_mem_frag (h : sie_heap) : option nat * sie_heap :=
  match mem_frag_free h with
  | None => (None, h)
  | Some tmp =>
      let h := set_spare h (next (get h tmp)) in
      (Some tmp, upd_opt h (mem_frag_free h) (put_pre None))
  end.

(** Null and out-of-range pointers are refused. *)
Definition if_frag_valid (p : option nat) : option nat :=
  match p with
  | Some i => if (i <? TOTAL_RAM_FRAG)%nat then Some i else None
  | None => None
  end.

(** The list operations return nothing for [ERR_OCCUR]. *)
Definition free_mem_frag (p : option nat) (h : sie_heap) : option sie_heap :=
  match if_frag_valid p with
  | None => None
  | Some i =>
      let h := upd h i (put_pre None) in
      let h := upd h i (put_next (mem_frag_free h)) in
      let h := upd_opt h (mem_frag_free h) (put_pre (Some i)) in
      Some (set_spare h (Some i))
  end.

(** ** The lists of blocks *)

Fixpoint find_fit_loop (fuel : nat) (h : sie_heap) (size : Z) (tmp : option nat) : option nat :=
  match fuel, tmp with
  | S fuel, Some i => if size <=? ram_size (get h i) then Some i else find_fit_loop fuel h size (next (get h i))
  | _, _ => None
  end.

Definition find_fit_frag (h : sie_heap) (size : Z) : option nat :=
  find_fit_loop TOTAL_RAM_FRAG h size (free h).

(** Taking a descriptor out of the list whose head is assigned by [set_head]. *)
Definition get_out_of_list (set_head : sie_heap -> option nat -> sie_heap) (p : option nat) (h : sie_heap) :
  option sie_heap :=
  match if_frag_valid p with
  | None => None
  | Some i =>
      let f := get h i in
      match pre f with
      | None =>
          let h := set_head h (next f) in
          Some (upd_opt h (next f) (put_pre None))
      | Some q =>
          let h := upd h q (put_next (next f)) in
          Some (upd_opt h (next f) (put_pre (pre f)))
      end
  end.

Definition get_out_of_free_list : option nat -> sie_heap -> option sie_heap := get_out_of_list set_free.
Definition get_out_of_used_list : option nat -> sie_heap -> option sie_heap := get_out_of_list set_used.

Definition add_into_used_list (p : option nat) (h : sie_heap) : option sie_heap :=
  match if_frag_valid p with
  | None => None
  | Some i =>
      let h := upd h i (put_next (used h)) in
      let h := upd h i (put_pre None) in
      let h := upd_opt h (used h) (put_pre (Some i)) in
      Some (set_used h (Some i))
  end.

(** The search for the place of [i] by size. *)
Fixpoint add_free_loop (fuel : nat) (i : nat) (tmp : option nat) (h : sie_heap) : sie_heap :=
  match fuel, tmp with
  | S fuel, Some t =>
      if ram_size (get h i) <=? ram_size (get h t) then
        let h := upd h i (put_pre (pre (get h t))) in
        let h := upd h i (put_next (Some t)) in
        let h := upd h t (put_pre (Some i)) in
        match pre (get h i) with
        | None => set_free h (Some i)
        | Some q => upd h q (put_next (Some i))
        end
      else
        match next (get h t) with
        | None =>
            let h := upd h t (put_next (Some i)) in
            let h := upd h i (put_pre (Some t)) in
            upd h i (put_next None)
        | Some n => add_free_loop fuel i (Some n) h
        end
  | _, _ => h
  end.

Definition add_into_free_list (p : option nat) (h : sie_heap) : option sie_heap :=
  match if_frag_valid p with
  | None => None
  | Some i =>
      match free h with
      | None =>
          let h := upd h i (put_next None) in
          let h := upd h i (put_pre None) in
          Some (set_free h (Some i))
      | Some t => Some (add_free_loop TOTAL_RAM_FRAG i (Some t) h)
      end
  end.

Inductive addr_mode := AT_THIS_ADDR | BEFORE_THIS_ADDR.

Fixpoint find_addr_loop (fuel : nat) (h : sie_heap) (addr : Z) (mode : addr_mode) (tmp : option nat) : option nat :=
  match fuel, tmp with
  | S fuel, Some i =>
      let is_true :=
        match mode with
        | AT_THIS_ADDR => ram_start (get h i) =? addr
        | BEFORE_THIS_ADDR => u32 (ram_start (get h i) + ram_size (get h i)) =? addr
        end in
      if is_true then Some i else find_addr_loop fuel h addr mode (next (get h i))
  | _, _ => None
  end.

Definition find_frag_by_addr (h : sie_heap) (addr : Z) (hd : option nat) (mode : addr_mode) : option nat :=
  if addr =? 0 then None else find_addr_loop TOTAL_RAM_FRAG h addr mode hd.

(** ** The interface *)

(** The return value, 0 or -1, and the heap.  The two [kzalloc] results that
    [free] and [used] first point to are overwritten. *)
Definition init_sie_heap (addr sz : Z) (h : sie_heap) : Z * sie_heap :=
  let h := init_mem_frag_pool h in
  match alloc_mem_frag h with
  | (None, h) => (-1, h)
  | (Some tmp, h) =>
      let h := upd h tmp (put_block addr sz) in
      let h := upd h tmp (put_next None) in
      let h := upd h tmp (put_pre None) in
      (0, mk_heap (pool h) (mem_frag_free h) None (Some tmp) addr sz)
  end.

(** The address, or 0. *)
Definition sie_malloc (sz : Z) (h : sie_heap) : Z * sie_heap :=
  let size := ASSIGNED_FOR_1024BYTE sz in
  match find_fit_frag h size with
  | None => (0, h)
  | Some tmp =>
      match alloc_mem_frag h with
      | (None, h) => (0, h)
      | (Some new_tmp, h) =>
          match get_out_of_free_list (Some tmp) h with
          | None => (0, h)
          | Some h =>
              let h := upd h new_tmp (put_block (ram_start (get h tmp)) size) in
              match add_into_used_list (Some new_tmp) h with
              | None => (0, h)
              | Some h =>
                  let f := get h tmp in
                  let h := upd h tmp (put_block (u32 (ram_start f + size)) (u32 (ram_size f - size))) in
                  let put_back :=
                    if ram_size (get h tmp) =? 0 then free_mem_frag (Some tmp) h
                    else add_into_free_list (Some tmp) h in
                  match put_back with
                  | None => (0, h)
                  | Some h => (ram_start (get h new_tmp), h)
                  end
              end
          end
      end
  end.

(** [tmp->ram_size += n]. *)
Definition grow (i : nat) (n : Z) (h : sie_heap) : sie_heap :=
  upd h i (put_block (ram_start (get h i)) (u32 (ram_size (get h i) + n))).

(** The merge with the neighbours [tmp1] (after) and [tmp2] (before) of the block
    [tmp]: the descriptor to be put back, and the heap; nothing for [failed] (once
    the descriptors are found valid, none of the list operations can fail). *)
Definition merge (tmp : nat) (tmp1 tmp2 : option nat) (h : sie_heap) : option (nat * sie_heap) :=
  match tmp1, tmp2 with
  | None, None => Some (tmp, h)
  | Some t1, None =>
      _ ← if_frag_valid (Some t1);
      h ← get_out_of_free_list (Some t1) h;
      h ← free_mem_frag (Some t1) h;
      Some (tmp, grow tmp (ram_size (get h t1)) h)
  | None, Some t2 =>
      _ ← if_frag_valid (Some t2);
      h ← get_out_of_free_list (Some t2) h;
      h ← free_mem_frag (Some tmp) h;
      Some (t2, grow t2 (ram_size (get h tmp)) h)
  | Some t1, Some t2 =>
      _ ← if_frag_valid (Some t1);
      _ ← if_frag_valid (Some t2);
      h ← get_out_of_free_list (Some t1) h;
      h ← free_mem_frag (Some t1) h;
      h ← get_out_of_free_list (Some t2) h;
      h ← free_mem_frag (Some tmp) h;
      Some (t2, grow t2 (u32 (ram_size (get h tmp) + ram_size (get h t1))) h)
  end.

(** The label [right_end]. *)
Definition free_right_end (tmp : option nat) (h : sie_heap) : Z * sie_heap :=
  match add_into_free_list tmp h with
  | None => (-1, h)
  | Some h => (0, h)
  end.

(** 0 or -1, and the heap. *)
Definition sie_free (addr : Z) (h : sie_heap) : Z * sie_heap :=
  let tmp := find_frag_by_addr h addr (used h) AT_THIS_ADDR in
  match if_frag_valid tmp with
  | None => free_right_end tmp h
  | Some t =>
      match get_out_of_used_list (Some t) h with
      | None => free_right_end (Some t) h
      | Some h =>
          let tmp1 := find_frag_by_addr h (u32 (addr + ram_size (get h t))) (free h) AT_THIS_ADDR in
          let tmp2 := find_frag_by_addr h addr (free h) BEFORE_THIS_ADDR in
          match merge t tmp1 tmp2 h with
          | None => (-1, h)
          | Some (t, h) => free_right_end (Some t) h
          end
      end
  end.

(** The heap before initialisation: static storage is zero. *)
Definition zero_heap : sie_heap :=
  mk_heap (list_to_map ((fun i => (i, mk_frag 0 0 None None)) <$> seq 0 TOTAL_RAM_FRAG)) None None None 0 0.

(** ** Lists in the store *)

Definition hd_or (l : list nat) (e : option nat) : option nat := match l with [] => e | x :: _ => Some x end.

Definition last_or (p : option nat) (l : list nat) : option nat :=
  match list.last l with None => p | Some x => Some x end.

(** The descriptors [l] are linked in this order, between [p] and [e]. *)
Fixpoint dseg (s : gmap nat ram_frag) (p : option nat) (l : list nat) (e : option nat) : Prop :=
  match l with
  | [] => True
  | x :: l => (exists f, s !! x = Some f /\ pre f = p /\ next f = hd_or l e) /\ dseg s (Some x) l e
  end.

(** Start and size of a block. *)
Definition blk (s : gmap nat ram_frag) (x : nat) : Z * Z := (ram_start (frag_at s x), ram_size (frag_at s x)).

Section dseg.

Lemma dseg_app s p l1 l2 e :
  dseg s p (l1 ++ l2) e <-> dseg s p l1 (hd_or l2 e) /\ dseg s (last_or p l1) l2 e.
Proof.
  revert p. induction l1 as [|x l1 IH]; intros p; cbn [app dseg]; [tauto|].
  rewrite IH. replace (last_or p (x :: l1)) with (last_or (Some x) l1)
    by (unfold last_or; rewrite last_cons; by destruct (list.last l1)).
  replace (hd_or (l1 ++ l2) e) with (hd_or l1 (hd_or l2 e)) by by destruct l1. tauto.
Qed.

Lemma last_or_snoc p l x : last_or p (l ++ [x]) = Some x.
Proof. unfold last_or. by rewrite last_snoc. Qed.

(** Only the links of the members matter. *)
Lemma dseg_frame s s' p l e :
  (forall x, x ∈ l -> s' !! x = s !! x) -> dseg s p l e -> dseg s' p l e.
Proof.
  revert p. induction l as [|x l IH]; intros p Hs; cbn [dseg]; [done|].
  intros [Hf Hl]. rewrite Hs by set_solver. split; [done|]. apply IH; [set_solver|done].
Qed.

Lemma dseg_alter s p l e y g : y ∉ l -> dseg s p l e -> dseg (alter g y s) p l e.
Proof. intros Hy. apply dseg_frame. intros x Hx. apply lookup_alter_ne. set_solver. Qed.

(** Changing what is before the first and after the last member. *)
Lemma dseg_set_pre s p p' x l e :
  x ∉ l -> dseg s p (x :: l) e -> dseg (alter (put_pre p') x s) p' (x :: l) e.
Proof.
  intros Hx [(f & Hf & _ & Hn) Hl]. split; [|by apply dseg_alter].
  exists (put_pre p' f). by rewrite lookup_alter_eq, Hf.
Qed.

Lemma dseg_set_next s p l x e e' :
  x ∉ l -> dseg s p (l ++ [x]) e -> dseg (alter (put_next e') x s) p (l ++ [x]) e'.
Proof.
  intros Hx. rewrite !dseg_app. intros [Hl [(f & Hf & Hp & _) _]]. split; [by apply dseg_alter|].
  split; [|done]. exists (put_next e' f). by rewrite lookup_alter_eq, Hf.
Qed.

(** The block data is not touched by link assignments. *)
Lemma blk_alter_links s x y g :
  (forall f, ram_start (g f) = ram_start f /\ ram_size (g f) = ram_size f) ->
  blk (alter g y s) x = blk s x.
Proof.
  intros Hg. unfold blk, frag_at. destruct (decide (x = y)) as [->|].
  - rewrite lookup_alter_eq. destruct (s !! y) as [f|]; [|done]. cbn. by destruct (Hg f) as [-> ->].
  - by rewrite lookup_alter_ne.
Qed.

Lemma dseg_lookup s p l e x : dseg s p l e -> x ∈ l -> is_Some (s !! x).
Proof.
  revert p. induction l as [|y l IH]; intros p; cbn [dseg]; [set_solver|].
  intros [(f & Hf & _) Hl] [->|Hx]%elem_of_cons; [by eexists|by eapply IH].
Qed.

Lemma dseg_head s p x l e : dseg s p (x :: l) e -> next (frag_at s x) = hd_or l e /\ pre (frag_at s x) = p.
Proof. intros [(f & Hf & Hp & Hn) _]. unfold frag_at. by rewrite Hf. Qed.

End dseg.

(** [s'] differs from [s] on members of [l] only, and in no block. *)
Record relinked (s s' : gmap nat ram_frag) (l : list nat) : Prop := {
  rl_touch : forall y, y ∉ l -> s' !! y = s !! y;
  rl_blk : forall y, blk s' y = blk s y;
  rl_dom : forall y, is_Some (s' !! y) <-> is_Some (s !! y)
}.

Section relinked.

Lemma relinked_refl s l : relinked s s l.
Proof. by constructor. Qed.

Lemma relinked_alter s s' l y v :
  y ∈ l -> relinked s s' l -> relinked s (alter (put_next v) y s') l /\ relinked s (alter (put_pre v) y s') l.
Proof.
  intros Hy [Ht Hb Hd]. split; constructor.
  1, 4: intros z Hz; rewrite lookup_alter_ne by (intros ->; done); by apply Ht.
  1, 3: intros z; rewrite blk_alter_links by done; apply Hb.
  all: intros z; rewrite <- Hd; apply lookup_alter_is_Some.
Qed.

Lemma relinked_next s s' l y v : y ∈ l -> relinked s s' l -> relinked s (alter (put_next v) y s') l.
Proof. intros Hy Hr. by apply relinked_alter. Qed.

Lemma relinked_pre s s' l y v : y ∈ l -> relinked s s' l -> relinked s (alter (put_pre v) y s') l.
Proof. intros Hy Hr. by apply relinked_alter. Qed.

Lemma relinked_dseg s s' l p m e :
  relinked s s' l -> (forall x, x ∈ m -> x ∉ l) -> dseg s p m e -> dseg s' p m e.
Proof. intros [Ht _ _] Hm. apply dseg_frame. intros x Hx. apply Ht. by apply Hm. Qed.

End relinked.

(** *** List surgery *)

(** The pre-link of the first member, when there is one. *)
Definition alter_hd (g : ram_frag -> ram_frag) (p : option nat) (s : gmap nat ram_frag) : gmap nat ram_frag :=
  match p with Some i => alter g i s | None => s end.

Lemma alter_hd_spec s p p' l e :
  NoDup l -> dseg s p l e ->
  dseg (alter_hd (put_pre p') (hd_or l None) s) p' l e /\ relinked s (alter_hd (put_pre p') (hd_or l None) s) l.
Proof.
  destruct l as [|x l]; intros Hnd Hl; cbn [hd_or alter_hd]; [split; [done|apply relinked_refl]|].
  apply list.NoDup_cons in Hnd as [Hx _]. split; [by apply (dseg_set_pre s p)|].
  apply relinked_pre; [set_solver|apply relinked_refl].
Qed.

(** A new first member [x]: its links are set, then the old head points back. *)
Lemma dlist_push_spec s s1 l x :
  NoDup (x :: l) -> is_Some (s !! x) -> dseg s None l None ->
  s1 = alter (put_next (hd_or l None)) x (alter (put_pre None) x s) \/
  s1 = alter (put_pre None) x (alter (put_next (hd_or l None)) x s) ->
  dseg (alter_hd (put_pre (Some x)) (hd_or l None) s1) None (x :: l) None /\
  relinked s (alter_hd (put_pre (Some x)) (hd_or l None) s1) (x :: l).
Proof.
  intros Hnd [f Hf] Hl Hs1. apply list.NoDup_cons in Hnd as [Hx Hnd].
  assert (relinked s s1 (x :: l) /\ dseg s1 None l None /\
          exists f', s1 !! x = Some f' /\ pre f' = None /\ next f' = hd_or l None) as (Hr & Hl1 & f' & Hf' & Hp & Hn).
  { assert (x ∈ x :: l) by set_solver. destruct Hs1 as [-> | ->].
    - split_and!; [by apply relinked_next, relinked_pre, relinked_refl|do 2 (apply dseg_alter; [done|]); done|].
      eexists. by rewrite !lookup_alter_eq, Hf.
    - split_and!; [by apply relinked_pre, relinked_next, relinked_refl|do 2 (apply dseg_alter; [done|]); done|].
      eexists. by rewrite !lookup_alter_eq, Hf. }
  destruct (alter_hd_spec s1 None (Some x) l None Hnd Hl1) as [Hl2 [Ht _ _]]. split.
  - split; [|done]. exists f'. by rewrite Ht.
  - destruct l as [|y l]; [done|]. apply relinked_pre; [set_solver|done].
Qed.

(** Taking [x] out. *)
Definition unlink (s : gmap nat ram_frag) (x : nat) : gmap nat ram_frag :=
  let f := frag_at s x in
  match pre f with
  | None => alter_hd (put_pre None) (next f) s
  | Some q => alter_hd (put_pre (pre f)) (next f) (alter (put_next (next f)) q s)
  end.

Lemma unlink_spec s l1 x l2 :
  NoDup (l1 ++ x :: l2) -> dseg s None (l1 ++ x :: l2) None ->
  dseg (unlink s x) None (l1 ++ l2) None /\ relinked s (unlink s x) (l1 ++ l2) /\
  pre (frag_at s x) = last_or None l1 /\ next (frag_at s x) = hd_or l2 None.
Proof.
  intros Hnd Hl. apply dseg_app in Hl as [Hl1 Hl2]. cbn [hd_or] in Hl1.
  destruct (dseg_head _ _ _ _ _ Hl2) as [Hn Hp]. destruct Hl2 as [_ Hl2].
  unfold unlink. rewrite Hn, Hp. apply list.NoDup_app in Hnd as (Hnd1 & Hdis & Hnd2).
  apply list.NoDup_cons in Hnd2 as [Hx Hnd2].
  destruct l1 as [|q l0 _] using rev_ind; cbn [app].
  - unfold last_or at 1 2 3. cbn [list.last]. destruct (alter_hd_spec s (Some x) None l2 None Hnd2 Hl2). done.
  - rewrite last_or_snoc in *. apply list.NoDup_app in Hnd1 as (_ & Hq0 & _).
    assert (q ∉ l0 /\ q ∉ l2) as [Hql0 Hql2] by set_solver.
    apply (dseg_set_next _ _ _ _ _ (hd_or l2 None)) in Hl1; [|done].
    apply (dseg_alter _ _ _ _ q (put_next (hd_or l2 None))) in Hl2; [|done].
    destruct (alter_hd_spec _ (Some x) (Some q) l2 None Hnd2 Hl2) as [Hl2' Hr].
    split_and!; [|destruct Hr as [Ht Hb Hd]|done|done].
    + apply dseg_app. rewrite last_or_snoc. split; [|done]. apply (relinked_dseg _ _ _ _ _ _ Hr); [|done]. set_solver.
    + constructor; intros y.
      * intros Hy. rewrite Ht by set_solver. apply lookup_alter_ne. set_solver.
      * rewrite Hb. by apply blk_alter_links.
      * rewrite Hd. apply lookup_alter_is_Some.
Qed.

(** Putting [x] before [t]. *)
Definition insert_before (s : gmap nat ram_frag) (x t : nat) : gmap nat ram_frag :=
  let s1 := alter (put_pre (Some x)) t (alter (put_next (Some t)) x (alter (put_pre (pre (frag_at s t))) x s)) in
  match pre (frag_at s t) with None => s1 | Some q => alter (put_next (Some x)) q s1 end.

Lemma insert_before_spec s l1 t l2 x :
  NoDup (x :: l1 ++ t :: l2) -> is_Some (s !! x) -> dseg s None (l1 ++ t :: l2) None ->
  dseg (insert_before s x t) None (l1 ++ x :: t :: l2) None /\
  relinked s (insert_before s x t) (l1 ++ x :: t :: l2) /\ pre (frag_at s t) = last_or None l1.
Proof.
  intros Hnd [f Hf] Hl. apply dseg_app in Hl as [Hl1 Hl2]. cbn [hd_or] in Hl1.
  destruct (dseg_head _ _ _ _ _ Hl2) as [_ Hp]. unfold insert_before. rewrite Hp.
  apply list.NoDup_cons in Hnd as [Hx Hnd]. apply list.NoDup_app in Hnd as (Hnd1 & Hdis & Hnd2).
  apply list.NoDup_cons in Hnd2 as [Ht Hnd2]. set (q := last_or None l1) in *.
  set (s1 := alter (put_pre (Some x)) t (alter (put_next (Some t)) x (alter (put_pre q) x s))).
  assert (relinked s s1 (l1 ++ x :: t :: l2)) as Hr1.
  { apply relinked_pre; [set_solver|]. apply relinked_next; [set_solver|]. apply relinked_pre; [set_solver|]. apply relinked_refl. }
  assert (x <> t) as Hxt by set_solver.
  assert (dseg s1 q (x :: t :: l2) None) as Hl2'.
  { split.
    - exists (put_next (Some t) (put_pre q f)). split; [|done].
      subst s1. rewrite lookup_alter_ne by done. by rewrite !lookup_alter_eq, Hf.
    - apply (dseg_set_pre _ q); [done|]. do 2 (apply dseg_alter; [set_solver|]). done. }
  assert (dseg s1 None l1 (Some t)) as Hl1'.
  { do 3 (apply dseg_alter; [set_solver|]). done. }
  destruct l1 as [|y l0 _] using rev_ind; subst q.
  - split_and!; done.
  - rewrite last_or_snoc in *. apply list.NoDup_app in Hnd1 as (_ & Hy0 & _). split_and!; [|apply relinked_next; [set_solver|done]|done].
    apply dseg_app. rewrite last_or_snoc. split; [apply (dseg_set_next _ _ _ _ (Some t)); [set_solver|done]|].
    apply dseg_alter; [set_solver|done].
Qed.

(** Putting [x] after the last member [t]. *)
Lemma insert_last_spec s l t x :
  NoDup (x :: l ++ [t]) -> is_Some (s !! x) -> dseg s None (l ++ [t]) None ->
  let s' := alter (put_next None) x (alter (put_pre (Some t)) x (alter (put_next (Some x)) t s)) in
  dseg s' None (l ++ [t; x]) None /\ relinked s s' (l ++ [t; x]).
Proof.
  intros Hnd [f Hf] Hl s'. apply list.NoDup_cons in Hnd as [Hx Hnd].
  apply list.NoDup_app in Hnd as (_ & Ht & _). assert (x <> t) by set_solver. split.
  - replace (l ++ [t; x]) with ((l ++ [t]) ++ [x]) by by rewrite <- app_assoc.
    apply dseg_app. rewrite last_or_snoc. split.
    + do 2 (apply dseg_alter; [done|]). apply (dseg_set_next _ _ _ _ None); [set_solver|done].
    + split; [|done]. exists (put_next None (put_pre (Some t) f)). subst s'.
      by rewrite !lookup_alter_eq, lookup_alter_ne, Hf.
  - do 2 (apply relinked_next || apply relinked_pre; [set_solver|]). apply relinked_next; [set_solver|]. apply relinked_refl.
Qed.

(** ** The three lists of a heap *)

(** The spare, free and used descriptors in list order, and those held by a
    running operation. *)
Record lists := mk_lists { lP : list nat; lF : list nat; lU : list nat; lL : list nat }.

Definition all_ids (l : lists) : list nat := lL l ++ lP l ++ lF l ++ lU l.

Record repr (h : sie_heap) (l : lists) : Prop := {
  r_spare : mem_frag_free h = hd_or (lP l) None;
  r_dspare : dseg (pool h) None (lP l) None;
  r_free : free h = hd_or (lF l) None;
  r_dfree : dseg (pool h) None (lF l) None;
  r_used : used h = hd_or (lU l) None;
  r_dused : dseg (pool h) None (lU l) None;
  r_nodup : NoDup (all_ids l);
  r_range : forall x, x ∈ all_ids l -> (x < TOTAL_RAM_FRAG)%nat /\ is_Some (pool h !! x)
}.

Definition same_blocks (h h' : sie_heap) : Prop :=
  (forall y, blk (pool h') y = blk (pool h) y) /\
  heap_address h' = heap_address h /\ heap_size h' = heap_size h.

Section operations.

Lemma valid_frag h l x : repr h l -> x ∈ all_ids l -> if_frag_valid (Some x) = Some x.
Proof.
  intros Hr Hx. destruct (r_range _ _ Hr x Hx) as [Hlt _]. unfold if_frag_valid.
  by destruct (Nat.ltb_spec x TOTAL_RAM_FRAG); [|lia].
Qed.

(** Membership in one list excludes the others. *)
Lemma ids_disjoint l : NoDup (all_ids l) ->
  (NoDup (lL l) /\ NoDup (lP l) /\ NoDup (lF l) /\ NoDup (lU l)) /\
  (forall x, x ∈ lL l -> (x ∉ lP l) /\ (x ∉ lF l) /\ (x ∉ lU l)) /\
  (forall x, x ∈ lP l -> (x ∉ lL l) /\ (x ∉ lF l) /\ (x ∉ lU l)) /\
  (forall x, x ∈ lF l -> (x ∉ lL l) /\ (x ∉ lP l) /\ (x ∉ lU l)) /\
  (forall x, x ∈ lU l -> (x ∉ lL l) /\ (x ∉ lP l) /\ (x ∉ lF l)).
Proof.
  unfold all_ids. rewrite !list.NoDup_app. intros (HL & H1 & HP & H2 & HF & H3 & HU).
  split; [done|]. set_solver.
Qed.

(** A heap whose store was relinked on the members [m] of the lists that changed. *)
Lemma repr_frame h h' l l' m :
  repr h l -> relinked (pool h) (pool h') m -> all_ids l' ≡ₚ all_ids l ->
  mem_frag_free h' = hd_or (lP l') None -> free h' = hd_or (lF l') None -> used h' = hd_or (lU l') None ->
  (lP l' = lP l /\ (forall x, x ∈ lP l -> x ∉ m)) \/ dseg (pool h') None (lP l') None ->
  (lF l' = lF l /\ (forall x, x ∈ lF l -> x ∉ m)) \/ dseg (pool h') None (lF l') None ->
  (lU l' = lU l /\ (forall x, x ∈ lU l -> x ∉ m)) \/ dseg (pool h') None (lU l') None ->
  repr h' l'.
Proof.
  intros [? HP ? HF ? HU Hnd Hrg] Hrel Hperm Hhp Hhf Hhu HeP HeF HeU.
  assert (forall q q', dseg (pool h) None q None ->
            (q' = q /\ (forall x, x ∈ q -> x ∉ m)) \/ dseg (pool h') None q' None -> dseg (pool h') None q' None) as Hgo.
  { intros q q' Hq [[-> Hm]|?]; [|done]. by apply (relinked_dseg _ _ _ _ _ _ Hrel). }
  constructor; eauto.
  - by rewrite Hperm.
  - intros x. rewrite Hperm. intros Hx. destruct (Hrg x Hx). by rewrite (rl_dom _ _ _ Hrel).
Qed.

Lemma upd_opt_pool h p g : pool (upd_opt h p g) = alter_hd g p (pool h).
Proof. by destruct p. Qed.

Lemma upd_opt_heads h p g :
  mem_frag_free (upd_opt h p g) = mem_frag_free h /\ free (upd_opt h p g) = free h /\
  used (upd_opt h p g) = used h /\ heap_address (upd_opt h p g) = heap_address h /\
  heap_size (upd_opt h p g) = heap_size h.
Proof. by destruct p. Qed.

Lemma alloc_none h F U L : repr h (mk_lists [] F U L) -> alloc_mem_frag h = (None, h).
Proof. intros [Hp _ _ _ _ _ _ _]. unfold alloc_mem_frag. by rewrite Hp. Qed.

Lemma alloc_some h x P F U L :
  repr h (mk_lists (x :: P) F U L) ->
  exists h', alloc_mem_frag h = (Some x, h') /\ repr h' (mk_lists P F U (x :: L)) /\ same_blocks h h'.
Proof.
  intros Hr. destruct (ids_disjoint _ (r_nodup _ _ Hr)) as ((_ & HndP & _) & _ & HdP & _). cbn in HndP, HdP.
  apply list.NoDup_cons in HndP as [Hx HndP]. pose proof (r_dspare _ _ Hr) as [Hx0 HP].
  destruct (dseg_head (pool h) None x P None (conj Hx0 HP)) as [Hn _].
  destruct (alter_hd_spec (pool h) (Some x) None P None HndP HP) as [HP' Hrel].
  unfold alloc_mem_frag. rewrite (r_spare _ _ Hr). cbn [hd_or lP]. unfold get. rewrite Hn.
  cbn [mem_frag_free set_spare]. eexists. split; [done|].
  set (h1 := set_spare h (hd_or P None)). destruct (upd_opt_heads h1 (hd_or P None) (put_pre None)) as (E1 & E2 & E3 & E4 & E5).
  split; [|split; [|by rewrite E4, E5]].
  - apply (repr_frame h _ _ _ P Hr); rewrite ?E1, ?E2, ?E3, ?upd_opt_pool; try done; cbn [lP lF lU lL].
    + unfold all_ids. cbn. by rewrite (Permutation_middle L).
    + apply Hr.
    + apply Hr.
    + by right.
    + left. split; [done|]. set_solver.
    + left. split; [done|]. set_solver.
  - intros y. rewrite upd_opt_pool. apply Hrel.
Qed.

Lemma free_frag_spec h P F U x L :
  repr h (mk_lists P F U (x :: L)) ->
  exists h', free_mem_frag (Some x) h = Some h' /\ repr h' (mk_lists (x :: P) F U L) /\ same_blocks h h'.
Proof.
  intros Hr. destruct (ids_disjoint _ (r_nodup _ _ Hr)) as ((_ & HndP & _) & HdL & HdP & _). cbn in HndP, HdL, HdP.
  unfold free_mem_frag. rewrite (valid_frag h _ x Hr) by (unfold all_ids; set_solver).
  destruct (r_range _ _ Hr x) as [_ Hx]; [unfold all_ids; set_solver|].
  destruct (dlist_push_spec (pool h) _ P x (proj2 (list.NoDup_cons _ _) (conj (proj1 (HdL x ltac:(set_solver))) HndP))
    Hx (r_dspare _ _ Hr) (or_introl eq_refl)) as [HP Hrel].
  pose proof (r_spare _ _ Hr) as Hsp. cbn [lP] in Hsp. eexists. split; [done|].
  cbn [mem_frag_free upd set_pool]. rewrite Hsp. set (h1 := upd _ x _) in *.
  destruct (upd_opt_heads h1 (hd_or P None) (put_pre (Some x))) as (E1 & E2 & E3 & E4 & E5).
  split; [|split; [|by cbn [heap_address heap_size set_spare]; rewrite E4, E5]].
  - apply (repr_frame h _ _ _ (x :: P) Hr); cbn [pool mem_frag_free free used set_spare lP lF lU lL]; rewrite ?E2, ?E3, ?upd_opt_pool; try done.
    + unfold all_ids. cbn. by rewrite (Permutation_middle L).
    + apply Hr.
    + apply Hr.
    + by right.
    + left. split; [done|]. set_solver.
    + left. split; [done|]. set_solver.
  - intros y. cbn [pool set_spare]. rewrite upd_opt_pool. apply Hrel.
Qed.

Lemma get_out_pool set_head h x :
  (forall h p, pool (set_head h p) = pool h) -> if_frag_valid (Some x) = Some x ->
  exists h', get_out_of_list set_head (Some x) h = Some h' /\ pool h' = unlink (pool h) x /\
    match pre (frag_at (pool h) x) with
    | None => exists p g, h' = upd_opt (set_head h (next (frag_at (pool h) x))) p g
    | Some q => exists g g' p, h' = upd_opt (upd h q g) p g'
    end.
Proof.
  intros Hset Hv. unfold get_out_of_list, unlink, get. rewrite Hv.
  destruct (pre (frag_at (pool h) x)) as [q|]; eexists; (split; [done|]); rewrite upd_opt_pool, ?Hset; eauto.
Qed.

Lemma hd_or_app (l1 l2 : list nat) e : hd_or (l1 ++ l2) e = hd_or l1 (hd_or l2 e).
Proof. by destruct l1. Qed.

Lemma last_or_nil l1 : last_or None l1 = None <-> l1 = [].
Proof.
  unfold last_or. destruct l1 as [|y l0 _] using rev_ind; [done|]. rewrite last_snoc.
  split; [done|]. by destruct l0.
Qed.

Lemma get_out_free h P F1 x F2 U L :
  repr h (mk_lists P (F1 ++ x :: F2) U L) ->
  exists h', get_out_of_free_list (Some x) h = Some h' /\ repr h' (mk_lists P (F1 ++ F2) U (x :: L)) /\ same_blocks h h'.
Proof.
  intros Hr. destruct (ids_disjoint _ (r_nodup _ _ Hr)) as ((_ & _ & HndF & _) & HdL & HdP & HdF & HdU). cbn in *.
  destruct (unlink_spec _ _ _ _ HndF (r_dfree _ _ Hr)) as (HF & Hrel & Hp & Hn).
  assert (if_frag_valid (Some x) = Some x) as Hv by (apply (valid_frag h _ x Hr); unfold all_ids; set_solver).
  destruct (get_out_pool set_free h x ltac:(done) Hv) as (h' & E & Hpool & Hh'). exists h'. split; [exact E|].
  rewrite Hp, Hn in Hh'.
  assert (mem_frag_free h' = mem_frag_free h /\ used h' = used h /\ free h' = hd_or (F1 ++ F2) None /\
          heap_address h' = heap_address h /\ heap_size h' = heap_size h) as (E1 & E2 & E3 & E4 & E5).
  { destruct (last_or None F1) as [q|] eqn:Eq.
    - destruct Hh' as (g & g' & p & ->). destruct (upd_opt_heads (upd h q g) p g') as (-> & -> & -> & -> & ->).
      split_and!; try done. cbn [free upd set_pool]. rewrite (r_free _ _ Hr). cbn [lF]. rewrite !hd_or_app.
      destruct F1; [|done]. done.
    - apply last_or_nil in Eq as ->. destruct Hh' as (p & g & ->).
      destruct (upd_opt_heads (set_free h (hd_or F2 None)) p g) as (-> & -> & -> & -> & ->). done. }
  split; [|split; [|done]].
  - apply (repr_frame h h' _ _ (F1 ++ F2) Hr); cbn [lP lF lU lL]; rewrite ?E1, ?E2, ?E3, ?Hpool; try done.
    + unfold all_ids. cbn. rewrite <- (Permutation_middle F1 F2 x). cbn [app]. by rewrite <- !Permutation_middle.
    + apply Hr.
    + apply Hr.
    + left. split; [done|]. set_solver.
    + by right.
    + left. split; [done|]. set_solver.
  - intros y. rewrite Hpool. apply Hrel.
Qed.

Lemma get_out_used h P F U1 x U2 L :
  repr h (mk_lists P F (U1 ++ x :: U2) L) ->
  exists h', get_out_of_used_list (Some x) h = Some h' /\ repr h' (mk_lists P F (U1 ++ U2) (x :: L)) /\ same_blocks h h'.
Proof.
  intros Hr. destruct (ids_disjoint _ (r_nodup _ _ Hr)) as ((_ & _ & _ & HndU) & HdL & HdP & HdF & HdU). cbn in *.
  destruct (unlink_spec _ _ _ _ HndU (r_dused _ _ Hr)) as (HU & Hrel & Hp & Hn).
  assert (if_frag_valid (Some x) = Some x) as Hv by (apply (valid_frag h _ x Hr); unfold all_ids; set_solver).
  destruct (get_out_pool set_used h x ltac:(done) Hv) as (h' & E & Hpool & Hh'). exists h'. split; [exact E|].
  rewrite Hp, Hn in Hh'.
  assert (mem_frag_free h' = mem_frag_free h /\ free h' = free h /\ used h' = hd_or (U1 ++ U2) None /\
          heap_address h' = heap_address h /\ heap_size h' = heap_size h) as (E1 & E2 & E3 & E4 & E5).
  { destruct (last_or None U1) as [q|] eqn:Eq.
    - destruct Hh' as (g & g' & p & ->). destruct (upd_opt_heads (upd h q g) p g') as (-> & -> & -> & -> & ->).
      split_and!; try done. cbn [used upd set_pool]. rewrite (r_used _ _ Hr). cbn [lU]. rewrite !hd_or_app.
      destruct U1; [|done]. done.
    - apply last_or_nil in Eq as ->. destruct Hh' as (p & g & ->).
      destruct (upd_opt_heads (set_used h (hd_or U2 None)) p g) as (-> & -> & -> & -> & ->). done. }
  split; [|split; [|done]].
  - apply (repr_frame h h' _ _ (U1 ++ U2) Hr); cbn [lP lF lU lL]; rewrite ?E1, ?E2, ?E3, ?Hpool; try done.
    + unfold all_ids. cbn. rewrite <- (Permutation_middle U1 U2 x). by rewrite <- !Permutation_middle.
    + apply Hr.
    + apply Hr.
    + left. split; [done|]. set_solver.
    + left. split; [done|]. set_solver.
    + by right.
  - intros y. rewrite Hpool. apply Hrel.
Qed.

Lemma add_used_spec h P F U x L :
  repr h (mk_lists P F U (x :: L)) ->
  exists h', add_into_used_list (Some x) h = Some h' /\ repr h' (mk_lists P F (x :: U) L) /\ same_blocks h h'.
Proof.
  intros Hr. destruct (ids_disjoint _ (r_nodup _ _ Hr)) as ((_ & _ & _ & HndU) & HdL & HdP & HdF & HdU). cbn in *.
  unfold add_into_used_list. rewrite (valid_frag h _ x Hr) by (unfold all_ids; set_solver).
  destruct (r_range _ _ Hr x) as [_ Hx]; [unfold all_ids; set_solver|].
  destruct (dlist_push_spec (pool h) _ U x (proj2 (list.NoDup_cons _ _) (conj (proj2 (proj2 (HdL x ltac:(set_solver)))) HndU))
    Hx (r_dused _ _ Hr) (or_intror eq_refl)) as [HU Hrel].
  pose proof (r_used _ _ Hr) as Hus. cbn [lU] in Hus. eexists. split; [done|].
  cbn [used upd set_pool]. rewrite Hus. set (h1 := upd _ x _) in *.
  destruct (upd_opt_heads h1 (hd_or U None) (put_pre (Some x))) as (E1 & E2 & E3 & E4 & E5).
  split; [|split; [|by cbn [heap_address heap_size set_used]; rewrite E4, E5]].
  - apply (repr_frame h _ _ _ (x :: U) Hr); cbn [pool mem_frag_free free used set_used lP lF lU lL]; rewrite ?E1, ?E2, ?upd_opt_pool; try done.
    + unfold all_ids. cbn. rewrite <- !Permutation_middle. done.
    + apply Hr.
    + apply Hr.
    + left. split; [done|]. set_solver.
    + left. split; [done|]. set_solver.
    + by right.
  - intros y. cbn [pool set_used]. rewrite upd_opt_pool. apply Hrel.
Qed.

(** *** Searches *)

Lemma ids_bound h l : repr h l -> (length (all_ids l) <= TOTAL_RAM_FRAG)%nat.
Proof.
  intros Hr. rewrite <- (length_seq TOTAL_RAM_FRAG 0). apply submseteq_length, NoDup_submseteq; [apply Hr|].
  intros x Hx. destruct (r_range _ _ Hr x Hx). apply elem_of_seq. lia.
Qed.

Lemma find_fit_loop_spec h size l p fuel :
  dseg (pool h) p l None -> (length l <= fuel)%nat ->
  find_fit_loop fuel h size (hd_or l None) = find (fun x => size <=? ram_size (get h x)) l.
Proof.
  revert p fuel. induction l as [|x l IH]; intros p [|fuel] Hl Hf; cbn [length] in Hf; try done; [lia|].
  cbn [hd_or find_fit_loop find]. destruct (size <=? _); [done|].
  destruct (dseg_head _ _ _ _ _ Hl) as [Hn _]. unfold get at 1. rewrite Hn. destruct Hl as [_ Hl]. apply (IH (Some x)); [done|lia].
Qed.

(** The test of the address search. *)
Definition at_addr (h : sie_heap) (addr : Z) (mode : addr_mode) (x : nat) : bool :=
  match mode with
  | AT_THIS_ADDR => ram_start (get h x) =? addr
  | BEFORE_THIS_ADDR => u32 (ram_start (get h x) + ram_size (get h x)) =? addr
  end.

Lemma find_addr_loop_spec h addr mode l p fuel :
  dseg (pool h) p l None -> (length l <= fuel)%nat ->
  find_addr_loop fuel h addr mode (hd_or l None) = find (at_addr h addr mode) l.
Proof.
  revert p fuel. induction l as [|x l IH]; intros p [|fuel] Hl Hf; cbn [length] in Hf; try done; [lia|].
  cbn [hd_or find_addr_loop find]. fold (at_addr h addr mode x). destruct (at_addr h addr mode x); [done|].
  destruct (dseg_head _ _ _ _ _ Hl) as [Hn _]. unfold get at 1. rewrite Hn. destruct Hl as [_ Hl]. apply (IH (Some x)); [done|lia].
Qed.

Lemma find_fit_frag_spec h l size :
  repr h l -> find_fit_frag h size = find (fun x => size <=? ram_size (get h x)) (lF l).
Proof.
  intros Hr. unfold find_fit_frag. rewrite (r_free _ _ Hr). pose proof (ids_bound h l Hr) as Hb.
  apply (find_fit_loop_spec _ _ _ None); [apply Hr|]. unfold all_ids in Hb. rewrite !length_app in Hb. lia.
Qed.

Lemma find_used_spec h l addr :
  repr h l -> addr <> 0 -> find_frag_by_addr h addr (used h) AT_THIS_ADDR = find (at_addr h addr AT_THIS_ADDR) (lU l).
Proof.
  intros Hr Ha. unfold find_frag_by_addr. rewrite (proj2 (Z.eqb_neq _ _) Ha), (r_used _ _ Hr). pose proof (ids_bound h l Hr) as Hb.
  apply (find_addr_loop_spec _ _ _ _ None); [apply Hr|]. unfold all_ids in Hb. rewrite !length_app in Hb. lia.
Qed.

Lemma find_free_spec h l addr mode :
  repr h l -> addr <> 0 -> find_frag_by_addr h addr (free h) mode = find (at_addr h addr mode) (lF l).
Proof.
  intros Hr Ha. unfold find_frag_by_addr. rewrite (proj2 (Z.eqb_neq _ _) Ha), (r_free _ _ Hr). pose proof (ids_bound h l Hr) as Hb.
  apply (find_addr_loop_spec _ _ _ _ None); [apply Hr|]. unfold all_ids in Hb. rewrite !length_app in Hb. lia.
Qed.

(** *** The sorted insertion *)

Fixpoint insert_by (sz : nat -> Z) (x : nat) (l : list nat) : list nat :=
  match l with
  | [] => [x]
  | y :: l => if sz x <=? sz y then x :: y :: l else y :: insert_by sz x l
  end.

Lemma insert_by_ext sz sz' x l : (forall y, sz y = sz' y) -> insert_by sz x l = insert_by sz' x l.
Proof. intros E. induction l as [|y l IH]; [done|]. cbn [insert_by]. by rewrite !E, IH. Qed.

Lemma insert_by_perm sz x l : insert_by sz x l ≡ₚ x :: l.
Proof.
  induction l as [|y l IH]; cbn [insert_by]; [done|]. destruct (_ <=? _); [done|].
  rewrite IH. apply Permutation_swap.
Qed.

Definition insert_here (h : sie_heap) (i t : nat) : sie_heap :=
  let h := upd h i (put_pre (pre (get h t))) in
  let h := upd h i (put_next (Some t)) in
  let h := upd h t (put_pre (Some i)) in
  match pre (get h i) with
  | None => set_free h (Some i)
  | Some q => upd h q (put_next (Some i))
  end.

Lemma insert_here_spec h P F1 t F2 U i L :
  repr h (mk_lists P (F1 ++ t :: F2) U (i :: L)) ->
  repr (insert_here h i t) (mk_lists P (F1 ++ i :: t :: F2) U L) /\ same_blocks h (insert_here h i t).
Proof.
  intros Hr. destruct (ids_disjoint _ (r_nodup _ _ Hr)) as ((_ & _ & HndF & _) & HdL & HdP & HdF & HdU). cbn in *.
  destruct (r_range _ _ Hr i) as [_ Hi]; [unfold all_ids; set_solver|].
  assert (i ∉ F1 ++ t :: F2) as HiF by set_solver. assert (i <> t) as Hit by set_solver.
  destruct (insert_before_spec (pool h) F1 t F2 i (proj2 (list.NoDup_cons _ _) (conj HiF HndF)) Hi (r_dfree _ _ Hr))
    as (HF & Hrel & Hp).
  set (h' := insert_here h i t).
  assert (pool h' = insert_before (pool h) i t /\ mem_frag_free h' = mem_frag_free h /\ used h' = used h /\
          free h' = hd_or (F1 ++ i :: t :: F2) None /\ heap_address h' = heap_address h /\ heap_size h' = heap_size h)
    as (Hpool & E1 & E2 & E3 & E4 & E5).
  { subst h'. unfold insert_here, insert_before, get. cbn [pool upd set_pool]. destruct Hi as [f Hf].
    set (s1 := alter _ t _).
    assert (pre (frag_at s1 i) = pre (frag_at (pool h) t)) as ->
      by (unfold frag_at at 1; subst s1; by rewrite lookup_alter_ne, !lookup_alter_eq, Hf).
    subst s1. rewrite Hp. destruct (last_or None F1) as [q|] eqn:Eq; cbn [pool set_free upd set_pool mem_frag_free used free heap_address heap_size].
    - split_and!; try done. rewrite (r_free _ _ Hr). cbn [lF]. rewrite !hd_or_app. by destruct F1.
    - apply last_or_nil in Eq as ->. done. }
  split; [|split; [|done]].
  - apply (repr_frame h h' _ _ (F1 ++ i :: t :: F2) Hr); cbn [lP lF lU lL]; rewrite ?E1, ?E2, ?E3, ?Hpool; try done.
    + unfold all_ids. cbn. rewrite <- (Permutation_middle F1 (t :: F2) i). cbn [app]. by rewrite <- !Permutation_middle.
    + apply Hr.
    + apply Hr.
    + left. split; [done|]. set_solver.
    + by right.
    + left. split; [done|]. set_solver.
  - intros y. rewrite Hpool. apply Hrel.
Qed.

Definition insert_end (h : sie_heap) (i t : nat) : sie_heap :=
  let h := upd h t (put_next (Some i)) in
  let h := upd h i (put_pre (Some t)) in
  upd h i (put_next None).

Lemma insert_end_spec h P F1 t U i L :
  repr h (mk_lists P (F1 ++ [t]) U (i :: L)) ->
  repr (insert_end h i t) (mk_lists P (F1 ++ [t; i]) U L) /\ same_blocks h (insert_end h i t).
Proof.
  intros Hr. destruct (ids_disjoint _ (r_nodup _ _ Hr)) as ((_ & _ & HndF & _) & HdL & HdP & HdF & HdU). cbn in *.
  destruct (r_range _ _ Hr i) as [_ Hi]; [unfold all_ids; set_solver|].
  assert (i ∉ F1 ++ [t]) as HiF by set_solver.
  destruct (insert_last_spec (pool h) F1 t i (proj2 (list.NoDup_cons _ _) (conj HiF HndF)) Hi (r_dfree _ _ Hr)) as (HF & Hrel).
  split; [|split; [|done]].
  - apply (repr_frame h _ _ _ (F1 ++ [t; i]) Hr); cbn [lP lF lU lL]; try done.
    + unfold all_ids. cbn. replace (F1 ++ [t; i]) with ((F1 ++ [t]) ++ [i]) by by rewrite <- app_assoc.
      rewrite <- (Permutation_cons_append (F1 ++ [t])). cbn [app]. by rewrite <- !Permutation_middle.
    + apply Hr.
    + cbn [free insert_end upd set_pool]. rewrite (r_free _ _ Hr). cbn [lF]. by destruct F1.
    + apply Hr.
    + left. split; [done|]. set_solver.
    + by right.
    + left. split; [done|]. set_solver.
  - intros y. apply Hrel.
Qed.

Lemma add_free_loop_spec h P F1 t F2 U i L fuel :
  repr h (mk_lists P (F1 ++ t :: F2) U (i :: L)) -> (length (t :: F2) <= fuel)%nat ->
  let h' := add_free_loop fuel i (Some t) h in
  repr h' (mk_lists P (F1 ++ insert_by (fun x => ram_size (get h x)) i (t :: F2)) U L) /\ same_blocks h h'.
Proof.
  revert F1 t fuel. induction F2 as [|n F2 IH]; intros F1 t [|fuel] Hr Hf; cbn [length] in Hf; try lia;
    cbn [add_free_loop insert_by];
    destruct (ram_size (get h i) <=? ram_size (get h t)) eqn:Es; try (by apply insert_here_spec);
    pose proof (r_dfree _ _ Hr) as HF; cbn [lF] in HF; apply dseg_app in HF as [_ HF];
    destruct (dseg_head _ _ _ _ _ HF) as [Hn _]; change (next (get h t)) with (next (frag_at (pool h) t));
    rewrite Hn; cbn [hd_or].
  - by apply insert_end_spec.
  - specialize (IH (F1 ++ [t]) n fuel). rewrite <- !app_assoc in IH. cbn [insert_by app] in IH.
    apply IH; [done|cbn; lia].
Qed.

Lemma add_free_spec h P F U i L :
  repr h (mk_lists P F U (i :: L)) ->
  exists h', add_into_free_list (Some i) h = Some h' /\
    repr h' (mk_lists P (insert_by (fun x => ram_size (get h x)) i F) U L) /\ same_blocks h h'.
Proof.
  intros Hr. unfold add_into_free_list. rewrite (valid_frag h _ i Hr) by (unfold all_ids; set_solver).
  rewrite (r_free _ _ Hr). cbn [lF]. destruct F as [|t F]; cbn [hd_or].
  - destruct (ids_disjoint _ (r_nodup _ _ Hr)) as (_ & HdL & HdP & HdF & HdU). cbn in *.
    destruct (r_range _ _ Hr i) as [_ [f Hf]]; [unfold all_ids; set_solver|].
    eexists. split; [done|]. cbn [insert_by].
    assert (relinked (pool h) (alter (put_pre None) i (alter (put_next None) i (pool h))) [i]) as Hrel
      by (apply relinked_pre; [set_solver|]; apply relinked_next; [set_solver|]; apply relinked_refl).
    split; [|split; [apply Hrel|done]].
    apply (repr_frame h _ _ _ [i] Hr); cbn [lP lF lU lL]; try done; try apply Hr.
    + unfold all_ids. cbn. by rewrite <- !Permutation_middle.
    + left. split; [done|]. set_solver.
    + right. split; [|done]. eexists. cbn. by rewrite !lookup_alter_eq, Hf.
    + left. split; [done|]. set_solver.
  - eexists. split; [done|]. apply (add_free_loop_spec h P [] t F U i L); [done|].
    pose proof (ids_bound h _ Hr) as Hb. unfold all_ids in Hb. cbn [lL lP lF lU] in Hb.
    rewrite !length_app in Hb. cbn [length] in Hb |- *. lia.
Qed.

(** Changing the block of a descriptor that is held. *)
Lemma upd_block_spec h P F U L i st sz :
  repr h (mk_lists P F U L) -> i ∈ L ->
  repr (upd h i (put_block st sz)) (mk_lists P F U L) /\
  (forall y, blk (pool (upd h i (put_block st sz))) y = if decide (y = i) then (st, sz) else blk (pool h) y).
Proof.
  intros Hr Hi. destruct (ids_disjoint _ (r_nodup _ _ Hr)) as (_ & HdL & _). cbn in HdL.
  destruct (r_range _ _ Hr i) as [_ [f Hf]]; [unfold all_ids; cbn; set_solver|]. split.
  - destruct Hr as [? ? ? ? ? ? ? Hrg]. constructor; cbn [upd set_pool pool mem_frag_free free used]; try done;
      try (apply dseg_alter; [set_solver|done]).
    intros x Hx. destruct (Hrg x Hx). split; [done|]. by apply lookup_alter_is_Some.
  - intros y. cbn [pool upd set_pool]. unfold blk, frag_at. destruct (decide (y = i)) as [->|].
    + by rewrite lookup_alter_eq, Hf.
    + by rewrite lookup_alter_ne.
Qed.

End operations.

(** ** What an allocation does to the lists *)

Definition blk_size (h : sie_heap) (x : nat) : Z := (blk (pool h) x).2.

Section calls.

Lemma same_get h h' x : same_blocks h h' -> ram_size (get h' x) = ram_size (get h x) /\ ram_start (get h' x) = ram_start (get h x).
Proof. intros [Hb _]. specialize (Hb x). unfold blk in Hb. unfold get. by injection Hb. Qed.

Lemma find_split (f : nat -> bool) l x :
  find f l = Some x -> exists l1 l2, l = l1 ++ x :: l2 /\ f x = true /\ Forall (fun y => f y = false) l1.
Proof.
  induction l as [|y l IH]; cbn [find]; [done|]. destruct (f y) eqn:E.
  - intros [= ->]. exists [], l. by split_and!.
  - intros Hx. destruct (IH Hx) as (l1 & l2 & -> & ? & ?). exists (y :: l1), l2. split_and!; [done|done|]. by constructor.
Qed.

Lemma find_first (f : nat -> bool) l1 x l2 :
  f x = true -> Forall (fun y => f y = false) l1 -> find f (l1 ++ x :: l2) = Some x.
Proof.
  intros Hx. induction l1 as [|y l1 IH]; intros Hl; cbn [find app]; [by rewrite Hx|].
  inversion Hl as [|? ? Hy Hl']; subst. rewrite Hy. auto.
Qed.

Lemma find_ext (f g : nat -> bool) l : (forall x, f x = g x) -> find f l = find g l.
Proof. intros E. induction l as [|y l IH]; cbn [find]; [done|]. by rewrite E, IH. Qed.

Lemma find_some_elem (f : nat -> bool) l x : find f l = Some x -> x ∈ l.
Proof. intros Hx. apply find_some in Hx as [Hx _]. by apply list_elem_of_In. Qed.

Lemma same_at h h' addr mode x : same_blocks h h' -> at_addr h' addr mode x = at_addr h addr mode x.
Proof. intros Hb. destruct (same_get _ _ x Hb) as [Es Et]. destruct mode; cbn; by rewrite ?Es, ?Et. Qed.

Lemma find_none_forall (f : nat -> bool) l : find f l = None -> Forall (fun y => f y = false) l.
Proof.
  induction l as [|y l IH]; cbn [find]; [constructor|]. destruct (f y) eqn:E; [done|]. intros. constructor; auto.
Qed.

Lemma repr_perm h P F U L L' : L ≡ₚ L' -> repr h (mk_lists P F U L) -> repr h (mk_lists P F U L').
Proof.
  intros HL [? ? ? ? ? ? Hnd Hrg]. constructor; try done; unfold all_ids in *; cbn [lL lP lF lU] in *.
  - by rewrite <- HL.
  - intros x. rewrite <- HL. apply Hrg.
Qed.

(** Out of memory, or out of descriptors. *)
Lemma malloc_fails h P F U sz :
  repr h (mk_lists P F U []) ->
  find (fun x => ASSIGNED_FOR_1024BYTE sz <=? ram_size (get h x)) F = None \/ P = [] ->
  sie_malloc sz h = (0, h).
Proof.
  intros Hr Hf. unfold sie_malloc. rewrite (find_fit_frag_spec h _ _ Hr). cbn [lF].
  destruct (find _ F) as [t|] eqn:Ef; [|done]. destruct Hf as [?| ->]; [done|]. by rewrite (alloc_none h F U [] Hr).
Qed.

Lemma malloc_succeeds h n P F U sz t :
  repr h (mk_lists (n :: P) F U []) -> 0 <= sz ->
  let size := ASSIGNED_FOR_1024BYTE sz in
  find (fun x => size <=? ram_size (get h x)) F = Some t ->
  exists h' F1 F2, F = F1 ++ t :: F2 /\ Forall (fun y => ram_size (get h y) < size) F1 /\
    let '(st, s) := blk (pool h) t in
    sie_malloc sz h = (st, h') /\ size <= s /\
    blk (pool h') n = (st, size) /\ blk (pool h') t = (u32 (st + size), u32 (s - size)) /\
    (forall y, y <> n -> y <> t -> blk (pool h') y = blk (pool h) y) /\
    heap_address h' = heap_address h /\ heap_size h' = heap_size h /\
    repr h' (if u32 (s - size) =? 0 then mk_lists (t :: P) (F1 ++ F2) (n :: U) []
             else mk_lists P (insert_by (blk_size h') t (F1 ++ F2)) (n :: U) []).
Proof.
  intros Hr Hsz size Hfind. destruct (find_split _ _ _ Hfind) as (F1 & F2 & -> & Hfit & Hsmall).
  unfold sie_malloc. fold size. rewrite (find_fit_frag_spec h _ _ Hr). cbn [lF]. rewrite Hfind.
  destruct (alloc_some h n P _ U [] Hr) as (h1 & -> & Hr1 & Hb1).
  destruct (get_out_free h1 P F1 t F2 U [n] Hr1) as (h2 & -> & Hr2 & Hb2).
  assert (n <> t) as Hnt by (pose proof (r_nodup _ _ Hr2) as Hnd; unfold all_ids in Hnd; cbn in Hnd;
         apply list.NoDup_cons in Hnd as [Hnd _]; set_solver).
  destruct (upd_block_spec h2 P (F1 ++ F2) U [t; n] n (ram_start (get h2 t)) size Hr2 ltac:(set_solver)) as [Hr3 Hb3].
  set (h3 := upd h2 n _) in *. apply (repr_perm _ _ _ _ _ [n; t]) in Hr3; [|apply Permutation_swap].
  destruct (add_used_spec h3 P (F1 ++ F2) U n [t] Hr3) as (h4 & -> & Hr4 & Hb4).
  destruct (same_get _ _ t Hb1) as [Es1 Et1], (same_get _ _ t Hb2) as [Es2 Et2], (same_get _ _ t Hb4) as [Es4 Et4].
  pose proof (Hb3 t) as Hbt3. rewrite decide_False in Hbt3 by done. 
  pose proof (f_equal fst Hbt3 : ram_start (get h3 t) = ram_start (get h2 t)) as Et3.
  pose proof (f_equal snd Hbt3 : ram_size (get h3 t) = ram_size (get h2 t)) as Es3.
  assert (ram_start (get h4 t) = ram_start (get h t) /\ ram_size (get h4 t) = ram_size (get h t)) as [Est Esz] by lia.
  destruct (upd_block_spec h4 P (F1 ++ F2) (n :: U) [t] t (u32 (ram_start (get h4 t) + size)) (u32 (ram_size (get h4 t) - size))
    Hr4 ltac:(set_solver)) as [Hr5 Hb5]. set (h5 := upd h4 t _) in *.
  rewrite Est, Esz in Hb5. unfold blk at 1. fold (get h t).
  assert (forall y, y <> t -> blk (pool h5) y = if decide (y = n) then (ram_start (get h t), size) else blk (pool h) y) as Hb.
  { intros y Hy. rewrite Hb5, decide_False, (proj1 Hb4), Hb3 by done. rewrite Et2, Et1. case_decide; [done|].
    rewrite (proj1 Hb2), (proj1 Hb1). done. }
  pose proof (Hb5 t) as Hbt. rewrite decide_True in Hbt by done.
  assert (ram_size (get h5 t) = u32 (ram_size (get h t) - size)) as -> by exact (f_equal snd Hbt).
  assert (exists h6, (if u32 (ram_size (get h t) - size) =? 0 then free_mem_frag (Some t) h5 else add_into_free_list (Some t) h5) = Some h6 /\
    same_blocks h5 h6 /\ repr h6 (if u32 (ram_size (get h t) - size) =? 0 then mk_lists (t :: P) (F1 ++ F2) (n :: U) []
             else mk_lists P (insert_by (blk_size h6) t (F1 ++ F2)) (n :: U) [])) as (h6 & -> & Hb6 & Hr6).
  { destruct (_ =? 0).
    - destruct (free_frag_spec h5 _ _ _ _ _ Hr5) as (h6 & ? & ? & ?). by exists h6.
    - destruct (add_free_spec h5 _ _ _ _ _ Hr5) as (h6 & ? & Hr6 & Hb6). exists h6. split_and!; [done|done|].
      erewrite insert_by_ext; [exact Hr6|]. intros y. unfold blk_size. by rewrite (proj1 Hb6). }
  exists h6, F1, F2. split_and!; try done.
  - eapply Forall_impl; [exact Hsmall|]. cbn. intros. lia.
  - destruct (same_get _ _ n Hb6) as [_ ->]. pose proof (Hb n Hnt) as Hbn. rewrite decide_True in Hbn by done.
    by rewrite (f_equal fst Hbn : ram_start (get h5 n) = _).
  - lia.
  - rewrite (proj1 Hb6), Hb by done. by rewrite decide_True.
  - by rewrite (proj1 Hb6), Hbt.
  - intros y Hyn Hyt. rewrite (proj1 Hb6), Hb by done. by rewrite decide_False.
  - destruct Hb6 as (_ & -> & _). change (heap_address h5) with (heap_address h4). destruct Hb4 as (_ & -> & _).
    change (heap_address h3) with (heap_address h2). destruct Hb2 as (_ & -> & _). apply Hb1.
  - destruct Hb6 as (_ & _ & ->). change (heap_size h5) with (heap_size h4). destruct Hb4 as (_ & _ & ->).
    change (heap_size h3) with (heap_size h2). destruct Hb2 as (_ & _ & ->). apply Hb1.
Qed.

Lemma same_blocks_trans h1 h2 h3 : same_blocks h1 h2 -> same_blocks h2 h3 -> same_blocks h1 h3.
Proof. intros (Hb & Ha & Hs) (Hb' & Ha' & Hs'). split_and!; [intros y; by rewrite Hb', Hb|congruence|congruence]. Qed.

Lemma grow_spec h P F U L i n :
  repr h (mk_lists P F U L) -> i ∈ L ->
  repr (grow i n h) (mk_lists P F U L) /\
  (forall y, blk (pool (grow i n h)) y =
     if decide (y = i) then ((blk (pool h) i).1, u32 ((blk (pool h) i).2 + n)) else blk (pool h) y).
Proof. intros Hr Hi. by apply upd_block_spec. Qed.

(** Taking a member out of the free list and giving its descriptor back. *)
Lemma drop_free h P F U L x :
  repr h (mk_lists P F U L) -> x ∈ F ->
  exists h1 h' F', get_out_of_free_list (Some x) h = Some h1 /\ free_mem_frag (Some x) h1 = Some h' /\
    F ≡ₚ x :: F' /\ F' `sublist_of` F /\ repr h' (mk_lists (x :: P) F' U L) /\ same_blocks h h'.
Proof.
  intros Hr Hx. apply list_elem_of_split in Hx as (F1 & F2 & ->).
  destruct (get_out_free h P F1 x F2 U L Hr) as (h1 & E1 & Hr1 & Hb1).
  destruct (free_frag_spec h1 P (F1 ++ F2) U x L Hr1) as (h2 & E2 & Hr2 & Hb2).
  exists h1, h2, (F1 ++ F2). split_and!; try done.
  - symmetry. apply Permutation_middle.
  - apply sublist_app; [done|]. by apply sublist_cons.
  - by eapply same_blocks_trans.
Qed.

(** Taking a member out of the free list while [t] is held, and giving [t] back. *)
Lemma swap_free h P F U t x :
  repr h (mk_lists P F U [t]) -> x ∈ F ->
  exists h1 h' F', get_out_of_free_list (Some x) h = Some h1 /\ free_mem_frag (Some t) h1 = Some h' /\
    F ≡ₚ x :: F' /\ F' `sublist_of` F /\ repr h' (mk_lists (t :: P) F' U [x]) /\ same_blocks h h'.
Proof.
  intros Hr Hx. apply list_elem_of_split in Hx as (F1 & F2 & ->).
  destruct (get_out_free h P F1 x F2 U [t] Hr) as (h1 & E1 & Hr1 & Hb1).
  apply (repr_perm _ _ _ _ _ [t; x]) in Hr1; [|apply Permutation_swap].
  destruct (free_frag_spec h1 P (F1 ++ F2) U t [x] Hr1) as (h2 & E2 & Hr2 & Hb2).
  exists h1, h2, (F1 ++ F2). split_and!; try done.
  - symmetry. apply Permutation_middle.
  - apply sublist_app; [done|]. by apply sublist_cons.
  - by eapply same_blocks_trans.
Qed.

(** The block after a merge. *)
Definition merged_blk (h : sie_heap) (t : nat) (tmp1 tmp2 : option nat) : Z * Z :=
  let sz := blk_size h in
  match tmp1, tmp2 with
  | None, None => blk (pool h) t
  | Some t1, None => ((blk (pool h) t).1, u32 (sz t + sz t1))
  | None, Some t2 => ((blk (pool h) t2).1, u32 (sz t2 + sz t))
  | Some t1, Some t2 => ((blk (pool h) t2).1, u32 (sz t2 + u32 (sz t + sz t1)))
  end.

Lemma merged_blk_ext h h' t tmp1 tmp2 :
  (forall y, blk (pool h') y = blk (pool h) y) -> merged_blk h' t tmp1 tmp2 = merged_blk h t tmp1 tmp2.
Proof. intros Hb. unfold merged_blk, blk_size. destruct tmp1, tmp2; by rewrite !Hb. Qed.

(** Only the block of [m] differs, and is [b]. *)
Definition block_set (h h' : sie_heap) (m : nat) (b : Z * Z) : Prop :=
  (forall y, blk (pool h') y = if decide (y = m) then b else blk (pool h) y) /\
  heap_address h' = heap_address h /\ heap_size h' = heap_size h.

Lemma grow_held h h0 P F U m n :
  same_blocks h h0 -> repr h0 (mk_lists P F U [m]) ->
  repr (grow m n h0) (mk_lists P F U [m]) /\ block_set h (grow m n h0) m ((blk (pool h) m).1, u32 (blk_size h m + n)).
Proof.
  intros (Hb & Ha & Hs) Hr. destruct (grow_spec h0 P F U [m] m n Hr ltac:(set_solver)) as [Hg Hy].
  split; [done|]. split; [|done]. intros y. unfold blk_size. rewrite Hy, !Hb. done.
Qed.

(** The merged block is held by the descriptor of the block before, if there is one. *)
Lemma merge_spec h P F U t tmp1 tmp2 :
  repr h (mk_lists P F U [t]) ->
  (forall x, tmp1 = Some x -> x ∈ F) -> (forall x, tmp2 = Some x -> x ∈ F) ->
  (forall x, tmp1 = Some x -> tmp2 <> Some x) ->
  let m := default t tmp2 in
  exists h' P' F', merge t tmp1 tmp2 h = Some (m, h') /\ repr h' (mk_lists P' F' U [m]) /\
    length P' = (length P + length (option_list tmp1) + length (option_list tmp2))%nat /\
    F ≡ₚ option_list tmp1 ++ option_list tmp2 ++ F' /\ F' `sublist_of` F /\
    block_set h h' m (merged_blk h t tmp1 tmp2).
Proof.
  intros Hr H1 H2 Hne m.
  destruct tmp1 as [t1|], tmp2 as [t2|]; cbn [default option_list app merge merged_blk from_option id] in *;
    rewrite ?(valid_frag h _ _ Hr) by (unfold all_ids; cbn; set_solver); cbn [mbind option_bind].
  - assert (t1 <> t2) as H12 by (intros ->; by apply (Hne t2)).
    destruct (drop_free h P F U [t] t1 Hr (H1 _ eq_refl)) as (h1 & h2 & F1 & -> & E2 & Hp & Hs & Hr2 & Hb2).
    cbn [mbind option_bind]. rewrite E2. cbn [mbind option_bind].
    destruct (swap_free h2 (t1 :: P) F1 U t t2 Hr2) as (h3 & h4 & F2 & -> & E4 & Hp' & Hs' & Hr4 & Hb4).
    { pose proof (H2 _ eq_refl) as Hin. rewrite Hp in Hin. set_solver. }
    cbn [mbind option_bind]. rewrite E4. cbn [mbind option_bind].
    pose proof (same_blocks_trans _ _ _ Hb2 Hb4) as Hb.
    rewrite (proj1 (same_get _ _ t Hb)), (proj1 (same_get _ _ t1 Hb)).
    destruct (grow_held h h4 _ _ _ _ (u32 (blk_size h t + blk_size h t1)) Hb Hr4).
    eexists _, _, F2. split_and!; [done|done|cbn; lia| |by etrans|done]. by rewrite Hp, Hp'.
  - destruct (drop_free h P F U [t] t1 Hr (H1 _ eq_refl)) as (h1 & h2 & F1 & -> & E2 & Hp & Hs & Hr2 & Hb).
    cbn [mbind option_bind]. rewrite E2. cbn [mbind option_bind]. rewrite (proj1 (same_get _ _ t1 Hb)).
    destruct (grow_held h h2 _ _ _ _ (blk_size h t1) Hb Hr2). eexists _, _, F1. split_and!; try done. cbn. lia.
  - destruct (swap_free h P F U t t2 Hr (H2 _ eq_refl)) as (h1 & h2 & F1 & -> & E2 & Hp & Hs & Hr2 & Hb).
    cbn [mbind option_bind]. rewrite E2. cbn [mbind option_bind]. rewrite (proj1 (same_get _ _ t Hb)).
    destruct (grow_held h h2 _ _ _ _ (blk_size h t) Hb Hr2). eexists _, _, F1. split_and!; try done. cbn. lia.
  - exists h, P, F. do 2 (split; [done|]). split; [cbn; lia|]. do 2 (split; [done|]). split; [|done].
    intros y. case_decide; [by subst|done].
Qed.

(** An address that is not that of a used block is refused. *)
Lemma free_fails h P F U addr :
  repr h (mk_lists P F U []) -> addr = 0 \/ Forall (fun x => ram_start (get h x) <> addr) U ->
  sie_free addr h = (-1, h).
Proof.
  intros Hr Ha. unfold sie_free.
  assert (find_frag_by_addr h addr (used h) AT_THIS_ADDR = None) as ->; [|done].
  destruct (decide (addr = 0)) as [->|Hne]; [done|]. destruct Ha as [?|Ha]; [done|].
  rewrite (find_used_spec h _ _ Hr Hne). cbn [lU]. clear Hr.
  induction U as [|x U IH]; [done|]. inversion Ha as [|? ? Hx Hl]; subst. cbn [find at_addr].
  rewrite (proj2 (Z.eqb_neq _ _) Hx). auto.
Qed.

Lemma free_succeeds h P F U1 t U2 addr :
  repr h (mk_lists P F (U1 ++ t :: U2) []) -> 0 < addr < 2 ^ 32 -> 0 < ram_size (get h t) -> addr + ram_size (get h t) < 2 ^ 32 ->
  ram_start (get h t) = addr -> Forall (fun x => ram_start (get h x) <> addr) U1 ->
  let tmp1 := find (at_addr h (addr + ram_size (get h t)) AT_THIS_ADDR) F in
  let tmp2 := find (at_addr h addr BEFORE_THIS_ADDR) F in
  (forall x, tmp1 = Some x -> tmp2 <> Some x) ->
  let m := default t tmp2 in
  exists h' P' F', sie_free addr h = (0, h') /\
    length P' = (length P + length (option_list tmp1) + length (option_list tmp2))%nat /\
    F ≡ₚ option_list tmp1 ++ option_list tmp2 ++ F' /\ F' `sublist_of` F /\
    repr h' (mk_lists P' (insert_by (blk_size h') m F') (U1 ++ U2) []) /\
    block_set h h' m (merged_blk h t tmp1 tmp2).
Proof.
  intros Hr Ha Hsz Hend Hst Hpre tmp1 tmp2 Hne m. unfold sie_free.
  rewrite (find_used_spec h _ _ Hr) by lia. cbn [lU].
  rewrite (find_first _ U1 t U2); [|by apply Z.eqb_eq|eapply Forall_impl; [exact Hpre|intros; by apply Z.eqb_neq]].
  rewrite (valid_frag h _ t Hr) by (unfold all_ids; cbn; set_solver).
  destruct (get_out_used h P F U1 t U2 [] Hr) as (h1 & -> & Hr1 & Hb1).
  destruct (same_get _ _ t Hb1) as [Es _]. rewrite Es, (u32_small (addr + _)) by lia.
  rewrite !(find_free_spec h1 _ _ _ Hr1) by lia. cbn [lF].
  rewrite !(find_ext (at_addr h1 _ _) (at_addr h _ _)) by (intros; by apply same_at). fold tmp1 tmp2.
  destruct (merge_spec h1 P F (U1 ++ U2) t tmp1 tmp2 Hr1) as (h2 & P2 & F2 & -> & Hr2 & Hl & Hp & Hs & Hb2);
    [intros ? Hx; by apply find_some_elem in Hx..|done|]. fold m in Hr2, Hb2 |- *.
  destruct (add_free_spec h2 _ _ _ _ _ Hr2) as (h3 & E3 & Hr3 & Hb3). unfold free_right_end. rewrite E3.
  exists h3, P2, F2. split_and!; [done|done|done|done| |].
  - erewrite insert_by_ext; [exact Hr3|]. intros y. unfold blk_size. by rewrite (proj1 Hb3).
  - destruct Hb1 as (Hb1 & ? & ?), Hb2 as (Hb2 & ? & ?), Hb3 as (Hb3 & ? & ?).
    split_and!; [|congruence..]. intros y. rewrite Hb3, Hb2. case_decide; [|done || apply Hb1].
    by apply merged_blk_ext.
Qed.


End calls.
