(* ===== verification/SieHeap.v ===== *)
(** * What the Silan heap guarantees (arch/mips/silan/dlna/sie_malloc.c)

    The blocks on the free and used lists tile the arena, no two free blocks
    touch, and the free list is in order of size.  [sie_malloc] and [sie_free]
    keep this, from [init_sie_heap] on; what their callers get follows from it. *)

From Stdlib Require Import ZArith Lia.
From stdpp Require Import base numbers list gmap fin_maps option sorting relations.
From S2P Require Import Prelude SieMalloc.

Local Open Scope Z_scope.

(** ** Tilings *)

(** The blocks [b x] for [x] in [o], in this order, tile the interval from [st] to [e]. *)
Fixpoint chain (b : nat -> Z * Z) (st : Z) (o : list nat) (e : Z) : Prop :=
  match o with
  | [] => st = e
  | x :: o => (b x).1 = st /\ 0 < (b x).2 /\ chain b (st + (b x).2) o e
  end.

Abbreviation end_of b x := ((b x).1 + (b x).2).

Section chain.

Context {b : nat -> Z * Z}.
Implicit Types (st e : Z) (o : list nat).

Lemma chain_app st o1 o2 e : chain b st (o1 ++ o2) e <-> exists m, chain b st o1 m /\ chain b m o2 e.
Proof.
  revert st. induction o1 as [|x o1 IH]; intros st; cbn [app chain].
  - split; [by exists st|by intros (? & -> & ?)].
  - rewrite IH. naive_solver.
Qed.

Lemma chain_eq {st o e st' e'} : chain b st o e -> st = st' -> e = e' -> chain b st' o e'.
Proof. by intros ? -> ->. Qed.

Lemma chain_le st o e : chain b st o e -> st <= e.
Proof. revert st. induction o as [|x o IH]; intros st; cbn [chain]; [lia|]. intros (? & ? & ?%IH). lia. Qed.

Lemma chain_in st o e x : chain b st o e -> x ∈ o -> st <= (b x).1 /\ 0 < (b x).2 /\ end_of b x <= e.
Proof.
  revert st. induction o as [|y o IH]; intros st; cbn [chain]; [set_solver|].
  intros (Hst & Hsz & Hc) [->|Hx]%elem_of_cons.
  - apply chain_le in Hc. lia.
  - destruct (IH _ Hc Hx). lia.
Qed.

(** The blocks before and after a member. *)
Lemma chain_split st o1 x o2 e :
  chain b st (o1 ++ x :: o2) e <-> chain b st o1 (b x).1 /\ 0 < (b x).2 /\ chain b (end_of b x) o2 e.
Proof.
  rewrite chain_app. cbn [chain]. split.
  - by intros (m & H1 & <- & H2 & H3).
  - intros (H1 & H2 & H3). by exists (b x).1.
Qed.

Lemma chain_nodup st o e : chain b st o e -> NoDup o.
Proof.
  revert st. induction o as [|x o IH]; intros st; cbn [chain]; [constructor|]. intros (Hst & Hsz & Hc).
  constructor; [|by eapply IH]. intros Hin%(chain_in _ _ _ _ Hc). lia.
Qed.

Lemma chain_disjoint st o e x y :
  chain b st o e -> x ∈ o -> y ∈ o -> x <> y -> end_of b x <= (b y).1 \/ end_of b y <= (b x).1.
Proof.
  intros Hc Hx Hy Hne. apply list_elem_of_split in Hx as (o1 & o2 & ->). apply chain_split in Hc as (H1 & H2 & H3).
  apply elem_of_app in Hy as [Hy|[->|Hy]%elem_of_cons]; [|done|].
  - destruct (chain_in _ _ _ _ H1 Hy). lia.
  - destruct (chain_in _ _ _ _ H3 Hy). lia.
Qed.

(** Blocks that meet in a point are the same. *)
Lemma chain_inj st o e x y p :
  chain b st o e -> x ∈ o -> y ∈ o ->
  (b x).1 <= p < end_of b x -> (b y).1 <= p < end_of b y -> x = y.
Proof.
  intros Hc Hx Hy Hpx Hpy. destruct (decide (x = y)); [done|].
  destruct (chain_disjoint _ _ _ x y Hc Hx Hy); [done|lia..].
Qed.

Lemma chain_start st o e x y : chain b st o e -> x ∈ o -> y ∈ o -> (b x).1 = (b y).1 -> x = y.
Proof.
  intros Hc Hx Hy E. destruct (chain_in _ _ _ _ Hc Hx), (chain_in _ _ _ _ Hc Hy).
  apply (chain_inj _ _ _ _ _ (b x).1 Hc); [done..|lia|lia].
Qed.

Lemma chain_end st o e x y : chain b st o e -> x ∈ o -> y ∈ o -> end_of b x = end_of b y -> x = y.
Proof.
  intros Hc Hx Hy E. destruct (chain_in _ _ _ _ Hc Hx), (chain_in _ _ _ _ Hc Hy).
  apply (chain_inj _ _ _ _ _ (end_of b x - 1) Hc); [done..|lia|lia].
Qed.

(** The block that begins where [x] ends is the next one. *)
Lemma chain_next st o1 x o2 e y :
  chain b st (o1 ++ x :: o2) e -> y ∈ o1 ++ x :: o2 -> (b y).1 = end_of b x -> exists o2', o2 = y :: o2'.
Proof.
  intros Hc Hy E. pose proof Hc as Hs. apply chain_split in Hs as (H1 & H2 & H3).
  destruct (chain_in _ _ _ _ Hc Hy) as (? & ? & ?). destruct o2 as [|z o2]; cbn [chain] in H3; [lia|].
  exists o2. f_equal. apply (chain_start _ _ _ _ _ Hc); [set_solver|done|lia].
Qed.

(** The block that ends where [x] begins is the one before. *)
Lemma chain_prev st o1 x o2 e y :
  chain b st (o1 ++ x :: o2) e -> y ∈ o1 ++ x :: o2 -> end_of b y = (b x).1 -> exists o1', o1 = o1' ++ [y].
Proof.
  intros Hc Hy E. pose proof Hc as Hs. apply chain_split in Hs as (H1 & H2 & H3).
  destruct (chain_in _ _ _ _ Hc Hy) as (? & ? & ?).
  destruct o1 as [|z o1 _] using rev_ind; cbn [chain] in H1; [lia|].
  apply chain_split in H1 as (_ & _ & Hz). cbn [chain] in Hz.
  exists o1. do 2 f_equal. apply (chain_end _ _ _ _ _ Hc); [set_solver|done|lia].
Qed.

End chain.

Lemma chain_ext b b' st o e : (forall x, x ∈ o -> b' x = b x) -> chain b st o e -> chain b' st o e.
Proof.
  revert st. induction o as [|x o IH]; intros st Hb; cbn [chain]; [done|]. rewrite (Hb x) by set_solver.
  intros (? & ? & ?). split_and!; [done..|]. apply IH; [set_solver|done].
Qed.

(** ** Sizes *)

Lemma ASSIGNED_value sz :
  0 < sz <= 2 ^ 32 - 1024 -> ASSIGNED_FOR_1024BYTE sz = 1024 * ((sz + 1023) / 1024).
Proof.
  intros Hsz. unfold ASSIGNED_FOR_1024BYTE. rewrite (proj2 (Z.eqb_neq _ _)) by lia.
  rewrite u32_small by lia. change (u32 (Z.lnot 1023)) with (Z.land (Z.lnot 1023) (Z.ones 32)).
  rewrite Z.land_comm, <- Z.land_assoc, (Z.land_comm _ (sz + 1023)), (Z.land_ones (sz + 1023) 32) by lia.
  rewrite Z.mod_small by lia. rewrite Z.land_comm, <- Z.ldiff_land. change 1023 with (Z.ones 10) at 2.
  rewrite Z.ldiff_ones_r, Z.shiftl_mul_pow2, Z.shiftr_div_pow2 by lia. change (2 ^ 10) with 1024. lia.
Qed.

(** A request that can be rounded up without wrapping. *)
Definition good_size (sz : Z) : Prop := 0 <= sz <= 2 ^ 32 - 1024.

Lemma ASSIGNED_range sz :
  good_size sz -> sz <= ASSIGNED_FOR_1024BYTE sz < 2 ^ 32 /\ 0 < ASSIGNED_FOR_1024BYTE sz.
Proof.
  intros Hsz. unfold good_size in Hsz. destruct (decide (sz = 0)) as [->|]; [by vm_compute|].
  rewrite ASSIGNED_value by lia. pose proof (Z.div_mod (sz + 1023) 1024). pose proof (Z.mod_pos_bound (sz + 1023) 1024).
  assert ((sz + 1023) / 1024 <= (2 ^ 32 - 1) / 1024) by (apply Z.div_le_mono; lia).
  change ((2 ^ 32 - 1) / 1024) with 4194303 in *. lia.
Qed.

(** ** Sorted lists *)

Definition le_size (sz : nat -> Z) (x y : nat) : Prop := sz x <= sz y.

Lemma sorted_insert sz x l : StronglySorted (le_size sz) l -> StronglySorted (le_size sz) (insert_by sz x l).
Proof.
  induction l as [|y l IH]; intros Hl; cbn [insert_by].
  - repeat constructor.
  - apply StronglySorted_cons in Hl as [Hy Hl]. destruct (Z.leb_spec (sz x) (sz y)).
    + rewrite !StronglySorted_cons. split_and!; try done. constructor; [done|].
      eapply Forall_impl; [exact Hy|]. unfold le_size. intros. lia.
    + apply StronglySorted_cons. split; [|auto]. rewrite insert_by_perm. constructor; [|done]. unfold le_size. lia.
Qed.

Lemma sorted_sublist (R : nat -> nat -> Prop) l l' : l' `sublist_of` l -> StronglySorted R l -> StronglySorted R l'.
Proof.
  induction 1 as [|x l1 l2 Hs IH|x l1 l2 Hs IH]; [done| |].
  - rewrite !StronglySorted_cons. intros [Hx Hl]. split; [|auto]. rewrite !list.Forall_forall in *. intros y Hy. apply Hx. by eapply elem_of_sublist.
  - rewrite StronglySorted_cons. intros [_ ?]. auto.
Qed.

Lemma sorted_ext sz sz' l :
  (forall x, x ∈ l -> sz' x = sz x) -> StronglySorted (le_size sz) l -> StronglySorted (le_size sz') l.
Proof.
  induction l as [|x l IH]; [constructor|]. intros Hs. rewrite !StronglySorted_cons. intros [Hx Hl]. split.
  - apply list.Forall_forall. rewrite list.Forall_forall in Hx. intros y Hy. unfold le_size.
    rewrite !Hs by set_solver. by apply Hx.
  - apply IH; [set_solver|done].
Qed.

(** ** The invariant *)

Record heap_inv (base total : Z) (h : sie_heap) (P F U o : list nat) : Prop := {
  i_repr : repr h (mk_lists P F U []);
  i_count : (length P + length F + length U = TOTAL_RAM_FRAG)%nat;
  i_order : o ≡ₚ F ++ U;
  i_chain : chain (blk (pool h)) base o (base + total);
  i_sorted : StronglySorted (le_size (blk_size h)) F;
  i_apart : forall x y, x ∈ F -> y ∈ F -> end_of (blk (pool h)) x <> (blk (pool h) y).1;
  i_arena : heap_address h = base /\ heap_size h = total;
  i_bounds : 0 < base /\ 0 < total /\ base + total < 2 ^ 32
}.

Definition heap_ok (base total : Z) (h : sie_heap) : Prop := exists P F U o, heap_inv base total h P F U o.

Section inv.

Context {base total : Z} {h : sie_heap} {P F U o : list nat} (Hi : heap_inv base total h P F U o).

Lemma inv_bounds x :
  x ∈ F ++ U -> base <= (blk (pool h) x).1 /\ 0 < blk_size h x /\ end_of (blk (pool h)) x <= base + total.
Proof. rewrite <- (i_order _ _ _ _ _ _ _ Hi). apply chain_in, Hi. Qed.

Lemma inv_disjoint x y :
  x ∈ F ++ U -> y ∈ F ++ U -> x <> y ->
  end_of (blk (pool h)) x <= (blk (pool h) y).1 \/ end_of (blk (pool h)) y <= (blk (pool h) x).1.
Proof. rewrite <- !(i_order _ _ _ _ _ _ _ Hi). apply (chain_disjoint base _ (base + total)), Hi. Qed.

Lemma inv_start x y : x ∈ F ++ U -> y ∈ F ++ U -> (blk (pool h) x).1 = (blk (pool h) y).1 -> x = y.
Proof. rewrite <- !(i_order _ _ _ _ _ _ _ Hi). apply (chain_start base _ (base + total)), Hi. Qed.

Lemma inv_spare x : x ∈ P -> x ∉ F ++ U.
Proof.
  pose proof (r_nodup _ _ (i_repr _ _ _ _ _ _ _ Hi)) as Hnd. unfold all_ids in Hnd. cbn in Hnd.
  apply list.NoDup_app in Hnd. naive_solver.
Qed.

Lemma inv_nodup : NoDup (F ++ U).
Proof.
  pose proof (r_nodup _ _ (i_repr _ _ _ _ _ _ _ Hi)) as Hnd. unfold all_ids in Hnd. cbn in Hnd.
  apply list.NoDup_app in Hnd. naive_solver.
Qed.

End inv.

(** Where the split-off block [n] and the rest of [t], if any, are in the order. *)
Lemma chain_carve b b' st o1 t o2 e n size :
  chain b st (o1 ++ t :: o2) e -> n ∉ o1 ++ t :: o2 -> 0 < size <= (b t).2 ->
  b' n = ((b t).1, size) -> b' t = ((b t).1 + size, (b t).2 - size) ->
  (forall y, y <> n -> y <> t -> b' y = b y) ->
  chain b' st (o1 ++ n :: (if (b t).2 - size =? 0 then [] else [t]) ++ o2) e.
Proof.
  intros Hc Hn Hsz Bn Bt Hb. pose proof (chain_nodup _ _ _ Hc) as Hnd.
  apply list.NoDup_app in Hnd as (_ & Hd & [Ht _]%list.NoDup_cons). apply chain_split in Hc as (H1 & H2 & H3).
  apply chain_split. rewrite Bn. cbn [fst snd]. split_and!; [|lia|].
  - apply (chain_ext b); [|done]. intros x Hx. apply Hb; set_solver.
  - assert (chain b' ((b t).1 + (b t).2) o2 e) as H4.
    { apply (chain_ext b); [|done]. intros x Hx. apply Hb; set_solver. }
    destruct (Z.eqb_spec ((b t).2 - size) 0); cbn [app chain]; rewrite ?Bt; cbn [fst snd].
    + by replace ((b t).1 + size) with ((b t).1 + (b t).2) by lia.
    + split_and!; [done|lia|]. by replace ((b t).1 + size + ((b t).2 - size)) with ((b t).1 + (b t).2) by lia.
Qed.

(** Members that are in front of the first fit do not fit, and those behind are not smaller. *)
Lemma best_fit sz F1 t F2 size y :
  StronglySorted (le_size sz) (F1 ++ t :: F2) -> Forall (fun y => sz y < size) F1 ->
  y ∈ F1 ++ t :: F2 -> size <= sz y -> sz t <= sz y.
Proof.
  intros Hs Hf Hy Hle. rewrite StronglySorted_app in Hs. destruct Hs as (_ & _ & [Ht _]%StronglySorted_cons).
  rewrite list.Forall_forall in Hf, Ht. apply elem_of_app in Hy as [Hy%Hf|[->|Hy%Ht]%elem_of_cons]; unfold le_size in *; lia.
Qed.

Lemma nodup_around (F1 F2 U : list nat) t : NoDup ((F1 ++ t :: F2) ++ U) -> t ∉ F1 ++ F2 /\ t ∉ U.
Proof.
  rewrite <- Permutation_middle. cbn [app]. rewrite list.NoDup_cons. intros [Ht _]. set_solver.
Qed.

Lemma malloc_lists h h' n t P F1 F2 U d :
  let r := if d =? 0 then [] else [t] in
  (forall y, y <> n -> y <> t -> blk (pool h') y = blk (pool h) y) ->
  StronglySorted (le_size (blk_size h)) (F1 ++ t :: F2) -> n ∉ F1 ++ F2 -> t ∉ F1 ++ F2 ->
  repr h' (if d =? 0 then mk_lists (t :: P) (F1 ++ F2) (n :: U) []
           else mk_lists P (insert_by (blk_size h') t (F1 ++ F2)) (n :: U) []) ->
  exists P' F', repr h' (mk_lists P' F' (n :: U) []) /\ F' ≡ₚ r ++ F1 ++ F2 /\
    StronglySorted (le_size (blk_size h')) F' /\ (length P' + length r = S (length P))%nat.
Proof.
  intros r Hb Hs Hn Ht Hr.
  assert (StronglySorted (le_size (blk_size h')) (F1 ++ F2)) as Hs0.
  { apply (sorted_ext (blk_size h)).
    - intros x Hx. unfold blk_size. rewrite Hb; [done| |]; intros ->; set_solver.
    - eapply sorted_sublist, Hs. apply sublist_app; [done|]. by apply sublist_cons. }
  subst r. destruct (d =? 0); eexists _, _; (split; [exact Hr|]); split_and!; cbn; try lia; try done.
  - apply insert_by_perm.
  - by apply sorted_insert.
Qed.

Lemma malloc_inv base total h n P F U o sz t :
  heap_inv base total h (n :: P) F U o -> good_size sz ->
  let size := ASSIGNED_FOR_1024BYTE sz in
  find (fun x => size <=? ram_size (get h x)) F = Some t ->
  exists h' P' F' o', sie_malloc sz h = ((blk (pool h) t).1, h') /\
    heap_inv base total h' P' F' (n :: U) o' /\ blk (pool h') n = ((blk (pool h) t).1, size) /\
    (forall y, y ∈ U -> blk (pool h') y = blk (pool h) y) /\
    t ∈ F /\ size <= blk_size h t /\ (forall y, y ∈ F -> size <= blk_size h y -> blk_size h t <= blk_size h y).
Proof.
  intros Hi Hsz size Hfind. destruct (ASSIGNED_range sz Hsz) as [Hr0 Hpos]. fold size in Hr0, Hpos.
  destruct (malloc_succeeds h n P F U sz t (i_repr _ _ _ _ _ _ _ Hi) (proj1 Hsz) Hfind) as (h' & F1 & F2 & -> & Hsm & Hm).
  fold size in Hm. destruct (blk (pool h) t) as [st s] eqn:Bt. destruct Hm as (-> & Hle & Bn' & Bt' & Hb & Ha & Hs & Hr).
  destruct (inv_bounds Hi t) as (B1 & B2 & B3); [set_solver|]. rewrite Bt in B1, B3. cbn [fst snd] in B1, B3.
  pose proof (i_bounds _ _ _ _ _ _ _ Hi) as B. rewrite (u32_small (st + size)), (u32_small (s - size)) in * by lia.
  pose proof (inv_spare Hi n ltac:(set_solver)) as Hn. destruct (nodup_around _ _ _ _ (inv_nodup Hi)) as [HtF HtU].
  assert (t ∈ o) as (o1 & o2 & ->)%list_elem_of_split by (rewrite (i_order _ _ _ _ _ _ _ Hi); set_solver).
  pose proof (i_order _ _ _ _ _ _ _ Hi) as Ho.
  assert (chain (blk (pool h')) base (o1 ++ n :: (if s - size =? 0 then [] else [t]) ++ o2) (base + total)) as Hc.
  { pose proof (chain_carve (blk (pool h)) (blk (pool h')) base o1 t o2 (base + total) n size) as Hcc. rewrite Bt in Hcc.
    apply Hcc; [apply Hi|by rewrite Ho|cbn; lia|done..]. }
  set (r := if s - size =? 0 then [] else [t]) in *.
  destruct (malloc_lists h h' n t P F1 F2 U (s - size) Hb (i_sorted _ _ _ _ _ _ _ Hi)) as (P' & F' & Hr' & HF & Hso & Hl);
    [set_solver|done|done|]. fold r in HF, Hl.
  exists h', P', F', (o1 ++ n :: r ++ o2). split_and!; try done; [| |set_solver| |].
  - constructor; try done.
    + pose proof (i_count _ _ _ _ _ _ _ Hi) as Hk. rewrite HF. rewrite !length_app in *. cbn [length] in *. lia.
    + rewrite HF. assert (o1 ++ o2 ≡ₚ F1 ++ F2 ++ U) as Ho'.
      { apply (Permutation_cons_inv (a := t)). transitivity (o1 ++ t :: o2); [solve_Permutation|]. rewrite Ho. solve_Permutation. }
      transitivity (n :: r ++ (o1 ++ o2)); [solve_Permutation|]. rewrite Ho'. solve_Permutation.
    + assert (forall x, x ∈ F' -> x ∈ F1 ++ t :: F2 /\ x <> n /\ x ∈ o1 ++ n :: r ++ o2) as Hsub.
      { intros x Hx. rewrite HF in Hx. assert (x ∈ r -> x = t) by (subst r; destruct (_ =? 0); set_solver).
        assert (x ∈ F1 ++ t :: F2) as Hx' by set_solver. assert (x ∈ o1 ++ t :: o2) by (rewrite Ho; set_solver).
        split_and!; [done|intros ->; set_solver|]. set_solver. }
      intros x y [Hx [Hxn Hxo]]%Hsub [Hy [Hyn _]]%Hsub.
      assert (end_of (blk (pool h')) x = end_of (blk (pool h)) x) as Ex.
      { destruct (decide (x = t)) as [->|]; [rewrite Bt, Bt'; cbn; lia|]. by rewrite Hb. }
      destruct (decide (y = t)) as [->|].
      * intros E. apply Hxn. apply (chain_end _ _ _ _ _ Hc); [done|set_solver|]. by rewrite E, Bt', Bn'.
      * rewrite Ex, Hb by done. by apply (i_apart _ _ _ _ _ _ _ Hi).
    + rewrite Ha, Hs. apply Hi.
  - intros y Hy. apply Hb; intros ->; set_solver.
  - unfold blk_size. by rewrite Bt.
  - intros y Hy Hly. apply (best_fit _ F1 t F2 size); [apply Hi|done..].
Qed.

(** *** Merging *)

(** The neighbours of the freed block, where they are free. *)
Section merged.

Context (b : nat -> Z * Z) (t : nat) (tmp1 tmp2 : option nat).

Definition group : list nat := option_list tmp2 ++ t :: option_list tmp1.

Definition group_start : Z := (b (default t tmp2)).1.

Definition group_end : Z := end_of b (default t tmp1).

Lemma group_chain st o1 o2 e :
  chain b st (o1 ++ group ++ o2) e ->
  chain b st o1 group_start /\ group_start < group_end /\ chain b group_end o2 e /\ st <= group_start /\ group_end <= e.
Proof.
  unfold group, group_start, group_end. rewrite chain_app. intros (m & Hc1 & Hc2).
  pose proof (chain_le _ _ _ Hc1).
  destruct tmp1 as [t1|], tmp2 as [t2|]; cbn [option_list app chain default from_option id] in *;
    [destruct Hc2 as (? & ? & ? & ? & ? & ? & Hc2)|destruct Hc2 as (? & ? & ? & ? & Hc2)..|destruct Hc2 as (? & ? & Hc2)];
    pose proof (chain_le _ _ _ Hc2); (split; [apply (chain_eq Hc1); lia|]);
    (split; [lia|]); (split; [apply (chain_eq Hc2); lia|]); lia.
Qed.

End merged.

Lemma chain_join b b' st o1 g o2 e m s0 e0 :
  chain b st o1 s0 -> s0 < e0 -> chain b e0 o2 e -> m ∉ o1 ++ o2 ->
  b' m = (s0, e0 - s0) -> (forall y, y <> m -> b' y = b y) -> g = m -> chain b' st (o1 ++ g :: o2) e.
Proof.
  intros H1 Hlt H2 Hm Bm Hb ->. apply chain_split. rewrite Bm. cbn [fst snd]. split_and!; [|lia|].
  - apply (chain_ext b); [|done]. intros x Hx. apply Hb. set_solver.
  - replace (s0 + (e0 - s0)) with e0 by lia. apply (chain_ext b); [|done]. intros x Hx. apply Hb. set_solver.
Qed.

Lemma merged_blk_value h t tmp1 tmp2 st o1 o2 e :
  chain (blk (pool h)) st (o1 ++ group t tmp1 tmp2 ++ o2) e -> 0 <= st -> e < 2 ^ 32 ->
  let s0 := group_start (blk (pool h)) t tmp2 in
  merged_blk h t tmp1 tmp2 = (s0, group_end (blk (pool h)) t tmp1 - s0).
Proof.
  intros Hc Hst He s0. destruct (group_chain _ _ _ _ _ _ _ _ Hc) as (_ & Hlt & _ & Hlo & Hhi).
  subst s0. revert Hc Hlt Hlo Hhi. unfold merged_blk, group_start, group_end, group, blk_size. rewrite chain_app. intros (p & Hp%chain_le & Hc2).
  generalize dependent (blk (pool h)). intros b Hc2.
  destruct tmp1 as [t1|], tmp2 as [t2|]; cbn [option_list app chain default from_option id] in *; cbn in Hc2; intros.
  1: rewrite (u32_small ((b t).2 + (b t1).2)) by lia.
  1-3: rewrite u32_small by lia; f_equal; lia.
  - rewrite (surjective_pairing (b t)) at 1. f_equal. lia.
Qed.

Section neighbours.

Context {base total : Z} {h : sie_heap} {P F U o : list nat} (Hi : heap_inv base total h P F U o).
Context (t : nat) (Ht : t ∈ U).

Let b := blk (pool h).
Let tmp1 := find (at_addr h (end_of b t) AT_THIS_ADDR) F.
Let tmp2 := find (at_addr h (b t).1 BEFORE_THIS_ADDR) F.

Lemma after_some t1 : tmp1 = Some t1 -> t1 ∈ F /\ (b t1).1 = end_of b t.
Proof. intros [Hin E%Z.eqb_eq]%find_some. split; [by apply list_elem_of_In|done]. Qed.

Lemma after_none x : tmp1 = None -> x ∈ F -> (b x).1 <> end_of b t.
Proof. intros Hn%find_none_forall. rewrite list.Forall_forall in Hn. intros E%Hn%Z.eqb_neq. done. Qed.

Lemma end_value x : x ∈ F -> u32 (ram_start (get h x) + ram_size (get h x)) = end_of b x.
Proof.
  intros Hx. destruct (inv_bounds Hi x) as (B1 & B2 & B3); [set_solver|].
  pose proof (i_bounds _ _ _ _ _ _ _ Hi). apply u32_small. change (0 <= end_of b x < 2 ^ 32). unfold blk_size in B2.
  subst b. lia.
Qed.

Lemma before_some t2 : tmp2 = Some t2 -> t2 ∈ F /\ end_of b t2 = (b t).1.
Proof.
  intros [Hin E%Z.eqb_eq]%find_some. apply list_elem_of_In in Hin. split; [done|]. by rewrite end_value in E.
Qed.

Lemma before_none x : tmp2 = None -> x ∈ F -> end_of b x <> (b t).1.
Proof.
  intros Hn%find_none_forall Hx. rewrite list.Forall_forall in Hn. pose proof (Hn x Hx) as E%Z.eqb_neq. by rewrite end_value in E.
Qed.

Lemma neighbours_distinct x : tmp1 = Some x -> tmp2 <> Some x.
Proof.
  intros [Hx E1]%after_some [_ E2]%before_some. destruct (inv_bounds Hi x) as (_ & B2 & _); [set_solver|].
  destruct (inv_bounds Hi t) as (_ & B2' & _); [set_solver|]. unfold blk_size in *. subst b. lia.
Qed.

(** The freed block and its free neighbours are next to each other in the order. *)
Lemma order_group : exists o1 o2, o = o1 ++ group t tmp1 tmp2 ++ o2.
Proof.
  pose proof (i_order _ _ _ _ _ _ _ Hi) as Ho. pose proof (i_chain _ _ _ _ _ _ _ Hi) as Hc. fold b in Hc.
  assert (t ∈ o) as (o1 & o2 & Eo)%list_elem_of_split by (rewrite Ho; set_solver).
  rewrite Eo in Ho, Hc |- *. clear Eo. unfold group.
  assert (exists o2', o2 = option_list tmp1 ++ o2') as [o2' ->].
  { destruct tmp1 as [t1|] eqn:E1; [|by exists o2]. apply after_some in E1 as [Hin E1].
    apply (chain_next _ _ _ _ _ t1 Hc); [rewrite Ho; set_solver|done]. }
  assert (exists o1', o1 = o1' ++ option_list tmp2) as [o1' ->].
  { destruct tmp2 as [t2|] eqn:E2; [|exists o1; by rewrite app_nil_r]. apply before_some in E2 as [Hin E2].
    apply (chain_prev _ _ _ _ _ t2 Hc); [rewrite Ho; set_solver|done]. }
  exists o1', o2'. by rewrite <- !(assoc_L (++)).
Qed.

Lemma group_end_apart x : x ∈ F -> (b x).1 <> group_end b t tmp1.
Proof.
  intros Hx. unfold group_end. destruct tmp1 as [t1|] eqn:E1; cbn [default from_option id].
  - apply after_some in E1 as [Ht1 _]. intros E. by apply (i_apart _ _ _ _ _ _ _ Hi t1 x).
  - by apply after_none.
Qed.

Lemma group_start_apart x : x ∈ F -> end_of b x <> group_start b t tmp2.
Proof.
  intros Hx. unfold group_start. destruct tmp2 as [t2|] eqn:E2; cbn [default from_option id].
  - apply before_some in E2 as [Ht2 _]. by apply (i_apart _ _ _ _ _ _ _ Hi x t2).
  - by apply before_none.
Qed.

End neighbours.

Lemma free_inv base total h P F U1 t U2 o :
  heap_inv base total h P F (U1 ++ t :: U2) o ->
  exists h' P' F' o', sie_free (blk (pool h) t).1 h = (0, h') /\
    heap_inv base total h' P' F' (U1 ++ U2) o' /\
    (forall y, y ∈ U1 ++ U2 -> blk (pool h') y = blk (pool h) y).
Proof.
  intros Hi. assert (t ∈ U1 ++ t :: U2) as Ht by set_solver.
  destruct (inv_bounds Hi t) as (B1 & B2 & B3); [set_solver|]. pose proof (i_bounds _ _ _ _ _ _ _ Hi) as B.
  unfold blk_size in B2. set (b := blk (pool h)) in *.
  set (tmp1 := find (at_addr h (end_of b t) AT_THIS_ADDR) F). set (tmp2 := find (at_addr h (b t).1 BEFORE_THIS_ADDR) F).
  assert (Forall (fun x => ram_start (get h x) <> (b t).1) U1) as Hpre.
  { apply list.Forall_forall. intros x Hx E. assert (x = t) as -> by (apply (inv_start Hi); [set_solver|set_solver|exact E]).
    pose proof (inv_nodup Hi) as Hnd. apply list.NoDup_app in Hnd as (_ & _ & (_ & Hd & _)%list.NoDup_app). set_solver. }
  destruct (free_succeeds h P F U1 t U2 (b t).1 (i_repr _ _ _ _ _ _ _ Hi)) as (h' & P' & F' & Hf & Hl & HF & Hsub & Hr & Hb & Ha & Hz);
    [lia|exact B2|change (end_of b t < 2 ^ 32); lia|done|exact Hpre|apply (neighbours_distinct Hi t Ht)|].
  destruct (order_group Hi t Ht) as (o1 & o2 & ->). change (ram_size (get h t)) with (b t).2 in *.
  fold b tmp1 tmp2 in Hf, Hl, HF, Hr, Hb |- *.
  set (m := default t tmp2) in *. pose proof (i_chain _ _ _ _ _ _ _ Hi) as Hc. fold b tmp1 tmp2 in Hc.
  rewrite (merged_blk_value h t tmp1 tmp2 _ _ _ _ Hc) in Hb by lia. fold b in Hb. cbv zeta in Hb.
  destruct (group_chain _ _ _ _ _ _ _ _ Hc) as (Hc1 & Hlt & Hc2 & _ & _). fold tmp1 tmp2 in Hc1, Hlt, Hc2.
  pose proof (i_order _ _ _ _ _ _ _ Hi) as Ho. fold b tmp1 tmp2 in Ho.
  assert (o1 ++ o2 ≡ₚ F' ++ U1 ++ U2) as Hoo.
  { apply (Permutation_app_inv_l (group t tmp1 tmp2)). transitivity (o1 ++ group t tmp1 tmp2 ++ o2); [solve_Permutation|].
    rewrite Ho, HF. unfold group. solve_Permutation. }
  assert (m ∉ o1 ++ o2) as Hm.
  { pose proof (chain_nodup _ _ _ Hc) as Hnd. assert (m ∈ group t tmp1 tmp2) by (subst m; unfold group; destruct tmp2; cbn; set_solver).
    apply list.NoDup_app in Hnd as (_ & Hd1 & (_ & Hd2 & _)%list.NoDup_app). set_solver. }
  assert (forall y, y ∈ F' ++ U1 ++ U2 -> blk (pool h') y = b y) as Hsame.
  { intros y Hy. rewrite <- Hoo in Hy. rewrite Hb, decide_False; [done|]. by intros ->. }
  pose proof (Hb m) as Bm. rewrite decide_True in Bm by done.
  exists h', P', (insert_by (blk_size h') m F'), (o1 ++ m :: o2). split_and!; [exact Hf| |].
  - constructor; try done.
    + pose proof (i_count _ _ _ _ _ _ _ Hi) as Hk. rewrite insert_by_perm. rewrite HF, !length_app in Hk.
      rewrite length_app. cbn [length] in *. lia.
    + rewrite insert_by_perm. cbn [app]. rewrite <- Hoo. solve_Permutation.
    + apply (chain_join b _ _ _ _ _ _ m (group_start b t tmp2) (group_end b t tmp1)); try done.
      intros y Hy. by rewrite Hb, decide_False.
    + apply sorted_insert, (sorted_ext (blk_size h)).
      * intros x Hx. unfold blk_size. rewrite Hsame by set_solver. done.
      * eapply sorted_sublist, Hi. done.
    + intros x y. rewrite insert_by_perm, !elem_of_cons.
      assert (forall x, x ∈ F' -> x ∈ F) as HF' by (intros ? Hx; by eapply elem_of_sublist).
      intros [->|Hx] [->|Hy]; rewrite ?Bm, ?Hsame by set_solver; cbn [fst snd].
      * lia.
      * pose proof (group_end_apart Hi t y (HF' _ Hy)) as Hne. fold b tmp1 in Hne. lia.
      * by apply (group_start_apart Hi t), HF'.
      * apply (i_apart _ _ _ _ _ _ _ Hi); by apply HF'.
    + rewrite Ha, Hz. apply Hi.
  - intros y Hy. apply Hsame. set_solver.
Qed.

(** ** What a caller sees *)

(** The blocks on a list, first to last. *)
Fixpoint walk (fuel : nat) (h : sie_heap) (p : option nat) : list (Z * Z) :=
  match fuel, p with
  | S fuel, Some i => (ram_start (get h i), ram_size (get h i)) :: walk fuel h (next (get h i))
  | _, _ => []
  end.

Definition used_blocks (h : sie_heap) : list (Z * Z) := walk TOTAL_RAM_FRAG h (used h).
Definition free_blocks (h : sie_heap) : list (Z * Z) := walk TOTAL_RAM_FRAG h (free h).

(** The blocks [bl], in this order, tile the interval from [st] to [e]. *)
Fixpoint tiles (st : Z) (bl : list (Z * Z)) (e : Z) : Prop :=
  match bl with
  | [] => st = e
  | (a, s) :: bl => a = st /\ 0 < s /\ tiles (st + s) bl e
  end.

Lemma walk_spec h p l fuel :
  dseg (pool h) p l None -> (length l <= fuel)%nat -> walk fuel h (hd_or l None) = blk (pool h) <$> l.
Proof.
  revert p fuel. induction l as [|x l IH]; intros p fuel Hd Hf; [by destruct fuel|].
  destruct fuel as [|fuel]; [cbn in Hf; lia|]. destruct (dseg_head _ _ _ _ _ Hd) as [Hn _].
  cbn [walk hd_or fmap list_fmap]. unfold get at 3. rewrite Hn. f_equal. eapply IH; [apply Hd|cbn in Hf; lia].
Qed.

Lemma chain_tiles b st o e : chain b st o e <-> tiles st (b <$> o) e.
Proof.
  revert st. induction o as [|x o IH]; intros st; [done|]. cbn [chain fmap list_fmap tiles].
  destruct (b x) as [a s]. cbn [fst snd]. by rewrite IH.
Qed.

Lemma used_blocks_repr h P F U L : repr h (mk_lists P F U L) -> used_blocks h = blk (pool h) <$> U.
Proof.
  intros Hr. unfold used_blocks. rewrite (r_used _ _ Hr). eapply walk_spec; [apply Hr|].
  pose proof (ids_bound _ _ Hr) as Hb. unfold all_ids in Hb. cbn in Hb |- *. rewrite !length_app in Hb. lia.
Qed.

Lemma free_blocks_repr h P F U L : repr h (mk_lists P F U L) -> free_blocks h = blk (pool h) <$> F.
Proof.
  intros Hr. unfold free_blocks. rewrite (r_free _ _ Hr). eapply walk_spec; [apply Hr|].
  pose proof (ids_bound _ _ Hr) as Hb. unfold all_ids in Hb. cbn in Hb |- *. rewrite !length_app in Hb. lia.
Qed.

Section client.

Context {base total : Z} {h : sie_heap} {P F U o : list nat} (Hi : heap_inv base total h P F U o).

Lemma used_blocks_spec : used_blocks h = blk (pool h) <$> U.
Proof. eapply used_blocks_repr, Hi. Qed.

Lemma free_blocks_spec : free_blocks h = blk (pool h) <$> F.
Proof. eapply free_blocks_repr, Hi. Qed.

End client.

(** A request that can be met is met from a smallest free block that is large
    enough; the heap does not change when it cannot be met. *)
Lemma malloc_cases base total h sz a h' :
  heap_ok base total h -> good_size sz -> sie_malloc sz h = (a, h') ->
  let size := ASSIGNED_FOR_1024BYTE sz in
  (a = 0 /\ h' = h /\ (Forall (fun bl => bl.2 < size) (free_blocks h) \/
                       (length (free_blocks h) + length (used_blocks h) = TOTAL_RAM_FRAG)%nat)) \/
  (heap_ok base total h' /\ used_blocks h' = (a, size) :: used_blocks h /\ base <= a /\ a + size <= base + total /\
   Forall (fun bl => a + size <= bl.1 \/ bl.1 + bl.2 <= a) (used_blocks h) /\
   exists s, (a, s) ∈ free_blocks h /\ size <= s /\ Forall (fun bl => size <= bl.2 -> s <= bl.2) (free_blocks h)).
Proof.
  intros (P & F & U & o & Hi) Hsz Em size. rewrite (used_blocks_spec Hi), (free_blocks_spec Hi).
  destruct (find (fun x => size <=? ram_size (get h x)) F) as [t|] eqn:Ef; [destruct P as [|n P]|].
  - left. rewrite (malloc_fails h [] F U sz (i_repr _ _ _ _ _ _ _ Hi)) in Em by auto. injection Em as <- <-.
    split_and!; [done..|]. right. rewrite !length_fmap. pose proof (i_count _ _ _ _ _ _ _ Hi) as Hk. cbn in Hk. lia.
  - right. destruct (malloc_inv _ _ _ _ _ _ _ _ sz t Hi Hsz Ef) as (h1 & P' & F' & o' & Em' & Hi' & Bn & HU & Ht & Hle & Hbest).
    rewrite Em in Em'. injection Em' as -> ->. rewrite (used_blocks_spec Hi'). fold size in Bn, Hle, Hbest.
    destruct (inv_bounds Hi' n) as (B1 & B2 & B3); [set_solver|]. rewrite Bn in B1, B3. cbn [fst snd] in B1, B3.
    split_and!; [by eexists _, _, _, _| |done|done| |].
    + cbn. rewrite Bn. f_equal. apply list_fmap_ext. intros i x Hx. apply HU. by eapply list_elem_of_lookup_2.
    + apply list.Forall_forall. intros bl (x & -> & Hx)%list_elem_of_fmap. rewrite <- HU by done.
      destruct (inv_disjoint Hi' n x) as [D|D]; [set_solver|set_solver| |rewrite Bn in D; cbn in D |- *; auto..].
      intros ->. apply (inv_spare Hi x); set_solver.
    + exists (blk_size h t). split_and!; [|done|].
      * apply list_elem_of_fmap. by exists t.
      * apply list.Forall_forall. intros bl (x & -> & Hx)%list_elem_of_fmap. by apply Hbest.
  - left. rewrite (malloc_fails h P F U sz (i_repr _ _ _ _ _ _ _ Hi)) in Em by auto. injection Em as <- <-.
    split_and!; [done..|]. left. apply list.Forall_forall. intros bl (x & -> & Hx)%list_elem_of_fmap.
    apply find_none_forall in Ef. rewrite list.Forall_forall in Ef. pose proof (Ef x Hx) as E%Z.leb_gt. done.
Qed.

Lemma free_cases base total h addr :
  heap_ok base total h ->
  (exists s, (addr, s) ∈ used_blocks h /\
     exists h', sie_free addr h = (0, h') /\ heap_ok base total h' /\ used_blocks h ≡ₚ (addr, s) :: used_blocks h') \/
  ((forall s, (addr, s) ∉ used_blocks h) /\ sie_free addr h = (-1, h)).
Proof.
  intros (P & F & U & o & Hi). rewrite (used_blocks_spec Hi).
  destruct (decide (addr ∈ (fst ∘ blk (pool h)) <$> U)) as [Hin|Hout].
  - left. apply list_elem_of_fmap in Hin as (t & -> & Ht). apply list_elem_of_split in Ht as (U1 & U2 & ->).
    destruct (free_inv _ _ _ _ _ _ _ _ _ Hi) as (h' & P' & F' & o' & Ef & Hi' & HU).
    exists (blk_size h t). change ((fst ∘ blk (pool h)) t, blk_size h t) with (blk (pool h) t).
    split; [apply list_elem_of_fmap; exists t; split; [done|set_solver]|].
    exists h'. split_and!; [done|by eexists _, _, _, _|]. rewrite (used_blocks_spec Hi'). rewrite <- Permutation_middle.
    cbn. f_equiv. erewrite list_fmap_ext; [done|]. intros i x Hx. symmetry. apply HU. by eapply list_elem_of_lookup_2.
  - right. split.
    + intros s (x & E & Hx)%list_elem_of_fmap. apply Hout, list_elem_of_fmap. exists x. split; [exact (f_equal fst E)|done].
    + apply (free_fails h P F U); [apply Hi|]. right. apply list.Forall_forall. intros x Hx E. apply Hout, list_elem_of_fmap.
      exists x. split; [by symmetry|done].
Qed.

(** ** Initialisation *)

(** All descriptors of the static array exist. *)
Definition pool_full (h : sie_heap) : Prop := forall i, (i < TOTAL_RAM_FRAG)%nat -> is_Some (pool h !! i).

Lemma pool_full_upd h i g : pool_full h -> pool_full (upd h i g).
Proof. intros Hp j Hj. cbn. apply lookup_alter_is_Some. auto. Qed.

(** [n] rounds link the descriptors [i], ... behind the first [i] ones. *)
Lemma init_pool_loop_spec n i tmp h e :
  pool_full h -> (i + n = TOTAL_RAM_FRAG)%nat -> i = S tmp -> dseg (pool h) None (seq 0 i) e ->
  e = None \/ (0 < n)%nat ->
  let h' := init_pool_loop n i tmp h in
  pool_full h' /\ dseg (pool h') None (seq 0 TOTAL_RAM_FRAG) None /\ mem_frag_free h' = mem_frag_free h.
Proof.
  revert i tmp h e. induction n as [|n IH]; intros i tmp h e Hp Hn -> Hd He; cbn [init_pool_loop].
  - destruct He as [->|?]; [|lia]. by replace TOTAL_RAM_FRAG with (S tmp) by lia.
  - set (h1 := upd _ tmp _). set (h2 := upd h1 _ _). set (h3 := upd h2 _ _).
    destruct (IH (S (S tmp)) (S tmp) h3 None) as (? & ? & Hm); [by repeat apply pool_full_upd|lia|done| |by left|done].
    rewrite seq_S, dseg_app. cbn [hd_or Nat.add]. split.
    + apply dseg_alter, dseg_alter; [rewrite elem_of_seq; lia..|]. rewrite seq_S in Hd |- *.
      eapply dseg_set_next, Hd. rewrite elem_of_seq. lia.
    + destruct (Hp (S tmp)) as [f Hf]; [lia|]. rewrite seq_S. cbn [dseg]. split; [|done].
      exists (put_next None (put_pre (Some tmp) f)). unfold last_or. rewrite last_snoc. split_and!; [|done..].
      cbn. rewrite !lookup_alter_eq, lookup_alter_ne by lia. by rewrite Hf.
Qed.

Lemma init_pool_spec h :
  pool_full h ->
  let h' := init_mem_frag_pool h in
  pool_full h' /\ dseg (pool h') None (seq 0 TOTAL_RAM_FRAG) None /\ mem_frag_free h' = Some 0%nat.
Proof.
  intros Hp. destruct (Hp 0%nat) as [f Hf]; [unfold TOTAL_RAM_FRAG; lia|].
  refine (init_pool_loop_spec (TOTAL_RAM_FRAG - 1) 1 0 (upd (set_spare h (Some 0%nat)) 0 (put_pre None)) (next f) _ _ _ _ _); [by apply pool_full_upd|done|done| |right; vm_compute; lia].
  split; [|done]. exists (put_pre None f). split_and!; try done. cbn. by rewrite lookup_alter_eq, Hf.
Qed.

Lemma pool_ids : seq 0 TOTAL_RAM_FRAG = 0%nat :: seq 1 (TOTAL_RAM_FRAG - 1).
Proof. reflexivity. Qed.

Lemma pool_nonempty : (0 <? TOTAL_RAM_FRAG)%nat = true.
Proof. reflexivity. Qed.

(** The heads of the block lists and the arena do not matter to the pool. *)
Definition with_blocks (h : sie_heap) (u f : option nat) (a s : Z) : sie_heap := mk_heap (pool h) (mem_frag_free h) u f a s.

Lemma alloc_with_blocks h u f a s :
  alloc_mem_frag (with_blocks h u f a s) = (fst (alloc_mem_frag h), with_blocks (snd (alloc_mem_frag h)) u f a s).
Proof.
  unfold alloc_mem_frag. cbn [with_blocks mem_frag_free]. destruct (mem_frag_free h) as [x|]; [|done]. 
  cbn. unfold get. cbn. by destruct (next (frag_at (pool h) x)).
Qed.

Lemma repr_arena h l a s : repr h l -> repr (with_blocks h (used h) (free h) a s) l.
Proof. intros [? ? ? ? ? ? ? ?]. by constructor. Qed.

Lemma init_alloc h :
  pool_full h -> dseg (pool h) None (seq 0 TOTAL_RAM_FRAG) None -> mem_frag_free h = Some 0%nat ->
  exists h', alloc_mem_frag h = (Some 0%nat, h') /\
    repr (with_blocks h' None None 0 0) (mk_lists (seq 1 (TOTAL_RAM_FRAG - 1)) [] [] [0%nat]).
Proof.
  intros Hp Hd Hm. pose proof (alloc_with_blocks h None None 0 0) as Ea.
  destruct (alloc_some (with_blocks h None None 0 0) 0 (seq 1 (TOTAL_RAM_FRAG - 1)) [] [] []) as (h2 & E2 & Hr2 & _).
  { rewrite <- pool_ids. constructor; unfold all_ids; cbn [lP lF lU lL app with_blocks mem_frag_free used free pool];
      rewrite ?app_nil_r.
    - by rewrite pool_ids, Hm.
    - exact Hd.
    - done.
    - done.
    - done.
    - done.
    - apply list.NoDup_seq.
    - intros x Hx. rewrite elem_of_seq in Hx. split; [lia|]. apply Hp. lia. }
  rewrite E2 in Ea. destruct (alloc_mem_frag h) as [x h3]. cbn [fst snd] in Ea.
  pose proof (f_equal fst Ea : Some 0%nat = x) as <-. pose proof (f_equal snd Ea : h2 = _) as ->. by exists h3.
Qed.

(** The invariant after the initialisation, whatever the control block held before. *)
Lemma init_inv base total h :
  pool_full h -> 0 < base -> 0 < total -> base + total < 2 ^ 32 ->
  exists h', init_sie_heap base total h = (0, h') /\
    heap_inv base total h' (seq 1 (TOTAL_RAM_FRAG - 1)) [0%nat] [] [0%nat].
Proof.
  intros Hp Hb Ht He. destruct (init_pool_spec h Hp) as (Hp1 & Hd1 & Hm1).
  destruct (init_alloc _ Hp1 Hd1 Hm1) as (h3 & E3 & Hr2). unfold init_sie_heap. rewrite E3. clear E3 Hp1 Hd1 Hm1 Hp.
  destruct (upd_block_spec _ _ _ _ _ 0%nat base total Hr2 ltac:(set_solver)) as [Hr4 Hb4].
  destruct (add_free_spec _ _ _ _ _ _ Hr4) as (h5 & E5 & Hr5 & Hb5).
  pose proof (proj1 Hb5 0%nat) as B0. rewrite Hb4, decide_True in B0 by done.
  exists (with_blocks h5 (used h5) (free h5) base total). split.
  { unfold add_into_free_list, if_frag_valid in E5. rewrite pool_nonempty in E5. by injection E5 as <-. }
  clear E5. constructor; cbn [with_blocks pool heap_address heap_size].
  - by apply repr_arena.
  - rewrite length_seq. cbn [length]. pose proof pool_nonempty as Hne%Nat.ltb_lt. lia.
  - done.
  - cbn [chain]. rewrite B0. cbn. lia.
  - repeat constructor.
  - intros x y ->%list_elem_of_singleton ->%list_elem_of_singleton. rewrite B0. cbn. lia.
  - done.
  - lia.
Qed.

(** ** The free blocks are what the used blocks leave *)

(** Tilings with the used blocks marked; no two free blocks are next to each other. *)
Fixpoint marked (st : Z) (l : list (bool * (Z * Z))) (e : Z) : Prop :=
  match l with
  | [] => st = e
  | (u, (a, s)) :: l =>
      a = st /\ 0 < s /\ marked (st + s) l e /\
      match l with (u', _) :: _ => u = true \/ u' = true | [] => True end
  end.

Lemma marked_le st l e : marked st l e -> st <= e.
Proof.
  revert st. induction l as [|[u [a s]] l IH]; intros st; cbn [marked]; [lia|]. intros (_ & ? & ?%IH & _). lia.
Qed.

Lemma marked_in st l e u a s : marked st l e -> (u, (a, s)) ∈ l -> st <= a.
Proof.
  revert st. induction l as [|[u' [a' s']] l IH]; intros st; cbn [marked]; [set_solver|].
  intros (-> & Hs & Hl & _) [[= -> -> ->]|Hin]%elem_of_cons; [lia|]. specialize (IH _ Hl Hin). lia.
Qed.

(** A used block of one tiling cannot begin inside a free block of the other. *)
Lemma marked_skip st st' s l l' e u :
  marked (st + s) l e -> marked st' (u :: l') e -> st < st' < st + s ->
  (forall b, (true, b) ∈ u :: l' -> (true, b) ∈ l) -> u.1 = false.
Proof.
  destruct u as [[] [a' s']]; [|done]. intros Hl (-> & _) Hlt Hin.
  pose proof (marked_in _ _ _ _ _ _ Hl (Hin (st', s') ltac:(set_solver))). lia.
Qed.

(** Two free blocks at the same place have the same size. *)
Lemma marked_free_size st s s' l l' e :
  marked st ((false, (st, s)) :: l) e -> marked st ((false, (st, s')) :: l') e ->
  (forall b, (true, b) ∈ l -> (true, b) ∈ l') -> s' <= s.
Proof.
  intros (_ & Hs & Hl & Hn) (_ & Hs' & Hl' & _) Hin. apply Z.nlt_ge. intros Hlt.
  destruct l as [|u l]; [cbn in Hl; apply marked_le in Hl'; lia|].
  assert (u.1 = false) as Hu by (eapply (marked_skip st (st + s)); [exact Hl'|exact Hl|lia|done]).
  destruct u as [[] ?]; [done|]. destruct Hn; done.
Qed.

Lemma marked_head st u s s' l' e :
  marked (st + s') l' e -> 0 < s' -> (true, (st, s)) ∈ (u, (st, s')) :: l' -> u = true /\ s' = s.
Proof.
  intros Hl Hs [[= <- <-]|Hin]%elem_of_cons; [done|]. pose proof (marked_in _ _ _ _ _ _ Hl Hin). lia.
Qed.

Lemma marked_tail st u s l l' e :
  marked (st + s) l e -> 0 < s ->
  (forall b, (true, b) ∈ (u, (st, s)) :: l -> (true, b) ∈ (u, (st, s)) :: l') ->
  forall b, (true, b) ∈ l -> (true, b) ∈ l'.
Proof.
  intros Hl Hs Hin [a s0] Hb. specialize (Hin (a, s0) ltac:(set_solver)). apply elem_of_cons in Hin as [[= -> -> ->]|?]; [|done].
  pose proof (marked_in _ _ _ _ _ _ Hl Hb). lia.
Qed.

Lemma marked_unique st l l' e :
  marked st l e -> marked st l' e -> (forall b, (true, b) ∈ l <-> (true, b) ∈ l') -> l = l'.
Proof.
  revert st l'. induction l as [|[u [a s]] l IH]; intros st [|[u' [a' s']] l'] Hm Hm' Hin.
  - done.
  - destruct Hm' as (_ & ? & Hl%marked_le & _). cbn in Hm. lia.
  - destruct Hm as (_ & ? & Hl%marked_le & _). cbn in Hm'. lia.
  - pose proof Hm as (-> & Hs & Hl & _). pose proof Hm' as (-> & Hs' & Hl' & _).
    assert (u = u' /\ s = s') as [<- <-].
    { destruct u; [|destruct u'].
      - by destruct (marked_head _ _ _ _ _ _ Hl' Hs' (proj1 (Hin (st, s)) ltac:(set_solver))) as [-> ->].
      - by destruct (marked_head _ _ _ _ _ _ Hl Hs (proj2 (Hin (st, s')) ltac:(set_solver))) as [-> ->].
      - split; [done|]. apply Z.le_antisymm.
        + apply (marked_free_size st s' s l' l e); [done..|]. intros b Hb.
          pose proof (proj2 (Hin b) ltac:(set_solver)) as [[=]|?]%elem_of_cons. done.
        + apply (marked_free_size st s s' l l' e); [done..|]. intros b Hb.
          pose proof (proj1 (Hin b) ltac:(set_solver)) as [[=]|?]%elem_of_cons. done. }
    f_equal. apply (IH (st + s)); [done..|]. intros b. split.
    + apply (marked_tail st u s _ _ e); [done..|]. intros ? ?. by apply Hin.
    + apply (marked_tail st u s _ _ e); [done..|]. intros ? ?. by apply Hin.
Qed.

(** The tiling of a heap, with its used blocks marked. *)
Definition mark (h : sie_heap) (U : list nat) (x : nat) : bool * (Z * Z) := (bool_decide (x ∈ U), blk (pool h) x).

Lemma inv_marked base total h P F U o :
  heap_inv base total h P F U o -> marked base (mark h U <$> o) (base + total).
Proof.
  intros Hi. pose proof (i_chain _ _ _ _ _ _ _ Hi) as Hc. pose proof (i_order _ _ _ _ _ _ _ Hi) as Ho.
  assert (forall x, x ∈ o -> x ∈ F \/ x ∈ U) as Hin by (intros x; rewrite Ho; set_solver).
  pose proof (i_apart _ _ _ _ _ _ _ Hi) as Ha. clear Hi Ho.
  generalize dependent (base + total). intros e Hc. revert base Hc.
  induction o as [|x o IH]; intros st Hc; [done|]. cbn [chain] in Hc. destruct Hc as (Hst & Hs & Hc).
  cbn [fmap list_fmap marked mark]. destruct (blk (pool h) x) as [a s] eqn:Ex. cbn [fst snd] in *.
  split_and!; [done|done|apply IH; [set_solver|done]|]. destruct o as [|y o]; [done|]. cbn [fmap list_fmap mark].
  destruct Hc as (Hy & _). rewrite !bool_decide_eq_true.
  destruct (Hin x ltac:(set_solver)) as [HxF|?]; [|by left]. destruct (Hin y ltac:(set_solver)) as [HyF|?]; [|by right].
  exfalso. apply (Ha x y HxF HyF). rewrite Ex. cbn [fst snd]. lia.
Qed.

Lemma mark_used base total h P F U o b :
  heap_inv base total h P F U o -> (true, b) ∈ mark h U <$> o <-> b ∈ used_blocks h.
Proof.
  intros Hi. rewrite (used_blocks_spec Hi), !list_elem_of_fmap. pose proof (i_order _ _ _ _ _ _ _ Hi) as Ho. split.
  - intros (x & [= E ->] & _). symmetry in E. apply bool_decide_eq_true in E. by exists x.
  - intros (x & -> & Hx). exists x. unfold mark. rewrite bool_decide_true by done. split; [done|]. rewrite Ho. set_solver.
Qed.

Lemma filter_marks h U l q :
  (forall x, x ∈ l -> bool_decide (x ∈ U) = q) ->
  (fun b => b.2) <$> filter (fun b => b.1 = false) (mark h U <$> l) = if q then [] else blk (pool h) <$> l.
Proof.
  induction l as [|x l IH]; intros Hq; [by destruct q|]. cbn [fmap list_fmap]. rewrite filter_cons.
  pose proof (Hq x ltac:(set_solver) : (mark h U x).1 = q) as Ex. specialize (IH ltac:(set_solver)).
  case_decide as Hd; rewrite Ex in Hd.
  - subst q. rewrite Hd in IH |- *. cbn [fmap list_fmap]. by rewrite IH.
  - by destruct q.
Qed.

Lemma mark_free base total h P F U o :
  heap_inv base total h P F U o -> ((fun b => b.2) <$> filter (fun b => b.1 = false) (mark h U <$> o)) ≡ₚ free_blocks h.
Proof.
  intros Hi. rewrite (free_blocks_spec Hi), (i_order _ _ _ _ _ _ _ Hi). pose proof (inv_nodup Hi) as Hnd.
  apply list.NoDup_app in Hnd as (_ & Hd & _). rewrite !fmap_app, filter_app, fmap_app.
  rewrite (filter_marks h U F false), (filter_marks h U U true), app_nil_r; [done| |].
  - intros x Hx. by apply bool_decide_eq_true.
  - intros x Hx. apply bool_decide_eq_false. auto.
Qed.

(** Heaps of one arena with the same used blocks have the same free blocks. *)
Lemma free_determined base total h h' :
  heap_ok base total h -> heap_ok base total h' -> used_blocks h ≡ₚ used_blocks h' -> free_blocks h ≡ₚ free_blocks h'.
Proof.
  intros (P & F & U & o & Hi) (P' & F' & U' & o' & Hi') Hu.
  rewrite <- (mark_free _ _ _ _ _ _ _ Hi), <- (mark_free _ _ _ _ _ _ _ Hi').
  rewrite (marked_unique base (mark h U <$> o) (mark h' U' <$> o') (base + total)); [done|by eapply inv_marked..|].
  intros b. by rewrite (mark_used _ _ _ _ _ _ _ b Hi), (mark_used _ _ _ _ _ _ _ b Hi'), Hu.
Qed.

(** ** Any sequence of calls *)

(** One call by a driver: a request that does not wrap, or a free of any address. *)
Inductive heap_call : sie_heap -> sie_heap -> Prop :=
  | call_malloc h sz : good_size sz -> heap_call h (sie_malloc sz h).2
  | call_free h addr : heap_call h (sie_free addr h).2.

Definition reachable (base total : Z) (h : sie_heap) : Prop :=
  0 < base /\ 0 < total /\ base + total < 2 ^ 32 /\ rtc heap_call (init_sie_heap base total zero_heap).2 h.

Lemma zero_heap_full : pool_full zero_heap.
Proof.
  intros i Hi. cbn [pool zero_heap]. rewrite <- not_eq_None_Some. intros Hn%not_elem_of_list_to_map. apply Hn.
  rewrite <- list_fmap_compose. apply list_elem_of_fmap. exists i. split; [done|]. rewrite elem_of_seq. lia.
Qed.

Lemma heap_call_ok base total h h' : heap_call h h' -> heap_ok base total h -> heap_ok base total h'.
Proof.
  intros [h0 sz Hsz|h0 addr] Hok.
  - destruct (sie_malloc sz h0) as [a h1] eqn:Em. cbn. by destruct (malloc_cases _ _ _ _ _ _ Hok Hsz Em) as [(_ & -> & _)|(? & _)].
  - by destruct (free_cases _ _ _ addr Hok) as [(s & _ & h1 & -> & ? & _)|(_ & ->)].
Qed.

Lemma reachable_ok base total h : reachable base total h -> heap_ok base total h.
Proof.
  intros (Hb & Ht & He & Hr). destruct (init_inv base total zero_heap zero_heap_full Hb Ht He) as (h0 & E0 & Hi).
  rewrite E0 in Hr. cbn in Hr. assert (heap_ok base total h0) as Hok by (by eexists _, _, _, _). clear Hi E0.
  induction Hr as [|h1 h2 h3 Hc _ IH]; [done|]. apply IH. by eapply heap_call_ok.
Qed.

Lemma reachable_call base total h h' : reachable base total h -> heap_call h h' -> reachable base total h'.
Proof. intros (? & ? & ? & ?) Hc. split_and!; [done..|]. by eapply rtc_r. Qed.

(** The initial heap of the examples below. *)
Lemma reachable_init : reachable 0x1000 0x4000 (init_sie_heap 0x1000 0x4000 zero_heap).2.
Proof. split_and!; [lia..|done]. Qed.

(** C1. After any sequence of calls of [sie_malloc] with sizes up to [2^32 - 1024]
    and of [sie_free] with any address: the free and the used blocks tile the
    arena exactly (nothing overlaps, nothing is lost), the free list is in order
    of size, and no two free blocks touch.  A larger size is rounded to 0 and
    breaks the tiling ([sie_malloc_huge_request]). *)
Theorem sie_heap_invariant base total h :
  reachable base total h ->
  (exists order, order ≡ₚ free_blocks h ++ used_blocks h /\ tiles base order (base + total)) /\
  StronglySorted (fun x y => x.2 <= y.2) (free_blocks h) /\
  (forall x y, x ∈ free_blocks h -> y ∈ free_blocks h -> x.1 + x.2 <> y.1).
Proof.
  intros (P & F & U & o & Hi)%reachable_ok. rewrite (used_blocks_spec Hi), (free_blocks_spec Hi). split_and!.
  - exists (blk (pool h) <$> o). split; [|apply chain_tiles, Hi].
    rewrite <- fmap_app. apply fmap_Permutation, Hi.
  - pose proof (i_sorted _ _ _ _ _ _ _ Hi) as Hs. clear Hi.
    induction Hs as [|x l Hs IH Hx]; cbn; constructor; [done|]. by apply Forall_fmap.
  - intros x y (i & -> & Hx)%list_elem_of_fmap (j & -> & Hy)%list_elem_of_fmap. by apply (i_apart _ _ _ _ _ _ _ Hi).
Qed.

(** Three requests, and the block in the middle freed. *)
Lemma sie_heap_invariant_witness :
  let h := (sie_free 0x1400 (sie_malloc 100 (sie_malloc 3000 (sie_malloc 1 (init_sie_heap 0x1000 0x4000 zero_heap).2).2).2).2).2 in
  (free_blocks h = [(0x1400, 0xc00); (0x2400, 0x2c00)] /\ used_blocks h = [(0x2000, 0x400); (0x1000, 0x400)]) /\
  (exists order, order ≡ₚ free_blocks h ++ used_blocks h /\ tiles 0x1000 order 0x5000) /\
  (forall x y, x ∈ free_blocks h -> y ∈ free_blocks h -> x.1 + x.2 <> y.1).
Proof.
  intros h. split; [vm_compute; split; reflexivity|].
  destruct (sie_heap_invariant 0x1000 0x4000 h) as (Ht & _ & Ha); [|exact (conj Ht Ha)].
  refine (reachable_call _ _ _ _ _ (call_free _ _)).
  do 3 (refine (reachable_call _ _ _ _ _ (call_malloc _ _ _)); [|unfold good_size; lia]). exact reachable_init.
Defined.

(** C14. For sizes up to [2^32 - 1024], above which the rounding wraps to 0
    ([sie_malloc_huge_request]): a request that is met gets a block of the
    requested size rounded up to the next kilobyte, cut from the start of a smallest free block that is large enough;
    it lies in the arena and overlaps no block in use.  A request that is not met
    leaves the heap unchanged, and no free block was large enough or all the
    descriptors were taken. *)
Theorem sie_malloc_result base total h sz :
  reachable base total h -> good_size sz ->
  let size := ASSIGNED_FOR_1024BYTE sz in
  let '(a, h') := sie_malloc sz h in
  if a =? 0 then
    h' = h /\ (Forall (fun bl => bl.2 < size) (free_blocks h) \/
              (length (free_blocks h) + length (used_blocks h) = TOTAL_RAM_FRAG)%nat)
  else
    reachable base total h' /\ used_blocks h' = (a, size) :: used_blocks h /\
    sz <= size /\ base <= a /\ a + size <= base + total /\
    Forall (fun bl => a + size <= bl.1 \/ bl.1 + bl.2 <= a) (used_blocks h) /\
    exists s, (a, s) ∈ free_blocks h /\ size <= s /\ Forall (fun bl => size <= bl.2 -> s <= bl.2) (free_blocks h).
Proof.
  intros Hr Hsz size. destruct (ASSIGNED_range sz Hsz) as [Hle _]. pose proof (call_malloc h sz Hsz) as Hc.
  destruct (sie_malloc sz h) as [a h'] eqn:Em. pose proof (reachable_call _ _ _ _ Hr Hc) as Hr'. cbn in Hr'.
  destruct (malloc_cases _ _ _ _ _ _ (reachable_ok _ _ _ Hr) Hsz Em) as [(-> & Hh & Hw)|(_ & Hu & Hb & He & Hd & Hs)].
  - done.
  - rewrite (proj2 (Z.eqb_neq a 0)) by (destruct Hr; lia). split_and!; try done. apply Hle.
Qed.

Lemma sie_malloc_result_witness :
  let h := (init_sie_heap 0x1000 0x4000 zero_heap).2 in
  used_blocks (sie_malloc 1500 h).2 = [(0x1000, 2048)].
Proof.
  pose proof (sie_malloc_result 0x1000 0x4000 _ 1500 reachable_init ltac:(unfold good_size; lia)) as H.
  revert H. vm_compute. tauto.
Defined.

(** Freeing the address of a block in use succeeds and takes exactly that block
    from the used ones.  Any other address, that of a freed block among them, is
    refused with -1 and the heap is unchanged. *)
Theorem sie_free_result base total h addr :
  reachable base total h ->
  (exists s, (addr, s) ∈ used_blocks h /\
     exists h', sie_free addr h = (0, h') /\ reachable base total h' /\ used_blocks h ≡ₚ (addr, s) :: used_blocks h') \/
  ((forall s, (addr, s) ∉ used_blocks h) /\ sie_free addr h = (-1, h)).
Proof.
  intros Hr. destruct (free_cases _ _ _ addr (reachable_ok _ _ _ Hr)) as [(s & Hin & h' & E & _ & Hu)|[Hn E]]; [left|by right].
  exists s. split; [done|]. exists h'. split_and!; try done. pose proof (reachable_call _ _ _ _ Hr (call_free h addr)) as Hr'.
  by rewrite E in Hr'.
Qed.

Lemma sie_free_result_witness :
  let h := (init_sie_heap 0x1000 0x4000 zero_heap).2 in sie_free 0x1000 h = (-1, h).
Proof.
  intros h. destruct (sie_free_result 0x1000 0x4000 h 0x1000 reachable_init) as [(s & Hin & _)|[_ E]]; [|exact E].
  exfalso. assert (used_blocks h = []) as Hu by (vm_compute; reflexivity). rewrite Hu in Hin. by apply not_elem_of_nil in Hin.
Defined.

(** C33. Allocating, for sizes up to [2^32 - 1024], and freeing again leaves the same blocks in use and, whatever was
    split and merged on the way, the same free blocks. *)
Theorem sie_malloc_free_roundtrip base total h sz a h1 :
  reachable base total h -> good_size sz -> sie_malloc sz h = (a, h1) -> a <> 0 ->
  exists h2, sie_free a h1 = (0, h2) /\ used_blocks h2 ≡ₚ used_blocks h /\ free_blocks h2 ≡ₚ free_blocks h.
Proof.
  intros Hr Hsz Em Ha. pose proof (reachable_ok _ _ _ Hr) as Hok.
  destruct (malloc_cases _ _ _ _ _ _ Hok Hsz Em) as [(? & _)|(Hok1 & Hu & _ & _ & Hd & _)]; [done|].
  set (size := ASSIGNED_FOR_1024BYTE sz) in *. destruct (ASSIGNED_range sz Hsz) as [_ Hpos]. fold size in Hpos.
  destruct (free_cases _ _ _ a Hok1) as [(s & Hin & h2 & Ef & Hok2 & Hu2)|[Hn _]].
  - exists h2. assert (used_blocks h2 ≡ₚ used_blocks h) as Hp; [|by split_and!; [| |apply (free_determined base total)]].
    rewrite Hu in Hin, Hu2. apply elem_of_cons in Hin as [[= ->]|Hin].
    + by apply Permutation_cons_inv in Hu2.
    + rewrite list.Forall_forall in Hd. specialize (Hd _ Hin). cbn in Hd.
      destruct Hok as (P & F & U & o & Hi). rewrite (used_blocks_spec Hi) in Hin. apply list_elem_of_fmap in Hin as (x & Ex & Hx).
      destruct (inv_bounds Hi x) as (_ & B & _); [set_solver|]. unfold blk_size in B. rewrite <- Ex in B. cbn in B. lia.
  - exfalso. apply (Hn size). rewrite Hu. set_solver.
Qed.

Lemma sie_malloc_free_roundtrip_witness :
  let h := (init_sie_heap 0x1000 0x4000 zero_heap).2 in
  let h1 := (sie_malloc 1500 h).2 in
  exists h2, sie_free 0x1000 h1 = (0, h2) /\ used_blocks h2 ≡ₚ used_blocks h /\ free_blocks h2 ≡ₚ free_blocks h.
Proof.
  refine (sie_malloc_free_roundtrip 0x1000 0x4000 _ 1500 0x1000 _ reachable_init _ _ _); [unfold good_size; lia| |lia].
  vm_compute. reflexivity.
Defined.

(** However the arena was cut up: when nothing is in use any more, the whole arena
    is one free block again. *)
Theorem sie_heap_recovers base total h :
  reachable base total h -> used_blocks h = [] -> free_blocks h = [(base, total)].
Proof.
  intros Hr Hu. pose proof Hr as (Hb & Ht & He & _).
  destruct (init_inv base total zero_heap zero_heap_full Hb Ht He) as (h0 & E0 & Hi0).
  assert (used_blocks h0 = [] /\ free_blocks h0 = [(base, total)]) as [Hu0 Hf0].
  { rewrite (used_blocks_spec Hi0), (free_blocks_spec Hi0). split; [done|]. cbn. f_equal.
    pose proof (i_chain _ _ _ _ _ _ _ Hi0) as Hc. cbn [chain] in Hc. destruct (blk (pool h0) 0) as [x y]. cbn in Hc. f_equal; lia. }
  apply Permutation_singleton_r. rewrite <- Hf0. apply (free_determined base total); [by apply reachable_ok|by eexists _, _, _, _|].
  by rewrite Hu, Hu0.
Qed.

Lemma sie_heap_recovers_witness :
  let h := (sie_free 0x1000 (sie_free 0x1400 (sie_malloc 1 (sie_malloc 1 (init_sie_heap 0x1000 0x4000 zero_heap).2).2).2).2).2 in
  free_blocks h = [(0x1000, 0x4000)].
Proof.
  intros h. refine (sie_heap_recovers 0x1000 0x4000 h _ _); [|vm_compute; reflexivity].
  do 2 (refine (reachable_call _ _ _ _ _ (call_free _ _))).
  do 2 (refine (reachable_call _ _ _ _ _ (call_malloc _ _ _)); [|unfold good_size; lia]). exact reachable_init.
Defined.

Lemma ASSIGNED_wraps sz : 2 ^ 32 - 1024 < sz < 2 ^ 32 -> ASSIGNED_FOR_1024BYTE sz = 0.
Proof.
  intros Hsz. unfold ASSIGNED_FOR_1024BYTE. rewrite (proj2 (Z.eqb_neq _ _)) by lia.
  assert (u32 (sz + 1023) = sz + 1023 - 2 ^ 32) as ->.
  { replace (sz + 1023) with ((sz + 1023 - 2 ^ 32) + 1 * 2 ^ 32) by lia. unfold u32, uwrap. rewrite Z.mod_add, Z.mod_small; lia. }
  assert (0 <= sz + 1023 - 2 ^ 32 < 2 ^ 10) as Hx by lia. generalize dependent (sz + 1023 - 2 ^ 32). intros x Hx.
  rewrite <- (Z.mod_small x (2 ^ 10)), <- Z.land_ones, <- Z.land_assoc by lia.
  change (Z.land (Z.ones 10) (u32 (Z.lnot 1023))) with 0. apply Z.land_0_r.
Qed.

(** A request within a kilobyte of 4 GB is rounded up to nothing: as long as any
    memory is free, the caller gets the address of the first free block, and not a
    byte is reserved. *)
Theorem sie_malloc_huge_request base total h sz a s fl :
  reachable base total h -> 2 ^ 32 - 1024 < sz < 2 ^ 32 -> free_blocks h = (a, s) :: fl ->
  (length (free_blocks h) + length (used_blocks h) < TOTAL_RAM_FRAG)%nat ->
  let h' := (sie_malloc sz h).2 in
  (sie_malloc sz h).1 = a /\ used_blocks h' = (a, 0) :: used_blocks h /\ free_blocks h' ≡ₚ free_blocks h.
Proof.
  intros (P & F & U & o & Hi)%reachable_ok Hsz. rewrite (free_blocks_spec Hi), (used_blocks_spec Hi), !length_fmap.
  destruct F as [|t F]; [done|]. cbn [fmap list_fmap]. intros [= Ea Es <-] Hc.
  assert (blk (pool h) t = (a, s)) as Et by (unfold blk; by rewrite Ea, Es). destruct P as [|n P].
  { pose proof (i_count _ _ _ _ _ _ _ Hi) as Hk. cbn in Hk, Hc. lia. }
  pose proof (i_repr _ _ _ _ _ _ _ Hi) as Hr. destruct (inv_bounds Hi t) as (B1 & B2 & B3); [set_solver|].
  pose proof (i_bounds _ _ _ _ _ _ _ Hi) as B. unfold blk_size in B2.
  destruct (malloc_succeeds h n P (t :: F) U sz t Hr ltac:(lia)) as (h' & F1 & F2 & EF & Hsm & Hm).
  { rewrite ASSIGNED_wraps by done. cbn [find]. change (ram_size (get h t)) with (blk (pool h) t).2.
    by rewrite (proj2 (Z.leb_le _ _) (Z.lt_le_incl _ _ B2)). }
  rewrite ASSIGNED_wraps in Hsm, Hm by done. destruct F1 as [|y F1]; [injection EF as <-|].
  2: { injection EF as <- _. inversion Hsm as [|? ? Hy _]; subst. change (ram_size (get h t)) with (blk (pool h) t).2 in Hy. lia. }
  rewrite Et in B1, B2, B3, Hm. cbn [fst snd] in B1, B2, B3. destruct Hm as (-> & _ & Bn & Bt & Hb & _ & _ & Hr').
  rewrite Z.add_0_r, Z.sub_0_r, !u32_small in Bt by lia. rewrite Z.sub_0_r, u32_small, (proj2 (Z.eqb_neq s 0)) in Hr' by lia. cbn zeta. cbn [fst snd app].
  assert (forall y, y ∈ (t :: F) ++ U -> blk (pool h') y = blk (pool h) y) as Hsame.
  { intros y Hy. destruct (decide (y = t)) as [->|]; [by rewrite Bt, Et|]. apply Hb; [|done].
    intros ->. apply (inv_spare Hi n); [set_solver|done]. }
  rewrite (used_blocks_repr _ _ _ _ _ Hr'), (free_blocks_repr _ _ _ _ _ Hr'). split_and!; [done| |].
  - cbn [fmap list_fmap]. rewrite Bn. f_equal. apply list_fmap_ext. intros i y Hy. apply Hsame.
    apply list_elem_of_lookup_2 in Hy. set_solver.
  - cbn [app]. transitivity (blk (pool h') <$> t :: F); [apply fmap_Permutation, insert_by_perm|]. cbn [fmap list_fmap].
    rewrite Bt, <- Et. apply reflexive_eq. f_equal. apply list_fmap_ext. intros i y Hy. apply Hsame.
    apply list_elem_of_lookup_2 in Hy. set_solver.
Qed.

Lemma sie_malloc_huge_request_witness :
  let h := (init_sie_heap 0x1000 0x4000 zero_heap).2 in
  used_blocks (sie_malloc 0xffffffff h).2 = [(0x1000, 0)].
Proof.
  intros h. refine (proj1 (proj2 (sie_malloc_huge_request 0x1000 0x4000 h 0xffffffff 0x1000 0x4000 [] reachable_init _ _ _)));
    [lia|vm_compute; reflexivity|vm_compute; lia].
Defined.
