(* ===== verification/Semaphore.v ===== *)
(** * Counting semaphores (kernel/semaphore.c)

    The waiting list holds the waiters in order of arrival; a waiter lives on the
    stack of its task, so that a task has one waiter at most and is named by a
    number here.  Every stretch of code under [sem->lock] is one function; a call
    that sleeps gives up the lock and continues later in [__down_resume].  Events
    of any number of tasks then interleave at the points where the lock is free. *)

From Stdlib Require Import ZArith Lia.
From stdpp Require Import base numbers list gmap fin_maps option relations.
From S2P Require Import Prelude.

Local Open Scope Z_scope.

(** ** Task states (include/linux/sched.h) and sleeping (kernel/timer.c) *)

Definition TASK_INTERRUPTIBLE : Z := 1.
Definition TASK_UNINTERRUPTIBLE : Z := 2.
Definition TASK_WAKEKILL : Z := 128.
Definition TASK_KILLABLE : Z := TASK_WAKEKILL .| TASK_UNINTERRUPTIBLE.

(** What the scheduler code reads of a task: a signal is pending, SIGKILL is. *)
Record task := mk_task { signal_pending : bool; fatal_pending : bool }.

Definition signal_pending_state (state : Z) (p : task) : bool :=
  if state .& (TASK_INTERRUPTIBLE .| TASK_WAKEKILL) =? 0 then false
  else if negb (signal_pending p) then false
  else negb (state .& TASK_INTERRUPTIBLE =? 0) || fatal_pending p.

Section sleeping.

Context `{LongWidth}.

Definition MAX_SCHEDULE_TIMEOUT : Z := 2 ^ (BITS_PER_LONG - 1) - 1.

(** [jiffies0] and [jiffies1] are the clock when the task goes to sleep and when it runs again. *)
Definition schedule_timeout (timeout jiffies0 jiffies1 : Z) : Z :=
  let out (timeout : Z) := if timeout <? 0 then 0 else timeout in
  if timeout =? MAX_SCHEDULE_TIMEOUT then out timeout
  else if timeout <? 0 then out timeout
  else
    let expire := ulong (timeout + jiffies0) in
    out (slong (expire - jiffies1)).

Lemma schedule_timeout_max j0 j1 : schedule_timeout MAX_SCHEDULE_TIMEOUT j0 j1 = MAX_SCHEDULE_TIMEOUT.
Proof.
  unfold schedule_timeout. rewrite Z.eqb_refl. unfold MAX_SCHEDULE_TIMEOUT.
  destruct (Z.ltb_spec (2 ^ (BITS_PER_LONG - 1) - 1) 0) as [Hlt|]; [|done].
  assert (0 < 2 ^ (BITS_PER_LONG - 1)) by (apply Z.pow_pos_nonneg; [lia|]; pose proof bits_per_long_pos; lia). lia.
Qed.

Lemma max_schedule_pos : 0 < MAX_SCHEDULE_TIMEOUT.
Proof. unfold MAX_SCHEDULE_TIMEOUT. by destruct bits_per_long_ok as [-> | ->]. Qed.

End sleeping.

(** ** The semaphore *)

(** [waiter_up] is the [up] field of the waiters on the stacks of sleeping tasks. *)
Record semaphore := mk_sem {
  count : Z;
  wait_list : list nat;
  waiter_up : gmap nat bool
}.

Definition sema_init (val : Z) : semaphore := mk_sem (u32 val) [] ∅.

Definition set_count (s : semaphore) (c : Z) : semaphore := mk_sem c (wait_list s) (waiter_up s).

(** [list_add_tail] of a new waiter. *)
Definition add_waiter (t : nat) (s : semaphore) : semaphore :=
  mk_sem (count s) (wait_list s ++ [t]) (<[t := false]> (waiter_up s)).

(** Deleting an entry that is not on the list corrupts memory: no result. *)
Definition list_del (t : nat) (s : semaphore) : option semaphore :=
  if decide (t ∈ wait_list s) then Some (mk_sem (count s) (filter (fun x => x <> t) (wait_list s)) (waiter_up s)) else None.

(** The waiter is gone when its function returns. *)
Definition leave (t : nat) (s : semaphore) : semaphore :=
  mk_sem (count s) (wait_list s) (delete t (waiter_up s)).

(** A call returns, or releases the lock and calls [schedule_timeout]. *)
Inductive outcome := Return (r : Z) | Sleep (timeout : Z).

(** The head of the loop of [__down_common], up to the next sleep. *)
Definition down_loop (t : nat) (state timeout : Z) (p : task) (s : semaphore) : option (outcome * semaphore) :=
  if signal_pending_state state p then
    s ← list_del t s; Some (Return (- EINTR), leave t s)
  else if timeout <=? 0 then
    s ← list_del t s; Some (Return (- ETIME), leave t s)
  else Some (Sleep timeout, s).

Definition __down_common (t : nat) (state timeout : Z) (p : task) (s : semaphore) : option (outcome * semaphore) :=
  down_loop t state timeout p (add_waiter t s).

(** After [schedule_timeout] has returned [timeout] and the lock is taken again. *)
Definition __down_resume (t : nat) (state timeout : Z) (p : task) (s : semaphore) : option (outcome * semaphore) :=
  match waiter_up s !! t with
  | Some true => Some (Return 0, leave t s)
  | Some false => down_loop t state timeout p s
  | None => None
  end.

Section calls.

Context `{LongWidth}.

Definition __down (t : nat) : task -> semaphore -> option (outcome * semaphore) :=
  __down_common t TASK_UNINTERRUPTIBLE MAX_SCHEDULE_TIMEOUT.
Definition __down_interruptible (t : nat) : task -> semaphore -> option (outcome * semaphore) :=
  __down_common t TASK_INTERRUPTIBLE MAX_SCHEDULE_TIMEOUT.
Definition __down_killable (t : nat) : task -> semaphore -> option (outcome * semaphore) :=
  __down_common t TASK_KILLABLE MAX_SCHEDULE_TIMEOUT.
Definition __down_timeout (t : nat) (jiffies : Z) : task -> semaphore -> option (outcome * semaphore) :=
  __down_common t TASK_UNINTERRUPTIBLE jiffies.

Definition down (t : nat) (p : task) (s : semaphore) : option (outcome * semaphore) :=
  if 0 <? count s then Some (Return 0, set_count s (u32 (count s - 1))) else __down t p s.
Definition down_interruptible (t : nat) (p : task) (s : semaphore) : option (outcome * semaphore) :=
  if 0 <? count s then Some (Return 0, set_count s (u32 (count s - 1))) else __down_interruptible t p s.
Definition down_killable (t : nat) (p : task) (s : semaphore) : option (outcome * semaphore) :=
  if 0 <? count s then Some (Return 0, set_count s (u32 (count s - 1))) else __down_killable t p s.
Definition down_timeout (t : nat) (jiffies : Z) (p : task) (s : semaphore) : option (outcome * semaphore) :=
  if 0 <? count s then Some (Return 0, set_count s (u32 (count s - 1))) else __down_timeout t jiffies p s.

End calls.

(** 0 when the semaphore was taken, 1 when not. *)
Definition down_trylock (s : semaphore) : Z * semaphore :=
  let c := s32 (count s - 1) in
  let s := if 0 <=? c then set_count s c else s in
  ((if c <? 0 then 1 else 0), s).

Definition __up (s : semaphore) : semaphore :=
  match wait_list s with
  | [] => s
  | t :: l => mk_sem (count s) l (<[t := true]> (waiter_up s))
  end.

Definition up (s : semaphore) : semaphore :=
  match wait_list s with
  | [] => set_count s (u32 (count s + 1))
  | _ => __up s
  end.

(** ** Any number of tasks *)

Inductive call := Down | DownInterruptible | DownKillable | DownTimeout (jiffies : Z) | DownTrylock.

(** The state a sleeping call sleeps in and the code it may give up with. *)
Definition call_state (c : call) : Z :=
  match c with
  | DownInterruptible => TASK_INTERRUPTIBLE
  | DownKillable => TASK_KILLABLE
  | _ => TASK_UNINTERRUPTIBLE
  end.

(** Events: task [t] calls one of the down functions, a sleeping task runs again
    (woken, timed out, signalled or for no reason), someone calls [up]. *)
Inductive event :=
  | EDown (t : nat) (c : call) (p : task)
  | EWake (t : nat) (p : task) (jiffies0 jiffies1 : Z)
  | EUp.

(** The semaphore, the calls that sleep with their timeouts, the results of the
    calls that have returned (latest first), and the number of calls of [up]. *)
Record config := mk_config {
  sem : semaphore;
  asleep : gmap nat (call * Z);
  log : list (nat * call * Z);
  ups : Z
}.

(** ** The semaphore proper *)

(** Waiters that were handed the semaphore and have not yet returned. *)
Definition handed (s : semaphore) : Z := occurs true (waiter_up s).

Record sem_inv (s : semaphore) : Prop := {
  s_pos : 0 <= count s;
  s_queue : wait_list s <> [] -> count s = 0;
  s_nodup : NoDup (wait_list s);
  s_list : forall t, t ∈ wait_list s <-> waiter_up s !! t = Some false
}.

Lemma handed_leave t s (b : bool) :
  waiter_up s !! t = Some b -> handed s = handed (leave t s) + (if b then 1 else 0).
Proof. intros Ht. unfold handed, leave. rewrite (occurs_delete true t), Ht. by destruct b. Qed.

(** What a stretch of a down call of [t] may do. *)
Definition good_result (t : nat) (s : semaphore) (o : outcome) (s' : semaphore) : Prop :=
  sem_inv s' /\ (forall u, u <> t -> waiter_up s' !! u = waiter_up s !! u) /\
  match o with
  | Return r => waiter_up s' !! t = None /\ count s' + handed s' = count s + handed s - (if r =? 0 then 1 else 0)
  | Sleep _ => is_Some (waiter_up s' !! t) /\ count s' + handed s' = count s + handed s
  end.

(** A waiter gives up. *)
Lemma give_up_good t s r :
  sem_inv s -> waiter_up s !! t = Some false -> r <> 0 ->
  exists s', list_del t s = Some s' /\ good_result t s (Return r) (leave t s').
Proof.
  intros [Hp Hq Hn Hl] Ht Hr. unfold list_del. rewrite decide_True by (by apply Hl). eexists. split; [done|].
  split; [|split; [|split]]; cbn [leave count wait_list waiter_up].
  - constructor; cbn [leave count wait_list waiter_up]; try done.
    + intros Hne. apply Hq. intros E. by rewrite E in Hne.
    + by apply NoDup_filter.
    + intros u. rewrite list_elem_of_filter, Hl. destruct (decide (u = t)) as [->|Hne].
      * rewrite lookup_delete_eq. naive_solver.
      * rewrite lookup_delete_ne by done. naive_solver.
  - intros u Hne. by apply lookup_delete_ne.
  - apply lookup_delete_eq.
  - rewrite (proj2 (Z.eqb_neq r 0) Hr). pose proof (handed_leave t s false Ht) as E. unfold handed, leave in *. cbn in *. lia.
Qed.

Lemma down_loop_good t state timeout p s :
  sem_inv s -> waiter_up s !! t = Some false ->
  exists o s', down_loop t state timeout p s = Some (o, s') /\ good_result t s o s'.
Proof.
  intros Hi Ht. unfold down_loop. destruct (signal_pending_state state p); [|destruct (Z.leb_spec timeout 0)].
  - destruct (give_up_good t s (- EINTR) Hi Ht) as (s' & -> & ?); [done|]. by eexists _, _.
  - destruct (give_up_good t s (- ETIME) Hi Ht) as (s' & -> & ?); [done|]. by eexists _, _.
  - eexists _, _. split; [done|]. unfold good_result. by rewrite Ht.
Qed.

(** The slow path, entered when nothing is left. *)
Lemma down_common_good t state timeout p s :
  sem_inv s -> count s = 0 -> waiter_up s !! t = None ->
  exists o s', __down_common t state timeout p s = Some (o, s') /\ good_result t s o s'.
Proof.
  intros [Hp Hq Hn Hl] Hc Ht. assert (t ∉ wait_list s) as Hin by (rewrite Hl, Ht; done).
  assert (sem_inv (add_waiter t s)) as Hi.
  { constructor; cbn [add_waiter count wait_list waiter_up]; try done.
    - apply list.NoDup_app. split_and!; [done|set_solver|apply NoDup_singleton].
    - intros u. rewrite elem_of_app, list_elem_of_singleton, Hl. destruct (decide (u = t)) as [->|Hne].
      + rewrite lookup_insert_eq. naive_solver.
      + rewrite lookup_insert_ne by done. naive_solver. }
  destruct (down_loop_good t state timeout p _ Hi) as (o & s' & E & Hi' & Hf & Ho); [apply lookup_insert_eq|].
  exists o, s'. split; [done|]. split_and!; [done| |].
  - intros u Hne. rewrite Hf by done. by apply lookup_insert_ne.
  - unfold add_waiter, handed in Ho. cbn [count waiter_up] in Ho. rewrite occurs_new in Ho by done. cbn in Ho.
    by rewrite Z.add_0_r in Ho.
Qed.

Lemma down_resume_good t state timeout p s :
  sem_inv s -> is_Some (waiter_up s !! t) ->
  exists o s', __down_resume t state timeout p s = Some (o, s') /\ good_result t s o s'.
Proof.
  intros Hi [b Hb]. unfold __down_resume. rewrite Hb. destruct b; [|by apply down_loop_good].
  eexists _, _. split; [done|]. destruct Hi as [Hp Hq Hn Hl]. split; [|split; [|split]]; cbn [leave waiter_up].
  - constructor; cbn [leave count wait_list waiter_up]; try done. intros u. rewrite Hl.
    destruct (decide (u = t)) as [->|Hne]; [by rewrite Hb, lookup_delete_eq|by rewrite lookup_delete_ne].
  - intros u Hne. by apply lookup_delete_ne.
  - apply lookup_delete_eq.
  - pose proof (handed_leave t s true Hb) as E. unfold leave in *. cbn in *. lia.
Qed.

(** The fast path. *)
Lemma take_good t s :
  sem_inv s -> 0 < count s -> waiter_up s !! t = None -> good_result t s (Return 0) (set_count s (count s - 1)).
Proof.
  intros [Hp Hq Hn Hl] Hc Ht. split; [|split_and!; try done; cbn; unfold handed; cbn; lia].
  constructor; cbn [set_count count wait_list waiter_up]; try done; [lia|]. intros Hne. specialize (Hq Hne). lia.
Qed.

Lemma up_inv s :
  sem_inv s -> count s < 2 ^ 32 - 1 ->
  sem_inv (up s) /\ count (up s) + handed (up s) = count s + handed s + 1 /\
  (forall t, is_Some (waiter_up (up s) !! t) <-> is_Some (waiter_up s !! t)).
Proof.
  intros [Hp Hq Hn Hl] Hc. unfold up, __up. destruct (wait_list s) as [|t l] eqn:El.
  - rewrite u32_small by lia. split_and!; [|unfold handed; cbn; lia|done].
    constructor; cbn [set_count count wait_list waiter_up]; rewrite ?El; done || lia.
  - assert (waiter_up s !! t = Some false) as Ht by (apply Hl; set_solver). apply list.NoDup_cons in Hn as [Hnt Hn]. split_and!.
    + constructor; cbn [count wait_list waiter_up]; try done.
      * intros _. by apply Hq.
      * intros u. destruct (decide (u = t)) as [->|Hne]; [by rewrite lookup_insert_eq; naive_solver|].
        rewrite lookup_insert_ne, <- Hl by done. set_solver.
    + pose proof (occurs_delete true t (waiter_up s)) as Ed. rewrite Ht, decide_False in Ed by done.
      unfold handed. cbn [waiter_up count]. rewrite occurs_insert, decide_True by done. lia.
    + intros u. cbn. destruct (decide (u = t)) as [->|Hne]; [by rewrite lookup_insert_eq, Ht, !is_Some_alt|by rewrite lookup_insert_ne].
Qed.

Section system.

Context `{LongWidth}.

Definition run_call (t : nat) (c : call) (p : task) (s : semaphore) : option (outcome * semaphore) :=
  match c with
  | Down => down t p s
  | DownInterruptible => down_interruptible t p s
  | DownKillable => down_killable t p s
  | DownTimeout j => down_timeout t j p s
  | DownTrylock => let '(r, s) := down_trylock s in Some (Return r, s)
  end.

(** What the system is after a stretch of call [c] of task [t]. *)
Definition settle (t : nat) (c : call) (k : config) (o : outcome * semaphore) : config :=
  match o with
  | (Return r, s) => mk_config s (delete t (asleep k)) ((t, c, r) :: log k) (ups k)
  | (Sleep timeout, s) => mk_config s (<[t := (c, timeout)]> (asleep k)) (log k) (ups k)
  end.

(** A task that sleeps cannot call; a task that does not sleep cannot wake. *)
Definition enabled (e : event) (k : config) : Prop :=
  match e with
  | EDown t _ _ => asleep k !! t = None
  | EWake t _ _ _ => is_Some (asleep k !! t)
  | EUp => True
  end.

Definition run_event (e : event) (k : config) : option config :=
  match e with
  | EDown t c p => settle t c k <$> run_call t c p (sem k)
  | EWake t p j0 j1 =>
      '(c, timeout) ← asleep k !! t;
      settle t c k <$> __down_resume t (call_state c) (schedule_timeout timeout j0 j1) p (sem k)
  | EUp => Some (mk_config (up (sem k)) (asleep k) (log k) (ups k + 1))
  end.

Inductive step : config -> config -> Prop :=
  | step_event e k k' : enabled e k -> run_event e k = Some k' -> step k k'.

Definition start (val : Z) : config := mk_config (sema_init val) ∅ [] 0.

(** Acquisitions that have returned, and waiters that were handed the semaphore and
    have not yet returned. *)
Definition acquired (k : config) : Z := Z.of_nat (length (filter (fun x : nat * call * Z => x.2 = 0) (log k))).

(** ** The invariant *)

Record inv (val : Z) (k : config) : Prop := {
  v_count : count (sem k) + handed (sem k) + acquired k = val + ups k;
  v_sem : sem_inv (sem k);
  v_asleep : forall t, is_Some (asleep k !! t) <-> is_Some (waiter_up (sem k) !! t);
  v_ups : 0 <= ups k
}.

Lemma inv_count val k : inv val k -> count (sem k) <= val + ups k.
Proof. intros [Hc _ _ _]. pose proof (occurs_nonneg true (waiter_up (sem k))). unfold acquired, handed in Hc. lia. Qed.

Lemma settle_inv val t c k o s' :
  inv val k -> good_result t (sem k) o s' -> inv val (settle t c k (o, s')).
Proof.
  intros [Hc Hs Ha Hu] (Hi & Hf & Ho). assert (forall m : gmap nat (call * Z), (forall u, u <> t -> m !! u = asleep k !! u) ->
    (is_Some (m !! t) <-> is_Some (waiter_up s' !! t)) -> forall u, is_Some (m !! u) <-> is_Some (waiter_up s' !! u)) as Hd.
  { intros m Hm Ht u. destruct (decide (u = t)) as [->|Hne]; [done|]. by rewrite Hm, Hf. }
  destruct o as [r|timeout]; cbn [settle]; destruct Ho as [Ht Ho]; constructor; cbn [sem asleep log ups]; try done.
  - unfold acquired. cbn [log]. rewrite filter_cons. unfold acquired in Hc. cbn [snd].
    destruct (Z.eqb_spec r 0), (decide (r = 0)); try done; cbn [length]; lia.
  - apply Hd; [intros u ?; by apply lookup_delete_ne|]. by rewrite lookup_delete_eq, Ht, !is_Some_alt.
  - by rewrite Ho.
  - apply Hd; [intros u ?; by apply lookup_insert_ne|]. by rewrite lookup_insert_eq.
Qed.

(** Calls cannot fail, and [up] is safe as long as the count fits its type. *)
Lemma run_call_good t c p s :
  sem_inv s -> waiter_up s !! t = None -> count s < 2 ^ 31 ->
  exists o s', run_call t c p s = Some (o, s') /\ good_result t s o s'.
Proof.
  intros Hi Ht Hc. pose proof (s_pos _ Hi) as Hp.
  destruct c; cbn [run_call]; unfold down, down_interruptible, down_killable, down_timeout.
  1-4: destruct (Z.ltb_spec 0 (count s));
    [rewrite u32_small by lia; eexists _, _; split; [done|]; by apply take_good|apply down_common_good; [done|lia|done]].
  unfold down_trylock. rewrite s32_small by lia. destruct (Z.leb_spec 0 (count s - 1)).
  - rewrite (proj2 (Z.ltb_ge _ _)) by lia. eexists _, _. split; [done|]. apply take_good; [done|lia|done].
  - rewrite (proj2 (Z.ltb_lt _ _)) by lia. eexists _, _. split; [done|]. split_and!; try done. cbn. lia.
Qed.

Lemma event_inv val e k :
  inv val k -> enabled e k -> 0 <= val -> val + ups k < 2 ^ 31 -> exists k', run_event e k = Some k' /\ inv val k'.
Proof.
  intros Hi He Hv Hb. pose proof Hi as [Hc Hs Ha Hu]. pose proof (inv_count _ _ Hi) as Hlt.
  destruct e as [t c p|t p j0 j1|]; cbn [run_event enabled] in *.
  - destruct (run_call_good t c p (sem k) Hs) as (o & s' & -> & Hg); [|lia|].
    + rewrite eq_None_not_Some, <- Ha, <- eq_None_not_Some. done.
    + eexists. split; [done|]. by apply settle_inv.
  - destruct He as [[c timeout] Ek]. rewrite Ek. cbn [mbind option_bind].
    destruct (down_resume_good t (call_state c) (schedule_timeout timeout j0 j1) p (sem k) Hs) as (o & s' & -> & Hg).
    + apply Ha. by rewrite Ek.
    + eexists. split; [done|]. by apply settle_inv.
  - destruct (up_inv (sem k) Hs) as (Hs' & Hc' & Hd); [lia|]. eexists. split; [done|].
    constructor; cbn [sem asleep log ups]; try done; [|by intros; rewrite Ha, Hd|lia]. unfold acquired in *. cbn. lia.
Qed.

Lemma start_inv val : 0 <= val < 2 ^ 31 -> inv val (start val).
Proof.
  intros Hv. constructor; cbn [start sem asleep log ups sema_init count waiter_up].
  - unfold acquired, handed. cbn. rewrite u32_small by lia. change (occurs true ∅) with 0. lia.
  - constructor; cbn; rewrite ?u32_small by lia; try done; [lia|constructor|]. intros t. set_solver.
  - intros t. by rewrite !lookup_empty.
  - done.
Qed.

Lemma step_ups k k' : step k k' -> ups k <= ups k'.
Proof.
  intros [e k0 k1 _ E]. destruct e as [t c p|t p j0 j1|]; cbn [run_event] in E.
  - destruct (run_call _ _ _ _) as [[[r|] s']|]; [injection E as <-; cbn; lia..|done].
  - destruct (asleep k0 !! t) as [[c timeout]|]; [|done]. cbn [mbind option_bind] in E.
    destruct (__down_resume _ _ _ _ _) as [[[r|] s']|]; [injection E as <-; cbn; lia..|done].
  - injection E as <-. cbn. lia.
Qed.

(** The system after any events, as long as [up] is not called 2^31 times too often. *)
Lemma reach_inv val k :
  0 <= val < 2 ^ 31 -> rtc step (start val) k -> val + ups k < 2 ^ 31 -> inv val k.
Proof.
  intros Hv Hr. revert k Hr. apply (rtc_ind_r (fun k => val + ups k < 2 ^ 31 -> inv val k)); [intros; by apply start_inv|].
  intros k k' _ Hst IH Hb. pose proof (step_ups _ _ Hst) as Hle. destruct Hst as [e k0 k1 He E].
  destruct (event_inv val e k0 (IH ltac:(lia)) He) as (k2 & E2 & Hi); [lia|lia|]. rewrite E in E2. by injection E2 as ->.
Qed.

(** ** First come, first served *)

Inductive trace : config -> list event -> config -> Prop :=
  | trace_nil k : trace k [] k
  | trace_cons e es k k1 k' : enabled e k -> run_event e k = Some k1 -> trace k1 es k' -> trace k (e :: es) k'.

Definition wakes (t : nat) (e : event) : bool := match e with EWake u _ _ _ => (u =? t)%nat | _ => false end.
Definition is_up (e : event) : bool := match e with EUp => true | _ => false end.
Definition ups_in (es : list event) : nat := length (filter (fun e => is_up e = true) es).

Lemma trace_rtc k es k' : trace k es k' -> rtc step k k'.
Proof. induction 1; [done|]. eapply rtc_l; [by econstructor|done]. Qed.

Lemma rtc_ups k k' : rtc step k k' -> ups k <= ups k'.
Proof. induction 1 as [|k k1 k' Hs _ IH]; [lia|]. apply step_ups in Hs. lia. Qed.

(** What a stretch of a call of [u] may do to the queue. *)
Definition queue_after (u : nat) (l l' : list nat) : Prop :=
  exists l0, (l0 = l \/ l0 = l ++ [u]) /\ (l' = l0 \/ l' = filter (fun x => x <> u) l0).

Lemma queue_keeps t u l1 l2 l' :
  u <> t -> queue_after u (l1 ++ t :: l2) l' -> exists l1' l2', l' = l1' ++ t :: l2' /\ (length l1' <= length l1)%nat.
Proof.
  intros Hne (l0 & H0 & H1). assert (exists l2', l0 = l1 ++ t :: l2') as [l2' ->].
  { destruct H0 as [-> | ->]; [by exists l2|]. exists (l2 ++ [u]). by rewrite <- (assoc_L (++)). }
  destruct H1 as [-> | ->]; [by exists l1, l2'|].
  exists (filter (fun x => x <> u) l1), (filter (fun x => x <> u) l2').
  rewrite filter_app, filter_cons_True by done. split; [done|apply length_filter].
Qed.

Lemma down_loop_queue t state timeout p s o s' :
  down_loop t state timeout p s = Some (o, s') ->
  wait_list s' = wait_list s \/ wait_list s' = filter (fun x => x <> t) (wait_list s).
Proof.
  unfold down_loop, list_del. destruct (signal_pending_state state p); [|destruct (timeout <=? 0)].
  1-2: case_decide; [|done]; cbn; intros [= <- <-]; by right.
  intros [= <- <-]. by left.
Qed.

Lemma run_call_queue t c p s o s' : run_call t c p s = Some (o, s') -> queue_after t (wait_list s) (wait_list s').
Proof.
  assert (forall state timeout, __down_common t state timeout p s = Some (o, s') -> queue_after t (wait_list s) (wait_list s')) as Hc.
  { intros state timeout E%down_loop_queue. exists (wait_list s ++ [t]). split; [by right|done]. }
  destruct c; cbn [run_call]; unfold down, down_interruptible, down_killable, down_timeout.
  1-4: destruct (0 <? count s); [intros [= <- <-]; exists (wait_list s); by split; left|apply Hc].
  unfold down_trylock. intros [= <- <-]. exists (wait_list s). split; left; [done|]. by destruct (0 <=? _).
Qed.

Lemma down_resume_queue t state timeout p s o s' :
  __down_resume t state timeout p s = Some (o, s') -> queue_after t (wait_list s) (wait_list s').
Proof.
  unfold __down_resume. intros E. exists (wait_list s). split; [by left|]. destruct (waiter_up s !! t) as [[]|]; [|by eapply down_loop_queue|done].
  injection E as <- <-. by left.
Qed.

(** One event: [t] keeps its place or moves up, or it is handed the semaphore. *)
Lemma fifo_event val e k k' t l1 l2 :
  inv val k -> wakes t e = false -> enabled e k -> run_event e k = Some k' -> wait_list (sem k) = l1 ++ t :: l2 ->
  (is_up e = true /\ waiter_up (sem k') !! t = Some true) \/
  exists l1' l2', wait_list (sem k') = l1' ++ t :: l2' /\ (length l1' + (if is_up e then 1 else 0) <= length l1)%nat.
Proof.
  intros Hi Hw He E El. assert (waiter_up (sem k) !! t = Some false) as Ht.
  { apply (v_sem _ _ Hi). rewrite El. set_solver. }
  destruct e as [u c p|u p j0 j1|]; cbn [run_event enabled wakes is_up] in *.
  - assert (u <> t) as Hne. { intros ->. apply (eq_None_not_Some (asleep k !! t)) in He. apply He, (v_asleep _ _ Hi). by rewrite Ht. }
    right. destruct (run_call u c p (sem k)) as [[o s']|] eqn:Ec; [|done]. apply run_call_queue in Ec. rewrite El in Ec.
    destruct (queue_keeps _ _ _ _ _ Hne Ec) as (l1' & l2' & El' & Hle). exists l1', l2'.
    split; [destruct o; injection E as <-; done|lia].
  - apply Nat.eqb_neq in Hw. destruct (asleep k !! u) as [[c timeout]|]; [|done]. cbn [mbind option_bind] in E. right.
    destruct (__down_resume _ _ _ _ _) as [[o s']|] eqn:Ec; [|done]. apply down_resume_queue in Ec. rewrite El in Ec.
    destruct (queue_keeps _ _ _ _ _ Hw Ec) as (l1' & l2' & El' & Hle). exists l1', l2'.
    split; [destruct o; injection E as <-; done|lia].
  - injection E as <-. cbn [sem]. unfold up, __up. rewrite El. destruct l1 as [|x l1]; cbn [app].
    + left. split; [done|]. apply lookup_insert_eq.
    + right. exists l1, l2. cbn. split; [done|lia].
Qed.

(** A waiter that was handed the semaphore keeps it until it runs. *)
Lemma handed_event val e k k' t :
  inv val k -> val + ups k < 2 ^ 31 -> 0 <= val -> wakes t e = false -> enabled e k -> run_event e k = Some k' ->
  waiter_up (sem k) !! t = Some true -> waiter_up (sem k') !! t = Some true.
Proof.
  intros Hi Hb Hv Hw He E Ht. pose proof Hi as [Hc Hs Ha Hu]. pose proof (inv_count _ _ Hi) as Hlt.
  destruct e as [u c p|u p j0 j1|]; cbn [run_event enabled wakes] in *.
  - assert (u <> t) as Hne. { intros ->. apply (eq_None_not_Some (asleep k !! t)) in He. apply He, Ha. by rewrite Ht. }
    destruct (run_call_good u c p (sem k) Hs) as (o & s' & Er & _ & Hf & _); [|lia|].
    { rewrite eq_None_not_Some, <- Ha, <- eq_None_not_Some. done. }
    rewrite Er in E. destruct o; injection E as <-; cbn [sem]; by rewrite Hf.
  - apply Nat.eqb_neq in Hw. destruct He as [[c timeout] Ek]. rewrite Ek in E. cbn [mbind option_bind] in E.
    destruct (down_resume_good u (call_state c) (schedule_timeout timeout j0 j1) p (sem k) Hs) as (o & s' & Er & _ & Hf & _).
    { apply Ha. by rewrite Ek. }
    rewrite Er in E. destruct o; injection E as <-; cbn [sem]; by rewrite Hf.
  - injection E as <-. cbn [sem]. unfold up, __up. destruct (wait_list (sem k)) as [|x l] eqn:El; [done|].
    cbn. rewrite lookup_insert_ne; [done|]. intros ->.
    pose proof (proj1 (s_list _ Hs t)) as Hx. rewrite El in Hx. specialize (Hx ltac:(set_solver)). congruence.
Qed.

(** The run of a waiter: its call is back in the log, or sleeps on, handed the
    semaphore or with fewer waiters before it than calls of [up] still to come. *)
Definition waits (t : nat) (c : call) (n : nat) (k : config) : Prop :=
  (exists timeout, asleep k !! t = Some (c, timeout)) /\
  (waiter_up (sem k) !! t = Some true \/ exists l1 l2, wait_list (sem k) = l1 ++ t :: l2 /\ (length l1 < n)%nat).

Lemma settle_log t c k o : log k `suffix_of` log (settle t c k o).
Proof. destruct o as [[r|] s]; cbn [settle log]; [by apply suffix_cons_r|done]. Qed.

Lemma event_log e k k' : run_event e k = Some k' -> log k `suffix_of` log k'.
Proof.
  destruct e as [t c p|t p j0 j1|]; cbn [run_event]; intros E; [| |by injection E as <-].
  - destruct (run_call _ _ _ _) as [o|]; [|done]. injection E as <-. apply settle_log.
  - destruct (asleep k !! t) as [[c timeout]|]; [|done]. cbn [mbind option_bind] in E.
    destruct (__down_resume _ _ _ _ _) as [o|]; [|done]. injection E as <-. apply settle_log.
Qed.

Lemma settle_asleep_ne t u c k o : u <> t -> asleep (settle u c k o) !! t = asleep k !! t.
Proof. intros Hne. destruct o as [[r|] s]; cbn [settle asleep]; [by apply lookup_delete_ne|by apply lookup_insert_ne]. Qed.

Lemma event_asleep_ne e k k' t :
  wakes t e = false -> is_Some (asleep k !! t) -> enabled e k -> run_event e k = Some k' -> asleep k' !! t = asleep k !! t.
Proof.
  intros Hw [x Hx] He E. destruct e as [u c p|u p j0 j1|]; cbn [run_event enabled wakes] in *; [| |by injection E as <-].
  - destruct (run_call _ _ _ _) as [o|]; [|done]. injection E as <-. apply settle_asleep_ne. congruence.
  - apply Nat.eqb_neq in Hw. destruct (asleep k !! u) as [[c timeout]|]; [|done]. cbn [mbind option_bind] in E.
    destruct (__down_resume _ _ _ _ _) as [o|]; [|done]. injection E as <-. by apply settle_asleep_ne.
Qed.

(** The waiter runs: its call returns, or it was woken for no reason and sleeps on in its place. *)
Lemma wake_waits t c n e k k' :
  wakes t e = true -> run_event e k = Some k' -> waits t c n k ->
  (exists r, log k' = (t, c, r) :: log k) \/ waits t c n k'.
Proof.
  destruct e as [|u p j0 j1|]; try done. intros ->%Nat.eqb_eq E [[timeout Ek] Hq]. cbn [run_event] in E. rewrite Ek in E.
  cbn [mbind option_bind] in E. destruct (__down_resume _ _ _ _ _) as [[[r|to] s]|] eqn:Er; [| |done]; injection E as <-.
  { left. by exists r. }
  right. split; [eexists; apply lookup_insert_eq|]. cbn [settle sem].
  assert (s = sem k) as ->; [|done]. revert Er. unfold __down_resume, down_loop, list_del.
  destruct (waiter_up (sem k) !! t) as [[]|]; [done| |done]. destruct (signal_pending_state _ _); [by case_decide|].
  destruct (_ <=? 0); [by case_decide|]. by intros [= _ <-].
Qed.

Lemma other_waits val t c n e k k' :
  inv val k -> val + ups k < 2 ^ 31 -> 0 <= val -> wakes t e = false -> enabled e k -> run_event e k = Some k' ->
  waits t c (n + (if is_up e then 1 else 0)) k -> waits t c n k'.
Proof.
  intros Hi Hb Hv Hw He E [Hs Hq]. split.
  { destruct Hs as [timeout Es]. exists timeout. by rewrite (event_asleep_ne e k k' t Hw ltac:(by rewrite Es) He E). }
  destruct Hq as [Hq|(l1 & l2 & El & Hl)]; [left; exact (handed_event val e k k' t Hi Hb Hv Hw He E Hq)|].
  destruct (fifo_event val e k k' t l1 l2 Hi Hw He E El) as [[_ ?]|(l1' & l2' & El' & Hl')]; [by left|].
  right. exists l1', l2'. split; [done|lia].
Qed.

Lemma ups_in_cons e es : ups_in (e :: es) = (ups_in es + (if is_up e then 1 else 0))%nat.
Proof. unfold ups_in. rewrite filter_cons. case_decide; destruct (is_up e); try done; cbn [length]; lia. Qed.

Lemma trace_log k es k' : trace k es k' -> log k `suffix_of` log k'.
Proof. induction 1 as [|e es k k1 k' _ E _ IH]; [done|]. apply event_log in E. by etrans. Qed.

Lemma fifo_trace val k es k' t c :
  inv val k -> trace k es k' -> val + ups k' < 2 ^ 31 -> 0 <= val -> waits t c (ups_in es) k ->
  (exists r new, log k' = new ++ log k /\ (t, c, r) ∈ new) \/ waits t c 0 k'.
Proof.
  intros Hi Ht Hb Hv. revert Hi. induction Ht as [k|e es k k1 k' He E Ht IH]; intros Hi Hq; [by right|].
  assert (val + ups k < 2 ^ 31) as Hbk.
  { assert (rtc step k k') as Hr%rtc_ups by (eapply rtc_l; [by econstructor|by eapply trace_rtc]). lia. }
  destruct (event_inv val e k Hi He) as (k2 & E2 & Hi1); [done..|]. rewrite E in E2. injection E2 as <-.
  destruct (trace_log _ _ _ Ht) as [new Hnew]. destruct (event_log _ _ _ E) as [new1 Hnew1]. rewrite ups_in_cons in Hq.
  assert ((exists r, log k1 = (t, c, r) :: log k) \/ waits t c (ups_in es) k1) as [[r Hr]|Hq1].
  { destruct (wakes t e) eqn:Hw; [|right; exact (other_waits val t c _ e k k1 Hi Hbk Hv Hw He E Hq)].
    assert (is_up e = false) as Hu by (by destruct e). rewrite Hu, Nat.add_0_r in Hq. by eapply wake_waits. }
  { left. exists r, (new ++ [(t, c, r)]). rewrite Hnew, Hr, <- (assoc_L (++)). split; [done|set_solver]. }
  destruct (IH Hb Hi1 Hq1) as [(r & new2 & E2 & Hin)|]; [|by right].
  left. exists r, (new2 ++ new1). rewrite E2, Hnew1, (assoc_L (++)). split; [done|set_solver].
Qed.

(** ** Results *)

Definition result_ok (c : call) (r : Z) : Prop :=
  match c with
  | Down => r = 0
  | DownInterruptible | DownKillable => r = 0 \/ r = - EINTR
  | DownTimeout _ => r = 0 \/ r = - ETIME
  | DownTrylock => r = 0 \/ r = 1
  end.

(** Only [down_timeout] sleeps with a timeout that can run out. *)
Definition sleep_ok (c : call) (timeout : Z) : Prop :=
  match c with
  | Down | DownInterruptible | DownKillable => timeout = MAX_SCHEDULE_TIMEOUT
  | DownTimeout _ => True
  | DownTrylock => False
  end.

Lemma down_loop_result t c timeout p s o s' :
  sleep_ok c timeout -> down_loop t (call_state c) timeout p s = Some (o, s') ->
  match o with Return r => result_ok c r | Sleep timeout' => sleep_ok c timeout' end.
Proof.
  intros Hc. unfold down_loop. destruct (signal_pending_state (call_state c) p) eqn:Es.
  - destruct (list_del t s); [|done]. intros [= <- <-]. destruct c; cbn in *; try done; auto.
  - destruct (Z.leb_spec timeout 0); [|by intros [= <- <-]].
    destruct (list_del t s); [|done]. intros [= <- <-]. pose proof max_schedule_pos. destruct c; cbn in *; try lia; auto.
Qed.

Lemma run_call_result t c p s o s' :
  run_call t c p s = Some (o, s') -> match o with Return r => result_ok c r | Sleep timeout => sleep_ok c timeout end.
Proof.
  destruct c; cbn [run_call]; unfold down, down_interruptible, down_killable, down_timeout.
  1-4: destruct (0 <? count s); [intros [= <- <-]; cbn; auto|].
  - by apply (down_loop_result t Down).
  - by apply (down_loop_result t DownInterruptible).
  - by apply (down_loop_result t DownKillable).
  - by apply (down_loop_result t (DownTimeout jiffies)).
  - unfold down_trylock. intros [= <- <-]. cbn. destruct (_ <? 0); auto.
Qed.

Lemma down_resume_result t c timeout p s o s' :
  sleep_ok c timeout -> __down_resume t (call_state c) timeout p s = Some (o, s') ->
  match o with Return r => result_ok c r | Sleep timeout' => sleep_ok c timeout' end.
Proof.
  intros Hc. unfold __down_resume. destruct (waiter_up s !! t) as [[]|]; [|by apply down_loop_result|done].
  intros [= <- <-]. destruct c; cbn; auto.
Qed.

Definition results_ok (k : config) : Prop :=
  (forall t c r, (t, c, r) ∈ log k -> result_ok c r) /\ (forall t c timeout, asleep k !! t = Some (c, timeout) -> sleep_ok c timeout).

Lemma settle_results t c k o s' :
  results_ok k -> match o with Return r => result_ok c r | Sleep timeout => sleep_ok c timeout end ->
  results_ok (settle t c k (o, s')).
Proof.
  intros [Hl Ha] Ho. destruct o as [r|timeout]; cbn [settle]; split; cbn [log asleep].
  - intros u d r' [[= -> -> ->]|Hin]%elem_of_cons; [done|by eapply Hl].
  - intros u d to [_ E]%lookup_delete_Some. by eapply Ha.
  - done.
  - intros u d to [[-> [= -> ->]]|[_ E]]%lookup_insert_Some; [done|by eapply Ha].
Qed.

Lemma step_results k k' : step k k' -> results_ok k -> results_ok k'.
Proof.
  intros [e k0 k1 _ E] Hr. destruct e as [t c p|t p j0 j1|]; cbn [run_event] in E.
  - destruct (run_call t c p (sem k0)) as [[o s']|] eqn:Ec; [|done]. injection E as <-.
    apply settle_results; [done|]. by eapply run_call_result.
  - destruct (asleep k0 !! t) as [[c timeout]|] eqn:Ek; [|done]. cbn [mbind option_bind] in E.
    destruct (__down_resume _ _ _ _ _) as [[o s']|] eqn:Ec; [|done]. injection E as <-.
    apply settle_results; [done|]. eapply down_resume_result; [|done]. pose proof (proj2 Hr _ _ _ Ek) as Hs.
    destruct c; cbn in *; subst; rewrite ?schedule_timeout_max; done.
  - by injection E as <-.
Qed.

Lemma reach_results val k : rtc step (start val) k -> results_ok k.
Proof.
  revert k. apply (rtc_ind_r results_ok); [|intros k k' _ Hs Hk; by eapply step_results].
  split; cbn [start log asleep]; [set_solver|]. intros u d to Hx. by rewrite lookup_empty in Hx.
Qed.

End system.

(** C8. Whatever the order in which any number of tasks call, sleep, are woken, time
    out or are signalled: every call of [up] and every initial unit is either still
    counted, or was acquired, or is handed to a waiter that will return with it; a
    call that gives up takes nothing.  Nobody waits while the count is positive, and
    no waiter is ever unlinked twice (every enabled event has a result). *)
Theorem semaphore_accounting `{LongWidth} val k :
  0 <= val < 2 ^ 31 -> rtc step (start val) k -> val + ups k < 2 ^ 31 ->
  count (sem k) + handed (sem k) + acquired k = val + ups k /\ 0 <= count (sem k) /\
  (wait_list (sem k) <> [] -> count (sem k) = 0) /\
  (forall e, enabled e k -> is_Some (run_event e k)).
Proof.
  intros Hv Hr Hb. pose proof (reach_inv _ _ Hv Hr Hb) as Hi. pose proof Hi as [Hc Hs _ _].
  split_and!; [done|apply Hs|apply Hs|]. intros e He. destruct (event_inv val e k Hi He) as (k' & -> & _); [lia..|by eexists].
Qed.

(** Two tasks contend for a binary semaphore: the second sleeps. *)
Definition contended `{LongWidth} : config :=
  let p := mk_task false false in
  default (start 1) (k ← run_event (EDown 0 Down p) (start 1); run_event (EDown 1 Down p) k).

Lemma contended_reach : rtc (@step long32) (@start 1) (@contended long32).
Proof.
  eapply rtc_l; [by apply (step_event (EDown 0 Down (mk_task false false)))|].
  apply rtc_once. by apply (step_event (EDown 1 Down (mk_task false false))).
Qed.

Lemma semaphore_accounting_witness :
  let k := @contended long32 in wait_list (sem k) = [1%nat] /\ count (sem k) = 0.
Proof.
  intros k. split; [vm_compute; reflexivity|].
  apply (proj1 (proj2 (proj2 (@semaphore_accounting long32 1 k ltac:(lia) contended_reach ltac:(vm_compute; reflexivity))))).
  vm_compute. discriminate.
Defined.

(** C25. Bounded waiting, first come, first served: take any run of any number of
    tasks from a moment at which the call [c] of task [t] waits with [n] others in
    front of it, to a moment at which [up] was called more than [n] times.  In that run
    the call has returned, with 0 if it was [down] and otherwise with 0 or the error code
    of its kind, or it is handed the semaphore and its next run returns 0.  The run
    may wake [t] any number of times without cause. *)
Theorem semaphore_fifo `{LongWidth} val k es k' t l1 l2 c timeout :
  0 <= val < 2 ^ 31 -> rtc step (start val) k -> trace k es k' -> val + ups k' < 2 ^ 31 ->
  wait_list (sem k) = l1 ++ t :: l2 -> asleep k !! t = Some (c, timeout) -> (length l1 < ups_in es)%nat ->
  (exists r new, log k' = new ++ log k /\ (t, c, r) ∈ new /\ result_ok c r) \/
  (waiter_up (sem k') !! t = Some true /\
   forall p j0 j1, exists k'', run_event (EWake t p j0 j1) k' = Some k'' /\ log k'' = (t, c, 0) :: log k').
Proof.
  intros Hv Hr Ht Hb El Ec Hl. pose proof (rtc_ups _ _ (trace_rtc _ _ _ Ht)) as Hle.
  pose proof (reach_inv val k Hv Hr ltac:(lia)) as Hi.
  destruct (fifo_trace val k es k' t c Hi Ht Hb ltac:(lia)) as [(r & new & E & Hin)|[[to Ea] [Hup|(? & ? & _ & ?)]]]; [..|lia].
  - split; [by exists timeout|]. right. by exists l1, l2.
  - left. exists r, new. split_and!; [done..|].
    assert (rtc step (start val) k') as Hr' by (etrans; [done|by eapply trace_rtc]).
    apply (proj1 (reach_results val k' Hr') t c r). rewrite E. set_solver.
  - right. split; [done|]. intros p j0 j1. cbn [run_event]. rewrite Ea. cbn [mbind option_bind].
    unfold __down_resume. rewrite Hup. by eexists.
Qed.

(** The waiter is woken without cause, then [up] is called, then it runs. *)
Lemma semaphore_fifo_witness :
  let p := mk_task false false in
  exists k', @trace long32 (@contended long32) [EWake 1 p 0 0; EUp; EWake 1 p 0 0] k' /\
    exists r new, log k' = new ++ log (@contended long32) /\ (1%nat, Down, r) ∈ new /\ r = 0.
Proof.
  set (k := @contended long32). intros p.
  set (es := [EWake 1 p 0 0; EUp; EWake 1 p 0 0]).
  assert (exists k', @trace long32 k es k' /\ ups k' = 1 /\ waiter_up (sem k') !! 1%nat = None) as (k' & Ht & Hu & Hn).
  { eexists. split; [do 3 (eapply trace_cons; [by (exact I || eexists; vm_compute; reflexivity)|vm_compute; reflexivity|]); apply trace_nil|].
    split; reflexivity. }
  exists k'. split; [exact Ht|].
  destruct (@semaphore_fifo long32 1 k es k' 1 [] [] Down (@MAX_SCHEDULE_TIMEOUT long32)) as [?|[Hx _]].
  - lia.
  - exact contended_reach.
  - exact Ht.
  - rewrite Hu. reflexivity.
  - vm_compute. reflexivity.
  - vm_compute. reflexivity.
  - vm_compute. lia.
  - assumption.
  - rewrite Hn in Hx. discriminate Hx.
Defined.

(** [down] returns only with the semaphore; the interruptible and killable calls
    fail only with -EINTR, [down_timeout] only with -ETIME, [down_trylock] with 1. *)
Theorem semaphore_results `{LongWidth} val k t c r :
  rtc step (start val) k -> (t, c, r) ∈ log k ->
  match c with
  | Down => r = 0
  | DownInterruptible | DownKillable => r = 0 \/ r = - EINTR
  | DownTimeout _ => r = 0 \/ r = - ETIME
  | DownTrylock => r = 0 \/ r = 1
  end.
Proof.
  intros Hr Hin. by apply (proj1 (reach_results val k Hr) t c r).
Qed.

Lemma semaphore_results_witness : exists r, (0%nat, Down, r) ∈ log (@contended long32) /\ r = 0.
Proof.
  exists 0. assert ((0%nat, Down, 0) ∈ log (@contended long32)) as Hin by (vm_compute; apply elem_of_cons; by left).
  split; [exact Hin|]. exact (@semaphore_results long32 1 _ 0%nat Down 0 contended_reach Hin).
Defined.
