(* ===== verification/Rwsem.v ===== *)
(** * Reader/writer semaphores (lib/rwsem-spinlock.c)

    [activity] is the number of readers, or -1 for a writer; tasks that cannot
    have the lock queue in order of arrival and are given it by the task that
    releases.  Each function is one stretch under [sem->wait_lock]; a waiter spins
    on its own [task] field, which the releasing task clears, so that the woken
    tasks are a result of the functions.  *)

From Stdlib Require Import ZArith Lia.
From stdpp Require Import base numbers list gmap fin_maps option relations.
From S2P Require Import Prelude.

Local Open Scope Z_scope.

Definition RWSEM_WAITING_FOR_READ : Z := 1.
Definition RWSEM_WAITING_FOR_WRITE : Z := 2.

(** A waiter is on the stack of its task, and the task has no other. *)
Record rwsem_waiter := mk_waiter { waiter_task : nat; waiter_flags : Z }.

Record rw_semaphore := mk_rwsem { activity : Z; rw_wait_list : list rwsem_waiter }.

Definition __init_rwsem : rw_semaphore := mk_rwsem 0 [].

(** [spin_trylock_irqsave] may fail: then the lock is busy anyway. *)
Definition rwsem_is_locked (trylock : bool) (sem : rw_semaphore) : bool :=
  if trylock then negb (activity sem =? 0) else true.

Definition waits_for_read (w : rwsem_waiter) : bool := negb (waiter_flags w .& RWSEM_WAITING_FOR_READ =? 0).
Definition waits_for_write (w : rwsem_waiter) : bool := negb (waiter_flags w .& RWSEM_WAITING_FOR_WRITE =? 0).

(** The loop that grants read locks to the front of the queue: who was woken, and
    what is left. *)
Fixpoint wake_readers (l : list rwsem_waiter) : list nat * list rwsem_waiter :=
  match l with
  | [] => ([], [])
  | w :: l' =>
      if waits_for_read w then
        let '(woken, rest) := wake_readers l' in (waiter_task w :: woken, rest)
      else ([], l)
  end.

(** The woken tasks, and the semaphore.  The list is not empty. *)
Definition __rwsem_do_wake (sem : rw_semaphore) (wakewrite : bool) : list nat * rw_semaphore :=
  match rw_wait_list sem with
  | [] => ([], sem)
  | waiter :: l =>
      let dont_wake_writers :=
        let '(woken, rest) := wake_readers (waiter :: l) in
        (woken, mk_rwsem (s32 (activity sem + Z.of_nat (length woken))) rest) in
      if negb wakewrite then
        if waits_for_write waiter then ([], sem) else dont_wake_writers
      else if waits_for_write waiter then ([waiter_task waiter], mk_rwsem (-1) l)
      else dont_wake_writers
  end.

Definition __rwsem_wake_one_writer (sem : rw_semaphore) : list nat * rw_semaphore :=
  match rw_wait_list sem with
  | [] => ([], sem)
  | waiter :: l => ([waiter_task waiter], mk_rwsem (-1) l)
  end.

Definition list_empty {A} (l : list A) : bool := match l with [] => true | _ => false end.

(** Taking the lock: whether it was granted at once; otherwise the task waits. *)
Definition __down_read (t : nat) (sem : rw_semaphore) : bool * rw_semaphore :=
  if (0 <=? activity sem) && list_empty (rw_wait_list sem) then
    (true, mk_rwsem (s32 (activity sem + 1)) (rw_wait_list sem))
  else (false, mk_rwsem (activity sem) (rw_wait_list sem ++ [mk_waiter t RWSEM_WAITING_FOR_READ])).

Definition __down_read_trylock (sem : rw_semaphore) : Z * rw_semaphore :=
  if (0 <=? activity sem) && list_empty (rw_wait_list sem) then
    (1, mk_rwsem (s32 (activity sem + 1)) (rw_wait_list sem))
  else (0, sem).

Definition __down_write_nested (t : nat) (sem : rw_semaphore) : bool * rw_semaphore :=
  if (activity sem =? 0) && list_empty (rw_wait_list sem) then
    (true, mk_rwsem (-1) (rw_wait_list sem))
  else (false, mk_rwsem (activity sem) (rw_wait_list sem ++ [mk_waiter t RWSEM_WAITING_FOR_WRITE])).

Definition __down_write (t : nat) (sem : rw_semaphore) : bool * rw_semaphore := __down_write_nested t sem.

Definition __down_write_trylock (sem : rw_semaphore) : Z * rw_semaphore :=
  if (activity sem =? 0) && list_empty (rw_wait_list sem) then
    (1, mk_rwsem (-1) (rw_wait_list sem))
  else (0, sem).

(** Releasing it: the tasks that were given the lock. *)
Definition __up_read (sem : rw_semaphore) : list nat * rw_semaphore :=
  let sem := mk_rwsem (s32 (activity sem - 1)) (rw_wait_list sem) in
  if (activity sem =? 0) && negb (list_empty (rw_wait_list sem)) then __rwsem_wake_one_writer sem
  else ([], sem).

Definition __up_write (sem : rw_semaphore) : list nat * rw_semaphore :=
  let sem := mk_rwsem 0 (rw_wait_list sem) in
  if negb (list_empty (rw_wait_list sem)) then __rwsem_do_wake sem true else ([], sem).

Definition __downgrade_write (sem : rw_semaphore) : list nat * rw_semaphore :=
  let sem := mk_rwsem 1 (rw_wait_list sem) in
  if negb (list_empty (rw_wait_list sem)) then __rwsem_do_wake sem false else ([], sem).

(** ** Any number of tasks *)

Inductive mode := Read | Write.
Inductive status := Waits (m : mode) | Holds (m : mode).

#[global] Instance mode_eq_dec : EqDecision mode.
Proof. solve_decision. Defined.
#[global] Instance status_eq_dec : EqDecision status.
Proof. solve_decision. Defined.

(** A call by a task. *)
Inductive event := DownRead | DownReadTrylock | DownWrite | DownWriteTrylock | UpRead | UpWrite | DowngradeWrite.

(** The semaphore, and what each task that is in one of its functions or past one has asked for. *)
Record config := mk_config { rwsem : rw_semaphore; tasks : gmap nat status }.

Definition grant (x : status) : status := match x with Waits m => Holds m | Holds m => Holds m end.

(** A woken task returns from its call, with the lock it asked for. *)
Fixpoint wake_all (woken : list nat) (st : gmap nat status) : gmap nat status :=
  match woken with
  | [] => st
  | t :: woken => wake_all woken (alter grant t st)
  end.

(** Only a holder releases, and a task that waits or holds does not ask again. *)
Definition enabled (e : event) (t : nat) (k : config) : Prop :=
  match e with
  | DownRead | DownReadTrylock | DownWrite | DownWriteTrylock => tasks k !! t = None
  | UpRead => tasks k !! t = Some (Holds Read)
  | UpWrite | DowngradeWrite => tasks k !! t = Some (Holds Write)
  end.

Definition asked (t : nat) (m : mode) (granted : bool) (st : gmap nat status) : gmap nat status :=
  <[t := if granted then Holds m else Waits m]> st.

Definition run_event (e : event) (t : nat) (k : config) : config :=
  let sem := rwsem k in
  let st := tasks k in
  match e with
  | DownRead => let '(g, sem) := __down_read t sem in mk_config sem (asked t Read g st)
  | DownWrite => let '(g, sem) := __down_write t sem in mk_config sem (asked t Write g st)
  | DownReadTrylock =>
      let '(r, sem) := __down_read_trylock sem in
      mk_config sem (if r =? 1 then <[t := Holds Read]> st else st)
  | DownWriteTrylock =>
      let '(r, sem) := __down_write_trylock sem in
      mk_config sem (if r =? 1 then <[t := Holds Write]> st else st)
  | UpRead => let '(w, sem) := __up_read sem in mk_config sem (wake_all w (delete t st))
  | UpWrite => let '(w, sem) := __up_write sem in mk_config sem (wake_all w (delete t st))
  | DowngradeWrite => let '(w, sem) := __downgrade_write sem in mk_config sem (wake_all w (<[t := Holds Read]> st))
  end.

(** ** The queue *)

Definition flag (m : mode) : Z := match m with Read => RWSEM_WAITING_FOR_READ | Write => RWSEM_WAITING_FOR_WRITE end.

Abbreviation queue := (list (nat * mode)).

Definition waiters (q : queue) : list rwsem_waiter := (fun x => mk_waiter x.1 (flag x.2)) <$> q.

(** The tasks that wait are those on the queue, once each. *)
Record queued (n : nat) (q : queue) (st : gmap nat status) : Prop := {
  q_nodup : NoDup q.*1;
  q_waits : forall t m, (t, m) ∈ q <-> st !! t = Some (Waits m);
  q_tasks : forall t, is_Some (st !! t) -> (t < n)%nat
}.

Definition write_first (q : queue) : Prop := match q with [] => True | (_, m) :: _ => m = Write end.

(** One writer, or any number of readers; the readers at the front of the queue
    never wait for readers, and nobody waits for nobody. *)
Definition exclusive (a : Z) (q : queue) (st : gmap nat status) : Prop :=
  (a = -1 /\ occurs (Holds Write) st = 1 /\ occurs (Holds Read) st = 0) \/
  (a = occurs (Holds Read) st /\ occurs (Holds Write) st = 0 /\ write_first q /\ (a = 0 -> q = [])).

Definition inv (n : nat) (k : config) : Prop :=
  exists q, rw_wait_list (rwsem k) = waiters q /\ queued n q (tasks k) /\ exclusive (activity (rwsem k)) q (tasks k).

Lemma waits_for_read_flag t m : waits_for_read (mk_waiter t (flag m)) = bool_decide (m = Read).
Proof. by destruct m. Qed.

Lemma waits_for_write_flag t m : waits_for_write (mk_waiter t (flag m)) = bool_decide (m = Write).
Proof. by destruct m. Qed.

Lemma wake_readers_spec q :
  exists qw q', q = qw ++ q' /\ Forall (fun x => x.2 = Read) qw /\ write_first q' /\ wake_readers (waiters q) = (qw.*1, waiters q').
Proof.
  induction q as [|[t m] q IH]; [by exists [], []|]. cbn [waiters fmap list_fmap wake_readers fst snd].
  rewrite waits_for_read_flag. destruct m; cbn [bool_decide decide_rel].
  - destruct IH as (qw & q' & -> & Hr & Hw & E). fold (waiters (qw ++ q')). rewrite E.
    exists ((t, Read) :: qw), q'. split_and!; [done|by constructor|done|done].
  - by exists [], ((t, Write) :: q).
Qed.

(** ** Waking *)

Lemma alter_grant (st : gmap nat status) t m : st !! t = Some (Waits m) -> alter grant t st = <[t := Holds m]> st.
Proof.
  intros Ht. apply map_eq. intros u. destruct (decide (u = t)) as [->|Hne].
  - by rewrite lookup_alter_eq, lookup_insert_eq, Ht.
  - by rewrite lookup_alter_ne, lookup_insert_ne.
Qed.

Definition readers (q : queue) : Z := Z.of_nat (length (filter (fun x : nat * mode => x.2 = Read) q)).
Definition writers (q : queue) : Z := Z.of_nat (length (filter (fun x : nat * mode => x.2 = Write) q)).

Lemma wake_all_queued n qw q st :
  queued n (qw ++ q) st ->
  let st' := wake_all qw.*1 st in
  queued n q st' /\ occurs (Holds Read) st' = occurs (Holds Read) st + readers qw /\
  occurs (Holds Write) st' = occurs (Holds Write) st + writers qw.
Proof.
  revert st. induction qw as [|[t m] qw IH]; intros st Hq; cbn [fmap list_fmap wake_all fst].
  { unfold readers, writers. cbn. split_and!; [done|lia..]. }
  destruct Hq as [Hn Hw Ht]. cbn [app fmap list_fmap fst] in Hn. apply list.NoDup_cons in Hn as [Hnt Hn].
  assert (st !! t = Some (Waits m)) as Est by (apply Hw; set_solver). rewrite (alter_grant _ _ _ Est).
  assert (queued n (qw ++ q) (<[t := Holds m]> st)) as Hq'.
  { constructor; [done| |].
    - intros u m'. destruct (decide (u = t)) as [->|Hne].
      + rewrite lookup_insert_eq. split; [|done]. intros Hin. exfalso. apply Hnt, list_elem_of_fmap. by exists (t, m').
      + rewrite lookup_insert_ne, <- Hw by done. set_solver.
    - intros u. destruct (decide (u = t)) as [->|Hne]; [intros _; apply Ht; by rewrite Est|].
      rewrite lookup_insert_ne by done. apply Ht. }
  destruct (IH _ Hq') as (Hq1 & Hr & Hwr). split; [done|]. rewrite Hr, Hwr. unfold readers, writers.
  rewrite !occurs_insert, !filter_cons, (occurs_delete (Holds Read) t st), (occurs_delete (Holds Write) t st), Est.
  cbn [snd]. destruct m; repeat case_decide; try congruence; cbn [length]; lia.
Qed.

Lemma wake_all_other w st u : u ∉ w -> wake_all w st !! u = st !! u.
Proof.
  revert st. induction w as [|t w IH]; intros st Hu; cbn [wake_all]; [done|].
  rewrite IH by set_solver. apply lookup_alter_ne. set_solver.
Qed.

Lemma wake_all_granted n qw q st u m : queued n (qw ++ q) st -> (u, m) ∈ qw -> wake_all qw.*1 st !! u = Some (Holds m).
Proof.
  intros [Hn Hw _] Hin. assert (st !! u = Some (Waits m)) as Hu by (apply Hw; set_solver).
  rewrite fmap_app in Hn. apply list.NoDup_app in Hn as (Hn & _ & _). clear Hw.
  revert st Hu. induction qw as [|[t m'] qw IH]; intros st Hu; [by apply not_elem_of_nil in Hin|].
  cbn [fmap list_fmap wake_all fst] in *. apply list.NoDup_cons in Hn as [Hnt Hn].
  apply elem_of_cons in Hin as [[= -> ->]|Hin].
  - rewrite wake_all_other by done. by rewrite lookup_alter_eq, Hu.
  - apply IH; [done..|]. rewrite lookup_alter_ne; [done|]. intros ->. apply Hnt, list_elem_of_fmap. by exists (u, m).
Qed.

Lemma do_wake_spec a q wakewrite :
  q <> [] ->
  exists qw q' a', q = qw ++ q' /\ __rwsem_do_wake (mk_rwsem a (waiters q)) wakewrite = (qw.*1, mk_rwsem a' (waiters q')) /\
    ((wakewrite = true /\ a' = -1 /\ exists t, qw = [(t, Write)]) \/
     (Forall (fun x => x.2 = Read) qw /\ write_first q' /\ a' = (if decide (qw = []) then a else s32 (a + Z.of_nat (length qw))) /\
      (wakewrite = true -> qw <> []))).
Proof.
  destruct q as [|[t m] q]; [done|]. intros _. unfold __rwsem_do_wake. cbn [rw_wait_list activity waiters fmap list_fmap fst snd].
  rewrite waits_for_write_flag. destruct m; cbn [bool_decide decide_rel].
  - destruct (wake_readers_spec q) as (qw & q' & -> & Hr & Hw & E).
    assert (forall c : bool, exists qw0 q0 a', (t, Read) :: qw ++ q' = qw0 ++ q0 /\
      (let '(woken, rest) := wake_readers (waiters ((t, Read) :: qw ++ q')) in
       (woken, mk_rwsem (s32 (a + Z.of_nat (length woken))) rest)) = (qw0.*1, mk_rwsem a' (waiters q0)) /\
      (Forall (fun x => x.2 = Read) qw0 /\ write_first q0 /\ a' = (if decide (qw0 = []) then a else s32 (a + Z.of_nat (length qw0))) /\
       (c = true -> qw0 <> []))) as HR.
    { intros c. cbn [waiters fmap list_fmap wake_readers fst snd]. fold (waiters (qw ++ q')). rewrite waits_for_read_flag, E.
      cbn [bool_decide decide_rel waiter_task]. exists ((t, Read) :: qw), q', (s32 (a + Z.of_nat (length ((t, Read) :: qw)))).
      split_and!; [done| |by constructor|done|done|done]. cbn [length]. by rewrite <- (length_fmap fst qw). }
    destruct (HR wakewrite) as (qw0 & q0 & a' & E1 & E2 & E3). exists qw0, q0, a'.
    split; [done|]. split; [by destruct wakewrite|by right].
  - destruct wakewrite; cbn [negb].
    + exists [(t, Write)], q, (-1). split_and!; [done|done|]. left. split_and!; [done|done|by exists t].
    + exists [], ((t, Write) :: q), a. split_and!; [done|done|]. right. by split_and!.
Qed.

(** ** The operations keep the invariant *)

Section queued.

Context {n : nat} {q : queue} {st : gmap nat status} (Hq : queued n q st).

Lemma queued_delete t m : st !! t = Some (Holds m) -> queued n q (delete t st).
Proof.
  intros Ht. destruct Hq as [Hn Hw Hb]. constructor; [done| |].
  - intros u m'. rewrite Hw. destruct (decide (u = t)) as [->|Hne]; [by rewrite Ht, lookup_delete_eq|by rewrite lookup_delete_ne].
  - intros u [x Hx]. apply Hb. apply lookup_delete_Some in Hx as [_ ?]. by eexists.
Qed.

Lemma queued_hold t m : (t < n)%nat -> (forall m, st !! t <> Some (Waits m)) -> queued n q (<[t := Holds m]> st).
Proof.
  intros Hlt Ht. destruct Hq as [Hn Hw Hb]. constructor; [done| |].
  - intros u m'. rewrite Hw. destruct (decide (u = t)) as [->|Hne]; [|by rewrite lookup_insert_ne].
    rewrite lookup_insert_eq. split; [intros E; by apply Ht in E|done].
  - intros u. destruct (decide (u = t)) as [->|Hne]; [done|]. rewrite lookup_insert_ne by done. apply Hb.
Qed.

Lemma queued_wait t m : (t < n)%nat -> st !! t = None -> queued n (q ++ [(t, m)]) (<[t := Waits m]> st).
Proof.
  intros Hlt Ht. destruct Hq as [Hn Hw Hb]. constructor.
  - rewrite fmap_app. apply list.NoDup_app. split_and!; [done| |apply NoDup_singleton].
    intros u Hu Et%list_elem_of_singleton. apply list_elem_of_fmap in Hu as ([u' m'] & -> & Hin). apply Hw in Hin.
    cbn in Et. congruence.
  - intros u m'. rewrite elem_of_app, list_elem_of_singleton, Hw. destruct (decide (u = t)) as [->|Hne].
    + rewrite Ht, lookup_insert_eq. naive_solver.
    + rewrite lookup_insert_ne by done. naive_solver.
  - intros u. destruct (decide (u = t)) as [->|Hne]; [done|]. rewrite lookup_insert_ne by done. apply Hb.
Qed.

End queued.

Lemma readers_all q : Forall (fun x => x.2 = Read) q -> readers q = Z.of_nat (length q) /\ writers q = 0.
Proof.
  unfold readers, writers. induction 1 as [|x q Hx _ [IH1 IH2]]; [done|]. rewrite !filter_cons.
  repeat case_decide; try congruence; cbn [length]; lia.
Qed.

Definition holders (st : gmap nat status) : Z := occurs (Holds Read) st + occurs (Holds Write) st.

Definition is_release (e : event) : bool := match e with UpRead | UpWrite => true | _ => false end.

(** What an event does: the front [qw] of the queue is given the lock, the caller may
    be appended, and may be given the lock at once when nobody waits. *)
Definition effect (n : nat) (e : event) (k k' : config) (q : queue) : Prop :=
  exists added qw q', q ++ added = qw ++ q' /\ rw_wait_list (rwsem k') = waiters q' /\
    queued n q' (tasks k') /\ exclusive (activity (rwsem k')) q' (tasks k') /\
    (forall u m, (u, m) ∈ qw -> tasks k' !! u = Some (Holds m)) /\
    (q <> [] -> holders (tasks k') = holders (tasks k) + Z.of_nat (length qw) - (if is_release e then 1 else 0)).

Section events.

Context {n : nat} (Hn : Z.of_nat n < 2 ^ 31 - 1) {k : config} {q : queue}.
Context (Hl : rw_wait_list (rwsem k) = waiters q) (Hq : queued n q (tasks k)) (Hx : exclusive (activity (rwsem k)) q (tasks k)).

Lemma readers_bound : 0 <= occurs (Holds Read) (tasks k) <= Z.of_nat n.
Proof. split; [apply occurs_nonneg|apply occurs_bound, Hq]. Qed.

Lemma list_empty_waiters : list_empty (rw_wait_list (rwsem k)) = bool_decide (q = []).
Proof. rewrite Hl. by destruct q. Qed.

(** The lock is free for [m]. *)
Definition free_for (m : mode) : bool :=
  match m with Read => (0 <=? activity (rwsem k)) && list_empty (rw_wait_list (rwsem k))
             | Write => (activity (rwsem k) =? 0) && list_empty (rw_wait_list (rwsem k)) end.

Definition taken (m : mode) : Z := match m with Read => s32 (activity (rwsem k) + 1) | Write => -1 end.

Lemma take_effect e m t :
  is_release e = false -> (t < n)%nat -> tasks k !! t = None -> free_for m = true ->
  effect n e k (mk_config (mk_rwsem (taken m) (rw_wait_list (rwsem k))) (<[t := Holds m]> (tasks k))) q.
Proof.
  intros He Hlt Ht Hf. unfold free_for in Hf. rewrite list_empty_waiters in Hf. pose proof readers_bound as Hr.
  assert (q = [] /\ (activity (rwsem k) = occurs (Holds Read) (tasks k) /\ occurs (Holds Write) (tasks k) = 0) /\
    (m = Write -> activity (rwsem k) = 0)) as (-> & [Ha Hw] & Hm).
  { destruct m; apply andb_true_iff in Hf as [Ha Hb%bool_decide_eq_true]; destruct Hx as [(? & ? & ?)|(? & ? & ? & ?)];
      split_and!; try done; bool_lia. }
  exists [], [], []. rewrite Hl. split_and!; try done; cbn [rwsem activity tasks]; [| |set_solver].
  - apply (queued_hold Hq); [done|]. intros m'. by rewrite Ht.
  - unfold exclusive. rewrite !occurs_new by done. destruct m; cbn [taken]; repeat case_decide; try congruence.
    + right. rewrite s32_small by lia. split_and!; [lia|lia|done|done].
    + left. specialize (Hm eq_refl). lia.
Qed.

Lemma wait_effect e m t :
  is_release e = false -> (t < n)%nat -> tasks k !! t = None -> free_for m = false ->
  effect n e k (mk_config (mk_rwsem (activity (rwsem k)) (rw_wait_list (rwsem k) ++ [mk_waiter t (flag m)]))
                 (<[t := Waits m]> (tasks k))) q.
Proof.
  intros He Hlt Ht Hf. unfold free_for in Hf. rewrite list_empty_waiters in Hf. pose proof readers_bound as Hr.
  exists [(t, m)], [], (q ++ [(t, m)]). cbn [rwsem rw_wait_list tasks activity]. split_and!; [done| | | |set_solver|].
  - rewrite Hl. unfold waiters. by rewrite fmap_app.
  - by apply (queued_wait Hq).
  - unfold exclusive. rewrite !occurs_new by done. repeat case_decide; try congruence.
    rewrite !Z.add_0_r. destruct Hx as [?|(Ha & Hw & Hh & He0)]; [by left|]. right. split_and!; try done.
    + destruct q as [|x q0]; [|done]. destruct m; [|done]. cbn in Hf. rewrite andb_true_r in Hf. apply Z.leb_gt in Hf. lia.
    + intros Hz. exfalso. rewrite (He0 Hz), Hz in Hf. by destruct m.
  - intros _. rewrite He. unfold holders. rewrite !occurs_new by done. repeat case_decide; try congruence. cbn [length]. lia.
Qed.

End events.

(** The lock passes to the front of the queue. *)
Lemma pass_effect n e k st qw q' a' :
  queued n (qw ++ q') st ->
  holders st = holders (tasks k) - (if is_release e then 1 else 0) ->
  (a' = -1 /\ occurs (Holds Write) st + writers qw = 1 /\ occurs (Holds Read) st + readers qw = 0) \/
  (a' = occurs (Holds Read) st + readers qw /\ occurs (Holds Write) st + writers qw = 0 /\ write_first q' /\ (a' = 0 -> q' = [])) ->
  effect n e k (mk_config (mk_rwsem a' (waiters q')) (wake_all qw.*1 st)) (qw ++ q').
Proof.
  intros Hq Hh Hx. destruct (wake_all_queued n qw q' st Hq) as (Hq' & Hr & Hw).
  exists [], qw, q'. rewrite app_nil_r. split_and!; try done.
  { unfold exclusive. cbn [tasks rwsem activity]. by rewrite Hr, Hw. }
  { intros u m Hin. by apply (wake_all_granted n qw q'). }
  intros _. cbn [tasks]. unfold holders in *. rewrite Hr, Hw.
  assert (readers qw + writers qw = Z.of_nat (length qw)); [|lia]. clear. unfold readers, writers.
  induction qw as [|[t m] qw IH]; [done|]. rewrite !filter_cons. cbn [snd].
  repeat case_decide; try congruence; cbn [length]; [lia|lia|]. by destruct m.
Qed.

Section releases.

Context {n : nat} (Hn : Z.of_nat n < 2 ^ 31 - 1) {k : config} {q : queue}.
Context (Hl : rw_wait_list (rwsem k) = waiters q) (Hq : queued n q (tasks k)) (Hx : exclusive (activity (rwsem k)) q (tasks k)).
Context (t : nat).

Lemma up_read_effect : tasks k !! t = Some (Holds Read) -> effect n UpRead k (run_event UpRead t k) q.
Proof.
  intros Ht. pose proof (occurs_pos _ _ _ Ht) as Hpos. destruct Hx as [(_ & _ & Hz)|(Ha & Hw & Hh & _)]; [lia|].
  pose proof (occurs_bound (Holds Read) (tasks k) n (q_tasks _ _ _ Hq)) as Hb.
  pose proof (occurs_delete (Holds Read) t (tasks k)) as Er. rewrite decide_True in Er by done.
  pose proof (occurs_delete (Holds Write) t (tasks k)) as Ew. rewrite Ht, decide_False in Ew by done.
  pose proof (queued_delete Hq t Read Ht) as Hqd.
  assert (holders (delete t (tasks k)) = holders (tasks k) - 1) as Hh' by (unfold holders; lia).
  cbn [run_event]. unfold __up_read. rewrite (s32_small (activity _ - 1)), Hl by lia. cbn [activity rw_wait_list].
  destruct q as [|[u m] q0]; cbn [list_empty waiters fmap list_fmap negb]; rewrite ?andb_false_r, ?andb_true_r.
  - apply (pass_effect n UpRead k _ [] []); [done..|]. right. change (readers []) with 0. change (writers []) with 0.
    split_and!; [lia|lia|done|done].
  - cbn in Hh. subst m. destruct (Z.eqb_spec (activity (rwsem k) - 1) 0) as [Hz|Hz].
    + apply (pass_effect n UpRead k _ [(u, Write)] q0); [done..|]. left.
      change (readers [(u, Write)]) with 0. change (writers [(u, Write)]) with 1. lia.
    + apply (pass_effect n UpRead k _ [] ((u, Write) :: q0)); [done..|]. right.
      change (readers []) with 0. change (writers []) with 0. split_and!; [lia|lia|done|lia].
Qed.

(** A writer gives up its lock, to the queue or to read on. *)
Lemma writer_effect e st a wakewrite :
  queued n q st -> holders st = holders (tasks k) - (if is_release e then 1 else 0) ->
  occurs (Holds Write) st = 0 -> occurs (Holds Read) st = a -> 0 <= a -> (wakewrite = true -> a = 0) -> (wakewrite = false -> 0 < a) ->
  let sem := mk_rwsem a (rw_wait_list (rwsem k)) in
  effect n e k (let '(w, sem) := if negb (list_empty (rw_wait_list sem)) then __rwsem_do_wake sem wakewrite else ([], sem) in
                mk_config sem (wake_all w st)) q.
Proof.
  intros Hqs Hh Hw Hr Ha Ht Hf. rewrite Hl. cbv zeta. cbn [rw_wait_list]. destruct (decide (q = [])) as [Eq|Hne].
  - rewrite Eq. rewrite Eq in Hqs. apply (pass_effect n e k st [] []); [done..|]. right.
    change (readers []) with 0. change (writers []) with 0. split_and!; [lia|lia|done|done].
  - replace (list_empty (waiters q)) with false by (by destruct q). cbn [negb].
    destruct (do_wake_spec a q wakewrite Hne) as (qw & q' & a' & -> & -> & Hcase).
    apply (pass_effect n e k st qw q'); [done..|]. destruct Hcase as [(-> & -> & u & ->)|(Hrd & Hwf & -> & Hnn)].
    + left. change (readers [(u, Write)]) with 0. change (writers [(u, Write)]) with 1. specialize (Ht eq_refl). lia.
    + right. destruct (readers_all qw Hrd) as [Er Ew]. rewrite Er, Ew.
      destruct (wake_all_queued n qw q' st Hqs) as (Hq' & Er' & _).
      pose proof (occurs_bound (Holds Read) _ n (q_tasks _ _ _ Hq')) as Hb. rewrite Er', Er in Hb.
      assert ((if decide (qw = []) then a else s32 (a + Z.of_nat (length qw))) = a + Z.of_nat (length qw)) as ->.
      { case_decide as Ez; [subst qw; cbn; lia|]. apply s32_small. lia. }
      split_and!; [lia|lia|done|]. intros Hz. destruct wakewrite; [|specialize (Hf eq_refl); lia].
      destruct qw; [by specialize (Hnn eq_refl)|]. cbn in Hz. lia.
Qed.

Lemma write_held : tasks k !! t = Some (Holds Write) ->
  occurs (Holds Read) (delete t (tasks k)) = 0 /\ occurs (Holds Write) (delete t (tasks k)) = 0 /\ holders (tasks k) = 1.
Proof.
  intros Ht. pose proof (occurs_pos _ _ _ Ht) as Hpos. destruct Hx as [(_ & Hw & Hr)|(_ & Hw & _)]; [|lia].
  pose proof (occurs_delete (Holds Read) t (tasks k)) as Er. rewrite Ht, decide_False in Er by done.
  pose proof (occurs_delete (Holds Write) t (tasks k)) as Ew. rewrite decide_True in Ew by done. unfold holders. lia.
Qed.

Lemma up_write_effect : tasks k !! t = Some (Holds Write) -> effect n UpWrite k (run_event UpWrite t k) q.
Proof.
  intros Ht. destruct (write_held Ht) as (Hr & Hw & Hh).
  apply (writer_effect UpWrite (delete t (tasks k)) 0 true); try done; [by apply (queued_delete Hq t Write)|].
  unfold holders at 1. cbn. lia.
Qed.

Lemma downgrade_effect :
  (t < n)%nat -> tasks k !! t = Some (Holds Write) -> effect n DowngradeWrite k (run_event DowngradeWrite t k) q.
Proof.
  intros Hlt Ht. destruct (write_held Ht) as (Hr & Hw & Hh).
  pose proof (occurs_insert (Holds Read) t (Holds Read) (tasks k)) as Er. rewrite decide_True in Er by done.
  pose proof (occurs_insert (Holds Write) t (Holds Read) (tasks k)) as Ew. rewrite decide_False in Ew by done.
  apply (writer_effect DowngradeWrite (<[t := Holds Read]> (tasks k)) 1 false); try done; try lia.
  - apply (queued_hold Hq); [done|]. intros m. by rewrite Ht.
  - unfold holders in *. cbn. lia.
Qed.

End releases.

(** Call [e] by task [t]. *)
Inductive step (n : nat) (e : event) (t : nat) (k : config) : config -> Prop :=
  | step_event : (t < n)%nat -> enabled e t k -> step n e t k (run_event e t k).

Definition start : config := mk_config __init_rwsem ∅.

(** A run: the calls with their callers, from one state of the system to another. *)
Inductive trace (n : nat) : config -> list (event * nat) -> config -> Prop :=
  | trace_nil k : trace n k [] k
  | trace_cons e t es k k1 k' : step n e t k k1 -> trace n k1 es k' -> trace n k ((e, t) :: es) k'.

Lemma event_effect n e t k k' q :
  Z.of_nat n < 2 ^ 31 - 1 -> rw_wait_list (rwsem k) = waiters q -> queued n q (tasks k) ->
  exclusive (activity (rwsem k)) q (tasks k) -> step n e t k k' -> effect n e k k' q.
Proof.
  intros Hn Hl Hq Hx [Hlt He].
  assert (effect n e k k q \/ is_release e = true) as Hsame.
  { destruct (is_release e) eqn:Er; [by right|left]. exists [], [], q. rewrite app_nil_r, Er. do 4 (split; [done|]). split; [by intros u m ?%not_elem_of_nil|]. intros _. cbn [length]. lia. }
  destruct e; cbn [enabled] in He; cbn [run_event];
    unfold __down_read, __down_write, __down_write_nested, __down_read_trylock, __down_write_trylock, asked.
  - pose proof (take_effect Hn Hl Hq Hx DownRead Read t eq_refl Hlt He) as Htake.
    pose proof (wait_effect Hn Hl Hq Hx DownRead Read t eq_refl Hlt He) as Hwait.
    unfold free_for in *. destruct (_ && _); [by apply Htake|by apply Hwait].
  - pose proof (take_effect Hn Hl Hq Hx DownReadTrylock Read t eq_refl Hlt He) as Htake.
    unfold free_for in *. destruct (_ && _); [by apply Htake|]. destruct k. by destruct Hsame.
  - pose proof (take_effect Hn Hl Hq Hx DownWrite Write t eq_refl Hlt He) as Htake.
    pose proof (wait_effect Hn Hl Hq Hx DownWrite Write t eq_refl Hlt He) as Hwait.
    unfold free_for in *. destruct (_ && _); [by apply Htake|by apply Hwait].
  - pose proof (take_effect Hn Hl Hq Hx DownWriteTrylock Write t eq_refl Hlt He) as Htake.
    unfold free_for in *. destruct (_ && _); [by apply Htake|]. destruct k. by destruct Hsame.
  - by apply up_read_effect.
  - by apply up_write_effect.
  - by apply downgrade_effect.
Qed.

Lemma rw_step_inv n e t k k' : Z.of_nat n < 2 ^ 31 - 1 -> inv n k -> step n e t k k' -> inv n k'.
Proof.
  intros Hn (q & Hl & Hq & Hx) Hs. destruct (event_effect n e t k k' q Hn Hl Hq Hx Hs) as (_ & _ & q' & _ & Hl' & Hq' & Hx' & _ & _).
  by exists q'.
Qed.

Lemma rw_start_inv n : inv n start.
Proof.
  exists []. split_and!; [done| |].
  - constructor; [apply NoDup_nil_2| |].
    + intros t m. cbn [start tasks]. rewrite lookup_empty. split; [by intros ?%not_elem_of_nil|done].
    + intros t [x Hx]. cbn in Hx. by rewrite lookup_empty in Hx.
  - right. by split_and!.
Qed.

Lemma trace_inv n k es k' : Z.of_nat n < 2 ^ 31 - 1 -> inv n k -> trace n k es k' -> inv n k'.
Proof. intros Hn Hi Ht. induction Ht; [done|]. apply IHHt. by eapply rw_step_inv. Qed.

(** ** Waiting *)

Definition releases (es : list (event * nat)) : Z :=
  Z.of_nat (length (filter (fun x : event * nat => is_release x.1 = true) es)).

(** [t] waits for [m]; [x] counts the tasks in front of it and those that have the lock. *)
Definition ahead (k : config) (q : queue) (t : nat) (m : mode) (x : Z) : Prop :=
  exists l1 l2, q = l1 ++ (t, m) :: l2 /\ x = holders (tasks k) + Z.of_nat (length l1).

Lemma held_while_waiting n k q t m :
  queued n q (tasks k) -> exclusive (activity (rwsem k)) q (tasks k) -> (t, m) ∈ q -> 0 < holders (tasks k).
Proof.
  intros Hq Hx Hin. pose proof (occurs_nonneg (Holds Read) (tasks k)). unfold holders.
  destruct Hx as [(_ & Hw & Hr)|(Ha & Hw & _ & Hz)]; [lia|]. destruct (decide (activity (rwsem k) = 0)) as [E|]; [|lia].
  rewrite (Hz E) in Hin. by apply not_elem_of_nil in Hin.
Qed.

Lemma ahead_step n e u k k' q t m x :
  Z.of_nat n < 2 ^ 31 - 1 -> rw_wait_list (rwsem k) = waiters q -> queued n q (tasks k) ->
  exclusive (activity (rwsem k)) q (tasks k) -> step n e u k k' -> ahead k q t m x ->
  exists q', rw_wait_list (rwsem k') = waiters q' /\ queued n q' (tasks k') /\ exclusive (activity (rwsem k')) q' (tasks k') /\
    (tasks k' !! t = Some (Holds m) \/ ahead k' q' t m (x - (if is_release e then 1 else 0))).
Proof.
  intros Hn Hl Hq Hx Hs (l1 & l2 & Eq & Hxx).
  destruct (event_effect n e u k k' q Hn Hl Hq Hx Hs) as (added & qw & q' & Ea & Hl' & Hq' & Hx' & Hg & Hh).
  exists q'. split_and!; [done..|]. specialize (Hh ltac:(by rewrite Eq; destruct l1)).
  rewrite Eq, <- (assoc_L (++)) in Ea. cbn [app] in Ea.
  destruct (app_eq_inv _ _ _ _ Ea) as [(l & -> & El)|(l & -> & El)].
  - right. exists l, (l2 ++ added). split; [done|]. rewrite length_app in Hxx. lia.
  - destruct l as [|y l]; cbn [app] in El.
    + right. rewrite app_nil_r in *. exists [], (l2 ++ added). split; [done|]. cbn [length]. lia.
    + injection El as <- El. left. apply Hg. set_solver.
Qed.

(** A task with [x] tasks before it, holders counted, has had the lock after [x] releases. *)
Lemma wait_trace n k es k' q t m x :
  Z.of_nat n < 2 ^ 31 - 1 -> trace n k es k' ->
  rw_wait_list (rwsem k) = waiters q -> queued n q (tasks k) -> exclusive (activity (rwsem k)) q (tasks k) ->
  ahead k q t m x -> x <= releases es ->
  exists es1 es2 k1, es = es1 ++ es2 /\ trace n k es1 k1 /\ trace n k1 es2 k' /\ tasks k1 !! t = Some (Holds m).
Proof.
  intros Hn Ht. revert q x. induction Ht as [k|e u es k k1 k' Hs Ht IH]; intros q x Hl Hq Hx Ha Hr.
  { destruct Ha as (l1 & l2 & Eq & ->). pose proof (held_while_waiting n k q t m Hq Hx ltac:(set_solver)).
    unfold releases in Hr. cbn in Hr. lia. }
  destruct (ahead_step n e u k k1 q t m x Hn Hl Hq Hx Hs Ha) as (q1 & Hl1 & Hq1 & Hx1 & [Hm|Ha1]).
  - exists [(e, u)], es, k1. split_and!; [done| |done|done]. eapply trace_cons; [done|apply trace_nil].
  - destruct (IH q1 _ Hl1 Hq1 Hx1 Ha1) as (es1 & es2 & k2 & -> & Ht2 & Ht3 & Hm).
    + unfold releases in *. rewrite filter_cons in Hr. cbn [fst] in Hr. destruct (is_release e); case_decide; try done; cbn [length] in Hr; lia.
    + exists ((e, u) :: es1), es2, k2. split_and!; [done| |done|done]. by eapply trace_cons.
Qed.

(** C7. A writer excludes everybody: whatever the tasks call, while one holds the lock
    for writing no other holds it at all.  The lock reads as locked exactly while
    somebody holds it, and nobody ever waits for a lock that is free. *)
Theorem rwsem_exclusion n es k :
  Z.of_nat n < 2 ^ 31 - 1 -> trace n start es k ->
  (forall t u m, tasks k !! t = Some (Holds Write) -> tasks k !! u = Some (Holds m) -> u = t) /\
  (rwsem_is_locked true (rwsem k) = true <-> exists t m, tasks k !! t = Some (Holds m)) /\
  (forall t m, tasks k !! t = Some (Waits m) -> rwsem_is_locked true (rwsem k) = true).
Proof.
  intros Hn Ht. destruct (trace_inv n start es k Hn (rw_start_inv n) Ht) as (q & Hl & Hq & Hx).
  pose proof (occurs_nonneg (Holds Read) (tasks k)) as Hr0. pose proof (occurs_nonneg (Holds Write) (tasks k)) as Hw0.
  assert (rwsem_is_locked true (rwsem k) = true <-> activity (rwsem k) <> 0) as Elk.
  { cbn. destruct (Z.eqb_spec (activity (rwsem k)) 0); split; done. }
  split_and!.
  - intros t u m Htw Hu. pose proof (occurs_pos _ _ _ Htw). pose proof (occurs_pos _ _ _ Hu) as Hp.
    destruct Hx as [(_ & Hw & Hr)|(_ & Hw & _)]; [|lia]. destruct m; [lia|]. by eapply occurs_unique.
  - rewrite Elk. split.
    + intros Ha. assert (exists m, 0 < occurs (Holds m) (tasks k)) as [m Hp].
      { destruct Hx as [(_ & ? & _)|(? & _)]; [exists Write|exists Read]; lia. }
      destruct (occurs_inv _ _ Hp) as [t Hm]. by exists t, m.
    + intros (t & m & Hm). pose proof (occurs_pos _ _ _ Hm). destruct Hx as [(-> & _)|(-> & Hw & _)]; [done|]. destruct m; lia.
  - intros t m Hm. rewrite Elk. apply (q_waits _ _ _ Hq) in Hm. destruct Hx as [(-> & _)|(_ & _ & _ & Hz)]; [done|].
    intros E. rewrite (Hz E) in Hm. by apply not_elem_of_nil in Hm.
Qed.

(** A reader, and a writer behind it. *)
Definition read_held : config := run_event DownWrite 1 (run_event DownRead 0 start).

Lemma read_held_trace : trace 2 start [(DownRead, 0%nat); (DownWrite, 1%nat)] read_held.
Proof.
  eapply trace_cons; [apply (step_event 2 DownRead 0); [lia|reflexivity]|].
  eapply trace_cons; [apply (step_event 2 DownWrite 1); [lia|reflexivity]|]. apply trace_nil.
Qed.

Lemma rwsem_exclusion_witness : rwsem_is_locked true (rwsem read_held) = true.
Proof.
  refine (proj2 (proj2 (rwsem_exclusion 2 _ read_held ltac:(lia) read_held_trace)) 1%nat Write _).
  vm_compute. reflexivity.
Defined.

(** C26. No reader and no writer starves: take any run from a moment at which task [t]
    waits for the lock, for reading or for writing, with [x] tasks before it (those
    that hold the lock and those queued earlier).  If the run contains [x] releases,
    then at some moment of that very run [t] holds the lock it asked for, however
    many tasks arrive or try meanwhile. *)
Theorem rwsem_bounded_waiting n es0 k es k' t m l1 l2 :
  Z.of_nat n < 2 ^ 31 - 1 -> trace n start es0 k -> trace n k es k' ->
  rw_wait_list (rwsem k) = l1 ++ mk_waiter t (flag m) :: l2 ->
  holders (tasks k) + Z.of_nat (length l1) <= releases es ->
  exists es1 es2 k1, es = es1 ++ es2 /\ trace n k es1 k1 /\ trace n k1 es2 k' /\ tasks k1 !! t = Some (Holds m).
Proof.
  intros Hn Ht0 Ht Hlist Hr. destruct (trace_inv n start es0 k Hn (rw_start_inv n) Ht0) as (q & Hl & Hq & Hx).
  rewrite Hl in Hlist. apply fmap_app_inv in Hlist as (q1 & q2 & El1 & El2 & ->).
  destruct q2 as [|[u m'] q2]; [done|]. injection El2 as -> Em _. assert (m' = m) as -> by (by destruct m, m').
  rewrite El1, length_fmap in Hr.
  apply (wait_trace n k es k' _ u m (holders (tasks k) + Z.of_nat (length q1)) Hn Ht Hl Hq Hx); [|done]. by exists q1, q2.
Qed.

(** A third task asks behind the writer; the first reader leaves, and the writer has the lock. *)
Lemma rwsem_bounded_waiting_witness :
  let es := [(DownRead, 2%nat); (UpRead, 0%nat)] in
  let k' := run_event UpRead 0 (run_event DownRead 2 read_held) in
  exists es1 es2 k1, es = es1 ++ es2 /\ trace 3 read_held es1 k1 /\ trace 3 k1 es2 k' /\ tasks k1 !! 1%nat = Some (Holds Write).
Proof.
  refine (rwsem_bounded_waiting 3 [(DownRead, 0%nat); (DownWrite, 1%nat)] read_held _ _ 1 Write [] [] _ _ _ _ _).
  - lia.
  - eapply trace_cons; [apply (step_event 3 DownRead 0); [lia|reflexivity]|].
    eapply trace_cons; [apply (step_event 3 DownWrite 1); [lia|reflexivity]|]. apply trace_nil.
  - eapply trace_cons; [apply (step_event 3 DownRead 2); [lia|vm_compute; reflexivity]|].
    eapply trace_cons; [apply (step_event 3 UpRead 0); [lia|vm_compute; reflexivity]|]. apply trace_nil.
  - vm_compute. reflexivity.
  - vm_compute. discriminate.
Defined.
