(* ===== verification/KString.v ===== *)
(** * Strings and memory blocks (lib/string.c)

    Memory is a list of bytes and a pointer an index into it.  A load or a store
    outside of memory has no result, so that a theorem that gives a function's
    result says in particular that it stays inside.  Loops that end at a NUL have
    the size of memory as their fuel: they advance with every round and must meet a
    NUL or leave memory before it runs out. *)

From Stdlib Require Import ZArith Lia.
From stdpp Require Import base numbers list option.
From S2P Require Import Prelude Number.
Import Ctype.

Local Open Scope Z_scope.

Abbreviation mem := (list Z).

Definition load (m : mem) (p : nat) : option Z := m !! p.
Definition store (m : mem) (p : nat) (v : Z) : option mem := if (p <? length m)%nat then Some (<[p := v]> m) else None.

Definition enough (m : mem) : nat := S (length m).

(** ** Comparing *)

(** The do loop of [strnicmp]; [len] is positive. *)
Fixpoint strnicmp_loop (len : nat) (m : mem) (s1 s2 : nat) : option Z :=
  match len with
  | O => None
  | S len =>
      c1 ← load m s1; c2 ← load m s2;
      if (c1 =? 0) || (c2 =? 0) then Some (c1 - c2)
      else if c1 =? c2 then
        if (len =? 0)%nat then Some (c1 - c2) else strnicmp_loop len m (S s1) (S s2)
      else
        let c1 := __tolower c1 in
        let c2 := __tolower c2 in
        if negb (c1 =? c2) then Some (c1 - c2)
        else if (len =? 0)%nat then Some (c1 - c2) else strnicmp_loop len m (S s1) (S s2)
  end.

Definition strnicmp (m : mem) (s1 s2 len : nat) : option Z :=
  if (len =? 0)%nat then Some 0 else strnicmp_loop len m s1 s2.

Fixpoint strcasecmp_loop (fuel : nat) (m : mem) (s1 s2 : nat) : option Z :=
  match fuel with
  | O => None
  | S fuel =>
      c1 ← load m s1; c2 ← load m s2;
      let c1 := __tolower c1 in
      let c2 := __tolower c2 in
      if (c1 =? c2) && negb (c1 =? 0) then strcasecmp_loop fuel m (S s1) (S s2) else Some (c1 - c2)
  end.

Definition strcasecmp (m : mem) (s1 s2 : nat) : option Z := strcasecmp_loop (enough m) m s1 s2.

(** [n] is a [size_t]: decrementing 0 wraps around. *)
Fixpoint strncasecmp_loop `{LongWidth} (fuel : nat) (m : mem) (s1 s2 : nat) (n : Z) : option Z :=
  match fuel with
  | O => None
  | S fuel =>
      c1 ← load m s1; c2 ← load m s2;
      let c1 := __tolower c1 in
      let c2 := __tolower c2 in
      let n := ulong (n - 1) in
      if (0 <? n) && (c1 =? c2) && negb (c1 =? 0) then strncasecmp_loop fuel m (S s1) (S s2) n else Some (c1 - c2)
  end.

Definition strncasecmp `{LongWidth} (m : mem) (s1 s2 : nat) (n : Z) : option Z := strncasecmp_loop (enough m) m s1 s2 n.

Fixpoint strcmp_loop (fuel : nat) (m : mem) (cs ct : nat) : option Z :=
  match fuel with
  | O => None
  | S fuel =>
      c1 ← load m cs; c2 ← load m ct;
      if negb (c1 =? c2) then Some (if c1 <? c2 then -1 else 1)
      else if c1 =? 0 then Some 0 else strcmp_loop fuel m (S cs) (S ct)
  end.

Definition strcmp (m : mem) (cs ct : nat) : option Z := strcmp_loop (enough m) m cs ct.

Fixpoint strncmp (m : mem) (cs ct count : nat) : option Z :=
  match count with
  | O => Some 0
  | S count =>
      c1 ← load m cs; c2 ← load m ct;
      if negb (c1 =? c2) then Some (if c1 <? c2 then -1 else 1)
      else if c1 =? 0 then Some 0 else strncmp m (S cs) (S ct) count
  end.

Fixpoint memcmp (m : mem) (cs ct count : nat) : option Z :=
  match count with
  | O => Some 0
  | S count =>
      c1 ← load m cs; c2 ← load m ct;
      let res := c1 - c2 in
      if negb (res =? 0) then Some res else memcmp m (S cs) (S ct) count
  end.

Fixpoint sysfs_loop (fuel : nat) (m : mem) (s1 s2 : nat) : option (nat * nat) :=
  match fuel with
  | O => None
  | S fuel =>
      c1 ← load m s1;
      if c1 =? 0 then Some (s1, s2)
      else c2 ← load m s2; if c1 =? c2 then sysfs_loop fuel m (S s1) (S s2) else Some (s1, s2)
  end.

(** The character after a newline is loaded only when there is a newline. *)
Definition newline_end (m : mem) (s : nat) (c : Z) : option bool :=
  if c =? 10 then d ← load m (S s); Some (d =? 0) else Some false.

Definition sysfs_streq (m : mem) (s1 s2 : nat) : option bool :=
  '(s1, s2) ← sysfs_loop (enough m) m s1 s2;
  c1 ← load m s1; c2 ← load m s2;
  if c1 =? c2 then Some true
  else
    b ← (if c1 =? 0 then newline_end m s2 c2 else Some false);
    if (b : bool) then Some true
    else
      b ← newline_end m s1 c1;
      if (b : bool) && (c2 =? 0) then Some true else Some false.

(** ** Scanning *)

Fixpoint strlen_loop (fuel : nat) (m : mem) (sc : nat) : option nat :=
  match fuel with
  | O => None
  | S fuel => c ← load m sc; if c =? 0 then Some sc else strlen_loop fuel m (S sc)
  end.

Definition strlen (m : mem) (s : nat) : option nat := sc ← strlen_loop (enough m) m s; Some (sc - s)%nat.

Fixpoint strnlen_loop (count : nat) (m : mem) (sc : nat) : option nat :=
  match count with
  | O => Some sc
  | S count => c ← load m sc; if c =? 0 then Some sc else strnlen_loop count m (S sc)
  end.

Definition strnlen (m : mem) (s count : nat) : option nat := sc ← strnlen_loop count m s; Some (sc - s)%nat.

(** Pointers that may be null are options. *)
Fixpoint strchr_loop (fuel : nat) (m : mem) (s : nat) (c : Z) : option (option nat) :=
  match fuel with
  | O => None
  | S fuel => x ← load m s; if x =? u8 c then Some (Some s) else if x =? 0 then Some None else strchr_loop fuel m (S s) c
  end.

Definition strchr (m : mem) (s : nat) (c : Z) : option (option nat) := strchr_loop (enough m) m s c.

(** [p] is [s + k]. *)
Fixpoint strrchr_loop (k : nat) (m : mem) (s : nat) (c : Z) : option (option nat) :=
  x ← load m (s + k)%nat;
  if x =? u8 c then Some (Some (s + k)%nat)
  else match k with O => Some None | S k => strrchr_loop k m s c end.

Definition strrchr (m : mem) (s : nat) (c : Z) : option (option nat) := len ← strlen m s; strrchr_loop len m s c.

Fixpoint strnchr (m : mem) (s count : nat) (c : Z) : option (option nat) :=
  match count with
  | O => Some None
  | S count => x ← load m s; if x =? 0 then Some None else if x =? u8 c then Some (Some s) else strnchr m (S s) count c
  end.

(** The inner loop of the set functions: is [c] in the string at [a]? *)
Fixpoint in_set (fuel : nat) (m : mem) (a : nat) (c : Z) : option bool :=
  match fuel with
  | O => None
  | S fuel => x ← load m a; if x =? 0 then Some false else if c =? x then Some true else in_set fuel m (S a) c
  end.

Fixpoint strspn_loop (fuel : nat) (m : mem) (p accept count : nat) : option nat :=
  match fuel with
  | O => None
  | S fuel =>
      c ← load m p;
      if c =? 0 then Some count
      else b ← in_set (enough m) m accept c; if (b : bool) then strspn_loop fuel m (S p) accept (S count) else Some count
  end.

Definition strspn (m : mem) (s accept : nat) : option nat := strspn_loop (enough m) m s accept 0.

Fixpoint strcspn_loop (fuel : nat) (m : mem) (p reject count : nat) : option nat :=
  match fuel with
  | O => None
  | S fuel =>
      c ← load m p;
      if c =? 0 then Some count
      else b ← in_set (enough m) m reject c; if (b : bool) then Some count else strcspn_loop fuel m (S p) reject (S count)
  end.

Definition strcspn (m : mem) (s reject : nat) : option nat := strcspn_loop (enough m) m s reject 0.

Fixpoint strpbrk_loop (fuel : nat) (m : mem) (sc1 ct : nat) : option (option nat) :=
  match fuel with
  | O => None
  | S fuel =>
      c ← load m sc1;
      if c =? 0 then Some None
      else b ← in_set (enough m) m ct c; if (b : bool) then Some (Some sc1) else strpbrk_loop fuel m (S sc1) ct
  end.

Definition strpbrk (m : mem) (cs ct : nat) : option (option nat) := strpbrk_loop (enough m) m cs ct.

(** The byte is compared with the [int] as it is. *)
Fixpoint memscan (m : mem) (p : nat) (c : Z) (size : nat) : option nat :=
  match size with
  | O => Some p
  | S size => x ← load m p; if x =? c then Some p else memscan m (S p) c size
  end.

Fixpoint memchr (m : mem) (p : nat) (c : Z) (n : nat) : option (option nat) :=
  match n with
  | O => Some None
  | S n => x ← load m p; if u8 c =? x then Some (Some p) else memchr m (S p) c n
  end.

(** The loop of [strstr] and [strnstr]; [l2] is positive. *)
Fixpoint strstr_loop (l1 : nat) (m : mem) (s1 s2 l2 : nat) : option (option nat) :=
  match l1 with
  | O => Some None
  | S l1' =>
      if (l2 <=? l1)%nat then
        r ← memcmp m s1 s2 l2; if r =? 0 then Some (Some s1) else strstr_loop l1' m (S s1) s2 l2
      else Some None
  end.

Definition strstr (m : mem) (s1 s2 : nat) : option (option nat) :=
  l2 ← strlen m s2;
  if (l2 =? 0)%nat then Some (Some s1) else l1 ← strlen m s1; strstr_loop l1 m s1 s2 l2.

Definition strnstr (m : mem) (s1 s2 len : nat) : option (option nat) :=
  l2 ← strlen m s2;
  if (l2 =? 0)%nat then Some (Some s1) else strstr_loop len m s1 s2 l2.

(** ** Writing *)

Fixpoint memset (m : mem) (xs : nat) (c : Z) (count : nat) : option mem :=
  match count with
  | O => Some m
  | S count => m ← store m xs (u8 c); memset m (S xs) c count
  end.

Fixpoint memcpy (m : mem) (tmp s count : nat) : option mem :=
  match count with
  | O => Some m
  | S count => x ← load m s; m ← store m tmp x; memcpy m (S tmp) (S s) count
  end.

(** The loop of [memmove] that begins at the end: [count] bytes are left. *)
Fixpoint memmove_down (m : mem) (dest src count : nat) : option mem :=
  match count with
  | O => Some m
  | S count => x ← load m (src + count)%nat; m ← store m (dest + count)%nat x; memmove_down m dest src count
  end.

Definition memmove (m : mem) (dest src count : nat) : option mem :=
  if (dest <=? src)%nat then memcpy m dest src count else memmove_down m dest src count.

Fixpoint strcpy_loop (fuel : nat) (m : mem) (dest src : nat) : option mem :=
  match fuel with
  | O => None
  | S fuel => c ← load m src; m ← store m dest c; if c =? 0 then Some m else strcpy_loop fuel m (S dest) (S src)
  end.

Definition strcpy (m : mem) (dest src : nat) : option mem := strcpy_loop (enough m) m dest src.

Fixpoint strncpy (m : mem) (tmp src count : nat) : option mem :=
  match count with
  | O => Some m
  | S count => c ← load m src; m ← store m tmp c; strncpy m (S tmp) (if c =? 0 then src else S src) count
  end.

(** The result and memory. *)
Definition strlcpy (m : mem) (dest src size : nat) : option (nat * mem) :=
  ret ← strlen m src;
  if (size =? 0)%nat then Some (ret, m)
  else
    let len := if (size <=? ret)%nat then (size - 1)%nat else ret in
    m ← memcpy m dest src len;
    m ← store m (dest + len)%nat 0;
    Some (ret, m).

Definition strcat (m : mem) (dest src : nat) : option mem :=
  e ← strlen_loop (enough m) m dest; strcpy_loop (enough m) m e src.

Fixpoint strncat_loop (fuel : nat) (m : mem) (dest src count : nat) : option mem :=
  match fuel with
  | O => None
  | S fuel =>
      c ← load m src; m ← store m dest c;
      if c =? 0 then Some m
      else
        let count := (count - 1)%nat in
        if (count =? 0)%nat then store m (S dest) 0 else strncat_loop fuel m (S dest) (S src) count
  end.

Definition strncat (m : mem) (dest src count : nat) : option mem :=
  if (count =? 0)%nat then Some m
  else e ← strlen_loop (enough m) m dest; strncat_loop (enough m) m e src count.

(** No result also where [BUG_ON] stops the kernel. *)
Definition strlcat (m : mem) (dest src count : nat) : option (nat * mem) :=
  dsize ← strlen m dest;
  len ← strlen m src;
  let res := (dsize + len)%nat in
  if (count <=? dsize)%nat then None
  else
    let dest := (dest + dsize)%nat in
    let count := (count - dsize)%nat in
    let len := if (count <=? len)%nat then (count - 1)%nat else len in
    m ← memcpy m dest src len;
    m ← store m (dest + len)%nat 0;
    Some (res, m).

Fixpoint skip_spaces_loop (fuel : nat) (m : mem) (str : nat) : option nat :=
  match fuel with
  | O => None
  | S fuel => c ← load m str; if isspace c then skip_spaces_loop fuel m (S str) else Some str
  end.

Definition skip_spaces (m : mem) (str : nat) : option nat := skip_spaces_loop (enough m) m str.

(** The pointer [end] is [s + k - 1]: the number of characters that stay. *)
Fixpoint trim_loop (k : nat) (m : mem) (s : nat) : option nat :=
  match k with
  | O => Some O
  | S k' => c ← load m (s + k')%nat; if isspace c then trim_loop k' m s else Some k
  end.

Definition strim (m : mem) (s : nat) : option (nat * mem) :=
  s ← skip_spaces m s;
  size ← strlen m s;
  if (size =? 0)%nat then Some (s, m)
  else
    k ← trim_loop size m s;
    m ← store m (s + k)%nat 0;
    Some (s, m).

(** The token, the new value of [*s], and memory. *)
Definition strsep (m : mem) (s : option nat) (ct : nat) : option (option nat * option nat * mem) :=
  match s with
  | None => Some (None, None, m)
  | Some sbegin =>
      e ← strpbrk m sbegin ct;
      match (e : option nat) with
      | Some e => m ← store m e 0; Some (Some sbegin, Some (S e), m)
      | None => Some (Some sbegin, None, m)
      end
  end.

Definition strtobool (m : mem) (s : nat) : option (result bool) :=
  c ← load m s;
  if (c =? 121) || (c =? 89) || (c =? 49) then Some (Ok true)
  else if (c =? 110) || (c =? 78) || (c =? 48) then Some (Ok false)
  else Some (Err (- EINVAL)).

(** ** Strings in memory *)

(** The NUL-terminated string [s] is at [p]. *)
Fixpoint at_str (m : mem) (p : nat) (s : list Z) : Prop :=
  match s with
  | [] => m !! p = Some 0
  | c :: s => m !! p = Some c /\ c <> 0 /\ at_str m (S p) s
  end.

Section at_str.

Context {m : mem}.
Implicit Types (p : nat) (s : list Z).

Lemma at_str_bound p s : at_str m p s -> (p + length s < length m)%nat.
Proof.
  revert p. induction s as [|c s IH]; intros p; cbn [at_str length].
  - intros Hp%lookup_lt_Some. lia.
  - intros (_ & _ & H%IH). lia.
Qed.

Lemma at_str_enough p s : at_str m p s -> (length s < enough m)%nat.
Proof. intros H%at_str_bound. unfold enough. lia. Qed.

Lemma at_str_app p s1 s2 : at_str m p (s1 ++ s2) -> at_str m (p + length s1) s2.
Proof.
  revert p. induction s1 as [|c s1 IH]; intros p; cbn [app at_str length].
  - by rewrite Nat.add_0_r.
  - intros (_ & _ & H%IH). by rewrite <- Nat.add_succ_comm.
Qed.

Lemma at_str_nonzero p s : at_str m p s -> Forall (fun c => c <> 0) s.
Proof. revert p. induction s as [|c s IH]; intros p; cbn [at_str]; [constructor|]. intros (_ & ? & ?). constructor; eauto. Qed.

Lemma at_str_lookup p s i : at_str m p s -> (i <= length s)%nat -> m !! (p + i)%nat = Some (nth i s 0).
Proof.
  revert p i. induction s as [|c s IH]; intros p i; cbn [at_str length].
  - intros H Hi. replace i with 0%nat by lia. by rewrite Nat.add_0_r.
  - intros (Hc & _ & H) Hi. destruct i as [|i]; [by rewrite Nat.add_0_r|]. rewrite <- Nat.add_succ_comm. apply IH; [done|lia].
Qed.

(** *** Length *)

Lemma strlen_loop_spec p s fuel : at_str m p s -> (length s < fuel)%nat -> strlen_loop fuel m p = Some (p + length s)%nat.
Proof.
  revert p fuel. induction s as [|c s IH]; intros p fuel Hs Hf; (destruct fuel as [|fuel]; [cbn in Hf; lia|]);
    cbn [at_str length strlen_loop] in *; unfold load.
  - rewrite Hs. cbn. by rewrite Nat.add_0_r.
  - destruct Hs as (-> & Hc & Hs). cbn [mbind option_bind]. rewrite (proj2 (Z.eqb_neq _ _) Hc), (IH _ _ Hs) by lia. f_equal. lia.
Qed.

Lemma strlen_spec p s : at_str m p s -> strlen m p = Some (length s).
Proof.
  intros Hs. unfold strlen. rewrite (strlen_loop_spec p s); [|done|by eapply at_str_enough]. cbn. f_equal. lia.
Qed.

Lemma strnlen_spec p s count : at_str m p s -> strnlen m p count = Some (Nat.min count (length s)).
Proof.
  intros Hs. unfold strnlen. assert (strnlen_loop count m p = Some (p + Nat.min count (length s))%nat) as ->.
  { revert p s Hs. induction count as [|count IH]; intros p s Hs; cbn [strnlen_loop]; [f_equal; lia|]. unfold load.
    destruct s as [|c s]; cbn [at_str length] in Hs |- *.
    - rewrite Hs. cbn. f_equal. lia.
    - destruct Hs as (-> & Hc & Hs). cbn [mbind option_bind]. rewrite (proj2 (Z.eqb_neq _ _) Hc), (IH _ _ Hs). f_equal. lia. }
  cbn. f_equal. lia.
Qed.

(** *** Characters *)

(** The index of the first member with property [f]. *)
Fixpoint index (f : Z -> bool) (s : list Z) : option nat :=
  match s with
  | [] => None
  | c :: s => if f c then Some O else S <$> index f s
  end.

Lemma strchr_spec p s c : at_str m p s -> strchr m p c = Some (Nat.add p <$> index (fun x => x =? u8 c) (s ++ [0])).
Proof.
  intros Hs. unfold strchr. pose proof (at_str_enough _ _ Hs) as Hf. revert Hf. generalize (enough m). intros fuel Hf.
  revert p fuel Hs Hf. induction s as [|x s IH]; intros p fuel Hs Hf; (destruct fuel as [|fuel]; [cbn in Hf; lia|]);
    cbn [at_str length strchr_loop app index] in *; unfold load.
  - rewrite Hs. cbn [mbind option_bind]. destruct (0 =? u8 c); cbn; [by rewrite Nat.add_0_r|done].
  - destruct Hs as (-> & Hx & Hs). cbn [mbind option_bind]. destruct (x =? u8 c); cbn [fmap option_fmap option_map]; [by rewrite Nat.add_0_r|].
    rewrite (proj2 (Z.eqb_neq _ _) Hx), (IH _ _ Hs) by lia. f_equal. destruct (index _ _) as [i|]; cbn; f_equal. lia.
Qed.

(** The last index of [c] in the string with its NUL. *)
Fixpoint last_index (c : Z) (k : nat) (s : list Z) : option nat :=
  if nth k s 0 =? c then Some k else match k with O => None | S k => last_index c k s end.

Lemma strrchr_spec p s c : at_str m p s -> strrchr m p c = Some (Nat.add p <$> last_index (u8 c) (length s) s).
Proof.
  intros Hs. unfold strrchr. rewrite (strlen_spec _ _ Hs). cbn [mbind option_bind].
  assert (forall k, (k <= length s)%nat -> strrchr_loop k m p c = Some (Nat.add p <$> last_index (u8 c) k s)) as HL; [|by apply HL].
  induction k as [|k IH]; intros Hk; cbn [strrchr_loop last_index]; unfold load; rewrite (at_str_lookup _ _ _ Hs) by lia;
    cbn [mbind option_bind]; destruct (_ =? u8 c); try done. apply IH. lia.
Qed.

Definition member (a : list Z) (c : Z) : bool := bool_decide (c ∈ a).

Lemma member_cons x a c : member (x :: a) c = (c =? x) || member a c.
Proof.
  unfold member. apply eq_true_iff_eq. rewrite orb_true_iff, !bool_decide_eq_true, Z.eqb_eq, elem_of_cons. done.
Qed.

Lemma in_set_spec p a c : at_str m p a -> in_set (enough m) m p c = Some (member a c).
Proof.
  intros Hs. pose proof (at_str_enough _ _ Hs) as Hf. revert Hf. generalize (enough m). intros fuel Hf.
  revert p fuel Hs Hf. induction a as [|x a IH]; intros p fuel Hs Hf; (destruct fuel as [|fuel]; [cbn in Hf; lia|]);
    cbn [at_str length in_set] in *; unfold load.
  - by rewrite Hs.
  - destruct Hs as (-> & Hx & Hs). cbn [mbind option_bind]. rewrite (proj2 (Z.eqb_neq _ _) Hx), member_cons.
    destruct (c =? x); [done|]. apply IH; [done|lia].
Qed.

Lemma strspn_spec p s q a :
  at_str m p s -> at_str m q a -> strspn m p q = Some (default (length s) (index (fun c => negb (member a c)) s)).
Proof.
  intros Hs Ha. unfold strspn. pose proof (at_str_enough _ _ Hs) as Hf. revert Hf. generalize (enough m) at 1 2. intros fuel Hf.
  assert (forall n, strspn_loop fuel m p q n = Some (n + default (length s) (index (fun c => negb (member a c)) s))%nat) as HL;
    [|by rewrite HL].
  revert p fuel Hs Hf. induction s as [|x s IH]; intros p fuel Hs Hf n; (destruct fuel as [|fuel]; [cbn in Hf; lia|]);
    cbn [at_str length strspn_loop index] in *; unfold load.
  - rewrite Hs. cbn. f_equal. lia.
  - destruct Hs as (-> & Hx & Hs). cbn [mbind option_bind]. rewrite (proj2 (Z.eqb_neq _ _) Hx), (in_set_spec _ _ _ Ha).
    cbn [mbind option_bind]. destruct (member a x); cbn [negb default from_option id fmap option_fmap option_map].
    + rewrite (IH _ _ Hs) by lia. f_equal. destruct (index _ _); cbn; lia.
    + f_equal. lia.
Qed.

Lemma strcspn_spec p s q a :
  at_str m p s -> at_str m q a -> strcspn m p q = Some (default (length s) (index (member a) s)).
Proof.
  intros Hs Ha. unfold strcspn. pose proof (at_str_enough _ _ Hs) as Hf. revert Hf. generalize (enough m) at 1 2. intros fuel Hf.
  assert (forall n, strcspn_loop fuel m p q n = Some (n + default (length s) (index (member a) s))%nat) as HL; [|by rewrite HL].
  revert p fuel Hs Hf. induction s as [|x s IH]; intros p fuel Hs Hf n; (destruct fuel as [|fuel]; [cbn in Hf; lia|]);
    cbn [at_str length strcspn_loop index] in *; unfold load.
  - rewrite Hs. cbn. f_equal. lia.
  - destruct Hs as (-> & Hx & Hs). cbn [mbind option_bind]. rewrite (proj2 (Z.eqb_neq _ _) Hx), (in_set_spec _ _ _ Ha).
    cbn [mbind option_bind]. destruct (member a x); cbn [default from_option id fmap option_fmap option_map].
    + f_equal. lia.
    + rewrite (IH _ _ Hs) by lia. f_equal. destruct (index _ _); cbn; lia.
Qed.

Lemma strpbrk_spec p s q a : at_str m p s -> at_str m q a -> strpbrk m p q = Some (Nat.add p <$> index (member a) s).
Proof.
  intros Hs Ha. unfold strpbrk. pose proof (at_str_enough _ _ Hs) as Hf. revert Hf. generalize (enough m) at 1 2. intros fuel Hf.
  revert p fuel Hs Hf. induction s as [|x s IH]; intros p fuel Hs Hf; (destruct fuel as [|fuel]; [cbn in Hf; lia|]);
    cbn [at_str length strpbrk_loop index] in *; unfold load.
  - by rewrite Hs.
  - destruct Hs as (-> & Hx & Hs). cbn [mbind option_bind]. rewrite (proj2 (Z.eqb_neq _ _) Hx), (in_set_spec _ _ _ Ha).
    cbn [mbind option_bind]. destruct (member a x); cbn [fmap option_fmap option_map]; [by rewrite Nat.add_0_r|].
    rewrite (IH _ _ Hs) by lia. f_equal. destruct (index _ _) as [i|]; cbn; f_equal. lia.
Qed.

End at_str.

(** *** Order *)

Definition is_bytes (m : mem) : Prop := Forall (fun c => 0 <= c < 256) m.

(** The order of the dictionary on unsigned characters. *)
Fixpoint lex (s t : list Z) : Z :=
  match s, t with
  | [], [] => 0
  | [], _ :: _ => -1
  | _ :: _, [] => 1
  | x :: s, y :: t => if x =? y then lex s t else if x <? y then -1 else 1
  end.

Lemma lex_eq s t : lex s t = 0 <-> s = t.
Proof.
  revert t. induction s as [|x s IH]; intros [|y t]; cbn [lex]; try done. destruct (Z.eqb_spec x y) as [->|Hne].
  - rewrite IH. split; [by intros ->|by intros [= ->]].
  - split; [by destruct (x <? y)|congruence].
Qed.

Section order.

Context {m : mem} (Hb : is_bytes m).

Lemma load_bound p c : m !! p = Some c -> 0 <= c < 256.
Proof. intros H. by apply (Forall_lookup_1 _ _ _ _ Hb H). Qed.

(** The heads of two strings decide, or the strings go on. *)
Lemma lex_heads p s q t c d :
  at_str m p s -> at_str m q t -> m !! p = Some c -> m !! q = Some d -> c <> d ->
  lex s t = if c <? d then -1 else 1.
Proof.
  intros Hs Ht Hc Hd Hne. pose proof (load_bound _ _ Hc). pose proof (load_bound _ _ Hd).
  destruct s as [|x s], t as [|y t]; cbn [at_str lex] in *; simplify_eq.
  - by rewrite (proj2 (Z.ltb_lt _ _)) by lia.
  - destruct Hs as (E & ? & _). simplify_eq. destruct (Z.ltb_spec x 0); [lia|done].
  - destruct Hs as (E & _), Ht as (E' & _). simplify_eq. by rewrite (proj2 (Z.eqb_neq _ _) Hne).
Qed.

Lemma at_str_head p s : at_str m p s -> exists c, m !! p = Some c /\ (c = 0 <-> s = []).
Proof. destruct s as [|c s]; cbn [at_str]; [by exists 0|]. intros (? & ? & _). by exists c. Qed.

Lemma strcmp_spec p s q t : at_str m p s -> at_str m q t -> strcmp m p q = Some (lex s t).
Proof.
  intros Hs Ht. unfold strcmp. pose proof (at_str_enough _ _ Hs) as Hf. revert Hf. generalize (enough m). intros fuel Hf.
  revert p q t fuel Hs Ht Hf. induction s as [|x s IH]; intros p q t fuel Hs Ht Hf; (destruct fuel as [|fuel]; [cbn in Hf; lia|]);
    cbn [strcmp_loop]; unfold load; destruct (at_str_head _ _ Hs) as (c & Ec & Hc), (at_str_head _ _ Ht) as (d & Ed & Hd);
    rewrite Ec, Ed; cbn [mbind option_bind]; (destruct (Z.eqb_spec c d) as [->|Hne]; cbn [negb];
      [|by rewrite (lex_heads p _ q t c d Hs Ht Ec Ed Hne)]).
  - assert (d = 0) as -> by by apply Hc. assert (t = []) as -> by by apply Hd. done.
  - assert (d <> 0) as Hd0 by (intros ->; by apply proj1 in Hc; specialize (Hc eq_refl)).
    rewrite (proj2 (Z.eqb_neq _ _) Hd0). destruct t as [|y t]; [by apply proj2 in Hd; specialize (Hd eq_refl)|].
    cbn [at_str length lex] in *. destruct Hs as (Ex & _ & Hs), Ht as (Ey & _ & Ht). simplify_eq. rewrite Z.eqb_refl.
    apply IH; [done..|lia].
Qed.

Lemma strncmp_spec n p s q t : at_str m p s -> at_str m q t -> strncmp m p q n = Some (lex (take n s) (take n t)).
Proof.
  revert p q s t. induction n as [|n IH]; intros p q s t Hs Ht; [done|]. cbn [strncmp]. unfold load.
  destruct (at_str_head _ _ Hs) as (c & Ec & Hc), (at_str_head _ _ Ht) as (d & Ed & Hd). rewrite Ec, Ed. cbn [mbind option_bind].
  destruct (Z.eqb_spec c d) as [->|Hne]; cbn [negb].
  - destruct (Z.eqb_spec d 0) as [->|Hd0].
    + rewrite (proj1 Hc eq_refl), (proj1 Hd eq_refl). done.
    + destruct s as [|x s]; [by specialize (proj2 Hc eq_refl)|]. destruct t as [|y t]; [by specialize (proj2 Hd eq_refl)|].
      cbn [at_str take lex] in *. destruct Hs as (Ex & _ & Hs), Ht as (Ey & _ & Ht). simplify_eq. rewrite Z.eqb_refl. by apply IH.
  - rewrite <- (lex_heads p s q t c d Hs Ht Ec Ed Hne). destruct s as [|x s], t as [|y t]; cbn [take lex]; try done.
    cbn [at_str] in Hs, Ht. destruct Hs as (Ex & _), Ht as (Ey & _). simplify_eq. by rewrite (proj2 (Z.eqb_neq _ _) Hne).
Qed.

End order.

(** *** Blocks *)

Definition slice (m : mem) (p n : nat) : list Z := take n (drop p m).

Lemma slice_cons (m : mem) p n c : m !! p = Some c -> slice m p (S n) = c :: slice m (S p) n.
Proof. intros H. unfold slice. by rewrite (drop_S _ _ _ H). Qed.

Lemma lookup_in (m : mem) p n : (p + S n <= length m)%nat -> exists c, m !! p = Some c.
Proof. intros H. apply lookup_lt_is_Some. lia. Qed.

Lemma memcmp_zero m p q n :
  (p + n <= length m)%nat -> (q + n <= length m)%nat ->
  exists r, memcmp m p q n = Some r /\ (r = 0 <-> slice m p n = slice m q n).
Proof.
  revert p q. induction n as [|n IH]; intros p q Hp Hq; [by exists 0|].
  destruct (lookup_in m p n Hp) as [c Hc], (lookup_in m q n Hq) as [d Hd]. cbn [memcmp]. unfold load.
  rewrite Hc, Hd, (slice_cons _ _ _ _ Hc), (slice_cons _ _ _ _ Hd). cbn [mbind option_bind].
  destruct (Z.eqb_spec (c - d) 0) as [E|E]; cbn [negb].
  - assert (c = d) as -> by lia. destruct (IH (S p) (S q)) as (r & -> & Hr); [lia..|]. exists r. split; [done|]. rewrite Hr.
    split; [by intros ->|by intros [= ->]].
  - exists (c - d). split; [done|]. split; [done|]. intros [= -> _]. lia.
Qed.

Lemma slice_str m p s n : at_str m p s -> (n <= length s)%nat -> slice m p n = take n s.
Proof.
  revert p s. induction n as [|n IH]; intros p [|c s] Hs Hn; cbn [length] in Hn; try done; [lia|].
  cbn [at_str] in Hs. destruct Hs as (Hc & _ & Hs). rewrite (slice_cons _ _ _ _ Hc). cbn [take]. f_equal. apply IH; [done|lia].
Qed.

(** *** Searching a string *)

Fixpoint find_sub (s t : list Z) : option nat :=
  if bool_decide (take (length t) s = t) then Some O
  else match s with [] => None | _ :: s => S <$> find_sub s t end.

Lemma find_sub_short s t : (length s < length t)%nat -> find_sub s t = None.
Proof.
  induction s as [|c s IH]; intros Hl; cbn [find_sub].
  - destruct t; [cbn in Hl; lia|]. by rewrite bool_decide_false by (by rewrite take_nil).
  - rewrite bool_decide_false; [rewrite IH; [done|]; cbn in Hl; lia|]. intros E%(f_equal length). rewrite length_take in E. lia.
Qed.

Lemma strstr_loop_spec m p s q t :
  at_str m p s -> at_str m q t -> (0 < length t)%nat ->
  strstr_loop (length s) m p q (length t) = Some (Nat.add p <$> find_sub s t).
Proof.
  intros Hs Ht Hpos. revert p Hs. induction s as [|c s IH]; intros p Hs.
  { rewrite find_sub_short by (cbn; lia). done. }
  cbn [length strstr_loop]. change (S (length s)) with (length (c :: s)). destruct (Nat.leb_spec (length t) (length (c :: s))) as [Hle|Hlt].
  - pose proof (at_str_bound _ _ Hs). pose proof (at_str_bound _ _ Ht).
    destruct (memcmp_zero m p q (length t)) as (r & -> & Hr); [lia..|]. cbn [mbind option_bind find_sub].
    rewrite (slice_str _ _ _ _ Hs Hle), (slice_str _ _ _ _ Ht (Nat.le_refl _)), firstn_all in Hr.
    destruct (Z.eqb_spec r 0) as [E|E].
    + rewrite bool_decide_true by (by apply Hr). cbn. by rewrite Nat.add_0_r.
    + rewrite bool_decide_false by (by rewrite <- Hr). destruct Hs as (_ & _ & Hs). rewrite (IH _ Hs).
      f_equal. destruct (find_sub s t); cbn; f_equal. lia.
  - by rewrite find_sub_short.
Qed.

Lemma strstr_spec m p s q t : at_str m p s -> at_str m q t -> strstr m p q = Some (Nat.add p <$> find_sub s t).
Proof.
  intros Hs Ht. unfold strstr. rewrite (strlen_spec _ _ Ht). cbn [mbind option_bind]. destruct t as [|d t].
  - assert (find_sub s [] = Some 0%nat) as -> by (destruct s; cbn [find_sub]; by rewrite bool_decide_true).
    cbn. by rewrite Nat.add_0_r.
  - rewrite (proj2 (Nat.eqb_neq _ _)) by (cbn; lia). rewrite (strlen_spec _ _ Hs). cbn [mbind option_bind].
    apply strstr_loop_spec; [done..|cbn; lia].
Qed.

(** The index found is that of an occurrence, and there is none before it. *)
Lemma find_sub_some s t i :
  find_sub s t = Some i <->
  take (length t) (drop i s) = t /\ (i <= length s)%nat /\ (forall j, (j < i)%nat -> take (length t) (drop j s) <> t).
Proof.
  revert i. induction s as [|c s IH]; intros i; cbn [find_sub].
  - case_bool_decide as E.
    + split; [intros [= <-]; split_and!; [done|done|lia]|]. intros (_ & Hi & _). cbn in Hi. f_equal. lia.
    + split; [done|]. intros (E' & Hi & _). cbn in Hi. replace i with 0%nat in E' by lia. done.
  - case_bool_decide as E.
    + split; [intros [= <-]; split_and!; [done|lia|lia]|]. intros (_ & _ & Hm). destruct i as [|i]; [done|]. by destruct (Hm 0%nat); [lia|].
    + destruct i as [|i].
      * split; [|intros (E' & _ & _); by destruct (find_sub s t)]. destruct (find_sub s t); by intros [=].
      * rewrite fmap_Some. setoid_rewrite IH. split.
        -- intros (j & (E1 & E2 & E3) & [= <-]). cbn. split_and!; [done|lia|]. intros [|j] Hj; [done|]. apply E3. lia.
        -- intros (E1 & E2 & E3). exists i. split; [|done]. cbn in *. split_and!; [done|lia|]. intros j Hj. apply (E3 (S j)). lia.
Qed.

(** *** Copying *)

(** [m'] is [m] with [n] bytes copied from [src] to [dest], all at once. *)
Definition copied (m m' : mem) (dest src n : nat) : Prop :=
  length m' = length m /\
  forall i, m' !! i = if decide (dest <= i < dest + n)%nat then m !! (src + (i - dest))%nat else m !! i.

Lemma store_in m p v : (p < length m)%nat -> store m p v = Some (<[p := v]> m).
Proof. intros H. unfold store. by rewrite (proj2 (Nat.ltb_lt _ _) H). Qed.

Lemma copied_nil m d s : copied m m d s 0.
Proof. split; [done|]. intros i. by rewrite decide_False by lia. Qed.

(** The first byte first. *)
Lemma memcpy_copied m d s n :
  (d <= s \/ s + n <= d)%nat -> (d + n <= length m)%nat -> (s + n <= length m)%nat ->
  exists m', memcpy m d s n = Some m' /\ copied m m' d s n.
Proof.
  revert m d s. induction n as [|n IH]; intros m d s Ho Hd Hs; [exists m; split; [done|apply copied_nil]|].
  destruct (lookup_in m s n Hs) as [x Hx]. cbn [memcpy]. unfold load. rewrite Hx. cbn [mbind option_bind].
  rewrite store_in by lia. cbn [mbind option_bind].
  destruct (IH (<[d := x]> m) (S d) (S s)) as (m' & -> & Hl & Hc); [lia|rewrite length_insert; lia..|].
  exists m'. split; [done|]. rewrite length_insert in Hl. split; [done|]. intros i. rewrite Hc.
  destruct (decide (i = d)) as [->|Hne].
  - rewrite decide_False, decide_True, list_lookup_insert_eq by lia. by rewrite Nat.sub_diag, Nat.add_0_r.
  - destruct (decide (S d <= i < S d + n)%nat).
    + rewrite decide_True by lia. replace (S s + (i - S d))%nat with (s + (i - d))%nat by lia. apply list_lookup_insert_ne. lia.
    + rewrite decide_False by lia. apply list_lookup_insert_ne. lia.
Qed.

(** The last byte first. *)
Lemma memmove_down_copied m d s n :
  (s <= d)%nat -> (d + n <= length m)%nat -> exists m', memmove_down m d s n = Some m' /\ copied m m' d s n.
Proof.
  revert m. induction n as [|n IH]; intros m Ho Hd; [exists m; split; [done|apply copied_nil]|].
  destruct (lookup_in m (s + n) 0) as [x Hx]; [lia|]. cbn [memmove_down]. unfold load. rewrite Hx. cbn [mbind option_bind].
  rewrite store_in by lia. cbn [mbind option_bind].
  destruct (IH (<[(d + n)%nat := x]> m)) as (m' & -> & Hl & Hc); [lia|rewrite length_insert; lia|].
  exists m'. split; [done|]. rewrite length_insert in Hl. split; [done|]. intros i. rewrite Hc.
  destruct (decide (i = d + n)%nat) as [->|Hne].
  - rewrite decide_False, decide_True, list_lookup_insert_eq by lia. by replace (d + n - d)%nat with n by lia.
  - destruct (decide (d <= i < d + n)%nat).
    + rewrite decide_True by lia. apply list_lookup_insert_ne. lia.
    + rewrite decide_False by lia. apply list_lookup_insert_ne. lia.
Qed.

(** A string is where its bytes are. *)
Lemma at_str_ext m m' p s : (forall i, (p <= i <= p + length s)%nat -> m' !! i = m !! i) -> at_str m p s -> at_str m' p s.
Proof.
  revert p. induction s as [|c s IH]; intros p Hm; cbn [at_str length].
  - intros H. rewrite Hm; [done|cbn; lia].
  - intros (Hc & Hz & Hs). rewrite Hm by (cbn; lia). split_and!; [done..|]. apply IH; [|done]. intros i Hi. apply Hm. cbn. lia.
Qed.

(** A prefix of a string that was copied and then terminated. *)
Lemma at_str_copied m m' d p s k :
  copied m m' d p k -> at_str m p s -> (k <= length s)%nat -> (d + k < length m)%nat ->
  at_str (<[(d + k)%nat := 0]> m') d (take k s).
Proof.
  intros [Hl Hc] Hs Hk Hd. assert (forall j, (j <= k)%nat -> at_str (<[(d + k)%nat := 0]> m') (d + j) (drop j (take k s))) as HJ.
  { intros j Hj. remember (k - j)%nat as n eqn:En. revert j Hj En. induction n as [|n IH]; intros j Hj En.
    - replace j with k by lia. rewrite drop_ge by (rewrite length_take; lia). cbn [at_str]. apply list_lookup_insert_eq. lia.
    - assert (j < length s)%nat as Hjs by lia. destruct (lookup_lt_is_Some_2 s j Hjs) as [c Ec].
      rewrite (drop_S (take k s) c j) by (rewrite lookup_take_lt by lia; done). cbn [at_str].
      rewrite list_lookup_insert_ne, Hc, decide_True by lia. replace (d + j - d)%nat with j by lia.
      rewrite (at_str_lookup _ _ _ Hs), (nth_lookup_Some _ _ _ _ Ec) by lia. split_and!; [done| |].
      + pose proof (at_str_nonzero _ _ Hs) as Hz. by apply (Forall_lookup_1 _ _ _ _ Hz Ec).
      + rewrite <- Nat.add_succ_r. apply IH; lia. }
  specialize (HJ 0%nat ltac:(lia)). by rewrite Nat.add_0_r, drop_0 in HJ.
Qed.

(** Two regions of memory, [n] bytes at [p] and [k] bytes at [q], that do not overlap. *)
Definition apart (p n q k : nat) : Prop := (p + n <= q \/ q + k <= p)%nat.

(** [m'] differs from [m] at most in the [n] bytes at [p]. *)
Definition only_in (m m' : mem) (p n : nat) : Prop :=
  length m' = length m /\ forall i, ~ (p <= i < p + n)%nat -> m' !! i = m !! i.

Lemma strlcpy_spec m dest src s size :
  at_str m src s -> (0 < size)%nat -> (dest + size <= length m)%nat -> apart dest size src (S (length s)) ->
  exists m', strlcpy m dest src size = Some (length s, m') /\ at_str m' dest (take (size - 1) s) /\ only_in m m' dest size.
Proof.
  intros Hs Hz Hd Ha. unfold strlcpy. rewrite (strlen_spec _ _ Hs). cbn [mbind option_bind]. rewrite (proj2 (Nat.eqb_neq _ _)) by lia.
  pose proof (at_str_bound _ _ Hs) as Hb. set (len := if (size <=? length s)%nat then (size - 1)%nat else length s).
  assert (len = Nat.min (size - 1) (length s)) as El by (subst len; destruct (Nat.leb_spec size (length s)); lia). clearbody len.
  destruct (memcpy_copied m dest src len) as (m1 & -> & Hc); [unfold apart in Ha; lia..|]. cbn [mbind option_bind].
  pose proof Hc as [Hl Hp]. rewrite store_in by lia. cbn [mbind option_bind]. eexists. split; [done|]. split.
  - replace (take (size - 1) s) with (take len s); [apply (at_str_copied m m1 dest src); [done..|lia|lia]|].
    destruct (decide (size - 1 <= length s)%nat); [f_equal; lia|]. by rewrite !take_ge by lia.
  - split; [by rewrite length_insert|]. intros i Hi. rewrite list_lookup_insert_ne by lia. rewrite Hp. by rewrite decide_False by lia.
Qed.

Lemma at_str_join m m' p d t :
  at_str m p d -> (forall i, (p <= i < p + length d)%nat -> m' !! i = m !! i) -> at_str m' (p + length d) t -> at_str m' p (d ++ t).
Proof.
  revert p. induction d as [|c d IH]; intros p; cbn [at_str app length]; [by rewrite Nat.add_0_r|].
  intros (Hc & Hz & Hd) Hm Ht. rewrite Hm by lia. split_and!; [done..|]. apply IH; [done| |].
  - intros i Hi. apply Hm. lia.
  - by rewrite Nat.add_succ_comm.
Qed.

Lemma strlcat_spec m dest d src s count :
  at_str m dest d -> at_str m src s -> (length d < count)%nat -> (dest + count <= length m)%nat ->
  apart dest count src (S (length s)) ->
  exists m', strlcat m dest src count = Some (length d + length s, m')%nat /\ at_str m' dest (take (count - 1) (d ++ s)) /\
    only_in m m' dest count.
Proof.
  intros Hd Hs Hlt Hin Ha. unfold strlcat. rewrite (strlen_spec _ _ Hd), (strlen_spec _ _ Hs). cbn [mbind option_bind].
  rewrite (proj2 (Nat.leb_gt _ _)) by lia. pose proof (at_str_bound _ _ Hs) as Hb. unfold apart in Ha.
  set (len := if (count - length d <=? length s)%nat then (count - length d - 1)%nat else length s).
  assert (len = Nat.min (count - length d - 1) (length s)) as El
    by (subst len; destruct (Nat.leb_spec (count - length d) (length s)); lia). clearbody len.
  destruct (memcpy_copied m (dest + length d) src len) as (m1 & -> & Hc); [lia..|]. cbn [mbind option_bind].
  pose proof Hc as [Hl Hp]. rewrite store_in by lia. cbn [mbind option_bind]. eexists. split; [done|]. split.
  - rewrite take_app, (take_ge d) by lia. apply (at_str_join m); [done| |].
    + intros i Hi. rewrite list_lookup_insert_ne by lia. rewrite Hp. by rewrite decide_False by lia.
    + replace (take (count - 1 - length d) s) with (take len s); [apply (at_str_copied m m1 _ src); [done..|lia|lia]|].
      destruct (decide (count - length d - 1 <= length s)%nat); [f_equal; lia|]. by rewrite !take_ge by lia.
  - split; [by rewrite length_insert|]. intros i Hi. rewrite list_lookup_insert_ne by lia. rewrite Hp. by rewrite decide_False by lia.
Qed.

(** *** Tokens *)

(** The string up to the first separator, and what follows it. *)
Lemma index_split f s i : index f s = Some i -> exists x, s !! i = Some x /\ f x = true /\ Forall (fun c => f c = false) (take i s).
Proof.
  revert i. induction s as [|c s IH]; intros i; cbn [index]; [done|]. destruct (f c) eqn:E.
  - intros [= <-]. by exists c.
  - destruct (index f s) as [j|]; [|done]. intros [= <-]. destruct (IH j eq_refl) as (x & ? & ? & ?). exists x. split_and!; [done..|].
    cbn. by constructor.
Qed.

Lemma index_none f s : index f s = None -> Forall (fun c => f c = false) s.
Proof. induction s as [|c s IH]; cbn [index]; [constructor|]. destruct (f c) eqn:E; [done|]. destruct (index f s); [done|]. constructor; auto. Qed.

(** The pieces between the separators [a]; there is always one more than separators. *)
Fixpoint split_at (f : Z -> bool) (s : list Z) : list (list Z) :=
  match s with
  | [] => [[]]
  | c :: s =>
      if f c then [] :: split_at f s
      else match split_at f s with [] => [[c]] | t :: ts => (c :: t) :: ts end
  end.

Lemma split_at_index f s i :
  index f s = Some i -> split_at f s = take i s :: split_at f (drop (S i) s).
Proof.
  revert i. induction s as [|c s IH]; intros i; cbn [index split_at]; [done|]. destruct (f c).
  - intros [= <-]. done.
  - destruct (index f s) as [j|]; [|done]. intros [= <-]. by rewrite (IH j eq_refl).
Qed.

Lemma split_at_none f s : index f s = None -> split_at f s = [s].
Proof.
  induction s as [|c s IH]; cbn [index split_at]; [done|]. destruct (f c); [done|]. destruct (index f s); [done|]. intros _. by rewrite IH.
Qed.

(** [while ((token = strsep(&s, ct)) != NULL)]: the tokens in order, and memory. *)
Fixpoint strsep_all (fuel : nat) (m : mem) (s : option nat) (ct : nat) : option (list nat * mem) :=
  match fuel with
  | O => None
  | S fuel =>
      '(token, s, m) ← strsep m s ct;
      match (token : option nat) with
      | None => Some ([], m)
      | Some t => '(ts, m) ← strsep_all fuel m s ct; Some (t :: ts, m)
      end
  end.

Lemma at_str_cut m p s i : at_str m p s -> (i < length s)%nat -> at_str (<[(p + i)%nat := 0]> m) p (take i s).
Proof.
  revert p s. induction i as [|i IH]; intros p s Hs Hi.
  - rewrite Nat.add_0_r. apply list_lookup_insert_eq. apply at_str_bound in Hs. lia.
  - destruct s as [|c s]; [cbn in Hi; lia|]. cbn [at_str take length] in *. destruct Hs as (Hc & Hz & Hs).
    rewrite list_lookup_insert_ne by lia. split_and!; [done..|]. rewrite <- Nat.add_succ_comm. apply IH; [done|lia].
Qed.

Lemma strsep_all_spec fuel m p s q a :
  at_str m p s -> at_str m q a -> apart p (S (length s)) q (S (length a)) -> (length s + 1 < fuel)%nat ->
  exists ts m', strsep_all fuel m (Some p) q = Some (ts, m') /\ Forall2 (at_str m') ts (split_at (member a) s) /\
    only_in m m' p (length s).
Proof.
  revert m p s. induction fuel as [|fuel IH]; intros m p s Hs Ha Hap Hf; [lia|].
  cbn [strsep_all strsep]. rewrite (strpbrk_spec _ _ _ _ Hs Ha). cbn [mbind option_bind].
  destruct (index (member a) s) as [i|] eqn:Ei; cbn [fmap option_fmap option_map].
  - destruct (index_split _ _ _ Ei) as (x & Hx%lookup_lt_Some & _). pose proof (at_str_bound _ _ Hs) as Hb.
    rewrite store_in by lia. cbn [mbind option_bind]. set (m1 := <[(p + i)%nat := 0]> m). unfold apart in Hap.
    assert (at_str m1 (S (p + i)) (drop (S i) s)) as Hs1.
    { apply (at_str_ext m); [intros j Hj; apply list_lookup_insert_ne; lia|].
      rewrite <- (take_drop (S i) s) in Hs. apply at_str_app in Hs. rewrite length_take in Hs.
      by replace (S (p + i)) with (p + Nat.min (S i) (length s))%nat by lia. }
    assert (at_str m1 q a) as Ha1 by (apply (at_str_ext m); [intros j Hj; apply list_lookup_insert_ne; lia|done]).
    pose proof (length_drop s (S i)) as Hld.
    destruct (IH m1 (S (p + i)) (drop (S i) s) Hs1 Ha1) as (ts & m' & -> & Hts & Hl & Ho); [unfold apart; lia|lia|].
    cbn [mbind option_bind]. exists (p :: ts), m'. split; [done|]. subst m1. rewrite length_insert in Hl. split; [|split].
    + rewrite (split_at_index _ _ _ Ei). constructor; [|done].
      apply (at_str_ext (<[(p + i)%nat := 0]> m)); [|by apply at_str_cut]. intros j Hj. rewrite length_take in Hj. apply Ho. lia.
    + done.
    + intros j Hj. rewrite Ho by lia. apply list_lookup_insert_ne. lia.
  - destruct fuel as [|fuel]; [lia|]. cbn [strsep_all strsep mbind option_bind]. exists [p], m. split; [done|].
    rewrite (split_at_none _ _ Ei). split; [by repeat constructor|done].
Qed.

(** *** Equality for sysfs *)

Lemma sysfs_loop_spec m p s q t fuel :
  at_str m p s -> at_str m q t -> (length s < fuel)%nat ->
  exists u s' t', s = u ++ s' /\ t = u ++ t' /\ sysfs_loop fuel m p q = Some (p + length u, q + length u)%nat /\
    (s' = [] \/ head s' <> head t').
Proof.
  revert p q t fuel. induction s as [|c s IH]; intros p q t fuel Hs Ht Hf; (destruct fuel as [|fuel]; [cbn in Hf; lia|]);
    cbn [at_str length sysfs_loop] in *; unfold load.
  - exists [], [], t. rewrite Hs. cbn. rewrite !Nat.add_0_r. split_and!; try done. by left.
  - destruct Hs as (Hc & Hz & Hs). rewrite Hc. cbn [mbind option_bind]. rewrite (proj2 (Z.eqb_neq _ _) Hz).
    destruct t as [|d t]; cbn [at_str] in Ht.
    + rewrite Ht. cbn [mbind option_bind]. rewrite (proj2 (Z.eqb_neq _ _) Hz). exists [], (c :: s), [].
      cbn. rewrite !Nat.add_0_r. split_and!; try done. by right.
    + destruct Ht as (Hd & Hdz & Ht). rewrite Hd. cbn [mbind option_bind]. destruct (Z.eqb_spec c d) as [->|Hne].
      * destruct (IH (S p) (S q) t fuel Hs Ht ltac:(lia)) as (u & s' & t' & -> & -> & -> & Hst).
        exists (d :: u), s', t'. split_and!; [done|done| |done]. cbn [length]. do 2 f_equal; lia.
      * exists [], (c :: s), (d :: t). cbn. rewrite !Nat.add_0_r. split_and!; try done. right. congruence.
Qed.

Lemma newline_end_spec m p s c :
  at_str m p s -> m !! p = Some c -> newline_end m p c = Some (bool_decide (s = [10])).
Proof.
  intros Hs Hc. unfold newline_end. destruct s as [|d s]; cbn [at_str] in Hs.
  - rewrite Hc in Hs. injection Hs as ->. done.
  - destruct Hs as (Hd & _ & Hs). rewrite Hc in Hd. injection Hd as ->. destruct (Z.eqb_spec d 10) as [->|Hne].
    + unfold load. destruct s as [|e s]; cbn [at_str] in Hs; [by rewrite Hs|]. destruct Hs as (He & Hz & _). rewrite He. cbn.
      rewrite (proj2 (Z.eqb_neq _ _) Hz). by rewrite bool_decide_false by congruence.
    + by rewrite bool_decide_false by congruence.
Qed.

Lemma sysfs_streq_spec m p s q t :
  at_str m p s -> at_str m q t ->
  sysfs_streq m p q = Some (bool_decide (s = t \/ t = s ++ [10] \/ s = t ++ [10])).
Proof.
  intros Hs Ht. unfold sysfs_streq.
  destruct (sysfs_loop_spec m p s q t (enough m) Hs Ht (at_str_enough _ _ Hs)) as (u & s' & t' & -> & -> & -> & Hd).
  apply at_str_app in Hs, Ht. cbn [mbind option_bind].
  destruct (at_str_head _ _ Hs) as (c & Ec & Hc), (at_str_head _ _ Ht) as (d & Ed & Hd').
  unfold load. rewrite Ec, Ed. cbn [mbind option_bind].
  rewrite (newline_end_spec _ _ _ _ Hs Ec), (newline_end_spec _ _ _ _ Ht Ed). cbn [mbind option_bind].
  assert (bool_decide (u ++ s' = u ++ t' \/ u ++ t' = (u ++ s') ++ [10] \/ u ++ s' = (u ++ t') ++ [10]) =
    bool_decide (s' = t' \/ t' = s' ++ [10] \/ s' = t' ++ [10])) as ->.
  { apply bool_decide_ext. rewrite <- !(assoc_L (++)), !(inj_iff (app u)). done. }
  destruct s' as [|x s'], t' as [|y t']; cbn [at_str] in Hs, Ht; simplify_eq.
  - done.
  - destruct Ht as (Ey & Hy & _). rewrite Ed in Ey. injection Ey as ->. rewrite (proj2 (Z.eqb_neq 0 y)) by done.
    cbn [Z.eqb mbind option_bind]. case_bool_decide as E; [by rewrite bool_decide_true by auto|].
    rewrite (bool_decide_false ([] = [10])), bool_decide_false; [done| |done].
    intros [?|[?|?]]; [done|by apply E|]. by destruct t'.
  - destruct Hs as (Ex & Hx & _). rewrite Ec in Ex. injection Ex as ->. rewrite !(proj2 (Z.eqb_neq x 0)) by done.
    cbn [Z.eqb mbind option_bind]. case_bool_decide as E; [by rewrite bool_decide_true by auto|].
    cbn. rewrite bool_decide_false; [done|]. intros [?|[?|?]]; [done| |by apply E]. by destruct s'.
  - destruct Hs as (Ex & Hx & _), Ht as (Ey & Hy & _). rewrite Ec in Ex. rewrite Ed in Ey. injection Ex as ->. injection Ey as ->.
    assert (x <> y) as Hne by (intros ->; by destruct Hd). rewrite (proj2 (Z.eqb_neq x y)), (proj2 (Z.eqb_neq x 0)), (proj2 (Z.eqb_neq y 0)) by done.
    cbn [mbind option_bind]. rewrite andb_false_r. rewrite bool_decide_false; [done|]. intros [E|[E|E]]; cbn in E; congruence.
Qed.

Lemma copied_eq m m' d s n :
  copied m m' d s n -> (d + n <= length m)%nat -> (s + n <= length m)%nat -> m' = take d m ++ slice m s n ++ drop (d + n) m.
Proof.
  intros [Hl Hc] Hd Hs. assert (length (slice m s n) = n) as Hn by (unfold slice; rewrite length_take, length_drop; lia).
  apply list_eq. intros i. rewrite Hc. destruct (decide (i < d)%nat).
  - rewrite decide_False, lookup_app_l, lookup_take_lt by (rewrite ?length_take; lia). done.
  - rewrite lookup_app_r, length_take, Nat.min_l by (rewrite ?length_take; lia). destruct (decide (i < d + n)%nat).
    + rewrite decide_True, lookup_app_l by lia. unfold slice. rewrite lookup_take_lt, lookup_drop by lia. done.
    + rewrite decide_False, lookup_app_r, Hn, lookup_drop by lia. f_equal. lia.
Qed.

(** ** What the functions guarantee *)

(** C15. However source and destination overlap, [memmove] stays inside the two blocks
    and leaves at the destination what was at the source before the call. *)
Theorem memmove_overlap m dest src n :
  (dest + n <= length m)%nat -> (src + n <= length m)%nat ->
  memmove m dest src n = Some (take dest m ++ slice m src n ++ drop (dest + n) m).
Proof.
  intros Hd Hs. unfold memmove. destruct (Nat.leb_spec dest src).
  - destruct (memcpy_copied m dest src n) as (m' & -> & Hc); [lia..|]. f_equal. by apply copied_eq.
  - destruct (memmove_down_copied m dest src n) as (m' & -> & Hc); [lia..|]. f_equal. by apply copied_eq.
Qed.

Lemma memmove_overlap_witness : memmove [1; 2; 3; 4; 5; 6] 1 0 4 = Some [1; 1; 2; 3; 4; 6].
Proof. apply (memmove_overlap [1; 2; 3; 4; 5; 6] 1 0 4); cbn; lia. Defined.

(** C34. Building a string in a buffer of [size] bytes: [strlcpy] followed by [strlcat]
    leaves the longest prefix of the two sources together that fits with its NUL,
    writes nothing outside of the buffer, never stops at the [BUG_ON], and the result
    of [strlcat] is at least [size] exactly when something was cut off, provided the
    first string fits. *)
Theorem strlcpy_strlcat m buf size p s q t :
  (0 < size)%nat -> (buf + size <= length m)%nat -> at_str m p s -> at_str m q t ->
  apart buf size p (S (length s)) -> apart buf size q (S (length t)) ->
  exists m1 m2 r, strlcpy m buf p size = Some (length s, m1) /\ strlcat m1 buf q size = Some (r, m2) /\
    at_str m2 buf (take (size - 1) (take (size - 1) s ++ t)) /\ only_in m m2 buf size /\
    ((length s < size)%nat -> (size <= r)%nat <-> take (size - 1) (s ++ t) <> s ++ t).
Proof.
  intros Hz Hb Hs Ht Hap Haq. destruct (strlcpy_spec m buf p s size Hs Hz Hb Hap) as (m1 & E1 & Hd & Hl1 & Ho1).
  assert (at_str m1 q t) as Ht1.
  { apply (at_str_ext m); [|done]. intros i Hi. apply Ho1. unfold apart in Haq. lia. }
  destruct (strlcat_spec m1 buf _ q t size Hd Ht1) as (m2 & E2 & Hd2 & Hl2 & Ho2); [rewrite length_take; lia|lia|done|].
  exists m1, m2. eexists. split; [done|]. split; [done|]. split; [done|]. split.
  - split; [congruence|]. intros i Hi. by rewrite Ho2, Ho1.
  - intros Hlt. rewrite length_take. split.
    + intros Hr E%(f_equal length). rewrite length_take, length_app in E. lia.
    + intros Hne. apply Nat.le_ngt. intros Hc. apply Hne. rewrite take_ge; [done|]. rewrite length_app. lia.
Qed.

Lemma strlcpy_strlcat_witness :
  let m := [97; 98; 0; 99; 100; 0; 7; 7; 7; 7; 7] in
  exists m1 m2 r, strlcpy m 6 0 4 = Some (2%nat, m1) /\ strlcat m1 6 3 4 = Some (r, m2) /\ at_str m2 6 [97; 98; 99].
Proof.
  intros m. destruct (strlcpy_strlcat m 6 4 0 [97; 98] 3 [99; 100]) as (m1 & m2 & r & E1 & E2 & Hs & _).
  - lia.
  - cbn. lia.
  - cbn. by split_and!.
  - cbn. by split_and!.
  - unfold apart. cbn. lia.
  - unfold apart. cbn. lia.
  - exists m1, m2, r. split; [exact E1|]. split; [exact E2|exact Hs].
Defined.

(** [strcmp] orders strings as a dictionary of unsigned characters does, [strncmp]
    their prefixes of the given length; both return 0 for equal strings only. *)
Theorem strcmp_order m p s q t n :
  is_bytes m -> at_str m p s -> at_str m q t ->
  strcmp m p q = Some (lex s t) /\ strncmp m p q n = Some (lex (take n s) (take n t)) /\
  (strcmp m p q = Some 0 <-> s = t).
Proof.
  intros Hb Hs Ht. rewrite (strcmp_spec Hb p s q t), (strncmp_spec Hb n p s q t) by done. split_and!; [done..|].
  rewrite (inj_iff Some). apply lex_eq.
Qed.

Lemma strcmp_order_witness : strcmp [97; 200; 0; 97; 98; 0] 0 3 = Some 1.
Proof.
  refine (proj1 (strcmp_order _ 0 [97; 200] 3 [97; 98] 1 _ _ _)); [repeat constructor; lia|cbn; by split_and!..].
Defined.

(** [strstr] returns the first place where the second string occurs in the first,
    and NULL only when there is none; it reads nothing beyond the two strings' NULs. *)
Theorem strstr_first m p s q t :
  at_str m p s -> at_str m q t ->
  exists r, strstr m p q = Some r /\
    match r with
    | Some x => exists i, x = (p + i)%nat /\ (i + length t <= length s)%nat /\ take (length t) (drop i s) = t /\
                  (forall j, (j < i)%nat -> take (length t) (drop j s) <> t)
    | None => forall j, take (length t) (drop j s) <> t
    end.
Proof.
  intros Hs Ht. exists (Nat.add p <$> find_sub s t). split; [by apply strstr_spec|].
  destruct (find_sub s t) as [i|] eqn:E; cbn [fmap option_fmap option_map].
  - apply find_sub_some in E as (E1 & E2 & E3). exists i. split_and!; try done.
    pose proof (f_equal length E1) as El. rewrite length_take, length_drop in El. lia.
  - intros j. induction j as [j IH] using lt_wf_ind. intros Ej. destruct (decide (j <= length s)%nat) as [Hj|Hj].
    + rewrite (proj2 (find_sub_some s t j)) in E by done. done.
    + rewrite drop_ge, take_nil in Ej by lia. subst t. apply (IH 0%nat); [lia|done].
Qed.

Lemma strstr_first_witness : exists r, strstr [97; 98; 98; 99; 0; 98; 99; 0] 0 5 = Some r /\ r = Some 2%nat.
Proof.
  destruct (strstr_first [97; 98; 98; 99; 0; 98; 99; 0] 0 [97; 98; 98; 99] 5 [98; 99]) as (r & E & _); [cbn; by split_and!..|].
  exists r. split; [exact E|]. vm_compute in E. by injection E as <-.
Defined.

(** Pieces with separators between them. *)
Fixpoint weave (ts : list (list Z)) (seps : list Z) : list Z :=
  match ts, seps with
  | t :: ts, c :: seps => t ++ c :: weave ts seps
  | t :: _, [] => t
  | [], _ => []
  end.

Lemma split_weave f s :
  exists seps, Forall (fun c => f c = true) seps /\ S (length seps) = length (split_at f s) /\
    weave (split_at f s) seps = s /\ Forall (Forall (fun c => f c = false)) (split_at f s).
Proof.
  induction s as [|c s (seps & Hs & Hl & Hw & Hn)]; [exists []; by repeat constructor|]. cbn [split_at]. destruct (f c) eqn:E.
  - exists (c :: seps). split_and!; [by constructor|cbn; lia|cbn; by rewrite Hw|by constructor].
  - destruct (split_at f s) as [|t ts]; [cbn in Hl; lia|]. inversion Hn as [|? ? Ht Hts]; subst. exists seps. split_and!; [done|done| |].
    + destruct seps; cbn; done.
    + constructor; [by constructor|done].
Qed.

(** Calling [strsep] until it returns NULL cuts the string at every separator: the
    tokens are the maximal pieces without separators, empty ones included, and with
    the separators between them give the string back; nothing outside of the string
    is written and the set of separators is only read. *)
Theorem strsep_tokens m p s q a :
  at_str m p s -> at_str m q a -> apart p (S (length s)) q (S (length a)) ->
  exists ptrs tokens seps m', strsep_all (length s + 2) m (Some p) q = Some (ptrs, m') /\
    Forall2 (at_str m') ptrs tokens /\ weave tokens seps = s /\
    Forall (fun c => c ∈ a) seps /\ Forall (Forall (fun c => c ∉ a)) tokens /\ length tokens = S (length seps) /\
    only_in m m' p (length s).
Proof.
  intros Hs Ha Hap. destruct (strsep_all_spec (length s + 2) m p s q a Hs Ha Hap ltac:(lia)) as (ts & m' & E & Hts & Ho).
  destruct (split_weave (member a) s) as (seps & Hsep & Hl & Hw & Hn).
  exists ts, (split_at (member a) s), seps, m'. split_and!; try done.
  - eapply Forall_impl; [|exact Hsep]. intros c Hc. by apply bool_decide_eq_true in Hc.
  - eapply Forall_impl; [|exact Hn]. intros t Ht. eapply Forall_impl; [|exact Ht]. intros c Hc. by apply bool_decide_eq_false in Hc.
Qed.

Lemma strsep_tokens_witness :
  exists ptrs tokens seps m', strsep_all 6 [97; 44; 44; 98; 0; 44; 0] (Some 0%nat) 5 = Some (ptrs, m') /\
    Forall2 (at_str m') ptrs tokens /\ weave tokens seps = [97; 44; 44; 98].
Proof.
  destruct (strsep_tokens [97; 44; 44; 98; 0; 44; 0] 0 [97; 44; 44; 98] 5 [44]) as (ts & tk & sp & m' & E & H1 & H2 & _).
  - cbn. by split_and!.
  - cbn. by split_and!.
  - unfold apart. cbn. lia.
  - exists ts, tk, sp, m'. split; [exact E|]. split; [exact H1|exact H2].
Defined.

(** [sysfs_streq] accepts exactly equal strings and strings that differ by one
    newline at the end of one of them.  Two strings that both end in newlines are
    thus accepted with a different number of them. *)
Theorem sysfs_streq_exact m p s q t :
  at_str m p s -> at_str m q t ->
  exists b, sysfs_streq m p q = Some b /\ (b = true <-> s = t \/ t = s ++ [10] \/ s = t ++ [10]).
Proof. intros Hs Ht. eexists. split; [by apply sysfs_streq_spec|]. apply bool_decide_eq_true. Qed.

Lemma sysfs_streq_exact_witness : exists b, sysfs_streq [97; 10; 0; 97; 10; 10; 0] 0 3 = Some b /\ b = true.
Proof.
  destruct (sysfs_streq_exact [97; 10; 0; 97; 10; 10; 0] 0 [97; 10] 3 [97; 10; 10]) as (b & E & Hb); [cbn; by split_and!..|].
  exists b. split; [exact E|]. apply Hb. right. left. reflexivity.
Defined.

(** A length of 0 does not stop [strncasecmp]: the strings "A" and "B" differ. *)
Lemma strncasecmp_length_zero : @strncasecmp long32 [65; 0; 66; 0] 0 2 0 = Some (-1).
Proof. reflexivity. Qed.
