(* ===== verification/DspRing.v ===== *)
(** * Ring buffers of the DSP driver (drivers/char/dsp_dlna/ringbuffer.c)

    The byte rings between user space and the DSP, and the two transfer
    routines of dsp_core.c that use them ([dsp_buffer_write],
    [dsp_buffer_read]).  [data] is the storage the ring was initialised with; a
    [memcpy] outside it is a fault, [None].  The wait queue is left to its
    users: an operation that wakes it returns a flag.  Under the invariant [wf]
    the ring refines a bounded byte queue, [contents]. *)

From Stdlib Require Import ZArith Lia.
From stdpp Require Import base numbers list option relations.
From S2P Require Import Prelude.

Local Open Scope Z_scope.

Section DspRing.

Context `{LongWidth}.

(** ** The ring *)

Record dsp_ringbuffer := mk_ring {
  null : bool;        (* rbuf->data == NULL *)
  data : list Z;      (* the storage at rbuf->data *)
  size : Z;           (* ssize_t *)
  pread : Z;          (* ssize_t *)
  pwrite : Z;         (* ssize_t *)
  error : Z           (* int *)
}.

Definition set_pread (r : dsp_ringbuffer) (p : Z) : dsp_ringbuffer :=
  mk_ring (null r) (data r) (size r) p (pwrite r) (error r).
Definition set_pwrite (r : dsp_ringbuffer) (p : Z) : dsp_ringbuffer :=
  mk_ring (null r) (data r) (size r) (pread r) p (error r).
Definition set_data (r : dsp_ringbuffer) (d : list Z) : dsp_ringbuffer :=
  mk_ring (null r) d (size r) (pread r) (pwrite r) (error r).
Definition set_error (r : dsp_ringbuffer) (e : Z) : dsp_ringbuffer :=
  mk_ring (null r) (data r) (size r) (pread r) (pwrite r) e.

(** [n] bytes at [data + off], and a copy to there. *)
Definition rd (d : list Z) (off n : Z) : option (list Z) :=
  if (0 <=? off) && (off + n <=? zlen d) then Some (take (Z.to_nat n) (drop (Z.to_nat off) d)) else None.
Definition wr (d : list Z) (off : Z) (src : list Z) : option (list Z) :=
  if (0 <=? off) && (off + zlen src <=? zlen d) then Some (memcpy_at d off src) else None.

Definition dsp_ringbuffer_init (d : list Z) (len : Z) : dsp_ringbuffer := mk_ring false d (slong len) 0 0 0.

Definition dsp_ringbuffer_empty (r : dsp_ringbuffer) : bool := pread r =? pwrite r.

Definition dsp_ringbuffer_free (r : dsp_ringbuffer) : Z :=
  let free := slong (pread r - pwrite r) in
  let free := if free <=? 0 then slong (free + size r) else free in
  slong (free - 1).

Definition dsp_ringbuffer_avail (r : dsp_ringbuffer) : Z :=
  let avail := slong (pwrite r - pread r) in
  if avail <? 0 then slong (avail + size r) else avail.

Definition dsp_ringbuffer_flush (r : dsp_ringbuffer) : dsp_ringbuffer := set_error (set_pread r (pwrite r)) 0.

Definition dsp_ringbuffer_reset (r : dsp_ringbuffer) : dsp_ringbuffer :=
  set_error (set_pread (set_pwrite r 0) 0) 0.

(** The flag: [wake_up(&rbuf->queue)] was called. *)
Definition dsp_ringbuffer_flush_spinlock_wakeup (r : dsp_ringbuffer) : dsp_ringbuffer * bool :=
  (dsp_ringbuffer_flush r, true).

(** [size_t split] of the three copy routines, at the index [p]. *)
Definition split_at (r : dsp_ringbuffer) (p len : Z) : Z :=
  if ulong (size r) <? ulong (p + len) then ulong (size r - p) else 0.

(** [room] is the number of user bytes at [buf] that can be written;
    [copy_to_user] fails when it is less than what is to be copied.  The bytes
    that reached user space are returned in both cases. *)
Definition put_user (room : Z) (bytes : list Z) : bool * list Z :=
  (room <? zlen bytes, take (Z.to_nat room) bytes).

Definition dsp_ringbuffer_read_user (r : dsp_ringbuffer) (room len : Z) : option (Z * list Z * dsp_ringbuffer) :=
  let todo := len in
  let split := split_at r (pread r) len in
  let second (r : dsp_ringbuffer) (done : list Z) (room todo : Z) :=
    b ← rd (data r) (pread r) todo;
    let '(fault, put) := put_user room b in
    if fault then Some (- EFAULT, done ++ put, r)
    else Some (slong len, done ++ put, set_pread r (slong (ulong (pread r + todo) mod ulong (size r)))) in
  if 0 <? split then
    b ← rd (data r) (pread r) split;
    let '(fault, put) := put_user room b in
    if fault then Some (- EFAULT, put, r)
    else second (set_pread r 0) put (room - split) (ulong (todo - split))
  else second r [] room todo.

Definition dsp_ringbuffer_read (r : dsp_ringbuffer) (len : Z) : option (list Z * dsp_ringbuffer) :=
  let todo := len in
  let split := split_at r (pread r) len in
  let second (r : dsp_ringbuffer) (done : list Z) (todo : Z) :=
    b ← rd (data r) (pread r) todo;
    Some (done ++ b, set_pread r (slong (ulong (pread r + todo) mod ulong (size r)))) in
  if 0 <? split then
    b ← rd (data r) (pread r) split;
    second (set_pread r 0) b (ulong (todo - split))
  else second r [] todo.

(** [buf] is the memory at the source pointer: its first [len] bytes are copied. *)
Definition dsp_ringbuffer_write (r : dsp_ringbuffer) (buf : list Z) (len : Z) : option (Z * dsp_ringbuffer) :=
  let todo := len in
  let split := split_at r (pwrite r) len in
  let second (r : dsp_ringbuffer) (buf : list Z) (todo : Z) :=
    b ← rd buf 0 todo;
    d ← wr (data r) (pwrite r) b;
    Some (slong len, set_pwrite (set_data r d) (slong (ulong (pwrite r + todo) mod ulong (size r)))) in
  if 0 <? split then
    b ← rd buf 0 split;
    d ← wr (data r) (pwrite r) b;
    second (set_pwrite (set_data r d) 0) (drop (Z.to_nat split) buf) (ulong (todo - split))
  else second r buf todo.

(** The two macros of ringbuffer.h. *)
Definition DSP_RINGBUFFER_SKIP (r : dsp_ringbuffer) (num : Z) : dsp_ringbuffer :=
  set_pread r (Z.rem (pread r + num) (size r)).
Definition DSP_RINGBUFFER_WRITE_BYTE (r : dsp_ringbuffer) (byte : Z) : option dsp_ringbuffer :=
  d ← wr (data r) (pwrite r) [byte];
  Some (set_pwrite (set_data r d) (Z.rem (pwrite r + 1) (size r))).

Definition dsp_set_ringbuffer_rptr (r : dsp_ringbuffer) (len : Z) : dsp_ringbuffer :=
  let todo := len in
  let split := if s32 (ulong (pread r - len)) <? 0 then s32 (pread r) else 0 in
  let '(r, todo) := if 0 <? split then (set_pread r (size r), ulong (todo - split)) else (r, todo) in
  set_pread r (slong (pread r - todo)).

Definition dsp_increase_ringbuf_rptr (r : dsp_ringbuffer) (len : Z) : dsp_ringbuffer :=
  let todo := len in
  let split := if ulong (size r) <=? ulong (pread r + len) then s32 (size r - pread r) else 0 in
  let '(r, todo) := if 0 <? split then (set_pread r 0, ulong (todo - split)) else (r, todo) in
  set_pread r (slong (pread r + todo)).

Definition dsp_increase_ringbuf_wptr (r : dsp_ringbuffer) (len : Z) : dsp_ringbuffer :=
  let todo := len in
  let split := if ulong (size r) <=? ulong (pwrite r + len) then s32 (size r - pwrite r) else 0 in
  let '(r, todo) := if 0 <? split then (set_pwrite r 0, ulong (todo - split)) else (r, todo) in
  set_pwrite r (slong (pwrite r + todo)).

(** ** Transfers between user space and the rings (dsp_core.c) *)

Definition EWOULDBLOCK : Z := EAGAIN.
Definition EOVERFLOW : Z := 75.

Definition dsp_buffer_write (r : dsp_ringbuffer) (src : list Z) (len : Z) : option (Z * dsp_ringbuffer) :=
  if len =? 0 then Some (0, r) else
  if null r then Some (0, r) else
  let free := dsp_ringbuffer_free r in
  if ulong free <? len then Some (- EOVERFLOW, r) else
  '(n, r) ← dsp_ringbuffer_write r src len;
  Some (s32 n, r).

(** [wait] is the outcome of [wait_event_interruptible_timeout]: its result and
    the ring when it returns, which the DSP may have filled meanwhile.  The loop
    of the code runs at most once.  The result carries the bytes that reached
    user space. *)
Definition dsp_buffer_read (r : dsp_ringbuffer) (non_blocking : bool) (wait : Z * dsp_ringbuffer) (room count : Z) :
    option (Z * list Z * dsp_ringbuffer) :=
  if null r then Some (0, [], r) else
  if negb (error r =? 0) then Some (error r, [], dsp_ringbuffer_flush r) else
  if count =? 0 then Some (0, [], r) else
  if non_blocking && dsp_ringbuffer_empty r then Some (- EWOULDBLOCK, [], r) else
  let '(ret, r) := wait in
  if ret <? 0 then Some (ret, [], r) else
  if negb (error r =? 0) then Some (0, [], dsp_ringbuffer_flush r) else
  let avail := dsp_ringbuffer_avail r in
  let avail := if count <? ulong avail then slong count else avail in
  dsp_ringbuffer_read_user r room (ulong avail).

(** ** The DSP command queue (dsp_core.c, task.c) *)

Definition DSP_MMAP_AREA1_OFFSET : Z := 0x8000000.
Definition MIPS_DSP_OUT_SIZE : Z := 0x100000.
(** With [CONFIG_MIPS_SILAN_DLNA], as in the configurations of the csky boards. *)
Definition DSP_R_RINGBUFFER_SIZE : Z := 0x10.
Definition DSP_W_RINGBUFFER_SIZE : Z := 0x8.

(** The part of [struct dspdev_filter] the asynchronous path uses; [wdata] and
    [rdata] are the offsets of the two ring storages from [bufstart]. *)
Record dspdev_filter := mk_filter {
  rbuffer : dsp_ringbuffer;
  wbuffer : dsp_ringbuffer;
  taskid : Z;
  frame_sync : Z;
  update : Z;
  wdata : Z;
  rdata : Z
}.

(** A [MBOX_CMD_BKSEND_ASYNC] command: [struct mbcmd] with its [io] arm. *)
Record bksend := mk_bksend {
  bk_taskid : Z;
  in_data : Z; in_addr : Z; in_bufsize : Z; in_size : Z;
  out_data : Z; out_addr : Z; out_bufsize : Z; out_size : Z
}.

(** [dspdev_info_t]: the filters, the list of filters with work (by index, head
    first), and the commands that reached the DSP's mailbox, oldest first. *)
Record dspdev_info := mk_info {
  filter : list dspdev_filter;
  queue : list nat;
  sent : list bksend
}.

Definition with_rings (f : dspdev_filter) (rb wb : dsp_ringbuffer) : dspdev_filter :=
  mk_filter rb wb (taskid f) (frame_sync f) (update f) (wdata f) (rdata f).
Definition set_update (f : dspdev_filter) (u : Z) : dspdev_filter :=
  mk_filter (rbuffer f) (wbuffer f) (taskid f) (frame_sync f) u (wdata f) (rdata f).
Definition put_filter (i : nat) (f : dspdev_filter) (d : dspdev_info) : dspdev_info :=
  mk_info (<[i := f]> (filter d)) (queue d) (sent d).

Definition dsp_aud_valid_frame (r : dsp_ringbuffer) : bool := true.

Definition dsp_get_packet_len (r : dsp_ringbuffer) (flag : Z) : Z :=
  if flag =? 1 then s32 (dsp_ringbuffer_avail r) else 0.

(** [full]: the mailbox stayed full for the 1000 polls of [__mbox_msg_send],
    whose result the caller drops. *)
Definition dsp_send_cmd_async (full : bool) (d : dspdev_info) (i : nat) : dspdev_info :=
  match filter d !! i with
  | None => d
  | Some f =>
      let packet_size := dsp_get_packet_len (wbuffer f) (s32 (frame_sync f)) in
      if packet_size =? 0 then d else
      let ind := u32 (DSP_MMAP_AREA1_OFFSET + wdata f) in
      let outd := u32 (DSP_MMAP_AREA1_OFFSET + rdata f) in
      let cmd := mk_bksend (taskid f) ind (u32 (ind + pread (wbuffer f))) DSP_W_RINGBUFFER_SIZE (u32 packet_size)
                   outd (u32 (outd + pwrite (rbuffer f))) DSP_R_RINGBUFFER_SIZE MIPS_DSP_OUT_SIZE in
      if full then d else mk_info (filter d) (queue d) (sent d ++ [cmd])
  end.

Definition dsp_rbuffer_update (r : dsp_ringbuffer) (out_pcm_size : Z) : dsp_ringbuffer :=
  if negb (out_pcm_size =? 0) then dsp_increase_ringbuf_wptr r out_pcm_size
  else set_error r 1.

(** [silan_dsp_write] on filter [i], with [dspdev_info->mutex] held throughout. *)
Definition silan_dsp_write (full : bool) (d : dspdev_info) (i : nat) (buf : list Z) (count : Z) :
    option (Z * dspdev_info) :=
  f ← filter d !! i;
  '(ret, wb) ← dsp_buffer_write (wbuffer f) buf count;
  let f := with_rings f (rbuffer f) wb in
  if dsp_aud_valid_frame wb then
    let d := put_filter i (set_update f (frame_sync f)) d in
    match queue d with
    | [] =>
        let d := dsp_send_cmd_async full d i in
        let d := put_filter i (set_update f 0) d in
        Some (ret, mk_info (filter d) (queue d ++ [i]) (sent d))
    | _ =>
        if bool_decide (i ∈ queue d) then Some (ret, d)
        else Some (ret, mk_info (filter d) (queue d ++ [i]) (sent d))
    end
  else Some (ret, put_filter i f d).

(** The DSP's answer to a command: [errno], [used_size] and [out_pcm_size]. *)
Definition mbox_send_async (full : bool) (d : dspdev_info) (errno used_size out_pcm_size : Z) : dspdev_info :=
  match queue d with
  | [] => d
  | i :: rest =>
      match filter d !! i with
      | None => d
      | Some f =>
          let wb := if negb (errno =? 0) then set_pread (set_pwrite (wbuffer f) 0) 0
                    else dsp_increase_ringbuf_rptr (wbuffer f) used_size in
          let f := with_rings f (dsp_rbuffer_update (rbuffer f) out_pcm_size) wb in
          let d := put_filter i f d in
          if negb (update f =? 0) then
            let d := dsp_send_cmd_async full d i in
            put_filter i (set_update f 0) d
          else
            let d := mk_info (filter d) rest (sent d) in
            match rest with
            | [] => d
            | j :: _ =>
                match filter d !! j with
                | None => d
                | Some g =>
                    let d := dsp_send_cmd_async full d j in
                    put_filter j (set_update g 0) d
                end
            end
      end
  end.

(** ** The ring as a byte queue *)

(** The [k] cells from index [p] on, around the end of the storage. *)
Definition cells (d : list Z) (n p k : Z) : list Z := (fun i => znth d ((p + i) mod n)) <$> seqZ 0 k.

Definition contents (r : dsp_ringbuffer) : list Z :=
  cells (data r) (size r) (pread r) (dsp_ringbuffer_avail r).

Definition wf (r : dsp_ringbuffer) : Prop :=
  null r = false /\ 0 < size r < 2 ^ 31 /\ zlen (data r) = size r /\
  0 <= pread r < size r /\ 0 <= pwrite r < size r.

(** The invariant of an explicit ring, from that of the one it was made from. *)
Ltac wf_tac :=
  unfold wf in *;
  cbn [dsp_ringbuffer_flush dsp_ringbuffer_reset set_pread set_pwrite set_data set_error null data size pread pwrite] in *;
  repeat match goal with H : _ /\ _ |- _ => destruct H end; repeat split; done || lia.

Lemma length_cells d n p k : 0 <= k -> zlen (cells d n p k) = k.
Proof. intros. unfold cells. rewrite length_fmap, length_seqZ. lia. Qed.

Lemma znth_cells d n p k i : 0 <= i < k -> znth (cells d n p k) i = znth d ((p + i) mod n).
Proof.
  intros Hi. apply znth_lookup. unfold cells. rewrite list_lookup_fmap, lookup_seqZ_lt by lia.
  cbn. do 3 f_equal. lia.
Qed.

Lemma cells_eq d n p k l :
  zlen l = k -> (forall i, 0 <= i < k -> znth d ((p + i) mod n) = znth l i) -> cells d n p k = l.
Proof.
  intros Hl Hi. apply list_eq_znth; [pose proof (length_cells d n p k); lia|].
  intros i. rewrite length_cells by lia. intros Hik. rewrite znth_cells by done. by apply Hi.
Qed.

Lemma cells_app d n p j k : 0 <= j -> 0 <= k -> cells d n p (j + k) = cells d n p j ++ cells d n (p + j) k.
Proof.
  intros Hj Hk. apply cells_eq.
  - rewrite length_app, Nat2Z.inj_add, !length_cells by lia. done.
  - intros i Hi. destruct (decide (i < j)).
    + rewrite znth_app_l by (rewrite length_cells; lia). by rewrite znth_cells by lia.
    + rewrite znth_app_r, length_cells by (rewrite ?length_cells; lia). rewrite znth_cells by lia.
      do 2 f_equal. lia.
Qed.

Lemma cells_mod d n p k : cells d n (p mod n) k = cells d n p k.
Proof. unfold cells. apply list_fmap_ext. intros. by rewrite Zplus_mod_idemp_l. Qed.

Lemma cells_wrap d n p k : n <> 0 -> cells d n (n + p) k = cells d n p k.
Proof.
  intros Hn. rewrite <- cells_mod, <- (cells_mod d n p). f_equal.
  replace (n + p) with (p + 1 * n) by lia. by apply Z_mod_plus_full.
Qed.

Lemma cells_slice d n p k :
  zlen d = n -> 0 <= p -> 0 <= k -> p + k <= n -> take (Z.to_nat k) (drop (Z.to_nat p) d) = cells d n p k.
Proof.
  intros Hd Hp Hk Hn. symmetry. apply cells_eq; [rewrite length_take, length_drop; lia|].
  intros i Hi. rewrite znth_take, znth_drop by lia. rewrite Z.mod_small by lia. f_equal. lia.
Qed.

Lemma rd_some d p k : 0 <= p -> 0 <= k -> p + k <= zlen d -> rd d p k = Some (cells d (zlen d) p k).
Proof.
  intros. unfold rd. destruct (Z.leb_spec 0 p), (Z.leb_spec (p + k) (zlen d)); cbn [andb]; try lia.
  by rewrite (cells_slice d (zlen d)).
Qed.

Lemma wr_some d p src : 0 <= p -> p + zlen src <= zlen d -> wr d p src = Some (memcpy_at d p src).
Proof. intros. unfold wr. destruct (Z.leb_spec 0 p), (Z.leb_spec (p + zlen src) (zlen d)); cbn; lia || done. Qed.

Lemma avail_eq r : wf r -> dsp_ringbuffer_avail r = (pwrite r - pread r) mod size r.
Proof.
  intros (_ & Hs & _ & Hr & Hw). unfold dsp_ringbuffer_avail. rewrite (slong_small (pwrite r - pread r)) by lia.
  destr_if; [rewrite slong_small by lia|].
  - rewrite <- (Z_mod_plus_full _ 1), Z.mod_small; lia.
  - by rewrite Z.mod_small by lia.
Qed.

Lemma avail_range r : wf r -> 0 <= dsp_ringbuffer_avail r < size r.
Proof. intros Hw. rewrite avail_eq by done. apply Z.mod_pos_bound, Hw. Qed.

Lemma free_eq r : wf r -> dsp_ringbuffer_free r = size r - 1 - dsp_ringbuffer_avail r.
Proof.
  intros (_ & Hs & _ & Hr & Hw). unfold dsp_ringbuffer_free, dsp_ringbuffer_avail.
  rewrite (slong_small (pread r - pwrite r)), (slong_small (pwrite r - pread r)) by lia.
  repeat destr_if; rewrite ?(slong_small (_ + size r)) by lia; rewrite slong_small by lia; lia.
Qed.

Lemma ring_length r : wf r -> zlen (contents r) = dsp_ringbuffer_avail r.
Proof. intros Hw. pose proof (avail_range r Hw). apply length_cells. lia. Qed.

Lemma split_eq r p len :
  wf r -> 0 <= p < size r -> 0 <= len <= size r ->
  split_at r p len = if size r <? p + len then size r - p else 0.
Proof. intros (_ & Hs & _) Hp Hl. unfold split_at. by rewrite !ulong_small by lia. Qed.

(** The value the copy routines store in an index. *)
Lemma wrap_index n p k :
  0 < n < 2 ^ 31 -> 0 <= p -> 0 <= k -> p + k <= n -> slong (ulong (p + k) mod ulong n) = (p + k) mod n.
Proof.
  intros Hn Hp Hk Hpk. rewrite !ulong_small by lia. apply slong_small.
  pose proof (Z.mod_pos_bound (p + k) n). lia.
Qed.

Lemma index_past n p k : 0 < n -> n <= p + k < 2 * n -> (p + k) mod n = p + k - n.
Proof. intros. rewrite <- (Z_mod_plus_full _ (-1)), Z.mod_small; lia. Qed.

Lemma cells_split d n p k :
  0 < n -> 0 <= p < n -> n <= p + k -> cells d n p k = cells d n p (n - p) ++ cells d n 0 (k - (n - p)).
Proof.
  intros Hn Hp Hk. replace k with ((n - p) + (k - (n - p))) at 1 by lia. rewrite cells_app by lia.
  f_equal. replace (p + (n - p)) with (n + 0) by lia. apply cells_wrap. lia.
Qed.

Lemma read_eq r len :
  wf r -> 0 <= len <= size r ->
  dsp_ringbuffer_read r len =
    Some (cells (data r) (size r) (pread r) len, set_pread r ((pread r + len) mod size r)).
Proof.
  intros Hw Hl. pose proof Hw as (_ & Hs & Hd & Hr & _). unfold dsp_ringbuffer_read.
  rewrite split_eq by done. cbn [set_pread data size pread].
  destruct (Z.ltb_spec (size r) (pread r + len)); destr_if; try lia; rewrite (rd_some _ (pread r)) by lia; cbn [mbind option_bind].
  - rewrite (ulong_small (len - _)) by lia. rewrite rd_some by lia. cbn [mbind option_bind].
    rewrite wrap_index by lia. rewrite Hd, <- cells_split by lia. unfold set_pread. cbn.
    rewrite (index_past _ (pread r)), Z.mod_small by lia. do 3 f_equal. lia.
  - by rewrite wrap_index, Hd by lia.
Qed.

(** A partial copy to user space: the bytes that fit arrive, and the ring has
    lost the bytes before the end of its storage if they all arrived. *)
Lemma read_user_eq r room len :
  wf r -> 0 <= len <= size r -> 0 <= room ->
  dsp_ringbuffer_read_user r room len =
    let bytes := cells (data r) (size r) (pread r) len in
    if room <? len then
      Some (- EFAULT, take (Z.to_nat room) bytes,
            if (size r <? pread r + len) && (size r - pread r <=? room) then set_pread r 0 else r)
    else Some (len, bytes, set_pread r ((pread r + len) mod size r)).
Proof.
  intros Hw Hl Hroom. pose proof Hw as (_ & Hs & Hd & Hr & _). unfold dsp_ringbuffer_read_user, put_user.
  rewrite split_eq by done. cbn [set_pread data size pread].
  destruct (Z.ltb_spec (size r) (pread r + len)) as [Hov|Hov]; destruct (Z.ltb_spec 0 (size r - pread r)); try lia;
    cbn [andb]; try (destruct (Z.ltb_spec 0 0); [lia|]).
  - rewrite (rd_some _ (pread r)) by lia. cbn [mbind option_bind]. rewrite Hd, length_cells by lia.
    rewrite (ulong_small (len - _)) by lia. rewrite (cells_split _ _ _ len) by lia.
    set (b1 := cells _ _ _ (_ - _)). assert (zlen b1 = size r - pread r) as Hb1 by (apply length_cells; lia).
    destruct (Z.ltb_spec room (size r - pread r)).
    + destruct (Z.ltb_spec room len), (Z.leb_spec (size r - pread r) room); try lia.
      by rewrite take_app_le by lia.
    + rewrite rd_some by lia. cbn [mbind option_bind]. rewrite Hd, length_cells by lia.
      destruct (Z.leb_spec (size r - pread r) room); [|lia].
      rewrite (take_ge b1) by lia. replace (Z.to_nat room) with (length b1 + Z.to_nat (room - (size r - pread r)))%nat by lia.
      rewrite take_app_add.
      destruct (Z.ltb_spec room len), (Z.ltb_spec (room - (size r - pread r)) (len - (size r - pread r))); try lia; [done|].
      rewrite take_ge, slong_small by (pose proof (length_cells (data r) (size r) 0 (len - (size r - pread r))); lia).
      rewrite wrap_index, (index_past _ (pread r)), Z.mod_small by lia. unfold set_pread; cbn. do 3 f_equal. lia.
  - rewrite rd_some by lia. cbn [mbind option_bind]. rewrite Hd, length_cells by lia. cbn [app].
    destruct (Z.ltb_spec room len); [done|].
    by rewrite take_ge, slong_small, wrap_index by (try pose proof (length_cells (data r) (size r) (pread r) len); lia).
Qed.

(** What a write of [len] bytes at the index [p] does to the storage. *)
Definition stored (d d' : list Z) (n p len : Z) (src : list Z) : Prop :=
  zlen d' = n /\ (forall i, 0 <= i < len -> znth d' ((p + i) mod n) = znth src i) /\
  (forall j, 0 <= j < n -> len <= (j - p) mod n -> znth d' j = znth d j).

Lemma rd_take buf k : 0 <= k <= zlen buf -> rd buf 0 k = Some (take (Z.to_nat k) buf).
Proof. intros. unfold rd. destruct (Z.leb_spec (0 + k) (zlen buf)); [done|lia]. Qed.

Lemma stored_cast k len d d' n p src : k = len -> stored d d' n p k src -> stored d d' n p len src.
Proof. by intros ->. Qed.

Lemma stored_memcpy d n p src :
  zlen d = n -> 0 <= p -> p + zlen src <= n -> 0 < n -> stored d (memcpy_at d p src) n p (zlen src) src.
Proof.
  intros Hd Hp Hn Hpos. split; [rewrite zlen_memcpy_at; lia|]. split.
  - intros i Hi. rewrite Z.mod_small by lia. rewrite znth_memcpy_at by lia.
    destruct (Z.leb_spec p (p + i)), (Z.ltb_spec (p + i) (p + zlen src)); cbn; try lia. f_equal. lia.
  - intros j Hj Hfar. rewrite znth_memcpy_at by lia.
    destruct (Z.leb_spec p j), (Z.ltb_spec j (p + zlen src)); cbn; try done. rewrite Z.mod_small in Hfar; lia.
Qed.

(** A write that wraps is a write up to the end and one at the start. *)
Lemma stored_app d d1 d2 n p src1 src2 :
  0 <= p < n -> p + zlen src1 = n -> zlen src1 + zlen src2 <= n ->
  stored d d1 n p (zlen src1) src1 -> stored d1 d2 n 0 (zlen src2) src2 ->
  stored d d2 n p (zlen src1 + zlen src2) (src1 ++ src2).
Proof.
  intros Hp Hend Hsum (Hl1 & Hw1 & Ho1) (Hl2 & Hw2 & Ho2). split; [done|]. split.
  - intros i Hi. destruct (decide (i < zlen src1)).
    + rewrite znth_app_l, <- Hw1 by lia. rewrite Z.mod_small by lia. apply Ho2; [lia|].
      rewrite Z.mod_small by lia. lia.
    + rewrite znth_app_r, <- Hw2, index_past, Z.mod_small by lia. f_equal. lia.
  - intros j Hj Hfar. assert (zlen src1 + zlen src2 <= j + zlen src1) as Hj2.
    { destruct (decide (j < p)); [|rewrite Z.mod_small in Hfar; lia].
      rewrite <- (Z_mod_plus_full _ 1), Z.mod_small in Hfar; lia. }
    rewrite Ho2 by (rewrite ?Z.mod_small; lia). apply Ho1; lia.
Qed.

Lemma write_eq r buf len :
  wf r -> 0 <= len <= size r -> len <= zlen buf ->
  exists d', dsp_ringbuffer_write r buf len =
               Some (len, set_pwrite (set_data r d') ((pwrite r + len) mod size r)) /\
             stored (data r) d' (size r) (pwrite r) len (take (Z.to_nat len) buf).
Proof.
  intros Hw Hl Hbuf. pose proof Hw as (_ & Hs & Hd & _ & Hp). unfold dsp_ringbuffer_write.
  rewrite split_eq by done. cbn [set_pwrite set_data data size pwrite].
  rewrite (slong_small len) by lia.
  destruct (Z.ltb_spec (size r) (pwrite r + len)) as [Hov|Hov].
  - set (s := size r - pwrite r). destruct (Z.ltb_spec 0 s); [|lia]. rewrite (ulong_small (len - s)) by lia.
    assert (length (take (Z.to_nat s) buf) = Z.to_nat s) as H1 by (rewrite length_take; lia).
    assert (length (take (Z.to_nat (len - s)) (drop (Z.to_nat s) buf)) = Z.to_nat (len - s)) as H2
      by (rewrite length_take, length_drop; lia).
    rewrite (rd_take buf) by lia. cbn [mbind option_bind]. rewrite wr_some by lia. cbn [mbind option_bind].
    rewrite rd_take by (rewrite length_drop; lia). cbn [mbind option_bind].
    rewrite wr_some by (rewrite ?zlen_memcpy_at; lia). cbn [mbind option_bind].
    eexists. split; [rewrite wrap_index by lia; unfold set_pwrite, set_data; cbn;
      rewrite (index_past _ (pwrite r)), Z.mod_small by lia; do 4 f_equal; lia|].
    replace (take (Z.to_nat len) buf) with (take (Z.to_nat s) buf ++ take (Z.to_nat (len - s)) (drop (Z.to_nat s) buf))
      by (rewrite take_take_drop; f_equal; lia).
    eapply (stored_cast (zlen (take (Z.to_nat s) buf) + zlen (take (Z.to_nat (len - s)) (drop (Z.to_nat s) buf)))); [lia|].
    eapply stored_app; [lia|lia|lia| |]; apply stored_memcpy; rewrite ?zlen_memcpy_at; lia.
  - destruct (Z.ltb_spec 0 0); [lia|].
    assert (length (take (Z.to_nat len) buf) = Z.to_nat len) as H1 by (rewrite length_take; lia).
    rewrite rd_take by lia. cbn [mbind option_bind]. rewrite wr_some by lia. cbn [mbind option_bind].
    eexists. split; [by rewrite wrap_index by lia|].
    eapply (stored_cast (zlen (take (Z.to_nat len) buf))); [lia|]. apply stored_memcpy; lia.
Qed.

Lemma wf_set_pread r p : wf r -> 0 <= p < size r -> wf (set_pread r p).
Proof. intros. wf_tac. Qed.

Lemma wf_set_pwrite r p : wf r -> 0 <= p < size r -> wf (set_pwrite r p).
Proof. intros. wf_tac. Qed.

Lemma wf_set_data r d : wf r -> zlen d = size r -> wf (set_data r d).
Proof. intros. wf_tac. Qed.

(** Moving the read index by [len] drops [len] bytes of the queue. *)
Lemma contents_advance r len :
  wf r -> 0 <= len <= dsp_ringbuffer_avail r ->
  let r' := set_pread r ((pread r + len) mod size r) in
  wf r' /\ contents r' = drop (Z.to_nat len) (contents r) /\
  cells (data r) (size r) (pread r) len = take (Z.to_nat len) (contents r).
Proof.
  intros Hw Hl r'. pose proof (avail_range r Hw) as Ha. assert (wf r') as Hw'.
  { apply wf_set_pread; [done|]. apply Z.mod_pos_bound, Hw. }
  assert (dsp_ringbuffer_avail r' = dsp_ringbuffer_avail r - len) as Ha'.
  { rewrite (avail_eq r') by done. cbn. rewrite Zminus_mod_idemp_r.
    rewrite avail_eq in * by done. rewrite <- (Z.mod_small (_ - len) (size r)) by lia.
    rewrite Zminus_mod_idemp_l. f_equal. lia. }
  assert (contents r = cells (data r) (size r) (pread r) len ++ contents r') as E.
  { unfold contents. rewrite Ha'. subst r'; cbn [set_pread data size pread]. rewrite cells_mod, <- cells_app by lia.
    f_equal. lia. }
  assert (length (cells (data r) (size r) (pread r) len) = Z.to_nat len) as Hlen
    by (pose proof (length_cells (data r) (size r) (pread r) len); lia).
  split; [done|]. rewrite E, drop_app_length', take_app_length' by done. done.
Qed.

(** Bytes stored at the write index, which then moves past them, are appended. *)
Lemma contents_append r d' src :
  wf r -> zlen src <= dsp_ringbuffer_free r -> stored (data r) d' (size r) (pwrite r) (zlen src) src ->
  let r' := set_pwrite (set_data r d') ((pwrite r + zlen src) mod size r) in
  wf r' /\ contents r' = contents r ++ src.
Proof.
  intros Hw Hf (Hd' & Hin & Hout) r'. pose proof (avail_range r Hw) as Ha. rewrite free_eq in Hf by done.
  pose proof Hw as (Hn & Hs & Hd & Hr & Hp).
  assert (wf r') as Hw'.
  { apply wf_set_pwrite; [by apply wf_set_data|]. cbn. apply Z.mod_pos_bound. lia. }
  assert (dsp_ringbuffer_avail r' = dsp_ringbuffer_avail r + zlen src) as Ha'.
  { rewrite (avail_eq r') by done. cbn. rewrite Zminus_mod_idemp_l.
    rewrite <- (Z.mod_small (dsp_ringbuffer_avail r + zlen src) (size r)), (avail_eq r) by done || lia.
    rewrite Zplus_mod_idemp_l. f_equal. lia. }
  assert ((pread r + dsp_ringbuffer_avail r) mod size r = pwrite r) as Hend.
  { rewrite avail_eq by done. rewrite Zplus_mod_idemp_r, Z.mod_small; lia. }
  split; [done|]. unfold contents at 1. rewrite Ha'. subst r'; cbn [set_pwrite set_data data size pread].
  rewrite cells_app by lia. f_equal.
  - apply cells_eq; [by rewrite ring_length|]. intros i Hi. unfold contents. rewrite znth_cells by done.
    apply Hout; [apply Z.mod_pos_bound; lia|]. rewrite <- Hend, <- Zminus_mod.
    replace (pread r + i - (pread r + dsp_ringbuffer_avail r)) with (i - dsp_ringbuffer_avail r) by lia.
    rewrite <- (Z_mod_plus_full _ 1), Z.mod_small; lia.
  - rewrite <- cells_mod, Hend. apply cells_eq; [done|]. intros i Hi. by apply Hin.
Qed.

Lemma contents_empty r : wf r -> pread r = pwrite r -> contents r = [].
Proof.
  intros Hw E. unfold contents. rewrite avail_eq by done. rewrite E, Z.sub_diag, Z.mod_0_l; [done|].
  destruct Hw as (_ & ? & _). lia.
Qed.

Lemma empty_eq r : wf r -> dsp_ringbuffer_empty r = true <-> contents r = [].
Proof.
  intros Hw. unfold dsp_ringbuffer_empty. rewrite Z.eqb_eq. split; [by apply contents_empty|].
  intros E. pose proof (ring_length r Hw) as Hl. rewrite E, avail_eq in Hl by done. cbn in Hl.
  destruct Hw as (_ & Hs & _ & Hr & Hp). destruct (decide (pwrite r < pread r)).
  - rewrite <- (Z_mod_plus_full _ 1), Z.mod_small in Hl; lia.
  - rewrite Z.mod_small in Hl; lia.
Qed.

Lemma flush_eq r : wf r -> wf (dsp_ringbuffer_flush r) /\ contents (dsp_ringbuffer_flush r) = [].
Proof.
  intros Hw. assert (wf (dsp_ringbuffer_flush r)) as Hf by wf_tac.
  split; [done|]. by apply contents_empty.
Qed.

Lemma reset_eq r : wf r -> wf (dsp_ringbuffer_reset r) /\ contents (dsp_ringbuffer_reset r) = [].
Proof.
  intros Hw. assert (wf (dsp_ringbuffer_reset r)) as Hf by wf_tac.
  split; [done|]. by apply contents_empty.
Qed.

Lemma init_eq d : 0 < zlen d < 2 ^ 31 -> wf (dsp_ringbuffer_init d (zlen d)) /\ contents (dsp_ringbuffer_init d (zlen d)) = [].
Proof.
  intros Hd. assert (wf (dsp_ringbuffer_init d (zlen d))) as Hw
    by (unfold wf, dsp_ringbuffer_init; cbn; rewrite slong_small by lia; lia).
  split; [done|]. by apply contents_empty.
Qed.

Lemma buffer_write_eq r buf len :
  wf r -> 0 <= len < 2 ^ 31 -> len <= zlen buf ->
  (dsp_ringbuffer_free r < len /\ dsp_buffer_write r buf len = Some (- EOVERFLOW, r)) \/
  (len <= dsp_ringbuffer_free r /\ exists r', dsp_buffer_write r buf len = Some (len, r') /\
     wf r' /\ contents r' = contents r ++ take (Z.to_nat len) buf /\
     size r' = size r /\ pread r' = pread r /\ error r' = error r).
Proof.
  intros Hw Hl Hb. pose proof (avail_range r Hw) as Ha. pose proof (free_eq r Hw) as Hf.
  pose proof Hw as (Hn & Hs & _). unfold dsp_buffer_write. destruct (Z.eqb_spec len 0) as [-> |].
  { right. split; [lia|]. exists r. rewrite take_0, app_nil_r. done. }
  rewrite Hn, ulong_small by lia. destr_if; [by left|]. right. split; [lia|].
  destruct (write_eq r buf len) as (d' & -> & Hst); [done|lia|done|]. cbn [mbind option_bind].
  rewrite s32_small by lia. assert (zlen (take (Z.to_nat len) buf) = len) as Hlen by (rewrite length_take; lia).
  destruct (contents_append r d' (take (Z.to_nat len) buf)) as [Hw' Hc]; [done|lia|by rewrite Hlen|].
  rewrite Hlen in *. eexists. split; [done|]. split; [done|]. split; [done|]. done.
Qed.

(** C19. Between the calls of one reader and one writer the ring is a queue of
    at most [size - 1] bytes: [avail], [free] and [empty] report its length, a
    [dsp_buffer_write] appends its bytes or, when they do not fit, changes
    nothing and reports [-EOVERFLOW], a read of at most [avail] bytes removes and
    returns the oldest ones (also when it wraps around the end of the storage),
    and flush and reset empty it. *)
Theorem dsp_ring_refines_queue r buf len room :
  wf r -> 0 <= len < 2 ^ 31 ->
  let q := contents r in
  zlen q = dsp_ringbuffer_avail r /\ dsp_ringbuffer_free r = size r - 1 - zlen q /\
  (dsp_ringbuffer_empty r = true <-> q = []) /\
  (len <= zlen buf ->
   (dsp_ringbuffer_free r < len /\ dsp_buffer_write r buf len = Some (- EOVERFLOW, r)) \/
   (len <= dsp_ringbuffer_free r /\ exists r', dsp_buffer_write r buf len = Some (len, r') /\
     wf r' /\ contents r' = q ++ take (Z.to_nat len) buf /\
     size r' = size r /\ pread r' = pread r /\ error r' = error r)) /\
  (len <= zlen q -> exists r', wf r' /\ contents r' = drop (Z.to_nat len) q /\
     dsp_ringbuffer_read r len = Some (take (Z.to_nat len) q, r') /\
     (len <= room -> dsp_ringbuffer_read_user r room len = Some (len, take (Z.to_nat len) q, r'))) /\
  contents (dsp_ringbuffer_flush r) = [] /\ contents (dsp_ringbuffer_reset r) = [].
Proof.
  intros Hw Hl q. pose proof (ring_length r Hw) as Hq. pose proof (avail_range r Hw) as Ha.
  split; [done|]. split; [rewrite free_eq by done; subst q; lia|]. split; [by apply empty_eq|].
  split; [by apply buffer_write_eq|]. split; [|split; [by apply flush_eq|by apply reset_eq]].
  intros Hlen. assert (len <= dsp_ringbuffer_avail r) by (subst q; lia).
  destruct (contents_advance r len Hw) as (Hw' & Hc & Ht); [lia|].
  eexists. split; [exact Hw'|]. split; [exact Hc|]. rewrite read_eq by (done || lia). rewrite Ht. split; [done|].
  intros Hr. rewrite read_user_eq by (done || lia). cbn zeta. destr_if; [lia|]. by rewrite Ht.
Qed.

(** A read whose copy to user space faults reports [-EFAULT] and hands over
    the bytes that fitted.  The ring is unchanged, unless the data wrapped and
    the part before the end of the storage was copied: then those bytes are gone
    from the ring although the call failed. *)
Theorem dsp_read_user_fault r room len :
  wf r -> 0 <= room < len -> len <= dsp_ringbuffer_avail r ->
  exists r', dsp_ringbuffer_read_user r room len = Some (- EFAULT, take (Z.to_nat room) (contents r), r') /\
    contents r' = if (size r <? pread r + len) && (size r - pread r <=? room)
                  then drop (Z.to_nat (size r - pread r)) (contents r) else contents r.
Proof.
  intros Hw Hroom Hlen. pose proof (avail_range r Hw) as Ha. rewrite read_user_eq by (done || lia). cbn zeta.
  destruct (Z.ltb_spec room len); [|lia]. destruct (contents_advance r len Hw) as (_ & _ & ->); [lia|].
  eexists. split; [rewrite take_take; do 4 f_equal; lia|].
  destruct ((size r <? pread r + len) && (size r - pread r <=? room)) eqn:E; [|done].
  apply andb_prop in E as [E1 E2]. apply Z.ltb_lt in E1. apply Z.leb_le in E2.
  destruct Hw as (Hn & Hs & Hw). destruct (contents_advance r (size r - pread r)) as (_ & <- & _);
    [by split; [|split]|lia|]. unfold set_pread. do 2 f_equal.
  replace (pread r + (size r - pread r)) with (size r) by lia. by rewrite Z_mod_same_full.
Qed.

Lemma read_before_storage r k : pread r < 0 -> dsp_ringbuffer_read r k = None.
Proof.
  intros Hp. unfold dsp_ringbuffer_read, rd. destruct (Z.leb_spec 0 (pread r)); [lia|]. by destr_if.
Qed.

(** Where the read index goes when it is moved back. *)
Lemma set_rptr_eq r len :
  wf r -> 0 < len <= size r ->
  dsp_set_ringbuffer_rptr r len =
    set_pread r (if pread r =? 0 then - len else (pread r - len) mod size r).
Proof.
  intros (_ & Hs & _ & Hr & _) Hl. unfold dsp_set_ringbuffer_rptr.
  rewrite s32_ulong by lia. rewrite (s32_small (pread r)) by lia. destruct (Z.eqb_spec (pread r) 0) as [E|E].
  - rewrite E. destruct (Z.ltb_spec (0 - len) 0); [|lia]. cbn. unfold set_pread. f_equal. rewrite E. apply slong_small. lia.
  - destruct (Z.ltb_spec (pread r - len) 0); destruct (Z.ltb_spec 0 (pread r)); try lia; cbn;
      rewrite ?(ulong_small (len - _)) by lia; rewrite slong_small by lia; unfold set_pread; cbn; f_equal.
    + rewrite <- (Z_mod_plus_full _ 1), Z.mod_small; lia.
    + rewrite Z.mod_small; lia.
Qed.

(** Taking back the [len] bytes just read restores the ring, except when
    the read ended exactly at the end of the storage: then the read index is 0
    and becomes [- len], before the storage, and the next read faults. *)
Theorem dsp_set_rptr_rewinds r len b r1 k :
  wf r -> 0 < len <= dsp_ringbuffer_avail r -> dsp_ringbuffer_read r len = Some (b, r1) ->
  let r2 := dsp_set_ringbuffer_rptr r1 len in
  if pread r1 =? 0 then pread r2 = - len /\ dsp_ringbuffer_read r2 k = None else r2 = r.
Proof.
  intros Hw Hl. pose proof (avail_range r Hw) as Ha. destruct (contents_advance r len Hw) as [Hw1 _]; [lia|].
  rewrite read_eq by (done || lia). intros [= <- <-] r2. unfold r2. rewrite set_rptr_eq by (done || cbn; lia).
  destr_if; [by split; [|apply read_before_storage; cbn; lia]|].
  cbn [set_pread pread size]. rewrite Zminus_mod_idemp_l, Z.add_simpl_r, (Z.mod_small (pread r)) by apply Hw. by destruct r.
Qed.

(** ** The command queue *)

(** Writes by user space and answers of the DSP, interleaved; the second
    component counts the answers, of which the DSP gives one per command. *)
Inductive dsp_step : dspdev_info * nat -> dspdev_info * nat -> Prop :=
| step_write full i buf count ret d d' a :
    silan_dsp_write full d i buf count = Some (ret, d') -> dsp_step (d, a) (d', a)
| step_answer full errno used_size out_pcm_size d a :
    (a < length (sent d))%nat -> dsp_step (d, a) (mbox_send_async full d errno used_size out_pcm_size, S a).

(** The steps of a working session: writes that fit, a mailbox with room, and
    answers without an error that use no more than the command offered. *)
Inductive dsp_good_step : dspdev_info * nat -> dspdev_info * nat -> Prop :=
| good_write i f buf count d d' a :
    filter d !! i = Some f -> 0 < count <= dsp_ringbuffer_free (wbuffer f) -> count <= zlen buf ->
    silan_dsp_write false d i buf count = Some (count, d') -> dsp_good_step (d, a) (d', a)
| good_answer used_size out_pcm_size c d a :
    length (sent d) = S a -> sent d !! a = Some c -> 0 <= used_size <= in_size c ->
    dsp_good_step (d, a) (mbox_send_async false d 0 used_size out_pcm_size, S a).

(** All filters have a sound write ring and synchronise on frames. *)
Definition filters_ok (d : dspdev_info) : Prop :=
  forall i f, filter d !! i = Some f -> wf (wbuffer f) /\ frame_sync f = 1.

Definition has_data (d : dspdev_info) (i : nat) : Prop :=
  exists f, filter d !! i = Some f /\ 0 < dsp_ringbuffer_avail (wbuffer f).

(** The command [c] is for filter [i], which still holds what it offers, and
    more if another round was asked for. *)
Definition in_flight (d : dspdev_info) (i : nat) (c : bksend) : Prop :=
  exists f, filter d !! i = Some f /\ bk_taskid c = taskid f /\
    0 < in_size c <= dsp_ringbuffer_avail (wbuffer f) /\
    (update f <> 0 -> in_size c < dsp_ringbuffer_avail (wbuffer f)).

Definition session_inv (k : dspdev_info * nat) : Prop :=
  let '(d, a) := k in
  filters_ok d /\ NoDup (queue d) /\
  match queue d with
  | [] => length (sent d) = a
  | i :: rest => length (sent d) = S a /\ (exists c, sent d !! a = Some c /\ in_flight d i c) /\ Forall (has_data d) rest
  end.

Lemma increase_rptr_eq r len :
  wf r -> 0 <= len <= dsp_ringbuffer_avail r -> dsp_increase_ringbuf_rptr r len = set_pread r ((pread r + len) mod size r).
Proof.
  intros Hw Hl. pose proof (avail_range r Hw) as Ha. destruct Hw as (_ & Hs & _ & Hr & _).
  unfold dsp_increase_ringbuf_rptr. rewrite !(ulong_small (pread r + len)), (ulong_small (size r)) by lia.
  destruct (Z.leb_spec (size r) (pread r + len)).
  - rewrite s32_small by lia. destruct (Z.ltb_spec 0 (size r - pread r)); [|lia].
    rewrite ulong_small by lia. cbn. unfold set_pread; cbn. f_equal. rewrite slong_small, index_past; lia.
  - cbn. f_equal. rewrite slong_small, Z.mod_small; lia.
Qed.

Lemma increase_rptr_avail r len :
  wf r -> 0 <= len <= dsp_ringbuffer_avail r ->
  wf (dsp_increase_ringbuf_rptr r len) /\
  dsp_ringbuffer_avail (dsp_increase_ringbuf_rptr r len) = dsp_ringbuffer_avail r - len.
Proof.
  intros Hw Hl. rewrite increase_rptr_eq by done. destruct (contents_advance r len Hw Hl) as (Hw' & Hc & _).
  split; [done|]. rewrite <- ring_length, Hc, length_drop by done. pose proof (ring_length r Hw). lia.
Qed.

(** What [dsp_send_cmd_async] sends for a filter that has data. *)
Lemma send_cmd_eq d i f :
  filters_ok d -> filter d !! i = Some f -> 0 < dsp_ringbuffer_avail (wbuffer f) ->
  exists c, dsp_send_cmd_async false d i = mk_info (filter d) (queue d) (sent d ++ [c]) /\
    bk_taskid c = taskid f /\ in_size c = dsp_ringbuffer_avail (wbuffer f).
Proof.
  intros Hok Hi Ha. destruct (Hok i f Hi) as [Hw Hfs]. pose proof (avail_range _ Hw) as Hr.
  assert (size (wbuffer f) < 2 ^ 31) by apply Hw.
  unfold dsp_send_cmd_async, dsp_get_packet_len. rewrite Hi, Hfs. change (s32 1 =? 1) with true. cbn iota.
  rewrite s32_small by lia. destruct (Z.eqb_spec (dsp_ringbuffer_avail (wbuffer f)) 0); [lia|].
  eexists. split; [done|]. split; [done|]. apply u32_small. lia.
Qed.

Lemma filters_ok_put d i f q s :
  filters_ok d -> wf (wbuffer f) -> frame_sync f = 1 -> filters_ok (mk_info (<[i := f]> (filter d)) q s).
Proof.
  intros Hok Hw Hf j g. cbn. destruct (decide (i = j)) as [<- |].
  - destruct (decide (i < length (filter d))%nat); [rewrite list_lookup_insert_eq by done; by intros [= <-]|].
    rewrite list_insert_ge by lia. apply Hok.
  - rewrite list_lookup_insert_ne by done. apply Hok.
Qed.

(** A filter other than the updated one keeps its data. *)
Lemma has_data_put d i f j q s :
  has_data d j -> (i = j -> 0 < dsp_ringbuffer_avail (wbuffer f)) -> has_data (mk_info (<[i := f]> (filter d)) q s) j.
Proof.
  intros (g & Hg & Ha) Hi. unfold has_data; cbn. destruct (decide (i = j)) as [<- |].
  - exists f. rewrite list_lookup_insert_eq by (by eapply lookup_lt_Some). auto.
  - exists g. by rewrite list_lookup_insert_ne.
Qed.

(** A filter with data is sent a command and becomes the head of the queue. *)
Lemma send_head d j g rest :
  filters_ok d -> filter d !! j = Some g -> 0 < dsp_ringbuffer_avail (wbuffer g) ->
  NoDup (j :: rest) -> Forall (has_data d) rest ->
  let d' := dsp_send_cmd_async false d j in
  queue d' = queue d /\
  forall f, wbuffer f = wbuffer g -> taskid f = taskid g -> frame_sync f = frame_sync g -> update f = 0 ->
  session_inv (mk_info (filter (put_filter j f d')) (j :: rest) (sent d'), length (sent d)).
Proof.
  intros Hok Hj Ha Hnd Hrest. destruct (send_cmd_eq d j g Hok Hj Ha) as (c & -> & Hid & Hsz). cbn zeta.
  split; [done|]. intros f Hwf Htf Hff Huf.
  destruct (Hok j g Hj) as [Hw Hfs]. unfold session_inv, put_filter; cbn [filter queue sent].
  split; [apply filters_ok_put; [done|by rewrite Hwf|congruence]|]. split; [done|]. split; [rewrite length_app; cbn; lia|]. split.
  - exists c. split; [by rewrite lookup_app_r, Nat.sub_diag by lia|]. exists f; cbn [filter].
    rewrite list_lookup_insert_eq by (by eapply lookup_lt_Some). rewrite Hsz, Hwf, Htf. split; [done|]. split; [done|].
    split; [lia|done].
  - eapply Forall_impl; [exact Hrest|]. intros i Hi. apply has_data_put; [done|by rewrite Hwf].
Qed.

(** A write to the filter of the command in flight only adds data. *)
Lemma in_flight_put d i f j c :
  in_flight d j c ->
  (i = j -> forall g, filter d !! j = Some g -> taskid f = taskid g /\ dsp_ringbuffer_avail (wbuffer g) < dsp_ringbuffer_avail (wbuffer f)) ->
  in_flight (put_filter i f d) j c.
Proof.
  intros (g & Hg & Hid & Hsz & Hup) Hf. unfold in_flight; cbn. destruct (decide (i = j)) as [<- |].
  - exists f. rewrite list_lookup_insert_eq by (by eapply lookup_lt_Some). destruct (Hf eq_refl g Hg) as [-> Hlt].
    split; [done|]. split; [done|]. lia.
  - exists g. by rewrite list_lookup_insert_ne.
Qed.

Lemma good_write_inv i f buf count d d' a :
  session_inv (d, a) -> filter d !! i = Some f -> 0 < count <= dsp_ringbuffer_free (wbuffer f) -> count <= zlen buf ->
  silan_dsp_write false d i buf count = Some (count, d') -> session_inv (d', a).
Proof.
  intros (Hok & Hnd & Hinv) Hi Hc Hb. destruct (Hok i f Hi) as [Hw Hfs]. unfold silan_dsp_write. rewrite Hi. cbn [mbind option_bind].
  pose proof (avail_range _ Hw) as Har. pose proof (free_eq _ Hw) as Hfe.
  assert (size (wbuffer f) < 2 ^ 31) by apply Hw.
  destruct (buffer_write_eq (wbuffer f) buf count) as [[? _]|[_ (wb & -> & Hw' & Hcon & _)]]; [done|lia|done|lia|].
  cbn [mbind option_bind dsp_aud_valid_frame].
  assert (dsp_ringbuffer_avail wb = dsp_ringbuffer_avail (wbuffer f) + count) as Hav.
  { rewrite <- !ring_length, Hcon, length_app, length_take by done. lia. }
  set (f1 := set_update (with_rings f (rbuffer f) wb) (frame_sync f)).
  assert (filters_ok (put_filter i f1 d)) as Hok1 by (by apply filters_ok_put).
  assert (filter (put_filter i f1 d) !! i = Some f1) as Hi1
    by (cbn; apply list_lookup_insert_eq; by eapply lookup_lt_Some).
  assert (forall j, has_data d j -> has_data (put_filter i f1 d) j) as Hkeep by (intros; apply has_data_put; [done|cbn; lia]).
  unfold put_filter at 1; cbn [queue]. destruct (queue d) as [|i0 rest] eqn:Hq.
  - destruct (send_head (put_filter i f1 d) i f1 []) as [Hqs Hs]; [done|done|cbn; lia|apply NoDup_singleton|done|].
    intros E. injection E as <-. fold f1. rewrite Hqs. cbn [put_filter queue]. rewrite Hq. subst a. by apply Hs.
  - destruct Hinv as (Hlen & (c & Hc' & Hfl) & Hrest). assert (in_flight (put_filter i f1 d) i0 c) as Hfl'.
    { apply in_flight_put; [done|]. intros -> g Hg. rewrite Hi in Hg. injection Hg as <-. cbn. done || lia. }
    assert (Forall (has_data (put_filter i f1 d)) rest) as Hrest' by (eapply Forall_impl; [exact Hrest|done]).
    case_bool_decide as Hin; intros [= <-]; unfold session_inv; cbn [put_filter filter queue sent]; rewrite ?Hq.
    + split; [done|]. split; [done|]. split; [done|]. split; [by exists c|]. done.
    + split; [done|]. cbn [put_filter queue] in Hin. rewrite ?Hq in Hin. split; [apply list.NoDup_app; split; [done|split; [|apply NoDup_singleton]];
        by intros x Hx ->%list_elem_of_singleton|]. cbn [app]. split; [done|]. split; [by exists c|].
      apply Forall_app. split; [done|]. apply Forall_singleton. exists f1. split; [done|cbn; lia].
Qed.

Lemma good_answer_inv used_size out_pcm_size c d a :
  session_inv (d, a) -> length (sent d) = S a -> sent d !! a = Some c -> 0 <= used_size <= in_size c ->
  session_inv (mbox_send_async false d 0 used_size out_pcm_size, S a).
Proof.
  intros (Hok & Hnd & Hinv) Hlen Hc Hu. unfold mbox_send_async. destruct (queue d) as [|i rest] eqn:Hq; [lia|].
  destruct Hinv as (_ & (c' & Hc' & (f & Hf & _ & Hsz & Hup)) & Hrest). rewrite Hc in Hc'. injection Hc' as <-. rewrite Hf.
  change (negb (0 =? 0)) with false. cbn iota zeta. destruct (Hok i f Hf) as [Hw Hfs].
  destruct (increase_rptr_avail (wbuffer f) used_size) as [Hw' Ha']; [done|lia|].
  set (f1 := with_rings f (dsp_rbuffer_update (rbuffer f) out_pcm_size) (dsp_increase_ringbuf_rptr (wbuffer f) used_size)).
  assert (filters_ok (put_filter i f1 d)) as Hok1 by (by apply filters_ok_put).
  assert (filter (put_filter i f1 d) !! i = Some f1) as Hi1
    by (cbn; apply list_lookup_insert_eq; by eapply lookup_lt_Some).
  pose proof Hnd as [Hni Hnd']%list.NoDup_cons.
  assert (Forall (has_data (put_filter i f1 d)) rest) as Hrest1.
  { rewrite list.Forall_forall in *. intros j Hj. apply has_data_put; [by apply Hrest|]. intros ->. done. }
  change (update f1) with (update f). destruct (Z.eqb_spec (update f) 0) as [E|E]; cbn [negb].
  - destruct rest as [|j rest]; [done|]. cbn [filter put_filter queue sent].
    apply list.Forall_cons in Hrest1 as [(g & Hg & Hga) Hrest1]. cbn [filter put_filter] in Hg. rewrite Hg.
    destruct (send_head (mk_info (<[i:=f1]> (filter d)) (j :: rest) (sent d)) j g rest) as [Hqs Hs]; [done..|].
    cbn [sent] in Hs. rewrite Hlen in Hs. unfold put_filter. rewrite Hqs. by apply Hs.
  - destruct (send_head (put_filter i f1 d) i f1 rest) as [Hqs Hs]; [done|done|cbn; lia|done|done|].
    cbn [sent put_filter] in Hs. rewrite Hlen in Hs. unfold put_filter at 1. rewrite Hqs. cbn [put_filter queue]. rewrite Hq.
    by apply Hs.
Qed.

(** In a session whose writes fit, whose mailbox has room and whose answers
    report no error, the driver keeps exactly one command at the DSP while any
    filter is queued, and none otherwise; that command is for the filter at the
    head of the queue and offers data its ring still holds. *)
Theorem dsp_one_command_in_flight d0 d a :
  filters_ok d0 -> queue d0 = [] -> sent d0 = [] -> rtc dsp_good_step (d0, 0%nat) (d, a) ->
  match queue d with
  | [] => length (sent d) = a
  | i :: _ => length (sent d) = S a /\ exists c, sent d !! a = Some c /\ in_flight d i c
  end.
Proof.
  intros Hok Hq Hs Hr. assert (session_inv (d, a)) as (_ & _ & Hinv).
  { revert Hr. generalize (d, a). apply (rtc_ind_r session_inv).
    - unfold session_inv. rewrite Hq, Hs. split; [done|]. split; [apply NoDup_nil_2|done].
    - intros k k' _ Hstep IH. destruct Hstep; [by eapply good_write_inv|by eapply good_answer_inv]. }
  destruct (queue d); [done|]. by destruct Hinv as (? & ? & _).
Qed.

Lemma write_queued full d i buf count ret d' :
  queue d <> [] -> silan_dsp_write full d i buf count = Some (ret, d') -> sent d' = sent d /\ queue d' <> [].
Proof.
  intros Hq. unfold silan_dsp_write. destruct (filter d !! i) as [f|]; [|done]. cbn [mbind option_bind].
  destruct (dsp_buffer_write (wbuffer f) buf count) as [[n wb]|]; [|done]. cbn [mbind option_bind dsp_aud_valid_frame].
  cbn [put_filter queue]. destruct (queue d) as [|i0 rest] eqn:E; [done|].
  case_bool_decide; intros [= <- <-]; cbn; rewrite ?E; done.
Qed.

(** A write of no bytes to an idle device with an empty ring queues the
    filter without sending a command.  From then on nothing is ever sent: every
    later write finds the queue occupied and leaves the sending to the DSP's
    next answer, which never comes because no command is outstanding. *)
Theorem dsp_empty_write_stops_queue full d i f k :
  queue d = [] -> filter d !! i = Some f -> wf (wbuffer f) -> contents (wbuffer f) = [] ->
  exists d', silan_dsp_write full d i [] 0 = Some (0, d') /\
    (rtc dsp_step (d', length (sent d)) k -> sent k.1 = sent d /\ queue k.1 <> []).
Proof.
  intros Hq Hf Hw He. assert (dsp_ringbuffer_avail (wbuffer f) = 0) as Ha by (by rewrite <- ring_length, He).
  assert (exists d', silan_dsp_write full d i [] 0 = Some (0, d') /\ sent d' = sent d /\ queue d' <> []) as (d' & E & Hs & Hne).
  { unfold silan_dsp_write. rewrite Hf. cbn [mbind option_bind dsp_buffer_write Z.eqb dsp_aud_valid_frame].
    unfold put_filter at 1; cbn [queue]. rewrite Hq. eexists. split; [done|]. cbn [sent queue].
    unfold dsp_send_cmd_async, dsp_get_packet_len; cbn [put_filter filter].
    rewrite list_lookup_insert_eq by (by eapply lookup_lt_Some). cbn [set_update with_rings wbuffer frame_sync]. rewrite Ha.
    assert ((if s32 (frame_sync f) =? 1 then s32 0 else 0) = 0) as -> by (by destr_if). cbn. by rewrite Hq. }
  exists d'. split; [done|]. intros Hr.
  assert (sent k.1 = sent d /\ queue k.1 <> [] /\ k.2 = length (sent d)) as (? & ? & _); [|done]. revert k Hr.
  apply (rtc_ind_r (fun k => sent k.1 = sent d /\ queue k.1 <> [] /\ k.2 = length (sent d))); [done|].
  intros k k' _ Hstep (Hs' & Hq' & Hk). destruct Hstep; cbn in *.
  - destruct (write_queued full0 d0 i0 buf count ret d'0) as [-> ?]; done.
  - rewrite Hs' in *. lia.
Qed.

End DspRing.

(** ** Witnesses: a ring of four bytes on a 32-bit machine *)

(** Two bytes, across the end of the storage. *)
Definition ring4 : dsp_ringbuffer := mk_ring false [1; 2; 3; 4] 4 3 1 0.

Lemma ring4_wf : wf ring4.
Proof. by vm_compute. Qed.

Lemma dsp_ring_refines_queue_witness :
  exists r', @dsp_ringbuffer_read long32 ring4 2 = Some ([4; 1], r') /\ contents (H := long32) r' = [].
Proof.
  destruct (@dsp_ring_refines_queue long32 ring4 [] 2 2 ring4_wf ltac:(lia)) as (_ & _ & _ & _ & Hrd & _).
  destruct Hrd as (r' & _ & Hc & Hr & _); [vm_compute; congruence|]. exists r'. split; [exact Hr|exact Hc].
Defined.

Lemma dsp_read_user_fault_witness :
  exists r', @dsp_ringbuffer_read_user long32 ring4 1 2 = Some (- EFAULT, [4], r') /\ contents (H := long32) r' = [1].
Proof. apply (@dsp_read_user_fault long32 ring4 1 2 ring4_wf); [lia|vm_compute; congruence]. Defined.

Lemma dsp_set_rptr_rewinds_witness :
  pread (@dsp_set_ringbuffer_rptr long32 (set_pread ring4 0) 1) = - 1 /\
  @dsp_ringbuffer_read long32 (@dsp_set_ringbuffer_rptr long32 (set_pread ring4 0) 1) 1 = None.
Proof.
  apply (@dsp_set_rptr_rewinds long32 ring4 1 [4] (set_pread ring4 0) 1 ring4_wf); [|reflexivity].
  split; [lia|vm_compute; congruence].
Defined.

Definition filter4 : dspdev_filter := mk_filter (mk_ring false [0; 0; 0; 0] 4 0 0 0) (mk_ring false [0; 0; 0; 0] 4 0 0 0) 5 1 0 0 0.
Definition idle : dspdev_info := mk_info [filter4] [] [].

Lemma idle_ok : filters_ok idle.
Proof. intros [|i] f; [|done]. cbn. intros [= <-]. by vm_compute. Qed.

(** One write: the command for its two bytes is in flight. *)
Lemma dsp_one_command_in_flight_witness :
  exists d, @silan_dsp_write long32 false idle 0 [7; 8] 2 = Some (2, d) /\ queue d = [0%nat] /\ length (sent d) = 1%nat.
Proof.
  destruct (@silan_dsp_write long32 false idle 0 [7; 8] 2) as [[n d]|] eqn:E; [|discriminate E].
  assert (n = 2) as -> by (vm_compute in E; congruence).
  assert (queue d = [0%nat]) as Hq by (vm_compute in E; injection E as <-; reflexivity).
  pose proof (@dsp_one_command_in_flight long32 idle d 0 idle_ok eq_refl eq_refl) as Hw. rewrite Hq in Hw.
  exists d. split; [reflexivity|]. split; [exact Hq|]. apply Hw, rtc_once.
  eapply (@good_write long32 0 filter4 [7; 8] 2); [reflexivity|vm_compute; by split|vm_compute; congruence|exact E].
Defined.

Lemma dsp_empty_write_stops_queue_witness :
  exists d', @silan_dsp_write long32 false idle 0 [] 0 = Some (0, d') /\
    (rtc (@dsp_step long32) (d', 0%nat) (d', 0%nat) -> sent d' = [] /\ queue d' <> []).
Proof.
  destruct (@silan_dsp_write long32 false idle 0 [] 0) as [[n d]|] eqn:E; [|discriminate E].
  assert (n = 0) as -> by (vm_compute in E; congruence).
  destruct (@dsp_empty_write_stops_queue long32 false idle 0 filter4 (d, 0%nat) eq_refl eq_refl) as (d' & E' & Hd');
    [by vm_compute|reflexivity|]. rewrite E in E'. injection E' as <-. exists d. split; [reflexivity|exact Hd'].
Defined.
