(* ===== verification/PromMem.v ===== *)
(** * Boot memory of the csky board (arch/csky/silan_dlna/memory.c, kernel/setup.c)

    At boot the command line divides physical memory: [prom_meminit] looks for
    the text "mem=" ([strstr], [memparse]), the part below goes to the kernel, an
    optional part to the pmem driver, the rest up to the register space is the
    pool that [prom_phy_mem_malloc] hands out to drivers and never takes back.
    [early_mem] registers the kernel's part again when the early parameters are
    parsed.  [silan_malloc_init] takes the arena of the media heap (SieMalloc)
    from the pool.  Addresses are 32 bits wide on this machine. *)

From Stdlib Require Import ZArith Lia.
From stdpp Require Import base numbers list option relations.
From S2P Require Import Prelude Number KString SieMalloc SieHeap.
Import Number.Cmdline.

Local Open Scope Z_scope.

(** ** The memory map *)

Definition BOOT_MEM_MAP_MAX : nat := 8.
Definition BOOT_MEM_RAM : Z := 1.

Record boot_mem_map_entry := mk_region { r_addr : Z; r_size : Z; r_type : Z }.

(** The entries of [boot_mem_map]; [nr_map] is their number. *)
Definition add_memory_region (start size type : Z) (map : list boot_mem_map_entry) : list boot_mem_map_entry :=
  if u32 (start + size) <? start then map else
  let fresh := if (length map =? BOOT_MEM_MAP_MAX)%nat then map else map ++ [mk_region start size type] in
  match rev map with
  | prev :: before =>
      if (u32 (r_addr prev + r_size prev) =? start) && (r_type prev =? type)
      then rev before ++ [mk_region (r_addr prev) (u32 (r_size prev + size)) (r_type prev)]
      else fresh
  | [] => fresh
  end.

(** ** Boot *)

Definition PHY_OFFSET : Z := 0.
Definition HIGHMEM_START : Z := 0x20000000.
Definition SILAN_PHY_MEM_SIZE : Z := 0x40000000.
Definition SILAN_REG_SPACE_START : Z := 0x1FA00000.

(** The static data: the map, [usermem], the pool, and the place of pmem. *)
Record boot := mk_boot {
  boot_map : list boot_mem_map_entry;
  usermem : bool;
  prom_phy_mem_start : Z;
  prom_phy_mem_size : Z;
  pmem_start : Z;
  pmem_size : Z
}.

(** ['m' 'e' 'm' '='] *)
Definition mem_eq : list Z := [109; 101; 109; 61].

(** [pmem] says whether CONFIG_ANDROID_PMEM is set.  The command line and the
    string literal lie in one memory; [None] is an access outside of it. *)
Definition prom_meminit (pmem : bool) (cmdline : list Z) (b : boot) : option boot :=
  let mem_size := if HIGHMEM_START <? SILAN_PHY_MEM_SIZE then HIGHMEM_START else SILAN_PHY_MEM_SIZE in
  let mem_size := if SILAN_REG_SPACE_START <? mem_size then SILAN_REG_SPACE_START else mem_size in
  let m := (cmdline ++ [0]) ++ (mem_eq ++ [0]) in
  memsize_str ← strstr m 0 (length cmdline + 1)%nat;
  let '(physical_memsize, have_mem_region) :=
    match memsize_str with
    | None => (0x04000000, false)
    | Some p => (u32 (memparse (drop (p + 4) m)).1, true)
    end in
  let physical_memsize := if mem_size <? physical_memsize then mem_size else physical_memsize in
  let map := if have_mem_region then boot_map b else add_memory_region 0 physical_memsize BOOT_MEM_RAM (boot_map b) in
  let mem_size := u32 (mem_size - physical_memsize) in
  let start_addr := u32 (0 + physical_memsize) in
  if pmem then
    let size := if mem_size <? pmem_size b then mem_size else pmem_size b in
    Some (mk_boot map (usermem b) (u32 (start_addr + size)) (u32 (mem_size - size)) start_addr size)
  else Some (mk_boot map (usermem b) start_addr mem_size (pmem_start b) (pmem_size b)).

(** [p] is the text after "mem=". *)
Definition early_mem (p : list Z) (b : boot) : boot :=
  let map := if usermem b then boot_map b else [] in
  let start := PHY_OFFSET in
  let '(size, p) := memparse p in
  let start := if ch p 0 =? 64 then u32 (memparse (drop 1 p)).1 else start in
  mk_boot (add_memory_region start (u32 size) BOOT_MEM_RAM map) true
    (prom_phy_mem_start b) (prom_phy_mem_size b) (pmem_start b) (pmem_size b).

Definition early_highmem (p : list Z) (b : boot) : boot :=
  let map := if usermem b then boot_map b else [] in
  let start := HIGHMEM_START in
  let '(size, p) := memparse p in
  let start := if ch p 0 =? 64 then u32 (memparse (drop 1 p)).1 else start in
  mk_boot (add_memory_region start (u32 size) BOOT_MEM_RAM map) true
    (prom_phy_mem_start b) (prom_phy_mem_size b) (pmem_start b) (pmem_size b).

(** ** The pool *)

Definition PAGE_SIZE : Z := 4096.
Definition PAGE_MASK : Z := 0xFFFFF000.

Definition page_round (size : Z) : Z := u32 (size + PAGE_SIZE - 1) .& PAGE_MASK.

Definition set_prom (b : boot) (start size : Z) : boot :=
  mk_boot (boot_map b) (usermem b) start size (pmem_start b) (pmem_size b).

(** The part of [prom_phy_mem_malloc] under [prom_lock]. *)
Definition prom_take (size : Z) (b : boot) : Z * boot :=
  (prom_phy_mem_start b, set_prom b (u32 (prom_phy_mem_start b + size)) (u32 (prom_phy_mem_size b - size))).

Definition prom_phy_mem_malloc (size : Z) (b : boot) : Z * boot :=
  let size := page_round size in
  if size <=? prom_phy_mem_size b then prom_take size b else (0, b).

(** ** The media heap *)

(** The heap descriptors are zero before the call. *)
Definition silan_malloc_init (b : boot) : Z * sie_heap * boot :=
  let '(phys_addr_malloc, b) := prom_phy_mem_malloc SILAN_MALLOC_SIZE b in
  let '(ret, h) := init_sie_heap phys_addr_malloc SILAN_MALLOC_SIZE zero_heap in
  (ret, h, b).

(** ** The number after "mem=" *)

Section memparse.

Import Number.Vsprintf.

Lemma ch_nul s t i : (i <= length s)%nat -> ch (s ++ 0 :: t) i = ch s i.
Proof.
  intros Hi. unfold ch. destruct (decide (i < length s)%nat).
  - by rewrite lookup_app_l.
  - replace i with (length s) by lia. rewrite lookup_app_r, Nat.sub_diag by lia. cbn. by rewrite lookup_ge_None_2.
Qed.

Lemma strtoull_loop_nul s t base r :
  simple_strtoull_loop (s ++ 0 :: t) base r =
    let '(v, e) := simple_strtoull_loop s base r in (v, e ++ 0 :: t).
Proof.
  revert r. induction s as [|c s IH]; intros r; [reflexivity|]. cbn [app simple_strtoull_loop].
  destruct (Ctype.isxdigit c); [|done]. destruct (base <=? _); [done|]. apply IH.
Qed.

Lemma guess_base_nul s t : simple_guess_base (s ++ 0 :: t) = simple_guess_base s.
Proof.
  unfold simple_guess_base. rewrite ch_nul by lia. destruct (Z.eqb_spec (ch s 0) 48); [|done].
  destruct s as [|c [|d s]]; [done|done|]. by rewrite !ch_nul by (cbn; lia).
Qed.

(** What follows the NUL of the text is not looked at. *)
Lemma memparse_nul s t : (memparse (s ++ 0 :: t)).1 = (memparse s).1.
Proof.
  assert (simple_strtoull (s ++ 0 :: t) 0 = let '(v, e) := simple_strtoull s 0 in (v, e ++ 0 :: t)) as E.
  { unfold simple_strtoull. rewrite guess_base_nul. cbn [Z.eqb]. set (b := simple_guess_base s).
    destruct s as [|c [|d s]].
    - by rewrite !andb_false_r.
    - change (ch ([c] ++ 0 :: t) 1) with (ch [c] 1). replace (TOLOWER (ch [c] 1) =? 120) with false by done.
      rewrite !andb_false_r. apply strtoull_loop_nul.
    - rewrite !ch_nul by (cbn; lia). destr_if; apply (strtoull_loop_nul s) || apply (strtoull_loop_nul (c :: d :: s)). }
  unfold memparse. rewrite E. destruct (simple_strtoull s 0) as [v e]. rewrite ch_nul by lia. by repeat destr_if.
Qed.

End memparse.

Lemma at_str_before l s t : Forall (fun c => c <> 0) s -> at_str (l ++ s ++ 0 :: t) (length l) s.
Proof.
  revert l. induction s as [|c s IH]; intros l Hs; cbn [at_str].
  - by rewrite lookup_app_r, Nat.sub_diag by lia.
  - inversion Hs as [|? ? Hc Hs']; subst. rewrite lookup_app_r, Nat.sub_diag by lia. split; [done|]. split; [done|].
    specialize (IH (l ++ [c]) Hs'). rewrite <- app_assoc, length_app in IH. cbn in IH. by rewrite Nat.add_1_r in IH.
Qed.

(** The size [prom_meminit] finds: what [memparse] makes of the text after the first
    "mem=", cut to 32 bits, or 64 MB, and at most what lies below the register space. *)
Definition low_memory (cmdline : list Z) : Z :=
  Z.min SILAN_REG_SPACE_START
    match find_sub cmdline mem_eq with
    | None => 0x04000000
    | Some i => u32 (memparse (drop (i + 4) cmdline)).1
    end.

Lemma low_memory_range cmdline : 0 <= low_memory cmdline <= SILAN_REG_SPACE_START.
Proof.
  unfold low_memory. pose proof (u32_range (memparse (drop (default 0%nat (find_sub cmdline mem_eq) + 4) cmdline)).1).
  unfold SILAN_REG_SPACE_START. destruct (find_sub cmdline mem_eq); cbn in *; lia.
Qed.

Definition no_nul (s : list Z) : Prop := Forall (fun c => c <> 0) s.

(** Where pmem ends, if there is one. *)
Definition pmem_part (pmem : bool) (cmdline : list Z) (b : boot) : Z :=
  if pmem then Z.min (pmem_size b) (SILAN_REG_SPACE_START - low_memory cmdline) else 0.

Lemma prom_meminit_eq pmem cmdline b :
  no_nul cmdline -> 0 <= pmem_size b < 2 ^ 32 ->
  exists b', prom_meminit pmem cmdline b = Some b' /\
    prom_phy_mem_start b' = low_memory cmdline + pmem_part pmem cmdline b /\
    prom_phy_mem_start b' + prom_phy_mem_size b' = SILAN_REG_SPACE_START /\
    0 <= prom_phy_mem_size b' /\ usermem b' = usermem b /\
    (pmem = true -> pmem_start b' = low_memory cmdline /\ pmem_size b' = pmem_part pmem cmdline b) /\
    boot_map b' = match find_sub cmdline mem_eq with
                  | None => add_memory_region 0 (low_memory cmdline) BOOT_MEM_RAM (boot_map b)
                  | Some _ => boot_map b
                  end.
Proof.
  intros Hn Hp. set (m := (cmdline ++ [0]) ++ mem_eq ++ [0]).
  assert (m = [] ++ cmdline ++ 0 :: mem_eq ++ [0]) as Em by (unfold m; by rewrite <- app_assoc).
  assert (strstr m 0 (length cmdline + 1) = Some (Nat.add 0 <$> find_sub cmdline mem_eq)) as Hs.
  { apply strstr_spec; [rewrite Em; by apply (at_str_before [])|].
    assert ((length cmdline + 1)%nat = length (cmdline ++ [0])) as -> by (by rewrite length_app).
    apply (at_str_before (cmdline ++ [0]) mem_eq []). repeat constructor; done. }
  assert (low_memory cmdline = let v := match find_sub cmdline mem_eq with
            | None => 0x04000000 | Some i => u32 (memparse (drop (i + 4) m)).1 end in
            if SILAN_REG_SPACE_START <? v then SILAN_REG_SPACE_START else v) as Hlow.
  { unfold low_memory. cbv zeta. destruct (find_sub cmdline mem_eq) as [i|] eqn:Ef; [|done].
    apply find_sub_some in Ef as (Ef & Hi & _). apply (f_equal length) in Ef. rewrite length_take, length_drop in Ef. change (length mem_eq) with 4%nat in Ef.
    rewrite Em. cbn [app]. rewrite drop_app_le by lia. rewrite memparse_nul. destr_if; lia. }
  pose proof (low_memory_range cmdline) as Hr. unfold SILAN_REG_SPACE_START in Hr.
  unfold prom_meminit. fold m. change (if HIGHMEM_START <? _ then _ else _) with HIGHMEM_START.
  cbv zeta. change (if SILAN_REG_SPACE_START <? HIGHMEM_START then _ else _) with SILAN_REG_SPACE_START.
  rewrite Hs. cbn [mbind option_bind]. unfold pmem_part. revert Hlow. cbv zeta. intros Hlow.
  destruct (find_sub cmdline mem_eq) as [i|]; cbn [fmap option_fmap option_map Nat.add]; rewrite <- Hlow; clear Hlow Hs;
    rewrite !(u32_small (SILAN_REG_SPACE_START - _)), !(u32_small (0 + _)) by (unfold SILAN_REG_SPACE_START; lia);
    (destruct pmem; eexists; (split; [reflexivity|]); cbn [prom_phy_mem_start prom_phy_mem_size usermem pmem_start pmem_size boot_map]);
    try destr_if; rewrite ?u32_small by (unfold SILAN_REG_SPACE_START in *; lia); unfold SILAN_REG_SPACE_START in *; split_and!; done || lia.
Qed.

Lemma add_first start size type : 0 <= start -> 0 <= size -> start + size < 2 ^ 32 -> add_memory_region start size type [] = [mk_region start size type].
Proof. intros. unfold add_memory_region. rewrite u32_small by lia. destr_if; [lia|done]. Qed.

(** ** What the command line asks for *)

(** The unit after a size, and its value. *)
Inductive unit_text : list Z -> Z -> Prop :=
| unit_bytes : unit_text [] 1
| unit_K c : c = 75 \/ c = 107 -> unit_text [c] (2 ^ 10)
| unit_M c : c = 77 \/ c = 109 -> unit_text [c] (2 ^ 20)
| unit_G c : c = 71 \/ c = 103 -> unit_text [c] (2 ^ 30).

(** Decimal digits, the first not 0, and a unit: the text of [v] bytes. *)
Definition size_text (s : list Z) (v : Z) : Prop :=
  exists d ds u k, 1 <= d <= 9 /\ Forall (fun x => 0 <= x <= 9) ds /\ unit_text u k /\
    s = (Z.add 48 <$> d :: ds) ++ u /\ v = digits_value 10 (d :: ds) 0 * k.

(** The end of the line or a space. *)
Definition word_end (rest : list Z) : Prop := rest = [] \/ exists r, rest = 32 :: r.

(** The command line asks for [v] bytes: it does not contain "mem=" and the default
    is 64 MB, or the first "mem=" in it begins a word and a size follows.  [arg] is
    the text from the size on. *)
Inductive asks (cmdline : list Z) : option (list Z) -> Z -> Prop :=
| asks_default : (forall j, take 4 (drop j cmdline) <> mem_eq) -> asks cmdline None 0x04000000
| asks_mem pre s rest v :
    cmdline = pre ++ mem_eq ++ s ++ rest -> pre = [] \/ last pre = Some 32 ->
    (forall j, (j < length pre)%nat -> take 4 (drop j cmdline) <> mem_eq) ->
    size_text s v -> v < 2 ^ 32 -> word_end rest -> asks cmdline (Some (s ++ rest)) v.

Lemma digits_loop ds t acc :
  Forall (fun x => 0 <= x <= 9) ds -> 0 <= acc -> digits_value 10 ds acc < 2 ^ 64 ->
  match t with [] => True | c :: _ => Ctype.isxdigit c = false end ->
  Vsprintf.simple_strtoull_loop ((Z.add 48 <$> ds) ++ t) 10 acc = (digits_value 10 ds acc, t).
Proof.
  intros Hds. revert acc. induction Hds as [|d ds Hd Hds IH]; intros acc Ha Hv Ht.
  { cbn. destruct t as [|c t]; [done|]. cbn. by rewrite Ht. }
  cbn [fmap list_fmap app Vsprintf.simple_strtoull_loop].
  assert (Ctype.isxdigit (48 + d) && Ctype.isdigit (48 + d) = true) as [-> ->]%andb_true_iff.
  { apply (forallb_below (fun d => Ctype.isxdigit (48 + d) && Ctype.isdigit (48 + d)) 10); [by vm_compute|lia]. }
  change (digits_value 10 (d :: ds) acc) with (digits_value 10 ds (acc * 10 + d)) in *.
  assert (acc * 10 + d <= digits_value 10 ds (acc * 10 + d)).
  { apply digits_value_ge; [lia| |lia]. eapply Forall_impl; [exact Hds|]. cbn. lia. }
  replace (48 + d - 48) with d by lia. destruct (Z.leb_spec 10 d); [lia|]. rewrite u64_small by lia. apply IH; [lia|done|done].
Qed.

(** [memparse] reads a size as what it says. *)
Lemma memparse_size s v rest : size_text s v -> v < 2 ^ 32 -> word_end rest -> 0 <= v /\ memparse (s ++ rest) = (v, rest).
Proof.
  intros (d & ds & u & k & Hd & Hds & Hu & -> & ->) Hv Hr. rewrite <- app_assoc.
  set (n := digits_value 10 (d :: ds) 0) in *.
  assert (0 <= n) as Hn.
  { apply (digits_value_ge 10 (d :: ds) 0); [lia| |lia]. apply Forall_cons_2; [lia|]. eapply Forall_impl; [exact Hds|]. cbn. lia. }
  assert (n < 2 ^ 32) by (destruct Hu; nia).
  unfold memparse, Vsprintf.simple_strtoull. cbn [Z.eqb]. unfold Vsprintf.simple_guess_base.
  change (ch ((Z.add 48 <$> d :: ds) ++ u ++ rest) 0) with (48 + d). rewrite (proj2 (Z.eqb_neq (48 + d) 48)) by lia. cbn [Z.eqb Pos.eqb andb].
  rewrite digits_loop; [|apply Forall_cons_2; [lia|done]|lia|fold n; lia|].
  2: { destruct Hu as [|c [->| ->]|c [->| ->]|c [->| ->]], Hr as [->|[r ->]]; by vm_compute. }
  fold n. clearbody n. split; [destruct Hu; lia|].
  destruct Hu as [|c [->| ->]|c [->| ->]|c [->| ->]]; cbn [app ch lookup list_lookup default Z.eqb Pos.eqb orb drop];
    rewrite ?Z.shiftl_mul_pow2 by lia;
    rewrite ?(u64_small (n * 2 ^ 10)) by lia; rewrite ?(u64_small (n * 2 ^ 10 * 2 ^ 10)) by lia;
    rewrite ?(u64_small (n * 2 ^ 10 * 2 ^ 10 * 2 ^ 10)) by lia; try (f_equal; lia).
  destruct Hr as [->|[r ->]]; by rewrite Z.mul_1_r.
Qed.

Lemma asks_found cmdline arg v : asks cmdline arg v ->
  low_memory cmdline = Z.min v SILAN_REG_SPACE_START /\
  match arg with
  | None => find_sub cmdline mem_eq = None
  | Some s => is_Some (find_sub cmdline mem_eq) /\ exists rest, memparse s = (v, rest) /\ ch rest 0 <> 64
  end.
Proof.
  unfold low_memory. intros [Hno|pre s rest w -> _ Hfirst Hs Hw Hr].
  - assert (find_sub cmdline mem_eq = None) as ->; [|done]. destruct (find_sub cmdline mem_eq) as [i|] eqn:E; [|done].
    apply find_sub_some in E as (E & _). by apply Hno in E.
  - destruct (memparse_size s w rest Hs Hw Hr) as [H0 Em].
    assert (find_sub (pre ++ mem_eq ++ s ++ rest) mem_eq = Some (length pre)) as ->.
    { apply find_sub_some. split_and!; [|rewrite length_app; lia|done]. by rewrite drop_app_length. }
    rewrite (app_assoc pre mem_eq), drop_app_length' by (by rewrite length_app). rewrite Em. cbn [fst]. rewrite u32_small by lia.
    split; [lia|]. split; [done|]. exists rest. split; [done|]. by destruct Hr as [->|[r ->]].
Qed.

(** C21. However the command line reads, physical memory below the register space
    is divided without gap or overlap: the kernel's RAM from 0 on, then the pmem
    area if there is one, then the pool of [prom_phy_mem_malloc].  If the command line
    contains no "mem=", the kernel's part is 64 MB and is the memory map.  If the first
    "mem=" in it begins a word and a decimal size with an optional unit K, M or G, below
    4 GB, is the rest of the word, the kernel's part is that size, cut to the space;
    [early_mem] makes it the memory map if it was not cut. *)
Theorem boot_memory_layout pmem cmdline b0 :
  no_nul cmdline -> 0 <= pmem_size b0 < 2 ^ 32 -> boot_map b0 = [] -> usermem b0 = false ->
  exists low b, prom_meminit pmem cmdline b0 = Some b /\
    0 <= low <= prom_phy_mem_start b /\ 0 <= prom_phy_mem_size b /\
    prom_phy_mem_start b + prom_phy_mem_size b = SILAN_REG_SPACE_START /\
    (if pmem then pmem_start b = low /\ pmem_size b = Z.min (pmem_size b0) (SILAN_REG_SPACE_START - low) /\
                  prom_phy_mem_start b = low + pmem_size b
     else prom_phy_mem_start b = low) /\
    forall arg v, asks cmdline arg v ->
      low = Z.min v SILAN_REG_SPACE_START /\
      match arg with
      | None => boot_map b = [mk_region 0 low BOOT_MEM_RAM]
      | Some s => 0 <= v <= SILAN_REG_SPACE_START -> boot_map (early_mem s b) = [mk_region 0 low BOOT_MEM_RAM]
      end.
Proof.
  intros Hn Hp Hm Hu. destruct (prom_meminit_eq pmem cmdline b0 Hn Hp) as (b & E & Hst & Hsum & Hsz & Hub & Hpm & Hmap).
  pose proof (low_memory_range cmdline) as Hlow. exists (low_memory cmdline), b. split; [done|].
  assert (0 <= pmem_part pmem cmdline b0) by (unfold pmem_part; destruct pmem; lia).
  split; [lia|]. split; [done|]. split; [done|]. split.
  { destruct pmem; [destruct Hpm as [-> ->]; [done|]; by split_and!|]. unfold pmem_part in Hst. lia. }
  intros arg v Ha. destruct (asks_found _ _ _ Ha) as [Elow Harg]. rewrite Elow in *. split; [done|]. clear Ha E.
  unfold SILAN_REG_SPACE_START in *. destruct arg as [s|].
  - destruct Harg as [_ (rest & Ev & Hat)]. intros Hv. unfold early_mem. rewrite Ev, Hub, Hu. cbn [boot_map].
    destruct (Z.eqb_spec (ch rest 0) 64); [done|]. rewrite u32_small, Z.min_l by lia. apply add_first; unfold PHY_OFFSET; lia.
  - rewrite Hmap, Hm, Harg. apply add_first; lia.
Qed.

(** ** Concurrent callers of the pool

    The test of the pool's size is made before [prom_lock] is taken.  A state is
    the pool, the requests that passed the test and wait for the lock, and the
    blocks handed out, oldest first. *)

Definition prom_state : Type := boot * list Z * list (Z * Z).

Inductive prom_step : prom_state -> prom_state -> Prop :=
| prom_test b ps bl size :
    0 < size -> size + PAGE_SIZE <= 2 ^ 32 -> page_round size <= prom_phy_mem_size b ->
    prom_step (b, ps, bl) (b, ps ++ [page_round size], bl)
| prom_locked b ps1 size ps2 bl :
    prom_step (b, ps1 ++ size :: ps2, bl)
      ((prom_take size b).2, ps1 ++ ps2, bl ++ [((prom_take size b).1, size)]).

Lemma page_round_bounds size :
  0 < size -> size + PAGE_SIZE <= 2 ^ 32 -> size <= page_round size < size + PAGE_SIZE /\ page_round size mod PAGE_SIZE = 0.
Proof.
  unfold PAGE_SIZE. intros Hs Hb. unfold page_round, PAGE_SIZE. rewrite u32_small by lia.
  change PAGE_MASK with (2 ^ 32 - 2 ^ 12). rewrite land_high_mask by lia. zdm.
Qed.

Lemma tiles_snoc st bl e s : tiles st bl e -> 0 < s -> tiles st (bl ++ [(e, s)]) (e + s).
Proof. revert st. induction bl as [|[a k] bl IH]; intros st; cbn [tiles app]; [intros -> ?; done|]. intuition. Qed.

Lemma tiles_le st bl e : tiles st bl e -> st <= e.
Proof. revert st. induction bl as [|[a k] bl IH]; intros st; cbn [tiles]; [lia|]. intros (_ & ? & Ht%IH). lia. Qed.

(** The total of a list of requests and blocks. *)
Definition claimed (k : prom_state) : Z := zsum k.1.2 + zsum (k.2.*2).

Definition pool_inv (start size : Z) (k : prom_state) : Prop :=
  Forall (Z.lt 0) k.1.2 /\
  (claimed k <= size ->
   let e := start + zsum (k.2.*2) in
   tiles start k.2 e /\ prom_phy_mem_start k.1.1 = e /\ prom_phy_mem_size k.1.1 = size - zsum (k.2.*2)).

Lemma zsum_pos l : Forall (Z.lt 0) l -> 0 <= zsum l.
Proof. induction 1; [done|]. rewrite zsum_cons. lia. Qed.

Lemma claimed_locked b ps1 size ps2 bl a b' :
  claimed (b', ps1 ++ ps2, bl ++ [(a, size)]) = claimed (b, ps1 ++ size :: ps2, bl).
Proof. unfold claimed; cbn [fst snd]. rewrite fmap_app, !zsum_app. cbn [fmap list_fmap snd]. rewrite !zsum_cons. change (zsum []) with 0. lia. Qed.

Lemma prom_step_inv start size k k' :
  0 <= start -> start + size < 2 ^ 32 -> prom_step k k' -> pool_inv start size k -> pool_inv start size k'.
Proof.
  intros Hs He [b ps bl s Hs0 Hs1 Ht|b ps1 s ps2 bl] [Hpos Hinv]; cbn [fst snd] in *.
  - pose proof (page_round_bounds s Hs0 Hs1) as [Hb _]. split; cbn [fst snd].
    + apply Forall_app. split; [done|]. apply Forall_singleton. lia.
    + intros Hc. apply Hinv. unfold claimed in *; cbn [fst snd] in *. rewrite zsum_app, zsum_cons in Hc. change (zsum []) with 0 in Hc. lia.
  - apply Forall_app in Hpos as [H1 H2]. inversion H2 as [|? ? Hp H3]; subst. split; cbn [fst snd].
    { apply Forall_app. by split. }
    rewrite (claimed_locked b). intros Hc. destruct (Hinv Hc) as (Ht & Est & Esz).
    assert (0 <= zsum (ps1 ++ s :: ps2)) by (apply zsum_pos, Forall_app; by split).
    assert (s <= zsum (ps1 ++ s :: ps2)).
    { rewrite zsum_app, zsum_cons. pose proof (zsum_pos _ H1). pose proof (zsum_pos _ H3). lia. }
    unfold claimed in Hc; cbn [fst snd] in Hc. cbn [prom_take fst snd set_prom prom_phy_mem_start prom_phy_mem_size].
    rewrite fmap_app, zsum_app. cbn [fmap list_fmap snd]. rewrite zsum_cons. change (zsum []) with 0. rewrite Est, Esz.
    pose proof (tiles_le _ _ _ Ht). rewrite !u32_small by lia. split; [|lia].
    replace (start + (zsum bl.*2 + (s + 0))) with (start + zsum bl.*2 + s) by lia. by apply tiles_snoc.
Qed.

Lemma prom_race b n :
  0 < n -> prom_phy_mem_size b = n * PAGE_SIZE -> n * PAGE_SIZE + PAGE_SIZE <= 2 ^ 32 ->
  exists k, rtc prom_step (b, [], []) k /\
    k.2 = [(prom_phy_mem_start b, n * PAGE_SIZE); (u32 (prom_phy_mem_start b + n * PAGE_SIZE), n * PAGE_SIZE)].
Proof.
  intros Hn Hsz Hb. assert (page_round (n * PAGE_SIZE) = n * PAGE_SIZE) as E.
  { destruct (page_round_bounds (n * PAGE_SIZE)) as [Hr Hm]; [unfold PAGE_SIZE in *; lia|done|]. unfold PAGE_SIZE in *. zdm. }
  assert (forall ps, prom_step (b, ps, []) (b, ps ++ [n * PAGE_SIZE], [])) as Ht.
  { intros ps. rewrite <- E at 1. apply prom_test; [unfold PAGE_SIZE in *; lia|done|lia]. }
  eexists (_, _, _). split.
  - eapply rtc_l; [apply Ht|]. eapply rtc_l; [apply Ht|]. eapply rtc_l; [apply (prom_locked _ [] _ [_])|].
    apply rtc_once, (prom_locked _ [] _ []).
  - reflexivity.
Qed.

(** C35. Drivers that call [prom_phy_mem_malloc] at the same time get adjacent,
    disjoint blocks from the start of the pool as long as all requests together
    fit.  They can get more: the size is tested before the lock is taken, so two
    requests for the whole pool can both pass, and the second gets the memory
    behind the pool. *)
Theorem prom_pool_interleaved b k n :
  let start := prom_phy_mem_start b in
  let size := prom_phy_mem_size b in
  0 <= start -> start + size < 2 ^ 32 -> 0 < n -> size = n * PAGE_SIZE -> size + PAGE_SIZE <= 2 ^ 32 ->
  (rtc prom_step (b, [], []) k -> claimed k <= size ->
   tiles start k.2 (prom_phy_mem_start k.1.1) /\ prom_phy_mem_start k.1.1 + prom_phy_mem_size k.1.1 = start + size) /\
  exists k', rtc prom_step (b, [], []) k' /\ k'.2 = [(start, size); (start + size, size)].
Proof.
  intros start size Hs He Hn Hsz Hb. split.
  - intros Hr Hc. assert (pool_inv start size k) as [_ Hinv].
    { revert k Hr Hc. intros k Hr _. revert k Hr. apply (rtc_ind_r (pool_inv start size)).
      - split; [constructor|]. cbn. intros _. unfold start, size. lia.
      - intros k1 k2 _ Hstep IH. by eapply prom_step_inv. }
    destruct (Hinv Hc) as (Ht & -> & ->). split; [done|lia].
  - destruct (prom_race b n Hn Hsz) as (k' & Hr & E); [lia|]. exists k'. split; [done|]. rewrite E, <- Hsz. fold start.
    by rewrite u32_small by (split; [subst size; unfold PAGE_SIZE in *|]; lia).
Qed.

Lemma heap_blocks_inside base total h bl :
  heap_ok base total h -> bl ∈ used_blocks h -> base <= bl.1 /\ bl.1 + bl.2 <= base + total.
Proof.
  intros (P & F & U & o & Hi). rewrite (used_blocks_spec Hi). intros (x & -> & Hx)%list_elem_of_fmap.
  destruct (inv_bounds Hi x) as (? & _ & ?); [apply elem_of_app; by right|]. done.
Qed.

Lemma init_at_zero : exists h, init_sie_heap 0 0x4000000 zero_heap = (0, h) /\ free_blocks h = [(0, 0x4000000)].
Proof.
  exists (init_sie_heap 0 0x4000000 zero_heap).2. split; [|vm_compute; reflexivity].
  assert ((init_sie_heap 0 0x4000000 zero_heap).1 = 0) as <- by (vm_compute; reflexivity). by rewrite <- surjective_pairing.
Qed.

(** From the command line to the media heap: if the pool is large enough and
    does not start at address 0, every block the media heap ever hands out lies
    above the kernel's RAM and below what later pool requests get.  If the pool
    is too small, [silan_malloc_init] does not notice that it was refused: it
    succeeds and the heap's arena is the kernel's RAM from address 0 on. *)
Theorem silan_heap_in_pool pmem cmdline b0 b :
  no_nul cmdline -> 0 <= pmem_size b0 < 2 ^ 32 -> prom_meminit pmem cmdline b0 = Some b ->
  if SILAN_MALLOC_SIZE <=? prom_phy_mem_size b then
    0 < prom_phy_mem_start b ->
    exists h b', silan_malloc_init b = (0, h, b') /\
      prom_phy_mem_start b' + prom_phy_mem_size b' = SILAN_REG_SPACE_START /\
      forall h' bl, rtc heap_call h h' -> bl ∈ used_blocks h' ->
        low_memory cmdline <= prom_phy_mem_start b <= bl.1 /\ bl.1 + bl.2 <= prom_phy_mem_start b'
  else exists h, silan_malloc_init b = (0, h, b) /\ free_blocks h = [(0, SILAN_MALLOC_SIZE)].
Proof.
  intros Hn Hp Hb. destruct (prom_meminit_eq pmem cmdline b0 Hn Hp) as (b1 & E & Hst & Hsum & Hsz & _).
  rewrite Hb in E. injection E as <-. pose proof (low_memory_range cmdline) as Hlow.
  assert (0 <= pmem_part pmem cmdline b0) by (unfold pmem_part; destruct pmem; lia).
  unfold silan_malloc_init, prom_phy_mem_malloc. change (page_round SILAN_MALLOC_SIZE) with SILAN_MALLOC_SIZE.
  unfold SILAN_REG_SPACE_START, SILAN_MALLOC_SIZE in *. destr_if.
  - intros Hpos. cbn [prom_take].
    destruct (init_inv (prom_phy_mem_start b) 0x4000000 zero_heap zero_heap_full) as (h & Eh & Hi); [lia..|].
    rewrite Eh. eexists h, _. split; [reflexivity|]. cbn [set_prom prom_phy_mem_start prom_phy_mem_size].
    rewrite !u32_small by lia. split; [lia|]. intros h' bl Hr Hbl. split; [split; [lia|]|];
      (eapply (heap_blocks_inside (prom_phy_mem_start b) 0x4000000 h'); [|done]; eapply reachable_ok;
       split; [lia|]; split; [lia|]; split; [lia|]; by rewrite Eh).
  - destruct init_at_zero as (h & -> & Hf). by exists h.
Qed.

(** ** Witnesses and examples *)

Definition boot_zero : boot := mk_boot [] false 0 0 0 0.

(** "mem=28M", as in the board configurations. *)
Definition mem_28M : list Z := [109; 101; 109; 61; 50; 56; 77].

Lemma mem_28M_ok : no_nul mem_28M.
Proof. repeat constructor; discriminate. Qed.

Lemma mem_28M_asks : asks mem_28M (Some [50; 56; 77]) 0x1C00000.
Proof.
  apply (asks_mem mem_28M [] [50; 56; 77] []); [done|by left|intros j Hj; cbn in Hj; lia| |lia|by left].
  exists 2, [8], [77], (2 ^ 20). split; [lia|]. split; [repeat constructor; lia|]. split; [by apply unit_M; left|done].
Qed.

Lemma boot_memory_layout_witness :
  exists b, prom_meminit false mem_28M boot_zero = Some b /\ prom_phy_mem_start b = 0x1C00000 /\
    boot_map (early_mem [50; 56; 77] b) = [mk_region 0 0x1C00000 BOOT_MEM_RAM].
Proof.
  destruct (boot_memory_layout false mem_28M boot_zero mem_28M_ok ltac:(cbn; lia) eq_refl eq_refl)
    as (low & b & E & _ & _ & _ & Hst & Hasks).
  destruct (Hasks _ _ mem_28M_asks) as [Elow Hmap].
  exists b. split; [exact E|]. split; [rewrite Hst, Elow; reflexivity|].
  rewrite Hmap; [rewrite Elow; reflexivity|unfold SILAN_REG_SPACE_START; lia].
Defined.

Definition one_page : boot := mk_boot [] false 0x1000 0x1000 0 0.

Lemma prom_pool_interleaved_witness :
  exists k, rtc prom_step (one_page, [], []) k /\ k.2 = [(0x1000, 0x1000); (0x2000, 0x1000)].
Proof.
  exact (proj2 (prom_pool_interleaved one_page (one_page, [], []) 1 ltac:(cbn; lia) ltac:(cbn; lia) ltac:(lia) eq_refl
    ltac:(unfold PAGE_SIZE; cbn; lia))).
Defined.

Lemma silan_heap_in_pool_witness :
  exists h b', silan_malloc_init (mk_boot [] false 0x1C00000 0x1DE00000 0 0) = (0, h, b') /\
    prom_phy_mem_start b' + prom_phy_mem_size b' = SILAN_REG_SPACE_START.
Proof.
  destruct (silan_heap_in_pool false mem_28M boot_zero (mk_boot [] false 0x1C00000 0x1DE00000 0 0) mem_28M_ok
    ltac:(cbn; lia) ltac:(vm_compute; reflexivity) ltac:(cbn; lia)) as (h & b' & E & Hs & _).
  exists h, b'. split; [exact E|exact Hs].
Defined.

(** "mem=64M@16M": the kernel's RAM is [16M, 80M) but the pool starts at 64M. *)
Lemma boot_mem_at_overlaps :
  let cmdline := mem_eq ++ [54; 52; 77; 64; 49; 54; 77] in
  exists b, prom_meminit false cmdline boot_zero = Some b /\
    boot_map (early_mem (drop 4 cmdline) b) = [mk_region 0x1000000 0x4000000 BOOT_MEM_RAM] /\
    prom_phy_mem_start b = 0x4000000.
Proof. eexists. split; [vm_compute; reflexivity|]. split; vm_compute; reflexivity. Qed.

(** "mem=4G": the size is cut to 32 bits, so that the pool is all of memory. *)
Lemma boot_mem_4G :
  exists b, prom_meminit false (mem_eq ++ [52; 71]) boot_zero = Some b /\
    prom_phy_mem_start b = 0 /\ prom_phy_mem_size b = SILAN_REG_SPACE_START.
Proof. eexists. split; [vm_compute; reflexivity|]. split; vm_compute; reflexivity. Qed.

(** "highmem=1M": read as "mem=1M". *)
Lemma boot_highmem_misread :
  exists b, prom_meminit false ([104; 105; 103; 104] ++ mem_eq ++ [49; 77]) boot_zero = Some b /\ prom_phy_mem_start b = 0x100000.
Proof. eexists. split; vm_compute; reflexivity. Qed.
