(* ===== verification/Sort.v ===== *)
(** * Heap sort (lib/sort.c)

    [sort] works on raw bytes: the array is the list of bytes at [base], an
    element is a slice of [size] bytes, and the loop counters are byte offsets
    held in [int]s and compared as [size_t]s, as in the source.  The proof goes
    through an index-level heap sort on a list of elements ([hsort]), which the
    byte-level code simulates. *)

From Stdlib Require Import ZArith Lia.
From stdpp Require Import base numbers list option sorting.
From S2P Require Import Prelude.

Local Open Scope Z_scope.

(** ** The code *)

Section code.

Context `{LongWidth}.

(** [size] bytes at [base + off], and a store there; [None] is an access outside
    of the array. *)
Definition elem (b : list Z) (off size : Z) : option (list Z) :=
  if (0 <=? off) && (off + size <=? zlen b) then Some (take (Z.to_nat size) (drop (Z.to_nat off) b)) else None.
Definition set_bytes (b : list Z) (off : Z) (src : list Z) : option (list Z) :=
  if (0 <=? off) && (off + zlen src <=? zlen b) then Some (memcpy_at b off src) else None.

Definition u32_swap (b : list Z) (p q size : Z) : option (list Z) :=
  t ← elem b p 4;
  u ← elem b q 4;
  b ← set_bytes b p u;
  set_bytes b q t.

(** The do loop; the counter is the number of bytes still to swap. *)
Fixpoint generic_swap_loop (size : nat) (b : list Z) (p q : Z) : option (list Z) :=
  t ← elem b p 1;
  u ← elem b q 1;
  b ← set_bytes b p u;
  b ← set_bytes b q t;
  match size with
  | O => Some b
  | S O => Some b
  | S size => generic_swap_loop size b (p + 1) (q + 1)
  end.

Definition generic_swap (b : list Z) (p q size : Z) : option (list Z) := generic_swap_loop (Z.to_nat size) b p q.

(** [cmp_func] gets the bytes of two elements and returns an [int]. *)
Variable cmp_func : list Z -> list Z -> Z.

(** [for (r = start; r * 2 + size < n; r = c)], the loop of both phases. *)
Fixpoint sift_down (fuel : nat) (swap_func : list Z -> Z -> Z -> Z -> option (list Z)) (b : list Z) (r n size : Z) :
    option (list Z) :=
  match fuel with
  | O => None
  | S fuel =>
      if ulong (s32 (r * 2) + size) <? ulong n then
        let c := s32 (ulong (s32 (r * 2) + size)) in
        c ← (if ulong c <? ulong (n - size) then
               x ← elem b c size;
               y ← elem b (c + size) size;
               if cmp_func x y <? 0 then Some (s32 (ulong (c + size))) else Some c
             else Some c);
        x ← elem b r size;
        y ← elem b c size;
        if 0 <=? cmp_func x y then Some b
        else b ← swap_func b r c size; sift_down fuel swap_func b c n size
      else Some b
  end.

(** [for ( ; i >= 0; i -= size)] *)
Fixpoint heapify (fuel fuel' : nat) (swap_func : list Z -> Z -> Z -> Z -> option (list Z)) (b : list Z) (i n size : Z) :
    option (list Z) :=
  match fuel with
  | O => None
  | S fuel =>
      if 0 <=? i then
        b ← sift_down fuel' swap_func b i n size;
        heapify fuel fuel' swap_func b (s32 (ulong (i - size))) n size
      else Some b
  end.

(** [for (i = n - size; i > 0; i -= size)] *)
Fixpoint sort_loop (fuel fuel' : nat) (swap_func : list Z -> Z -> Z -> Z -> option (list Z)) (b : list Z) (i size : Z) :
    option (list Z) :=
  match fuel with
  | O => None
  | S fuel =>
      if 0 <? i then
        b ← swap_func b 0 i size;
        b ← sift_down fuel' swap_func b 0 i size;
        sort_loop fuel fuel' swap_func b (s32 (ulong (i - size))) size
      else Some b
  end.

(** A missing [swap_func] is the NULL pointer.  No loop runs more than [num]
    times: the outer counters go down by one element and the inner ones at least
    double. *)
Definition sort (base : list Z) (num size : Z) (swap_func : option (list Z -> Z -> Z -> Z -> option (list Z))) :
    option (list Z) :=
  let i := s32 (ulong (ulong (num / 2 - 1) * size)) in
  let n := s32 (ulong (num * size)) in
  let swap_func := match swap_func with Some f => f | None => if size =? 4 then u32_swap else generic_swap end in
  let fuel := S (Z.to_nat num) in
  b ← heapify fuel fuel swap_func base i n size;
  sort_loop fuel fuel swap_func b (s32 (ulong (n - size))) size.

End code.

(** ** Heap sort on a list of elements *)

Section hsort.

Context {A : Type} `{!Inhabited A} (lt : A -> A -> bool).
Implicit Types (l : list A) (i j k n r c : nat).

Definition exchange l i j : list A := <[i := l !!! j]> (<[j := l !!! i]> l).

Definition big_child l r n : nat :=
  if ((2 * r + 2 <? n)%nat && lt (l !!! (2 * r + 1)%nat) (l !!! (2 * r + 2)%nat)) then (2 * r + 2)%nat else (2 * r + 1)%nat.

Fixpoint hsift (fuel : nat) l r n : option (list A) :=
  match fuel with
  | O => None
  | S fuel =>
      if (2 * r + 1 <? n)%nat then
        let c := big_child l r n in
        if lt (l !!! r) (l !!! c) then hsift fuel (exchange l r c) c n else Some l
      else Some l
  end.

(** Sift down the elements below [k], the last one first. *)
Fixpoint hheapify (fuel : nat) l k n : option (list A) :=
  match k with
  | O => Some l
  | S k => l ← hsift fuel l k n; hheapify fuel l k n
  end.

(** Move the maximum behind the [k] first elements, which stay a heap. *)
Fixpoint hextract (fuel : nat) l k : option (list A) :=
  match k with
  | O => Some l
  | S k' => l ← hsift fuel (exchange l 0 k) 0 k; hextract fuel l k'
  end.

Definition hsort l : option (list A) :=
  let fuel := S (length l) in
  l ← hheapify fuel l (length l / 2) (length l);
  hextract fuel l (length l - 1).

(** [y] is not before [x]. *)
Definition le (x y : A) : Prop := lt y x = false.

(** The comparison orders the elements. *)
Class Ordering : Prop := {
  lt_asym x y : lt x y = true -> lt y x = false;
  le_trans x y z : le x y -> le y z -> le x z
}.

Definition child i j : Prop := j = (2 * i + 1)%nat \/ j = (2 * i + 2)%nat.

(** The nodes from [k] on, up to [n], are at least their children. *)
Definition heap k n l : Prop :=
  forall i j, (k <= i)%nat -> child i j -> (j < n)%nat -> le (l !!! j) (l !!! i).

(** The same but for node [r], whose children are at most its parent. *)
Definition weak_heap k n r l : Prop :=
  (forall i j, (k <= i)%nat -> i <> r -> child i j -> (j < n)%nat -> le (l !!! j) (l !!! i)) /\
  (forall p j, (k <= p)%nat -> child p r -> child r j -> (j < n)%nat -> le (l !!! j) (l !!! p)).

Lemma length_exchange l i j : length (exchange l i j) = length l.
Proof. unfold exchange. by rewrite !length_insert. Qed.

Lemma exchange_lookup l i j k :
  (i < length l)%nat -> (j < length l)%nat ->
  exchange l i j !!! k = if decide (k = i) then l !!! j else if decide (k = j) then l !!! i else l !!! k.
Proof.
  intros Hi Hj. unfold exchange. case_decide as Ei; [subst; by rewrite list_lookup_total_insert_eq by (by rewrite length_insert)|].
  rewrite list_lookup_total_insert_ne by done. case_decide as Ej; [subst; by rewrite list_lookup_total_insert_eq|].
  by rewrite list_lookup_total_insert_ne.
Qed.

Lemma insert_perm l j x : (j < length l)%nat -> l !!! j :: <[j := x]> l ≡ₚ x :: l.
Proof.
  revert j. induction l as [|y l IH]; intros [|j] Hj; cbn in Hj; try lia; [apply perm_swap|].
  change (l !!! j :: y :: <[j := x]> l ≡ₚ x :: y :: l). etrans; [apply perm_swap|].
  etrans; [apply perm_skip, IH; lia|]. apply perm_swap.
Qed.

Lemma exchange_perm l i j : (i < j)%nat -> (j < length l)%nat -> exchange l i j ≡ₚ l.
Proof.
  revert i j. induction l as [|x l IH]; intros i [|j] Hi Hj; cbn in Hj; try lia. unfold exchange. destruct i as [|i]; cbn.
  - apply insert_perm. lia.
  - apply Permutation_cons; [done|]. apply IH; lia.
Qed.

Lemma exchange_drop l i j n : (i < n)%nat -> (j < n)%nat -> drop n (exchange l i j) = drop n l.
Proof. intros. unfold exchange. by rewrite !drop_insert_lt by lia. Qed.

Lemma big_child_range l r n : (2 * r + 1 < n)%nat -> (r < big_child l r n < n)%nat.
Proof. intros Hn. unfold big_child. destr_if; [apply andb_prop in Heqb as [?%Nat.ltb_lt _]|]; lia. Qed.

Lemma hsift_perm fuel l r n l' : (n <= length l)%nat -> hsift fuel l r n = Some l' -> l' ≡ₚ l.
Proof.
  revert l r. induction fuel as [|fuel IH]; intros l r Hn; [done|]. cbn [hsift].
  destruct (Nat.ltb_spec (2 * r + 1) n) as [Hr|Hr]; [|by intros [= <-]]. pose proof (big_child_range l r n Hr).
  destruct (lt _ _); [|by intros [= <-]]. intros E. apply IH in E; [|by rewrite length_exchange].
  rewrite E. apply exchange_perm; lia.
Qed.

Lemma hheapify_perm fuel l k n l' : (n <= length l)%nat -> hheapify fuel l k n = Some l' -> l' ≡ₚ l.
Proof.
  revert l. induction k as [|k IH]; intros l Hn; cbn [hheapify]; [by intros [= <-]|].
  destruct (hsift fuel l k n) as [l1|] eqn:E; [|done]. apply hsift_perm in E; [|done].
  cbn [mbind option_bind]. intros E1. apply IH in E1; [by rewrite E1|by rewrite E].
Qed.

Section correct.

Context {O : Ordering}.

Lemma le_total x y : le x y \/ le y x.
Proof. unfold le. destruct (lt y x) eqn:E; [right; by apply lt_asym|by left]. Qed.

Lemma le_refl x : le x x.
Proof. by destruct (le_total x x). Qed.

(** Both children are at most the one chosen. *)
Lemma big_child_spec l r n :
  (2 * r + 1 < n)%nat ->
  let c := big_child l r n in
  child r c /\ (r < c < n)%nat /\ forall j, child r j -> (j < n)%nat -> le (l !!! j) (l !!! c).
Proof.
  intros Hn c. subst c. unfold big_child.
  destruct ((2 * r + 2 <? n)%nat && lt (l !!! (2 * r + 1)%nat) (l !!! (2 * r + 2)%nat)) eqn:E.
  - apply andb_prop in E as [E1 E2]. apply Nat.ltb_lt in E1. split; [by right|]. split; [lia|].
    intros j [-> | ->] _; [by apply lt_asym|apply le_refl].
  - split; [by left|]. split; [lia|]. intros j [-> | ->] Hj; [apply le_refl|].
    rewrite (proj2 (Nat.ltb_lt _ _)) in E by lia. exact E.
Qed.

Lemma child_inj i j k : child i k -> child j k -> i = j.
Proof. intros [-> | ->] [? | ?]; lia. Qed.

Lemma weak_heap_down k n r l :
  (n <= length l)%nat -> (2 * r + 1 < n)%nat -> weak_heap k n r l ->
  let c := big_child l r n in
  lt (l !!! r) (l !!! c) = true -> weak_heap k n c (exchange l r c).
Proof.
  intros Hlen Hn [H1 H2] c Hlt. destruct (big_child_spec l r n Hn) as (Hc & Hrc & Hmax). fold c in Hc, Hrc, Hmax.
  assert (le (l !!! r) (l !!! c)) as Hle by (by apply lt_asym).
  assert (forall j, exchange l r c !!! j = if decide (j = r) then l !!! c else if decide (j = c) then l !!! r else l !!! j) as Hx
    by (intros j; apply exchange_lookup; lia).
  split.
  - intros i j Hi Hic Hij Hj. rewrite !Hx. destruct (decide (i = r)) as [-> |Hir].
    + destruct (decide (j = r)); [destruct Hij; lia|]. destruct (decide (j = c)) as [-> |]; [done|by apply Hmax].
    + destruct (decide (i = c)); [done|]. destruct (decide (j = r)) as [-> |]; [apply H2; done || lia|].
      destruct (decide (j = c)) as [-> |]; [by destruct Hir; apply (child_inj _ _ _ Hij Hc)|by apply H1].
  - intros p j Hp Hpc Hcj Hj. pose proof (child_inj _ _ _ Hpc Hc) as ->. rewrite !Hx.
    destruct (decide (r = r)); [|done]. destruct (decide (j = r)); [destruct Hcj; lia|].
    destruct (decide (j = c)); [destruct Hcj; lia|]. apply H1; [lia|lia|done|done].
Qed.

Lemma hsift_spec fuel l k r n :
  (n <= length l)%nat -> (k <= r)%nat -> (n - r < fuel)%nat -> weak_heap k n r l ->
  exists l', hsift fuel l r n = Some l' /\ l' ≡ₚ l /\ drop n l' = drop n l /\ heap k n l'.
Proof.
  revert l r. induction fuel as [|fuel IH]; intros l r Hlen Hk Hf Hw; [lia|]. cbn [hsift].
  destruct (Nat.ltb_spec (2 * r + 1) n) as [Hn|Hn].
  - destruct (big_child_spec l r n Hn) as (Hc & Hrc & Hmax). destruct (lt (l !!! r) (l !!! big_child l r n)) eqn:E.
    + destruct (IH (exchange l r (big_child l r n)) (big_child l r n)) as (l' & -> & Hp & Hd & Hh);
        [by rewrite length_exchange|lia|lia|by apply weak_heap_down|].
      exists l'. rewrite exchange_perm in Hp by lia. rewrite exchange_drop in Hd by lia. done.
    + exists l. split_and!; try done. intros i j Hi Hij Hj. destruct (decide (i = r)) as [-> |]; [|by apply (proj1 Hw)].
      eapply le_trans; [by apply Hmax|exact E].
  - exists l. split_and!; try done. intros i j Hi Hij Hj. apply (proj1 Hw); try done. intros ->. destruct Hij; lia.
Qed.

Lemma hheapify_spec fuel l k n :
  (n <= length l)%nat -> (n < fuel)%nat -> heap k n l ->
  exists l', hheapify fuel l k n = Some l' /\ l' ≡ₚ l /\ heap 0 n l'.
Proof.
  revert l. induction k as [|k IH]; intros l Hlen Hf Hh; cbn [hheapify]; [by exists l|].
  destruct (hsift_spec fuel l k k n) as (l1 & -> & Hp & _ & Hh1); [done|lia|lia| |].
  { split; [intros i j Hi Hne; apply Hh; lia|]. intros p j Hp [|]; lia. }
  cbn [mbind option_bind]. destruct (IH l1) as (l' & -> & Hp' & Hh'); [by rewrite Hp|done|done|].
  exists l'. split; [done|]. split; [by rewrite Hp', Hp|done].
Qed.

Lemma heap_root n l j : heap 0 n l -> (j < n)%nat -> le (l !!! j) (l !!! 0%nat).
Proof.
  intros Hh. induction j as [j IH] using lt_wf_ind. intros Hj. destruct (decide (j = 0%nat)) as [-> |Hne]; [apply le_refl|].
  set (p := ((j - 1) / 2)%nat). assert (2 * p <= j - 1 < 2 * p + 2)%nat as Hp.
  { pose proof (Nat.div_mod (j - 1) 2 ltac:(lia)) as E. pose proof (Nat.mod_upper_bound (j - 1) 2 ltac:(lia)). fold p in E. lia. }
  eapply le_trans; [apply (Hh p j)|apply IH]; [lia|unfold child; lia|lia|lia|lia].
Qed.

(** The first [k] elements are a heap, the others sorted and not before them. *)
Definition extracted k l : Prop :=
  heap 0 k l /\ StronglySorted le (drop k l) /\ Forall (fun x => Forall (le x) (drop k l)) (take k l).

Lemma take_elem l n y : (n <= length l)%nat -> y ∈ take n l <-> exists m, (m < n)%nat /\ y = l !!! m.
Proof.
  intros Hn. rewrite list_elem_of_lookup. split.
  - intros [m Hm]. apply lookup_take_Some in Hm as [Hm Hlt]. exists m. split; [done|]. by rewrite (list_lookup_total_correct _ _ _ Hm).
  - intros (m & Hlt & ->). exists m. rewrite lookup_take_lt by done. apply list_lookup_lookup_total_lt. lia.
Qed.

Lemma take_perm l l' n : l' ≡ₚ l -> drop n l' = drop n l -> take n l' ≡ₚ take n l.
Proof.
  intros Hp Hd. apply (Permutation_app_inv_r (drop n l)). rewrite <- Hd at 1. by rewrite !take_drop.
Qed.

Lemma extract_step fuel l k :
  (S k <= length l)%nat -> (k < fuel)%nat -> (0 < k)%nat -> extracted (S k) l ->
  exists l', hsift fuel (exchange l 0 k) 0 k = Some l' /\ l' ≡ₚ l /\ extracted k l'.
Proof.
  intros Hlen Hf Hk (Hh & Hs & Hb). set (x := exchange l 0 k). assert (length x = length l) as Hx by apply length_exchange.
  assert (forall j, x !!! j = if decide (j = 0%nat) then l !!! k else if decide (j = k) then l !!! 0%nat else l !!! j) as Hxl
    by (intros j; apply exchange_lookup; lia).
  assert (drop k x = l !!! 0%nat :: drop (S k) l) as Hdrop.
  { rewrite (drop_S x (l !!! 0%nat) k); [f_equal; apply exchange_drop; lia|].
    rewrite list_lookup_lookup_total_lt by lia. f_equal. rewrite Hxl. by repeat case_decide; try lia. }
  assert (x ≡ₚ l) as Hpx by (apply exchange_perm; lia).
  destruct (hsift_spec fuel x 0 0 k) as (l' & -> & Hp & Hd & Hh'); [lia|lia|lia| |].
  { split; [|intros p j _ [|]; lia]. intros i j _ Hi Hij Hj. rewrite !Hxl. unfold child in Hij.
    repeat case_decide; try lia. apply Hh; [lia|done|lia]. }
  exists l'. split; [done|]. split; [by rewrite Hp|]. split; [done|]. rewrite Hd, Hdrop.
  assert (forall y, y ∈ take (S k) l -> Forall (le y) (drop (S k) l)) as Hbelow by (by apply list.Forall_forall).
  split.
  - constructor; [done|]. apply Hbelow, take_elem; [done|]. exists 0%nat. split; [lia|done].
  - apply list.Forall_forall. intros y Hy. rewrite (take_perm x l' k Hp Hd) in Hy.
    apply take_elem in Hy as (m & Hm & ->); [|lia].
    assert (exists m', (m' < S k)%nat /\ x !!! m = l !!! m') as (m' & Hm' & ->).
    { rewrite Hxl. repeat case_decide; eexists; (split; [|reflexivity]); lia. }
    constructor; [by apply (heap_root (S k))|]. apply Hbelow, take_elem; [done|]. by exists m'.
Qed.

Lemma hextract_spec fuel l k :
  (S k <= length l)%nat -> (k < fuel)%nat -> extracted (S k) l ->
  exists l', hextract fuel l k = Some l' /\ l' ≡ₚ l /\ StronglySorted le l'.
Proof.
  revert l. induction k as [|k IH]; intros l Hlen Hf He.
  - exists l. split; [done|]. split; [done|]. destruct He as (_ & Hs & Hb). destruct l as [|x l]; [cbn in Hlen; lia|].
    cbn in Hs, Hb. inversion Hb; subst. rewrite drop_0 in *. by constructor.
  - cbn [hextract]. destruct (extract_step fuel l (S k)) as (l1 & -> & Hp & He1); [done|lia|lia|done|].
    cbn [mbind option_bind]. destruct (IH l1) as (l' & -> & Hp' & Hs'); [rewrite Hp; lia|lia|done|].
    exists l'. split; [done|]. split; [by rewrite Hp', Hp|done].
Qed.

Lemma hsort_spec l : exists l', hsort l = Some l' /\ l' ≡ₚ l /\ StronglySorted le l'.
Proof.
  unfold hsort. destruct (hheapify_spec (S (length l)) l (length l / 2) (length l)) as (l1 & -> & Hp & Hh); [lia|lia| |].
  { intros i j Hi Hij Hj. exfalso. pose proof (Nat.div_mod (length l) 2 ltac:(lia)) as E.
    pose proof (Nat.mod_upper_bound (length l) 2 ltac:(lia)). unfold child in Hij. lia. }
  cbn [mbind option_bind]. assert (length l1 = length l) as -> by (by rewrite Hp). destruct (decide (length l = 0)%nat) as [E|E].
  { destruct l; [|done]. apply Permutation_nil_r in Hp as ->. exists []. split; [done|]. split; [done|constructor]. }
  destruct (hextract_spec (S (length l)) l1 (length l - 1)) as (l' & -> & Hp' & Hs); [rewrite Hp; lia|lia| |].
  { replace (S (length l - 1)) with (length l) by lia. split; [done|]. rewrite drop_ge by (rewrite Hp; lia).
    split; [constructor|]. apply list.Forall_forall. intros; constructor. }
  exists l'. split; [done|]. split; [by rewrite Hp', Hp|done].
Qed.

End correct.

End hsort.

(** Only the comparisons between elements of the list matter. *)
Section ext.

Context {A : Type} `{!Inhabited A} (lt lt' : A -> A -> bool).
Implicit Types (l : list A) (k n r : nat).

Definition agree l : Prop := forall x y, x ∈ l -> y ∈ l -> lt x y = lt' x y.

Lemma agree_lookup l i j : agree l -> (i < length l)%nat -> (j < length l)%nat -> lt (l !!! i) (l !!! j) = lt' (l !!! i) (l !!! j).
Proof. intros Ha Hi Hj. apply Ha; apply list_elem_of_lookup; eexists; by apply list_lookup_lookup_total_lt. Qed.

Lemma agree_perm l l' : l' ≡ₚ l -> agree l -> agree l'.
Proof. intros Hp Ha x y. rewrite Hp. apply Ha. Qed.

Lemma hsift_ext fuel l r n : agree l -> (n <= length l)%nat -> hsift lt fuel l r n = hsift lt' fuel l r n.
Proof.
  revert l r. induction fuel as [|fuel IH]; intros l r Ha Hn; [done|]. cbn [hsift].
  destruct (Nat.ltb_spec (2 * r + 1) n) as [Hr|Hr]; [|done].
  assert (big_child lt l r n = big_child lt' l r n) as E.
  { unfold big_child. destruct (Nat.ltb_spec (2 * r + 2) n); [|done]. cbn [andb]. by rewrite agree_lookup by (done || lia). }
  rewrite E. pose proof (big_child_range lt' l r n Hr). rewrite agree_lookup by (done || lia). destruct (lt' _ _); [|done].
  apply IH; [|by rewrite length_exchange]. eapply agree_perm; [apply exchange_perm; lia|done].
Qed.

Lemma hheapify_ext fuel l k n : agree l -> (n <= length l)%nat -> hheapify lt fuel l k n = hheapify lt' fuel l k n.
Proof.
  revert l. induction k as [|k IH]; intros l Ha Hn; [done|]. cbn [hheapify]. rewrite hsift_ext by done.
  destruct (hsift lt' fuel l k n) as [l1|] eqn:E; [|done]. apply hsift_perm in E; [|done]. cbn [mbind option_bind].
  apply IH; [by eapply agree_perm|by rewrite E].
Qed.

Lemma hextract_ext fuel l k : agree l -> (k < length l)%nat -> hextract lt fuel l k = hextract lt' fuel l k.
Proof.
  revert l. induction k as [|k IH]; intros l Ha Hk; [done|]. cbn [hextract].
  assert (exchange l 0 (S k) ≡ₚ l) as Hx by (apply exchange_perm; lia).
  rewrite hsift_ext; [|by eapply agree_perm|rewrite length_exchange; lia].
  destruct (hsift lt' fuel _ 0 (S k)) as [l1|] eqn:E; [|done]. apply hsift_perm in E; [|rewrite length_exchange; lia].
  cbn [mbind option_bind]. rewrite Hx in E. apply IH; [by eapply agree_perm|rewrite E; lia].
Qed.

Lemma hsort_ext l : agree l -> hsort lt l = hsort lt' l.
Proof.
  intros Ha. unfold hsort. rewrite hheapify_ext by done. destruct (hheapify lt' _ l _ _) as [l1|] eqn:E; [|done].
  apply hheapify_perm in E; [|done]. cbn [mbind option_bind]. destruct l1 as [|x l1]; [done|].
  apply hextract_ext; [by eapply agree_perm|cbn; lia].
Qed.

End ext.

(** ** The bytes of an array of elements *)

Section bytes.

Implicit Types (l : list (list Z)) (i j k n r c : nat).

Definition chunks (k : nat) l : Prop := Forall (fun e => length e = k) l.

Lemma length_bytes k l : chunks k l -> length (concat l) = (length l * k)%nat.
Proof. induction 1 as [|e l He _ IH]; cbn [concat length]; [done|]. rewrite length_app. lia. Qed.

Lemma drop_bytes k l i : chunks k l -> drop (i * k) (concat l) = concat (drop i l).
Proof.
  intros Hl. revert i. induction Hl as [|e l He Hl IH]; intros [|i]; try done; [apply drop_nil|].
  cbn [concat drop Nat.mul]. rewrite <- He at 1. rewrite drop_app_add. apply IH.
Qed.

Lemma take_bytes k l i : chunks k l -> take (i * k) (concat l) = concat (take i l).
Proof.
  intros Hl. revert i. induction Hl as [|e l He Hl IH]; intros [|i]; try done; [apply take_nil|].
  cbn [concat take Nat.mul]. rewrite <- He at 1. rewrite take_app_add. by rewrite IH.
Qed.

Lemma chunk_length k l i : chunks k l -> (i < length l)%nat -> length (l !!! i) = k.
Proof.
  intros Hl Hi. apply list.Forall_forall with (x := l !!! i) in Hl; [done|].
  apply list_elem_of_lookup. exists i. by apply list_lookup_lookup_total_lt.
Qed.

Lemma chunks_exchange k l i j : chunks k l -> (i < length l)%nat -> (j < length l)%nat -> chunks k (exchange l i j).
Proof.
  intros Hl Hi Hj. unfold exchange. apply Forall_insert; [apply Forall_insert; [done|]|]; by apply chunk_length.
Qed.

Variable sz : Z.
Hypothesis Hsz : 0 < sz.
Let k := Z.to_nat sz.

Lemma elem_bytes l i :
  chunks k l -> (i < length l)%nat -> elem (concat l) (Z.of_nat i * sz) sz = Some (l !!! i).
Proof.
  intros Hl Hi. unfold elem. pose proof (length_bytes _ _ Hl) as Hlen. pose proof (chunk_length _ _ _ Hl Hi) as He.
  destruct (Z.leb_spec 0 (Z.of_nat i * sz)); [|lia]. destruct (Z.leb_spec (Z.of_nat i * sz + sz) (zlen (concat l))); [|subst k; nia].
  cbn [andb]. f_equal. replace (Z.to_nat (Z.of_nat i * sz)) with (i * k)%nat by (subst k; nia). fold k.
  rewrite drop_bytes by done. rewrite (drop_S _ (l !!! i)) by (by apply list_lookup_lookup_total_lt). cbn [concat].
  by rewrite take_app_length'.
Qed.

Lemma memcpy_bytes l i e :
  chunks k l -> (i < length l)%nat -> length e = k -> memcpy_at (concat l) (Z.of_nat i * sz) e = concat (<[i := e]> l).
Proof.
  intros Hl Hi He. unfold memcpy_at. replace (Z.to_nat (Z.of_nat i * sz)) with (i * k)%nat by (subst k; nia).
  rewrite He, take_bytes by done. replace (i * k + k)%nat with (S i * k)%nat by lia. rewrite drop_bytes by done.
  rewrite insert_take_drop by done. by rewrite concat_app.
Qed.

(** What both swap routines do. *)
Definition swapped (b : list Z) (p q n : Z) : list Z :=
  memcpy_at (memcpy_at b p (take (Z.to_nat n) (drop (Z.to_nat q) b))) q (take (Z.to_nat n) (drop (Z.to_nat p) b)).

Lemma swapped_bytes l i j :
  chunks k l -> (i < j)%nat -> (j < length l)%nat ->
  swapped (concat l) (Z.of_nat i * sz) (Z.of_nat j * sz) sz = concat (exchange l i j).
Proof.
  intros Hl Hi Hj. pose proof (elem_bytes l i Hl ltac:(lia)) as Ei. pose proof (elem_bytes l j Hl Hj) as Ej.
  unfold elem in Ei, Ej. destr_if_in Ei; [|done]. destr_if_in Ej; [|done]. injection Ei as Ei. injection Ej as Ej.
  unfold swapped. rewrite Ei, Ej, memcpy_bytes by (done || lia || by apply chunk_length).
  rewrite memcpy_bytes; [|apply Forall_insert; [done|by apply chunk_length]|by rewrite length_insert|apply chunk_length; [done|lia]].
  unfold exchange. f_equal. apply list_insert_insert_ne. lia.
Qed.

End bytes.

Section swap.

Lemma elem_some b p n : 0 <= p -> p + n <= zlen b -> elem b p n = Some (take (Z.to_nat n) (drop (Z.to_nat p) b)).
Proof. intros. unfold elem. destruct (Z.leb_spec 0 p), (Z.leb_spec (p + n) (zlen b)); cbn; lia || done. Qed.

Lemma set_bytes_some b p src : 0 <= p -> p + zlen src <= zlen b -> set_bytes b p src = Some (memcpy_at b p src).
Proof. intros. unfold set_bytes. destruct (Z.leb_spec 0 p), (Z.leb_spec (p + zlen src) (zlen b)); cbn; lia || done. Qed.

Lemma length_slice (b : list Z) p n : 0 <= p -> 0 <= n -> p + n <= zlen b -> zlen (take (Z.to_nat n) (drop (Z.to_nat p) b)) = n.
Proof. intros. rewrite length_take, length_drop. lia. Qed.

Lemma znth_slice b p n j : 0 <= p -> 0 <= j < n -> znth (take (Z.to_nat n) (drop (Z.to_nat p) b)) j = znth b (p + j).
Proof. intros. rewrite znth_take, znth_drop by lia. f_equal. lia. Qed.

(** Disjoint blocks of [n] bytes at [p] and [q]. *)
Definition apart (b : list Z) (p q n : Z) : Prop := 0 < n /\ 0 <= p /\ p + n <= q /\ q + n <= zlen b.

Lemma length_swapped b p q n : apart b p q n -> zlen (swapped b p q n) = zlen b.
Proof.
  intros (Hn & Hp & Hq & Hb). unfold swapped.
  rewrite !zlen_memcpy_at; rewrite ?zlen_memcpy_at; rewrite ?length_slice; lia.
Qed.

Lemma znth_swapped b p q n j :
  apart b p q n -> 0 <= j ->
  znth (swapped b p q n) j =
    if (p <=? j) && (j <? p + n) then znth b (q + (j - p))
    else if (q <=? j) && (j <? q + n) then znth b (p + (j - q)) else znth b j.
Proof.
  intros (Hn & Hp & Hq & Hb) Hj. unfold swapped.
  assert (zlen (memcpy_at b p (take (Z.to_nat n) (drop (Z.to_nat q) b))) = zlen b) as Hl
    by (rewrite zlen_memcpy_at; rewrite ?length_slice; lia).
  rewrite znth_memcpy_at, length_slice by (rewrite ?length_slice; lia).
  rewrite znth_memcpy_at, length_slice by (rewrite ?length_slice; lia).
  destruct (Z.leb_spec p j), (Z.ltb_spec j (p + n)), (Z.leb_spec q j), (Z.ltb_spec j (q + n)); cbn [andb]; try lia;
    rewrite ?znth_slice by lia; done.
Qed.

Lemma u32_swap_eq b p q size : apart b p q 4 -> u32_swap b p q size = Some (swapped b p q 4).
Proof.
  intros (Hn & Hp & Hq & Hb). unfold u32_swap. rewrite !elem_some by lia. cbn [mbind option_bind].
  rewrite set_bytes_some by (rewrite ?length_slice; lia). cbn [mbind option_bind].
  by rewrite set_bytes_some by (rewrite ?zlen_memcpy_at; rewrite ?length_slice; lia).
Qed.

(** Splits on every comparison of the goal and drops the impossible cases. *)
Ltac case_bounds :=
  repeat match goal with
  | |- context [?x <=? ?y] => destruct (Z.leb_spec x y)
  | |- context [?x <? ?y] => destruct (Z.ltb_spec x y)
  end; cbn [andb]; try lia.

(** Swapping the first bytes and then the rest swaps the blocks. *)
Lemma swapped_step b p q n :
  1 < n -> apart b p q n -> swapped (swapped b p q 1) (p + 1) (q + 1) (n - 1) = swapped b p q n.
Proof.
  intros H1 Ha. assert (apart b p q 1) as Ha1 by (unfold apart in *; lia).
  assert (apart (swapped b p q 1) (p + 1) (q + 1) (n - 1)) as Ha2 by (unfold apart in *; rewrite length_swapped; unfold apart; lia).
  apply list_eq_znth; [apply Nat2Z.inj; by rewrite !length_swapped|]. intros i. rewrite !length_swapped by done. intros Hi.
  destruct Ha as (_ & ? & ? & ?). rewrite !(znth_swapped _ _ _ n), (znth_swapped _ (p + 1)) by (unfold apart; lia || done || lia).
  case_bounds; rewrite ?(znth_swapped b p q 1) by (done || lia); case_bounds; f_equal; lia.
Qed.

Lemma generic_swap_eq n b p q : apart b p q (Z.of_nat n) -> generic_swap_loop n b p q = Some (swapped b p q (Z.of_nat n)).
Proof.
  revert b p q. induction n as [|n IH]; intros b p q Ha; [destruct Ha; lia|].
  assert (apart b p q 1) as Ha1 by (unfold apart in *; lia).
  assert (forall (f : list Z -> option (list Z)),
    (t ← elem b p 1; u ← elem b q 1; b ← set_bytes b p u; b ← set_bytes b q t; f b) = f (swapped b p q 1)) as Hone.
  { intros f. destruct Ha1 as (_ & Hp & Hq & Hb). rewrite !elem_some by lia. cbn [mbind option_bind].
    rewrite set_bytes_some by (rewrite ?length_slice; lia). cbn [mbind option_bind].
    by rewrite set_bytes_some by (rewrite ?zlen_memcpy_at; rewrite ?length_slice; lia). }
  cbn [generic_swap_loop]. destruct n as [|n]; [by rewrite (Hone Some)|]. rewrite Hone. rewrite IH.
  - f_equal. rewrite <- (swapped_step _ _ _ (Z.of_nat (S (S n)))) by (done || lia). f_equal. lia.
  - unfold apart in *. rewrite length_swapped by (unfold apart; lia). lia.
Qed.

End swap.

(** ** The code simulates the heap sort of the elements *)

(** What [sort] relies on from a swap function of its caller. *)
Definition swaps (sz : Z) (f : list Z -> Z -> Z -> Z -> option (list Z)) : Prop :=
  forall l i j, chunks (Z.to_nat sz) l -> (i < j)%nat -> (j < length l)%nat ->
    f (concat l) (Z.of_nat i * sz) (Z.of_nat j * sz) sz = Some (concat (exchange l i j)).

Section simulation.

Context `{LongWidth} (cmp : list Z -> list Z -> Z) (sz : Z).
Hypothesis Hsz : 0 < sz.
Let chunked := chunks (Z.to_nat sz).
Let lt x y := cmp x y <? 0.
Implicit Types (l : list (list Z)) (i j k n r : nat).

Lemma blocks_apart l i j :
  chunked l -> (i < j)%nat -> (j < length l)%nat -> apart (concat l) (Z.of_nat i * sz) (Z.of_nat j * sz) sz.
Proof. intros Hl Hi Hj. pose proof (length_bytes _ _ Hl). unfold apart. split_and!; nia. Qed.

Lemma generic_swap_swaps : swaps sz generic_swap.
Proof.
  intros l i j Hl Hi Hj. unfold generic_swap. pose proof (blocks_apart l i j Hl Hi Hj) as Ha.
  rewrite <- (swapped_bytes sz Hsz) by done. rewrite generic_swap_eq; rewrite Z2Nat.id by lia; done.
Qed.

Lemma u32_swap_swaps : sz = 4 -> swaps sz u32_swap.
Proof.
  intros E l i j Hl Hi Hj. pose proof (blocks_apart l i j Hl Hi Hj) as Ha.
  rewrite <- (swapped_bytes sz Hsz) by done. rewrite u32_swap_eq; by rewrite E in *.
Qed.

Variable swap : list Z -> Z -> Z -> Z -> option (list Z).
Hypothesis Hswap : swaps sz swap.

Lemma sift_sim fuel l r n :
  chunked l -> (n <= length l)%nat -> (r <= n)%nat -> Z.of_nat n * sz < 2 ^ 30 ->
  sift_down cmp fuel swap (concat l) (Z.of_nat r * sz) (Z.of_nat n * sz) sz = @concat Z <$> hsift lt fuel l r n.
Proof.
  revert l r. induction fuel as [|fuel IH]; intros l r Hl Hn Hr Hb; [done|]. cbn [sift_down hsift].
  assert (0 <= Z.of_nat r * sz <= Z.of_nat n * sz) by nia.
  rewrite (s32_small (_ * 2)) by lia. replace (Z.of_nat r * sz * 2 + sz) with (Z.of_nat (2 * r + 1) * sz) by lia.
  rewrite (ulong_small (Z.of_nat n * sz)) by lia. destruct (Nat.ltb_spec (2 * r + 1) n) as [Hlt|Hge].
  - assert (Z.of_nat (2 * r + 1) * sz < Z.of_nat n * sz) by nia. rewrite (ulong_small (Z.of_nat (2 * r + 1) * sz)) by lia.
    rewrite (proj2 (Z.ltb_lt _ _)) by lia. rewrite (s32_small (Z.of_nat (2 * r + 1) * sz)) by lia.
    replace (Z.of_nat n * sz - sz) with (Z.of_nat (n - 1) * sz) by nia. rewrite !ulong_small by nia.
    replace (Z.of_nat (2 * r + 1) * sz + sz) with (Z.of_nat (2 * r + 2) * sz) by nia.
    match goal with |- ?m ≫= _ = _ => assert (m = Some (Z.of_nat (big_child lt l r n) * sz)) as -> end.
    { unfold big_child. destruct (Nat.ltb_spec (2 * r + 2) n); cbn [andb];
        [rewrite (proj2 (Z.ltb_lt _ _)) by nia|by rewrite (proj2 (Z.ltb_ge _ _)) by nia].
      rewrite !(elem_bytes sz Hsz) by (done || lia). cbn [mbind option_bind]. unfold lt.
      destr_if; [by rewrite s32_small by nia|done]. }
    cbn [mbind option_bind]. pose proof (big_child_range lt l r n Hlt).
    set (c := big_child lt l r n) in *. rewrite !(elem_bytes sz Hsz) by (done || lia). cbn [mbind option_bind]. unfold lt at 1.
    destruct (Z.leb_spec 0 (cmp (l !!! r) (l !!! c))), (Z.ltb_spec (cmp (l !!! r) (l !!! c)) 0); try lia; [done|].
    rewrite Hswap by (done || lia). cbn [mbind option_bind]. apply IH; [apply chunks_exchange; done || lia|by rewrite length_exchange|lia|done].
  - rewrite (proj2 (Z.ltb_ge _ _)); [done|]. destruct n as [|n]; [apply ulong_range|]. rewrite ulong_small; nia.
Qed.

Lemma hsift_chunked fuel l r n l' :
  chunked l -> (n <= length l)%nat -> hsift lt fuel l r n = Some l' -> chunked l' /\ length l' = length l.
Proof. intros Hl Hn E. apply hsift_perm in E; [|done]. unfold chunked, chunks in *. by rewrite E. Qed.

Lemma hheapify_chunked fuel l k n l' :
  chunked l -> (n <= length l)%nat -> hheapify lt fuel l k n = Some l' -> chunked l' /\ length l' = length l.
Proof. intros Hl Hn E. apply hheapify_perm in E; [|done]. unfold chunked, chunks in *. by rewrite E. Qed.

Lemma heapify_sim fuel fuel' l k n :
  chunked l -> (n <= length l)%nat -> (k <= n)%nat -> (k < fuel)%nat -> Z.of_nat n * sz < 2 ^ 30 -> sz < 2 ^ 30 ->
  heapify cmp fuel fuel' swap (concat l) (Z.of_nat k * sz - sz) (Z.of_nat n * sz) sz = @concat Z <$> hheapify lt fuel' l k n.
Proof.
  revert l k. induction fuel as [|fuel IH]; intros l k Hl Hn Hk Hf Hb Hs; [lia|]. cbn [heapify].
  destruct k as [|k]; cbn [hheapify].
  { rewrite (proj2 (Z.leb_gt _ _)) by lia. done. }
  rewrite (proj2 (Z.leb_le _ _)) by nia. replace (Z.of_nat (S k) * sz - sz) with (Z.of_nat k * sz) by lia.
  rewrite sift_sim by (done || lia). destruct (hsift lt fuel' l k n) as [l1|] eqn:E; [|done].
  apply hsift_chunked in E as [Hl1 Hlen1]; [|done|done]. cbn [fmap option_fmap option_map mbind option_bind].
  rewrite s32_ulong by nia. apply IH; done || lia.
Qed.

Lemma sort_loop_sim fuel fuel' l k :
  chunked l -> (k < length l)%nat -> (k < fuel)%nat -> Z.of_nat k * sz < 2 ^ 30 -> sz < 2 ^ 30 ->
  sort_loop cmp fuel fuel' swap (concat l) (Z.of_nat k * sz) sz = @concat Z <$> hextract lt fuel' l k.
Proof.
  revert l k. induction fuel as [|fuel IH]; intros l k Hl Hk Hf Hb Hs; [lia|]. cbn [sort_loop].
  destruct k as [|k]; cbn [hextract]; [done|].
  rewrite (proj2 (Z.ltb_lt _ _)) by nia. pose proof (Hswap l 0%nat (S k) Hl ltac:(lia) Hk) as E0. change (Z.of_nat 0 * sz) with 0 in E0.
  rewrite E0. cbn [mbind option_bind].
  pose proof (chunks_exchange _ _ 0%nat (S k) Hl ltac:(lia) Hk) as Hx.
  pose proof (sift_sim fuel' (exchange l 0 (S k)) 0%nat (S k) Hx ltac:(rewrite length_exchange; lia) ltac:(lia) Hb) as Es.
  change (Z.of_nat 0 * sz) with 0 in Es. rewrite Es.
  destruct (hsift lt fuel' (exchange l 0 (S k)) 0 (S k)) as [l1|] eqn:E; [|done].
  apply hsift_chunked in E as [Hl1 Hlen1]; [|done|rewrite length_exchange; lia]. rewrite length_exchange in Hlen1.
  cbn [fmap option_fmap option_map mbind option_bind].
  replace (Z.of_nat (S k) * sz - sz) with (Z.of_nat k * sz) by lia. rewrite s32_ulong by nia. apply IH; done || lia || nia.
Qed.

End simulation.

Lemma sort_sim `{LongWidth} cmp sz l sw :
  0 < sz -> chunks (Z.to_nat sz) l -> zlen l * sz < 2 ^ 30 -> sz < 2 ^ 30 ->
  match sw with Some f => swaps sz f | None => True end ->
  sort cmp (concat l) (zlen l) sz sw = @concat Z <$> hsort (fun x y => cmp x y <? 0) l.
Proof.
  intros Hsz Hl Hb Hs Hsw. unfold sort.
  set (f := match sw with Some f => f | None => if sz =? 4 then u32_swap else generic_swap end).
  assert (swaps sz f) as Hf.
  { subst f. destruct sw; [done|]. destruct (Z.eqb_spec sz 4); [by apply u32_swap_swaps|by apply generic_swap_swaps]. }
  assert (0 <= zlen l * sz) by nia. rewrite Nat2Z.id, (s32_ulong (zlen l * sz)) by lia.
  assert (s32 (ulong (ulong (zlen l / 2 - 1) * sz)) = Z.of_nat (length l / 2) * sz - sz) as ->.
  { unfold ulong. rewrite uwrap_mul_l. fold ulong. change (2 : Z) with (Z.of_nat 2). rewrite <- Nat2Z.inj_div.
    assert (length l / 2 <= length l)%nat by (apply Nat.Div0.div_le_upper_bound; lia).
    change (s32 (ulong ((Z.of_nat (length l / 2) - 1) * sz)) = Z.of_nat (length l / 2) * sz - sz).
    rewrite s32_ulong; [lia|]. split; nia. }
  unfold hsort. rewrite (heapify_sim cmp sz Hsz f Hf); [|done|lia|apply Nat.Div0.div_le_upper_bound; lia| |done|done].
  2: { assert (length l / 2 <= length l)%nat by (apply Nat.Div0.div_le_upper_bound; lia). lia. }
  destruct (hheapify _ _ l _ _) as [l1|] eqn:E; [|done]. apply (hheapify_chunked cmp sz) in E as [Hl1 Hlen1]; [|done|done].
  cbn [fmap option_fmap option_map mbind option_bind]. rewrite Hlen1, s32_ulong by lia. destruct (length l) as [|k] eqn:Ek.
  - cbn [sort_loop hextract Nat.sub]. rewrite (proj2 (Z.ltb_ge _ _)) by lia. done.
  - replace (Z.of_nat (S k) * sz - sz) with (Z.of_nat k * sz) by lia. cbn [Nat.sub]. rewrite Nat.sub_0_r.
    apply sort_loop_sim; done || nia.
Qed.

Lemma sort_spec `{LongWidth} cmp lt sz l sw :
  0 < sz < 2 ^ 30 -> chunks (Z.to_nat sz) l -> zlen l * sz < 2 ^ 30 ->
  match sw with Some f => swaps sz f | None => True end ->
  Ordering lt -> agree (fun x y => cmp x y <? 0) lt l ->
  exists l', sort cmp (concat l) (zlen l) sz sw = Some (concat l') /\ chunks (Z.to_nat sz) l' /\
    l' ≡ₚ l /\ StronglySorted (fun x y => 0 <= cmp y x) l'.
Proof.
  intros [Hsz Hs] Hl Hb Hsw Hord Ha. rewrite sort_sim, (hsort_ext _ lt) by done. destruct (hsort_spec lt l) as (l' & -> & Hp & Hst).
  exists l'. split; [done|]. split; [unfold chunks; by rewrite Hp|]. split; [done|].
  assert (forall x y, x ∈ l' -> y ∈ l' -> (cmp x y <? 0) = lt x y) as Ha' by (intros x y; rewrite Hp; apply Ha). clear Hp Ha.
  induction Hst as [|x k _ IH Hx]; constructor; [apply IH; intros; apply Ha'; by right|].
  rewrite list.Forall_forall in *. intros y Hy. apply Z.ltb_ge. rewrite Ha' by (by constructor). by apply Hx.
Qed.

(** C10. [sort] on an array of less than 1 GB ends and leaves a permutation of its
    elements in the order of [cmp_func], which has to be an order on the elements
    of the array only, with the built-in swap functions (both the byte loop and
    the one for 4-byte elements) and with any that exchanges two elements; it
    accesses nothing outside of the array. *)
Theorem sort_sorts `{LongWidth} cmp lt sz l sw :
  0 < sz < 2 ^ 30 -> chunks (Z.to_nat sz) l -> zlen l * sz < 2 ^ 30 ->
  match sw with Some f => swaps sz f | None => True end ->
  Ordering lt -> agree (fun x y => cmp x y <? 0) lt l ->
  exists l', sort cmp (concat l) (zlen l) sz sw = Some (concat l') /\ chunks (Z.to_nat sz) l' /\
    l' ≡ₚ l /\ StronglySorted (fun x y => 0 <= cmp y x) l'.
Proof. intros. by eapply sort_spec. Qed.

(** ** Witness: 16-bit numbers, least significant byte first *)

Definition le16 (e : list Z) : Z := znth e 0 + 256 * znth e 1.
Definition cmp16 (x y : list Z) : Z := le16 x - le16 y.

Lemma cmp16_ordering : Ordering (fun x y => cmp16 x y <? 0).
Proof. split; unfold le, cmp16; intros *; rewrite ?Z.ltb_lt, ?Z.ltb_ge; lia. Qed.

Lemma sort_sorts_witness :
  exists l', @sort long32 cmp16 [5; 1; 3; 0; 4; 1] 3 2 None = Some (concat l') /\ l' ≡ₚ [[5; 1]; [3; 0]; [4; 1]].
Proof.
  destruct (@sort_sorts long32 cmp16 (fun x y => cmp16 x y <? 0) 2 [[5; 1]; [3; 0]; [4; 1]] None) as (l' & E & _ & Hp & _);
    [lia|repeat constructor|cbn; lia|exact I|exact cmp16_ordering|by intros x y _ _|]. exists l'. split; [exact E|exact Hp].
Defined.
