(* ===== verification/Range.v ===== *)
(** * Sets of address ranges (kernel/range.c)

    A fixed array of half-open ranges [start, end); a slot whose [end] is 0 is
    free.  The theorems read the array as the set of numbers it covers.  Sorting
    goes through the byte-level [sort] of Sort on the little-endian image of the
    array, with [cmp_range], whose [int] result is the low half of a 64-bit
    difference. *)

From Stdlib Require Import ZArith Lia.
From stdpp Require Import base numbers list option sorting.
From S2P Require Import Prelude Sort.

Local Open Scope Z_scope.

Record range := mk_range { r_start : Z; r_end : Z }.

#[export] Instance range_inhabited : Inhabited range := populate (mk_range 0 0).
#[export] Instance range_eq_dec : EqDecision range.
Proof. solve_decision. Defined.

(** ** Adding and subtracting *)

(** The array and the number of slots in use. *)
Definition add_range (arr : list range) (az nr_range start end_ : Z) : Z * list range :=
  if end_ <=? start then (nr_range, arr)
  else if az <=? nr_range then (nr_range, arr)
  else (nr_range + 1, <[Z.to_nat nr_range := mk_range start end_]> arr).

(** The loop of [add_range_with_merge] from index [i], [n] slots to go; [None]
    when nothing was merged. *)
Fixpoint merge_loop (n : nat) (arr : list range) (i : nat) (start end_ : Z) : option (list range) :=
  match n with
  | O => None
  | S n =>
      let r := arr !!! i in
      if r_end r =? 0 then merge_loop n arr (S i) start end_
      else
        let common_start := Z.max (r_start r) start in
        let common_end := Z.min (r_end r) end_ in
        if common_end <? common_start then merge_loop n arr (S i) start end_
        else
          let final_start := Z.min (r_start r) start in
          let final_end := Z.max (r_end r) end_ in
          Some (<[i := mk_range final_start final_end]> arr)
  end.

Definition add_range_with_merge (arr : list range) (az nr_range start end_ : Z) : Z * list range :=
  if end_ <=? start then (nr_range, arr)
  else match merge_loop (Z.to_nat nr_range) arr 0 start end_ with
  | Some arr => (nr_range, arr)
  | None => add_range arr az nr_range start end_
  end.

(** The first slot with [end == 0], or the number of slots. *)
Fixpoint first_free (arr : list range) : nat :=
  match arr with
  | [] => O
  | r :: arr => if r_end r =? 0 then O else S (first_free arr)
  end.

Definition subtract_slot (arr : list range) (az : Z) (j : nat) (start end_ : Z) : list range :=
  let r := arr !!! j in
  if r_end r =? 0 then arr
  else if (start <=? r_start r) && (r_end r <=? end_) then <[j := mk_range 0 0]> arr
  else if (start <=? r_start r) && (end_ <? r_end r) && (r_start r <? end_) then <[j := mk_range end_ (r_end r)]> arr
  else if (r_start r <? start) && (r_end r <=? end_) && (start <? r_end r) then <[j := mk_range (r_start r) start]> arr
  else if (r_start r <? start) && (end_ <? r_end r) then
    let i := first_free arr in
    let arr := if Z.of_nat i <? az then <[i := mk_range end_ (r_end r)]> arr else arr in
    <[j := mk_range (r_start (arr !!! j)) start]> arr
  else arr.

Fixpoint subtract_loop (n : nat) (arr : list range) (az : Z) (j : nat) (start end_ : Z) : list range :=
  match n with
  | O => arr
  | S n => subtract_loop n (subtract_slot arr az j start end_) az (S j) start end_
  end.

Definition subtract_range (arr : list range) (az start end_ : Z) : list range :=
  if end_ <=? start then arr else subtract_loop (Z.to_nat az) arr az 0 start end_.

(** ** Sorting *)

(** A [struct range] in memory: two little-endian 64-bit words. *)
Fixpoint le_bytes (n : nat) (x : Z) : list Z :=
  match n with
  | O => []
  | S n => x mod 256 :: le_bytes n (x / 256)
  end.
Fixpoint le_val (b : list Z) : Z :=
  match b with
  | [] => 0
  | x :: b => x + 256 * le_val b
  end.

Definition SIZEOF_RANGE : Z := 16.
Definition range_bytes (r : range) : list Z := le_bytes 8 (r_start r) ++ le_bytes 8 (r_end r).
Definition range_of (b : list Z) : range := mk_range (le_val (take 8 b)) (le_val (drop 8 b)).

Fixpoint ranges_of (n : nat) (b : list Z) : list range :=
  match n with
  | O => []
  | S n => range_of (take 16 b) :: ranges_of n (drop 16 b)
  end.

(** The difference of two [s64], converted to [int]. *)
Definition cmp_range (x1 x2 : list Z) : Z :=
  let start1 := s64 (r_start (range_of x1)) in
  let start2 := s64 (r_start (range_of x2)) in
  s32 (s64 (start1 - start2)).

Section sorting.

Context `{LongWidth}.

Definition sort_range (arr : list range) (nr_range : Z) : option (list range) :=
  let n := Z.to_nat nr_range in
  b ← sort cmp_range (concat (range_bytes <$> take n arr)) nr_range SIZEOF_RANGE None;
  Some (ranges_of n b ++ drop n arr).

(** [for (j = k; j > i; j--) if (range[j].end) break]: the index it ends with. *)
Fixpoint last_used (j i : nat) (arr : list range) : nat :=
  match j with
  | O => O
  | S j' => if (i <? j)%nat then if r_end (arr !!! j) =? 0 then last_used j' i arr else j else j
  end.

(** The outer loop, from index [i]; [n] bounds the rounds. *)
Fixpoint compact_loop (n : nat) (arr : list range) (i k : nat) : list range :=
  match n with
  | O => arr
  | S n =>
      if (i <? k)%nat then
        if negb (r_end (arr !!! i) =? 0) then compact_loop n arr (S i) k
        else
          let j := last_used k i arr in
          if (j =? i)%nat then arr
          else compact_loop n (<[j := mk_range 0 0]> (<[i := arr !!! j]> arr)) (S i) (j - 1)
      else arr
  end.

Definition clean_sort_range (arr : list range) (az : Z) : option (Z * list range) :=
  let arr := compact_loop (Z.to_nat az) arr 0 (Z.to_nat (az - 1)) in
  let nr_range := Z.min (Z.of_nat (first_free arr)) az in
  arr ← sort_range arr nr_range;
  Some (nr_range, arr).

End sorting.

(** ** The set of numbers an array covers *)

Definition inr (r : range) (x : Z) : Prop := r_start r <= x < r_end r.
Definition covers (arr : list range) (x : Z) : Prop := exists i, (i < length arr)%nat /\ inr (arr !!! i) x.

(** A free slot, or a range that is not empty. *)
Definition slot_ok (r : range) : Prop := 0 <= r_start r /\ (r_end r = 0 \/ r_start r < r_end r).
Definition ranges_ok (arr : list range) : Prop := forall i, (i < length arr)%nat -> slot_ok (arr !!! i).

Definition disjoint_ranges (arr : list range) : Prop :=
  forall i j x, (i < length arr)%nat -> (j < length arr)%nat -> inr (arr !!! i) x -> inr (arr !!! j) x -> i = j.

Definition has_free (arr : list range) : Prop := exists i, (i < length arr)%nat /\ r_end (arr !!! i) = 0.

Lemma lookup_set (arr : list range) i j r :
  (j < length arr)%nat -> <[j := r]> arr !!! i = if decide (i = j) then r else arr !!! i.
Proof. intros Hj. case_decide; [subst; by apply list_lookup_total_insert_eq|by apply list_lookup_total_insert_ne]. Qed.

Lemma first_free_spec arr :
  (first_free arr <= length arr)%nat /\ (forall i, (i < first_free arr)%nat -> r_end (arr !!! i) <> 0) /\
  ((first_free arr < length arr)%nat -> r_end (arr !!! first_free arr) = 0).
Proof.
  induction arr as [|r arr (IH1 & IH2 & IH3)]; cbn [first_free length]; [split_and!; lia|].
  destruct (Z.eqb_spec (r_end r) 0) as [E|E]; [by split_and!; [lia|lia|]|]. split_and!; [lia| |intros; apply IH3; lia].
  intros [|i] Hi; [done|]. apply IH2. lia.
Qed.

Lemma first_free_has arr : has_free arr -> (first_free arr < length arr)%nat.
Proof.
  intros (i & Hi & E). destruct (first_free_spec arr) as (H1 & H2 & _).
  destruct (decide (i < first_free arr)%nat) as [Hlt|]; [by destruct (H2 i Hlt)|]. lia.
Qed.

Section subtract.

Variables (start end_ : Z).
Hypothesis Hse : 0 <= start < end_.

Definition gone (x : Z) : Prop := start <= x < end_.
Definition clear (r : range) : Prop := forall x, inr r x -> ~ gone x.
Definition straddles (r : range) : Prop := r_start r < start /\ end_ < r_end r.

(** One round of [subtract_range], on slot [j]. *)
Lemma subtract_slot_cases arr j :
  (j < length arr)%nat -> slot_ok (arr !!! j) ->
  let r := arr !!! j in
  let arr' := subtract_slot arr (zlen arr) j start end_ in
  (~ straddles r /\ exists r', arr' = <[j := r']> arr /\ slot_ok r' /\ (forall x, inr r' x <-> inr r x /\ ~ gone x)) \/
  (straddles r /\
   let i := first_free arr in
   let r1 := mk_range (r_start r) start in
   let r2 := mk_range end_ (r_end r) in
   ((i < length arr)%nat /\ i <> j /\ arr' = <[j := r1]> (<[i := r2]> arr)) \/
   (i = length arr /\ arr' = <[j := r1]> arr)).
Proof.
  intros Hj [Hok1 Hok2] r arr'. subst arr'. unfold subtract_slot. fold r in Hok1, Hok2 |- *.
  assert (<[j := r]> arr = arr) as Hid by (apply list_insert_id; by apply list_lookup_lookup_total_lt).
  assert (forall arr1 r', arr1 = <[j := r']> arr -> slot_ok r' -> ~ straddles r -> (forall x, inr r' x <-> inr r x /\ ~ gone x) ->
    (~ straddles r /\ exists r', arr1 = <[j := r']> arr /\ slot_ok r' /\ (forall x, inr r' x <-> inr r x /\ ~ gone x))) as Hone
    by (intros arr1 r' ? ? ? ?; split; [done|]; by exists r').
  unfold straddles, inr, gone, slot_ok in *.
  destruct (Z.eqb_spec (r_end r) 0); [left; eapply Hone; [symmetry; exact Hid|cbn; lia..]|].
  destruct (Z.leb_spec start (r_start r)), (Z.leb_spec (r_end r) end_), (Z.ltb_spec end_ (r_end r)),
    (Z.ltb_spec (r_start r) end_), (Z.ltb_spec (r_start r) start), (Z.ltb_spec start (r_end r)); cbn [andb]; try lia;
    try (left; eapply Hone; [reflexivity || (symmetry; exact Hid)|cbn; lia..]).
  right. split; [lia|]. destruct (first_free_spec arr) as (Hf1 & Hf2 & Hf3). destruct (Z.ltb_spec (Z.of_nat (first_free arr)) (zlen arr)).
  - left. split; [lia|]. assert (first_free arr <> j) as Hne by (intros E; rewrite E in Hf3; apply n, Hf3; lia).
    split; [done|]. by rewrite list_lookup_total_insert_ne.
  - right. split; [lia|done].
Qed.

(** Every slot of [arr'] is part of the slot of [arr] that owns it. *)
Lemma owners (arr arr' : list range) (o : nat -> nat) :
  length arr' = length arr ->
  (forall k x, (k < length arr)%nat -> inr (arr' !!! k) x -> (o k < length arr)%nat /\ inr (arr !!! o k) x) ->
  (forall k k' x, (k < length arr)%nat -> (k' < length arr)%nat -> o k = o k' ->
     inr (arr' !!! k) x -> inr (arr' !!! k') x -> k = k') ->
  (forall x, covers arr' x -> covers arr x) /\ (disjoint_ranges arr -> disjoint_ranges arr').
Proof.
  intros Hl Ho Hu. split.
  - intros x (k & Hk & Hx). rewrite Hl in Hk. destruct (Ho k x Hk Hx). by exists (o k).
  - intros Hd k k' x Hk Hk' Hx Hx'. rewrite Hl in Hk, Hk'. destruct (Ho k x Hk Hx) as [Hk1 Hx1].
    destruct (Ho k' x Hk' Hx') as [Hk2 Hx2]. eapply Hu; [done|done| |done|done]. by eapply Hd.
Qed.

(** What one round keeps and achieves. *)
Definition round_ok (arr : list range) (j : nat) (arr' : list range) : Prop :=
  length arr' = length arr /\ ranges_ok arr' /\ clear (arr' !!! j) /\
  (forall i, (i < length arr)%nat -> clear (arr !!! i) -> clear (arr' !!! i)) /\
  (forall x, covers arr' x -> covers arr x) /\
  (disjoint_ranges arr -> disjoint_ranges arr') /\
  (~ straddles (arr !!! j) \/ has_free arr -> forall x, covers arr x -> ~ gone x -> covers arr' x).

(** A slot cut down in place. *)
Lemma round_in_place arr j r' :
  (j < length arr)%nat -> ranges_ok arr -> slot_ok r' -> clear r' ->
  (forall x, inr r' x -> inr (arr !!! j) x) ->
  (~ straddles (arr !!! j) \/ has_free arr -> forall x, inr (arr !!! j) x -> ~ gone x -> inr r' x) ->
  round_ok arr j (<[j := r']> arr).
Proof.
  intros Hj Hok Hr' Hc Hsub Hkeep. assert (forall k, <[j := r']> arr !!! k = if decide (k = j) then r' else arr !!! k) as Hk
    by (intros; by apply lookup_set).
  destruct (owners arr (<[j := r']> arr) id) as [Hcov Hdis].
  { apply length_insert. }
  { intros k x Hlt. rewrite Hk. case_decide; subst; auto. }
  { by intros. }
  split; [apply length_insert|]. split; [intros k; rewrite length_insert, Hk; case_decide; auto|].
  split; [rewrite Hk; by case_decide|]. split; [intros k _ Hclear; rewrite Hk; by case_decide|].
  split; [done|]. split; [done|]. intros Hf x (k & Hlt & Hx) Hg. exists k. rewrite length_insert, Hk. split; [done|].
  case_decide; subst; auto.
Qed.

Lemma free_covers_nothing arr i x : ranges_ok arr -> (i < length arr)%nat -> r_end (arr !!! i) = 0 -> ~ inr (arr !!! i) x.
Proof. intros Hok Hi E [H1 H2]. destruct (Hok i Hi) as [H0 _]. lia. Qed.

(** A straddling slot cut in two, the second half in a free slot. *)
Lemma round_two_slots arr j i :
  (j < length arr)%nat -> (i < length arr)%nat -> i <> j -> r_end (arr !!! i) = 0 -> ranges_ok arr -> straddles (arr !!! j) ->
  round_ok arr j (<[j := mk_range (r_start (arr !!! j)) start]> (<[i := mk_range end_ (r_end (arr !!! j))]> arr)).
Proof.
  intros Hj Hi Hne Ei Hok [Hst1 Hst2]. set (r := arr !!! j) in *. set (arr' := <[j := _]> _).
  assert (length arr' = length arr) as Hlen by (unfold arr'; by rewrite !length_insert).
  assert (forall k, arr' !!! k = if decide (k = j) then mk_range (r_start r) start else
    if decide (k = i) then mk_range end_ (r_end r) else arr !!! k) as Hk.
  { intros k. unfold arr'. rewrite lookup_set by (by rewrite length_insert). case_decide; [done|]. by apply lookup_set. }
  pose proof (Hok j Hj) as [Hr0 _]. fold r in Hr0.
  destruct (owners arr arr' (fun k => if decide (k = i) then j else k)) as [Hcov Hdis].
  { done. }
  { intros k x Hlt. rewrite Hk. unfold inr. repeat case_decide; subst; cbn; try done; fold r; lia. }
  { intros k k' x Hlt Hlt'. rewrite !Hk. unfold inr. repeat case_decide; subst; cbn; try done; lia. }
  split; [done|]. split.
  { intros k Hlt. rewrite Hlen in Hlt. rewrite Hk. unfold slot_ok. repeat case_decide; cbn; [lia|lia|by apply Hok]. }
  split; [rewrite Hk; unfold clear, inr, gone; case_decide; cbn; [lia|done]|].
  split; [intros k _ Hclear; rewrite Hk; unfold clear, inr, gone in *; repeat case_decide; cbn; [lia|lia|done]|].
  split; [done|]. split; [done|]. intros _ x (k & Hlt & Hx) Hg. destruct (decide (k = j)) as [-> |Hkj].
  - destruct (decide (x < start)); [exists j|exists i]; rewrite Hlen, Hk; (split; [done|]); unfold inr, gone in *; fold r in Hx;
      repeat case_decide; cbn; done || lia.
  - exists k. rewrite Hlen, Hk. split; [done|]. repeat case_decide; subst; [done| |done].
    by apply free_covers_nothing in Hx.
Qed.

Lemma subtract_slot_spec arr j :
  (j < length arr)%nat -> ranges_ok arr -> round_ok arr j (subtract_slot arr (zlen arr) j start end_).
Proof.
  intros Hj Hok. pose proof (Hok j Hj) as [Hs0 Hs1].
  destruct (subtract_slot_cases arr j Hj (Hok j Hj)) as [(Hns & r' & -> & Hr' & Hin)|([Hst1 Hst2] & [(Hi & Hne & ->)|(Hi & ->)])].
  - apply round_in_place; [done|done|done|intros x Hx; by apply Hin|intros x Hx; by apply Hin|].
    intros _ x Hx Hg. by apply Hin.
  - apply round_two_slots; [done|done|done| |done|done]. by apply first_free_spec.
  - apply round_in_place; [done|done|unfold slot_ok; cbn; lia|unfold clear, inr, gone; cbn; lia|unfold inr; cbn; lia|].
    intros [Hn|Hf%first_free_has]; [by destruct Hn|lia].
Qed.

Lemma subtract_loop_spec n arr j :
  (j + n <= length arr)%nat -> ranges_ok arr ->
  let arr' := subtract_loop n arr (zlen arr) j start end_ in
  length arr' = length arr /\ ranges_ok arr' /\
  ((forall i, (i < j)%nat -> clear (arr !!! i)) -> forall i, (i < j + n)%nat -> clear (arr' !!! i)) /\
  (forall x, covers arr' x -> covers arr x) /\
  (disjoint_ranges arr -> disjoint_ranges arr').
Proof.
  revert arr j. induction n as [|n IH]; intros arr j Hl Hok; cbn [subtract_loop].
  { rewrite Nat.add_0_r. by split_and!. }
  destruct (subtract_slot_spec arr j ltac:(lia) Hok) as (Hlen & Hok' & Hcj & Hci & Hcov & Hdis & _).
  set (arr1 := subtract_slot arr (zlen arr) j start end_) in *. replace (zlen arr) with (zlen arr1) by (by rewrite Hlen).
  destruct (IH arr1 (S j)) as (IH1 & IH2 & IH3 & IH4 & IH5); [lia|done|]. split; [lia|]. split; [done|]. split.
  - intros Hc i Hi. apply IH3; [|lia]. intros k Hk. destruct (decide (k = j)) as [-> |]; [done|]. apply Hci; [lia|]. apply Hc. lia.
  - split; [auto|auto].
Qed.

Lemma clear_not_straddling r : clear r -> ~ straddles r.
Proof. intros Hc [H1 H2]. apply (Hc start); unfold inr, gone; lia. Qed.

(** The straddling slots after a round were straddling before. *)
Lemma round_straddling arr j k :
  (j < length arr)%nat -> ranges_ok arr ->
  let arr' := subtract_slot arr (zlen arr) j start end_ in
  straddles (arr' !!! k) -> k <> j /\ straddles (arr !!! k).
Proof.
  intros Hj Hok arr' Hk. destruct (subtract_slot_spec arr j Hj Hok) as (_ & _ & Hc & _). fold arr' in Hc.
  assert (k <> j) as Hkj by (intros ->; by apply clear_not_straddling in Hk). split; [done|]. revert Hk. unfold arr'.
  destruct (subtract_slot_cases arr j Hj (Hok j Hj)) as [(_ & r' & -> & _)|([_ _] & [(Hi & Hne & ->)|(_ & ->)])];
    rewrite list_lookup_total_insert_ne by done; try done.
  rewrite lookup_set by done. case_decide; [|done]. unfold straddles; cbn. lia.
Qed.

Lemma round_free arr j :
  (j < length arr)%nat -> ranges_ok arr -> ~ straddles (arr !!! j) -> has_free arr ->
  has_free (subtract_slot arr (zlen arr) j start end_).
Proof.
  intros Hj Hok Hns (i & Hi & Ei). destruct (subtract_slot_cases arr j Hj (Hok j Hj)) as [(_ & r' & -> & [_ Hr'] & Hin)|[? _]]; [|done].
  exists i. rewrite length_insert, lookup_set by done. split; [done|]. case_decide as E; [subst|done].
  destruct Hr' as [|Hr']; [done|]. destruct (Hin (r_start r')) as [Hin1 _]. destruct Hin1 as [Hin1 _]; [unfold inr; lia|].
  by apply free_covers_nothing in Hin1.
Qed.

(** With one straddling slot at most, and a free slot for it, nothing else is lost. *)
Lemma subtract_loop_keeps n arr j :
  (j + n <= length arr)%nat -> ranges_ok arr ->
  (forall i k, straddles (arr !!! i) -> straddles (arr !!! k) -> i = k) ->
  (forall i, straddles (arr !!! i) -> has_free arr) ->
  forall x, covers arr x -> ~ gone x -> covers (subtract_loop n arr (zlen arr) j start end_) x.
Proof.
  revert arr j. induction n as [|n IH]; intros arr j Hl Hok Hone Hfree x Hx Hg; cbn [subtract_loop]; [done|].
  assert (j < length arr)%nat as Hj by lia.
  destruct (subtract_slot_spec arr j Hj Hok) as (Hlen & Hok' & _ & _ & _ & _ & Hkeep).
  pose proof (fun k => round_straddling arr j k Hj Hok) as Hst. pose proof (round_free arr j Hj Hok) as Hrf.
  set (arr1 := subtract_slot arr (zlen arr) j start end_) in *. replace (zlen arr) with (zlen arr1) by (by rewrite Hlen).
  apply IH; [lia|done| | | |done].
  - intros i k [_ Hi]%Hst [_ Hk]%Hst. by apply Hone.
  - intros i [Hne Hi]%Hst. apply Hrf; [|by eapply Hfree]. intros Hsj. by apply Hne, Hone.
  - apply Hkeep; [|done|done]. destruct (decide (r_start (arr !!! j) < start /\ end_ < r_end (arr !!! j))) as [Hs|Hs]; [right|by left].
    by apply (Hfree j).
Qed.

End subtract.

(** A straddling slot is in the array and covers [start]. *)
Lemma straddling_covers start end_ arr i :
  0 <= start < end_ -> straddles start end_ (arr !!! i) -> (i < length arr)%nat /\ inr (arr !!! i) start.
Proof.
  intros Hse [H1 H2]. split; [|unfold inr; lia]. destruct (decide (i < length arr)%nat) as [|Hi]; [done|].
  rewrite list_lookup_total_alt, lookup_ge_None_2 in H2 by lia. cbn in H2. lia.
Qed.

(** C22. [subtract_range] removes the numbers from [start] to [end] from the set
    the array covers.  Nothing else is added or lost if the ranges are disjoint,
    as they stay, and a slot is free for the case that a range is cut in two; if
    none is free the second half is lost. *)
Theorem subtract_range_exact arr start end_ :
  ranges_ok arr -> 0 <= start < end_ ->
  let arr' := subtract_range arr (zlen arr) start end_ in
  length arr' = length arr /\ ranges_ok arr' /\
  (forall x, covers arr' x -> covers arr x /\ ~ start <= x < end_) /\
  (disjoint_ranges arr -> disjoint_ranges arr' /\
   ((forall i, straddles start end_ (arr !!! i) -> has_free arr) ->
    forall x, covers arr' x <-> covers arr x /\ ~ start <= x < end_)).
Proof.
  intros Hok Hse arr'. unfold arr', subtract_range. destruct (Z.leb_spec end_ start); [lia|]. rewrite Nat2Z.id.
  destruct (subtract_loop_spec start end_ Hse (length arr) arr 0) as (Hlen & Hok' & Hclear & Hcov & Hdis); [lia|done|].
  assert (forall x, covers (subtract_loop (length arr) arr (zlen arr) 0 start end_) x -> ~ start <= x < end_) as Hgone.
  { intros x (i & Hi & Hx). apply (Hclear ltac:(lia) i); [lia|done]. }
  split; [done|]. split; [done|]. split; [auto|]. intros Hd. split; [auto|]. intros Hfree x. split; [auto|].
  intros [Hx Hg]. apply subtract_loop_keeps; try done. intros i k Hi Hk.
  destruct (straddling_covers _ _ _ _ Hse Hi), (straddling_covers _ _ _ _ Hse Hk). by apply (Hd i k start).
Qed.

Lemma subtract_range_exact_witness :
  let arr := [mk_range 10 20; mk_range 0 0] in
  covers (subtract_range arr 2 12 15) 16 /\ ~ covers (subtract_range arr 2 12 15) 13.
Proof.
  intros arr. assert (ranges_ok arr) as Hok by (intros [|[|i]] Hi; cbn in *; [unfold slot_ok; cbn; lia..|lia]).
  assert (disjoint_ranges arr) as Hd by (intros [|[|i]] [|[|j]] x Hi Hj; unfold inr; cbn in *; lia).
  destruct (subtract_range_exact arr 12 15 Hok ltac:(lia)) as (_ & _ & Hs & Hx). split; [|by intros [_ ?]%Hs; lia].
  apply Hx; [exact Hd|intros i _; exists 1%nat; cbn; lia|]. split; [|lia]. exists 0%nat. unfold inr; cbn. lia.
Defined.

(** ** Adding *)

Lemma covers_take arr n x : (n <= length arr)%nat -> covers (take n arr) x <-> exists i, (i < n)%nat /\ inr (arr !!! i) x.
Proof.
  intros Hn. unfold covers. rewrite length_take_le by done.
  assert (forall i, (i < n)%nat -> take n arr !!! i = arr !!! i) as E
    by (intros i Hi; by rewrite !list_lookup_total_alt, lookup_take_lt).
  split; intros (i & Hi & Hx); exists i; (split; [done|]); by rewrite E in *.
Qed.

Definition touches (r : range) (start end_ : Z) : Prop :=
  r_end r <> 0 /\ Z.max (r_start r) start <= Z.min (r_end r) end_.

(** The first touching slot among the [n] from [i] on was grown, or there is none. *)
Definition merge_result (arr : list range) (i n : nat) (start end_ : Z) (res : option (list range)) : Prop :=
  match res with
  | Some arr' => exists k, (i <= k < i + n)%nat /\ touches (arr !!! k) start end_ /\
      arr' = <[k := mk_range (Z.min (r_start (arr !!! k)) start) (Z.max (r_end (arr !!! k)) end_)]> arr
  | None => forall k, (i <= k < i + n)%nat -> ~ touches (arr !!! k) start end_
  end.

Lemma merge_result_skip arr i n start end_ res :
  ~ touches (arr !!! i) start end_ -> merge_result arr (S i) n start end_ res -> merge_result arr i (S n) start end_ res.
Proof.
  intros Hno. destruct res; cbn.
  - intros (k & Hk & Ht & E). exists k. split; [lia|done].
  - intros Hk k Hr. destruct (decide (k = i)) as [-> |]; [done|]. apply Hk. lia.
Qed.

Lemma merge_loop_spec n arr i start end_ : merge_result arr i n start end_ (merge_loop n arr i start end_).
Proof.
  revert i. induction n as [|n IH]; intros i; cbn [merge_loop]; [cbn; lia|].
  destruct (Z.eqb_spec (r_end (arr !!! i)) 0); [apply merge_result_skip; [by intros []|apply IH]|].
  destruct (Z.ltb_spec (Z.min (r_end (arr !!! i)) end_) (Z.max (r_start (arr !!! i)) start)).
  - apply merge_result_skip; [|apply IH]. intros []. lia.
  - exists i. split; [lia|]. done.
Qed.

(** [add_range_with_merge] adds exactly the given range to the set covered by
    the slots in use, by growing the first range that it touches or in a new slot;
    only when it touches none and no slot is left is it dropped, and the array is
    unchanged. *)
Theorem add_range_with_merge_exact arr nr start end_ :
  ranges_ok arr -> 0 <= nr <= zlen arr -> 0 <= start < end_ ->
  let '(nr', arr') := add_range_with_merge arr (zlen arr) nr start end_ in
  length arr' = length arr /\ ranges_ok arr' /\ nr <= nr' <= zlen arr /\
  ((forall x, covers (take (Z.to_nat nr') arr') x <-> covers (take (Z.to_nat nr) arr) x \/ start <= x < end_) \/
   (nr = zlen arr /\ nr' = nr /\ arr' = arr /\ forall k, (k < length arr)%nat -> ~ touches (arr !!! k) start end_)).
Proof.
  intros Hok Hnr Hse. unfold add_range_with_merge. destruct (Z.leb_spec end_ start); [lia|].
  pose proof (merge_loop_spec (Z.to_nat nr) arr 0 start end_) as Hm. destruct (merge_loop _ _ _ _ _) as [arr'|]; cbn in Hm.
  - destruct Hm as (k & Hk & [Ht1 Ht2] & ->). set (r := arr !!! k) in *. rewrite length_insert. split; [done|].
    destruct (Hok k ltac:(lia)) as [Hr0 Hr1]. fold r in Hr0, Hr1.
    split; [intros i; rewrite length_insert, lookup_set by lia; case_decide; [unfold slot_ok; cbn; lia|apply Hok]|].
    split; [lia|]. left. intros x. rewrite !covers_take by (rewrite ?length_insert; lia). split.
    + intros (i & Hi & Hx). rewrite lookup_set in Hx by lia. case_decide as E; [|left; by exists i]. unfold inr in Hx; cbn in Hx. subst i.
      destruct (decide (start <= x < end_)); [by right|left]. exists k. unfold inr. fold r. lia.
    + intros [(i & Hi & Hx)|Hx].
      * exists i. split; [done|]. rewrite lookup_set by lia. case_decide; [|done]. subst i. fold r in Hx. unfold inr in *; cbn. lia.
      * exists k. split; [lia|]. rewrite lookup_set by lia. case_decide; [|done]. unfold inr; cbn. lia.
  - unfold add_range. destruct (Z.leb_spec end_ start); [lia|]. destruct (Z.leb_spec (zlen arr) nr).
    + split; [done|]. split; [done|]. split; [lia|]. right. split; [lia|]. split; [done|]. split; [done|]. intros k Hk. apply Hm. lia.
    + rewrite length_insert. split; [done|].
      split; [intros i; rewrite length_insert, lookup_set by lia; case_decide; [unfold slot_ok; cbn; lia|apply Hok]|].
      split; [lia|]. left. intros x. rewrite !covers_take by (rewrite ?length_insert; lia). split.
      * intros (i & Hi & Hx). rewrite lookup_set in Hx by lia. case_decide; [by right|]. left. exists i. split; [lia|done].
      * intros [(i & Hi & Hx)|Hx]; [exists i|exists (Z.to_nat nr)]; (split; [lia|]); rewrite lookup_set by lia; case_decide; done || lia.
Qed.

Lemma add_range_with_merge_exact_witness :
  let arr := [mk_range 10 20; mk_range 0 0] in covers (take 1 (add_range_with_merge arr 2 1 20 25).2) 24.
Proof.
  intros arr. assert (ranges_ok arr) as Hok by (intros [|[|i]] Hi; cbn in *; [unfold slot_ok; cbn; lia..|lia]).
  destruct (add_range_with_merge_exact arr 1 20 25 Hok ltac:(cbn; lia) ltac:(lia)) as (_ & _ & _ & [Hx|Hx]);
    [|exfalso; destruct Hx as [Hx _]; cbn in Hx; lia].
  apply Hx. right. lia.
Defined.

(** ** Sorting *)

Definition in_use (r : range) : Prop := r_end r <> 0.

Lemma filter_set_free (arr : list range) j r :
  (j < length arr)%nat -> ~ in_use r -> filter in_use (<[j := r]> arr) = filter in_use (take j arr) ++ filter in_use (drop (S j) arr).
Proof. intros Hj Hr. rewrite insert_take_drop by done. rewrite filter_app, filter_cons_False by done. done. Qed.

(** Moving the range of slot [j] to the free slot [i] keeps the ranges in use. *)
Lemma filter_move (arr : list range) i j :
  (i < j)%nat -> (j < length arr)%nat -> ~ in_use (arr !!! i) ->
  filter in_use (<[j := mk_range 0 0]> (<[i := arr !!! j]> arr)) ≡ₚ filter in_use arr.
Proof.
  intros Hi Hj Hf. assert (filter in_use (exchange arr i j) ≡ₚ filter in_use arr) as <- by (by rewrite exchange_perm).
  unfold exchange.
  rewrite (list_insert_insert_ne _ i j) by lia. rewrite !filter_set_free; rewrite ?length_insert; try done. by intros [].
Qed.

Lemma last_used_spec j i arr :
  (i <= j)%nat ->
  let k := last_used j i arr in
  (i <= k <= j)%nat /\ (k <> i -> in_use (arr !!! k)) /\ (forall m, (k < m <= j)%nat -> ~ in_use (arr !!! m)).
Proof.
  induction j as [|j IH]; intros Hij; cbn [last_used]; [split_and!; lia|].
  destruct (Nat.ltb_spec i (S j)); [|split_and!; lia].
  destruct (Z.eqb_spec (r_end (arr !!! S j)) 0) as [E|E]; [|split_and!; [lia|lia|done|lia]].
  destruct IH as (H1 & H2 & H3); [lia|]. split_and!; [lia|lia|done|]. intros m Hm.
  destruct (decide (m = S j)) as [-> |]; [by intros []|apply H3; lia].
Qed.

(** The used slots come first. *)
Definition packed (c : nat) (arr : list range) : Prop :=
  (c <= length arr)%nat /\ (forall m, (m < c)%nat -> in_use (arr !!! m)) /\
  (forall m, (c <= m < length arr)%nat -> ~ in_use (arr !!! m)).

(** The two indices of the compaction have met. *)
Lemma packed_meet arr i k :
  (k < length arr)%nat -> (k <= i <= k + 1)%nat ->
  (forall m, (m < i)%nat -> in_use (arr !!! m)) -> (forall m, (k < m < length arr)%nat -> ~ in_use (arr !!! m)) ->
  exists c, packed c arr.
Proof.
  intros Hk Hi Hlo Hhi. destruct (decide (i = k)) as [->|].
  - destruct (decide (r_end (arr !!! k) = 0)) as [E|E].
    + exists k. split; [lia|]. split; [done|]. intros m Hm. destruct (decide (m = k)) as [->|]; [by intros []|apply Hhi; lia].
    + exists (S k). split; [lia|]. split; [|intros m Hm; apply Hhi; lia]. intros m Hm.
      destruct (decide (m = k)) as [->|]; [done|apply Hlo; lia].
  - exists i. split; [lia|]. split; [done|]. intros m Hm. apply Hhi. lia.
Qed.

Lemma compact_loop_spec n arr i k :
  (k < length arr)%nat -> (i <= k + 1)%nat -> (k < i + n)%nat ->
  (forall m, (m < i)%nat -> in_use (arr !!! m)) -> (forall m, (k < m < length arr)%nat -> ~ in_use (arr !!! m)) ->
  let arr' := compact_loop n arr i k in
  length arr' = length arr /\ filter in_use arr' ≡ₚ filter in_use arr /\ exists c, packed c arr'.
Proof.
  revert arr i k. induction n as [|n IH]; intros arr i k Hk Hi Hn Hlo Hhi; cbn [compact_loop].
  { split; [done|]. split; [done|]. apply (packed_meet arr i k); done || lia. }
  destruct (Nat.ltb_spec i k) as [Hlt|Hge].
  2: { split; [done|]. split; [done|]. apply (packed_meet arr i k); done || lia. }
  destruct (Z.eqb_spec (r_end (arr !!! i)) 0) as [E|E]; cbn [negb].
  2: { apply IH; [done|lia|lia| |done]. intros m Hm. destruct (decide (m = i)) as [->|]; [done|apply Hlo; lia]. }
  destruct (last_used_spec k i arr ltac:(lia)) as (Hj & Hju & Hjf). set (j := last_used k i arr) in *.
  assert (~ in_use (arr !!! i)) as Hif by (by intros []).
  destruct (Nat.eqb_spec j i) as [Eji|Hne].
  - split; [done|]. split; [done|]. exists i. split; [lia|]. split; [done|]. intros m Hm.
    destruct (decide (m = i)) as [->|]; [done|]. destruct (decide (m <= k)%nat); [apply Hjf; lia|apply Hhi; lia].
  - set (arr1 := <[j := mk_range 0 0]> (<[i := arr !!! j]> arr)).
    assert (length arr1 = length arr) as Hlen by (unfold arr1; by rewrite !length_insert).
    assert (forall m, arr1 !!! m = if decide (m = j) then mk_range 0 0 else if decide (m = i) then arr !!! j else arr !!! m) as H1.
    { intros m. unfold arr1. rewrite lookup_set by (rewrite length_insert; lia). case_decide; [done|]. apply lookup_set. lia. }
    destruct (IH arr1 (S i) (j - 1)%nat) as (IH1 & IH2 & IH3); [lia|lia|lia| | |].
    + intros m Hm. rewrite H1. repeat case_decide; [lia|by apply Hju|apply Hlo; lia].
    + intros m Hm. rewrite H1. repeat case_decide; [by intros []|lia|].
      destruct (decide (m <= k)%nat); [apply Hjf; lia|apply Hhi; lia].
    + split; [lia|]. split; [|done]. rewrite IH2. apply filter_move; done || lia.
Qed.

Lemma packed_first_free c arr : packed c arr -> first_free arr = c.
Proof.
  intros (Hc & Hlo & Hhi). destruct (first_free_spec arr) as (H1 & H2 & H3).
  destruct (decide (first_free arr < c)%nat) as [Hlt|].
  - destruct (Hlo _ Hlt). apply H3. lia.
  - destruct (decide (c < first_free arr)%nat) as [Hlt|]; [|lia]. destruct (Hhi c ltac:(lia)). by apply H2.
Qed.

Lemma packed_filter c arr : packed c arr -> filter in_use arr = take c arr /\ Forall (fun r => r_end r = 0) (drop c arr).
Proof.
  intros (Hc & Hlo & Hhi). assert (Forall in_use (take c arr)) as Hin.
  { apply (Forall_lookup_total_2 _). rewrite length_take_le by done. intros i Hi. rewrite list_lookup_total_alt, lookup_take_lt by done.
    rewrite <- list_lookup_total_alt. by apply Hlo. }
  assert (Forall (fun r => r_end r = 0) (drop c arr)) as Hout.
  { apply (Forall_lookup_total_2 _). rewrite length_drop. intros i Hi. rewrite list_lookup_total_alt, lookup_drop, <- list_lookup_total_alt.
    destruct (decide (r_end (arr !!! (c + i)%nat) = 0)) as [|Hn]; [done|]. destruct (Hhi (c + i)%nat); [lia|done]. }
  split; [|done]. rewrite <- (take_drop c arr) at 1. rewrite filter_app. rewrite <- (app_nil_r (take c arr)) at 2. f_equal.
  - induction Hin; [done|]. rewrite filter_cons_True by done. by f_equal.
  - clear -Hout. induction Hout; [done|]. by rewrite filter_cons_False by (by intros []).
Qed.

Definition range_u64 (r : range) : Prop := 0 <= r_start r < 2 ^ 64 /\ 0 <= r_end r < 2 ^ 64.

Lemma length_le_bytes n x : length (le_bytes n x) = n.
Proof. revert x. induction n as [|n IH]; intros x; [done|]. cbn. by rewrite IH. Qed.

Lemma le_val_bytes n x : 0 <= x < 256 ^ Z.of_nat n -> le_val (le_bytes n x) = x.
Proof.
  revert x. induction n as [|n IH]; intros x Hx; [cbn in *; lia|]. cbn [le_bytes le_val].
  rewrite Nat2Z.inj_succ, Z.pow_succ_r in Hx by lia. rewrite IH; [pose proof (Z.div_mod x 256); lia|].
  split; [apply Z.div_pos; lia|apply Z.div_lt_upper_bound; lia].
Qed.

Lemma length_range_bytes r : length (range_bytes r) = 16%nat.
Proof. unfold range_bytes. by rewrite length_app, !length_le_bytes. Qed.

Lemma range_roundtrip r : range_u64 r -> range_of (range_bytes r) = r.
Proof.
  intros [Hs He]. unfold range_of, range_bytes. rewrite take_app_length', drop_app_length' by (by rewrite length_le_bytes).
  rewrite !le_val_bytes by done. by destruct r.
Qed.

Lemma ranges_roundtrip l : Forall range_u64 l -> ranges_of (length l) (concat (range_bytes <$> l)) = l.
Proof.
  induction 1 as [|r l Hr _ IH]; [done|]. cbn [length ranges_of fmap list_fmap concat].
  rewrite take_app_length', drop_app_length' by (by rewrite length_range_bytes). by rewrite range_roundtrip, IH.
Qed.

(** Starts close enough for the [int] result of [cmp_range]. *)
Definition window (lo : Z) (r : range) : Prop := lo <= r_start r < lo + 2 ^ 31.

Lemma cmp_range_window lo r1 r2 :
  0 <= lo -> lo + 2 ^ 31 <= 2 ^ 63 -> range_u64 r1 -> range_u64 r2 -> window lo r1 -> window lo r2 ->
  cmp_range (range_bytes r1) (range_bytes r2) = r_start r1 - r_start r2.
Proof.
  intros Hlo Hhi H1 H2 [W1 W1'] [W2 W2']. unfold cmp_range. rewrite !range_roundtrip by done.
  rewrite (s64_small (r_start r1)), (s64_small (r_start r2)) by lia. rewrite s64_small by lia. apply s32_small. lia.
Qed.

Lemma start_ordering : Ordering (fun x y => r_start (range_of x) <? r_start (range_of y)).
Proof. split; unfold le; intros *; rewrite ?Z.ltb_lt, ?Z.ltb_ge; lia. Qed.

Lemma sort_range_spec `{LongWidth} arr n lo :
  (n <= length arr)%nat -> zlen arr * SIZEOF_RANGE < 2 ^ 30 -> 0 <= lo -> lo + 2 ^ 31 <= 2 ^ 63 ->
  Forall range_u64 (take n arr) -> Forall (window lo) (take n arr) ->
  exists l, sort_range arr (Z.of_nat n) = Some (l ++ drop n arr) /\ l ≡ₚ take n arr /\
    StronglySorted (fun x y => r_start x <= r_start y) l.
Proof.
  unfold SIZEOF_RANGE. intros Hn Hsz Hlo Hhi Hu Hw. unfold sort_range. rewrite Nat2Z.id. set (tk := take n arr) in *.
  assert (length tk = n) as Hlen by (unfold tk; by apply length_take_le).
  assert (forall x y, x ∈ tk -> y ∈ tk -> cmp_range (range_bytes x) (range_bytes y) = r_start x - r_start y) as Hcmp.
  { rewrite list.Forall_forall in Hu, Hw. intros x y Hx Hy. apply (cmp_range_window lo); auto. }
  destruct (sort_spec cmp_range (fun x y => r_start (range_of x) <? r_start (range_of y)) SIZEOF_RANGE (range_bytes <$> tk) None)
    as (l' & E & _ & Hp & Hs); [done| | |done|apply start_ordering| |].
  { apply Forall_fmap, Forall_true. intros r. apply length_range_bytes. }
  { rewrite length_fmap. unfold SIZEOF_RANGE. lia. }
  { intros x y (rx & -> & Hx)%list_elem_of_fmap (ry & -> & Hy)%list_elem_of_fmap. rewrite list.Forall_forall in Hu.
    rewrite Hcmp, !range_roundtrip by auto. destruct (Z.ltb_spec (r_start rx - r_start ry) 0), (Z.ltb_spec (r_start rx) (r_start ry)); lia. }
  rewrite length_fmap, Hlen in E. rewrite E. cbn [mbind option_bind].
  destruct (Permutation_map_inv range_bytes tk Hp) as (l & -> & Hpl). change (map range_bytes l) with (range_bytes <$> l) in *.
  assert (Forall range_u64 l) as Hul by (by rewrite <- Hpl). exists l.
  assert (n = length l) as Hnl by (by rewrite <- Hpl). split; [rewrite Hnl at 1; by rewrite (ranges_roundtrip l Hul)|]. split; [done|].
  assert (forall x y, x ∈ l -> y ∈ l -> cmp_range (range_bytes x) (range_bytes y) = r_start x - r_start y) as Hcmp'
    by (intros x y; rewrite <- Hpl; apply Hcmp). clear -Hs Hcmp'.
  induction l as [|r l IH]; [constructor|]. inversion Hs as [|? ? Hs' Hr]; subst. constructor.
  - apply IH; [done|]. intros. apply Hcmp'; by right.
  - rewrite Forall_fmap in Hr. rewrite list.Forall_forall in *. intros y Hy. specialize (Hr y Hy). unfold compose in Hr.
    rewrite Hcmp' in Hr by (by constructor). lia.
Qed.

(** [clean_sort_range] moves the ranges in use to the front, sorts them by
    [start] and returns their number; no range is lost or duplicated.  It needs
    starts that lie within 2 GB of each other, because [cmp_range] returns their
    difference as an [int]. *)
Theorem clean_sort_range_sorted `{LongWidth} arr lo :
  (0 < length arr)%nat -> zlen arr * SIZEOF_RANGE < 2 ^ 30 -> 0 <= lo -> lo + 2 ^ 31 <= 2 ^ 63 ->
  Forall range_u64 (filter in_use arr) -> Forall (window lo) (filter in_use arr) ->
  exists used free, clean_sort_range arr (zlen arr) = Some (zlen used, used ++ free) /\
    length (used ++ free) = length arr /\ used ≡ₚ filter in_use arr /\
    StronglySorted (fun x y => r_start x <= r_start y) used /\ Forall (fun r => r_end r = 0) free.
Proof.
  intros Hpos Hsz Hlo Hhi Hu Hw. unfold clean_sort_range. rewrite Nat2Z.id. replace (Z.to_nat (zlen arr - 1)) with (length arr - 1)%nat by lia.
  destruct (compact_loop_spec (length arr) arr 0 (length arr - 1)) as (Hlen & Hperm & c & Hc); [lia|lia|lia|lia|lia|].
  set (arr1 := compact_loop (length arr) arr 0 (length arr - 1)) in *.
  rewrite (packed_first_free c) by done. destruct (packed_filter c arr1 Hc) as [Hf Hfree]. pose proof Hc as [Hcl _].
  rewrite Z.min_l by lia. rewrite <- Hperm, Hf in Hu, Hw.
  destruct (sort_range_spec arr1 c lo) as (l & -> & Hl & Hs); [done|lia|done|done|done|done|]. cbn [mbind option_bind].
  exists l, (drop c arr1). split; [do 2 f_equal; rewrite Hl, length_take_le; lia|].
  split; [rewrite length_app, Hl, <- length_app, take_drop; lia|]. split; [by rewrite Hl, <- Hf|]. done.
Qed.

Lemma clean_sort_range_sorted_witness :
  exists used free, @clean_sort_range long32 [mk_range 5 6; mk_range 0 0; mk_range 1 2] 3 = Some (zlen used, used ++ free) /\
    used ≡ₚ [mk_range 5 6; mk_range 1 2].
Proof.
  destruct (@clean_sort_range_sorted long32 [mk_range 5 6; mk_range 0 0; mk_range 1 2] 0) as (u & f & E & _ & Hp & _);
    [cbn; lia|unfold SIZEOF_RANGE; cbn; lia|lia|lia|repeat constructor; cbn; lia|repeat constructor; cbn; lia|].
  exists u, f. split; [exact E|exact Hp].
Defined.

(** Starts 3 GB apart are put in the wrong order. *)
Lemma cmp_range_truncates :
  @sort_range long32 [mk_range 0 1; mk_range 0xC0000000 0xC0000001] 2 =
    Some [mk_range 0xC0000000 0xC0000001; mk_range 0 1].
Proof. vm_compute. reflexivity. Qed.
