(* ===== verification/Bitmap.v ===== *)
(** * Bitmaps (lib/find_next_bit.c, lib/bitmap.c, lib/hweight.c)

    A bitmap is an array of [unsigned long]; bit [i] is bit [i mod BITS_PER_LONG]
    of word [i / BITS_PER_LONG].  Reading or writing a word outside of the array
    has no result.  The loops over words have the number of words as their fuel,
    which each round uses up. *)

From Stdlib Require Import ZArith Lia.
From stdpp Require Import base numbers list option.
From S2P Require Import Prelude.

Local Open Scope Z_scope.

Section code.

Context `{LongWidth}.

Abbreviation B := BITS_PER_LONG.

(** [~0UL] and [~x] on [unsigned long]. *)
Definition all_ones : Z := 2 ^ B - 1.
Definition not_ (x : Z) : Z := all_ones - x.

(** ** Finding bits *)

Definition ffs_step (k : Z) (nw : Z * Z) : Z * Z :=
  let '(num, word) := nw in
  if word .& (2 ^ k - 1) =? 0 then (num + k, word .>> k) else (num, word).

(** The masks 0xffffffff, 0xffff, 0xff, 0xf, 0x3 and 0x1, in this order. *)
Definition __ffs (word : Z) : Z :=
  let nw := (0, word) in
  let nw := if B =? 64 then ffs_step 32 nw else nw in
  (ffs_step 1 (ffs_step 2 (ffs_step 4 (ffs_step 8 (ffs_step 16 nw))))).1.

Definition ffz (x : Z) : Z := __ffs (not_ x).

Definition found_middle (tmp result : Z) : Z := ulong (result + __ffs tmp).

Definition found_first (tmp size result : Z) : Z :=
  let tmp := tmp .& (all_ones .>> (B - size)) in
  if tmp =? 0 then ulong (result + size) else found_middle tmp result.

(** The while loop of [find_next_bit] and what follows it. *)
Fixpoint next_loop (fuel : nat) (m : list Z) (p : nat) (size result : Z) : option Z :=
  match fuel with
  | O => None
  | S fuel =>
      if negb (size .& ulong (Z.lnot (B - 1)) =? 0) then
        tmp ← m !! p;
        if negb (tmp =? 0) then Some (found_middle tmp result)
        else next_loop fuel m (S p) (ulong (size - B)) (ulong (result + B))
      else if size =? 0 then Some result
      else tmp ← m !! p; Some (found_first tmp size result)
  end.

Definition find_next_bit (m : list Z) (size offset : Z) : option Z :=
  let p := Z.to_nat (offset / B) in
  let result := offset .& ulong (Z.lnot (B - 1)) in
  if size <=? offset then Some size else
  let size := ulong (size - result) in
  let offset := offset mod B in
  if negb (offset =? 0) then
    tmp ← m !! p;
    let tmp := tmp .& ulong (all_ones .<< offset) in
    if size <? B then Some (found_first tmp size result)
    else if negb (tmp =? 0) then Some (found_middle tmp result)
    else next_loop (S (length m)) m (S p) (ulong (size - B)) (ulong (result + B))
  else next_loop (S (length m)) m p size result.

Definition find_first_bit (m : list Z) (size : Z) : option Z := next_loop (S (length m)) m 0 size 0.

Definition zero_middle (tmp result : Z) : Z := ulong (result + ffz tmp).

Definition zero_first (tmp size result : Z) : Z :=
  let tmp := tmp .| ulong (all_ones .<< size) in
  if tmp =? all_ones then ulong (result + size) else zero_middle tmp result.

Fixpoint next_zero_loop (fuel : nat) (m : list Z) (p : nat) (size result : Z) : option Z :=
  match fuel with
  | O => None
  | S fuel =>
      if negb (size .& ulong (Z.lnot (B - 1)) =? 0) then
        tmp ← m !! p;
        if negb (not_ tmp =? 0) then Some (zero_middle tmp result)
        else next_zero_loop fuel m (S p) (ulong (size - B)) (ulong (result + B))
      else if size =? 0 then Some result
      else tmp ← m !! p; Some (zero_first tmp size result)
  end.

Definition find_next_zero_bit (m : list Z) (size offset : Z) : option Z :=
  let p := Z.to_nat (offset / B) in
  let result := offset .& ulong (Z.lnot (B - 1)) in
  if size <=? offset then Some size else
  let size := ulong (size - result) in
  let offset := offset mod B in
  if negb (offset =? 0) then
    tmp ← m !! p;
    let tmp := tmp .| (all_ones .>> (B - offset)) in
    if size <? B then Some (zero_first tmp size result)
    else if negb (not_ tmp =? 0) then Some (zero_middle tmp result)
    else next_zero_loop (S (length m)) m (S p) (ulong (size - B)) (ulong (result + B))
  else next_zero_loop (S (length m)) m p size result.

Definition find_first_zero_bit (m : list Z) (size : Z) : option Z := next_zero_loop (S (length m)) m 0 size 0.

(** ** Setting and clearing ranges *)

Definition BITMAP_FIRST_WORD_MASK (start : Z) : Z := ulong (all_ones .<< (start mod B)).
Definition BITMAP_LAST_WORD_MASK (nbits : Z) : Z :=
  if negb (nbits mod B =? 0) then ulong (ulong (1 .<< (nbits mod B)) - 1) else all_ones.

(** [*p = f *p] *)
Definition update_word (m : list Z) (p : nat) (f : Z -> Z) : option (list Z) :=
  w ← m !! p; Some (<[p := f w]> m).

(** The loop of [bitmap_set] and [bitmap_clear]: [op word mask] is what they do
    to a word, [n] the bits up to the next word boundary. *)
Fixpoint range_loop (fuel : nat) (op : Z -> Z -> Z) (m : list Z) (p : nat) (nr n mask size : Z) : option (list Z) :=
  match fuel with
  | O => None
  | S fuel =>
      if 0 <=? nr - n then
        m ← update_word m p (fun w => op w mask);
        range_loop fuel op m (S p) (nr - n) B all_ones size
      else if negb (nr =? 0) then update_word m p (fun w => op w (mask .& BITMAP_LAST_WORD_MASK size))
      else Some m
  end.

(** A negative [start] would address the words before the map. *)
Definition bitmap_set (map : list Z) (start nr : Z) : option (list Z) :=
  if start <? 0 then None else
  range_loop (S (length map)) (fun w mask => w .| mask) map (Z.to_nat (start / B)) nr
    (B - start mod B) (BITMAP_FIRST_WORD_MASK start) (start + nr).

Definition bitmap_clear (map : list Z) (start nr : Z) : option (list Z) :=
  if start <? 0 then None else
  range_loop (S (length map)) (fun w mask => w .& not_ mask) map (Z.to_nat (start / B)) nr
    (B - start mod B) (BITMAP_FIRST_WORD_MASK start) (start + nr).

Definition __ALIGN_MASK (x mask : Z) : Z := ulong (x + mask) .& not_ mask.

(** [goto again] moves [start] up each time. *)
Fixpoint zero_area_loop (fuel : nat) (map : list Z) (size start nr align_mask : Z) : option Z :=
  match fuel with
  | O => None
  | S fuel =>
      index ← find_next_zero_bit map size start;
      let index := __ALIGN_MASK index align_mask in
      let end_ := ulong (index + nr) in
      if size <? end_ then Some end_
      else
        i ← find_next_bit map end_ index;
        if i <? end_ then zero_area_loop fuel map size (ulong (i + 1)) nr align_mask
        else Some index
  end.

Definition bitmap_find_next_zero_area (map : list Z) (size start nr align_mask : Z) : option Z :=
  zero_area_loop (S (Z.to_nat size)) map size start nr align_mask.

End code.

(** ** Bits of words *)

Section bits.

Context `{LongWidth}.

Lemma B_cases : BITS_PER_LONG = 32 \/ BITS_PER_LONG = 64.
Proof. apply bits_per_long_ok. Qed.

Lemma all_ones_eq : all_ones = Z.ones BITS_PER_LONG.
Proof. unfold all_ones. rewrite Z.ones_equiv. lia. Qed.

(** [x & ~(BITS_PER_LONG - 1)] *)
Lemma word_start x : 0 <= x < 2 ^ BITS_PER_LONG ->
  x .& ulong (Z.lnot (BITS_PER_LONG - 1)) = x / BITS_PER_LONG * BITS_PER_LONG.
Proof.
  intros Hx. unfold ulong, uwrap. destruct B_cases as [E|E]; rewrite E in *.
  - change (Z.lnot (32 - 1) mod 2 ^ 32) with (2 ^ 32 - 2 ^ 5). by rewrite land_high_mask.
  - change (Z.lnot (64 - 1) mod 2 ^ 64) with (2 ^ 64 - 2 ^ 6). by rewrite land_high_mask.
Qed.

Definition word_ok (w : Z) : Prop := 0 <= w < 2 ^ BITS_PER_LONG.

Lemma ulong_id x : word_ok x -> ulong x = x.
Proof. apply uwrap_small. Qed.

(** [r] is the first place from [lo] on where [b] holds, or [hi]. *)
Definition is_next (b : Z -> bool) (lo hi r : Z) : Prop :=
  lo <= r <= hi /\ (forall i, lo <= i < r -> b i = false) /\ (r < hi -> b r = true).

Lemma is_next_unique b lo hi r r' : is_next b lo hi r -> is_next b lo hi r' -> r = r'.
Proof.
  intros (H1 & H2 & H3) (H1' & H2' & H3'). destruct (Z.lt_trichotomy r r') as [Hlt|[|Hlt]]; [|done|].
  - specialize (H2' r ltac:(lia)). rewrite H3 in H2' by lia. done.
  - specialize (H2 r' ltac:(lia)). rewrite H3' in H2 by lia. done.
Qed.

Lemma is_next_ext b b' lo hi r : (forall i, lo <= i < hi -> b i = b' i) -> is_next b lo hi r -> is_next b' lo hi r.
Proof.
  intros He (H1 & H2 & H3). split; [done|]. split; [intros i Hi; rewrite <- He by lia; by apply H2|].
  intros Hr. rewrite <- He by lia. by apply H3.
Qed.

(** Nothing before [mid]: the search goes on there. *)
Lemma is_next_skip b lo mid hi r :
  lo <= mid -> (forall i, lo <= i < mid -> b i = false) -> is_next b mid hi r -> is_next b lo hi r.
Proof.
  intros Hm Hf (H1 & H2 & H3). split; [lia|]. split; [|done]. intros i Hi. destruct (decide (i < mid)); [apply Hf|apply H2]; lia.
Qed.

Lemma is_next_found b lo hi hi' r : hi <= hi' -> r < hi -> is_next b lo hi r -> is_next b lo hi' r.
Proof. intros Hh Hr (H1 & H2 & H3). split; [lia|]. split; [done|]. intros _. by apply H3. Qed.

(** One step of [__ffs]: the low [num] bits of the word are clear, and of the
    next [2 k] one is set. *)
Definition ffs_inv (w k : Z) (nw : Z * Z) : Prop :=
  0 <= nw.1 /\ nw.2 = w .>> nw.1 /\ w mod 2 ^ nw.1 = 0 /\ nw.2 mod 2 ^ k <> 0.

Lemma ffs_step_inv w k nw : 0 < k -> 0 <= w -> ffs_inv w (2 * k) nw -> ffs_inv w k (ffs_step k nw).
Proof.
  intros Hk Hw. destruct nw as [num x]. unfold ffs_inv, ffs_step; cbn [fst snd]. intros (Hn & -> & Hlow & Hset).
  rewrite land_ones_mod by lia. destruct (Z.eqb_spec ((w .>> num) mod 2 ^ k) 0) as [E|E]; cbn [fst snd]; [|done].
  rewrite !Z.shiftr_div_pow2 in * by lia. split; [lia|]. split; [by rewrite Z.div_div, <- Z.pow_add_r by lia|].
  assert (0 < 2 ^ num) by (apply Z.pow_pos_nonneg; lia). assert (0 < 2 ^ k) by (apply Z.pow_pos_nonneg; lia).
  split.
  - rewrite Z.pow_add_r, Z.rem_mul_r by lia. rewrite Hlow, E. lia.
  - intros E2. apply Hset. replace (2 * k) with (k + k) by lia. rewrite Z.pow_add_r, Z.rem_mul_r by lia. rewrite E, E2. lia.
Qed.

Lemma ffs_spec w : 0 < w < 2 ^ BITS_PER_LONG -> is_next (Z.testbit w) 0 BITS_PER_LONG (__ffs w) /\ __ffs w < BITS_PER_LONG.
Proof.
  intros Hw. unfold __ffs. set (nw0 := if BITS_PER_LONG =? 64 then ffs_step 32 (0, w) else (0, w)).
  assert (ffs_inv w 32 nw0) as Hi.
  { subst nw0. destruct (B_cases) as [E|E]; rewrite E in *; cbn [Z.eqb Pos.eqb].
    - split; [done|]. cbn [fst snd]. rewrite Z.shiftr_0_r, Z.mod_1_r, Z.mod_small; lia.
    - apply ffs_step_inv; [lia|lia|]. split; [done|]. cbn [fst snd]. rewrite Z.shiftr_0_r, Z.mod_1_r, Z.mod_small; lia. }
  apply (ffs_step_inv w 16) in Hi; [|lia|lia]. apply (ffs_step_inv w 8) in Hi; [|lia|lia].
  apply (ffs_step_inv w 4) in Hi; [|lia|lia]. apply (ffs_step_inv w 2) in Hi; [|lia|lia].
  apply (ffs_step_inv w 1) in Hi; [|lia|lia].
  destruct (ffs_step 1 _) as [num x]. destruct Hi as (Hn & Ex & Hlow & Hset). cbn [fst snd] in *.
  assert (Z.testbit w num = true) as Ht.
  { rewrite Ex in Hset. rewrite <- (Z.add_0_l num), <- Z.shiftr_spec by lia. rewrite Z.bit0_odd, <- Z.negb_even.
    change (2 ^ 1) with 2 in Hset. rewrite Zmod_even in Hset. by destruct (Z.even _). }
  assert (num < BITS_PER_LONG) as Hlt.
  { destruct (decide (num < BITS_PER_LONG)); [done|]. pose proof bits_per_long_pos.
    rewrite (testbit_high w BITS_PER_LONG num) in Ht by lia. done. }
  split; [|done]. split; [lia|]. split; [|done]. intros i Hi.
  rewrite <- (Z.mod_pow2_bits_low w num i) by lia. rewrite Hlow. apply Z.bits_0.
Qed.

(** ** Bits of bitmaps *)

Definition bit (m : list Z) (i : Z) : bool :=
  Z.testbit (default 0 (m !! Z.to_nat (i / BITS_PER_LONG))) (i mod BITS_PER_LONG).

Definition words_ok (m : list Z) : Prop := Forall word_ok m.

Abbreviation B := BITS_PER_LONG.

Lemma B_pos : 0 < B.
Proof. apply bits_per_long_pos. Qed.

(** The bits of word [p]. *)
Lemma bit_word m p w i : m !! p = Some w -> 0 <= i < B -> bit m (Z.of_nat p * B + i) = Z.testbit w i.
Proof.
  intros Hp Hi. unfold bit. pose proof B_pos. rewrite Z.div_add_l, Z.div_small, Z.add_0_r, Nat2Z.id by lia.
  rewrite Hp, Z.add_comm, Z.mod_add, Z.mod_small by lia. done.
Qed.

(** A hit in word [p], as a position in the bitmap. *)
Lemma is_next_word m p w lo hi r :
  m !! p = Some w -> 0 <= lo -> hi <= B -> is_next (Z.testbit w) lo hi r ->
  is_next (bit m) (Z.of_nat p * B + lo) (Z.of_nat p * B + hi) (Z.of_nat p * B + r).
Proof.
  intros Hp Hlo Hhi (H1 & H2 & H3). split; [lia|]. split.
  - intros i Hi. replace i with (Z.of_nat p * B + (i - Z.of_nat p * B)) by lia. rewrite (bit_word m p w) by (done || lia).
    apply H2. lia.
  - intros Hr. rewrite (bit_word m p w) by (done || lia). apply H3. lia.
Qed.

Lemma word_lookup m p : words_ok m -> (p < length m)%nat -> exists w, m !! p = Some w /\ word_ok w.
Proof.
  intros Hm Hp. destruct (lookup_lt_is_Some_2 m p Hp) as [w Hw]. exists w. split; [done|]. by eapply Forall_lookup_1.
Qed.

Lemma found_middle_spec tmp result :
  0 < tmp < 2 ^ B -> 0 <= result -> result + B <= 2 ^ B ->
  exists r, found_middle tmp result = result + r /\ is_next (Z.testbit tmp) 0 B r /\ r < B.
Proof.
  intros Ht Hr Hb. destruct (ffs_spec tmp Ht) as [Hn Hlt]. exists (__ffs tmp). split; [|done]. apply uwrap_small.
  destruct Hn as [Hn _]. lia.
Qed.

Lemma found_first_spec tmp size result :
  word_ok tmp -> 0 < size < B -> 0 <= result -> result + size < 2 ^ B ->
  exists r, found_first tmp size result = result + r /\ is_next (Z.testbit tmp) 0 size r.
Proof.
  intros Ht Hs Hr Hb. unfold found_first. rewrite all_ones_eq.
  assert (tmp .& (Z.ones B .>> (B - size)) = tmp mod 2 ^ size) as ->.
  { rewrite <- Z.land_ones by lia. f_equal. rewrite Z.shiftr_div_pow2 by lia. rewrite Z.ones_div_pow2 by lia. f_equal. lia. }
  assert (0 < 2 ^ size) by (apply Z.pow_pos_nonneg; lia). pose proof (Z.mod_pos_bound tmp (2 ^ size) ltac:(lia)) as Hm.
  assert (forall i, 0 <= i < size -> Z.testbit (tmp mod 2 ^ size) i = Z.testbit tmp i) as Hlow
    by (intros; apply Z.mod_pow2_bits_low; lia).
  destruct (Z.eqb_spec (tmp mod 2 ^ size) 0) as [E|E].
  - exists size. split; [apply uwrap_small; lia|]. split; [lia|]. split; [|lia]. intros i Hi.
    rewrite <- Hlow, E by lia. apply Z.bits_0.
  - assert (2 ^ size < 2 ^ B) by (apply Z.pow_lt_mono_r; lia).
    destruct (ffs_spec (tmp mod 2 ^ size)) as [(F1 & F2 & F3) Hlt]; [lia|].
    assert (__ffs (tmp mod 2 ^ size) < size) as Hls.
    { destruct (decide (__ffs (tmp mod 2 ^ size) < size)); [done|]. specialize (F3 Hlt).
      rewrite Z.mod_pow2_bits_high in F3 by lia. done. }
    exists (__ffs (tmp mod 2 ^ size)). split; [apply uwrap_small; lia|]. split; [lia|].
    split; [intros i Hi|intros _]; rewrite <- Hlow by lia; [apply F2|apply F3]; lia.
Qed.

Lemma word_ext x y : word_ok x -> word_ok y -> (forall i, 0 <= i < B -> Z.testbit x i = Z.testbit y i) -> x = y.
Proof.
  intros Hx Hy He. apply Z.bits_inj'. intros i Hi. destruct (decide (i < B)); [apply He; lia|].
  pose proof B_pos. by rewrite (testbit_high x B), (testbit_high y B) by (done || lia).
Qed.

(** Two bitmaps of the same length with the same bits are the same words. *)
Lemma bits_ext m m' :
  words_ok m -> words_ok m' -> length m = length m' -> (forall i, 0 <= i -> bit m i = bit m' i) -> m = m'.
Proof.
  intros Hm Hm' Hl He. apply (list_eq_same_length _ _ (length m')); [done|done|]. intros p x y Hp Hx Hy.
  apply word_ext; [exact (Forall_lookup_1 _ _ _ _ Hm Hx)|exact (Forall_lookup_1 _ _ _ _ Hm' Hy)|]. intros i Hi. assert (0 <= Z.of_nat p * B + i) as H0 by nia. specialize (He _ H0).
  by rewrite (bit_word m p x), (bit_word m' p y) in He.
Qed.

(** ** The searches *)

Lemma small_size size : 0 <= size < 2 ^ B -> (size .& ulong (Z.lnot (B - 1)) =? 0) = (size <? B).
Proof.
  intros Hs. rewrite word_start by done. pose proof B_pos. destruct (Z.ltb_spec size B).
  - rewrite Z.div_small by lia. done.
  - apply Z.eqb_neq. assert (1 <= size / B) by (apply Z.div_le_lower_bound; lia). nia.
Qed.

Lemma next_loop_spec fuel m p size :
  words_ok m -> 0 <= size -> Z.of_nat p * B + size <= zlen m * B -> Z.of_nat p * B + size < 2 ^ B -> (length m - p < fuel)%nat ->
  let result := Z.of_nat p * B in
  exists r, next_loop fuel m p size result = Some r /\ is_next (bit m) result (result + size) r.
Proof.
  pose proof B_pos as HB. revert p size. induction fuel as [|fuel IH]; intros p size Hm Hs Hl Hb Hf; [lia|]. cbn [next_loop].
  assert (0 <= Z.of_nat p * B) as Hp0 by nia.
  rewrite small_size by lia. destruct (Z.ltb_spec size B) as [Hlt|Hge]; cbn [negb].
  - destruct (Z.eqb_spec size 0) as [->|Hne]; [exists (Z.of_nat p * B); split; [done|]; unfold is_next; split_and!; lia|].
    destruct (word_lookup m p Hm) as (w & Hw & Hok); [nia|]. rewrite Hw. cbn [mbind option_bind].
    destruct (found_first_spec w size (Z.of_nat p * B)) as (r & -> & Hr); [done|lia|lia|lia|].
    eexists. split; [done|]. rewrite <- (Z.add_0_r (Z.of_nat p * B)) at 1. eapply is_next_word; done || lia.
  - destruct (word_lookup m p Hm) as (w & Hw & Hok); [nia|]. rewrite Hw. cbn [mbind option_bind].
    destruct (Z.eqb_spec w 0) as [->|Hne]; cbn [negb].
    + unfold ulong. rewrite (uwrap_small _ (size - B)), (uwrap_small _ (_ + B)) by lia. replace (Z.of_nat p * B + B) with (Z.of_nat (S p) * B) by lia.
      destruct (IH (S p) (size - B)) as (r & -> & Hr); [done|lia|lia|lia|apply lookup_lt_Some in Hw; lia|]. exists r. split; [done|].
      replace (Z.of_nat p * B + size) with (Z.of_nat (S p) * B + (size - B)) by lia.
      eapply is_next_skip; [|intros i Hi|done]; [lia|].
      replace i with (Z.of_nat p * B + (i - Z.of_nat p * B)) by lia. rewrite (bit_word m p 0) by (done || lia). apply Z.bits_0.
    + destruct (found_middle_spec w (Z.of_nat p * B)) as (r & -> & Hr & Hrb); [unfold word_ok in Hok; lia|lia|lia|].
      eexists. split; [done|]. apply (is_next_found _ _ (Z.of_nat p * B + B)); [lia|lia|].
      rewrite <- (Z.add_0_r (Z.of_nat p * B)) at 1. eapply is_next_word; done || lia.
Qed.

Lemma masked_bits w off i : word_ok w -> 0 <= off < B -> 0 <= i < B ->
  Z.testbit (w .& ulong (all_ones .<< off)) i = Z.testbit w i && (off <=? i).
Proof.
  intros Hw Ho Hi. rewrite Z.land_spec. f_equal. unfold ulong, uwrap. rewrite Z.mod_pow2_bits_low, Z.shiftl_spec by lia.
  rewrite all_ones_eq. destruct (Z.leb_spec off i); [by rewrite Z.ones_spec_low by lia|by rewrite Z.testbit_neg_r by lia].
Qed.

Lemma is_next_masked w off hi r :
  word_ok w -> 0 <= off < B -> off <= hi <= B ->
  is_next (Z.testbit (w .& ulong (all_ones .<< off))) 0 hi r -> is_next (Z.testbit w) off hi r.
Proof.
  intros Hw Ho Hh (H1 & H2 & H3). assert (off <= r) as Hr.
  { destruct (decide (off <= r)); [done|]. specialize (H3 ltac:(lia)). rewrite masked_bits in H3 by (done || lia).
    apply andb_prop in H3 as [_ ?%Z.leb_le]. lia. }
  split; [lia|]. split.
  - intros i Hi. specialize (H2 i ltac:(lia)). rewrite masked_bits in H2 by (done || lia).
    rewrite (proj2 (Z.leb_le off i)), andb_true_r in H2 by lia. done.
  - intros Hlt. specialize (H3 Hlt). rewrite masked_bits in H3 by (done || lia). by apply andb_prop in H3 as [? _].
Qed.

Lemma find_next_bit_spec m size offset :
  words_ok m -> 0 <= offset -> 0 <= size < 2 ^ B -> size <= zlen m * B ->
  exists r, find_next_bit m size offset = Some r /\ (if size <=? offset then r = size else is_next (bit m) offset size r).
Proof.
  intros Hm Ho Hs Hl. pose proof B_pos as HB. unfold find_next_bit. destruct (Z.leb_spec size offset); [by exists size|].
  rewrite word_start by lia. assert (0 <= offset / B) by (apply Z.div_pos; lia).
  pose proof (Z.div_mod offset B (not_eq_sym (Z.lt_neq _ _ HB))) as Hdm. set (p := Z.to_nat (offset / B)).
  pose proof (Z.mod_pos_bound offset B HB) as Hmb. assert (offset / B = Z.of_nat p) as Ep by (subst p; lia).
  clearbody p. rewrite Ep in *. set (off := offset mod B) in *. assert (0 <= Z.of_nat p * B) as Hp0 by nia.
  rewrite (ulong_id (size - Z.of_nat p * B)) by (unfold word_ok; lia).
  destruct (Z.eqb_spec off 0) as [E0|E0]; cbn [negb].
  { destruct (next_loop_spec (S (length m)) m p (size - Z.of_nat p * B)) as (r & -> & Hr); [done|lia|lia|lia|lia|].
    exists r. split; [done|]. by replace offset with (Z.of_nat p * B) by lia; replace size with (Z.of_nat p * B + (size - Z.of_nat p * B)) by lia. }
  destruct (word_lookup m p Hm) as (w & Hw & Hok); [nia|]. rewrite Hw. cbn [mbind option_bind].
  set (tmp := w .& ulong (all_ones .<< off)). assert (word_ok tmp) as Ht.
  { unfold word_ok, tmp. apply land_bound; [lia|done|]. apply (ulong_range _). }
  destruct (Z.ltb_spec (size - Z.of_nat p * B) B) as [Hlast|Hmore].
  - destruct (found_first_spec tmp (size - Z.of_nat p * B) (Z.of_nat p * B)) as (r & -> & Hr); [done|lia|lia|lia|].
    eexists. split; [done|]. apply is_next_masked in Hr; [|done|lia|lia].
    apply (is_next_word m p w) in Hr; [|done|lia|lia].
    replace offset with (Z.of_nat p * B + off) by lia. by replace size with (Z.of_nat p * B + (size - Z.of_nat p * B)) by lia.
  - destruct (Z.eqb_spec tmp 0) as [E|E]; cbn [negb].
    + rewrite !ulong_id by (unfold word_ok; lia). replace (Z.of_nat p * B + B) with (Z.of_nat (S p) * B) by lia.
      destruct (next_loop_spec (S (length m)) m (S p) (size - Z.of_nat p * B - B)) as (r & -> & Hr); [done|lia|lia|lia|lia|].
      exists r. split; [done|]. replace (Z.of_nat (S p) * B + (size - Z.of_nat p * B - B)) with size in Hr by lia.
      eapply is_next_skip; [|intros i Hi|done]; [lia|].
      replace i with (Z.of_nat p * B + (i - Z.of_nat p * B)) by lia. rewrite (bit_word m p w) by (done || lia).
      pose proof (masked_bits w off (i - Z.of_nat p * B)) as Hw0. fold tmp in Hw0.
      rewrite E, Z.bits_0, (proj2 (Z.leb_le _ _)), andb_true_r in Hw0 by lia. symmetry. apply Hw0; [done|lia|lia].
    + destruct (found_middle_spec tmp (Z.of_nat p * B)) as (r & -> & Hr & Hrb); [unfold word_ok in Ht; lia|lia|lia|].
      eexists. split; [done|]. apply is_next_masked in Hr; [|done|lia|lia].
      apply (is_next_word m p w) in Hr; [|done|lia|lia]. replace offset with (Z.of_nat p * B + off) by lia.
      apply (is_next_found _ _ (Z.of_nat p * B + B)); [lia|lia|done].
Qed.

(** *** Clear bits: the search for a set bit in the complement *)

Lemma not_ok x : word_ok x -> word_ok (not_ x).
Proof. unfold word_ok, not_, all_ones. lia. Qed.

Lemma not_bits x i : word_ok x -> 0 <= i < B -> Z.testbit (not_ x) i = negb (Z.testbit x i).
Proof.
  intros Hx Hi. unfold not_. rewrite all_ones_eq, Z.sub_nocarry_ldiff.
  - rewrite Z.ldiff_spec, Z.ones_spec_low by lia. done.
  - apply Z.ldiff_ones_r_low; [apply Hx|]. destruct (decide (x = 0)) as [->|]; [cbn; lia|].
    apply Z.log2_lt_pow2; unfold word_ok in Hx; lia.
Qed.

Lemma not_lor x y : word_ok x -> word_ok y -> not_ (x .| y) = not_ x .& not_ y.
Proof.
  intros Hx Hy. pose proof B_pos. assert (word_ok (x .| y)) by (apply lor_bound; [lia|done|done]).
  apply word_ext; [by apply not_ok|apply land_bound; [lia|by apply not_ok|by apply not_ok]|].
  intros i Hi. rewrite Z.land_spec, !not_bits, Z.lor_spec by done. apply negb_orb.
Qed.

(** The bits from [s] on. *)
Lemma high_mask s : 0 <= s < B -> ulong (all_ones .<< s) = 2 ^ B - 2 ^ s.
Proof.
  intros Hs. unfold ulong, uwrap, all_ones. rewrite Z.shiftl_mul_pow2 by lia.
  assert (0 < 2 ^ s < 2 ^ B) by (split; [apply Z.pow_pos_nonneg|apply Z.pow_lt_mono_r]; lia).
  replace ((2 ^ B - 1) * 2 ^ s) with (2 ^ B - 2 ^ s + (2 ^ s - 1) * 2 ^ B) by lia.
  rewrite Z.mod_add, Z.mod_small by lia. done.
Qed.

(** The bits below [s]. *)
Lemma low_mask s : 0 <= s <= B -> all_ones .>> (B - s) = 2 ^ s - 1.
Proof.
  intros Hs. rewrite all_ones_eq, Z.shiftr_div_pow2, Z.ones_div_pow2 by lia. rewrite Z.ones_equiv.
  replace (B - (B - s)) with s by lia. lia.
Qed.

Lemma pow_range s : 0 <= s <= B -> 0 < 2 ^ s <= 2 ^ B.
Proof. intros Hs. split; [apply Z.pow_pos_nonneg|apply Z.pow_le_mono_r]; lia. Qed.

Lemma zero_first_found tmp size result :
  word_ok tmp -> 0 < size < B -> zero_first tmp size result = found_first (not_ tmp) size result.
Proof.
  intros Ht Hs. unfold zero_first, found_first, zero_middle, ffz. rewrite high_mask, low_mask by lia.
  pose proof (pow_range size ltac:(lia)) as Hp.
  replace (2 ^ size - 1) with (not_ (2 ^ B - 2 ^ size)) by (unfold not_, all_ones; lia).
  rewrite <- not_lor by (done || (unfold word_ok; lia)). set (x := tmp .| _).
  destruct (Z.eqb_spec x all_ones) as [->|E]; [by unfold not_; rewrite Z.sub_diag|].
  rewrite (proj2 (Z.eqb_neq _ _)); [done|unfold not_; lia].
Qed.

Lemma next_zero_loop_next fuel m p size result :
  words_ok m -> 0 <= size < 2 ^ B -> next_zero_loop fuel m p size result = next_loop fuel (not_ <$> m) p size result.
Proof.
  intros Hm. revert p size result. induction fuel as [|fuel IH]; intros p size result Hs; [done|].
  cbn [next_zero_loop next_loop]. rewrite small_size, list_lookup_fmap by done.
  destruct (Z.ltb_spec size B) as [Hlt|Hge]; cbn [negb].
  - destruct (Z.eqb_spec size 0) as [|Hne]; [done|]. destruct (m !! p) as [w|] eqn:Ew; [|done]. cbn.
    rewrite zero_first_found; [done| |lia]. by eapply Forall_lookup_1.
  - destruct (m !! p) as [w|] eqn:Ew; [|done]. cbn [mbind option_bind fmap option_fmap option_map].
    destruct (negb _); [done|]. apply IH. apply (ulong_range _).
Qed.

Lemma find_next_zero_bit_next m size offset :
  words_ok m -> 0 <= offset -> size < 2 ^ B -> find_next_zero_bit m size offset = find_next_bit (not_ <$> m) size offset.
Proof.
  intros Hm Ho Hs. unfold find_next_zero_bit, find_next_bit. destruct (Z.leb_spec size offset) as [|Hlt]; [done|].
  rewrite length_fmap, list_lookup_fmap, word_start by lia. pose proof B_pos as HB.
  pose proof (Z.mod_pos_bound offset B HB) as Hmb. pose proof (Z.div_mod offset B (not_eq_sym (Z.lt_neq _ _ HB))) as Hdm.
  assert (0 <= offset / B) as Hq by (apply Z.div_pos; lia). assert (0 <= offset / B * B) as Hq' by nia.
  rewrite (ulong_id (size - offset / B * B)) by (unfold word_ok; lia).
  assert (0 < 2 ^ (offset mod B) <= 2 ^ B) as Hp by (apply pow_range; lia).
  set (s := offset mod B) in *. set (q := offset / B) in *.
  destruct (Z.eqb_spec s 0) as [E|E]; cbn [negb]; [apply next_zero_loop_next; [done|lia]|].
  destruct (m !! _) as [w|] eqn:Ew; [|done]. cbn [mbind option_bind fmap option_fmap option_map].
  assert (word_ok w) as Hw by (by eapply Forall_lookup_1). rewrite high_mask, low_mask by lia.
  replace (2 ^ B - 2 ^ s) with (not_ (2 ^ s - 1)) by (unfold not_, all_ones; lia).
  assert (word_ok (2 ^ s - 1)) by (unfold word_ok; lia). rewrite <- not_lor by done.
  assert (word_ok (w .| (2 ^ s - 1))) by (apply lor_bound; [lia|done|done]).
  destruct (Z.ltb_spec (size - q * B) B); [|destruct (negb _); [done|]].
  - rewrite zero_first_found; [done|done|lia].
  - apply next_zero_loop_next; [done|apply (ulong_range _)].
Qed.

Lemma not_words m : words_ok m -> words_ok (not_ <$> m).
Proof. intros Hm. apply Forall_fmap. eapply Forall_impl; [|exact Hm]. intros x. apply not_ok. Qed.

Lemma bit_not m i : words_ok m -> 0 <= i < zlen m * B -> bit (not_ <$> m) i = negb (bit m i).
Proof.
  intros Hm Hi. unfold bit. pose proof B_pos as HB. pose proof (Z.mod_pos_bound i B HB).
  rewrite list_lookup_fmap. assert (Z.to_nat (i / B) < length m)%nat as Hl.
  { assert (0 <= i / B) by (apply Z.div_pos; lia). assert (i / B < zlen m) by (apply Z.div_lt_upper_bound; lia). lia. }
  destruct (word_lookup m _ Hm Hl) as (w & -> & Hok). cbn. by apply not_bits.
Qed.

Lemma find_next_zero_bit_spec m size offset :
  words_ok m -> 0 <= offset -> 0 <= size < 2 ^ B -> size <= zlen m * B ->
  exists r, find_next_zero_bit m size offset = Some r /\
    (if size <=? offset then r = size else is_next (fun i => negb (bit m i)) offset size r).
Proof.
  intros Hm Ho Hs Hl. rewrite find_next_zero_bit_next by (done || lia).
  destruct (find_next_bit_spec (not_ <$> m) size offset) as (r & -> & Hr);
    [by apply not_words|done|done|by rewrite length_fmap|].
  exists r. split; [done|]. destruct (size <=? offset); [done|].
  eapply is_next_ext; [|exact Hr]. intros i Hi. apply bit_not; [done|lia].
Qed.

(** ** Setting and clearing *)

(** What [op word mask] does to one bit, where the mask has it and where not. *)
Definition op_bits (op : Z -> Z -> Z) (v : bool) : Prop :=
  forall w mask, word_ok w -> word_ok mask -> word_ok (op w mask) /\
    forall i, 0 <= i < B -> Z.testbit (op w mask) i = if Z.testbit mask i then v else Z.testbit w i.

Lemma set_op_bits : op_bits (fun w mask => w .| mask) true.
Proof.
  intros w mask Hw Hm. pose proof B_pos. split; [apply lor_bound; [lia|done|done]|]. intros i Hi. rewrite Z.lor_spec.
  destruct (Z.testbit mask i); [apply orb_true_r|apply orb_false_r].
Qed.

Lemma clear_op_bits : op_bits (fun w mask => w .& not_ mask) false.
Proof.
  intros w mask Hw Hm. pose proof B_pos. pose proof (not_ok mask Hm).
  split; [apply land_bound; [lia|done|unfold word_ok in *; lia]|]. intros i Hi. rewrite Z.land_spec, not_bits by done.
  destruct (Z.testbit mask i); [apply andb_false_r|apply andb_true_r].
Qed.

Lemma bit_insert m p w i :
  (p < length m)%nat -> 0 <= i ->
  bit (<[p := w]> m) i = if decide (i / B = Z.of_nat p) then Z.testbit w (i mod B) else bit m i.
Proof.
  intros Hp Hi. unfold bit. pose proof B_pos as HB. assert (0 <= i / B) by (apply Z.div_pos; lia).
  destruct (decide (i / B = Z.of_nat p)) as [E|E].
  - rewrite E, Nat2Z.id, list_lookup_insert_eq by done. done.
  - rewrite list_lookup_insert_ne by lia. done.
Qed.

(** [m'] is [m] with the bits from [lo] up to [hi] made [v]. *)
Definition range_set (v : bool) (m : list Z) (lo hi : Z) (m' : list Z) : Prop :=
  words_ok m' /\ length m' = length m /\
  forall i, 0 <= i -> bit m' i = if (lo <=? i) && (i <? hi) then v else bit m i.

(** One word: the mask has the bits from [lo] up to [hi] of the bitmap. *)
Lemma update_word_range op v m p mask lo hi :
  op_bits op v -> words_ok m -> word_ok mask -> (p < length m)%nat -> Z.of_nat p * B <= lo -> hi <= Z.of_nat p * B + B ->
  (forall i, 0 <= i < B -> Z.testbit mask i = (lo <=? Z.of_nat p * B + i) && (Z.of_nat p * B + i <? hi)) ->
  exists m', update_word m p (fun w => op w mask) = Some m' /\ range_set v m lo hi m'.
Proof.
  intros Hop Hm Hk Hp Hlo Hhi Hmask. destruct (word_lookup m p Hm Hp) as (w & Hw & Hok). unfold update_word.
  rewrite Hw. cbn [mbind option_bind]. eexists. split; [done|]. destruct (Hop w mask Hok Hk) as [Hok' Hbits].
  split; [by apply Forall_insert|]. split; [by rewrite length_insert|]. intros i Hi. rewrite bit_insert by done.
  pose proof B_pos as HB. pose proof (Z.mod_pos_bound i B HB) as Hb. pose proof (Z.div_mod i B (not_eq_sym (Z.lt_neq _ _ HB))) as Hdm.
  destruct (decide (i / B = Z.of_nat p)) as [E|E].
  - rewrite Hbits, Hmask by done. replace (Z.of_nat p * B + i mod B) with i by (rewrite <- E; lia).
    destruct (_ && _); [done|]. unfold bit. by rewrite E, Nat2Z.id, Hw.
  - destruct (Z.leb_spec lo i), (Z.ltb_spec i hi); cbn [andb]; try done. exfalso. apply E. symmetry.
    apply (Z.div_unique_pos i B _ (i - Z.of_nat p * B)); lia.
Qed.

Lemma range_set_trans v m lo mid hi m1 m2 :
  lo <= mid <= hi -> range_set v m lo mid m1 -> range_set v m1 mid hi m2 -> range_set v m lo hi m2.
Proof.
  intros Hm (O1 & L1 & H1) (O2 & L2 & H2). split; [done|]. split; [congruence|]. intros i Hi. rewrite H2, H1 by done.
  destruct (Z.leb_spec lo i), (Z.ltb_spec i mid), (Z.leb_spec mid i), (Z.ltb_spec i hi); cbn [andb]; done || lia.
Qed.

Lemma first_mask_bits start i : 0 <= i < B -> Z.testbit (BITMAP_FIRST_WORD_MASK start) i = (start mod B <=? i).
Proof.
  intros Hi. pose proof (Z.mod_pos_bound start B B_pos) as Hb. unfold BITMAP_FIRST_WORD_MASK, ulong, uwrap.
  rewrite Z.mod_pow2_bits_low, Z.shiftl_spec, all_ones_eq by lia.
  destruct (Z.leb_spec (start mod B) i); [by rewrite Z.ones_spec_low by lia|by rewrite Z.testbit_neg_r by lia].
Qed.

Lemma last_mask_bits nbits i :
  nbits mod B <> 0 -> 0 <= i < B -> Z.testbit (BITMAP_LAST_WORD_MASK nbits) i = (i <? nbits mod B).
Proof.
  intros Hn Hi. pose proof (Z.mod_pos_bound nbits B B_pos) as Hb. unfold BITMAP_LAST_WORD_MASK.
  rewrite (proj2 (Z.eqb_neq _ _) Hn). cbn [negb]. rewrite Z.shiftl_1_l.
  assert (0 < 2 ^ (nbits mod B) < 2 ^ B) as Hp by (split; [apply Z.pow_pos_nonneg|apply Z.pow_lt_mono_r]; lia).
  rewrite (ulong_id (2 ^ _)) by (unfold word_ok; lia). rewrite ulong_id by (unfold word_ok; lia).
  replace (2 ^ (nbits mod B) - 1) with (Z.ones (nbits mod B)) by (rewrite Z.ones_equiv; lia).
  destruct (Z.ltb_spec i (nbits mod B)); [by rewrite Z.ones_spec_low by lia|by rewrite Z.ones_spec_high by lia].
Qed.

Lemma last_mask_ok nbits : word_ok (BITMAP_LAST_WORD_MASK nbits).
Proof.
  unfold BITMAP_LAST_WORD_MASK. destruct (negb _); [apply (ulong_range _)|]. unfold word_ok, all_ones.
  pose proof (Z.pow_pos_nonneg 2 B). pose proof B_pos. lia.
Qed.

Lemma range_loop_spec fuel op v m p nr n mask hi :
  op_bits op v -> words_ok m -> word_ok mask -> (forall i, 0 <= i < B -> Z.testbit mask i = (B - n <=? i)) ->
  0 < n <= B -> 0 <= nr -> hi = Z.of_nat p * B + (B - n) + nr -> hi <= zlen m * B -> (length m - p < fuel)%nat ->
  exists m', range_loop fuel op m p nr n mask hi = Some m' /\ range_set v m (hi - nr) hi m'.
Proof.
  intros Hop. pose proof B_pos as HB. revert m p nr n mask.
  induction fuel as [|fuel IH]; intros m p nr n mask Hm Hk Hmask Hn Hnr Hhi Hl Hf; [lia|]. cbn [range_loop].
  destruct (Z.leb_spec 0 (nr - n)) as [Hge|Hlt]; [|destruct (Z.eqb_spec nr 0) as [->|Hne]; cbn [negb]].
  - assert (p < length m)%nat as Hp by nia.
    destruct (update_word_range op v m p mask (hi - nr) (hi - nr + n)) as (m1 & -> & Hm1);
      [done|done|done|done|lia|lia|intros i Hi|].
    { rewrite Hmask by done. rewrite (proj2 (Z.ltb_lt _ _)), andb_true_r by lia. apply eq_true_iff_eq. rewrite !Z.leb_le. lia. }
    cbn [mbind option_bind]. destruct Hm1 as (O1 & L1 & B1).
    destruct (IH m1 (S p) (nr - n) B all_ones) as (m2 & -> & Hm2);
      [done|unfold word_ok, all_ones; lia|intros i Hi|lia|lia|lia|by rewrite L1|lia|].
    { rewrite all_ones_eq, Z.ones_spec_low by lia. symmetry. apply Z.leb_le. lia. }
    exists m2. split; [done|]. apply (range_set_trans v m (hi - nr) (hi - nr + n) hi m1 m2); [lia|by split|].
    by replace (hi - nr + n) with (hi - (nr - n)) by lia.
  - exists m. split; [done|]. split; [done|]. split; [done|]. intros i Hi.
    destruct (Z.leb_spec (hi - 0) i), (Z.ltb_spec i hi); cbn [andb]; done || lia.
  - assert (hi mod B = hi - Z.of_nat p * B) as Em by (symmetry; apply (Z.mod_unique_pos hi B (Z.of_nat p)); lia).
    apply update_word_range; [done|done| |nia|lia|lia|intros i Hi].
    { apply land_bound; [lia|done|apply last_mask_ok]. }
    rewrite Z.land_spec, Hmask, last_mask_bits, Em by lia. f_equal; apply eq_true_iff_eq;
      rewrite ?Z.leb_le, ?Z.ltb_lt; lia.
Qed.

Lemma range_op_exact op v map start nr :
  op_bits op v -> words_ok map -> 0 <= start -> 0 <= nr -> start + nr <= zlen map * B ->
  exists map', range_loop (S (length map)) op map (Z.to_nat (start / B)) nr (B - start mod B)
    (BITMAP_FIRST_WORD_MASK start) (start + nr) = Some map' /\ range_set v map start (start + nr) map'.
Proof.
  intros Hop Hm Hs Hn Hl. pose proof B_pos as HB. pose proof (Z.mod_pos_bound start B HB) as Hb.
  assert (0 <= start / B) by (apply Z.div_pos; lia). pose proof (Z.div_mod start B (not_eq_sym (Z.lt_neq _ _ HB))) as Hdm.
  destruct (range_loop_spec (S (length map)) op v map (Z.to_nat (start / B)) nr (B - start mod B)
    (BITMAP_FIRST_WORD_MASK start) (start + nr)) as (m' & -> & Hr);
    [done|done|apply (ulong_range _)|intros i Hi|lia|lia|rewrite Z2Nat.id by done; lia|done|lia|].
  { rewrite first_mask_bits by done. f_equal. lia. }
  exists m'. split; [done|]. by replace start with (start + nr - nr) at 1 by lia.
Qed.

Lemma bitmap_set_exact map start nr :
  words_ok map -> 0 <= start -> 0 <= nr -> start + nr <= zlen map * B ->
  exists map', bitmap_set map start nr = Some map' /\ range_set true map start (start + nr) map'.
Proof.
  intros. unfold bitmap_set. rewrite (proj2 (Z.ltb_ge _ _)) by done. by apply range_op_exact; [apply set_op_bits|..].
Qed.

Lemma bitmap_clear_exact map start nr :
  words_ok map -> 0 <= start -> 0 <= nr -> start + nr <= zlen map * B ->
  exists map', bitmap_clear map start nr = Some map' /\ range_set false map start (start + nr) map'.
Proof.
  intros. unfold bitmap_clear. rewrite (proj2 (Z.ltb_ge _ _)) by done. by apply range_op_exact; [apply clear_op_bits|..].
Qed.

(** ** Free areas *)

(** [c] is the first multiple of [a] from [x] on. *)
Lemma align_spec x k :
  0 <= x -> 0 <= k < B -> x + (2 ^ k - 1) < 2 ^ B ->
  let c := __ALIGN_MASK x (2 ^ k - 1) in
  x <= c < x + 2 ^ k /\ c mod 2 ^ k = 0 /\ forall c', c' mod 2 ^ k = 0 -> x <= c' -> c <= c'.
Proof.
  intros Hx Hk Hb. unfold __ALIGN_MASK. destruct (pow_range k ltac:(lia)) as [Hp _].
  rewrite ulong_id by (unfold word_ok; lia). replace (not_ (2 ^ k - 1)) with (2 ^ B - 2 ^ k) by (unfold not_, all_ones; lia).
  rewrite land_high_mask by lia. cbv zeta. set (a := 2 ^ k) in *. set (q := (x + (a - 1)) / a).
  pose proof (Z.div_mod (x + (a - 1)) a ltac:(lia)) as Hdm. pose proof (Z.mod_pos_bound (x + (a - 1)) a Hp) as Hm. fold q in Hdm.
  split; [lia|]. split; [by apply Z.mod_mul; lia|]. intros c' Hc Hx'.
  pose proof (Z.div_mod c' a ltac:(lia)) as Hc'. rewrite Hc in Hc'. assert (q < c' / a + 1) by nia. nia.
Qed.

Section area.

Variables (map : list Z) (size nr k : Z).
Hypothesis map_ok : words_ok map.
Hypothesis size_ok : 0 <= size <= zlen map * B.
Hypothesis nr_pos : 0 < nr.
Hypothesis k_ok : 0 <= k < B.
Hypothesis room : size + 2 ^ k + nr <= 2 ^ B.

(** [nr] clear bits at the aligned position [c]. *)
Definition fits (c : Z) : Prop :=
  c mod 2 ^ k = 0 /\ c + nr <= size /\ forall i, c <= i < c + nr -> bit map i = false.

(** The answer for a search from [start]: the first area that fits, or a
    number past the end when there is none. *)
Definition first_fit (start r : Z) : Prop :=
  (r < size /\ start <= r /\ fits r /\ forall c, start <= c < r -> ~ fits c) \/
  (size < r < size + 2 ^ k + nr /\ forall c, start <= c -> ~ fits c).

Lemma first_fit_skip start start' r :
  start <= start' -> (forall c, start <= c < start' -> ~ fits c) -> first_fit start' r -> first_fit start r.
Proof.
  intros Hs Hn [(H1 & H2 & H3 & H4)|(H1 & H2)]; [left|right].
  - split_and!; [done|lia|done|]. intros c Hc. destruct (decide (c < start')); [apply Hn|apply H4]; lia.
  - split; [done|]. intros c Hc. destruct (decide (c < start')); [apply Hn|apply H2]; lia.
Qed.

(** No area fits before the first clear bit, aligned. *)
Lemma no_fit_before start z c :
  (if size <=? start then z = size else is_next (fun i => negb (bit map i)) start size z) ->
  start <= c -> c < __ALIGN_MASK z (2 ^ k - 1) -> 0 <= z -> z <= size -> ~ fits c.
Proof.
  intros Hz Hc Hlt Hz0 Hzs (Ha & He & Hf). destruct (align_spec z k) as (_ & _ & Hmin); [done|done|lia|].
  destruct (decide (z <= c)); [specialize (Hmin c Ha ltac:(lia)); lia|].
  destruct (Z.leb_spec size start); [lia|]. destruct Hz as (_ & Hset & _). specialize (Hset c ltac:(lia)). cbn in Hset.
  rewrite Hf in Hset by lia. done.
Qed.

Lemma zero_area_loop_spec fuel start :
  0 <= start -> (Z.to_nat (size - start) < fuel)%nat ->
  exists r, zero_area_loop fuel map size start nr (2 ^ k - 1) = Some r /\ first_fit start r.
Proof.
  revert start. induction fuel as [|fuel IH]; intros start Hs Hf; [lia|]. cbn [zero_area_loop].
  destruct (pow_range k) as [Hk _]; [lia|].
  destruct (find_next_zero_bit_spec map size start) as (z & -> & Hz); [done|done|lia|lia|]. cbn [mbind option_bind].
  assert (0 <= z <= size /\ (start <= z \/ z = size)) as [Hz0 Hz1].
  { destruct (Z.leb_spec size start); [lia|]. destruct Hz as [? _]. lia. }
  destruct (align_spec z k) as (Hc & Ha & _); [lia|done|lia|]. pose proof (fun c => no_fit_before start z c Hz) as Hno.
  set (index := __ALIGN_MASK z (2 ^ k - 1)) in *. rewrite (ulong_id (index + nr)) by (unfold word_ok; lia).
  destruct (Z.ltb_spec size (index + nr)) as [Hend|Hend].
  - eexists. split; [done|]. right. split; [lia|]. intros c Hsc Hfit. destruct (decide (c < index)); [by apply (Hno c); try lia|].
    destruct Hfit as (_ & ? & _). lia.
  - destruct (find_next_bit_spec map (index + nr) index) as (i & -> & Hi); [done|lia|lia|lia|]. cbn [mbind option_bind].
    rewrite (proj2 (Z.leb_gt _ _)) in Hi by lia. destruct Hi as (Hi1 & Hi2 & Hi3).
    destruct (Z.ltb_spec i (index + nr)) as [Hlt|Hge].
    + rewrite ulong_id by (unfold word_ok; lia). destruct (IH (i + 1)) as (r & -> & Hr); [lia|lia|].
      exists r. split; [done|]. apply (first_fit_skip start (i + 1)); [lia| |done].
      intros c Hci Hfit. destruct (decide (c < index)); [by apply (Hno c); try lia|].
      destruct Hfit as (_ & _ & Hclear). specialize (Hi3 Hlt). rewrite Hclear in Hi3 by lia. done.
    + exists index. split; [done|]. left. split; [lia|]. split; [lia|].
      split; [split; [done|]; split; [lia|]; intros j Hj; apply Hi2; lia|]. intros c Hci. apply Hno; lia.
Qed.

End area.

(** The four searches are exact.  On a bitmap of well-formed words, with
    [size] within the bitmap, [find_next_bit] returns [size] when the search
    starts at or past it, and otherwise the first set bit from [offset] on
    below [size], or [size] when there is none, whatever the bits past [size]
    in the last word are; [find_next_zero_bit] does the same for clear bits,
    and [find_first_bit] and [find_first_zero_bit] for a search from 0. *)
Theorem bitmap_searches_exact m size offset :
  words_ok m -> 0 <= offset -> 0 <= size < 2 ^ B -> size <= zlen m * B ->
  (exists r, find_next_bit m size offset = Some r /\
    if size <=? offset then r = size else is_next (bit m) offset size r) /\
  (exists r, find_next_zero_bit m size offset = Some r /\
    if size <=? offset then r = size else is_next (fun i => negb (bit m i)) offset size r) /\
  (exists r, find_first_bit m size = Some r /\ is_next (bit m) 0 size r) /\
  (exists r, find_first_zero_bit m size = Some r /\ is_next (fun i => negb (bit m i)) 0 size r).
Proof.
  intros Hm Ho Hs Hl. split; [by apply find_next_bit_spec|]. split; [by apply find_next_zero_bit_spec|].
  split; [apply (next_loop_spec _ m 0); [done|lia..]|]. unfold find_first_zero_bit. rewrite next_zero_loop_next by done.
  destruct (next_loop_spec (S (length m)) (not_ <$> m) 0 size) as (r & Hr & Hn);
    [by apply not_words|lia|rewrite length_fmap; lia|lia|rewrite length_fmap; lia|].
  exists r. split; [exact Hr|]. eapply is_next_ext; [|exact Hn]. intros i Hi. apply bit_not; [done|lia].
Qed.

(** [bitmap_set] and [bitmap_clear] are exact: for a range within the
    bitmap they return, and the result has the bits of the range set
    (cleared) and every other bit as it was. *)
Theorem bitmap_set_clear_exact map start nr :
  words_ok map -> 0 <= start -> 0 <= nr -> start + nr <= zlen map * B -> start + nr < 2 ^ 31 ->
  (exists map', bitmap_set map start nr = Some map' /\ range_set true map start (start + nr) map') /\
  (exists map', bitmap_clear map start nr = Some map' /\ range_set false map start (start + nr) map').
Proof. intros. split; [apply bitmap_set_exact|apply bitmap_clear_exact]; done. Qed.

(** C13. [bitmap_find_next_zero_area] returns, and is a first fit: for an
    alignment mask [2^k - 1] and [nr >= 1] it returns an aligned index below
    [size] from which [nr] bits are clear, with no such area earlier at or
    after [start]; or a number above [size] but below [size + 2^k + nr], and then there is none at all.
    Each round of the [goto again] but the first starts after a set bit, so at
    most [size + 1] rounds are made. *)
Theorem bitmap_find_next_zero_area_first_fit map size start nr k :
  words_ok map -> 0 <= size <= zlen map * B -> 0 < nr -> 0 <= k < B -> size + 2 ^ k + nr <= 2 ^ B -> 0 <= start ->
  exists r, bitmap_find_next_zero_area map size start nr (2 ^ k - 1) = Some r /\ first_fit map size nr k start r.
Proof. intros. apply zero_area_loop_spec; done || lia. Qed.

End bits.

Section witnesses.

(** 10 of 64 bits in two 32-bit words are set: 0, 1, 4 to 7 and 30 to 33. *)
Let m : list Z := [3221225715; 3].

Lemma m_ok : @words_ok long32 m.
Proof. repeat apply Forall_cons_2; [by vm_compute..|apply Forall_nil_2]. Qed.

Lemma bitmap_searches_exact_witness :
  exists r, @find_next_bit long32 m 60 8 = Some r /\ is_next (@bit long32 m) 8 60 r.
Proof.
  destruct (@bitmap_searches_exact long32 m 60 8) as [(r & Hr & Hn) _];
    [exact m_ok|lia|cbn; lia|cbn; lia|]. exists r. split; [exact Hr|exact Hn].
Defined.

Lemma bitmap_set_clear_exact_witness :
  exists map', @bitmap_set long32 m 20 30 = Some map' /\ @range_set long32 true m 20 50 map'.
Proof. apply (@bitmap_set_clear_exact long32 m 20 30); [exact m_ok|lia|lia|cbn; lia|lia]. Defined.

Lemma bitmap_find_next_zero_area_first_fit_witness :
  exists r, @bitmap_find_next_zero_area long32 m 64 0 5 3 = Some r /\ @first_fit long32 m 64 5 2 0 r.
Proof. apply (@bitmap_find_next_zero_area_first_fit long32 m 64 0 5 2); [exact m_ok|cbn; lia..]. Defined.

(** The values of these calls. *)
Lemma bitmap_examples :
  @find_next_bit long32 m 60 8 = Some 30 /\ @find_next_zero_bit long32 m 64 30 = Some 34 /\
  @bitmap_set long32 m 20 30 = Some [4293918963; 262143] /\
  @bitmap_find_next_zero_area long32 m 64 0 5 3 = Some 8 /\ @bitmap_find_next_zero_area long32 m 64 9 21 3 = Some 36.
Proof. vm_compute. repeat split. Qed.

End witnesses.
