(* ===== verification/CskyBitops.v ===== *)
(** * Bit operations of the C-SKY port (arch/csky/include/asm/bitops.h)

    The port has its own single-bit operations, and its own versions of the four
    bitmap searches, which work on [int] where the generic ones of
    [Bitmap.v] work on [unsigned long].  A word is a 32-bit number; the
    single-bit operations run with interrupts off, so each is one step.  The
    instructions [brev] (reverse the bits) and [ff1] (count the zero bits above
    the highest set bit) are parameters with their documented behaviour. *)

From Stdlib Require Import ZArith Lia.
From stdpp Require Import base numbers list option.
From S2P Require Import Prelude Bitmap.

Local Open Scope Z_scope.

(** ** Single bits *)

(** [mask = 1 << (nr & 0x1f)], an [int]; combined with an [unsigned] word it is
    converted to one. *)
Definition csky_mask (nr : Z) : Z := s32 (1 .<< (nr .& 31)).

(** [a += nr >> 5]: a negative number addresses memory before the map. *)
Definition csky_word (nr : Z) : option nat :=
  if nr .>> 5 <? 0 then None else Some (Z.to_nat (nr .>> 5)).

(** Read the word of [nr], write [f] of it: the old word and the new memory. *)
Definition csky_update (addr : list Z) (nr : Z) (f : Z -> Z) : option (Z * list Z) :=
  p ← csky_word nr; w ← addr !! p; Some (w, <[p := f w]> addr).

(** [( mask & *a ) != 0] *)
Definition csky_retval (nr w : Z) : Z := if negb (u32 (csky_mask nr) .& w =? 0) then 1 else 0.

Definition csky_test_and (addr : list Z) (nr : Z) (f : Z -> Z) : option (Z * list Z) :=
  '(w, addr') ← csky_update addr nr f; Some (csky_retval nr w, addr').

Definition csky_test_and_set_bit (nr : Z) (addr : list Z) : option (Z * list Z) :=
  csky_test_and addr nr (fun w => w .| u32 (csky_mask nr)).

Definition csky___test_and_set_bit (nr : Z) (addr : list Z) : option (Z * list Z) :=
  csky_test_and addr nr (fun w => w .| u32 (csky_mask nr)).

Definition csky_set_bit (nr : Z) (addr : list Z) : option (list Z) :=
  snd <$> csky_update addr nr (fun w => w .| u32 (csky_mask nr)).

Definition csky___set_bit (nr : Z) (addr : list Z) : option (list Z) :=
  snd <$> csky_update addr nr (fun w => w .| u32 (csky_mask nr)).

Definition csky_test_and_clear_bit (nr : Z) (addr : list Z) : option (Z * list Z) :=
  csky_test_and addr nr (fun w => w .& u32 (Z.lnot (csky_mask nr))).

Definition csky___test_and_clear_bit (nr : Z) (addr : list Z) : option (Z * list Z) :=
  csky_test_and addr nr (fun w => w .& u32 (Z.lnot (csky_mask nr))).

Definition csky_clear_bit (nr : Z) (addr : list Z) : option (list Z) :=
  snd <$> csky_update addr nr (fun w => w .& u32 (Z.lnot (csky_mask nr))).

Definition csky___clear_bit (nr : Z) (vaddr : list Z) : option (list Z) := csky_clear_bit nr vaddr.

Definition csky_test_and_change_bit (nr : Z) (addr : list Z) : option (Z * list Z) :=
  csky_test_and addr nr (fun w => w .^ u32 (csky_mask nr)).

Definition csky___test_and_change_bit (nr : Z) (addr : list Z) : option (Z * list Z) :=
  csky_test_and addr nr (fun w => w .^ u32 (csky_mask nr)).

Definition csky_change_bit (nr : Z) (addr : list Z) : option (list Z) :=
  snd <$> csky_update addr nr (fun w => w .^ u32 (csky_mask nr)).

Definition csky___change_bit (nr : Z) (addr : list Z) : option (list Z) :=
  snd <$> csky_update addr nr (fun w => w .^ u32 (csky_mask nr)).

Definition csky___test_bit (nr : Z) (addr : list Z) : option Z :=
  p ← csky_word nr; w ← addr !! p; Some (csky_retval nr w).

Definition csky_test_bit (nr : Z) (vaddr : list Z) : option Z :=
  p ← csky_word nr; w ← vaddr !! p; Some (if negb (w .& u32 (1 .<< (nr .& 31)) =? 0) then 1 else 0).

(** ** Searches *)

(** [~0UL] *)
Definition ones32 : Z := 2 ^ 32 - 1.

Section searches.

Variables brev ff1 : Z -> Z.

Definition csky_ffs (x : Z) : Z := if x =? 0 then 0 else ff1 (brev (u32 x)) + 1.

Definition csky___ffs (x : Z) : Z := ff1 (brev (u32 x)).

Definition csky_ffz (word : Z) : Z := ff1 (brev (u32 (Z.lnot word))).

(** [tmp], [size], [offset] and [result] are [int]; the masks are
    [unsigned long], so the operation is made on [unsigned long] and its result
    converted back. *)
Definition csky_and (tmp mask : Z) : Z := s32 (u32 tmp .& mask).
Definition csky_or (tmp mask : Z) : Z := s32 (u32 tmp .| mask).

(** [x & ~31UL] *)
Definition csky_whole (x : Z) : Z := u32 x .& u32 (Z.lnot 31).

Definition csky_zero_middle (tmp result : Z) : Z := s32 (u32 result + csky_ffz (u32 tmp)).

Definition csky_zero_first (tmp size result : Z) : Z :=
  let tmp := csky_or tmp (u32 (ones32 .<< size)) in
  if u32 tmp =? ones32 then result + size else csky_zero_middle tmp result.

(** The while loop of [find_next_zero_bit] and [find_first_zero_bit], and what
    follows it. *)
Fixpoint csky_zero_loop (fuel : nat) (addr : list Z) (p : nat) (size result : Z) : option Z :=
  match fuel with
  | O => None
  | S fuel =>
      if negb (csky_whole size =? 0) then
        tmp ← s32 <$> addr !! p;
        if negb (Z.lnot tmp =? 0) then Some (csky_zero_middle tmp result)
        else csky_zero_loop fuel addr (S p) (size - 32) (result + 32)
      else if size =? 0 then Some result
      else tmp ← s32 <$> addr !! p; Some (csky_zero_first tmp size result)
  end.

Definition csky_find_next_zero_bit (addr : list Z) (size offset : Z) : option Z :=
  let result := s32 (csky_whole offset) in
  if size <=? offset then Some size else
  p ← csky_word offset;
  let size := size - result in
  let offset := offset .& 31 in
  if negb (offset =? 0) then
    tmp ← s32 <$> addr !! p;
    let tmp := csky_or tmp (ones32 .>> (32 - offset)) in
    if size <? 32 then Some (csky_zero_first tmp size result)
    else if negb (Z.lnot tmp =? 0) then Some (csky_zero_middle tmp result)
    else csky_zero_loop (S (length addr)) addr (S p) (size - 32) (result + 32)
  else csky_zero_loop (S (length addr)) addr p size result.

Definition csky_find_first_zero_bit (addr : list Z) (size : Z) : option Z :=
  csky_zero_loop (S (length addr)) addr 0 size 0.

Definition csky_middle (tmp result : Z) : Z := result + csky___ffs tmp.

Definition csky_first (tmp size result : Z) : Z :=
  let tmp := csky_and tmp (ones32 .>> (32 - size)) in
  if u32 tmp =? 0 then result + size else csky_middle tmp result.

Fixpoint csky_loop (fuel : nat) (addr : list Z) (p : nat) (size result : Z) : option Z :=
  match fuel with
  | O => None
  | S fuel =>
      if negb (csky_whole size =? 0) then
        tmp ← s32 <$> addr !! p;
        if negb (tmp =? 0) then Some (csky_middle tmp result)
        else csky_loop fuel addr (S p) (size - 32) (result + 32)
      else if size =? 0 then Some result
      else tmp ← s32 <$> addr !! p; Some (csky_first tmp size result)
  end.

Definition csky_find_next_bit (addr : list Z) (size offset : Z) : option Z :=
  let result := s32 (csky_whole offset) in
  if size <=? offset then Some size else
  p ← csky_word offset;
  let size := size - result in
  let offset := offset .& 31 in
  if negb (offset =? 0) then
    tmp ← s32 <$> addr !! p;
    let tmp := csky_and tmp (u32 (ones32 .<< offset)) in
    if size <? 32 then Some (csky_first tmp size result)
    else if negb (tmp =? 0) then Some (csky_middle tmp result)
    else csky_loop (S (length addr)) addr (S p) (size - 32) (result + 32)
  else csky_loop (S (length addr)) addr p size result.

Definition csky_find_first_bit (addr : list Z) (size : Z) : option Z :=
  csky_loop (S (length addr)) addr 0 size 0.

(** ** The highest bit *)

Definition csky_fls (x : Z) : Z := 32 - ff1 (u32 x).

Definition csky___fls (x : Z) : Z := csky_fls x - 1.

Definition csky_fls64 (x : Z) : Z :=
  let h := u32 (x .>> 32) in
  if negb (h =? 0) then csky_fls h + 32 else csky_fls x.

End searches.

(** ** Single bits: exact *)

Section bits.

#[local] Existing Instance long32.

Lemma u32_s32 x : u32 (s32 x) = u32 x.
Proof.
  unfold u32, s32, uwrap, swrap. rewrite Zminus_mod_idemp_l. f_equal. lia.
Qed.

Lemma mask_pow nr : 0 <= nr -> u32 (csky_mask nr) = 2 ^ (nr mod 32) /\ 0 <= nr mod 32 < 32.
Proof.
  intros Hn. unfold csky_mask. rewrite u32_s32. change 31 with (2 ^ 5 - 1). rewrite land_ones_mod by lia.
  change (2 ^ 5) with 32. pose proof (Z.mod_pos_bound nr 32 ltac:(lia)) as Hm. rewrite Z.shiftl_1_l. split; [|done].
  apply u32_small. split; [apply Z.pow_nonneg; lia|apply Z.pow_lt_mono_r; lia].
Qed.

Lemma csky_word_of nr : 0 <= nr -> csky_word nr = Some (Z.to_nat (nr / 32)).
Proof.
  intros Hn. unfold csky_word. rewrite Z.shiftr_div_pow2 by lia. change (2 ^ 5) with 32.
  rewrite (proj2 (Z.ltb_ge _ _)); [done|]. by apply Z.div_pos.
Qed.

(** The memory [m'] is [m] with bit [nr] made [v]. *)
Definition bit_becomes (m : list Z) (nr : Z) (v : bool) (m' : list Z) : Prop :=
  words_ok m' /\ length m' = length m /\ forall i, 0 <= i -> bit m' i = if i =? nr then v else bit m i.

(** The word operation [f] changes bit [k] of a word to [v] and no other. *)
Definition bit_op (f : Z -> Z) (k : Z) (w : Z) (v : bool) : Prop :=
  word_ok (f w) /\ forall i, 0 <= i < 32 -> Z.testbit (f w) i = if i =? k then v else Z.testbit w i.

Lemma csky_update_spec m nr f (v : bool -> bool) :
  words_ok m -> 0 <= nr < zlen m * 32 -> (forall w, word_ok w -> bit_op f (nr mod 32) w (v (Z.testbit w (nr mod 32)))) ->
  exists w m', csky_update m nr f = Some (w, m') /\ word_ok w /\ Z.testbit w (nr mod 32) = bit m nr /\
    bit_becomes m nr (v (bit m nr)) m'.
Proof.
  intros Hm Hn Hf. assert (Z.to_nat (nr / 32) < length m)%nat as Hp.
  { assert (0 <= nr / 32) by (apply Z.div_pos; lia). assert (nr / 32 < zlen m) by (apply Z.div_lt_upper_bound; lia). lia. }
  destruct (word_lookup m _ Hm Hp) as (w & Hw & Hok). unfold csky_update. rewrite csky_word_of by lia. cbn [mbind option_bind].
  rewrite Hw. cbn [mbind option_bind]. assert (Z.testbit w (nr mod 32) = bit m nr) as Hb.
  { unfold bit. change BITS_PER_LONG with 32. by rewrite Hw. }
  destruct (Hf w Hok) as [Hok' Hbits]. rewrite Hb in Hbits. do 2 eexists. split_and!; [done|done|done|].
  split; [by apply Forall_insert|]. split; [by rewrite length_insert|]. intros i Hi. rewrite bit_insert by done.
  change BITS_PER_LONG with 32. pose proof (Z.mod_pos_bound i 32 ltac:(lia)) as Hi'.
  assert (0 <= nr / 32) by (apply Z.div_pos; lia). rewrite Z2Nat.id by done.
  destruct (decide (i / 32 = nr / 32)) as [E|E].
  - rewrite Hbits by done. assert (Hdi := Z.div_mod i 32 ltac:(lia)). assert (Hdn := Z.div_mod nr 32 ltac:(lia)).
    destruct (Z.eqb_spec (i mod 32) (nr mod 32)), (Z.eqb_spec i nr); try done; [lia|congruence|].
    unfold bit. change BITS_PER_LONG with 32. by rewrite E, Hw.
  - destruct (Z.eqb_spec i nr); [congruence|done].
Qed.

Lemma pow2_ok k : 0 <= k < 32 -> word_ok (2 ^ k).
Proof. intros Hk. split; [apply Z.pow_nonneg; lia|apply Z.pow_lt_mono_r; cbn; lia]. Qed.

Lemma set_bit_op k w : 0 <= k < 32 -> word_ok w -> bit_op (fun w => w .| 2 ^ k) k w true.
Proof.
  intros Hk Hw. split; [apply lor_bound; [cbn; lia|done|by apply pow2_ok]|]. intros i Hi.
  rewrite Z.lor_spec, Z.pow2_bits_eqb, Z.eqb_sym by lia. destruct (i =? k); [apply orb_true_r|apply orb_false_r].
Qed.

Lemma change_bit_op k w : 0 <= k < 32 -> word_ok w -> bit_op (fun w => w .^ 2 ^ k) k w (negb (Z.testbit w k)).
Proof.
  intros Hk Hw. split; [apply lxor_bound; [cbn; lia|done|by apply pow2_ok]|]. intros i Hi.
  rewrite Z.lxor_spec, Z.pow2_bits_eqb, Z.eqb_sym by lia. destruct (Z.eqb_spec i k) as [->|]; [apply xorb_true_r|apply xorb_false_r].
Qed.

Lemma clear_bit_op k w : 0 <= k < 32 -> word_ok w -> bit_op (fun w => w .& (ones32 - 2 ^ k)) k w false.
Proof.
  intros Hk Hw. pose proof (pow2_ok k Hk) as Hp. assert (ones32 - 2 ^ k = not_ (2 ^ k)) as -> by done.
  pose proof (not_ok _ Hp) as Hnp. split; [apply land_bound; [cbn; lia|done|apply Hnp]|]. intros i Hi.
  rewrite Z.land_spec, not_bits, Z.pow2_bits_eqb, Z.eqb_sym by (done || lia).
  destruct (i =? k); [apply andb_false_r|apply andb_true_r].
Qed.

Lemma bit_mask_land w k : 0 <= k -> (2 ^ k .& w =? 0) = negb (Z.testbit w k).
Proof.
  intros Hk. destruct (Z.testbit w k) eqn:E; cbn [negb].
  - apply Z.eqb_neq. intros E0. apply (f_equal (fun z => Z.testbit z k)) in E0.
    rewrite Z.land_spec, Z.pow2_bits_true, E, Z.bits_0 in E0 by done. done.
  - apply Z.eqb_eq, Z.bits_inj'. intros i Hi. rewrite Z.land_spec, Z.pow2_bits_eqb, Z.bits_0 by done.
    destruct (Z.eqb_spec k i) as [<-|]; [by rewrite E|done].
Qed.

Lemma retval_bit nr w : 0 <= nr -> csky_retval nr w = Z.b2z (Z.testbit w (nr mod 32)).
Proof.
  intros Hn. unfold csky_retval. destruct (mask_pow nr Hn) as [-> Hk]. rewrite bit_mask_land, negb_involutive by lia.
  by destruct (Z.testbit _ _).
Qed.

Lemma clear_mask nr : 0 <= nr -> u32 (Z.lnot (csky_mask nr)) = ones32 - 2 ^ (nr mod 32).
Proof.
  intros Hn. destruct (mask_pow nr Hn) as [E Hk]. unfold Z.lnot, u32 in *. replace (Z.pred (- csky_mask nr)) with (-1 - csky_mask nr) by lia.
  rewrite <- uwrap_sub_r, E. replace (-1 - 2 ^ (nr mod 32)) with (ones32 - 2 ^ (nr mod 32) + (-1) * 2 ^ 32) by (unfold ones32; lia).
  unfold uwrap. rewrite Z.mod_add by lia. apply Z.mod_small. pose proof (pow2_ok _ Hk) as Hp. unfold word_ok in Hp. cbn in Hp.
  unfold ones32. lia.
Qed.

(** A test-and-modify and its plain version, from the word operation. *)
Lemma csky_test_and_spec m nr f (v : bool -> bool) :
  words_ok m -> 0 <= nr < zlen m * 32 -> (forall w, word_ok w -> bit_op f (nr mod 32) w (v (Z.testbit w (nr mod 32)))) ->
  exists m', csky_test_and m nr f = Some (Z.b2z (bit m nr), m') /\ snd <$> csky_update m nr f = Some m' /\
    bit_becomes m nr (v (bit m nr)) m'.
Proof.
  intros Hm Hn Hf. destruct (csky_update_spec m nr f v Hm Hn Hf) as (w & m' & E & Hw & Hb & Hbec).
  exists m'. unfold csky_test_and. rewrite E. cbn. by rewrite retval_bit, Hb by lia.
Qed.

(** The single-bit operations of the port change one bit.  For a bit inside
    the map, [test_and_set_bit], [test_and_clear_bit] and
    [test_and_change_bit] return the bit's old value and set, clear or flip
    it; every other bit of the memory stays as it was, bit 31 of a word
    included, whose [int] mask is negative.  The operations without the test
    write the same memory, and [test_bit] reads the bit. *)
Theorem csky_bit_ops_exact m nr :
  words_ok m -> 0 <= nr < zlen m * 32 ->
  (exists m', csky_test_and_set_bit nr m = Some (Z.b2z (bit m nr), m') /\ csky_set_bit nr m = Some m' /\
     csky___set_bit nr m = Some m' /\ bit_becomes m nr true m') /\
  (exists m', csky_test_and_clear_bit nr m = Some (Z.b2z (bit m nr), m') /\ csky_clear_bit nr m = Some m' /\
     csky___clear_bit nr m = Some m' /\ bit_becomes m nr false m') /\
  (exists m', csky_test_and_change_bit nr m = Some (Z.b2z (bit m nr), m') /\ csky_change_bit nr m = Some m' /\
     csky___change_bit nr m = Some m' /\ bit_becomes m nr (negb (bit m nr)) m') /\
  csky_test_bit nr m = Some (Z.b2z (bit m nr)) /\ csky___test_bit nr m = Some (Z.b2z (bit m nr)).
Proof.
  intros Hm Hn. destruct (mask_pow nr) as [E Hk]; [lia|].
  split; [|split; [|split]].
  - destruct (csky_test_and_spec m nr (fun w => w .| u32 (csky_mask nr)) (fun _ => true)) as (m' & ? & ? & ?);
      [done|done|intros w Hw; rewrite E; by apply set_bit_op|]. by exists m'.
  - destruct (csky_test_and_spec m nr (fun w => w .& u32 (Z.lnot (csky_mask nr))) (fun _ => false)) as (m' & ? & ? & ?);
      [done|done|intros w Hw; rewrite clear_mask by lia; by apply clear_bit_op|]. by exists m'.
  - destruct (csky_test_and_spec m nr (fun w => w .^ u32 (csky_mask nr)) negb) as (m' & ? & ? & ?);
      [done|done|intros w Hw; rewrite E; by apply change_bit_op|]. by exists m'.
  - destruct (csky_update_spec m nr (fun w => w .^ u32 (csky_mask nr)) negb) as (w & m' & Hu & Hw & Hb & _);
      [done|done|intros w Hw; rewrite E; by apply change_bit_op|].
    unfold csky_update in Hu. unfold csky_test_bit, csky___test_bit. destruct (csky_word nr) as [p|]; [|done].
    cbn [mbind option_bind] in *. destruct (m !! p) as [w'|]; [|done]. injection Hu as <- _. cbn [mbind option_bind].
    rewrite retval_bit, Hb by lia. split; [|done]. f_equal. rewrite <- Hb, <- retval_bit by lia. unfold csky_retval.
    unfold csky_mask. by rewrite u32_s32, Z.land_comm.
Qed.

End bits.

(** ** The searches agree with the generic ones *)

Section equivalence.

#[local] Existing Instance long32.

Variables brev ff1 : Z -> Z.

(** [brev] reverses the 32 bits of a register. *)
Hypothesis brev_range : forall x, 0 <= x < 2 ^ 32 -> 0 <= brev x < 2 ^ 32.
Hypothesis brev_bits : forall x i, 0 <= x < 2 ^ 32 -> 0 <= i < 32 -> Z.testbit (brev x) i = Z.testbit x (31 - i).

(** [ff1] counts the zero bits above the highest set bit, 32 when there is none. *)
Hypothesis ff1_zero : ff1 0 = 32.
Hypothesis ff1_log2 : forall x, 0 < x < 2 ^ 32 -> ff1 x = 31 - Z.log2 x.

Lemma ff1_brev x : 0 < x < 2 ^ 32 -> ff1 (brev x) = __ffs x.
Proof.
  intros Hx. pose proof (brev_range x) as Hr. assert (exists i, 0 <= i < 32 /\ Z.testbit x i = true) as (i & Hi & Ht).
  { exists (Z.log2 x). split; [split; [apply Z.log2_nonneg|apply Z.log2_lt_pow2; lia]|]. apply Z.bit_log2. lia. }
  assert (brev x <> 0) as Hn.
  { intros E. pose proof (brev_bits x (31 - i)) as Hb. replace (31 - (31 - i)) with i in Hb by lia.
    rewrite E, Z.bits_0, Ht in Hb by lia. discriminate Hb; lia. }
  rewrite ff1_log2 by lia. assert (0 <= Z.log2 (brev x) < 32) as Hl.
  { split; [apply Z.log2_nonneg|apply Z.log2_lt_pow2; lia]. }
  eapply (is_next_unique (Z.testbit x) 0 32); [|exact (proj1 (ffs_spec x Hx))]. split; [lia|]. split.
  - intros j Hj. replace j with (31 - (31 - j)) by lia. rewrite <- brev_bits by lia. apply Z.bits_above_log2; lia.
  - intros _. rewrite <- brev_bits by lia. apply Z.bit_log2. lia.
Qed.

Lemma s32_zero w : word_ok w -> (s32 w =? 0) = (w =? 0).
Proof.
  unfold word_ok. cbn [BITS_PER_LONG long32]. intros Hw. apply eq_true_iff_eq. rewrite !Z.eqb_eq. unfold s32, swrap. change (2 ^ (32 - 1)) with 2147483648. change (2 ^ 32) with 4294967296 in *.
  Z.to_euclidean_division_equations. lia.
Qed.

Lemma lnot_s32_zero w : word_ok w -> (Z.lnot (s32 w) =? 0) = (not_ w =? 0).
Proof.
  unfold word_ok, Z.lnot, not_, all_ones. cbn [BITS_PER_LONG long32]. intros Hw. apply eq_true_iff_eq. rewrite !Z.eqb_eq. unfold s32, swrap. change (2 ^ (32 - 1)) with 2147483648. change (2 ^ 32) with 4294967296 in *.
  Z.to_euclidean_division_equations. lia.
Qed.

Lemma u32_s32_word w : word_ok w -> u32 (s32 w) = w.
Proof. intros Hw. rewrite u32_s32. apply u32_small, Hw. Qed.

Lemma csky_middle_eq w result :
  0 < w < 2 ^ 32 -> 0 <= result -> result + 32 <= 2 ^ 32 -> csky_middle brev ff1 (s32 w) result = found_middle w result.
Proof.
  intros Hw Hr Hb. unfold csky_middle, csky___ffs, found_middle. rewrite u32_s32_word by (unfold word_ok; cbn; lia).
  rewrite ff1_brev by done. destruct (@ffs_spec long32 w Hw) as [[Hf _] Hf']. cbn in Hf'. symmetry. apply ulong_small. lia.
Qed.

Lemma csky_first_eq w size result :
  word_ok w -> 0 < size < 32 -> 0 <= result -> result + 32 <= 2 ^ 32 -> csky_first brev ff1 (s32 w) size result = found_first w size result.
Proof.
  intros Hw Hs Hr Hb. unfold csky_first, found_first, csky_and. rewrite (u32_s32_word w) by done.
  change all_ones with ones32. change (BITS_PER_LONG - size) with (32 - size). set (t := w .& (ones32 .>> (32 - size))).
  assert (word_ok t) as Ht by (apply land_bound; [cbn; lia|done|apply Z.shiftr_nonneg; done]).
  rewrite u32_s32_word by done. destruct (Z.eqb_spec t 0); [symmetry; apply ulong_small; lia|].
  apply csky_middle_eq; [unfold word_ok in Ht; cbn in Ht; lia|lia|lia].
Qed.

Lemma csky_whole_zero size : 0 <= size < 2 ^ 31 -> csky_whole size = size .& ulong (Z.lnot (BITS_PER_LONG - 1)).
Proof. intros Hs. unfold csky_whole. rewrite u32_small by lia. done. Qed.

Lemma csky_loop_eq fuel m p size result :
  words_ok m -> 0 <= size -> 0 <= result -> result + size < 2 ^ 31 ->
  csky_loop brev ff1 fuel m p size result = next_loop fuel m p size result.
Proof.
  intros Hm. revert p size result. induction fuel as [|fuel IH]; intros p size result Hs Hr Hb; [done|].
  cbn [csky_loop next_loop]. rewrite csky_whole_zero, small_size by (cbn; lia). change BITS_PER_LONG with 32.
  destruct (m !! p) as [w|] eqn:Ew; [|done]. assert (word_ok w) as Hw by (by eapply Forall_lookup_1).
  cbn [fmap option_fmap option_map mbind option_bind]. destruct (Z.ltb_spec size 32); cbn [negb].
  - destruct (Z.eqb_spec size 0); [done|]. rewrite csky_first_eq by (done || lia). done.
  - rewrite s32_zero by done. destruct (Z.eqb_spec w 0); cbn [negb].
    + rewrite (ulong_small (size - 32)), (ulong_small (result + 32)) by lia. apply IH; lia.
    + f_equal. apply csky_middle_eq; [unfold word_ok in Hw; cbn in Hw; lia|lia|lia].
Qed.

Lemma u32_lnot w : word_ok w -> u32 (Z.lnot w) = not_ w.
Proof.
  unfold word_ok, not_, all_ones, Z.lnot. cbn [BITS_PER_LONG long32]. intros Hw.
  replace (Z.pred (- w)) with (2 ^ 32 - 1 - w + (-1) * 2 ^ 32) by lia. unfold u32, uwrap. rewrite Z.mod_add by lia.
  apply Z.mod_small. lia.
Qed.

Lemma csky_zero_middle_eq w result :
  word_ok w -> not_ w <> 0 -> 0 <= result -> result + 32 <= 2 ^ 31 ->
  csky_zero_middle brev ff1 (s32 w) result = zero_middle w result.
Proof.
  intros Hw Hn Hr Hb. unfold csky_zero_middle, csky_ffz, zero_middle, ffz. rewrite u32_s32_word, u32_lnot by done.
  pose proof (not_ok w Hw) as Hnw. assert (0 < not_ w < 2 ^ 32) as Hnr by (unfold word_ok in Hnw; cbn in Hnw; lia).
  rewrite ff1_brev, u32_small by lia. destruct (@ffs_spec long32 _ Hnr) as [[Hf _] Hf']. cbn in Hf'.
  rewrite s32_small, ulong_small; lia.
Qed.

Lemma csky_zero_first_eq w size result :
  word_ok w -> 0 < size < 32 -> 0 <= result -> result + 32 <= 2 ^ 31 ->
  csky_zero_first brev ff1 (s32 w) size result = zero_first w size result.
Proof.
  intros Hw Hs Hr Hb. unfold csky_zero_first, zero_first, csky_or. rewrite (u32_s32_word w) by done.
  change (u32 (ones32 .<< size)) with (ulong (all_ones .<< size)). set (t := w .| ulong (all_ones .<< size)).
  assert (word_ok t) as Ht by (apply lor_bound; [cbn; lia|done|apply (ulong_range _)]).
  rewrite u32_s32_word by done. change ones32 with all_ones. destruct (Z.eqb_spec t all_ones); [symmetry; apply ulong_small; lia|].
  apply csky_zero_middle_eq; [done|unfold not_; lia|lia|lia].
Qed.

Lemma whole_room result : 0 <= result < 2 ^ 31 -> result mod 32 = 0 -> result + 32 <= 2 ^ 31.
Proof. intros Hr Hm. change (2 ^ 31) with 2147483648 in *. Z.to_euclidean_division_equations. lia. Qed.

Lemma csky_zero_loop_eq fuel m p size result :
  words_ok m -> 0 <= size -> 0 <= result -> result mod 32 = 0 -> result + size < 2 ^ 31 ->
  csky_zero_loop brev ff1 fuel m p size result = next_zero_loop fuel m p size result.
Proof.
  intros Hm. revert p size result. induction fuel as [|fuel IH]; intros p size result Hs Hr Hr' Hb; [done|].
  pose proof (whole_room result ltac:(lia) Hr') as Hroom.
  cbn [csky_zero_loop next_zero_loop]. rewrite csky_whole_zero, small_size by (cbn; lia). change BITS_PER_LONG with 32.
  destruct (m !! p) as [w|] eqn:Ew; [|done]. assert (word_ok w) as Hw by (by eapply Forall_lookup_1).
  cbn [fmap option_fmap option_map mbind option_bind]. destruct (Z.ltb_spec size 32); cbn [negb].
  - destruct (Z.eqb_spec size 0); [done|]. rewrite csky_zero_first_eq by (done || lia). done.
  - rewrite lnot_s32_zero by done. destruct (Z.eqb_spec (not_ w) 0); cbn [negb].
    + rewrite (ulong_small (size - 32)), (ulong_small (result + 32)) by lia. apply IH; [lia|lia| |lia].
      replace (result + 32) with (result + 1 * 32) by lia. by rewrite Z.mod_add.
    + f_equal. apply csky_zero_middle_eq; done.
Qed.

(** The start of both searches: [offset] split into a word and a bit. *)
Lemma csky_split offset size :
  0 <= offset < size -> size < 2 ^ 31 ->
  let result := offset .& ulong (Z.lnot (BITS_PER_LONG - 1)) in
  s32 (csky_whole offset) = result /\ csky_word offset = Some (Z.to_nat (offset / 32)) /\ offset .& 31 = offset mod 32 /\
  0 <= result <= offset /\ result mod 32 = 0 /\ ulong (size - result) = size - result /\ 0 <= offset mod 32 < 32.
Proof.
  intros Ho Hs. cbv zeta. rewrite csky_whole_zero, word_start by (cbn; lia). change BITS_PER_LONG with 32.
  pose proof (Z.div_mod offset 32 ltac:(lia)) as Hdm. pose proof (Z.mod_pos_bound offset 32 ltac:(lia)) as Hm.
  assert (0 <= offset / 32) by (apply Z.div_pos; lia).
  split_and!; [apply s32_small; lia|apply csky_word_of; lia|change 31 with (2 ^ 5 - 1); by rewrite land_ones_mod|lia|lia
    |by apply Z.mod_mul|apply ulong_small; lia|lia|lia].
Qed.

Lemma csky_find_next_bit_eq m size offset :
  words_ok m -> 0 <= offset -> size < 2 ^ 31 -> csky_find_next_bit brev ff1 m size offset = find_next_bit m size offset.
Proof.
  intros Hm Ho Hs. unfold csky_find_next_bit, find_next_bit. destruct (Z.leb_spec size offset) as [|Hlt]; [done|].
  destruct (csky_split offset size) as (-> & -> & -> & Hr & Hr' & -> & Hb); [lia|done|]. cbn [mbind option_bind].
  set (result := offset .& _) in *. change BITS_PER_LONG with 32. pose proof (whole_room result ltac:(lia) Hr') as Hroom.
  destruct (negb (offset mod 32 =? 0)); [|apply csky_loop_eq; done || lia].
  destruct (m !! _) as [w|] eqn:Ew; [|done]. assert (word_ok w) as Hw by (by eapply Forall_lookup_1).
  cbn [fmap option_fmap option_map mbind option_bind]. unfold csky_and. rewrite u32_s32_word by done.
  change (u32 (ones32 .<< offset mod 32)) with (ulong (all_ones .<< offset mod 32)). set (t := w .& ulong _).
  assert (word_ok t) as Ht by (apply land_bound; [cbn; lia|done|apply (ulong_range _)]).
  destruct (Z.ltb_spec (size - result) 32); [f_equal; apply csky_first_eq; done || lia|].
  rewrite s32_zero by done. destruct (Z.eqb_spec t 0); cbn [negb].
  - rewrite (ulong_small (size - result - 32)), (ulong_small (result + 32)) by lia. apply csky_loop_eq; done || lia.
  - f_equal. apply csky_middle_eq; [unfold word_ok in Ht; cbn in Ht; lia|lia|lia].
Qed.

Lemma csky_find_next_zero_bit_eq m size offset :
  words_ok m -> 0 <= offset -> size < 2 ^ 31 -> csky_find_next_zero_bit brev ff1 m size offset = find_next_zero_bit m size offset.
Proof.
  intros Hm Ho Hs. unfold csky_find_next_zero_bit, find_next_zero_bit. destruct (Z.leb_spec size offset) as [|Hlt]; [done|].
  destruct (csky_split offset size) as (-> & -> & -> & Hr & Hr' & -> & Hb); [lia|done|]. cbn [mbind option_bind].
  set (result := offset .& _) in *. change BITS_PER_LONG with 32. pose proof (whole_room result ltac:(lia) Hr') as Hroom.
  destruct (Z.eqb_spec (offset mod 32) 0) as [|Hne]; cbn [negb]; [apply csky_zero_loop_eq; done || lia|].
  destruct (m !! _) as [w|] eqn:Ew; [|done]. assert (word_ok w) as Hw by (by eapply Forall_lookup_1).
  cbn [fmap option_fmap option_map mbind option_bind]. unfold csky_or. rewrite u32_s32_word by done.
  change (ones32 .>> (32 - offset mod 32)) with (all_ones .>> (BITS_PER_LONG - offset mod 32)).
  assert (word_ok (all_ones .>> (BITS_PER_LONG - offset mod 32))) as Hmk.
  { rewrite low_mask by (cbn; lia). pose proof (pow2_ok (offset mod 32) Hb) as Hp. unfold word_ok in *.
    pose proof (Z.pow_pos_nonneg 2 (offset mod 32)). lia. }
  set (t := w .| _). assert (word_ok t) as Ht by (apply lor_bound; [cbn; lia|done|done]).
  destruct (Z.ltb_spec (size - result) 32); [f_equal; apply csky_zero_first_eq; done || lia|].
  rewrite lnot_s32_zero by done. destruct (Z.eqb_spec (not_ t) 0); cbn [negb].
  - rewrite (ulong_small (size - result - 32)), (ulong_small (result + 32)) by lia. apply csky_zero_loop_eq; [done|lia|lia| |lia].
    replace (result + 32) with (result + 1 * 32) by lia. by rewrite Z.mod_add.
  - f_equal. apply csky_zero_middle_eq; done || lia.
Qed.

(** [fls] and [fls64]: one more than the position of the highest set bit, 0
    for 0. *)
Lemma csky_fls_exact x : 0 <= x < 2 ^ 32 -> csky_fls ff1 x = if x =? 0 then 0 else Z.log2 x + 1.
Proof.
  intros Hx. unfold csky_fls. rewrite u32_small by done. destruct (Z.eqb_spec x 0) as [->|]; [rewrite ff1_zero; done|].
  rewrite ff1_log2 by lia. lia.
Qed.

Lemma csky_fls64_exact x : 0 <= x < 2 ^ 64 -> csky_fls64 ff1 x = if x =? 0 then 0 else Z.log2 x + 1.
Proof.
  intros Hx. unfold csky_fls64. rewrite Z.shiftr_div_pow2 by lia. assert (0 <= x / 2 ^ 32 < 2 ^ 32) as Hh.
  { split; [apply Z.div_pos; lia|apply Z.div_lt_upper_bound; lia]. }
  rewrite u32_small by done. destruct (Z.eqb_spec (x / 2 ^ 32) 0) as [E|E]; cbn [negb].
  - apply csky_fls_exact. split; [lia|]. apply Z.div_small_iff in E; lia.
  - rewrite csky_fls_exact, (proj2 (Z.eqb_neq _ _) E) by done. assert (2 ^ 32 <= x) as Hge.
    { destruct (decide (2 ^ 32 <= x)); [done|]. rewrite Z.div_small in E by lia. done. }
    rewrite (proj2 (Z.eqb_neq x 0)) by lia. rewrite <- Z.shiftr_div_pow2, Z.log2_shiftr by lia.
    assert (32 <= Z.log2 x) by (apply Z.log2_le_pow2; lia). lia.
Qed.

(** C20. The port's searches compute what the generic ones do.  With the
    documented meaning of [brev] and [ff1], on 32-bit words, for a size that
    an [int] holds and any start in the map, [find_next_bit],
    [find_next_zero_bit], [find_first_bit] and [find_first_zero_bit] of the
    port return the results of lib/find_next_bit.c, although they keep words
    in [int] variables, where a word with bit 31 set is negative. *)
Theorem csky_searches_generic m size offset :
  words_ok m -> 0 <= offset -> 0 <= size < 2 ^ 31 ->
  csky_find_next_bit brev ff1 m size offset = find_next_bit m size offset /\
  csky_find_next_zero_bit brev ff1 m size offset = find_next_zero_bit m size offset /\
  csky_find_first_bit brev ff1 m size = find_first_bit m size /\
  csky_find_first_zero_bit brev ff1 m size = find_first_zero_bit m size.
Proof.
  intros Hm Ho Hs. split_and!.
  - apply csky_find_next_bit_eq; done || lia.
  - apply csky_find_next_zero_bit_eq; done || lia.
  - apply csky_loop_eq; done || lia.
  - apply csky_zero_loop_eq; done || lia.
Qed.

End equivalence.

(** ** Witnesses *)

Section witnesses.

#[local] Existing Instance long32.

(** Functions that behave as [brev] and [ff1] are documented to. *)
Fixpoint rev_bits (n : nat) (x : Z) : Z :=
  match n with
  | O => 0
  | S n => (if Z.odd x then 2 ^ Z.of_nat n else 0) + rev_bits n (x / 2)
  end.

Definition clz32 (x : Z) : Z := if x =? 0 then 32 else 31 - Z.log2 x.

Lemma rev_bits_spec n x :
  0 <= rev_bits n x < 2 ^ Z.of_nat n /\
  forall i, 0 <= i < Z.of_nat n -> Z.testbit (rev_bits n x) i = Z.testbit x (Z.of_nat n - 1 - i).
Proof.
  revert x. induction n as [|n IH]; intros x; [split; [done|lia]|]. cbn [rev_bits]. destruct (IH (x / 2)) as [Hr Hb].
  set (r := rev_bits n (x / 2)) in *. rewrite Nat2Z.inj_succ, Z.pow_succ_r by lia.
  split; [destruct (Z.odd x); lia|]. intros i Hi.
  assert ((if Z.odd x then 2 ^ Z.of_nat n else 0) + r = r .| (Z.b2z (Z.odd x) .<< Z.of_nat n)) as ->.
  { rewrite lor_shiftl_add by lia. destruct (Z.odd x); cbn [Z.b2z]; lia. }
  rewrite Z.lor_spec, Z.shiftl_spec by lia. destruct (decide (i = Z.of_nat n)) as [->|].
  - rewrite (testbit_high r (Z.of_nat n)), Z.sub_diag by lia. rewrite <- Z.bit0_odd. replace (_ - 1 - _) with 0 by lia.
    by destruct (Z.testbit x 0).
  - rewrite Hb, (Z.testbit_neg_r _ (i - _)), orb_false_r by lia.
    replace (Z.succ (Z.of_nat n) - 1 - i) with (Z.succ (Z.of_nat n - 1 - i)) by lia.
    apply Z.div2_bits. lia.
Qed.

Let words : list Z := [4294967295; 2147483648; 5].

Lemma csky_words_ok : words_ok words.
Proof. repeat apply Forall_cons_2; [by vm_compute..|apply Forall_nil_2]. Qed.

Lemma csky_bit_ops_exact_witness :
  exists m', csky_test_and_set_bit 63 words = Some (1, m') /\ bit_becomes words 63 true m'.
Proof.
  destruct (csky_bit_ops_exact words 63) as [(m' & E & _ & _ & Hb) _]; [exact csky_words_ok|vm_compute; by split|].
  exists m'. split; [exact E|exact Hb].
Defined.

Lemma csky_searches_generic_witness :
  csky_find_next_bit (rev_bits 32) clz32 words 90 33 = find_next_bit words 90 33 /\ find_next_bit words 90 33 = Some 63.
Proof.
  split; [|by vm_compute].
  apply (csky_searches_generic (rev_bits 32) clz32); [| | |exact csky_words_ok|lia|lia].
  - intros x _. apply (rev_bits_spec 32).
  - intros x i _ Hi. by apply (rev_bits_spec 32).
  - intros x Hx. unfold clz32. rewrite (proj2 (Z.eqb_neq _ _)); [done|lia].
Defined.

(** The port's searches on these words, run. *)
Lemma csky_search_examples :
  csky_find_next_zero_bit (rev_bits 32) clz32 words 90 3 = Some 32 /\
  csky_find_first_zero_bit (rev_bits 32) clz32 words 20 = Some 20 /\
  csky_find_next_bit (rev_bits 32) clz32 words 96 65 = Some 66 /\ csky_ffs (rev_bits 32) clz32 (-2 ^ 31) = 32.
Proof. vm_compute. repeat split. Qed.

End witnesses.
