(* ===== verification/Genalloc.v ===== *)
(** * Pools of special memory (lib/genalloc.c, lib/iommu-helper.c)

    A pool is a list of chunks, each with a bitmap that has one bit per granule of
    [2^min_alloc_order] bytes.  An allocation walks the chunks under the pool's
    read lock and searches and marks each bitmap under the chunk's spin lock, so
    it is one step per chunk; adding a chunk takes the write lock.  [kmalloc]
    is an argument that says whether it succeeds.  A call that faults or stops at a
    [BUG_ON] has no result. *)

From Stdlib Require Import ZArith Lia.
From stdpp Require Import base numbers list option gmap relations.
From S2P Require Import Prelude Bitmap.

Local Open Scope Z_scope.

Section code.

Context `{LongWidth}.

Abbreviation B := BITS_PER_LONG.

Definition BITS_PER_BYTE : Z := 8.

(** [bits] has the whole words that lie inside of the chunk's memory. *)
Record gen_pool_chunk := { phys_addr : Z; start_addr : Z; end_addr : Z; bits : list Z }.

(** [readers] is the number of holders of the read side of [lock]. *)
Record gen_pool := { readers : nat; chunks : list gen_pool_chunk; min_alloc_order : Z }.

Definition gen_pool_create (mem : bool) (order : Z) : option gen_pool :=
  if mem then Some {| readers := 0; chunks := []; min_alloc_order := order |} else None.

Definition with_readers (pool : gen_pool) (r : nat) : gen_pool :=
  {| readers := r; chunks := chunks pool; min_alloc_order := min_alloc_order pool |}.

Definition with_chunks (pool : gen_pool) (cs : list gen_pool_chunk) : gen_pool :=
  {| readers := readers pool; chunks := cs; min_alloc_order := min_alloc_order pool |}.

(** The zeroed chunk of [nbytes] bytes. *)
Definition new_chunk (order virt phys size : Z) : gen_pool_chunk :=
  let nbits := s32 (size .>> order) in
  let bytes := (nbits + BITS_PER_BYTE - 1) ÷ BITS_PER_BYTE in
  {| phys_addr := phys; start_addr := virt; end_addr := ulong (virt + size);
     bits := replicate (Z.to_nat (bytes / (B / 8))) 0 |}.

(** [write_lock] waits while there are readers: no result. *)
Definition gen_pool_add_virt (mem : bool) (pool : gen_pool) (virt phys size : Z) : option (gen_pool * Z) :=
  if negb mem then Some (pool, - ENOMEM) else
  let chunk := new_chunk (min_alloc_order pool) virt phys size in
  if decide (readers pool = 0%nat) then Some (with_chunks pool (chunk :: chunks pool), 0) else None.

Definition gen_pool_add (mem : bool) (pool : gen_pool) (addr size : Z) : option (gen_pool * Z) :=
  gen_pool_add_virt mem pool addr (ulong (-1)) size.

(** [addr >= chunk->start_addr && addr < chunk->end_addr] *)
Definition in_chunk (addr : Z) (c : gen_pool_chunk) : bool := (start_addr c <=? addr) && (addr <? end_addr c).

Fixpoint find_chunk (addr : Z) (cs : list gen_pool_chunk) : option gen_pool_chunk :=
  match cs with
  | [] => None
  | c :: cs => if in_chunk addr c then Some c else find_chunk addr cs
  end.

(** The return inside of the loop leaves the read lock held. *)
Definition gen_pool_virt_to_phys (pool : gen_pool) (addr : Z) : gen_pool * Z :=
  let pool := with_readers pool (S (readers pool)) in
  match find_chunk addr (chunks pool) with
  | Some c => (pool, ulong (ulong (phys_addr c + addr) - start_addr c))
  | None => (with_readers pool (pred (readers pool)), ulong (-1))
  end.

(** [(chunk->end_addr - chunk->start_addr) >> order], an [int]. *)
Definition chunk_end_bit (order : Z) (c : gen_pool_chunk) : Z :=
  s32 (ulong (end_addr c - start_addr c) .>> order).

Fixpoint destroy_loop (order : Z) (cs : list gen_pool_chunk) : option unit :=
  match cs with
  | [] => Some tt
  | c :: cs =>
      let end_bit := chunk_end_bit order c in
      bit ← find_next_bit (bits c) (ulong end_bit) 0;
      if s32 bit <? end_bit then None else destroy_loop order cs
  end.

Definition gen_pool_destroy (pool : gen_pool) : option unit := destroy_loop (min_alloc_order pool) (chunks pool).

(** [(size + (1UL << order) - 1) >> order], an [int]. *)
Definition size_bits (order size : Z) : Z :=
  s32 (ulong (ulong (size + ulong (1 .<< order)) - 1) .>> order).

(** The section under the chunk's lock: the chunk changed and the address, or
    nothing when the chunk has no room. *)
Definition alloc_chunk (order nbits : Z) (c : gen_pool_chunk) : option (option (gen_pool_chunk * Z)) :=
  let end_bit := chunk_end_bit order c in
  found ← bitmap_find_next_zero_area (bits c) (ulong end_bit) 0 (u32 nbits) 0;
  let start_bit := s32 found in
  if end_bit <=? start_bit then Some None
  else
    let addr := ulong (start_addr c + ulong (ulong start_bit .<< order)) in
    bits' ← bitmap_set (bits c) start_bit nbits;
    Some (Some ({| phys_addr := phys_addr c; start_addr := start_addr c; end_addr := end_addr c; bits := bits' |}, addr)).

Fixpoint alloc_loop (order nbits : Z) (cs : list gen_pool_chunk) : option (list gen_pool_chunk * Z) :=
  match cs with
  | [] => Some ([], 0)
  | c :: cs =>
      r ← alloc_chunk order nbits c;
      match r with
      | Some (c', addr) => Some (c' :: cs, addr)
      | None => '(cs', addr) ← alloc_loop order nbits cs; Some (c :: cs', addr)
      end
  end.

Definition gen_pool_alloc (pool : gen_pool) (size : Z) : option (gen_pool * Z) :=
  if size =? 0 then Some (pool, 0) else
  '(cs, addr) ← alloc_loop (min_alloc_order pool) (size_bits (min_alloc_order pool) size) (chunks pool);
  Some (with_chunks pool cs, addr).

(** asm-generic/bitops/non-atomic.h *)
Definition __clear_bit (nr : Z) (addr : list Z) : option (list Z) :=
  update_word addr (Z.to_nat (nr / B)) (fun w => w .& not_ (1 .<< (nr mod B))).

(** [while (nbits--) __clear_bit(bit++, chunk->bits)] *)
Fixpoint clear_loop (nbits : nat) (bit : Z) (m : list Z) : option (list Z) :=
  match nbits with
  | O => Some m
  | S nbits => m ← __clear_bit bit m; clear_loop nbits (bit + 1) m
  end.

Definition free_chunk (order addr size : Z) (c : gen_pool_chunk) : option gen_pool_chunk :=
  if end_addr c <? ulong (addr + size) then None else
  let bit := s32 (ulong (addr - start_addr c) .>> order) in
  bits' ← clear_loop (Z.to_nat (size_bits order size)) bit (bits c);
  Some {| phys_addr := phys_addr c; start_addr := start_addr c; end_addr := end_addr c; bits := bits' |}.

(** The loop leaves [nbits] at -1 when it finds the chunk; without one, the
    last [BUG_ON] sees the full count. *)
Fixpoint free_loop (order addr size : Z) (cs : list gen_pool_chunk) : option (list gen_pool_chunk) :=
  match cs with
  | [] => if 0 <? size_bits order size then None else Some []
  | c :: cs =>
      if in_chunk addr c then c' ← free_chunk order addr size c; Some (c' :: cs)
      else cs' ← free_loop order addr size cs; Some (c :: cs')
  end.

Definition gen_pool_free (pool : gen_pool) (addr size : Z) : option gen_pool :=
  cs ← free_loop (min_alloc_order pool) addr size (chunks pool);
  Some (with_chunks pool cs).

(** ** The IOMMU area allocator *)

(** [BUG_ON(!is_power_of_2(boundary_size))]: no result. *)
Definition iommu_is_span_boundary (index nr shift boundary_size : Z) : option bool :=
  if negb (is_power_of_2 boundary_size) then None else
  let shift := ulong (shift + index) .& ulong (boundary_size - 1) in
  Some (boundary_size <? ulong (shift + nr)).

Fixpoint iommu_loop (fuel : nat) (map : list Z) (size start nr shift boundary_size align_mask : Z) : option (list Z * Z) :=
  match fuel with
  | O => None
  | S fuel =>
      index ← bitmap_find_next_zero_area map size start nr align_mask;
      if index <? size then
        span ← iommu_is_span_boundary (u32 index) nr shift boundary_size;
        if (span : bool) then iommu_loop fuel map size (ulong (index + 1)) nr shift boundary_size align_mask
        else map' ← bitmap_set map (s32 index) (s32 nr); Some (map', index)
      else Some (map, ulong (-1))
  end.

Definition iommu_area_alloc (map : list Z) (size start nr shift boundary_size align_mask : Z) : option (list Z * Z) :=
  let size := ulong (size - 1) in
  iommu_loop (S (Z.to_nat size)) map size start nr shift boundary_size align_mask.

End code.

(** ** One chunk *)

Section proofs.

Context `{LongWidth}.

Abbreviation B := BITS_PER_LONG.

Variable order : Z.
Hypothesis order_ok : 0 <= order < 31.

(** The bytes of a granule. *)
Definition granule : Z := 2 ^ order.

(** Requests and chunks are kept below this number of granules, where the [int]
    arithmetic of the code is exact. *)
Definition max_bits : Z := 2 ^ 30.

Definition chunk_bits (c : gen_pool_chunk) : Z := (end_addr c - start_addr c) / granule.

Record chunk_ok (c : gen_pool_chunk) : Prop := {
  ok_words : words_ok (bits c);
  ok_range : 0 < start_addr c <= end_addr c /\ end_addr c < 2 ^ B;
  ok_count : chunk_bits c < max_bits;
  ok_map : chunk_bits c <= zlen (bits c) * B }.

Lemma granule_pos : 0 < granule.
Proof. apply Z.pow_pos_nonneg; lia. Qed.

Lemma pow31_long : 2 ^ 31 < 2 ^ 32 /\ 2 ^ 32 <= 2 ^ B.
Proof. split; [lia|]. destruct B_cases as [->| ->]; lia. Qed.

Lemma chunk_end_bit_eq c : chunk_ok c -> chunk_end_bit order c = chunk_bits c /\ 0 <= chunk_bits c < max_bits.
Proof.
  intros [_ Hr Hc _]. pose proof granule_pos as Hg. assert (0 <= chunk_bits c) by (apply Z.div_pos; lia).
  unfold chunk_end_bit. rewrite ulong_id by (unfold word_ok; lia). rewrite Z.shiftr_div_pow2 by lia.
  change (s32 (chunk_bits c) = chunk_bits c /\ 0 <= chunk_bits c < max_bits).
  split; [|lia]. apply s32_small. unfold max_bits in Hc. lia.
Qed.

(** A granule of the chunk lies inside of it. *)
Lemma granule_in_chunk c i : chunk_ok c -> 0 <= i <= chunk_bits c ->
  start_addr c <= start_addr c + i * granule <= end_addr c.
Proof.
  intros _ Hi. pose proof granule_pos as Hg. unfold chunk_bits in Hi.
  pose proof (Z.mul_div_le (end_addr c - start_addr c) granule Hg). nia.
Qed.

(** [n] clear granules of the chunk from number [i] on. *)
Definition free_run (c : gen_pool_chunk) (n i : Z) : Prop :=
  0 <= i /\ i + n <= chunk_bits c /\ forall j, i <= j < i + n -> bit (bits c) j = false.

(** The chunk with the granules from [lo] up to [hi] marked or unmarked. *)
Definition chunk_range (v : bool) (c : gen_pool_chunk) (lo hi : Z) (c' : gen_pool_chunk) : Prop :=
  phys_addr c' = phys_addr c /\ start_addr c' = start_addr c /\ end_addr c' = end_addr c /\
  range_set v (bits c) lo hi (bits c').

Lemma chunk_range_ok v c lo hi c' : chunk_ok c -> chunk_range v c lo hi c' -> chunk_ok c' /\ chunk_bits c' = chunk_bits c.
Proof.
  intros [H1 H2 H3 H4] (E1 & E2 & E3 & Hw & Hl & _). unfold chunk_bits in *. split; [|by rewrite E2, E3].
  split; unfold chunk_bits; rewrite ?E2, ?E3, ?Hl; done.
Qed.

Lemma alloc_chunk_spec c n :
  chunk_ok c -> 0 < n < max_bits ->
  (alloc_chunk order n c = Some None /\ forall i, ~ free_run c n i) \/
  (exists i c', alloc_chunk order n c = Some (Some (c', start_addr c + i * granule)) /\ free_run c n i /\
     (forall j, 0 <= j < i -> ~ free_run c n j) /\ chunk_range true c i (i + n) c').
Proof.
  intros Hc Hn. destruct (chunk_end_bit_eq c Hc) as [E Hb]. pose proof pow31_long as [_ HB]. unfold max_bits in *.
  unfold alloc_chunk. rewrite E. rewrite ulong_small, u32_small by lia.
  destruct (zero_area_loop_spec (bits c) (chunk_bits c) n 0) with (fuel := S (Z.to_nat (chunk_bits c))) (start := 0)
    as (r & Hr & Hfit); [apply Hc|split; [lia|apply Hc]|lia|pose proof B_pos; lia|lia|lia|lia|].
  change (2 ^ 0 - 1) with 0 in Hr. unfold bitmap_find_next_zero_area. rewrite Hr. cbn [mbind option_bind].
  destruct Hfit as [(Hlt & H0 & (_ & Hend & Hclear) & Hfirst)|(Hlt & Hnone)].
  - right. rewrite s32_small, (proj2 (Z.leb_gt _ _)) by lia. exists r.
    destruct (bitmap_set_exact (bits c) r n) as (bits' & -> & Hset); [apply Hc|lia|lia|pose proof (ok_map c Hc); lia|].
    cbn [mbind option_bind]. pose proof (granule_in_chunk c r Hc ltac:(lia)) as Hg. pose proof (ok_range c Hc) as Hrange.
    assert (ulong (start_addr c + ulong (ulong r .<< order)) = start_addr c + r * granule) as ->.
    { rewrite (ulong_small r), Z.shiftl_mul_pow2 by lia. fold granule. pose proof granule_pos.
      rewrite (ulong_id (r * granule)) by (unfold word_ok; nia). apply ulong_id. unfold word_ok. lia. }
    eexists. split; [done|]. split; [by split_and!|]. split; [|by split_and!].
    intros j Hj (_ & Hje & Hjc). apply (Hfirst j); [lia|]. split; [apply Z.mod_1_r|done].
  - left. rewrite s32_small, (proj2 (Z.leb_le _ _)) by lia. split; [done|]. intros i (Hi & Hie & Hic).
    apply (Hnone i Hi). split; [apply Z.mod_1_r|done].
Qed.

(** The granules that [size] bytes take. *)
Definition granules (size : Z) : Z := (size + granule - 1) / granule.

Record request_ok (size : Z) : Prop := {
  req_pos : 0 < size;
  req_room : size + granule <= 2 ^ B;
  req_count : granules size < max_bits }.

Lemma size_bits_eq size : request_ok size -> size_bits order size = granules size /\ 0 < granules size < max_bits /\ size <= granules size * granule.
Proof.
  intros [Hp Hr Hc]. pose proof granule_pos as Hg. unfold granules in *.
  assert (0 < (size + granule - 1) / granule) as H0 by (apply Z.div_str_pos; lia).
  split; [|split; [lia|]].
  - unfold size_bits. rewrite Z.shiftl_1_l. fold granule.
    rewrite (ulong_id granule) by (unfold word_ok; lia).
    unfold ulong. rewrite uwrap_sub_l. fold (ulong (size + granule - 1)). rewrite ulong_id by (unfold word_ok; lia).
    rewrite Z.shiftr_div_pow2 by lia. apply s32_small. fold granule. unfold max_bits in Hc. lia.
  - pose proof (Z.mod_pos_bound (size + granule - 1) granule Hg). pose proof (Z.div_mod (size + granule - 1) granule). lia.
Qed.

Lemma clear_bit_range m nr :
  words_ok m -> 0 <= nr < zlen m * B -> exists m', __clear_bit nr m = Some m' /\ range_set false m nr (nr + 1) m'.
Proof.
  intros Hm Hn. pose proof B_pos as HB. pose proof (Z.mod_pos_bound nr B HB) as Hb.
  pose proof (Z.div_mod nr B (not_eq_sym (Z.lt_neq _ _ HB))) as Hdm. assert (0 <= nr / B) by (apply Z.div_pos; lia).
  assert (nr / B < zlen m) by (apply Z.div_lt_upper_bound; lia). unfold __clear_bit. rewrite Z.shiftl_1_l.
  apply (update_word_range (fun w mask => w .& not_ mask) false); [apply clear_op_bits|done| |lia|lia|lia|].
  - split; [apply Z.pow_nonneg; lia|apply Z.pow_lt_mono_r; lia].
  - intros i Hi. rewrite Z2Nat.id by done. rewrite Z.pow2_bits_eqb by lia. apply eq_true_iff_eq.
    rewrite andb_true_iff, Z.eqb_eq, Z.leb_le, Z.ltb_lt. lia.
Qed.

Lemma clear_loop_range n : forall m lo, words_ok m -> 0 <= lo -> lo + Z.of_nat n <= zlen m * B ->
  exists m', clear_loop n lo m = Some m' /\ range_set false m lo (lo + Z.of_nat n) m'.
Proof.
  induction n as [|n IH]; intros m lo Hm Hlo Hl; cbn [clear_loop].
  - exists m. split; [done|]. split; [done|]. split; [done|]. intros i Hi.
    destruct (Z.leb_spec lo i), (Z.ltb_spec i (lo + Z.of_nat 0)); cbn [andb]; done || lia.
  - destruct (clear_bit_range m lo) as (m1 & -> & Hm1); [done|lia|]. cbn [mbind option_bind].
    destruct (IH m1 (lo + 1)) as (m2 & -> & Hm2); [apply Hm1|lia|destruct Hm1 as (_ & -> & _); lia|].
    exists m2. split; [done|]. apply (range_set_trans false m lo (lo + 1) _ m1); [lia|done|].
    by replace (lo + Z.of_nat (S n)) with (lo + 1 + Z.of_nat n) by lia.
Qed.

Lemma free_chunk_spec c i size :
  chunk_ok c -> request_ok size -> 0 <= i -> i + granules size <= chunk_bits c ->
  exists c', free_chunk order (start_addr c + i * granule) size c = Some c' /\ chunk_range false c i (i + granules size) c'.
Proof.
  intros Hc Hs Hi He. destruct (size_bits_eq size Hs) as (Eb & Hn & Hsz). pose proof granule_pos as Hg.
  pose proof (granule_in_chunk c i Hc ltac:(lia)) as G1. pose proof (granule_in_chunk c (i + granules size) Hc ltac:(lia)) as G2.
  pose proof (ok_range c Hc) as Hr. pose proof (ok_count c Hc) as Hcnt. unfold max_bits in *. pose proof (req_pos size Hs).
  unfold free_chunk. rewrite (ulong_id (_ + size)) by (unfold word_ok; lia).
  rewrite (proj2 (Z.ltb_ge _ _)) by lia. rewrite Eb. replace (start_addr c + i * granule - start_addr c) with (i * granule) by lia.
  rewrite ulong_id by (unfold word_ok; lia). rewrite Z.shiftr_div_pow2 by lia. fold granule. rewrite Z.div_mul by lia.
  rewrite s32_small by lia. destruct (clear_loop_range (Z.to_nat (granules size)) (bits c) i) as (m' & -> & Hm');
    [apply Hc|done|pose proof (ok_map c Hc); lia|]. cbn [mbind option_bind]. eexists. split; [done|].
  rewrite Z2Nat.id in Hm' by lia. by split_and!.
Qed.

(** ** The list of chunks *)

(** Two chunks of a pool have no address in common. *)
Definition chunks_apart (cs : list gen_pool_chunk) : Prop :=
  forall j k c d, cs !! j = Some c -> cs !! k = Some d -> j <> k -> end_addr c <= start_addr d \/ end_addr d <= start_addr c.

(** An address of chunk [k] is found there. *)
Lemma find_in_chunk cs k c addr :
  chunks_apart cs -> cs !! k = Some c -> start_addr c <= addr < end_addr c ->
  in_chunk addr c = true /\ forall j d, cs !! j = Some d -> j <> k -> in_chunk addr d = false.
Proof.
  intros Ha Hk Hr. unfold in_chunk. split; [apply andb_true_intro; rewrite Z.leb_le, Z.ltb_lt; lia|].
  intros j d Hj Hne. apply andb_false_iff. rewrite Z.leb_gt, Z.ltb_ge.
  destruct (Ha j k d c Hj Hk Hne); lia.
Qed.

Lemma free_loop_at addr size cs k c c' :
  cs !! k = Some c -> in_chunk addr c = true -> (forall j d, cs !! j = Some d -> j <> k -> in_chunk addr d = false) ->
  free_chunk order addr size c = Some c' -> free_loop order addr size cs = Some (<[k := c']> cs).
Proof.
  intros Hk Hin Hout Hf. revert k Hk Hout. induction cs as [|d cs IH]; intros k Hk Hout; [done|]. cbn [free_loop].
  destruct k as [|k].
  - injection Hk as ->. rewrite Hin, Hf. done.
  - rewrite (Hout 0%nat d) by done. rewrite (IH k); [done|done|]. intros j e Hj Hne. apply (Hout (S j) e); [done|lia].
Qed.

Lemma find_chunk_at addr cs k c :
  cs !! k = Some c -> in_chunk addr c = true -> (forall j d, cs !! j = Some d -> j <> k -> in_chunk addr d = false) ->
  find_chunk addr cs = Some c.
Proof.
  intros Hk Hin Hout. revert k Hk Hout. induction cs as [|d cs IH]; intros k Hk Hout; [done|]. cbn [find_chunk].
  destruct k as [|k]; [injection Hk as ->; by rewrite Hin|].
  rewrite (Hout 0%nat d) by done. apply (IH k); [done|]. intros j e Hj Hne. apply (Hout (S j) e); [done|lia].
Qed.

Lemma chunks_apart_insert v cs k c lo hi c' :
  chunks_apart cs -> cs !! k = Some c -> chunk_range v c lo hi c' -> chunks_apart (<[k := c']> cs).
Proof.
  intros Ha Hk (_ & Es & Ee & _) j l d e Hj Hl Hne.
  apply list_lookup_insert_Some in Hj as [(-> & <- & _)|[? Hj]], Hl as [(-> & <- & _)|[? Hl]]; try done;
    rewrite ?Es, ?Ee; eapply Ha; done || congruence.
Qed.

(** ** Interleaved calls *)

(** [gp_calls] has, for each thread inside of [gen_pool_alloc], the size it asks
    for and the number of the chunk it looks at next; [gp_held] lists address
    and size of the allocations that were returned and not freed, one entry for
    each call that returned. *)
Record gp_state := { gp_pool : gen_pool; gp_calls : gmap nat (Z * nat); gp_held : list (Z * Z) }.

(** The caller's side of [gen_pool_add_virt]: memory that no other chunk has, in
    whole bitmap words. *)
Record new_chunk_ok (pool : gen_pool) (virt size : Z) : Prop := {
  new_range : 0 < virt /\ 0 <= size /\ virt + size < 2 ^ B;
  new_count : size / granule < max_bits;
  new_whole : (size / granule) mod B = 0;
  new_apart : forall c, c ∈ chunks pool -> end_addr c <= virt \/ virt + size <= start_addr c }.

Inductive gp_step : gp_state -> gp_state -> Prop :=
  | step_begin pool calls held t size :
      calls !! t = None -> request_ok size ->
      gp_step {| gp_pool := pool; gp_calls := calls; gp_held := held |}
              {| gp_pool := with_readers pool (S (readers pool)); gp_calls := <[t := (size, 0%nat)]> calls; gp_held := held |}
  | step_take pool calls held t size k c c' addr :
      calls !! t = Some (size, k) -> chunks pool !! k = Some c ->
      alloc_chunk (min_alloc_order pool) (size_bits (min_alloc_order pool) size) c = Some (Some (c', addr)) ->
      gp_step {| gp_pool := pool; gp_calls := calls; gp_held := held |}
              {| gp_pool := with_readers (with_chunks pool (<[k := c']> (chunks pool))) (pred (readers pool));
                 gp_calls := delete t calls; gp_held := (addr, size) :: held |}
  | step_skip pool calls held t size k c :
      calls !! t = Some (size, k) -> chunks pool !! k = Some c ->
      alloc_chunk (min_alloc_order pool) (size_bits (min_alloc_order pool) size) c = Some None ->
      gp_step {| gp_pool := pool; gp_calls := calls; gp_held := held |}
              {| gp_pool := pool; gp_calls := <[t := (size, S k)]> calls; gp_held := held |}
  | step_fail pool calls held t size k :
      calls !! t = Some (size, k) -> chunks pool !! k = None ->
      gp_step {| gp_pool := pool; gp_calls := calls; gp_held := held |}
              {| gp_pool := with_readers pool (pred (readers pool)); gp_calls := delete t calls; gp_held := held |}
  | step_free pool pool' calls held i addr size :
      held !! i = Some (addr, size) -> gen_pool_free pool addr size = Some pool' ->
      gp_step {| gp_pool := pool; gp_calls := calls; gp_held := held |}
              {| gp_pool := pool'; gp_calls := calls; gp_held := delete i held |}
  | step_add pool pool' calls held virt phys size :
      new_chunk_ok pool virt size -> gen_pool_add_virt true pool virt phys size = Some (pool', 0) ->
      gp_step {| gp_pool := pool; gp_calls := calls; gp_held := held |}
              {| gp_pool := pool'; gp_calls := calls; gp_held := held |}
  | step_phys pool calls held addr :
      gp_step {| gp_pool := pool; gp_calls := calls; gp_held := held |}
              {| gp_pool := (gen_pool_virt_to_phys pool addr).1; gp_calls := calls; gp_held := held |}.

(** [addr] is in the granules of the allocation of [size] bytes at [a]. *)
Definition covers (a size addr : Z) : Prop := a <= addr < a + granules size * granule.

(** The allocation lies in chunk [c], from granule [i] on. *)
Definition lies_in (c : gen_pool_chunk) (a size i : Z) : Prop :=
  a = start_addr c + i * granule /\ 0 <= i /\ i + granules size <= chunk_bits c.

(** The allocations in [held] are in chunks, apart, and are what is marked. *)
Record held_inv (cs : list gen_pool_chunk) (held : gmap Z Z) : Prop := {
  hi_chunks : Forall chunk_ok cs;
  hi_apart : chunks_apart cs;
  hi_marked : forall k c i, cs !! k = Some c -> 0 <= i < chunk_bits c ->
    (bit (bits c) i = true <-> exists a size, held !! a = Some size /\ covers a size (start_addr c + i * granule));
  hi_held : forall a size, held !! a = Some size ->
    request_ok size /\ exists k c i, cs !! k = Some c /\ lies_in c a size i;
  hi_disjoint : forall a size b size', held !! a = Some size -> held !! b = Some size' -> a <> b ->
    a + granules size * granule <= b \/ b + granules size' * granule <= a }.

Lemma covers_here c a size i j : lies_in c a size i -> covers a size (start_addr c + j * granule) <-> i <= j < i + granules size.
Proof. intros (-> & Hi & He). pose proof granule_pos as Hg. unfold covers. split; intros; nia. Qed.

Lemma lies_in_range c a size i : chunk_ok c -> request_ok size -> lies_in c a size i ->
  start_addr c <= a /\ a < a + granules size * granule <= end_addr c.
Proof.
  intros Hc Hs (-> & Hi & He). destruct (size_bits_eq size Hs) as (_ & Hn & _). pose proof granule_pos as Hg.
  pose proof (granule_in_chunk c i Hc ltac:(lia)). pose proof (granule_in_chunk c (i + granules size) Hc ltac:(lia)). nia.
Qed.

(** An allocation in one chunk covers nothing of another. *)
Lemma covers_apart c d a size i j :
  chunk_ok c -> chunk_ok d -> request_ok size -> lies_in c a size i -> 0 <= j < chunk_bits d ->
  end_addr c <= start_addr d \/ end_addr d <= start_addr c -> ~ covers a size (start_addr d + j * granule).
Proof.
  intros Hc Hd Hs Hl Hj Ha Hcov. pose proof (lies_in_range c a size i Hc Hs Hl) as Hr. pose proof granule_pos as Hg.
  pose proof (granule_in_chunk d (j + 1) Hd ltac:(lia)). unfold covers in Hcov. nia.
Qed.

(** Changing the marks of a chunk moves no allocation. *)
Lemma lies_in_insert v (cs : list gen_pool_chunk) k c c' lo hi a size :
  chunk_ok c -> cs !! k = Some c -> chunk_range v c lo hi c' ->
  (exists l d i, cs !! l = Some d /\ lies_in d a size i) -> exists l d i, <[k := c']> cs !! l = Some d /\ lies_in d a size i.
Proof.
  intros Hc Hk Hr (l & d & i & Hl & Hlies). destruct (chunk_range_ok _ _ _ _ _ Hc Hr) as [_ Hb].
  destruct (decide (l = k)) as [->|]; [|exists l, d, i; by rewrite list_lookup_insert_ne].
  exists k, c', i. rewrite list_lookup_insert_eq by (by eapply lookup_lt_Some). split; [done|].
  assert (d = c) as -> by congruence. destruct Hr as (_ & Es & _). unfold lies_in in *. by rewrite Es, Hb.
Qed.

(** No allocation covers a clear granule. *)
Lemma free_not_covered cs held k c n i a size j :
  held_inv cs held -> cs !! k = Some c -> free_run c n i -> held !! a = Some size -> i <= j < i + n ->
  ~ covers a size (start_addr c + j * granule).
Proof.
  intros HI Hk (Hi & He & Hfree) Ha Hj Hcov.
  assert (bit (bits c) j = true) as Hset by (apply (hi_marked _ _ HI k c j); [done|lia|by exists a, size]).
  rewrite Hfree in Hset by done. done.
Qed.

(** So a new allocation there is apart from the others. *)
Lemma free_run_apart cs held k c size i b size' :
  held_inv cs held -> cs !! k = Some c -> request_ok size -> free_run c (granules size) i -> held !! b = Some size' ->
  start_addr c + i * granule + granules size * granule <= b \/ b + granules size' * granule <= start_addr c + i * granule.
Proof.
  intros HI Hk Hs Hfree Hb. destruct (hi_held _ _ HI b size' Hb) as (Hs' & l & d & p & Hl & Hlies). pose proof granule_pos as Hg.
  assert (forall q e, cs !! q = Some e -> chunk_ok e) as Hok by (intros q e; apply Forall_lookup_1, HI).
  destruct (decide (l = k)) as [->|Hne].
  - assert (d = c) as -> by congruence. destruct (size_bits_eq size Hs) as (_ & Hn & _), (size_bits_eq size' Hs') as (_ & Hn' & _).
    pose proof (free_not_covered cs held k c _ i b size' (Z.max i p) HI Hk Hfree Hb) as Hno.
    rewrite (covers_here c b size' p) in Hno by done. destruct Hlies as (-> & Hp & He').
    destruct (decide (i + granules size <= p)); [left; nia|]. destruct (decide (p + granules size' <= i)); [right; nia|].
    exfalso. apply Hno; lia.
  - pose proof (lies_in_range d b size' p (Hok _ _ Hl) Hs' Hlies) as Hr'.
    assert (lies_in c (start_addr c + i * granule) size i) as Hlies0 by (split; [done|split; apply Hfree]).
    pose proof (lies_in_range c _ size i (Hok _ _ Hk) Hs Hlies0) as Hr.
    destruct (hi_apart _ _ HI l k d c Hl Hk Hne); [right|left]; lia.
Qed.

(** In particular nothing is held at its address. *)
Lemma free_run_new cs held k c size i :
  held_inv cs held -> cs !! k = Some c -> request_ok size -> free_run c (granules size) i -> held !! (start_addr c + i * granule) = None.
Proof.
  intros HI Hk Hs Hfree. destruct (held !! _) as [s|] eqn:E; [|done]. exfalso.
  pose proof (free_run_apart _ _ _ _ _ _ _ _ HI Hk Hs Hfree E) as Hap.
  destruct (hi_held _ _ HI _ s E) as [Hs' _]. destruct (size_bits_eq s Hs') as (_ & Hn' & _).
  destruct (size_bits_eq size Hs) as (_ & Hn & _). pose proof granule_pos. nia.
Qed.

(** The marks of the chunk, after a run of it was marked for a new allocation. *)
Lemma marked_take cs held k c c' size i j :
  held_inv cs held -> cs !! k = Some c -> free_run c (granules size) i -> chunk_range true c i (i + granules size) c' ->
  held !! (start_addr c + i * granule) = None -> 0 <= j < chunk_bits c ->
  (bit (bits c') j = true <->
   exists a s, <[start_addr c + i * granule := size]> held !! a = Some s /\ covers a s (start_addr c + j * granule)).
Proof.
  intros HI Hk Hfree (_ & _ & _ & _ & _ & Hbits) Hnew Hj. set (addr := start_addr c + i * granule) in *. rewrite Hbits by lia.
  assert (lies_in c addr size i) as Hlies by (split; [done|split; apply Hfree]).
  pose proof (covers_here c addr size i j Hlies) as Hcov. split.
  - destruct ((i <=? j) && (j <? i + granules size)) eqn:Ej; intros Hset.
    { exists addr, size. rewrite lookup_insert_eq. split; [done|]. apply Hcov. lia. }
    apply (hi_marked _ _ HI k c j) in Hset as (a & s & Ha & Hcov'); [|done|done]. exists a, s.
    rewrite lookup_insert_ne by congruence. done.
  - intros (a & s & Ha & Hcov'). apply lookup_insert_Some in Ha as [(<- & <-)|[Hne Ha]].
    { apply Hcov in Hcov'. rewrite (proj2 (Z.leb_le _ _)), (proj2 (Z.ltb_lt _ _)) by lia. done. }
    assert (bit (bits c) j = true) as -> by (apply (hi_marked _ _ HI k c j); [done|done|by exists a, s]). by destruct (_ && _).
Qed.

(** Marking a free run makes a new allocation. *)
Lemma held_inv_take cs held k c c' size i :
  held_inv cs held -> cs !! k = Some c -> request_ok size -> free_run c (granules size) i ->
  chunk_range true c i (i + granules size) c' ->
  held_inv (<[k := c']> cs) (<[start_addr c + i * granule := size]> held).
Proof.
  intros HI Hk Hs Hfree Hrange. set (addr := start_addr c + i * granule).
  assert (forall q e, cs !! q = Some e -> chunk_ok e) as Hok by (intros q e; apply Forall_lookup_1, HI).
  assert (lies_in c addr size i) as Hlies by (split; [done|split; apply Hfree]).
  destruct (chunk_range_ok _ _ _ _ _ (Hok _ _ Hk) Hrange) as [Hc' Hb'].
  assert (held !! addr = None) as Hnew by (by eapply free_run_new).
  split.
  - apply Forall_insert; [apply HI|done].
  - by eapply chunks_apart_insert; [apply HI|..].
  - intros l d j Hl Hj. apply list_lookup_insert_Some in Hl as [(<- & <- & _)|[Hne Hl]].
    + rewrite Hb' in Hj. destruct (Hrange) as (_ & -> & _). by eapply marked_take.
    + rewrite (hi_marked _ _ HI l d j) by done. split; intros (a & s & Ha & Hcov).
      * exists a, s. rewrite lookup_insert_ne by congruence. done.
      * apply lookup_insert_Some in Ha as [(<- & <-)|[_ Ha]]; [|by exists a, s]. exfalso.
        eapply (covers_apart c d addr size i j); eauto. by eapply (hi_apart _ _ HI k l c d).
  - intros a s Ha. apply lookup_insert_Some in Ha as [(<- & <-)|[Hne Ha]].
    + split; [done|]. apply (lies_in_insert true cs k c c' i (i + granules size)); [by apply (Hok _ _ Hk)|done|done|by exists k, c, i].
    + destruct (hi_held _ _ HI a s Ha) as [Hs' Hin]. split; [done|]. by eapply lies_in_insert; [apply (Hok _ _ Hk)|..].
  - intros a s b s' Ha Hb Hne. apply lookup_insert_Some in Ha as [(<- & <-)|[_ Ha]], Hb as [(<- & <-)|[_ Hb]]; [done| | |].
    + by eapply free_run_apart.
    + destruct (free_run_apart _ _ _ _ _ _ _ _ HI Hk Hs Hfree Ha); [right|left]; done.
    + by eapply (hi_disjoint _ _ HI).
Qed.

(** Unmarking an allocation takes it away and leaves the others. *)
Lemma held_inv_free cs held k c c' addr size i :
  held_inv cs held -> cs !! k = Some c -> held !! addr = Some size -> lies_in c addr size i ->
  chunk_range false c i (i + granules size) c' -> held_inv (<[k := c']> cs) (delete addr held).
Proof.
  intros HI Hk Hin Hlies Hrange. assert (forall q e, cs !! q = Some e -> chunk_ok e) as Hok by (intros q e; apply Forall_lookup_1, HI).
  destruct (chunk_range_ok _ _ _ _ _ (Hok _ _ Hk) Hrange) as [Hc' Hb']. destruct (hi_held _ _ HI addr size Hin) as [Hs _].
  split.
  - apply Forall_insert; [apply HI|done].
  - by eapply chunks_apart_insert; [apply HI|..].
  - intros l d j Hl Hj. apply list_lookup_insert_Some in Hl as [(<- & <- & _)|[Hne Hl]].
    + rewrite Hb' in Hj. destruct Hrange as (_ & -> & _ & _ & _ & ->); [|lia]. pose proof (covers_here c addr size i j Hlies) as Hcov.
      destruct ((i <=? j) && (j <? i + granules size)) eqn:Ej.
      * split; [done|]. intros (a & s & (Hne & Ha)%lookup_delete_Some & Hcov'). assert (covers addr size (start_addr c + j * granule)) as Hc0 by (apply Hcov; lia).
        unfold covers in *. destruct (hi_disjoint _ _ HI addr size a s Hin Ha Hne); lia.
      * rewrite (hi_marked _ _ HI k c j) by done. split; intros (a & s & Ha & Hcov'); [|apply lookup_delete_Some in Ha as [_ Ha]; by exists a, s].
        exists a, s. split; [|done]. apply lookup_delete_Some. split; [|done]. intros <-. assert (s = size) as -> by congruence.
        apply Hcov in Hcov'. lia.
    + rewrite (hi_marked _ _ HI l d j) by done. split; intros (a & s & Ha & Hcov); [|apply lookup_delete_Some in Ha as [_ Ha]; by exists a, s].
      exists a, s. split; [|done]. apply lookup_delete_Some. split; [|done]. intros <-. assert (s = size) as -> by congruence.
      eapply (covers_apart c d addr size i j); eauto. by eapply (hi_apart _ _ HI k l c d).
  - intros a s [_ Ha]%lookup_delete_Some. destruct (hi_held _ _ HI a s Ha) as [Hs' Hin']. split; [done|].
    by eapply lies_in_insert; [apply (Hok _ _ Hk)|..].
  - intros a s b s' [_ Ha]%lookup_delete_Some [_ Hb]%lookup_delete_Some. by apply (hi_disjoint _ _ HI).
Qed.

Lemma free_held cs held addr size :
  held_inv cs held -> held !! addr = Some size ->
  exists cs', free_loop order addr size cs = Some cs' /\ held_inv cs' (delete addr held).
Proof.
  intros HI Hin. destruct (hi_held _ _ HI addr size Hin) as (Hs & k & c & i & Hk & Hlies).
  assert (chunk_ok c) as Hc by (eapply Forall_lookup_1; [apply HI|done]).
  pose proof (lies_in_range c addr size i Hc Hs Hlies) as Hr.
  destruct (find_in_chunk cs k c addr) as [F1 F2]; [apply HI|done|lia|].
  destruct (free_chunk_spec c i size Hc Hs) as (c' & Hf & Hrange); [apply Hlies|apply Hlies|].
  destruct Hlies as (-> & Hlies). exists (<[k := c']> cs). split; [by eapply free_loop_at|].
  eapply held_inv_free; [done|done|done| |done]. by split.
Qed.

(** A new chunk of whole words is all clear. *)
Lemma new_chunk_spec virt phys size :
  0 < virt /\ 0 <= size /\ virt + size < 2 ^ B -> size / granule < max_bits -> (size / granule) mod B = 0 ->
  let c := new_chunk order virt phys size in
  chunk_ok c /\ end_addr c = virt + size /\ chunk_bits c = size / granule /\ forall i, bit (bits c) i = false.
Proof.
  intros Hr Hc Hw. pose proof granule_pos as Hg. cbv zeta. assert (0 <= size / granule) as H0 by (apply Z.div_pos; lia).
  assert (end_addr (new_chunk order virt phys size) = virt + size) as Ee by (cbn; rewrite ulong_id by (unfold word_ok; lia); done).
  unfold new_chunk in *. rewrite Z.shiftr_div_pow2 in * by lia. fold granule in *. unfold max_bits in *. rewrite s32_small in * by lia.
  assert ((size / granule + BITS_PER_BYTE - 1) ÷ BITS_PER_BYTE / (B / 8) = size / granule / B) as E.
  { unfold BITS_PER_BYTE. rewrite Z.quot_div_nonneg by lia. set (n := size / granule) in *.
    destruct B_cases as [EB|EB]; rewrite EB in *; change (32 / 8) with 4; change (64 / 8) with 8; Z.to_euclidean_division_equations; lia. }
  rewrite E in *. split_and!; [|done| |].
  - split; rewrite ?Ee; unfold chunk_bits; rewrite ?Ee; cbn [start_addr bits]; rewrite ?Z.add_simpl_l.
    + apply Forall_replicate. split; [done|]. pose proof (Z.pow_pos_nonneg 2 B). pose proof B_pos. lia.
    + lia.
    + done.
    + rewrite length_replicate, Z2Nat.id by (apply Z.div_pos; [lia|apply B_pos]).
      pose proof (Z.div_mod (size / granule) B). pose proof B_pos. lia.
  - unfold chunk_bits. rewrite Ee. cbn [start_addr]. f_equal. lia.
  - intros i. unfold bit. cbn [bits]. destruct (replicate _ 0 !! _) as [w|] eqn:Ew; [|apply Z.bits_0].
    apply lookup_replicate in Ew as [-> _]. apply Z.bits_0.
Qed.

Lemma held_inv_add cs held c :
  held_inv cs held -> chunk_ok c -> (forall i, bit (bits c) i = false) ->
  (forall d, d ∈ cs -> end_addr d <= start_addr c \/ end_addr c <= start_addr d) -> held_inv (c :: cs) held.
Proof.
  intros HI Hc Hclear Hap. assert (forall q e, cs !! q = Some e -> chunk_ok e) as Hok by (intros q e; apply Forall_lookup_1, HI).
  split.
  - constructor; [done|apply HI].
  - intros [|j] [|k] d e Hd He Hne; cbn in Hd, He; simplify_eq; [| |eapply (hi_apart _ _ HI j k); [done|done|congruence]].
    + destruct (Hap e); [by eapply list_elem_of_lookup_2|right|left]; done.
    + apply Hap. by eapply list_elem_of_lookup_2.
  - intros [|k] d i Hd Hi; cbn in Hd; [|by apply (hi_marked _ _ HI k)]. injection Hd as <-. rewrite Hclear. split; [done|].
    intros (a & s & Ha & Hcov). destruct (hi_held _ _ HI a s Ha) as (Hs & l & e & p & Hl & Hlies). exfalso.
    apply (covers_apart e c a s p i); eauto. apply Hap. by eapply list_elem_of_lookup_2.
  - intros a s Ha. destruct (hi_held _ _ HI a s Ha) as (Hs & l & e & p & Hl & Hlies). split; [done|]. by exists (S l), e, p.
  - apply HI.
Qed.

(** The allocations by their address; no address is held twice. *)
Definition by_addr (held : list (Z * Z)) : gmap Z Z := list_to_map held.

Lemma by_addr_delete held i addr size : NoDup held.*1 -> held !! i = Some (addr, size) ->
  NoDup (delete i held).*1 /\ by_addr (delete i held) = delete addr (by_addr held) /\ by_addr held !! addr = Some size.
Proof.
  intros Hnd Hi. pose proof (delete_Permutation held i (addr, size) Hi) as Hp. pose proof Hnd as Hnd'. rewrite Hp in Hnd'. cbn in Hnd'.
  apply NoDup_cons in Hnd' as [Hnew Hnd']. split; [done|].
  assert (by_addr held = <[addr := size]> (by_addr (delete i held))) as -> by (unfold by_addr; by rewrite (list_to_map_proper _ _ Hnd Hp)).
  rewrite lookup_insert_eq, delete_insert_id; [done|]. by apply not_elem_of_list_to_map_1.
Qed.

Lemma held_addr_ne (held : list (Z * Z)) i j a size b size' :
  NoDup held.*1 -> held !! i = Some (a, size) -> held !! j = Some (b, size') -> i <> j -> a <> b.
Proof.
  intros Hnd Hi Hj Hne ->. apply Hne. eapply (NoDup_lookup _ _ _ b Hnd); by rewrite list_lookup_fmap, ?Hi, ?Hj.
Qed.

(** The invariant of the interleaved system. *)
Record gp_inv (s : gp_state) : Prop := {
  inv_order : min_alloc_order (gp_pool s) = order;
  inv_once : NoDup (gp_held s).*1;
  inv_held : held_inv (chunks (gp_pool s)) (by_addr (gp_held s));
  inv_calls : forall t size k, gp_calls s !! t = Some (size, k) -> request_ok size }.

Lemma gp_step_inv s s' : gp_step s s' -> gp_inv s -> gp_inv s'.
Proof.
  intros Hstep HI. pose proof (inv_order s HI) as Ho. pose proof (inv_held s HI) as Hh. pose proof (inv_calls s HI) as Hq. pose proof (inv_once s HI) as Hnd.
  destruct Hstep as [pool calls held t size Ht Hs|pool calls held t size k c c' addr Ht Hk Hal|pool calls held t size k c Ht Hk Hal
    |pool calls held t size k Ht Hk|pool pool' calls held n addr size Hin Hf|pool pool' calls held virt phys size Hn Hadd|pool calls held addr];
    cbn [gp_pool gp_calls gp_held] in *.
  - split; cbn [gp_calls]; [done|done|done|]. intros u s k [[<- [= <- <-]]|[_ Hu]]%lookup_insert_Some; [done|by eapply Hq].
  - pose proof (Hq _ _ _ Ht) as Hs. rewrite Ho in Hal. assert (chunk_ok c) as Hc by (eapply Forall_lookup_1; [apply Hh|done]).
    destruct (size_bits_eq size Hs) as (Eb & Hb & _). rewrite Eb in Hal.
    destruct (alloc_chunk_spec c (granules size) Hc Hb) as [[E _]|(i & c0 & E & Hrun & _ & Hrange)]; rewrite E in Hal; [done|].
    injection Hal as -> <-. split; cbn [gp_calls gp_held]; [done| |by eapply held_inv_take|].
    + cbn. apply NoDup_cons. split; [|done]. apply not_elem_of_list_to_map_2. by eapply free_run_new.
    + intros u s l [_ Hu]%lookup_delete_Some. by eapply Hq.
  - split; cbn [gp_calls]; [done|done|done|]. intros u s l [[<- [= <- <-]]|[_ Hu]]%lookup_insert_Some; by eapply Hq.
  - split; cbn [gp_calls]; [done|done|done|]. intros u s l [_ Hu]%lookup_delete_Some. by eapply Hq.
  - destruct (by_addr_delete held n addr size Hnd Hin) as (Hnd' & Hd & Ha). destruct (free_held _ _ _ _ Hh Ha) as (cs' & E & Hh').
    unfold gen_pool_free in Hf. rewrite Ho, E in Hf. injection Hf as <-. split; cbn [gp_held]; [done|done|by rewrite Hd|done].
  - unfold gen_pool_add_virt in Hadd. cbn [negb] in Hadd. destruct (decide _); [|done]. injection Hadd as <-. rewrite Ho.
    destruct Hn as [Hr Hcnt Hw Hap]. destruct (new_chunk_spec virt phys size) as (Hc & Ee & _ & Hclear); [done|done|done|].
    split; [done|done| |done]. apply held_inv_add; [done|done|done|]. intros d Hd. rewrite Ee. apply Hap, Hd.
  - unfold gen_pool_virt_to_phys. destruct (find_chunk _ _); by split.
Qed.

Definition gp_start (s : gp_state) : Prop :=
  min_alloc_order (gp_pool s) = order /\ chunks (gp_pool s) = [] /\ gp_calls s = ∅ /\ gp_held s = [].

Lemma gp_reachable_inv s s' : gp_start s -> rtc gp_step s s' -> gp_inv s'.
Proof.
  intros (Ho & Hc & Hq & Hh) Hsteps. assert (gp_inv s) as HI.
  { split; [done|rewrite Hh; apply NoDup_nil_2| |intros t size k; by rewrite Hq, lookup_empty]. rewrite Hc, Hh. change (by_addr []) with (∅ : gmap Z Z).
    split; [apply Forall_nil_2|intros j k c d; by rewrite lookup_nil|intros k c i; by rewrite lookup_nil|intros a z; by rewrite lookup_empty
      |intros a z b z'; by rewrite lookup_empty]. }
  clear Ho Hc Hq Hh. induction Hsteps as [|x y z Hxy _ IH]; [done|]. apply IH. by eapply gp_step_inv.
Qed.

(** ** One call *)

Lemma alloc_loop_spec cs n :
  Forall chunk_ok cs -> 0 < n < max_bits ->
  (alloc_loop order n cs = Some (cs, 0) /\ forall c i, c ∈ cs -> ~ free_run c n i) \/
  (exists k c i c', cs !! k = Some c /\ alloc_loop order n cs = Some (<[k := c']> cs, start_addr c + i * granule) /\
     free_run c n i /\ chunk_range true c i (i + n) c' /\ (forall p, 0 <= p < i -> ~ free_run c n p) /\
     forall j d p, cs !! j = Some d -> (j < k)%nat -> ~ free_run d n p).
Proof.
  intros Hcs Hn. induction Hcs as [|c cs Hc Hcs IH]; cbn [alloc_loop].
  { left. split; [done|]. intros c i Hc. by apply not_elem_of_nil in Hc. }
  destruct (alloc_chunk_spec c n Hc Hn) as [[-> Hnone]|(i & c' & -> & Hrun & Hfirst & Hrange)]; cbn [mbind option_bind].
  - destruct IH as [[-> Hnone']|(k & d & i & d' & Hk & -> & Hrun & Hrange & Hfirst & Hbefore)]; cbn [mbind option_bind].
    + left. split; [done|]. intros e i [->|He]%elem_of_cons; [apply Hnone|by apply Hnone'].
    + right. exists (S k), d, i, d'. split_and!; [done|done|done|done|done|]. intros [|j] e p Hj Hlt; cbn in Hj; [|apply (Hbefore j); [done|lia]].
      injection Hj as <-. apply Hnone.
  - right. exists 0%nat, c, i, c'. split_and!; [done|done|done|done|done|]. intros j d p Hj Hlt. lia.
Qed.

(** Marking and unmarking the same clear run. *)
Lemma chunk_range_undo c n i c1 c2 :
  chunk_ok c -> free_run c n i -> chunk_range true c i (i + n) c1 -> chunk_range false c1 i (i + n) c2 -> c2 = c.
Proof.
  intros Hc (Hi & He & Hfree) (P1 & S1 & E1 & W1 & L1 & B1) (P2 & S2 & E2 & W2 & L2 & B2).
  assert (bits c2 = bits c) as Eb.
  { apply bits_ext; [done|apply Hc|congruence|]. intros j Hj. rewrite B2, B1 by done.
    destruct ((i <=? j) && (j <? i + n)) eqn:E; [|done]. symmetry. apply Hfree. lia. }
  destruct c, c2; cbn in *. congruence.
Qed.

(** [gen_pool_alloc] is a complete first fit, and [gen_pool_free] undoes it.
    For chunks apart from each other the call returns.  Either it returns 0,
    changes nothing, and no chunk has enough clear granules in a row; or it
    returns an address in a chunk such that [size] bytes from it lie in that chunk,
    and freeing them gives back the pool as it was before. *)
Theorem gen_pool_alloc_free_roundtrip pool size :
  min_alloc_order pool = order -> Forall chunk_ok (chunks pool) -> chunks_apart (chunks pool) -> request_ok size ->
  (gen_pool_alloc pool size = Some (pool, 0) /\ forall c i, c ∈ chunks pool -> ~ free_run c (granules size) i) \/
  (exists pool' addr c, gen_pool_alloc pool size = Some (pool', addr) /\ c ∈ chunks pool /\
     start_addr c <= addr /\ addr + size <= end_addr c /\ gen_pool_free pool' addr size = Some pool).
Proof.
  intros Ho Hcs Hap Hs. destruct (size_bits_eq size Hs) as (Eb & Hn & Hsz). pose proof (req_pos size Hs) as Hpos.
  unfold gen_pool_alloc, gen_pool_free. rewrite (proj2 (Z.eqb_neq _ _)), Ho, Eb by lia.
  destruct (alloc_loop_spec (chunks pool) (granules size) Hcs Hn) as [[-> Hnone]|(k & c & i & c' & Hk & -> & Hrun & Hrange & _)];
    cbn [mbind option_bind]; [left|right].
  { split; [|done]. destruct pool; done. }
  assert (chunk_ok c) as Hc by (by eapply Forall_lookup_1). set (addr := start_addr c + i * granule).
  assert (lies_in c addr size i) as Hlies by (split; [done|split; apply Hrun]).
  pose proof (lies_in_range c addr size i Hc Hs Hlies) as Hr. eexists _, addr, c. split; [done|].
  split; [by eapply list_elem_of_lookup_2|]. split; [lia|]. split; [lia|].
  cbn [chunks min_alloc_order with_chunks]. rewrite Ho. destruct (chunk_range_ok _ _ _ _ _ Hc Hrange) as [Hc' Hb'].
  destruct (free_chunk_spec c' i size Hc' Hs) as (c2 & Hf & Hrange2); [apply Hrun|rewrite Hb'; apply Hrun|].
  assert (start_addr c' = start_addr c /\ end_addr c' = end_addr c) as [Es Ee] by (split; apply Hrange).
  rewrite Es in Hf. destruct (find_in_chunk (<[k := c']> (chunks pool)) k c' addr) as [F1 F2];
    [by eapply chunks_apart_insert|apply list_lookup_insert_eq; by eapply lookup_lt_Some|rewrite Es, Ee; lia|].
  rewrite (free_loop_at addr size _ k c' c2); [|apply list_lookup_insert_eq; by eapply lookup_lt_Some|done|done|done].
  cbn [mbind option_bind]. rewrite list_insert_insert_eq.
  assert (c2 = c) as -> by (by eapply chunk_range_undo). rewrite (list_insert_id (chunks pool) k c Hk). by destruct pool.
Qed.


(** Every thread inside of a call holds the read lock, and [extra] more holders
    never come out. *)
Definition readers_left (extra : nat) (s : gp_state) : Prop := (size (gp_calls s) + extra <= readers (gp_pool s))%nat.

Lemma readers_left_step extra s s' : gp_step s s' -> readers_left extra s -> readers_left extra s'.
Proof.
  unfold readers_left. destruct 1 as [pool calls held t sz Ht Hs|pool calls held t sz k c c' addr Ht Hk Hal|pool calls held t sz k c Ht Hk Hal
    |pool calls held t sz k Ht Hk|pool pool' calls held n addr sz Hin Hf|pool pool' calls held virt phys sz Hn Hadd|pool calls held addr];
    cbn [gp_pool gp_calls readers with_readers]; intros Hr.
  - rewrite map_size_insert_None by done. lia.
  - rewrite map_size_delete_Some by done. assert (size calls <> 0%nat) by (apply (map_size_ne_0_lookup_2 _ t); by rewrite Ht). lia.
  - rewrite map_size_insert_Some by done. lia.
  - rewrite map_size_delete_Some by done. assert (size calls <> 0%nat) by (apply (map_size_ne_0_lookup_2 _ t); by rewrite Ht). lia.
  - unfold gen_pool_free in Hf. destruct (free_loop _ _ _ _); [|done]. by injection Hf as <-.
  - unfold gen_pool_add_virt in Hadd. cbn [negb] in Hadd. destruct (decide _); [|done]. by injection Hadd as <-.
  - unfold gen_pool_virt_to_phys. destruct (find_chunk _ _); cbn [fst readers with_readers]; lia.
Qed.

Lemma stuck_step extra s s' :
  gp_step s s' -> readers_left (S extra) s -> length (chunks (gp_pool s')) = length (chunks (gp_pool s)).
Proof.
  unfold readers_left. destruct 1 as [pool calls held t sz Ht Hs|pool calls held t sz k c c' addr Ht Hk Hal|pool calls held t sz k c Ht Hk Hal
    |pool calls held t sz k Ht Hk|pool pool' calls held n addr sz Hin Hf|pool pool' calls held virt phys sz Hn Hadd|pool calls held addr];
    cbn [gp_pool gp_calls]; intros Hr; try done.
  - cbn. by rewrite length_insert.
  - unfold gen_pool_free in Hf. destruct (free_loop _ _ _ _) as [cs|] eqn:E; [|done]. injection Hf as <-. cbn [chunks with_chunks].
    clear -E. revert cs E. induction (chunks pool) as [|c cs IH]; intros cs' E; cbn [free_loop] in E.
    { destruct (0 <? _); [done|]. by injection E as <-. }
    destruct (in_chunk addr c).
    + destruct (free_chunk _ _ _ c); [|done]. by injection E as <-.
    + destruct (free_loop _ _ _ cs) as [cs1|]; [|done]. injection E as <-. cbn. by rewrite (IH cs1).
  - exfalso. unfold gen_pool_add_virt in Hadd. cbn [negb] in Hadd. destruct (decide _); [lia|done].
  - unfold gen_pool_virt_to_phys. by destruct (find_chunk _ _).
Qed.

(** C36. A successful [gen_pool_virt_to_phys] blocks the pool for good.  It
    returns the physical address, but with the read lock held; from then on
    [gen_pool_add_virt] waits, and in every continuation of the interleaved
    system no chunk is added any more.  An address of no chunk gives -1 and
    leaves the pool as it was. *)
Theorem gen_pool_virt_to_phys_lock_leak s s' addr :
  readers_left 0 s -> gp_pool s' = (gen_pool_virt_to_phys (gp_pool s) addr).1 -> gp_calls s' = gp_calls s ->
  match find_chunk addr (chunks (gp_pool s)) with
  | Some c => (gen_pool_virt_to_phys (gp_pool s) addr).2 = ulong (phys_addr c + (addr - start_addr c)) /\
      (forall virt phys size, gen_pool_add_virt true (gp_pool s') virt phys size = None) /\
      (forall s2, rtc gp_step s' s2 -> length (chunks (gp_pool s2)) = length (chunks (gp_pool s)))
  | None => (gen_pool_virt_to_phys (gp_pool s) addr).2 = ulong (-1) /\ gp_pool s' = gp_pool s
  end.
Proof.
  intros Hr Hp Hc. unfold gen_pool_virt_to_phys in *. cbn [chunks with_readers] in *.
  destruct (find_chunk addr (chunks (gp_pool s))) as [c|]; cbn [fst snd] in *.
  - split; [unfold ulong; rewrite uwrap_sub_l; f_equal; lia|]. split; [intros; by rewrite Hp|].
    intros s2 Hs2. replace (chunks (gp_pool s)) with (chunks (gp_pool s')) by (by rewrite Hp).
    assert (readers_left 1 s') as Hr' by (unfold readers_left in *; rewrite Hp, Hc; cbn; lia). clear Hp Hc.
    induction Hs2 as [|x y z Hxy _ IH]; [done|]. rewrite IH by (by eapply readers_left_step). by eapply stuck_step.
  - split; [done|]. rewrite Hp. by destruct (gp_pool s).
Qed.

End proofs.

(** ** The IOMMU area allocator *)

Section iommu.

Context `{LongWidth}.

Abbreviation B := BITS_PER_LONG.

Variables (map : list Z) (size nr shift b k : Z).
Hypothesis map_ok : words_ok map.
Hypothesis size_ok : 0 <= size < 2 ^ 30.
Hypothesis size_map : size <= zlen map * B.
Hypothesis nr_ok : 0 < nr < 2 ^ 30.
Hypothesis shift_ok : 0 <= shift /\ shift + size < 2 ^ B.
Hypothesis b_ok : 0 <= b < B /\ 2 ^ b + nr < 2 ^ B.
Hypothesis k_ok : 0 <= k < 30.

(** The area at [c] runs over a multiple of the boundary. *)
Definition crosses (c : Z) : Prop := 2 ^ b < (shift + c) mod 2 ^ b + nr.

Lemma boundary_power : is_power_of_2 (2 ^ b) = true.
Proof. apply is_power_of_2_spec; [apply Z.pow_pos_nonneg; lia|]. by rewrite Z.log2_pow2 by lia. Qed.

Lemma span_boundary c : 0 <= c <= size ->
  exists x, iommu_is_span_boundary (u32 c) nr shift (2 ^ b) = Some x /\ (x = true <-> crosses c).
Proof.
  intros Hc. unfold iommu_is_span_boundary. rewrite boundary_power. cbn [negb]. rewrite u32_small by lia.
  assert (0 < 2 ^ b < 2 ^ B) as Hb by (split; [apply Z.pow_pos_nonneg; lia|lia]).
  pose proof (Z.mod_pos_bound (shift + c) (2 ^ b) ltac:(lia)) as Hm.
  rewrite (ulong_id (shift + c)), (ulong_id (2 ^ b - 1)), land_ones_mod, ulong_id by (unfold word_ok; lia).
  eexists. split; [done|]. rewrite Z.ltb_lt. unfold crosses. lia.
Qed.

(** The answer of a search from [start]. *)
Definition area_found (start : Z) (map' : list Z) (r : Z) : Prop :=
  (start <= r /\ fits map size nr k r /\ ~ crosses r /\ (forall c, start <= c < r -> fits map size nr k c -> crosses c) /\
   range_set true map r (r + nr) map') \/
  (r = ulong (-1) /\ map' = map /\ forall c, start <= c -> fits map size nr k c -> crosses c).

Lemma iommu_loop_spec fuel start :
  0 <= start -> (Z.to_nat (size - start) < fuel)%nat ->
  exists map' r, iommu_loop fuel map size start nr shift (2 ^ b) (2 ^ k - 1) = Some (map', r) /\ area_found start map' r.
Proof.
  revert start. induction fuel as [|fuel IH]; intros start Hs Hf; [lia|]. cbn [iommu_loop].
  assert (2 ^ 32 <= 2 ^ B) as HB by (destruct B_cases as [->| ->]; lia).
  assert (2 ^ k <= 2 ^ 29) as Hk by (apply Z.pow_le_mono_r; lia).
  destruct (zero_area_loop_spec map size nr k) with (fuel := S (Z.to_nat size)) (start := start) as (r & Hr & Hfit);
    [done|lia|lia|destruct B_cases as [->| ->]; lia|lia|done|lia|]. unfold bitmap_find_next_zero_area. rewrite Hr. cbn [mbind option_bind].
  destruct Hfit as [(Hlt & Hsr & Hfits & Hfirst)|(Hgt & Hnone)].
  - rewrite (proj2 (Z.ltb_lt _ _)) by done. destruct (span_boundary r) as (x & -> & Hx); [lia|]. cbn [mbind option_bind].
    destruct x.
    + rewrite ulong_id by (unfold word_ok; lia). destruct (IH (r + 1)) as (map' & r' & -> & Hans); [lia|lia|]. exists map', r'.
      split; [done|]. assert (forall c, start <= c < r + 1 -> fits map size nr k c -> crosses c) as Hskip.
      { intros c Hc Hcf. destruct (decide (c = r)) as [->|]; [by apply Hx|]. destruct (Hfirst c); [lia|done]. }
      destruct Hans as [(H1 & H2 & H3 & H4 & H5)|(H1 & H2 & H3)]; [left|right].
      * split_and!; [lia|done|done| |done]. intros c Hc. destruct (decide (c < r + 1)); [apply Hskip|apply H4]; lia.
      * split_and!; [done|done|]. intros c Hc. destruct (decide (c < r + 1)); [apply Hskip|apply H3]; lia.
    + rewrite !s32_small by lia. destruct (bitmap_set_exact map r nr) as (map' & -> & Hset);
        [done|lia|lia|destruct Hfits as (_ & Hend & _); lia|]. cbn [mbind option_bind]. exists map', r. split; [done|]. left.
      split_and!; [done|done|intros Hcr; by apply Hx in Hcr| |done]. intros c Hc Hcf. by destruct (Hfirst c Hc).
  - rewrite (proj2 (Z.ltb_ge _ _)) by lia. exists map, (ulong (-1)). split; [done|]. right. split_and!; [done|done|].
    intros c Hc Hcf. by destruct (Hnone c Hc).
Qed.

(** [iommu_area_alloc] returns and is a first fit: it marks and returns the
    first aligned run of [nr] clear bits from [start] on that lies below
    [size - 1] and does not run over a multiple of the boundary; or it returns
    -1 with the map unchanged, and every run that fits crosses the boundary. *)
Theorem iommu_area_alloc_first_fit start :
  0 <= start ->
  exists map' r, iommu_area_alloc map (size + 1) start nr shift (2 ^ b) (2 ^ k - 1) = Some (map', r) /\ area_found start map' r.
Proof.
  intros Hs. unfold iommu_area_alloc. assert (2 ^ 32 <= 2 ^ B) as HB by (destruct B_cases as [->| ->]; lia).
  replace (size + 1 - 1) with size by lia. rewrite ulong_id by (unfold word_ok; lia). apply iommu_loop_spec; [done|lia].
Qed.

End iommu.

(** ** Witnesses *)

Section witnesses.

#[local] Existing Instance long32.

(** 64 granules of 4096 bytes at 256 MiB, in two bitmap words. *)
Let chunk : gen_pool_chunk := new_chunk 12 (2 ^ 28) (2 ^ 30) (64 * 4096).
Let pool : gen_pool := {| readers := 0; chunks := [chunk]; min_alloc_order := 12 |}.
Let s0 : gp_state := {| gp_pool := {| readers := 0; chunks := []; min_alloc_order := 12 |}; gp_calls := ∅; gp_held := [] |}.

Lemma example_new_chunk_ok : new_chunk_ok 12 (gp_pool s0) (2 ^ 28) (64 * 4096).
Proof. split; [by vm_compute|by vm_compute|by vm_compute|]. intros c Hc. by apply not_elem_of_nil in Hc. Qed.

Lemma example_chunk_ok : chunk_ok 12 chunk.
Proof. apply new_chunk_spec; by vm_compute. Qed.

Lemma example_requests : request_ok 12 5000 /\ request_ok 12 100.
Proof. split; split; by vm_compute. Qed.

(** Two threads allocate from one chunk, 5000 and 100 bytes. *)
Lemma example_run : exists s', rtc (gp_step 12) s0 s' /\ gp_held s' = [(2 ^ 28 + 8192, 100); (2 ^ 28, 5000)].
Proof.
  destruct example_requests as [R1 R2]. eexists. split.
  - eapply rtc_l; [eapply (step_add 12 _ _ _ _ _ (2 ^ 30)); [exact example_new_chunk_ok|reflexivity]|].
    eapply rtc_l; [eapply (step_begin 12 _ _ _ 1); [done|exact R1]|].
    eapply rtc_l; [eapply (step_begin 12 _ _ _ 2); [done|exact R2]|].
    eapply rtc_l; [eapply (step_take 12 _ _ _ 1 _ 0); [reflexivity|reflexivity|vm_compute; reflexivity]|].
    eapply rtc_l; [eapply (step_take 12 _ _ _ 2 _ 0); [reflexivity|reflexivity|vm_compute; reflexivity]|]. apply rtc_refl.
  - by vm_compute.
Qed.


Lemma gen_pool_alloc_free_roundtrip_witness :
  exists pool' addr, gen_pool_alloc pool 5000 = Some (pool', addr) /\ addr = 2 ^ 28 /\ gen_pool_free pool' addr 5000 = Some pool.
Proof.
  destruct (gen_pool_alloc_free_roundtrip 12 (conj (Zle_0_pos 12) eq_refl) pool 5000) as [[E _]|(pool' & addr & c & E & _ & _ & _ & Hf)].
  - reflexivity.
  - constructor; [exact example_chunk_ok|constructor].
  - intros j l c d Hj Hl Hne. destruct j, l; try done; by destruct j || by destruct l.
  - apply example_requests.
  - exfalso. vm_compute in E. discriminate E.
  - exists pool', addr. split; [exact E|]. split; [|exact Hf]. vm_compute in E. by injection E as _ <-.
Defined.

Lemma gen_pool_virt_to_phys_lock_leak_witness :
  let s := {| gp_pool := pool; gp_calls := ∅; gp_held := [] |} in
  let s' := {| gp_pool := (gen_pool_virt_to_phys pool (2 ^ 28 + 16)).1; gp_calls := ∅; gp_held := [] |} in
  (gen_pool_virt_to_phys pool (2 ^ 28 + 16)).2 = 2 ^ 30 + 16 /\
  gen_pool_add_virt true (gp_pool s') (2 ^ 29) 0 (32 * 4096) = None /\
  forall s2, rtc (gp_step 12) s' s2 -> length (chunks (gp_pool s2)) = 1%nat.
Proof.
  intros s s'. destruct (gen_pool_virt_to_phys_lock_leak 12 s s' (2 ^ 28 + 16)) as (E & Hadd & Hlen);
    [exact (le_n 0)|reflexivity|reflexivity|]. split; [by vm_compute|]. split; [apply Hadd|exact Hlen].
Defined.

Lemma iommu_area_alloc_first_fit_witness :
  exists map' r, iommu_area_alloc [15; 0] 64 0 6 0 8 0 = Some (map', r) /\ area_found [15; 0] 63 6 0 3 0 0 map' r.
Proof.
  apply (iommu_area_alloc_first_fit [15; 0] 63 6 0 3 0); [|by vm_compute..].
  repeat apply Forall_cons_2; [by vm_compute..|apply Forall_nil_2].
Defined.

(** The first six clear bits that stay inside of a group of eight. *)
Lemma iommu_example : iommu_area_alloc [15; 0] 64 0 6 0 8 0 = Some ([16143; 0], 8).
Proof. by vm_compute. Qed.

(** The bitmap of a chunk of 40 granules has five bytes, one whole word: a
    search that reaches granule 32 reads outside of it. *)
Lemma gen_pool_partial_word :
  let c := new_chunk 12 (2 ^ 28) 0 (40 * 4096) in
  length (bits c) = 1%nat /\ chunk_end_bit 12 c = 40 /\ alloc_chunk 12 40 c = None.
Proof. vm_compute. repeat split. Qed.

(** A request of 2 GB of one-byte granules, when granule 0 is taken: the area
    would end at [2^31], which is negative as an [int] and looks like a free
    granule. *)
Lemma gen_pool_huge_request :
  let c := {| phys_addr := 0; start_addr := 2 ^ 28; end_addr := 2 ^ 28 + 64; bits := [1; 0] |} in
  bitmap_find_next_zero_area (bits c) 64 0 (size_bits 0 (2 ^ 31 - 1)) 0 = Some (2 ^ 31) /\
  s32 (2 ^ 31) < chunk_end_bit 0 c /\ alloc_chunk 0 (size_bits 0 (2 ^ 31 - 1)) c = None.
Proof. vm_compute. repeat split. Qed.

End witnesses.
