(* ===== verification/Hweight.v ===== *)
(** * Hamming weights (lib/hweight.c)

    The routines add up the bits of a word in parallel: pairs, then nibbles,
    then bytes.  They are modelled without [ARCH_HAS_FAST_MULTIPLIER], which the
    C-SKY port does not define, and shown to count bits. *)

From Stdlib Require Import ZArith Lia.
From stdpp Require Import base numbers list option.
From S2P Require Import Prelude.

Local Open Scope Z_scope.

Definition __sw_hweight32 (w : Z) : Z :=
  let res := u32 (w - ((w .>> 1) .& 0x55555555)) in
  let res := u32 ((res .& 0x33333333) + ((res .>> 2) .& 0x33333333)) in
  let res := u32 (res + (res .>> 4)) .& 0x0F0F0F0F in
  let res := u32 (res + (res .>> 8)) in
  u32 (res + (res .>> 16)) .& 0x000000FF.

Definition __sw_hweight16 (w : Z) : Z :=
  let res := u32 (w - ((w .>> 1) .& 0x5555)) in
  let res := u32 ((res .& 0x3333) + ((res .>> 2) .& 0x3333)) in
  let res := u32 (res + (res .>> 4)) .& 0x0F0F in
  u32 (res + (res .>> 8)) .& 0x00FF.

Definition __sw_hweight8 (w : Z) : Z :=
  let res := u32 (w - ((w .>> 1) .& 0x55)) in
  let res := u32 ((res .& 0x33) + ((res .>> 2) .& 0x33)) in
  u32 (res + (res .>> 4)) .& 0x0F.

(** On a 32-bit machine two halves, on a 64-bit machine the same steps on 64 bits. *)
Definition __sw_hweight64 `{LongWidth} (w : Z) : Z :=
  if BITS_PER_LONG =? 32 then ulong (__sw_hweight32 (u32 (w .>> 32)) + __sw_hweight32 (u32 w)) else
  let res := u64 (w - ((w .>> 1) .& 0x5555555555555555)) in
  let res := u64 ((res .& 0x3333333333333333) + ((res .>> 2) .& 0x3333333333333333)) in
  let res := u64 (res + (res .>> 4)) .& 0x0F0F0F0F0F0F0F0F in
  let res := u64 (res + (res .>> 8)) in
  let res := u64 (res + (res .>> 16)) in
  u64 (res + (res .>> 32)) .& 0x00000000000000FF.

Definition hweight_long `{LongWidth} (w : Z) : Z :=
  if BITS_PER_LONG =? 32 then __sw_hweight32 w else __sw_hweight64 w.

(** ** Reference: count the bits one by one *)

(** The set bits of [w] among the lowest [n]. *)
Fixpoint popcount (n : nat) (w : Z) : Z :=
  match n with
  | O => 0
  | S n => Z.b2z (Z.testbit w 0) + popcount n (w / 2)
  end.

Lemma popcount_range n w : 0 <= popcount n w <= Z.of_nat n.
Proof. revert w. induction n as [|n IH]; intros w; cbn [popcount]; [lia|]. specialize (IH (w / 2)). destruct (Z.testbit w 0); cbn [Z.b2z]; lia. Qed.

(** ** Words as bytes *)

Fixpoint val (l : list Z) : Z :=
  match l with
  | [] => 0
  | f :: l => f + 256 * val l
  end.

Definition byte (f : Z) : Prop := 0 <= f < 256.

Lemma val_range l : Forall byte l -> 0 <= val l < 256 ^ zlen l.
Proof.
  induction 1 as [|f l Hf Hl IH]; cbn [val length]; [done|]. rewrite Nat2Z.inj_succ, Z.pow_succ_r by lia. unfold byte in Hf. lia.
Qed.

(** A word has its bytes. *)
Lemma word_bytes n w : 0 <= w < 256 ^ Z.of_nat n -> exists l, length l = n /\ Forall byte l /\ w = val l.
Proof.
  revert w. induction n as [|n IH]; intros w Hw; [exists []; cbn in *; split_and!; [done|constructor|lia]|].
  rewrite Nat2Z.inj_succ, Z.pow_succ_r in Hw by lia. destruct (IH (w / 256)) as (l & Hl & Hb & E).
  { split; [apply Z.div_pos; lia|apply Z.div_lt_upper_bound; lia]. }
  exists (w mod 256 :: l). split_and!; [cbn; lia|constructor; [apply Z.mod_pos_bound; lia|done]|].
  cbn [val]. rewrite <- E. pose proof (Z.div_mod w 256). lia.
Qed.

(** Shift and mask a word byte by byte: the mask drops what a byte gets from the next. *)
Lemma shift_land s f a m b :
  0 <= s <= 8 -> byte f -> 0 <= m < 2 ^ (8 - s) -> 
  ((f + 256 * a) .>> s) .& (m + 256 * b) = ((f .>> s) .& m) + 256 * ((a .>> s) .& b).
Proof.
  intros Hs Hf Hm. unfold byte in Hf. assert (2 ^ (8 - s) <= 256) by (change 256 with (2 ^ 8); apply Z.pow_le_mono_r; lia).
  assert (0 <= (f .>> s) .& m < 2 ^ 8) as Hr.
  { split; [apply Z.land_nonneg; lia|]. rewrite Z.land_comm. apply land_bound; [lia|change (2 ^ 8) with 256; lia|apply Z.shiftr_nonneg; lia]. }
  assert (forall x y, 0 <= x < 2 ^ 8 -> x + 256 * y = x .| (y .<< 8)) as Eor by (intros x y Hx; rewrite lor_shiftl_add by lia; lia).
  rewrite (Eor f a), (Eor m b), (Eor _ (_ .& b)) by (done || lia).
  apply Z.bits_inj'. intros i Hi. rewrite Z.land_spec, Z.shiftr_spec, !Z.lor_spec, !Z.land_spec, !Z.shiftl_spec, Z.shiftr_spec by lia.
  destruct (decide (i < 8)) as [Hlt|Hge].
  - assert (forall x, Z.testbit x (i - 8) = false) as Hneg by (intros; apply Z.testbit_neg_r; lia).
    rewrite !Hneg, !orb_false_r. destruct (decide (i + s < 8)).
    + rewrite (Z.testbit_neg_r _ (i + s - 8)) by lia. by rewrite orb_false_r.
    + rewrite (testbit_high m (8 - s) i) by lia. by rewrite !andb_false_r.
  - rewrite (testbit_high m 8 i), (testbit_high f 8 (i + s)) by lia. rewrite andb_false_r. cbn [orb].
    rewrite Z.land_spec, Z.shiftr_spec by lia. by replace (i - 8 + s) with (i + s - 8) by lia.
Qed.

(** ** The steps on one byte *)

Definition pairs (f : Z) : Z := f - ((f .>> 1) .& 0x55).
Definition nibbles (f : Z) : Z := (f .& 0x33) + ((f .>> 2) .& 0x33).
Definition whole (f : Z) : Z := (f + (f .>> 4)) .& 0x0F.

(** Both nibbles are counts of at most four bits. *)
Definition counts (f : Z) : Prop := 0 <= f < 256 /\ f mod 16 <= 4 /\ f / 16 <= 4.

Lemma byte_steps f : byte f -> byte (pairs f) /\ counts (nibbles (pairs f)) /\ whole (nibbles (pairs f)) = popcount 8 f.
Proof.
  intros Hf. set (ok f := (0 <=? pairs f) && (pairs f <? 256) && (0 <=? nibbles (pairs f)) && (nibbles (pairs f) <? 256) &&
    (nibbles (pairs f) mod 16 <=? 4) && (nibbles (pairs f) / 16 <=? 4) && (whole (nibbles (pairs f)) =? popcount 8 f)).
  assert (ok f = true) as Hok by (apply (forallb_below ok 256); [by vm_compute|apply Hf]).
  subst ok. cbn beta in Hok. rewrite !andb_true_iff, !Z.leb_le, !Z.ltb_lt, Z.eqb_eq in Hok. unfold byte, counts. lia.
Qed.

(** ** The steps on words *)

(** The mask with [m] in every byte. *)
Definition every (n : nat) (m : Z) : Z := val (replicate n m).

(** A shift and mask, byte by byte. *)
Lemma mask_bytes s m l :
  0 <= s <= 8 -> 0 <= m < 2 ^ (8 - s) -> Forall byte l ->
  (val l .>> s) .& every (length l) m = val ((fun f => (f .>> s) .& m) <$> l).
Proof.
  intros Hs Hm. induction 1 as [|f l Hf Hl IH]; [by rewrite Z.shiftr_0_l|]. cbn [length]. unfold every in *. cbn [replicate val].
  rewrite shift_land, IH by done. done.
Qed.

Lemma pairs_bytes l : Forall byte l -> val l - ((val l .>> 1) .& every (length l) 0x55) = val (pairs <$> l).
Proof.
  intros Hl. rewrite mask_bytes by (done || lia). clear Hl. induction l as [|f l IH]; [done|]. rewrite !fmap_cons. cbn [val].
  rewrite <- IH. unfold pairs. lia.
Qed.

Lemma nibbles_bytes l : Forall byte l ->
  (val l .& every (length l) 0x33) + ((val l .>> 2) .& every (length l) 0x33) = val (nibbles <$> l).
Proof.
  intros Hl. rewrite <- (Z.shiftr_0_r (val l)) at 1. rewrite !mask_bytes by (done || lia). clear Hl.
  induction l as [|f l IH]; [done|]. rewrite !fmap_cons. cbn [val]. rewrite <- IH. unfold nibbles. rewrite Z.shiftr_0_r. lia.
Qed.

Lemma counts_byte l : Forall counts l -> Forall byte l.
Proof. apply Forall_impl. intros f Hf. apply Hf. Qed.

(** The nibbles of a byte and its neighbour add without a carry. *)
Lemma whole_bytes l : Forall counts l ->
  (val l + (val l .>> 4)) .& every (length l) 0x0F = val (whole <$> l) /\ val l + (val l .>> 4) < 256 ^ zlen l.
Proof.
  intros Hl. rewrite Z.shiftr_div_pow2 by lia. change (2 ^ 4) with 16. induction Hl as [|f l Hf Hl [IH1 IH2]]; [done|].
  pose proof (val_range l (counts_byte l Hl)) as Hv.
  assert ((f + 256 * val l) / 16 = f / 16 + 16 * val l) as Ed.
  { replace (f + 256 * val l) with (f + 16 * val l * 16) by lia. rewrite Z.div_add; lia. }
  rewrite fmap_cons. cbn [length val]. rewrite Ed. unfold every in *. cbn [replicate val]. set (v := val l) in *.
  assert (0 <= v mod 16 <= 4) as Hv4.
  { destruct Hl as [|g l Hg Hl]; cbn [val] in v; [subst v; done|]. subst v. unfold counts in Hg.
    replace (g + 256 * val l) with (g + 16 * val l * 16) by lia. rewrite Z.mod_add by lia. pose proof (Z.mod_pos_bound g 16). lia. }
  unfold counts in Hf. pose proof (Z.div_mod v 16 ltac:(lia)) as Hdv. pose proof (Z.div_mod f 16 ltac:(lia)) as Hdf.
  assert (f + 256 * v + (f / 16 + 16 * v) = (f + f / 16 + 16 * (v mod 16)) + 256 * (v + v / 16)) as -> by lia.
  assert (0 <= f / 16) by (apply Z.div_pos; lia).
  split; [|rewrite Nat2Z.inj_succ, Z.pow_succ_r by lia; lia].
  rewrite <- (Z.shiftr_0_r (_ + 256 * (v + v / 16))), shift_land by (unfold byte; lia || done).
  rewrite !Z.shiftr_0_r, IH1. f_equal. unfold whole. rewrite Z.shiftr_div_pow2 by lia. change (2 ^ 4) with 16.
  change 15 with (2 ^ 4 - 1). rewrite !land_ones_mod by lia. change (2 ^ 4) with 16.
  rewrite (Z.mul_comm 16), Z.mod_add by lia. done.
Qed.

(** ** Counting *)

Lemma popcount_split k n w : popcount (k + n) w = popcount k w + popcount n (w / 2 ^ Z.of_nat k).
Proof.
  revert w. induction k as [|k IH]; intros w; [cbn [Nat.add popcount]; by rewrite Z.div_1_r|]. cbn [Nat.add popcount].
  rewrite IH, Nat2Z.inj_succ, Z.pow_succ_r, <- Z.div_div by lia. lia.
Qed.

Lemma popcount_mod k w : popcount k (w mod 2 ^ Z.of_nat k) = popcount k w.
Proof.
  revert w. induction k as [|k IH]; intros w; [done|]. cbn [popcount]. rewrite Nat2Z.inj_succ, Z.mod_pow2_bits_low by lia. f_equal.
  rewrite <- IH, <- (IH (w / 2)). f_equal. rewrite Z.pow_succ_r by lia. rewrite Z.rem_mul_r by lia.
  replace (w mod 2 + 2 * ((w / 2) mod 2 ^ Z.of_nat k)) with (w mod 2 + (w / 2) mod 2 ^ Z.of_nat k * 2) by lia.
  rewrite Z.div_add, (Z.div_small (w mod 2)), Z.add_0_l, Z.mod_mod by (pose proof (Z.mod_pos_bound w 2); lia). done.
Qed.

Lemma popcount_bytes l : Forall byte l -> popcount (8 * length l) (val l) = zsum (popcount 8 <$> l).
Proof.
  induction 1 as [|f l Hf Hl IH]; [done|]. rewrite fmap_cons, zsum_cons, <- IH. cbn [length val].
  replace (8 * S (length l))%nat with (8 + 8 * length l)%nat by lia. rewrite popcount_split. change (2 ^ Z.of_nat 8) with 256.
  unfold byte in Hf. f_equal.
  - rewrite <- (popcount_mod 8 (f + _)). change (2 ^ Z.of_nat 8) with 256. rewrite Z.mul_comm, Z.mod_add, Z.mod_small by lia. done.
  - f_equal. rewrite Z.mul_comm, Z.div_add, Z.div_small by lia. lia.
Qed.

(** The first three steps leave the count of each byte in that byte. *)
Lemma three_steps l :
  Forall byte l ->
  let a := val l - ((val l .>> 1) .& every (length l) 0x55) in
  let b := (a .& every (length l) 0x33) + ((a .>> 2) .& every (length l) 0x33) in
  0 <= a < 256 ^ zlen l /\ 0 <= b < 256 ^ zlen l /\ 0 <= b + (b .>> 4) < 256 ^ zlen l /\
  (b + (b .>> 4)) .& every (length l) 0x0F = val (popcount 8 <$> l).
Proof.
  intros Hl a b. assert (Forall byte (pairs <$> l)) as H1.
  { apply Forall_fmap. eapply Forall_impl; [|exact Hl]. intros f Hf. apply byte_steps, Hf. }
  assert (Forall counts (nibbles <$> (pairs <$> l))) as H2.
  { rewrite <- list_fmap_compose. apply Forall_fmap. eapply Forall_impl; [|exact Hl]. intros f Hf. apply byte_steps, Hf. }
  assert (a = val (pairs <$> l)) as Ea by (by apply pairs_bytes).
  assert (b = val (nibbles <$> (pairs <$> l))) as Eb.
  { unfold b. rewrite Ea. rewrite <- nibbles_bytes by done. by rewrite length_fmap. }
  pose proof (val_range _ H1) as V1. pose proof (val_range _ (counts_byte _ H2)) as V2. destruct (whole_bytes _ H2) as [W1 W2].
  rewrite !length_fmap in *. rewrite Ea, Eb. split; [done|]. split; [done|]. split.
  - split; [|done]. pose proof (Z.shiftr_nonneg (val (nibbles <$> (pairs <$> l))) 4). lia.
  - rewrite W1. f_equal. rewrite <- !list_fmap_compose. apply list_fmap_ext. intros i f Hi. cbn.
    apply byte_steps. exact (Forall_lookup_1 _ _ _ _ Hl Hi).
Qed.

(** The same for a word of [n] bytes, at a machine width that holds it. *)
Lemma first_steps wd n w :
  0 <= w < 256 ^ Z.of_nat n -> 256 ^ Z.of_nat n <= 2 ^ wd ->
  let a := uwrap wd (w - ((w .>> 1) .& every n 0x55)) in
  let b := uwrap wd ((a .& every n 0x33) + ((a .>> 2) .& every n 0x33)) in
  exists l, length l = n /\ Forall (fun c => 0 <= c <= 8) l /\ popcount (8 * n) w = zsum l /\
    uwrap wd (b + (b .>> 4)) .& every n 0x0F = val l.
Proof.
  intros Hw Hwd. destruct (word_bytes n w Hw) as (l & Hl & Hb & ->). destruct (three_steps l Hb) as (Ha & Hb' & Hc & E).
  cbv zeta in *. rewrite Hl in *. rewrite (uwrap_small wd (val l - _)) by lia. rewrite (uwrap_small wd (_ + (_ .& every n 51))) by lia.
  exists (popcount 8 <$> l). rewrite length_fmap, <- popcount_bytes, Hl by done. split_and!; [done| |done|].
  - apply Forall_fmap, Forall_true. intros f. apply (popcount_range 8).
  - rewrite uwrap_small by lia. done.
Qed.

(** Adding a word to itself shifted by [k] bytes adds the counts. *)
Fixpoint add_bytes (l l' : list Z) : list Z :=
  match l, l' with
  | f :: l, f' :: l' => f + f' :: add_bytes l l'
  | l, [] => l
  | [], l' => l'
  end.

Lemma val_add l l' : val l + val l' = val (add_bytes l l').
Proof. revert l'. induction l as [|f l IH]; intros [|f' l']; cbn [add_bytes val]; [done|lia|lia|]. rewrite <- IH. lia. Qed.

Lemma val_shift (k : nat) l : Forall byte l -> val l .>> (8 * Z.of_nat k) = val (drop k l).
Proof.
  intros Hl. revert l Hl. induction k as [|k IH]; intros l Hl; [apply Z.shiftr_0_r|].
  destruct Hl as [|f l Hf Hl]; [apply Z.shiftr_0_l|]. cbn [drop]. rewrite <- IH by done. cbn [val].
  replace (8 * Z.of_nat (S k)) with (8 + 8 * Z.of_nat k) by lia. rewrite <- Z.shiftr_shiftr by lia. f_equal.
  rewrite Z.shiftr_div_pow2 by lia. change (2 ^ 8) with 256. unfold byte in Hf.
  rewrite (Z.mul_comm 256), Z.div_add, Z.div_small by lia. lia.
Qed.

Lemma fold_step w l k :
  Forall byte l -> Forall byte (add_bytes l (drop k l)) -> 256 ^ zlen (add_bytes l (drop k l)) = 2 ^ w ->
  uwrap w (val l + (val l .>> (8 * Z.of_nat k))) = val (add_bytes l (drop k l)).
Proof. intros Hl Ha E. rewrite val_shift, val_add by done. apply uwrap_small. rewrite <- E. by apply val_range. Qed.

Lemma val_low f l : byte f -> val (f :: l) .& 255 = f.
Proof.
  intros Hf. change 255 with (2 ^ 8 - 1). rewrite land_ones_mod by lia. change (2 ^ 8) with 256. cbn [val]. unfold byte in Hf.
  rewrite (Z.mul_comm 256), Z.mod_add, Z.mod_small by lia. done.
Qed.

(** Bytes built from a few counts. *)
Ltac small_bytes := cbn [add_bytes drop]; repeat first [apply Forall_nil_2 | apply Forall_cons_2; [unfold byte; lia|]].

Lemma hweight32_count w : 0 <= w < 2 ^ 32 -> __sw_hweight32 w = popcount 32 w.
Proof.
  intros Hw. destruct (first_steps 32 4 w) as (l & Hl & Hs & Hp & E); [done|done|]. cbv zeta in E.
  unfold __sw_hweight32, u32. change (every 4 0x55) with 1431655765 in E. change (every 4 0x33) with 858993459 in E.
  change (every 4 0x0F) with 252645135 in E. rewrite E. change 32%nat with (8 * 4)%nat. rewrite Hp. clear E Hp.
  destruct l as [|c0 [|c1 [|c2 [|c3 [|]]]]]; try done. repeat (apply list.Forall_cons in Hs as [? Hs]).
  rewrite (fold_step 32 _ 1), (fold_step 32 _ 2) by (done || small_bytes). cbn [add_bytes drop].
  rewrite val_low by (unfold byte; lia). unfold zsum. cbn. lia.
Qed.

Lemma hweight64_count `{LongWidth} w : BITS_PER_LONG = 64 -> 0 <= w < 2 ^ 64 -> __sw_hweight64 w = popcount 64 w.
Proof.
  intros HB Hw. destruct (first_steps 64 8 w) as (l & Hl & Hs & Hp & E); [done|done|]. cbv zeta in E.
  unfold __sw_hweight64, u64. rewrite HB. cbn [Z.eqb Pos.eqb]. change (every 8 0x55) with 6148914691236517205 in E.
  change (every 8 0x33) with 3689348814741910323 in E. change (every 8 0x0F) with 1085102592571150095 in E.
  rewrite E. change 64%nat with (8 * 8)%nat. rewrite Hp. clear E Hp.
  destruct l as [|c0 [|c1 [|c2 [|c3 [|c4 [|c5 [|c6 [|c7 [|]]]]]]]]]; try done. repeat (apply list.Forall_cons in Hs as [? Hs]).
  rewrite (fold_step 64 _ 1), (fold_step 64 _ 2), (fold_step 64 _ 4) by (done || small_bytes). cbn [add_bytes drop].
  rewrite val_low by (unfold byte; lia). unfold zsum. cbn. lia.
Qed.

(** The shorter words, by evaluation of every case. *)
Lemma hweight8_count w : 0 <= w < 2 ^ 8 -> __sw_hweight8 w = popcount 8 w.
Proof. intros Hw. apply Z.eqb_eq, (forallb_below (fun w => __sw_hweight8 w =? popcount 8 w) 256); [by vm_compute|exact Hw]. Qed.

Lemma hweight16_count w : 0 <= w < 2 ^ 16 -> __sw_hweight16 w = popcount 16 w.
Proof.
  intros Hw. destruct (first_steps 32 2 w) as (l & Hl & Hs & Hp & E); [done|done|]. cbv zeta in E.
  unfold __sw_hweight16, u32. change (every 2 0x55) with 21845 in E. change (every 2 0x33) with 13107 in E.
  change (every 2 0x0F) with 3855 in E. rewrite E. change 16%nat with (8 * 2)%nat. rewrite Hp. clear E Hp.
  destruct l as [|c0 [|c1 [|]]]; try done. repeat (apply list.Forall_cons in Hs as [? Hs]).
  rewrite (val_shift 1), val_add by small_bytes. cbn [add_bytes drop].
  rewrite uwrap_small, val_low by (unfold byte; cbn [val]; lia). unfold zsum. cbn. lia.
Qed.

Lemma hweight64_any `{LongWidth} w : 0 <= w < 2 ^ 64 -> __sw_hweight64 w = popcount 64 w.
Proof.
  intros Hw. destruct bits_per_long_ok as [HB|HB]; [|by apply hweight64_count]. unfold __sw_hweight64. rewrite HB. cbn [Z.eqb Pos.eqb].
  rewrite Z.shiftr_div_pow2, (u32_small (w / 2 ^ 32)) by (lia || (split; [apply Z.div_pos|apply Z.div_lt_upper_bound]; lia)).
  rewrite !hweight32_count; [|apply u32_range|split; [apply Z.div_pos|apply Z.div_lt_upper_bound]; lia].
  change 64%nat with (32 + 32)%nat. rewrite popcount_split. unfold u32, uwrap. rewrite (popcount_mod 32). change (2 ^ Z.of_nat 32) with (2 ^ 32).
  pose proof (popcount_range 32 w). pose proof (popcount_range 32 (w / 2 ^ 32)). rewrite ulong_small; lia.
Qed.

Lemma hweight_long_count `{LongWidth} w : 0 <= w < 2 ^ BITS_PER_LONG -> hweight_long w = popcount (Z.to_nat BITS_PER_LONG) w.
Proof.
  intros Hw. unfold hweight_long. destruct bits_per_long_ok as [HB|HB]; rewrite HB in *; [by apply hweight32_count|by apply hweight64_any].
Qed.

(** C32. The parallel counts are the number of set bits: for every word, the
    8-, 16-, 32- and 64-bit routines, on the word cut to their width, return
    how many of its bits are set, on 32- and 64-bit machines; so does
    [hweight_long] on an [unsigned long]. *)
Theorem hweight_counts_bits `{LongWidth} w :
  __sw_hweight8 (u8 w) = popcount 8 w /\ __sw_hweight16 (u16 w) = popcount 16 w /\ __sw_hweight32 (u32 w) = popcount 32 w /\
  __sw_hweight64 (u64 w) = popcount 64 w /\ hweight_long (ulong w) = popcount (Z.to_nat BITS_PER_LONG) w.
Proof.
  assert (forall n x, 0 <= n -> 0 <= uwrap n x < 2 ^ n) as Hr by (intros; by apply uwrap_range).
  assert (forall k x, popcount k (uwrap (Z.of_nat k) x) = popcount k x) as Hm by (intros; apply popcount_mod).
  split_and!.
  - unfold u8. rewrite hweight8_count by (by apply Hr). apply (Hm 8%nat).
  - unfold u16. rewrite hweight16_count by (by apply Hr). apply (Hm 16%nat).
  - unfold u32. rewrite hweight32_count by (by apply Hr). apply (Hm 32%nat).
  - unfold u64. rewrite hweight64_any by (by apply Hr). apply (Hm 64%nat).
  - rewrite hweight_long_count by apply ulong_range. unfold ulong. rewrite <- (Hm _ w), Z2Nat.id; [done|].
    pose proof bits_per_long_pos. lia.
Qed.

(** The weight of a word with 46 set bits, run. *)
Lemma hweight_example : @__sw_hweight64 long32 0xDEADBEEFCAFEBABE = 46 /\ @__sw_hweight64 long64 0xDEADBEEFCAFEBABE = 46.
Proof. vm_compute. split; reflexivity. Qed.
