(* ===== verification/BitmapOps.v ===== *)
(** * Whole bitmaps: tests, set operations, shifts and weight (lib/bitmap.c)

    The destination of an operation may be one of its sources, so a source is
    either other memory or the destination as it is at the time of the
    read.  Reading or writing a word outside of the arrays has no result. *)

From Stdlib Require Import ZArith Lia.
From stdpp Require Import base numbers list option.
From S2P Require Import Prelude Bitmap Hweight.

Local Open Scope Z_scope.

Section code.

Context `{LongWidth}.

Abbreviation B := BITS_PER_LONG.

(** ** Tests *)

(** [for (k = 0; k < lim; ++k) if (test(k)) return], from [k] on for [n] rounds. *)
Fixpoint any_word (n k : nat) (test : nat -> option bool) : option bool :=
  match n with
  | O => Some false
  | S n => b ← test k; if (b : bool) then Some true else any_word n (S k) test
  end.

(** The whole words, then the bits of the last one that count. *)
Definition words_test (nbits : Z) (test : nat -> option bool) (last : nat -> option Z) : option bool :=
  let lim := Z.to_nat (nbits / B) in
  found ← any_word lim 0 test;
  if (found : bool) then Some true
  else if negb (nbits mod B =? 0) then
    w ← last lim; Some (negb (w .& BITMAP_LAST_WORD_MASK nbits =? 0))
  else Some false.

Definition __bitmap_empty (bitmap : list Z) (nbits : Z) : option Z :=
  found ← words_test nbits (fun k => w ← bitmap !! k; Some (negb (w =? 0))) (fun k => bitmap !! k);
  Some (if (found : bool) then 0 else 1).

Definition __bitmap_full (bitmap : list Z) (nbits : Z) : option Z :=
  found ← words_test nbits (fun k => w ← bitmap !! k; Some (negb (not_ w =? 0))) (fun k => not_ <$> bitmap !! k);
  Some (if (found : bool) then 0 else 1).

Definition __bitmap_equal (bitmap1 bitmap2 : list Z) (nbits : Z) : option Z :=
  found ← words_test nbits (fun k => w1 ← bitmap1 !! k; w2 ← bitmap2 !! k; Some (negb (w1 =? w2)))
            (fun k => w1 ← bitmap1 !! k; w2 ← bitmap2 !! k; Some (w1 .^ w2));
  Some (if (found : bool) then 0 else 1).

Definition __bitmap_intersects (bitmap1 bitmap2 : list Z) (nbits : Z) : option Z :=
  found ← words_test nbits (fun k => w1 ← bitmap1 !! k; w2 ← bitmap2 !! k; Some (negb (w1 .& w2 =? 0)))
            (fun k => w1 ← bitmap1 !! k; w2 ← bitmap2 !! k; Some (w1 .& w2));
  Some (if (found : bool) then 1 else 0).

Definition __bitmap_subset (bitmap1 bitmap2 : list Z) (nbits : Z) : option Z :=
  found ← words_test nbits (fun k => w1 ← bitmap1 !! k; w2 ← bitmap2 !! k; Some (negb (w1 .& not_ w2 =? 0)))
            (fun k => w1 ← bitmap1 !! k; w2 ← bitmap2 !! k; Some (w1 .& not_ w2));
  Some (if (found : bool) then 0 else 1).

(** [w += hweight_long(...)], an [int]. *)
Fixpoint weight_loop (n k : nat) (bitmap : list Z) (w : Z) : option Z :=
  match n with
  | O => Some w
  | S n => x ← bitmap !! k; weight_loop n (S k) bitmap (s32 (w + hweight_long x))
  end.

Definition __bitmap_weight (bitmap : list Z) (nbits : Z) : option Z :=
  let lim := Z.to_nat (nbits / B) in
  w ← weight_loop lim 0 bitmap 0;
  if negb (nbits mod B =? 0) then
    x ← bitmap !! lim; Some (s32 (w + hweight_long (x .& BITMAP_LAST_WORD_MASK nbits)))
  else Some w.

(** ** Set operations *)

(** A source: other memory, or the destination itself. *)
Definition source := option (list Z).

Definition read (src : source) (dst : list Z) (k : nat) : option Z := default dst src !! k.

Definition BITS_TO_LONGS (nr : Z) : Z := (nr + B - 1) / B.

(** [dst[k] = f(k)] for [n] values of [k] upwards, with the values or-ed into
    [result]. *)
Fixpoint store_up (n k : nat) (f : list Z -> nat -> option Z) (dst : list Z) (result : Z) : option (list Z * Z) :=
  match n with
  | O => Some (dst, result)
  | S n => v ← f dst k; _ ← dst !! k; store_up n (S k) f (<[k := v]> dst) (result .| v)
  end.

Definition __bitmap_complement (dst : list Z) (src : source) (nbits : Z) : option (list Z) :=
  let lim := Z.to_nat (nbits / B) in
  '(dst, _) ← store_up lim 0 (fun dst k => not_ <$> read src dst k) dst 0;
  if negb (nbits mod B =? 0) then
    w ← read src dst lim; update_word dst lim (fun _ => not_ w .& BITMAP_LAST_WORD_MASK nbits)
  else Some dst.

(** [dst[k] = op(bitmap1[k], bitmap2[k])] for all the words. *)
Definition combine (op : Z -> Z -> Z) (dst : list Z) (bitmap1 bitmap2 : source) (nbits : Z) : option (list Z * Z) :=
  store_up (Z.to_nat (BITS_TO_LONGS nbits)) 0
    (fun dst k => w1 ← read bitmap1 dst k; w2 ← read bitmap2 dst k; Some (op w1 w2)) dst 0.

Definition __bitmap_and (dst : list Z) (bitmap1 bitmap2 : source) (nbits : Z) : option (list Z * Z) :=
  '(dst, result) ← combine (fun w1 w2 => w1 .& w2) dst bitmap1 bitmap2 nbits;
  Some (dst, if negb (result =? 0) then 1 else 0).

Definition __bitmap_or (dst : list Z) (bitmap1 bitmap2 : source) (nbits : Z) : option (list Z) :=
  fst <$> combine (fun w1 w2 => w1 .| w2) dst bitmap1 bitmap2 nbits.

Definition __bitmap_xor (dst : list Z) (bitmap1 bitmap2 : source) (nbits : Z) : option (list Z) :=
  fst <$> combine (fun w1 w2 => w1 .^ w2) dst bitmap1 bitmap2 nbits.

Definition __bitmap_andnot (dst : list Z) (bitmap1 bitmap2 : source) (nbits : Z) : option (list Z * Z) :=
  '(dst, result) ← combine (fun w1 w2 => w1 .& not_ w2) dst bitmap1 bitmap2 nbits;
  Some (dst, if negb (result =? 0) then 1 else 0).

(** ** Shifts *)

(** [memset(&dst[at], 0, n * sizeof(unsigned long))] *)
Definition clear_words (dst : list Z) (at_ n : Z) : option (list Z) :=
  if (0 <=? at_) && (at_ + n <=? zlen dst)
  then Some (take (Z.to_nat at_) dst ++ replicate (Z.to_nat n) 0 ++ drop (Z.to_nat (at_ + n)) dst) else None.

(** [(1UL << left) - 1] *)
Definition left_mask (left : Z) : Z := ulong (ulong (1 .<< left) - 1).

(** The value stored in round [k] of [__bitmap_shift_right]. *)
Definition right_word (src : source) (lim left off rem : Z) (dst : list Z) (k : nat) : option Z :=
  let mask := left_mask left in
  let p := off + Z.of_nat k in
  upper ← (if (rem =? 0) || (lim <=? p + 1) then Some 0
           else w ← read src dst (Z.to_nat (p + 1));
                Some (if (p + 1 =? lim - 1) && negb (left =? 0) then w .& mask else w));
  lower ← read src dst (Z.to_nat p);
  let lower := if negb (left =? 0) && (p =? lim - 1) then lower .& mask else lower in
  let v := ulong (upper .<< (B - rem)) .| (lower .>> rem) in
  Some (if negb (left =? 0) && (Z.of_nat k =? lim - 1) then v .& mask else v).

Definition __bitmap_shift_right (dst : list Z) (src : source) (shift nbits : Z) : option (list Z) :=
  let lim := BITS_TO_LONGS nbits in
  let left := nbits mod B in
  let off := shift / B in
  let rem := shift mod B in
  '(dst, _) ← store_up (Z.to_nat (lim - off)) 0 (right_word src lim left off rem) dst 0;
  if negb (off =? 0) then clear_words dst (lim - off) off else Some dst.

(** The value stored at [dst[k + off]] in round [k] of [__bitmap_shift_left]. *)
Definition left_word (src : source) (lim left off rem : Z) (dst : list Z) (k : nat) : option Z :=
  lower ← (if negb (rem =? 0) && (0 <? Z.of_nat k) then read src dst (pred k) else Some 0);
  upper ← read src dst k;
  let upper := if negb (left =? 0) && (Z.of_nat k =? lim - 1) then upper .& left_mask left else upper in
  let v := (lower .>> (B - rem)) .| ulong (upper .<< rem) in
  Some (if negb (left =? 0) && (Z.of_nat k + off =? lim - 1) then v .& left_mask left else v).

(** [k] from [n - 1] down to 0. *)
Fixpoint store_down (n : nat) (off : nat) (f : list Z -> nat -> option Z) (dst : list Z) : option (list Z) :=
  match n with
  | O => Some dst
  | S k => v ← f dst k; _ ← dst !! (k + off)%nat; store_down k off f (<[(k + off)%nat := v]> dst)
  end.

Definition __bitmap_shift_left (dst : list Z) (src : source) (shift nbits : Z) : option (list Z) :=
  let lim := BITS_TO_LONGS nbits in
  let left := nbits mod B in
  let off := shift / B in
  let rem := shift mod B in
  dst ← store_down (Z.to_nat (lim - off)) (Z.to_nat off) (left_word src lim left off rem) dst;
  if negb (off =? 0) then clear_words dst 0 off else Some dst.

End code.

Section proofs.

Context `{LongWidth}.

Abbreviation B := BITS_PER_LONG.

(** ** Tests *)

Lemma any_word_spec n k test (t : nat -> bool) :
  (forall j, (k <= j < k + n)%nat -> test j = Some (t j)) ->
  exists b, any_word n k test = Some b /\ (b = true <-> exists j, (k <= j < k + n)%nat /\ t j = true).
Proof.
  revert k. induction n as [|n IH]; intros k Ht; cbn [any_word].
  { exists false. split; [done|]. split; [done|]. intros (j & Hj & _). lia. }
  rewrite (Ht k) by lia. cbn [mbind option_bind]. destruct (t k) eqn:E.
  { exists true. split; [done|]. split; [|done]. intros _. exists k. split; [lia|done]. }
  destruct (IH (S k)) as (b & -> & Hb); [intros j Hj; apply Ht; lia|]. exists b. split; [done|]. rewrite Hb.
  split; intros (j & Hj & Hjt); exists j; (split; [|done]); [lia|]. destruct (decide (j = k)) as [->|]; [congruence|lia].
Qed.

Lemma word_nonzero w : word_ok w -> negb (w =? 0) = true <-> exists j, 0 <= j < B /\ Z.testbit w j = true.
Proof.
  intros Hw. rewrite negb_true_iff, Z.eqb_neq. split.
  - intros Hn. destruct (decide (Exists (fun j => Z.testbit w (Z.of_nat j) = true) (seq 0 (Z.to_nat B)))) as [He|Hne].
    + apply Exists_exists in He as (j & Hj%in_seq & Hb). exists (Z.of_nat j). split; [lia|done].
    + exfalso. apply Hn. apply word_ext; [done|split; [lia|unfold word_ok in Hw; lia]|]. intros j Hj. rewrite Z.bits_0.
      destruct (Z.testbit w j) eqn:E; [|done]. exfalso. apply Hne, Exists_exists. exists (Z.to_nat j).
      split; [apply in_seq; lia|]. by rewrite Z2Nat.id by lia.
  - intros (j & Hj & Hb) ->. by rewrite Z.bits_0 in Hb.
Qed.

(** A number of bits in words and a rest. *)
Lemma bits_split nbits : 0 <= nbits ->
  0 <= nbits mod B < B /\ nbits = Z.of_nat (Z.to_nat (nbits / B)) * B + nbits mod B /\ (nbits mod B = 0 -> BITS_TO_LONGS nbits = nbits / B) /\
  (nbits mod B <> 0 -> BITS_TO_LONGS nbits = nbits / B + 1) /\ 0 <= nbits / B.
Proof.
  intros Hn. pose proof B_pos as HB. pose proof (Z.mod_pos_bound nbits B HB) as Hm. pose proof (Z.div_mod nbits B (not_eq_sym (Z.lt_neq _ _ HB))) as Hd.
  assert (0 <= nbits / B) by (apply Z.div_pos; lia). rewrite Z2Nat.id by done. unfold BITS_TO_LONGS.
  split_and!; [lia|lia|lia| | |done]; intros Hr.
  - replace (nbits + B - 1) with (B - 1 + nbits / B * B) by lia. rewrite Z.div_add, Z.div_small; lia.
  - replace (nbits + B - 1) with (nbits mod B - 1 + (nbits / B + 1) * B) by lia. rewrite Z.div_add, Z.div_small; lia.
Qed.

(** The words [g] have the bits [F], and the code reads them. *)
Definition words_read (n : Z) (test : nat -> option bool) (last : nat -> option Z) (g : nat -> Z) (F : Z -> bool) : Prop :=
  forall k, Z.of_nat k < n -> test k = Some (negb (g k =? 0)) /\ last k = Some (g k) /\ word_ok (g k) /\
    forall j, 0 <= j < B -> Z.testbit (g k) j = F (Z.of_nat k * B + j).

Lemma any_bit n test last g F :
  words_read n test last g F -> forall lim, Z.of_nat lim <= n ->
  exists b, any_word lim 0 test = Some b /\ (b = true <-> exists i, 0 <= i < Z.of_nat lim * B /\ F i = true).
Proof.
  intros Hg lim Hlim. destruct (any_word_spec lim 0 test (fun k => negb (g k =? 0))) as (b & -> & Hb); [intros j Hj; apply Hg; lia|].
  exists b. split; [done|]. rewrite Hb. split.
  - intros (k & Hk & Hw). destruct (Hg k) as (_ & _ & Hok & Hbits); [lia|].
    apply word_nonzero in Hw as (j & Hj & Hw); [|done]. exists (Z.of_nat k * B + j). rewrite <- Hbits by done. split; [nia|done].
  - intros (i & Hi & HF). assert (0 <= i) as Hi0 by lia. destruct (bits_split i Hi0) as (Him & Hid & _ & _ & Hiq). assert (HB := B_pos).
    assert (i / B < Z.of_nat lim) by (apply Z.div_lt_upper_bound; lia). exists (Z.to_nat (i / B)).
    destruct (Hg (Z.to_nat (i / B))) as (_ & _ & Hok & Hbits); [lia|].
    split; [lia|]. apply word_nonzero; [done|]. exists (i mod B). split; [done|]. rewrite Hbits, <- Hid by done. done.
Qed.

(** [words_test] finds the bits below [nbits]. *)
Lemma words_test_spec nbits test last g F :
  0 <= nbits -> words_read (BITS_TO_LONGS nbits) test last g F ->
  exists b, words_test nbits test last = Some b /\ (b = true <-> exists i, 0 <= i < nbits /\ F i = true).
Proof.
  intros Hn Hg. destruct (bits_split nbits Hn) as (Hm & Hs & Hl0 & Hl1 & Hq). unfold words_test. set (lim := Z.to_nat (nbits / B)) in *.
  assert (Z.of_nat lim = nbits / B) as El by (by apply Z2Nat.id).
  destruct (any_bit _ _ _ _ _ Hg lim) as (b & -> & Hwhole).
  { destruct (decide (nbits mod B = 0)) as [E|E]; [rewrite Hl0 by done|rewrite Hl1 by done]; lia. }
  cbn [mbind option_bind]. destruct b.
  { exists true. split; [done|]. split; [|done]. intros _. destruct (proj1 Hwhole eq_refl) as (i & Hi & HF). exists i. split; [lia|done]. }
  assert (forall i, 0 <= i < Z.of_nat lim * B -> F i = false) as Hnone.
  { intros i Hi. destruct (F i) eqn:E; [|done]. assert (false = true) by (apply Hwhole; by exists i). done. }
  destruct (Z.eqb_spec (nbits mod B) 0) as [E|E]; cbn [negb].
  { exists false. split; [done|]. split; [done|]. intros (i & Hi & HF). rewrite Hnone in HF; [done|lia]. }
  destruct (Hg lim) as (_ & -> & Hok & Hbits); [rewrite Hl1 by done; lia|]. cbn [mbind option_bind]. eexists. split; [done|].
  rewrite word_nonzero by (apply land_bound; [pose proof B_pos; lia|done|apply last_mask_ok]). split.
  - intros (j & Hj & Hjb). rewrite Z.land_spec, last_mask_bits, Hbits, andb_true_iff, Z.ltb_lt in Hjb by done.
    assert (0 <= Z.of_nat lim * B) by (pose proof B_pos; nia). exists (Z.of_nat lim * B + j). split; [lia|apply Hjb].
  - intros (i & Hi & HF). destruct (decide (i < Z.of_nat lim * B)); [rewrite Hnone in HF; [done|lia]|].
    exists (i - Z.of_nat lim * B). split; [lia|]. rewrite Z.land_spec, last_mask_bits, Hbits, andb_true_iff, Z.ltb_lt by lia.
    split; [|lia]. by replace (Z.of_nat lim * B + (i - Z.of_nat lim * B)) with i by lia.
Qed.

(** The words of one bitmap, and of two combined. *)
Lemma map_word m k : words_ok m -> Z.of_nat k < zlen m ->
  exists w, m !! k = Some w /\ word_ok w /\ forall j, 0 <= j < B -> Z.testbit w j = bit m (Z.of_nat k * B + j).
Proof.
  intros Hm Hk. destruct (word_lookup m k Hm) as (w & Hw & Hok); [lia|]. exists w. split; [done|]. split; [done|].
  intros j Hj. symmetry. by apply bit_word.
Qed.

(** An operation on two words that works bit by bit. *)
Definition bitwise (op : Z -> Z -> Z) (f : bool -> bool -> bool) : Prop :=
  forall x y, word_ok x -> word_ok y -> word_ok (op x y) /\
    forall j, 0 <= j < B -> Z.testbit (op x y) j = f (Z.testbit x j) (Z.testbit y j).

Lemma bitwise_and : bitwise (fun x y => x .& y) andb.
Proof. intros x y Hx Hy. split; [apply land_bound; [pose proof B_pos; lia|done|apply Hy]|]. intros j Hj. apply Z.land_spec. Qed.

Lemma bitwise_or : bitwise (fun x y => x .| y) orb.
Proof. intros x y Hx Hy. split; [apply lor_bound; [pose proof B_pos; lia|done|done]|]. intros j Hj. apply Z.lor_spec. Qed.

Lemma bitwise_xor : bitwise (fun x y => x .^ y) xorb.
Proof. intros x y Hx Hy. split; [apply lxor_bound; [pose proof B_pos; lia|done|done]|]. intros j Hj. apply Z.lxor_spec. Qed.

Lemma bitwise_andnot : bitwise (fun x y => x .& not_ y) (fun a b => a && negb b).
Proof.
  intros x y Hx Hy. destruct (bitwise_and x (not_ y) Hx (not_ok y Hy)) as [Hok Hb]. split; [done|]. intros j Hj.
  by rewrite Hb, not_bits.
Qed.

Lemma two_words op f m1 m2 nbits test :
  bitwise op f -> words_ok m1 -> words_ok m2 -> BITS_TO_LONGS nbits <= zlen m1 -> BITS_TO_LONGS nbits <= zlen m2 ->
  (forall k w1 w2, m1 !! k = Some w1 -> m2 !! k = Some w2 -> word_ok w1 -> word_ok w2 -> test k = Some (negb (op w1 w2 =? 0))) ->
  words_read (BITS_TO_LONGS nbits) test (fun k => w1 ← m1 !! k; w2 ← m2 !! k; Some (op w1 w2))
    (fun k => op (default 0 (m1 !! k)) (default 0 (m2 !! k))) (fun i => f (bit m1 i) (bit m2 i)).
Proof.
  intros Hop Hm1 Hm2 Hl1 Hl2 Ht k Hk. destruct (map_word m1 k) as (w1 & E1 & O1 & B1); [done|lia|].
  destruct (map_word m2 k) as (w2 & E2 & O2 & B2); [done|lia|]. destruct (Hop w1 w2 O1 O2) as [Hok Hb].
  rewrite (Ht k w1 w2), E1, E2 by done. cbn. split_and!; [done|done|done|]. intros j Hj. by rewrite Hb, B1, B2.
Qed.

Lemma xor_zero x y : word_ok x -> word_ok y -> (x .^ y =? 0) = (x =? y).
Proof.
  intros Hx Hy. apply eq_true_iff_eq. rewrite !Z.eqb_eq. apply Z.lxor_eq_0_iff.
Qed.

(** What a test says: all, or some, of the bits below [nbits]. *)
Definition all_below (nbits : Z) (F : Z -> bool) : Prop := forall i, 0 <= i < nbits -> F i = true.

Lemma none_found (b : bool) nbits F G :
  (b = true <-> exists i, 0 <= i < nbits /\ F i = true) -> (forall i, 0 <= i < nbits -> F i = negb (G i)) ->
  ((if b then 0 else 1) = 1 <-> all_below nbits G) /\ ((if b then 0 else 1) = 0 \/ (if b then 0 else 1) = 1).
Proof.
  intros Hb HG. split; [|destruct b; auto]. split.
  - intros E i Hi. destruct b; [done|]. destruct (G i) eqn:EG; [done|].
    assert (false = true); [|done]. apply Hb. exists i. by rewrite HG, EG.
  - intros Hall. destruct b; [|done]. destruct (proj1 Hb eq_refl) as (i & Hi & HF). by rewrite HG, Hall in HF.
Qed.

(** The tests answer for exactly the [nbits] bits of the bitmaps, whatever
    the unused bits of the last word are.  [__bitmap_empty] is 1 when all the bits are
    clear, [__bitmap_full] when all are set, [__bitmap_equal] when
    the two bitmaps agree, [__bitmap_subset] when every bit set in the first
    is set in the second, and [__bitmap_intersects] when some bit is set
    in both; else they are 0. *)
Theorem bitmap_tests_exact m1 m2 nbits :
  words_ok m1 -> words_ok m2 -> 0 <= nbits -> BITS_TO_LONGS nbits <= zlen m1 -> BITS_TO_LONGS nbits <= zlen m2 ->
  (exists r, __bitmap_empty m1 nbits = Some r /\ (r = 1 <-> all_below nbits (fun i => negb (bit m1 i))) /\ (r = 0 \/ r = 1)) /\
  (exists r, __bitmap_full m1 nbits = Some r /\ (r = 1 <-> all_below nbits (bit m1)) /\ (r = 0 \/ r = 1)) /\
  (exists r, __bitmap_equal m1 m2 nbits = Some r /\ (r = 1 <-> all_below nbits (fun i => eqb (bit m1 i) (bit m2 i))) /\ (r = 0 \/ r = 1)) /\
  (exists r, __bitmap_subset m1 m2 nbits = Some r /\ (r = 1 <-> all_below nbits (fun i => implb (bit m1 i) (bit m2 i))) /\ (r = 0 \/ r = 1)) /\
  (exists r, __bitmap_intersects m1 m2 nbits = Some r /\ (r = 1 <-> exists i, 0 <= i < nbits /\ bit m1 i = true /\ bit m2 i = true) /\
     (r = 0 \/ r = 1)).
Proof.
  intros Hm1 Hm2 Hn Hl1 Hl2. split_and!.
  - destruct (words_test_spec nbits (fun k => w ← m1 !! k; Some (negb (w =? 0))) (fun k => m1 !! k) (fun k => default 0 (m1 !! k)) (bit m1))
      as (b & E & Hb); [done| |].
    { intros k Hk. destruct (map_word m1 k) as (w & -> & Hok & Hbits); [done|lia|]. by split_and!. }
    unfold __bitmap_empty. rewrite E. eexists. split; [done|]. apply (none_found b nbits (bit m1)); [done|].
    intros i _. by rewrite negb_involutive.
  - destruct (words_test_spec nbits (fun k => w ← m1 !! k; Some (negb (not_ w =? 0))) (fun k => not_ <$> m1 !! k)
      (fun k => not_ (default 0 (m1 !! k))) (fun i => negb (bit m1 i))) as (b & E & Hb); [done| |].
    { intros k Hk. destruct (map_word m1 k) as (w & -> & Hok & Hbits); [done|lia|]. cbn. split_and!; [done|done|by apply not_ok|].
      intros j Hj. by rewrite not_bits, Hbits. }
    unfold __bitmap_full. rewrite E. eexists. split; [done|]. by apply (none_found b nbits (fun i => negb (bit m1 i))).
  - destruct (words_test_spec _ _ _ _ _ Hn (two_words (fun x y => x .^ y) xorb m1 m2 nbits
      (fun k => w1 ← m1 !! k; w2 ← m2 !! k; Some (negb (w1 =? w2))) bitwise_xor Hm1 Hm2 Hl1 Hl2
      ltac:(intros k w1 w2 E1 E2 ? ?; cbn beta; rewrite E1, E2; cbn; by rewrite xor_zero))) as (b & E & Hb).
    unfold __bitmap_equal. rewrite E. eexists. split; [done|]. apply (none_found b nbits _ _ Hb). intros i _.
    by destruct (bit m1 i), (bit m2 i).
  - destruct (words_test_spec _ _ _ _ _ Hn (two_words (fun x y => x .& not_ y) (fun a b => a && negb b) m1 m2 nbits
      (fun k => w1 ← m1 !! k; w2 ← m2 !! k; Some (negb (w1 .& not_ w2 =? 0))) bitwise_andnot Hm1 Hm2 Hl1 Hl2
      ltac:(intros k w1 w2 E1 E2 ? ?; cbn beta; by rewrite E1, E2))) as (b & E & Hb).
    unfold __bitmap_subset. rewrite E. eexists. split; [done|]. apply (none_found b nbits _ _ Hb). intros i _.
    by destruct (bit m1 i), (bit m2 i).
  - destruct (words_test_spec _ _ _ _ _ Hn (two_words (fun x y => x .& y) andb m1 m2 nbits
      (fun k => w1 ← m1 !! k; w2 ← m2 !! k; Some (negb (w1 .& w2 =? 0))) bitwise_and Hm1 Hm2 Hl1 Hl2
      ltac:(intros k w1 w2 E1 E2 ? ?; cbn beta; by rewrite E1, E2))) as (b & E & Hb).
    unfold __bitmap_intersects. rewrite E. eexists. split; [done|]. split; [|destruct b; auto].
    transitivity (b = true); [by destruct b|]. rewrite Hb. by setoid_rewrite andb_true_iff.
Qed.

(** ** Set operations *)

(** Round [j] may read the destination from word [j] on: it is still as it was. *)
Lemma store_up_spec n k f d0 res (g : nat -> Z) :
  (forall j d, (k <= j < k + n)%nat -> (forall i, (j <= i)%nat -> d !! i = d0 !! i) -> f d j = Some (g j)) ->
  (k + n <= length d0)%nat ->
  exists d' r, store_up n k f d0 res = Some (d', r) /\ length d' = length d0 /\
    (forall j, d' !! j = if decide (k <= j < k + n)%nat then Some (g j) else d0 !! j) /\
    (r = 0 <-> res = 0 /\ forall j, (k <= j < k + n)%nat -> g j = 0).
Proof.
  revert k d0 res. induction n as [|n IH]; intros k d0 res Hf Hl; cbn [store_up].
  { exists d0, res. split_and!; [done|done|intros j; by rewrite decide_False by lia|]. split; [intros ->; split; [done|lia]|by intros [-> _]]. }
  rewrite (Hf k d0) by (done || lia). cbn [mbind option_bind]. destruct (lookup_lt_is_Some_2 d0 k ltac:(lia)) as [w Hw].
  rewrite Hw. cbn [mbind option_bind].
  destruct (IH (S k) (<[k := g k]> d0) (res .| g k)) as (d' & r & -> & Hl' & Hd' & Hr).
  { intros j d Hj Hd. apply Hf; [lia|]. intros i Hi. rewrite Hd by lia. apply list_lookup_insert_ne. lia. }
  { rewrite length_insert. lia. }
  exists d', r. rewrite length_insert in Hl'. split_and!; [done|done| |].
  - intros j. rewrite Hd'. destruct (decide (j = k)) as [->|Hne].
    + rewrite decide_False, decide_True, list_lookup_insert_eq by lia. done.
    + rewrite list_lookup_insert_ne by lia. destruct (decide (k <= j < k + S n)%nat); [rewrite decide_True by lia|rewrite decide_False by lia]; done.
  - rewrite Hr, Z.lor_eq_0_iff. split.
    + intros [[-> E] Hg]. split; [done|]. intros j Hj. destruct (decide (j = k)) as [->|]; [done|apply Hg; lia].
    + intros [-> Hg]. split; [split; [done|apply Hg; lia]|]. intros j Hj. apply Hg. lia.
Qed.

Lemma read_same src d d0 j : d !! j = d0 !! j -> read src d j = default d0 src !! j.
Proof. unfold read. by destruct src. Qed.

(** [d'] is [d] with its first [n] bits made those of [F]. *)
Definition becomes (d : list Z) (n : Z) (F : Z -> bool) (d' : list Z) : Prop :=
  words_ok d' /\ length d' = length d /\ forall i, 0 <= i -> bit d' i = if i <? n then F i else bit d i.

Lemma becomes_words d n g F d' :
  words_ok d -> length d' = length d -> (n <= length d)%nat ->
  (forall j, d' !! j = if decide (j < n)%nat then Some (g j) else d !! j) ->
  (forall j, (j < n)%nat -> word_ok (g j) /\ forall b, 0 <= b < B -> Z.testbit (g j) b = F (Z.of_nat j * B + b)) ->
  becomes d (Z.of_nat n * B) F d'.
Proof.
  intros Hd Hl Hn Hd' Hg. split; [|split; [done|]].
  - apply Forall_lookup_2. intros j w Hj. rewrite Hd' in Hj. destruct (decide (j < n)%nat); [injection Hj as <-; by apply Hg|].
    exact (Forall_lookup_1 _ _ _ _ Hd Hj).
  - intros i Hi. destruct (bits_split i Hi) as (Hm & Hs & _ & _ & Hq). unfold bit. rewrite Hd'. set (p := Z.to_nat (i / B)) in *.
    pose proof B_pos. destruct (decide (p < n)%nat).
    + destruct (Hg p) as [_ Hb]; [done|]. rewrite (proj2 (Z.ltb_lt _ _)) by nia. cbn [default]. unfold default. cbn. by rewrite Hb, <- Hs.
    + rewrite (proj2 (Z.ltb_ge _ _)) by nia. done.
Qed.

(** The words [g] have the bits [F]. *)
Definition words_are (n : nat) (g : nat -> Z) (F : Z -> bool) : Prop :=
  forall j, (j < n)%nat -> word_ok (g j) /\ forall b, 0 <= b < B -> Z.testbit (g j) b = F (Z.of_nat j * B + b).

(** Not all the words are 0 when some bit is set. *)
Lemma words_nonzero n g F :
  words_are n g F -> ~ (forall j, (j < n)%nat -> g j = 0) <-> exists i, 0 <= i < Z.of_nat n * B /\ F i = true.
Proof.
  intros Hg. split.
  - intros Hne. destruct (decide (Exists (fun j => g j <> 0) (seq 0 n))) as [He|He].
    + apply Exists_exists in He as (j & Hj%in_seq & Hnz). destruct (Hg j) as (Hok & Hb); [lia|].
      destruct (proj1 (word_nonzero (g j) Hok)) as (b & Hbr & Hbt); [by rewrite negb_true_iff, Z.eqb_neq|].
      exists (Z.of_nat j * B + b). rewrite <- Hb by done. split; [nia|done].
    + exfalso. apply Hne. intros j Hj. destruct (decide (g j = 0)); [done|]. exfalso. apply He, Exists_exists.
      exists j. split; [apply in_seq; lia|done].
  - intros (i & Hi & HF) Hz. assert (0 <= i) as Hi0 by lia. destruct (bits_split i Hi0) as (Hm & Hs & _ & _ & Hq). pose proof B_pos.
    assert (i / B < Z.of_nat n) by (apply Z.div_lt_upper_bound; lia). destruct (Hg (Z.to_nat (i / B))) as (_ & Hb); [lia|].
    rewrite Hs, <- Hb, Hz, Z.bits_0 in HF by (done || lia). done.
Qed.

(** The sources of an operation on [n] words. *)
Definition source_ok (src : source) (dst : list Z) (n : Z) : Prop := words_ok (default dst src) /\ n <= zlen (default dst src).

Lemma longs_nonneg nbits : 0 <= nbits -> 0 <= BITS_TO_LONGS nbits.
Proof. intros Hn. apply Z.div_pos; pose proof B_pos; lia. Qed.

Lemma combine_spec op f dst src1 src2 nbits :
  bitwise op f -> 0 <= nbits -> words_ok dst -> BITS_TO_LONGS nbits <= zlen dst ->
  source_ok src1 dst (BITS_TO_LONGS nbits) -> source_ok src2 dst (BITS_TO_LONGS nbits) ->
  let F i := f (bit (default dst src1) i) (bit (default dst src2) i) in
  exists d' r, combine op dst src1 src2 nbits = Some (d', r) /\ becomes dst (BITS_TO_LONGS nbits * B) F d' /\
    (negb (r =? 0) = true <-> exists i, 0 <= i < BITS_TO_LONGS nbits * B /\ F i = true).
Proof.
  intros Hop Hn Hd Hl [Hm1 Hl1] [Hm2 Hl2] F. set (m1 := default dst src1) in *. set (m2 := default dst src2) in *.
  pose proof (longs_nonneg nbits Hn) as H0. unfold combine. set (n := Z.to_nat (BITS_TO_LONGS nbits)).
  set (g k := op (default 0 (m1 !! k)) (default 0 (m2 !! k))).
  assert (forall j, (j < n)%nat -> exists w1 w2, m1 !! j = Some w1 /\ m2 !! j = Some w2 /\ g j = op w1 w2 /\
    word_ok (g j) /\ forall b, 0 <= b < B -> Z.testbit (g j) b = F (Z.of_nat j * B + b)) as Hg.
  { intros j Hj. destruct (map_word m1 j) as (w1 & E1 & O1 & B1); [done|lia|]. destruct (map_word m2 j) as (w2 & E2 & O2 & B2); [done|lia|].
    destruct (Hop w1 w2 O1 O2) as [Hok Hb]. unfold g. exists w1, w2. rewrite E1, E2. cbn. split_and!; [done..|].
    intros b Hb'. unfold F. by rewrite Hb, B1, B2. }
  assert (words_are n g F) as Hw by (intros j Hj; destruct (Hg j Hj) as (w1 & w2 & _ & _ & _ & ?); done).
  destruct (store_up_spec n 0 (fun dst k => w1 ← read src1 dst k; w2 ← read src2 dst k; Some (op w1 w2)) dst 0 g)
    as (d' & r & -> & Hl' & Hd' & Hr); [|lia|].
  { intros j d Hj Hdj. destruct (Hg j) as (w1 & w2 & E1 & E2 & -> & _); [lia|].
    rewrite (read_same src1 d dst j), (read_same src2 d dst j) by (by apply Hdj). fold m1 m2. by rewrite E1, E2. }
  exists d', r. split; [done|]. rewrite <- (Z2Nat.id (BITS_TO_LONGS nbits)) by done. fold n. split.
  - apply (becomes_words dst n g); [done|done|lia| |done]. intros j. rewrite Hd'.
    destruct (decide (0 <= j < 0 + n)%nat), (decide (j < n)%nat); done || lia.
  - rewrite negb_true_iff, Z.eqb_neq, Hr, <- words_nonzero by done. split; intros Hne Hz; apply Hne.
    + split; [done|]. intros j Hj. apply Hz. lia.
    + intros j Hj. apply Hz. lia.
Qed.

(** The words that [__bitmap_complement] stores. *)
Definition complement_word (m : list Z) (nbits : Z) (k : nat) : Z :=
  let w := not_ (default 0 (m !! k)) in
  if decide (Z.of_nat k < nbits / B) then w else w .& BITMAP_LAST_WORD_MASK nbits.

Lemma complement_words m nbits :
  0 <= nbits -> words_ok m -> BITS_TO_LONGS nbits <= zlen m ->
  words_are (Z.to_nat (BITS_TO_LONGS nbits)) (complement_word m nbits) (fun i => (i <? nbits) && negb (bit m i)).
Proof.
  intros Hn Hm Hl j Hj. destruct (bits_split nbits Hn) as (Hr & Hs & Hl0 & Hl1 & Hq). rewrite Z2Nat.id in Hs by done. pose proof B_pos as HB.
  destruct (map_word m j) as (w & E & Hok & Hbits); [done|lia|]. unfold complement_word. rewrite E. cbn [default]. unfold default; cbn.
  pose proof (not_ok w Hok) as Hnw. destruct (decide (Z.of_nat j < nbits / B)) as [Hlt|Hge].
  - split; [done|]. intros b Hb. rewrite not_bits, Hbits, (proj2 (Z.ltb_lt _ _)) by (done || nia). done.
  - assert (nbits mod B <> 0) as Hne by (intros E0; rewrite (Hl0 E0) in Hj; lia). rewrite (Hl1 Hne) in Hj.
    assert (Z.of_nat j = nbits / B) as Ej by lia. split; [apply land_bound; [lia|done|apply last_mask_ok]|].
    intros b Hb. rewrite Z.land_spec, last_mask_bits, not_bits, Hbits, andb_comm by done. f_equal. apply eq_true_iff_eq.
    rewrite !Z.ltb_lt. rewrite Ej. lia.
Qed.

Lemma complement_spec dst src nbits :
  0 <= nbits -> words_ok dst -> BITS_TO_LONGS nbits <= zlen dst -> source_ok src dst (BITS_TO_LONGS nbits) ->
  exists d', __bitmap_complement dst src nbits = Some d' /\
    becomes dst (BITS_TO_LONGS nbits * B) (fun i => (i <? nbits) && negb (bit (default dst src) i)) d'.
Proof.
  intros Hn Hd Hl [Hm Hml]. destruct (bits_split nbits Hn) as (Hr & Hs & Hl0 & Hl1 & Hq). unfold __bitmap_complement.
  set (lim := Z.to_nat (nbits / B)) in *. set (m := default dst src) in *. assert (Z.of_nat lim = nbits / B) as El by (by apply Z2Nat.id).
  pose proof (complement_words m nbits Hn Hm Hml) as Hw.
  assert (Z.of_nat lim <= BITS_TO_LONGS nbits) as Hle.
  { destruct (decide (nbits mod B = 0)) as [E|E]; [rewrite Hl0 by done|rewrite Hl1 by done]; lia. }
  destruct (store_up_spec lim 0 (fun dst k => not_ <$> read src dst k) dst 0 (complement_word m nbits))
    as (d' & r & -> & Hl' & Hd' & _); [|lia|].
  { intros j d Hj Hdj. rewrite (read_same src d dst j) by (by apply Hdj). fold m. unfold complement_word. rewrite decide_True by lia.
    destruct (map_word m j) as (w & -> & _); [done|lia|]. done. }
  cbn [mbind option_bind]. rewrite <- (Z2Nat.id (BITS_TO_LONGS nbits)) by lia. destruct (Z.eqb_spec (nbits mod B) 0) as [E|E]; cbn [negb].
  - exists d'. split; [done|]. assert (Z.to_nat (BITS_TO_LONGS nbits) = lim) as En by (rewrite Hl0 by done; lia).
    rewrite En in *. eapply becomes_words; [done|done|lia| |exact Hw].
    intros j. rewrite Hd'. destruct (decide (0 <= j < 0 + lim)%nat), (decide (j < lim)%nat); done || lia.
  - assert (Z.to_nat (BITS_TO_LONGS nbits) = S lim) as En by (rewrite Hl1 by done; lia). rewrite En in *.
    rewrite (read_same src d' dst lim) by (rewrite Hd'; by rewrite decide_False by lia). fold m.
    destruct (map_word m lim) as (w & Em & _); [done|lia|]. rewrite Em. cbn [mbind option_bind]. unfold update_word.
    destruct (lookup_lt_is_Some_2 d' lim ltac:(lia)) as [v ->]. cbn [mbind option_bind]. eexists. split; [done|].
    eapply becomes_words; [done|by rewrite length_insert|lia| |exact Hw]. intros j. destruct (decide (j = lim)) as [->|].
    + rewrite list_lookup_insert_eq, decide_True by lia. unfold complement_word. rewrite decide_False, Em by lia. done.
    + rewrite list_lookup_insert_ne, Hd' by done. destruct (decide (0 <= j < 0 + lim)%nat), (decide (j < S lim)%nat); done || lia.
Qed.

(** The set operations work bit by bit, also when the destination is one of
    the sources.  [__bitmap_and], [__bitmap_or], [__bitmap_xor] and
    [__bitmap_andnot] give the destination the combined bits in all the words that
    [nbits] takes, the unused bits of the last one included;
    [__bitmap_complement] gives it the complement below [nbits] and clears the
    unused bits; later words stay.  The value that [__bitmap_and] and
    [__bitmap_andnot] return is 1 when some bit of the result is set, and counts
    the unused bits of the last word. *)
Theorem bitmap_set_operations_exact dst src1 src2 nbits :
  0 <= nbits -> words_ok dst -> BITS_TO_LONGS nbits <= zlen dst ->
  source_ok src1 dst (BITS_TO_LONGS nbits) -> source_ok src2 dst (BITS_TO_LONGS nbits) ->
  let a := bit (default dst src1) in
  let b := bit (default dst src2) in
  let len := BITS_TO_LONGS nbits * B in
  (exists d' r, __bitmap_and dst src1 src2 nbits = Some (d', r) /\ becomes dst len (fun i => a i && b i) d' /\
     (r = 1 <-> exists i, 0 <= i < len /\ a i && b i = true)) /\
  (exists d', __bitmap_or dst src1 src2 nbits = Some d' /\ becomes dst len (fun i => a i || b i) d') /\
  (exists d', __bitmap_xor dst src1 src2 nbits = Some d' /\ becomes dst len (fun i => xorb (a i) (b i)) d') /\
  (exists d' r, __bitmap_andnot dst src1 src2 nbits = Some (d', r) /\ becomes dst len (fun i => a i && negb (b i)) d' /\
     (r = 1 <-> exists i, 0 <= i < len /\ a i && negb (b i) = true)) /\
  (exists d', __bitmap_complement dst src1 nbits = Some d' /\ becomes dst len (fun i => (i <? nbits) && negb (a i)) d').
Proof.
  intros Hn Hd Hl H1 H2. cbv zeta. split_and!.
  - destruct (combine_spec _ _ dst src1 src2 nbits bitwise_and) as (d' & r & E & Hb & Hr); try done. unfold __bitmap_and. rewrite E.
    do 2 eexists. split; [done|]. split; [done|]. rewrite <- Hr. by destruct (negb _).
  - destruct (combine_spec _ _ dst src1 src2 nbits bitwise_or) as (d' & r & E & Hb & _); try done. unfold __bitmap_or. rewrite E. by exists d'.
  - destruct (combine_spec _ _ dst src1 src2 nbits bitwise_xor) as (d' & r & E & Hb & _); try done. unfold __bitmap_xor. rewrite E. by exists d'.
  - destruct (combine_spec _ _ dst src1 src2 nbits bitwise_andnot) as (d' & r & E & Hb & Hr); try done. unfold __bitmap_andnot. rewrite E.
    do 2 eexists. split; [done|]. split; [done|]. rewrite <- Hr. by destruct (negb _).
  - by apply complement_spec.
Qed.

(** ** Shifts *)

Lemma left_mask_eq left : 0 <= left < B -> left_mask left = 2 ^ left - 1.
Proof.
  intros Hl. unfold left_mask. rewrite Z.shiftl_1_l. assert (0 < 2 ^ left < 2 ^ B) by (split; [apply Z.pow_pos_nonneg|apply Z.pow_lt_mono_r]; lia).
  rewrite (ulong_id (2 ^ left)), ulong_id by (unfold word_ok; lia). done.
Qed.

Lemma left_mask_bits w left j : 0 <= left < B -> 0 <= j < B -> Z.testbit (w .& left_mask left) j = (j <? left) && Z.testbit w j.
Proof.
  intros Hl Hj. rewrite left_mask_eq, land_ones_mod by lia. destruct (Z.ltb_spec j left); cbn [andb].
  - by rewrite Z.mod_pow2_bits_low by lia.
  - by rewrite Z.mod_pow2_bits_high by lia.
Qed.

Lemma left_mask_ok w left : 0 <= left < B -> word_ok w -> word_ok (w .& left_mask left).
Proof. intros Hl Hw. apply land_bound; [lia|done|]. apply ulong_range. Qed.

(** Two words next to each other, moved down or up by [rem] bits. *)
Lemma down_bits upper lower rem j :
  word_ok upper -> word_ok lower -> 0 <= rem < B -> (rem = 0 -> upper = 0) -> 0 <= j < B ->
  Z.testbit (ulong (upper .<< (B - rem)) .| (lower .>> rem)) j =
  if j + rem <? B then Z.testbit lower (j + rem) else Z.testbit upper (j + rem - B).
Proof.
  intros Hu Hl Hr H0 Hj. rewrite Z.lor_spec, Z.shiftr_spec by lia. unfold ulong, uwrap. rewrite Z.mod_pow2_bits_low, Z.shiftl_spec by lia.
  replace (j - (B - rem)) with (j + rem - B) by lia. destruct (Z.ltb_spec (j + rem) B).
  - by rewrite (Z.testbit_neg_r upper) by lia.
  - rewrite (testbit_high lower B) by (done || lia). apply orb_false_r.
Qed.

Lemma up_bits lower upper rem j :
  word_ok lower -> word_ok upper -> 0 <= rem < B -> (rem = 0 -> lower = 0) -> 0 <= j < B ->
  Z.testbit ((lower .>> (B - rem)) .| ulong (upper .<< rem)) j =
  if rem <=? j then Z.testbit upper (j - rem) else Z.testbit lower (j - rem + B).
Proof.
  intros Hl Hu Hr H0 Hj. rewrite Z.lor_spec, Z.shiftr_spec by lia. unfold ulong, uwrap. rewrite Z.mod_pow2_bits_low, Z.shiftl_spec by lia.
  replace (j + (B - rem)) with (j - rem + B) by lia. destruct (Z.leb_spec rem j).
  - rewrite (testbit_high lower B) by (done || lia). done.
  - rewrite (Z.testbit_neg_r upper) by lia. apply orb_false_r.
Qed.

Lemma shifted_ok x y s t : word_ok y -> 0 <= t -> word_ok (ulong (x .<< s) .| (y .>> t)).
Proof.
  intros Hy Ht. apply lor_bound; [pose proof B_pos; lia|apply ulong_range|]. rewrite Z.shiftr_div_pow2 by done.
  assert (0 < 2 ^ t) by (apply Z.pow_pos_nonneg; lia). unfold word_ok in Hy.
  split; [apply Z.div_pos; lia|]. apply Z.div_lt_upper_bound; [lia|]. nia.
Qed.

Section shift.

Variables (m : list Z) (nbits shift : Z).
Hypothesis m_ok : words_ok m.
Hypothesis nbits_ok : 0 <= nbits.
Hypothesis m_len : BITS_TO_LONGS nbits <= zlen m.
Hypothesis shift_ok : 0 <= shift.

Let lim : Z := BITS_TO_LONGS nbits.
Let left : Z := nbits mod B.
Let off : Z := shift / B.
Let rem : Z := shift mod B.

(** The bits of the source that count. *)
Definition used (x : Z) : bool := (x <? nbits) && bit m x.

Lemma limits : 0 <= left < B /\ 0 <= rem < B /\ 0 <= off /\ shift = off * B + rem /\ 0 <= lim /\
  (left = 0 -> nbits = lim * B) /\ (left <> 0 -> nbits = (lim - 1) * B + left).
Proof.
  clear m m_ok m_len.
  pose proof B_pos as HB. destruct (bits_split nbits nbits_ok) as (H1 & H2 & H3 & H4 & H5). rewrite Z2Nat.id in H2 by done.
  destruct (bits_split shift shift_ok) as (S1 & S2 & _ & _ & S5). rewrite Z2Nat.id in S2 by done.
  fold left in H1, H2, H3, H4. fold lim in H3, H4. fold off in S2, S5. fold rem in S1, S2.
  pose proof (longs_nonneg nbits nbits_ok) as H0. fold lim in H0.
  split_and!; [lia|lia|lia|lia|lia|lia|lia| |]; intros E; [rewrite H3 by done|rewrite H4 by done]; lia.
Qed.

(** The mask on the last stored word clears its unused bits. *)
Lemma masked_store v q F :
  word_ok v -> 0 <= q < lim -> (forall j, 0 <= j < B -> Z.testbit v j = F (q * B + j)) ->
  let v' := if negb (left =? 0) && (q =? lim - 1) then v .& left_mask left else v in
  word_ok v' /\ forall j, 0 <= j < B -> Z.testbit v' j = (q * B + j <? nbits) && F (q * B + j).
Proof.
  intros Hv Hq Hb. destruct limits as (Hl & _ & _ & _ & _ & HL0 & HL1). cbv zeta.
  destruct (Z.eqb_spec left 0) as [E|E], (Z.eqb_spec q (lim - 1)) as [Eq|Eq]; cbn [negb andb].
  1,2,4: (split; [done|]; intros j Hj; rewrite Hb by done; rewrite (proj2 (Z.ltb_lt _ _)); [done|]).
  - rewrite HL0 by done. nia.
  - rewrite HL0 by done. nia.
  - rewrite HL1 by done. nia.
  - split; [by apply left_mask_ok|]. intros j Hj. rewrite left_mask_bits, Hb by done. f_equal.
    apply eq_true_iff_eq. rewrite !Z.ltb_lt, HL1, Eq by done. lia.
Qed.

(** A word of the source, its unused bits masked when it is the last. *)
Lemma used_word p w :
  m !! p = Some w -> word_ok w -> Z.of_nat p < lim ->
  let w' := if negb (left =? 0) && (Z.of_nat p =? lim - 1) then w .& left_mask left else w in
  word_ok w' /\ forall j, 0 <= j < B -> Z.testbit w' j = used (Z.of_nat p * B + j).
Proof. intros Hp Hw Hlt. apply (masked_store w (Z.of_nat p) (bit m)); [done|lia|]. intros j Hj. symmetry. by apply bit_word. Qed.

Lemma used_past x : nbits <= x -> used x = false.
Proof. intros Hx. unfold used. by rewrite (proj2 (Z.ltb_ge _ _)). Qed.

Lemma right_word_spec d k :
  off + Z.of_nat k < lim ->
  exists v, right_word (Some m) lim left off rem d k = Some v /\ word_ok v /\
    forall j, 0 <= j < B -> Z.testbit v j = used (Z.of_nat k * B + j + shift).
Proof.
  intros Hk. destruct limits as (Hl & Hr & Ho & Hs & Hlim & HL0 & HL1). unfold right_word, read. cbn [default]. unfold default; cbn [from_option id].
  set (p := off + Z.of_nat k). assert (forall q, 0 <= q < lim -> exists w, m !! Z.to_nat q = Some w /\ word_ok w) as Hword.
  { intros q Hq. destruct (map_word m (Z.to_nat q)) as (w & E & Hok & _); [done|fold lim in m_len; lia|]. by exists w. }
  assert (exists up, (if (rem =? 0) || (lim <=? p + 1) then Some 0
      else w ← m !! Z.to_nat (p + 1); Some (if (p + 1 =? lim - 1) && negb (left =? 0) then w .& left_mask left else w)) = Some up /\
    word_ok up /\ (rem = 0 -> up = 0) /\ forall j, 0 <= j < B -> rem <> 0 -> Z.testbit up j = used ((p + 1) * B + j)) as (up & -> & Hup & Hup0 & Hupb).
  { destruct (Z.eqb_spec rem 0) as [E|E], (Z.leb_spec lim (p + 1)) as [E'|E']; cbn [orb].
    1,2,3: exists 0; (split; [done|]); (split; [split; [done|apply Z.pow_pos_nonneg; pose proof B_pos; lia]|]); (split; [done|]);
      intros j Hj Hne; rewrite Z.bits_0; try done; symmetry; apply used_past.
    { destruct (decide (left = 0)); [rewrite HL0 by done|rewrite HL1 by done]; nia. }
    destruct (Hword (p + 1)) as (w & Ew & Hok); [lia|]. rewrite Ew. cbn [mbind option_bind]. rewrite andb_comm.
    pose proof (used_word _ w Ew Hok) as Hu. rewrite Z2Nat.id in Hu by lia. destruct (Hu E') as [U1 U2]. eexists.
    split; [done|]. split; [done|]. split; [done|]. intros j Hj _. by apply U2. }
  destruct (Hword p) as (w & Ew & Hok); [lia|]. rewrite Ew. cbn [mbind option_bind].
  pose proof (used_word _ w Ew Hok) as Hu. rewrite Z2Nat.id in Hu by lia. destruct (Hu Hk) as [L1 L2].
  set (lo := if negb (left =? 0) && (p =? lim - 1) then w .& left_mask left else w) in *.
  eexists. split; [done|].
  destruct (masked_store (ulong (up .<< (B - rem)) .| (lo .>> rem)) (Z.of_nat k) (fun x => used (x + shift))) as [M1 M2];
    [apply shifted_ok; [done|lia]|lia| |].
  - intros j Hj. rewrite down_bits by done. destruct (Z.ltb_spec (j + rem) B); [rewrite L2 by lia|rewrite Hupb by lia]; f_equal; lia.
  - split; [done|]. intros j Hj. rewrite M2 by done. destruct (Z.ltb_spec (Z.of_nat k * B + j) nbits); [done|].
    symmetry. apply used_past. lia.
Qed.

(** With the destination as its own source, the rounds before do not matter. *)
Lemma right_word_source src d0 d k :
  default d0 src = m -> (forall i, (k <= i)%nat -> d !! i = d0 !! i) ->
  right_word src lim left off rem d k = right_word (Some m) lim left off rem [] k.
Proof.
  intros Hm Hd. destruct limits as (_ & _ & Ho & _). unfold right_word. rewrite !(read_same src d d0), Hm by (apply Hd; lia). done.
Qed.

(** Where bit [x] of the result of a left shift comes from. *)
Definition moved_up (x : Z) : bool := (shift <=? x) && used (x - shift).

Lemma left_word_spec d k :
  off + Z.of_nat k < lim ->
  exists v, left_word (Some m) lim left off rem d k = Some v /\ word_ok v /\
    forall j, 0 <= j < B -> Z.testbit v j = ((Z.of_nat k + off) * B + j <? nbits) && moved_up ((Z.of_nat k + off) * B + j).
Proof.
  intros Hk. destruct limits as (Hl & Hr & Ho & Hs & Hlim & HL0 & HL1). unfold left_word, read. unfold default; cbn [from_option id].
  assert (forall q, Z.of_nat q < lim -> exists w, m !! q = Some w /\ word_ok w) as Hword.
  { intros q Hq. destruct (map_word m q) as (w & E & Hok & _); [done|fold lim in m_len; lia|]. by exists w. }
  assert (exists lo, (if negb (rem =? 0) && (0 <? Z.of_nat k) then m !! pred k else Some 0) = Some lo /\ word_ok lo /\ (rem = 0 -> lo = 0) /\
    forall j, 0 <= j < B -> rem <> 0 -> Z.testbit lo j = (0 <? Z.of_nat k) && used ((Z.of_nat k - 1) * B + j)) as (lo & -> & Hlo & Hlo0 & Hlob).
  { assert (word_ok 0) as H0 by (split; [done|apply Z.pow_pos_nonneg; pose proof B_pos; lia]).
    destruct (Z.eqb_spec rem 0) as [E|E], (Z.ltb_spec 0 (Z.of_nat k)) as [E'|E']; cbn [negb andb].
    1,2,4: exists 0; split_and!; [done|done|done|]; intros j Hj Hne; by rewrite Z.bits_0.
    destruct (Hword (pred k)) as (w & Ew & Hok); [lia|]. pose proof (used_word _ w Ew Hok) as Hu.
    replace (Z.of_nat (pred k)) with (Z.of_nat k - 1) in Hu by lia. rewrite (proj2 (Z.eqb_neq (_ - 1) _)), andb_false_r in Hu by lia.
    destruct Hu as [_ Hu]; [lia|]. exists w. split_and!; [done|done|done|]. intros j Hj _. by apply Hu. }
  cbn [mbind option_bind]. destruct (Hword k) as (w & Ew & Hok); [lia|]. rewrite Ew. cbn [mbind option_bind].
  destruct (used_word _ w Ew Hok) as [U1 U2]; [lia|].
  set (up := if negb (left =? 0) && (Z.of_nat k =? lim - 1) then w .& left_mask left else w) in *.
  eexists. split; [done|]. apply masked_store; [rewrite Z.lor_comm; apply shifted_ok; [done|lia]|lia|].
  intros j Hj. rewrite up_bits by done. unfold moved_up. destruct (Z.leb_spec rem j) as [Hge|Hlt].
  - rewrite U2, (proj2 (Z.leb_le _ _)) by nia. cbn [andb]. f_equal. lia.
  - rewrite Hlob by lia. destruct (Z.ltb_spec 0 (Z.of_nat k)); cbn [andb].
    + rewrite (proj2 (Z.leb_le _ _)) by nia. cbn [andb]. f_equal. lia.
    + rewrite (proj2 (Z.leb_gt _ _)) by nia. done.
Qed.

Lemma left_word_source src d0 d k :
  default d0 src = m -> (forall i, (i <= k)%nat -> d !! i = d0 !! i) ->
  left_word src lim left off rem d k = left_word (Some m) lim left off rem [] k.
Proof. intros Hm Hd. unfold left_word. rewrite !(read_same src d d0), Hm by (apply Hd; lia). done. Qed.

End shift.

(** Round [k] reads only words up to [k], which no earlier round wrote. *)
Lemma store_down_spec n off f d0 (g : nat -> Z) :
  (forall k d, (k < n)%nat -> (forall i, (i <= k + off)%nat -> d !! i = d0 !! i) -> f d k = Some (g k)) ->
  (n + off <= length d0)%nat ->
  exists d', store_down n off f d0 = Some d' /\ length d' = length d0 /\
    forall j, d' !! j = if decide (off <= j < off + n)%nat then Some (g (j - off)%nat) else d0 !! j.
Proof.
  revert d0. induction n as [|n IH]; intros d0 Hf Hl; cbn [store_down].
  { exists d0. split_and!; [done|done|]. intros j. by rewrite decide_False by lia. }
  rewrite (Hf n d0) by (done || lia). cbn [mbind option_bind]. destruct (lookup_lt_is_Some_2 d0 (n + off) ltac:(lia)) as [w ->].
  cbn [mbind option_bind]. destruct (IH (<[(n + off)%nat := g n]> d0)) as (d' & -> & Hl' & Hd').
  { intros k d Hk Hd. apply Hf; [lia|]. intros i Hi. rewrite Hd by lia. apply list_lookup_insert_ne. lia. }
  { rewrite length_insert. lia. }
  exists d'. rewrite length_insert in Hl'. split_and!; [done|done|]. intros j. rewrite Hd'. destruct (decide (j = n + off)%nat) as [->|Hne].
  - rewrite decide_False, decide_True, list_lookup_insert_eq by lia. do 2 f_equal. lia.
  - rewrite list_lookup_insert_ne by lia.
    destruct (decide (off <= j < off + S n)%nat); [rewrite decide_True by lia|rewrite decide_False by lia]; done.
Qed.

Lemma clear_words_spec d at_ n :
  0 <= at_ -> 0 <= n -> at_ + n <= zlen d ->
  exists d', clear_words d at_ n = Some d' /\ length d' = length d /\
    forall j, d' !! j = if decide (at_ <= Z.of_nat j < at_ + n) then Some 0 else d !! j.
Proof.
  intros Ha Hn Hl. unfold clear_words. rewrite (proj2 (Z.leb_le _ _)), (proj2 (Z.leb_le _ _)) by lia. cbn [andb]. eexists. split; [done|].
  split; [rewrite !length_app, length_take, length_replicate, length_drop; lia|]. intros j.
  destruct (decide (Z.of_nat j < at_)).
  - rewrite decide_False, lookup_app_l, lookup_take_lt by (rewrite ?length_take; lia). done.
  - rewrite lookup_app_r, length_take by (rewrite length_take; lia). destruct (decide (at_ <= Z.of_nat j < at_ + n)).
    + rewrite lookup_app_l, lookup_replicate_2 by (rewrite ?length_replicate; lia). done.
    + rewrite lookup_app_r, length_replicate, lookup_drop by (rewrite length_replicate; lia). f_equal. lia.
Qed.

(** [memset] where a shift leaves nothing to store; nothing when [off] is 0. *)
Lemma clear_rest d at_ n :
  0 <= at_ -> 0 <= n -> at_ + n <= zlen d ->
  exists d', (if negb (n =? 0) then clear_words d at_ n else Some d) = Some d' /\ length d' = length d /\
    forall j, d' !! j = if decide (at_ <= Z.of_nat j < at_ + n) then Some 0 else d !! j.
Proof.
  intros Ha Hn Hl. destruct (Z.eqb_spec n 0) as [->|]; cbn [negb]; [|by apply clear_words_spec].
  exists d. split_and!; [done|done|]. intros j. by rewrite decide_False by lia.
Qed.

Lemma shift_right_spec dst src shift nbits :
  0 <= nbits -> 0 <= shift -> shift / B <= BITS_TO_LONGS nbits -> words_ok dst -> BITS_TO_LONGS nbits <= zlen dst ->
  source_ok src dst (BITS_TO_LONGS nbits) ->
  exists d', __bitmap_shift_right dst src shift nbits = Some d' /\
    becomes dst (BITS_TO_LONGS nbits * B) (fun i => used (default dst src) nbits (i + shift)) d'.
Proof.
  intros Hn Hs Ho Hd Hl [Hm Hml]. set (m := default dst src) in *.
  destruct (limits nbits shift Hn Hs) as (Hleft & Hrem & Hoff & Hsh & Hlim & HL0 & HL1). unfold __bitmap_shift_right.
  set (lim := BITS_TO_LONGS nbits) in *. set (off := shift / B) in *. set (rem := shift mod B) in *. set (left := nbits mod B) in *.
  set (v k := default 0 (right_word (Some m) lim left off rem [] k)).
  destruct (store_up_spec (Z.to_nat (lim - off)) 0 (right_word src lim left off rem) dst 0 v) as (d1 & r & -> & Hl1 & Hd1 & _); [|lia|].
  { intros j d Hj Hdj. unfold lim, left, off, rem. rewrite (right_word_source m nbits shift Hn Hs src dst d j) by (done || (intros; by apply Hdj)).
    destruct (right_word_spec m nbits shift Hm Hn Hml Hs [] j) as (x & E & _); [lia|]. unfold v, lim, left, off, rem. by rewrite E. }
  cbn [mbind option_bind]. destruct (clear_rest d1 (lim - off) off) as (d2 & -> & Hl2 & Hd2); [lia|lia|lia|]. exists d2. split; [done|].
  rewrite <- (Z2Nat.id lim) by done.
  apply (becomes_words dst (Z.to_nat lim) (fun k => if decide (Z.of_nat k < lim - off) then v k else 0)); [done|congruence|lia| |].
  - intros j. rewrite Hd2, Hd1. destruct (decide (j < Z.to_nat lim)%nat), (decide (lim - off <= Z.of_nat j < lim - off + off)),
      (decide (0 <= j < 0 + Z.to_nat (lim - off))%nat), (decide (Z.of_nat j < lim - off)); done || lia.
  - intros j Hj. destruct (decide (Z.of_nat j < lim - off)).
    + destruct (right_word_spec m nbits shift Hm Hn Hml Hs [] j) as (x & E & Hx & Hb); [lia|]. unfold v, lim, left, off, rem. by rewrite E.
    + split; [split; [done|apply Z.pow_pos_nonneg; pose proof B_pos; lia]|]. intros b Hb. rewrite Z.bits_0. symmetry. apply used_past.
      destruct (decide (left = 0)); [rewrite HL0 by done|rewrite HL1 by done]; nia.
Qed.

Lemma shift_left_spec dst src shift nbits :
  0 <= nbits -> 0 <= shift -> shift / B <= BITS_TO_LONGS nbits -> words_ok dst -> BITS_TO_LONGS nbits <= zlen dst ->
  source_ok src dst (BITS_TO_LONGS nbits) ->
  exists d', __bitmap_shift_left dst src shift nbits = Some d' /\
    becomes dst (BITS_TO_LONGS nbits * B) (fun i => (i <? nbits) && moved_up (default dst src) nbits shift i) d'.
Proof.
  intros Hn Hs Ho Hd Hl [Hm Hml]. set (m := default dst src) in *.
  destruct (limits nbits shift Hn Hs) as (Hleft & Hrem & Hoff & Hsh & Hlim & HL0 & HL1). unfold __bitmap_shift_left.
  set (lim := BITS_TO_LONGS nbits) in *. set (off := shift / B) in *. set (rem := shift mod B) in *. set (left := nbits mod B) in *.
  set (v k := default 0 (left_word (Some m) lim left off rem [] k)).
  destruct (store_down_spec (Z.to_nat (lim - off)) (Z.to_nat off) (left_word src lim left off rem) dst v) as (d1 & -> & Hl1 & Hd1); [|lia|].
  { intros k d Hk Hdk. unfold lim, left, off, rem.
    rewrite (left_word_source m nbits shift src dst d k) by (done || (intros; apply Hdk; lia)).
    destruct (left_word_spec m nbits shift Hm Hn Hml Hs [] k) as (x & E & _); [lia|]. unfold v, lim, left, off, rem. by rewrite E. }
  cbn [mbind option_bind]. destruct (clear_rest d1 0 off) as (d2 & -> & Hl2 & Hd2); [lia|lia|lia|]. exists d2. split; [done|].
  rewrite <- (Z2Nat.id lim) by done.
  apply (becomes_words dst (Z.to_nat lim) (fun j => if decide (Z.of_nat j < off) then 0 else v (j - Z.to_nat off)%nat)); [done|congruence|lia| |].
  - intros j. rewrite Hd2, Hd1. destruct (decide (j < Z.to_nat lim)%nat), (decide (0 <= Z.of_nat j < 0 + off)),
      (decide (Z.to_nat off <= j < Z.to_nat off + Z.to_nat (lim - off))%nat), (decide (Z.of_nat j < off)); done || lia.
  - intros j Hj. destruct (decide (Z.of_nat j < off)).
    + split; [split; [done|apply Z.pow_pos_nonneg; pose proof B_pos; lia]|]. intros b Hb. rewrite Z.bits_0. unfold moved_up.
      rewrite (proj2 (Z.leb_gt _ _)) by nia. by rewrite andb_false_r.
    + destruct (left_word_spec m nbits shift Hm Hn Hml Hs [] (j - Z.to_nat off)) as (x & E & Hx & Hb); [lia|].
      change (left_word (Some m) lim left off rem [] (j - Z.to_nat off)%nat = Some x) in E. unfold v. rewrite E. cbn. split; [done|].
      intros b Hbr. rewrite Hb by done. fold off. by replace (Z.of_nat (j - Z.to_nat off) + off) with (Z.of_nat j) by lia.
Qed.

(** C23. The shifts move the bits, also in place.  With the destination
    separate or the same memory as the source, and a shift of at most the bitmap's
    words, [__bitmap_shift_right] gives bit [i] the source's bit
    [i + shift] when that is below [nbits], else 0; [__bitmap_shift_left] gives bit
    [i] below [nbits] the source's bit [i - shift], and 0 below [shift]; unused
    bits of the last word come out 0, and later words of the destination stay. *)
Theorem bitmap_shifts_exact dst src shift nbits :
  0 <= nbits -> 0 <= shift -> shift / B <= BITS_TO_LONGS nbits -> words_ok dst -> BITS_TO_LONGS nbits <= zlen dst ->
  source_ok src dst (BITS_TO_LONGS nbits) ->
  let a := bit (default dst src) in
  let len := BITS_TO_LONGS nbits * B in
  (exists d', __bitmap_shift_right dst src shift nbits = Some d' /\ becomes dst len (fun i => (i + shift <? nbits) && a (i + shift)) d') /\
  (exists d', __bitmap_shift_left dst src shift nbits = Some d' /\
     becomes dst len (fun i => (i <? nbits) && ((shift <=? i) && a (i - shift))) d').
Proof.
  intros Hn Hs Ho Hd Hl Hsrc. cbv zeta. split; [by apply shift_right_spec|].
  destruct (shift_left_spec dst src shift nbits Hn Hs Ho Hd Hl Hsrc) as (d' & E & W & L & Hb). exists d'. split; [done|].
  split; [done|]. split; [done|]. intros i Hi. rewrite Hb by done. destruct (_ <? _ * B); [|done]. unfold moved_up, used.
  destruct (Z.ltb_spec i nbits), (Z.leb_spec shift i); cbn [andb]; try done. by rewrite (proj2 (Z.ltb_lt _ _)) by lia.
Qed.

(** ** Weight *)

(** The number of [i] below [n] with [F i]. *)
Fixpoint count (n : nat) (F : Z -> bool) : Z :=
  match n with
  | O => 0
  | S n => count n F + Z.b2z (F (Z.of_nat n))
  end.

Lemma count_below n F : 0 <= count n F <= Z.of_nat n.
Proof. induction n as [|n IH]; cbn [count]; [lia|]. destruct (F _); cbn [Z.b2z]; lia. Qed.

Lemma count_ext n F G : (forall i, 0 <= i < Z.of_nat n -> F i = G i) -> count n F = count n G.
Proof. induction n as [|n IH]; intros He; cbn [count]; [done|]. rewrite IH, He by (intros; (apply He; lia) || lia). done. Qed.

Lemma count_none n : count n (fun _ => false) = 0.
Proof. induction n as [|n IH]; cbn [count]; [done|]. rewrite IH. done. Qed.

Lemma count_add a n F : count (a + n) F = count a F + count n (fun i => F (Z.of_nat a + i)).
Proof.
  induction n as [|n IH]; [cbn [count]; rewrite Nat.add_0_r; lia|]. rewrite Nat.add_succ_r. cbn [count]. rewrite IH, Nat2Z.inj_add. lia.
Qed.

Lemma popcount_count n w : popcount n w = count n (Z.testbit w).
Proof.
  revert w. induction n as [|n IH]; intros w; [done|]. cbn [popcount]. rewrite IH. change (S n) with (1 + n)%nat. rewrite count_add.
  cbn [count]. change (Z.of_nat 0) with 0. rewrite Z.add_0_l. f_equal. apply count_ext. intros i Hi. rewrite Z.div2_bits by lia. f_equal. lia.
Qed.

Lemma hweight_word w : word_ok w -> hweight_long w = count (Z.to_nat B) (Z.testbit w).
Proof. intros Hw. rewrite hweight_long_count by done. apply popcount_count. Qed.

Lemma weight_loop_spec m n k w :
  words_ok m -> (k + n <= length m)%nat -> 0 <= w -> w + Z.of_nat n * B < 2 ^ 31 ->
  weight_loop n k m w = Some (w + count (n * Z.to_nat B) (fun i => bit m (Z.of_nat k * B + i))).
Proof.
  intros Hm. revert k w. pose proof B_pos as HB. induction n as [|n IH]; intros k w Hl Hw Hb; cbn [weight_loop]; [f_equal; cbn; lia|].
  destruct (map_word m k) as (x & -> & Hok & Hbits); [done|lia|]. cbn [mbind option_bind]. rewrite hweight_word by done.
  pose proof (count_below (Z.to_nat B) (Z.testbit x)) as Hc. rewrite s32_small by nia. rewrite IH by (done || nia).
  f_equal. cbn [Nat.mul]. rewrite count_add, <- Z.add_assoc. f_equal. f_equal.
  - apply count_ext. intros i Hi. apply Hbits. lia.
  - apply count_ext. intros i Hi. f_equal. rewrite Z2Nat.id by lia. lia.
Qed.

(** [__bitmap_weight] is the number of set bits below [nbits], for
    bitmaps whose number of bits an [int] holds; unused bits of the last word
    do not count. *)
Theorem bitmap_weight_counts m nbits :
  words_ok m -> 0 <= nbits < 2 ^ 31 -> BITS_TO_LONGS nbits <= zlen m ->
  __bitmap_weight m nbits = Some (count (Z.to_nat nbits) (bit m)).
Proof.
  intros Hm Hn Hl. assert (0 <= nbits) as Hn0 by lia. destruct (bits_split nbits Hn0) as (Hr & Hs & Hl0 & Hl1 & Hq). pose proof B_pos as HB.
  unfold __bitmap_weight. set (lim := Z.to_nat (nbits / B)) in *. assert (Z.of_nat lim = nbits / B) as El by (by apply Z2Nat.id).
  assert (Z.to_nat nbits = lim * Z.to_nat B + Z.to_nat (nbits mod B))%nat as En
    by (apply Nat2Z.inj; rewrite Nat2Z.inj_add, Nat2Z.inj_mul, !Z2Nat.id by lia; lia).
  assert (Z.of_nat lim <= zlen m) as Hlim.
  { destruct (decide (nbits mod B = 0)) as [E|E]; [rewrite Hl0 in Hl by done|rewrite Hl1 in Hl by done]; lia. }
  rewrite (weight_loop_spec m lim 0 0) by (done || lia). cbn [mbind option_bind]. rewrite En, count_add, Z.add_0_l.
  assert (count (lim * Z.to_nat B) (fun i => bit m (Z.of_nat 0 * B + i)) = count (lim * Z.to_nat B) (bit m)) as ->
    by (apply count_ext; intros i Hi; f_equal; lia).
  destruct (Z.eqb_spec (nbits mod B) 0) as [E|E]; cbn [negb]; [rewrite E; change (Z.to_nat 0) with 0%nat; cbn [count]; by rewrite Z.add_0_r|].
  rewrite Hl1 in Hl by done. destruct (map_word m lim) as (x & -> & Hok & Hbits); [done|lia|]. cbn [mbind option_bind].
  rewrite hweight_word by (apply land_bound; [lia|done|apply last_mask_ok]).
  assert (count (Z.to_nat B) (Z.testbit (x .& BITMAP_LAST_WORD_MASK nbits)) =
    count (Z.to_nat (nbits mod B)) (fun i => bit m (Z.of_nat (lim * Z.to_nat B) + i))) as ->.
  { replace (Z.to_nat B) with (Z.to_nat (nbits mod B) + Z.to_nat (B - nbits mod B))%nat at 1 by lia. rewrite count_add.
    rewrite (count_ext (Z.to_nat (B - nbits mod B)) _ (fun _ => false)), count_none, Z.add_0_r.
    - apply count_ext. intros i Hi. rewrite Z.land_spec, last_mask_bits, (proj2 (Z.ltb_lt _ _)), andb_true_r, Hbits by lia. f_equal. lia.
    - intros i Hi. rewrite Z.land_spec, last_mask_bits, (proj2 (Z.ltb_ge _ _)) by lia. apply andb_false_r. }
  pose proof (count_below (lim * Z.to_nat B) (bit m)) as C1. rewrite Nat2Z.inj_mul, Z2Nat.id in C1 by lia.
  pose proof (count_below (Z.to_nat (nbits mod B)) (fun i => bit m (Z.of_nat (lim * Z.to_nat B) + i))) as C2. rewrite Z2Nat.id in C2 by lia.
  rewrite s32_small; [done|]. clear En Hbits. lia.
Qed.

End proofs.

Section witnesses.

#[local] Existing Instance long32.

Let m1 : list Z := [4042322160; 255].
Let m2 : list Z := [252645135; 256].

Lemma example_words : words_ok m1 /\ words_ok m2.
Proof. split; (repeat apply Forall_cons_2; [by vm_compute..|apply Forall_nil_2]). Qed.

Lemma bitmap_tests_exact_witness : exists r, __bitmap_intersects m1 m2 40 = Some r /\ (r = 0 \/ r = 1).
Proof.
  destruct example_words as [H1 H2].
  destruct (bitmap_tests_exact m1 m2 40) as (_ & _ & _ & _ & r & E & _ & Hr); [exact H1|exact H2|lia|by vm_compute|by vm_compute|].
  exists r. split; [exact E|exact Hr].
Defined.

(** In place: the destination is the first source. *)
Lemma bitmap_set_operations_exact_witness :
  exists d', __bitmap_or m1 None (Some m2) 40 = Some d' /\ becomes m1 64 (fun i => bit m1 i || bit m2 i) d'.
Proof.
  destruct example_words as [H1 H2].
  destruct (bitmap_set_operations_exact m1 None (Some m2) 40) as (_ & Hor & _);
    [lia|exact H1|by vm_compute|split; [exact H1|by vm_compute]|split; [exact H2|by vm_compute]|exact Hor].
Defined.

Lemma bitmap_shifts_exact_witness :
  exists d', __bitmap_shift_left m1 None 5 40 = Some d' /\
    becomes m1 64 (fun i => (i <? 40) && ((5 <=? i) && bit m1 (i - 5))) d'.
Proof.
  destruct example_words as [H1 H2].
  destruct (bitmap_shifts_exact m1 None 5 40) as [_ Hl];
    [lia|lia|by vm_compute|exact H1|by vm_compute|split; [exact H1|by vm_compute]|exact Hl].
Defined.

Lemma bitmap_weight_counts_witness : __bitmap_weight m1 40 = Some 24.
Proof. rewrite (bitmap_weight_counts m1 40); [by vm_compute|apply example_words|lia|by vm_compute]. Defined.

(** Two bitmaps of 40 bits that are empty, with the unused bit 40 set in their
    last words: [__bitmap_and] returns 1, [__bitmap_intersects] 0. *)
Lemma bitmap_and_unused_bits :
  __bitmap_and m2 (Some [0; 256]) (Some [0; 256]) 40 = Some ([0; 256], 1) /\ __bitmap_intersects [0; 256] [0; 256] 40 = Some 0 /\
  __bitmap_empty [0; 256] 40 = Some 1.
Proof. vm_compute. repeat split. Qed.

(** A shift by more words than the bitmap has writes outside of it. *)
Lemma bitmap_shift_outside : __bitmap_shift_right m1 None 96 40 = None /\ __bitmap_shift_left m1 None 96 40 = None.
Proof. vm_compute. split; reflexivity. Qed.

End witnesses.
