(* ===== verification/SilanSpi.v ===== *)
(** * The Silan SPI master and the SPI core calls the flash driver makes

    drivers/spi/silan_spi.c ([spi_send_cmd], [spi_write_data],
    [spi_read_data], [silan_spi_txrx]), the message loop of
    drivers/spi/spi_bitbang.c as this tree has it, and [spi_sync],
    [spi_write] and [spi_write_then_read] of drivers/spi/spi.c and
    include/linux/spi/spi.h.

    The controller is hardware: a register read returns [hw_read h off],
    an arbitrary function of the whole history [h] of register accesses, so
    that the model runs against every device.  What the driver relies on is
    in the class [SpiEnvOk]: a register that is polled becomes ready within
    [spin] reads, and the device has a clock rate.  [None] is an execution
    that never ends (a poll that is never answered) or that accesses a null
    pointer, freed memory or a byte outside of its block.

    The branches of the shipped configuration are modelled (little endian,
    CONFIG_MIPS_SILAN_DLNA).  [spi_fast_read] has no caller and the probe and
    remove functions only register the driver. *)

From S2P Require Import Prelude.
From Stdlib Require Import ZArith Lia.
From stdpp Require Import base numbers list option.

Local Open Scope Z_scope.

(** ** Registers (drivers/spi/silan_spi.h) *)

Definition RISC_ACCESS : Z := 1 .<< 4.
Definition PROGRAM_END : Z := 1 .<< 5.
Definition READY_FOR_NEXT : Z := 1 .<< 2.
Definition SPI_CTRL : Z := 0x00.
Definition SPI_CMD : Z := 0x100.
Definition SPI_DATA : Z := 0x300.
Definition SPI_STATUS : Z := 0x400.

(** ** Memory

    Every object that a transfer can point into is a block of bytes. *)

Inductive blk : Type :=
| BCommand           (* flash->command *)
| BUser              (* the caller's data buffer *)
| BCode              (* the local array code[] of a flash helper *)
| BVal               (* the local variable val of a flash helper *)
| BScratch           (* the static buf of drivers/spi/spi.c *)
| BKmalloc (n : nat) (* the n-th kmalloc of spi_write_then_read *).

#[global] Instance blk_eq_dec : EqDecision blk.
Proof. solve_decision. Defined.

Definition ptr : Type := option (blk * Z).

Definition ptr_add (p : ptr) (n : Z) : ptr := (fun bo => (bo.1, bo.2 + n)) <$> p.

(** ** Device history and state *)

Inductive access : Type :=
| Rd (off v : Z)
| Wr (off v : Z).

Record spi_st : Type := SpiSt {
  log : list access;      (* register accesses, oldest first *)
  mem : blk -> Z -> Z;
  hw_len : Z;             (* struct silan_spi *)
  hw_count : Z;
  hw_cmd : Z;
  buf_lock : bool;        (* the mutex of spi_write_then_read *)
  nalloc : nat;           (* kmalloc calls so far *)
  freed : list blk        (* blocks given to kfree, newest first *)
}.

Definition set_log (s : spi_st) l := SpiSt l (mem s) (hw_len s) (hw_count s) (hw_cmd s) (buf_lock s) (nalloc s) (freed s).
Definition set_mem (s : spi_st) m := SpiSt (log s) m (hw_len s) (hw_count s) (hw_cmd s) (buf_lock s) (nalloc s) (freed s).
Definition set_hw (s : spi_st) l c k := SpiSt (log s) (mem s) l c k (buf_lock s) (nalloc s) (freed s).
Definition set_heap (s : spi_st) b n f := SpiSt (log s) (mem s) (hw_len s) (hw_count s) (hw_cmd s) b n f.

(** The hardware and the platform. *)
Class SpiEnv := {
  hw_read : list access -> Z -> Z;     (* register read after a history *)
  spin : nat;                          (* bound on the reads of one poll *)
  jiffies : list access -> Z;          (* the tick counter after a history *)
  kmalloc_ok : nat -> bool;            (* whether the n-th kmalloc succeeds *)
  shl_sel_bank2 : Z;                   (* what [1<<SEL_BANK2] evaluates to *)
  max_speed_hz : Z;                    (* spi->max_speed_hz *)
  half_duplex : bool;                  (* SPI_MASTER_HALF_DUPLEX or SPI_3WIRE *)
  smp_cache_bytes : Z;                 (* SMP_CACHE_BYTES *)
  max_polls : nat;                     (* bound on the status reads of one wait *)
  command_room : Z;                    (* bytes of the slab object behind flash->command *)
  user_room : Z;                       (* bytes of the caller's data buffer *)
  shr_undef : Z -> Z -> Z              (* a shift by an amount outside 0..31 *)
}.

(** ** A state monad with failure *)

Definition M (A : Type) : Type := spi_st -> option (A * spi_st).
Definition ret {A} (x : A) : M A := fun s => Some (x, s).
Definition bindM {A B} (m : M A) (k : A -> M B) : M B := fun s => '(x, s') ← m s; k x s'.
Definition failM {A} : M A := fun _ => None.
Definition gets {A} (f : spi_st -> A) : M A := fun s => Some (f s, s).
Definition modify (f : spi_st -> spi_st) : M unit := fun s => Some (tt, f s).

#[global] Arguments ret : simpl never.
#[global] Arguments bindM : simpl never.
#[global] Arguments gets : simpl never.
#[global] Arguments modify : simpl never.

Declare Scope spi_scope.
Delimit Scope spi_scope with spi.
Notation "x <- m ;; k" := (bindM m (fun x => k)) (at level 100, m at next level, right associativity) : spi_scope.
Notation "m ;; k" := (bindM m (fun _ => k)) (at level 100, right associativity) : spi_scope.
Local Open Scope spi_scope.

Section spi.

Context {E : SpiEnv}.

(** ** Register and memory accesses *)

Definition readl (off : Z) : M Z := fun s =>
  let v := u32 (hw_read (log s) off) in Some (v, set_log s (log s ++ [Rd off v])).

Definition writel (v off : Z) : M unit := modify (fun s => set_log s (log s ++ [Wr off (u32 v)])).

Definition SPI_BUFSIZ : Z := 32 `max` smp_cache_bytes.

(** The bytes of a block; [kmalloc] may give more than it was asked for. *)
Definition blk_size (b : blk) : Z :=
  match b with
  | BCommand => command_room
  | BUser => user_room
  | BCode => 2
  | BVal => 1
  | BScratch | BKmalloc _ => SPI_BUFSIZ
  end.

Definition valid (s : spi_st) (b : blk) (o : Z) : bool :=
  negb (bool_decide (b ∈ freed s)) && (0 <=? o) && (o <? blk_size b).

(** A byte is read or written through a pointer; [None] where the pointer is
    null, its block was freed or the byte is outside of the block. *)
Definition load (p : ptr) : M Z := fun s =>
  '(b, o) ← p; if valid s b o then Some (u8 (mem s b o), s) else None.

Definition upd (m : blk -> Z -> Z) (b : blk) (o v : Z) : blk -> Z -> Z :=
  fun b' o' => if bool_decide (b' = b /\ o' = o) then v else m b' o'.

Definition store (p : ptr) (v : Z) : M unit := fun s =>
  '(b, o) ← p; if valid s b o then Some (tt, set_mem s (upd (mem s) b o (u8 v))) else None.

(** [memcpy(dst, src, n)], byte by byte. *)
Fixpoint memcpy (n : nat) (dst src : ptr) : M unit :=
  match n with
  | O => ret tt
  | S n' => v <- load src ;; store dst v ;; memcpy n' (ptr_add dst 1) (ptr_add src 1)
  end.

Definition kmalloc : M (option blk) := fun s =>
  let s' := set_heap s (buf_lock s) (S (nalloc s)) (freed s) in
  Some (if kmalloc_ok (nalloc s) then Some (BKmalloc (nalloc s)) else None, s').

(** [kfree]; [None] for a block that was freed before. *)
Definition kfree (b : blk) : M unit := fun s =>
  if bool_decide (b ∈ freed s) then None else Some (tt, set_heap s (buf_lock s) (nalloc s) (b :: freed s)).

(** ** The controller driver (drivers/spi/silan_spi.c) *)

Record spi_transfer : Type := Transfer { tx_buf : ptr; rx_buf : ptr; t_len : Z }.

(** [while((readl(hw->regs+SPI_STATUS) & READY_FOR_NEXT) != READY_FOR_NEXT);] *)
Fixpoint wait_ready_loop (n : nat) : M unit :=
  match n with
  | O => failM
  | S n' => v <- readl SPI_STATUS ;; if v .& READY_FOR_NEXT =? READY_FOR_NEXT then ret tt else wait_ready_loop n'
  end.

Definition wait_ready : M unit := wait_ready_loop spin.

Definition set_count (c : Z) : M unit := modify (fun s => set_hw s (hw_len s) (u32 c) (hw_cmd s)).

Definition spi_send_end_cmd : M unit := tmp <- readl SPI_CTRL ;; writel (tmp .| PROGRAM_END) SPI_CTRL.

(** [val = *t->tx_buf; writel(val, SPI_DATA); t->tx_buf++; hw->count++;] *)
Definition send_byte (t : spi_transfer) : M spi_transfer :=
  val <- load (tx_buf t) ;;
  writel val SPI_DATA ;;
  c <- gets hw_count ;;
  set_count (c + 1) ;;
  ret (Transfer (ptr_add (tx_buf t) 1) (rx_buf t) (t_len t)).

Fixpoint send_cmd_loop (n : nat) (t : spi_transfer) : M spi_transfer :=
  c <- gets hw_count ;; l <- gets hw_len ;;
  if c <? l then
    match n with
    | O => failM
    | S n' => wait_ready ;; t' <- send_byte t ;; send_cmd_loop n' t'
    end
  else ret t.

(** [last] is [t->transfer_list.next == head]. *)
Definition spi_send_cmd (t : spi_transfer) (last : bool) : M spi_transfer :=
  c <- gets hw_count ;; l <- gets hw_len ;;
  t1 <- (if c <? l then send_byte t else ret t) ;;
  cmd <- gets hw_cmd ;;
  writel cmd SPI_CMD ;;
  t2 <- send_cmd_loop (Z.to_nat l) t1 ;;
  (if l =? 0x2 then ret tt else wait_ready) ;;
  (if last then spi_send_end_cmd else ret tt) ;;
  ret t2.

Fixpoint write_data_loop (n : nat) (t : spi_transfer) : M spi_transfer :=
  c <- gets hw_count ;;
  if c <? t_len t then
    match n with
    | O => failM
    | S n' => t' <- send_byte t ;; wait_ready ;; write_data_loop n' t'
    end
  else ret t.

Definition spi_write_data (t : spi_transfer) : M spi_transfer :=
  t' <- write_data_loop (Z.to_nat (t_len t)) t ;; spi_send_end_cmd ;; ret t'.

Fixpoint read_data_loop (n : nat) (need_read : bool) (t : spi_transfer) : M spi_transfer :=
  c <- gets hw_count ;; l <- gets hw_len ;; cmd <- gets hw_cmd ;;
  if c <? t_len t then
    match n with
    | O => failM
    | S n' =>
      need' <- (if negb (l =? 0x1) || (cmd =? 0x603) then
                  if need_read then readl SPI_DATA ;; ret false else ret false
                else ret need_read) ;;
      wait_ready ;;
      v <- readl SPI_DATA ;;
      store (rx_buf t) (u8 v) ;;
      set_count (c + 1) ;;
      (if u32 (c + 1) =? t_len t then spi_send_end_cmd else ret tt) ;;
      read_data_loop n' need' (Transfer (tx_buf t) (ptr_add (rx_buf t) 1) (t_len t))
    end
  else ret t.

Definition spi_read_data (t : spi_transfer) : M spi_transfer :=
  modify (fun s => set_hw s (hw_len s) (hw_count s) (hw_cmd s .& (2 ^ 16 - 1 - 2 ^ 8))) ;;
  cmd <- gets hw_cmd ;;
  writel cmd SPI_CMD ;;
  t' <- read_data_loop (Z.to_nat (t_len t)) true t ;;
  ret (Transfer (tx_buf t') (ptr_add (rx_buf t') (-1)) (t_len t')).

(** The loop [while(t->transfer_list.next != head)] over the later transfers. *)
Fixpoint txrx_rest (rest : list spi_transfer) : M (list spi_transfer) :=
  match rest with
  | [] => ret []
  | t :: rest' =>
    set_count 0 ;;
    t1 <- (if bool_decide (rx_buf t = None) then ret t else spi_read_data t) ;;
    t2 <- (if bool_decide (tx_buf t1 = None) then ret t1 else spi_write_data t1) ;;
    r <- txrx_rest rest' ;;
    ret (t2 :: r)
  end.

(** The transfers are mutable: the function returns [hw->count] and the
    message's transfers as it leaves them. *)
Definition silan_spi_txrx (t : spi_transfer) (rest : list spi_transfer) : M (Z * list spi_transfer) :=
  modify (fun s => set_hw s (u32 (t_len t)) 0 (hw_cmd s)) ;;
  if bool_decide (tx_buf t = None) then ret (0, t :: rest) else
  b0 <- load (tx_buf t) ;; b1 <- load (ptr_add (tx_buf t) 1) ;;
  modify (fun s => set_hw s (hw_len s) 2 (b0 .| (b1 .<< 8))) ;;
  tmp <- readl SPI_CTRL ;;
  writel (((tmp .| RISC_ACCESS) .& Z.lnot shl_sel_bank2) .& Z.lnot (1 .<< 9)) SPI_CTRL ;;
  let t0 := Transfer (ptr_add (tx_buf t) 2) (rx_buf t) (t_len t) in
  let last := bool_decide (rest = []) in
  l <- gets hw_len ;; c <- gets hw_count ;;
  t1 <- (if c <? l then spi_send_cmd t0 last else ret t0) ;;
  c <- gets hw_count ;;
  t2 <- (if last && (c =? l) then spi_send_cmd t1 last else ret t1) ;;
  r <- txrx_rest rest ;;
  c <- gets hw_count ;;
  ret (s32 c, t2 :: r).

(** ** The SPI core (drivers/spi/spi_bitbang.c, drivers/spi/spi.c) *)

Definition ENETDOWN : Z := 100.

(** One message of [bitbang_work]: status, [actual_length] and the transfers.
    The loop over the transfers always stops at the first: the [break] that
    follows [m->actual_length += status] is not part of the [if]. *)
Definition bitbang_work (msg : list spi_transfer) : M (Z * Z * list spi_transfer) :=
  match msg with
  | [] => ret (0, 0, [])
  | t :: rest =>
    if bool_decide (tx_buf t = None) && bool_decide (rx_buf t = None) && negb (t_len t =? 0)
    then ret (- EINVAL, 0, msg)
    else if t_len t =? 0 then ret (0, 0, msg)
    else r <- silan_spi_txrx t rest ;; ret (r.1, if 0 <? r.1 then r.1 else 0, r.2)
  end.

(** [__spi_async] and [spi_bitbang_transfer], then the completion of the work. *)
Definition spi_sync (msg : list spi_transfer) : M (Z * Z * list spi_transfer) :=
  if half_duplex && existsb (fun t => negb (bool_decide (tx_buf t = None)) && negb (bool_decide (rx_buf t = None))) msg
  then ret (- EINVAL, 0, msg)
  else if max_speed_hz =? 0 then ret (- ENETDOWN, 0, msg)
  else bitbang_work msg.

Definition spi_write (p : ptr) (n : Z) : M Z :=
  r <- spi_sync [Transfer p None n] ;; ret r.1.1.

Definition mutex_trylock : M bool := fun s =>
  Some (negb (buf_lock s), set_heap s true (nalloc s) (freed s)).

Definition mutex_unlock : M unit := modify (fun s => set_heap s false (nalloc s) (freed s)).

(** The preallocated buffer, unless someone else is using it. *)
Definition scratch : M (option blk) :=
  got <- mutex_trylock ;; (if got : bool then ret (Some BScratch) else kmalloc).

Definition spi_write_then_read (txbuf : ptr) (n_tx : Z) (rxbuf : ptr) (n_rx : Z) : M Z :=
  if SPI_BUFSIZ <? u32 (n_tx + n_rx) then ret (- EINVAL) else
  local_buf <- scratch ;;
  match local_buf with
  | None => ret (- ENOMEM)
  | Some b =>
    memcpy (Z.to_nat n_tx) (Some (b, 0)) txbuf ;;
    let x0 := Transfer (Some (b, 0)) None n_tx in
    let x1 := Transfer None (Some (b, n_tx)) n_rx in
    r <- spi_sync ((if n_tx =? 0 then [] else [x0]) ++ (if n_rx =? 0 then [] else [x1])) ;;
    let x0' := if n_tx =? 0 then x0 else default x0 (r.2 !! 0%nat) in
    let x1' := if n_rx =? 0 then x1 else default x1 (r.2 !! (if n_tx =? 0 then 0%nat else 1%nat)) in
    memcpy (Z.to_nat n_rx) rxbuf (rx_buf x1') ;;
    (if bool_decide (tx_buf x0' = Some (BScratch, 0)) then mutex_unlock else kfree b) ;;
    ret 0
  end.

(** ** What the driver relies on *)

(** The history after [k] more reads of the status register. *)
Fixpoint polls (k : nat) (h : list access) : list access :=
  match k with
  | O => h
  | S k' => let h' := polls k' h in h' ++ [Rd SPI_STATUS (u32 (hw_read h' SPI_STATUS))]
  end.

Class SpiEnvOk : Prop := {
  hw_ready h : exists k, (k < spin)%nat /\
    u32 (hw_read (polls k h) SPI_STATUS) .& READY_FOR_NEXT = READY_FOR_NEXT;
  has_clock : max_speed_hz <> 0
}.

(** ** The wire

    A transaction is the commands and the data bytes written to the
    controller until a control word with [PROGRAM_END]; [w_reads] counts the
    reads of the data register since the last command. *)

Definition txn : Type := list Z * list Z.

Record wire : Type := Wire { w_txns : list txn; w_cmds : list Z; w_data : list Z; w_reads : nat }.

Definition wire_step (w : wire) (a : access) : wire :=
  match a with
  | Wr off v =>
    if off =? SPI_CMD then Wire (w_txns w) (w_cmds w ++ [v]) (w_data w) 0
    else if off =? SPI_DATA then Wire (w_txns w) (w_cmds w) (w_data w ++ [v]) (w_reads w)
    else if (off =? SPI_CTRL) && Z.testbit v 5 && negb (bool_decide (w_cmds w = []))
    then Wire (w_txns w ++ [(w_cmds w, w_data w)]) [] [] 0
    else w
  | Rd off _ => if off =? SPI_DATA then Wire (w_txns w) (w_cmds w) (w_data w) (S (w_reads w)) else w
  end.

Definition wire_of (h : list access) : wire := foldl wire_step (Wire [] [] [] 0) h.

Definition quiet (l : list access) : Prop := Forall (fun a => exists v, a = Rd SPI_STATUS v) l.

Lemma wire_of_app h l : wire_of (h ++ l) = foldl wire_step (wire_of h) l.
Proof. apply foldl_app. Qed.

Lemma wire_quiet l w : quiet l -> foldl wire_step w l = w.
Proof. intros Hl. revert w. induction Hl as [|a l [v ->] _ IH]; intros w; [done|apply IH]. Qed.

(** ** Memory lemmas *)

(** The [n] bytes at [(b, o)], and memory with bytes written there. *)
Fixpoint bytes (m : blk -> Z -> Z) (b : blk) (o : Z) (n : nat) : list Z :=
  match n with
  | O => []
  | S n' => u8 (m b o) :: bytes m b (o + 1) n'
  end.

Fixpoint upds (m : blk -> Z -> Z) (b : blk) (o : Z) (vs : list Z) : blk -> Z -> Z :=
  match vs with
  | [] => m
  | v :: vs' => upds (upd m b o (u8 v)) b (o + 1) vs'
  end.

Lemma upd_eq m b o v : upd m b o v b o = v.
Proof. unfold upd. by rewrite bool_decide_eq_true_2. Qed.

Lemma upd_ne m b o v b' o' : b' <> b \/ o' <> o -> upd m b o v b' o' = m b' o'.
Proof. intros H. unfold upd. rewrite bool_decide_eq_false_2; [done|]. intros [-> ->]. by destruct H. Qed.

Lemma upds_lookup vs : forall m b o b' o', upds m b o vs b' o' =
  if bool_decide (b' = b /\ o <= o' < o + zlen vs) then u8 (znth vs (o' - o)) else m b' o'.
Proof.
  induction vs as [|v vs IH]; intros m b o b' o'; cbn [upds length].
  - rewrite bool_decide_eq_false_2; [done|intros [_ ?]; lia].
  - rewrite IH. unfold upd. destruct (decide (b' = b)) as [->|Hb].
    2: { rewrite !bool_decide_eq_false_2 by tauto. done. }
    destruct (decide (o' = o)) as [->|Ho].
    { rewrite (bool_decide_eq_false_2 (b = b /\ o + 1 <= _ < _)) by (intros [_ ?]; lia).
      rewrite !bool_decide_eq_true_2 by (split; [done|lia]). by rewrite Z.sub_diag. }
    rewrite (bool_decide_eq_false_2 (b = b /\ o' = o)) by tauto.
    case_bool_decide as H1; case_bool_decide as H2; [|destruct H2; split; [done|lia]|destruct H1; split; [done|lia]|done].
    f_equal. unfold znth. by replace (Z.to_nat (o' - o)) with (S (Z.to_nat (o' - (o + 1)))) by lia.
Qed.

Lemma upds_other vs m b o b' o' : b' <> b -> upds m b o vs b' o' = m b' o'.
Proof. intros. rewrite upds_lookup. rewrite bool_decide_eq_false_2; naive_solver. Qed.

Lemma bytes_length m b n : forall o, length (bytes m b o n) = n.
Proof. induction n as [|n IH]; intros o; cbn; [done|]. by rewrite IH. Qed.

Lemma bytes_app m b n k : forall o, bytes m b o (n + k) = bytes m b o n ++ bytes m b (o + Z.of_nat n) k.
Proof.
  induction n as [|n IH]; intros o; cbn [bytes Nat.add app]; [by rewrite Z.add_0_r|]. rewrite IH.
  by replace (o + 1 + Z.of_nat n) with (o + Z.of_nat (S n)) by lia.
Qed.

Lemma znth_bytes m b n : forall o i, 0 <= i < Z.of_nat n -> znth (bytes m b o n) i = u8 (m b (o + i)).
Proof.
  induction n as [|n IH]; intros o i Hi; [lia|]. cbn [bytes]. destruct (decide (i = 0)) as [->|Hne]; [by rewrite Z.add_0_r|].
  replace (znth _ i) with (znth (bytes m b (o + 1) n) (i - 1)); [rewrite IH by lia; do 2 f_equal; lia|].
  unfold znth. by replace (Z.to_nat i) with (S (Z.to_nat (i - 1))) by lia.
Qed.

Lemma u8_idem x : u8 (u8 x) = u8 x.
Proof. by apply uwrap_idem. Qed.

Lemma bytes_ext m m' b n : forall o, (forall i, o <= i < o + Z.of_nat n -> m b i = m' b i) -> bytes m b o n = bytes m' b o n.
Proof.
  induction n as [|n IH]; intros o Hm; cbn; [done|]. f_equal; [f_equal; apply Hm; lia|].
  apply IH. intros. apply Hm. lia.
Qed.

Lemma bytes_u8 m b n : forall o, Forall (fun v => 0 <= v < 256) (bytes m b o n).
Proof. induction n as [|n IH]; intros o; cbn; constructor; [apply u8_range|apply IH]. Qed.

Lemma bytes_upds m b vs : Forall (fun v => 0 <= v < 256) vs -> forall o, bytes (upds m b o vs) b o (length vs) = vs.
Proof.
  intros Hvs. revert m. induction Hvs as [|v vs Hv _ IH]; intros m o; cbn [bytes upds length]; [done|].
  f_equal; [|apply IH]. rewrite upds_lookup, bool_decide_eq_false_2 by (intros [_ ?]; lia).
  unfold upd. rewrite bool_decide_eq_true_2 by done. rewrite !u8_small; [done|lia|by rewrite u8_small by lia].
Qed.

(** ** Running the monad *)

#[local] Arguments blk_size : simpl never.
#[local] Arguments load : simpl never.
#[local] Arguments store : simpl never.
#[local] Arguments readl : simpl never.
#[local] Arguments writel : simpl never.
#[local] Arguments send_byte : simpl never.
#[local] Arguments wire_of : simpl never.

Lemma bind_eq {A B} (m : M A) (k : A -> M B) s x s' : m s = Some (x, s') -> bindM m k s = k x s'.
Proof. intros H. unfold bindM. by rewrite H. Qed.

Lemma bind_cong {A B} (m m' : M A) (k : A -> M B) s s' : m s = m' s' -> bindM m k s = bindM m' k s'.
Proof. intros H. unfold bindM. by rewrite H. Qed.

Lemma bind_gets {A B} (f : spi_st -> A) (k : A -> M B) s : bindM (gets f) k s = k (f s) s.
Proof. done. Qed.
Lemma bind_ret {A B} (x : A) (k : A -> M B) s : bindM (ret x) k s = k x s.
Proof. done. Qed.
Lemma bind_modify {B} f (k : unit -> M B) s : bindM (modify f) k s = k tt (f s).
Proof. done. Qed.
Lemma bind_readl {B} off (k : Z -> M B) s : bindM (readl off) k s =
  k (u32 (hw_read (log s) off)) (set_log s (log s ++ [Rd off (u32 (hw_read (log s) off))])).
Proof. done. Qed.
Lemma bind_writel {B} v off (k : unit -> M B) s : bindM (writel v off) k s = k tt (set_log s (log s ++ [Wr off (u32 v)])).
Proof. done. Qed.
Lemma valid_ok s b o : b ∉ freed s -> 0 <= o < blk_size b -> valid s b o = true.
Proof. intros Hb Ho. unfold valid. rewrite bool_decide_eq_false_2, (proj2 (Z.leb_le _ _)), (proj2 (Z.ltb_lt _ _)) by (done || lia). done. Qed.
Lemma load_ok b o s : b ∉ freed s -> 0 <= o < blk_size b -> load (Some (b, o)) s = Some (u8 (mem s b o), s).
Proof. intros Hb Ho. unfold load. cbn [mbind option_bind]. by rewrite valid_ok. Qed.
Lemma bind_load {B} b o (k : Z -> M B) s :
  b ∉ freed s -> 0 <= o < blk_size b -> bindM (load (Some (b, o))) k s = k (u8 (mem s b o)) s.
Proof. intros Hb Ho. by apply bind_eq, load_ok. Qed.
Lemma bind_store {B} b o v (k : unit -> M B) s :
  b ∉ freed s -> 0 <= o < blk_size b -> bindM (store (Some (b, o)) v) k s = k tt (set_mem s (upd (mem s) b o (u8 v))).
Proof. intros Hb Ho. apply bind_eq. unfold store. cbn [mbind option_bind]. by rewrite valid_ok. Qed.
Lemma bind_kfree {B} b (k : unit -> M B) s :
  b ∉ freed s -> bindM (kfree b) k s = k tt (set_heap s (buf_lock s) (nalloc s) (b :: freed s)).
Proof. intros Hb. apply bind_eq. unfold kfree. by rewrite bool_decide_eq_false_2. Qed.
Lemma bind_assoc {A B C} (m : M A) (k : A -> M B) (k' : B -> M C) s :
  bindM (bindM m k) k' s = bindM m (fun x => bindM (k x) k') s.
Proof. unfold bindM. by destruct (m s) as [[x s']|]. Qed.

Create Rewrite HintDb spi.
#[local] Hint Rewrite @bind_assoc @bind_gets @bind_ret @bind_modify @bind_readl @bind_writel : spi.
#[local] Hint Rewrite @bind_load @bind_store using (done || lia) : spi.

Ltac spi_run := repeat (autorewrite with spi; unfold set_log, set_mem, set_hw, set_heap; cbn [log mem hw_len hw_count hw_cmd
  buf_lock nalloc freed tx_buf rx_buf t_len ptr_add fmap option_fmap option_map fst snd]).

Lemma u8_u32 x : u32 (u8 x) = u8 x.
Proof. apply u32_small. pose proof (u8_range x). lia. Qed.

Context {EO : SpiEnvOk}.

Lemma wait_ready_loop_ok n : forall s k, (k < n)%nat ->
  u32 (hw_read (polls k (log s)) SPI_STATUS) .& READY_FOR_NEXT = READY_FOR_NEXT ->
  exists l, wait_ready_loop n s = Some (tt, set_log s (log s ++ l)) /\ quiet l /\ (length l <= n)%nat.
Proof.
  induction n as [|n IH]; intros [h m ln c cm lk na fr] k Hk Hr; [lia|]. cbn [wait_ready_loop]. spi_run. cbn in Hr.
  case_match eqn:Hv.
  - eexists. split; [done|]. split; [by repeat econstructor|cbn; lia].
  - apply Z.eqb_neq in Hv. destruct k as [|k]; [done|].
    assert (forall j, polls (S j) h = polls j (h ++ [Rd SPI_STATUS (u32 (hw_read h SPI_STATUS))])) as Hp.
    { induction j as [|j IHj]; [done|]. cbn [polls] in *. by rewrite IHj. }
    rewrite Hp in Hr. edestruct (IH (SpiSt (h ++ [Rd SPI_STATUS (u32 (hw_read h SPI_STATUS))]) m ln c cm lk na fr) k) as (l & Hl & Hq & Hn);
      [lia|exact Hr|]. exists (Rd SPI_STATUS (u32 (hw_read h SPI_STATUS)) :: l). rewrite Hl. cbn. rewrite <- app_assoc.
    split; [done|]. split; [constructor; [by eexists|done]|lia].
Qed.

Lemma wait_ready_ok s : exists l, wait_ready s = Some (tt, set_log s (log s ++ l)) /\ quiet l /\ (length l <= spin)%nat.
Proof. destruct (hw_ready (log s)) as (k & Hk & Hr). by eapply wait_ready_loop_ok. Qed.

Lemma send_byte_ok s t b o : tx_buf t = Some (b, o) -> b ∉ freed s -> 0 <= o < blk_size b ->
  send_byte t s = Some (Transfer (Some (b, o + 1)) (rx_buf t) (t_len t),
    set_hw (set_log s (log s ++ [Wr SPI_DATA (u8 (mem s b o))])) (hw_len s) (u32 (hw_count s + 1)) (hw_cmd s)).
Proof.
  intros Ht Hb Ho. destruct s, t. cbn in Ht, Hb. subst. unfold send_byte, set_count. spi_run. by rewrite u8_u32.
Qed.

(** A wire that has received data bytes. *)
Definition put (w : wire) (bs : list Z) : wire := Wire (w_txns w) (w_cmds w) (w_data w ++ bs) (w_reads w).

Lemma put_nil w : put w [] = w.
Proof. destruct w. unfold put. cbn. by rewrite app_nil_r. Qed.

Lemma put_put w bs cs : put (put w bs) cs = put w (bs ++ cs).
Proof. unfold put. cbn. by rewrite app_assoc. Qed.

Lemma send_cmd_loop_ok n : forall k s t b o, tx_buf t = Some (b, o) -> b ∉ freed s -> 0 <= o -> o + Z.of_nat n <= blk_size b ->
  hw_count s + Z.of_nat n = hw_len s -> hw_len s < 2 ^ 32 -> 0 <= hw_count s -> (n <= k)%nat ->
  exists l, send_cmd_loop k t s = Some (Transfer (Some (b, o + Z.of_nat n)) (rx_buf t) (t_len t),
      set_hw (set_log s (log s ++ l)) (hw_len s) (hw_len s) (hw_cmd s)) /\
    forall w, foldl wire_step w l = put w (bytes (mem s) b o n).
Proof.
  induction n as [|n IH]; intros k s t b o Ht Hb Ho Hob Hc Hl H0 Hk.
  - exists []. destruct s as [h m ln c cm lk na fr], t. cbn in *. subst tx_buf0. assert (c = ln) as -> by lia.
    rewrite Z.add_0_r, app_nil_r. split; [|intros; by rewrite put_nil].
    destruct k; unfold send_cmd_loop; spi_run; by rewrite Z.ltb_irrefl.
  - destruct k as [|k]; [lia|]. cbn [send_cmd_loop]. spi_run. rewrite (proj2 (Z.ltb_lt _ _)) by lia.
    destruct (wait_ready_ok s) as (q & Hq & Hquiet & _). rewrite (bind_eq _ _ _ _ _ Hq).
    erewrite bind_eq by (eapply send_byte_ok; [exact Ht|by destruct s|lia]).
    match goal with |- context [send_cmd_loop k ?t1 ?s1] => destruct (IH k s1 t1 b (o + 1)) as (l & Hrun & Hw) end;
      [done|by destruct s|lia|lia|destruct s; cbn in Hc, Hl, H0 |- *; rewrite u32_small; lia|by destruct s|destruct s; cbn in Hc, Hl, H0 |- *; rewrite u32_small; lia|lia|].
    rewrite Hrun. exists (q ++ Wr SPI_DATA (u8 (mem s b o)) :: l). destruct s; cbn in *. split.
    + rewrite <- !app_assoc. by replace (o + Z.of_nat (S n)) with (o + 1 + Z.of_nat n) by lia.
    + intros w. rewrite foldl_app, (wire_quiet q) by done. cbn [foldl]. rewrite Hw. apply put_put.
Qed.

Lemma write_data_loop_ok n : forall k s t b o, tx_buf t = Some (b, o) -> b ∉ freed s -> 0 <= o -> o + Z.of_nat n <= blk_size b ->
  hw_count s + Z.of_nat n = t_len t -> t_len t < 2 ^ 32 -> 0 <= hw_count s -> (n <= k)%nat ->
  exists l, write_data_loop k t s = Some (Transfer (Some (b, o + Z.of_nat n)) (rx_buf t) (t_len t),
      set_hw (set_log s (log s ++ l)) (hw_len s) (t_len t) (hw_cmd s)) /\
    forall w, foldl wire_step w l = put w (bytes (mem s) b o n).
Proof.
  induction n as [|n IH]; intros k s t b o Ht Hb Ho Hob Hc Hl H0 Hk.
  - exists []. destruct s as [h m ln c cm lk na fr], t as [tx rx tl]. cbn in *. subst tx. assert (c = tl) as -> by lia.
    rewrite Z.add_0_r, app_nil_r. split; [|intros; by rewrite put_nil].
    destruct k; unfold write_data_loop; spi_run; by rewrite Z.ltb_irrefl.
  - destruct k as [|k]; [lia|]. cbn [write_data_loop]. spi_run. rewrite (proj2 (Z.ltb_lt _ _)) by lia.
    erewrite bind_eq by (apply send_byte_ok; [exact Ht|exact Hb|lia]).
    match goal with |- context [bindM wait_ready _ ?s1] => destruct (wait_ready_ok s1) as (q & Hq & Hquiet & _) end.
    rewrite (bind_eq _ _ _ _ _ Hq).
    match goal with |- context [write_data_loop k ?t1 ?s1] => destruct (IH k s1 t1 b (o + 1)) as (l & Hrun & Hw) end;
      [done|by destruct s|lia|lia|destruct s; cbn in Hc, Hl, H0 |- *; rewrite u32_small; lia|by destruct s|destruct s; cbn in Hc, Hl, H0 |- *; rewrite u32_small; lia|lia|].
    rewrite Hrun. exists (Wr SPI_DATA (u8 (mem s b o)) :: q ++ l). destruct s; cbn in *. split.
    + rewrite <- !app_assoc. by replace (o + Z.of_nat (S n)) with (o + 1 + Z.of_nat n) by lia.
    + intros w. cbn [foldl]. rewrite foldl_app, (wire_quiet q), Hw by done. apply put_put.
Qed.

(** The accesses of [spi_send_end_cmd], and the transaction they close. *)
Definition end_accesses (h : list access) : list access :=
  let v := u32 (hw_read h SPI_CTRL) in [Rd SPI_CTRL v; Wr SPI_CTRL (u32 (v .| PROGRAM_END))].

Lemma spi_send_end_cmd_ok s : spi_send_end_cmd s = Some (tt, set_log s (log s ++ end_accesses (log s))).
Proof. destruct s. unfold spi_send_end_cmd. spi_run. unfold writel, modify. spi_run. by rewrite <- app_assoc. Qed.

Lemma program_end_bit v : Z.testbit (u32 (v .| PROGRAM_END)) 5 = true.
Proof.
  unfold u32, uwrap. rewrite Z.mod_pow2_bits_low, Z.lor_spec by lia. apply orb_true_r.
Qed.

Lemma wire_end h w : w_cmds w <> [] ->
  foldl wire_step w (end_accesses h) = Wire (w_txns w ++ [(w_cmds w, w_data w)]) [] [] 0.
Proof.
  intros Hc. unfold end_accesses. cbn [foldl wire_step]. change (SPI_CTRL =? SPI_CMD) with false.
  change (SPI_CTRL =? SPI_DATA) with false. change (SPI_CTRL =? SPI_CTRL) with true. cbn [andb].
  rewrite program_end_bit, bool_decide_eq_false_2 by done. done.
Qed.

Lemma read_data_iter k (need : bool) s t b o j T C D : rx_buf t = Some (b, o) -> b ∉ freed s -> 0 <= o < blk_size b -> C <> [] ->
  0 <= hw_count s < t_len t -> t_len t < 2 ^ 32 -> hw_len s <> 1 ->
  wire_of (log s) = Wire T C D (if need then 0%nat else S j) -> (need = true -> j = 0%nat) ->
  exists l v h, read_data_loop (S k) need t s = read_data_loop k false (Transfer (tx_buf t) (Some (b, o + 1)) (t_len t))
      (set_hw (set_mem (set_log s (log s ++ l)) (upd (mem s) b o (u8 v))) (hw_len s) (hw_count s + 1) (hw_cmd s)) /\
    (length l <= spin + 4)%nat /\ v = u8 (hw_read h SPI_DATA) /\ wire_of h = Wire T C D (S j) /\
    wire_of (log s ++ l) = if hw_count s + 1 =? t_len t then Wire (T ++ [(C, D)]) [] [] 0 else Wire T C D (S (S j)).
Proof.
  intros Ht Hb Ho HC Hc Hl H1 Hw Hj. destruct s as [h m ln c cm lk na fr], t as [tx rx tl]. cbn in *. subst rx.
  cbn [read_data_loop]. spi_run. rewrite (proj2 (Z.ltb_lt _ _)), (proj2 (Z.eqb_neq _ _) H1) by lia. cbn [negb orb].
  set (d := if need then [Rd SPI_DATA (u32 (hw_read h SPI_DATA))] else []).
  assert ((if need then readl SPI_DATA;; ret false else ret false) (SpiSt h m ln c cm lk na fr) = Some (false, SpiSt (h ++ d) m ln c cm lk na fr)) as Hd
    by (subst d; destruct need; [done|by rewrite app_nil_r]).
  rewrite (bind_eq _ _ _ _ _ Hd).
  destruct (wait_ready_ok (SpiSt (h ++ d) m ln c cm lk na fr)) as (q & Hq & Hquiet & Hlen). rewrite (bind_eq _ _ _ _ _ Hq).
  unfold set_count. spi_run. set (h1 := (h ++ d) ++ q).
  assert (wire_of h1 = Wire T C D (S j)) as Hw1.
  { unfold h1. rewrite !wire_of_app, (wire_quiet q), Hw by done. subst d. destruct need; [by rewrite Hj|done]. }
  set (e := Rd SPI_DATA (u32 (hw_read h1 SPI_DATA))). set (v := u8 (hw_read h1 SPI_DATA)).
  replace (u8 (u8 (u32 (hw_read h1 SPI_DATA)))) with (u8 v); cycle 1.
  { unfold v, u8, u32, uwrap. rewrite !Z.mod_mod by lia. symmetry. apply Z.mod_mod_divide. by exists (2 ^ 24). }
  rewrite u32_small by lia.
  set (f := if c + 1 =? tl then end_accesses (h1 ++ [e]) else []).
  assert (forall s, log s = h1 ++ [e] -> (if c + 1 =? tl then spi_send_end_cmd else ret tt) s = Some (tt, set_log s (log s ++ f))) as Hf.
  { intros s Hs. subst f. destr_if; [by rewrite spi_send_end_cmd_ok, Hs|]. destruct s. unfold set_log. cbn. by rewrite app_nil_r. }
  exists (d ++ q ++ [e] ++ f), v, h1. split; [|split; [|split; [done|split; [done|]]]].
  - erewrite bind_eq by (by apply Hf). unfold set_log, h1. cbn [log mem hw_len hw_count hw_cmd buf_lock nalloc freed].
    by rewrite <- !app_assoc.
  - unfold f, d. rewrite !length_app. destruct need, (c + 1 =? tl); cbn; lia.
  - replace (h ++ d ++ q ++ [e] ++ f) with ((h1 ++ [e]) ++ f) by (unfold h1; by rewrite <- !app_assoc).
    rewrite !wire_of_app, Hw1. unfold f. destr_if; [|done]. by rewrite wire_end.
Qed.

Lemma read_data_done k need s t : hw_count s = t_len t -> read_data_loop k need t s = Some (t, s).
Proof. intros Hc. destruct k; unfold read_data_loop; spi_run; by rewrite Hc, Z.ltb_irrefl. Qed.

(** [vs] is what [n] reads of the data register return in the transaction
    [(C, D)] after [T], from the read after [j] earlier ones. *)
Definition data_read (T : list txn) (C D : list Z) (j : nat) (vs : list Z) : Prop :=
  forall i v, vs !! i = Some v -> exists h, wire_of h = Wire T C D (S (j + i)) /\ v = u8 (hw_read h SPI_DATA).

Lemma read_data_loop_ok n : forall k (need : bool) s t b o j T C D, rx_buf t = Some (b, o) -> b ∉ freed s ->
  0 <= o -> o + Z.of_nat (S n) <= blk_size b -> C <> [] ->
  0 <= hw_count s -> hw_count s + Z.of_nat (S n) = t_len t -> t_len t < 2 ^ 32 -> hw_len s <> 1 ->
  wire_of (log s) = Wire T C D (if need then 0%nat else S j) -> (need = true -> j = 0%nat) -> (n < k)%nat ->
  exists l vs, read_data_loop k need t s = Some (Transfer (tx_buf t) (Some (b, o + Z.of_nat (S n))) (t_len t),
      set_hw (set_mem (set_log s (log s ++ l)) (upds (mem s) b o vs)) (hw_len s) (t_len t) (hw_cmd s)) /\
    length vs = S n /\ data_read T C D j vs /\ wire_of (log s ++ l) = Wire (T ++ [(C, D)]) [] [] 0 /\
    (length l <= S n * (spin + 4))%nat.
Proof.
  induction n as [|n IH]; intros k need s t b o j T C D Ht Hb Ho Hob HC H0 Hc Hl H1 Hw Hj Hk; (destruct k as [|k]; [lia|]);
    destruct (read_data_iter k need s t b o j T C D) as (l & v & h & Hrun & Hlen & Hv & Hh & Hw1); try done; try lia.
  - exists l, [v]. rewrite Hrun, read_data_done by (destruct s; cbn in *; lia). rewrite (proj2 (Z.eqb_eq _ _)) in Hw1 by lia.
    replace (hw_count s + 1) with (t_len t) by lia. split; [done|]. split; [done|]. split; [|split; [done|lia]].
    intros [|i] x Hx; [|done]. injection Hx as <-. exists h. by rewrite Nat.add_0_r.
  - rewrite (proj2 (Z.eqb_neq _ _)) in Hw1 by lia. rewrite Hrun.
    match goal with |- context [read_data_loop k false ?t1 ?s1] => destruct (IH k false s1 t1 b (o + 1) (S j) T C D) as (l' & vs & Hrun' & Hn & Hd & Hw' & Hlen') end;
      try done; try (destruct s; cbn in *; lia).
    exists (l ++ l'), (v :: vs). rewrite Hrun'. clear Hrun Hrun'. destruct s; cbn [log mem hw_len hw_count hw_cmd set_hw set_log set_mem tx_buf rx_buf t_len] in *.
    split; [|split; [cbn; lia|split; [|split]]].
    + rewrite <- app_assoc. cbn [upds]. by replace (o + Z.of_nat (S (S n))) with (o + 1 + Z.of_nat (S n)) by lia.
    + intros [|i] x Hx; [injection Hx as <-; exists h; by rewrite Nat.add_0_r|].
      destruct (Hd i x Hx) as (h' & Hh' & ->). exists h'. by replace (S (j + S i)) with (S (S j + i)) by lia.
    + by rewrite app_assoc.
    + rewrite length_app. lia.
Qed.

(** A wire that has received a command and data bytes, and one whose
    transaction was closed. *)
Definition command (w : wire) (cmd : Z) (bs : list Z) : wire := Wire (w_txns w) (w_cmds w ++ [cmd]) (w_data w ++ bs) 0.
Definition close (w : wire) : wire := Wire (w_txns w ++ [(w_cmds w, w_data w)]) [] [] 0.

Lemma maybe_wait_ok (c : bool) s : exists l, (if c then ret tt else wait_ready) s = Some (tt, set_log s (log s ++ l)) /\ quiet l.
Proof.
  destruct c; [exists []; destruct s; unfold set_log; cbn; rewrite app_nil_r; by split; [|constructor]|].
  destruct (wait_ready_ok s) as (l & Hl & Hq & _). by exists l.
Qed.

Lemma spi_send_cmd_ok k s t b o last : tx_buf t = Some (b, o) -> b ∉ freed s -> 0 <= o -> o + Z.of_nat k <= blk_size b ->
  0 <= hw_cmd s < 2 ^ 32 ->
  hw_count s + Z.of_nat k = hw_len s -> hw_len s < 2 ^ 32 -> 0 <= hw_count s ->
  exists l, spi_send_cmd t last s = Some (Transfer (Some (b, o + Z.of_nat k)) (rx_buf t) (t_len t),
      set_hw (set_log s (log s ++ l)) (hw_len s) (hw_len s) (hw_cmd s)) /\
    forall w, foldl wire_step w l = let w' := command w (hw_cmd s) (bytes (mem s) b o k) in if last then close w' else w'.
Proof.
  intros Ht Hb Ho Hob Hcmd Hc Hl H0. unfold spi_send_cmd. rewrite !bind_gets.
  assert (exists l1, (if hw_count s <? hw_len s then send_byte t else ret t) s =
    Some (Transfer (Some (b, o + Z.of_nat (k - (k - 1)))) (rx_buf t) (t_len t),
      set_hw (set_log s (log s ++ l1)) (hw_len s) (hw_len s - Z.of_nat (k - 1)) (hw_cmd s)) /\
    forall w, foldl wire_step w l1 = put w (bytes (mem s) b o (k - (k - 1)))) as (l1 & H1 & Hw1).
  { destruct k as [|k].
    - exists []. rewrite (proj2 (Z.ltb_ge _ _)) by lia. split; [|intros; by rewrite put_nil]. destruct s, t; cbn in *. subst tx_buf0.
      unfold set_hw, set_log. cbn. rewrite app_nil_r, Z.add_0_r. assert (hw_len0 = hw_count0) as -> by lia. by rewrite Z.sub_0_r.
    - exists [Wr SPI_DATA (u8 (mem s b o))]. rewrite (proj2 (Z.ltb_lt _ _)) by lia. replace (S k - (S k - 1))%nat with 1%nat by lia.
      split; [|done]. rewrite (send_byte_ok _ _ b o), u32_small by (done || lia). do 3 f_equal. lia. }
  rewrite (bind_eq _ _ _ _ _ H1), bind_gets, bind_writel.
  match goal with |- context [bindM (send_cmd_loop ?m ?t1) _ ?s1] =>
    destruct (send_cmd_loop_ok (k - 1) m s1 t1 b (o + Z.of_nat (k - (k - 1)))) as (l2 & H2 & Hw2) end;
    [done|by destruct s|lia|lia|destruct s; cbn in *; lia|by destruct s|destruct s; cbn in *; lia|destruct s; cbn in *; lia|].
  rewrite (bind_eq _ _ _ _ _ H2).
  match goal with |- context [bindM (if ?x then ret tt else wait_ready) _ ?s1] => destruct (maybe_wait_ok x s1) as (l3 & H3 & Hq) end.
  rewrite (bind_eq _ _ _ _ _ H3). clear H1 H2 H3. destruct s as [h m ln c cm lk na fr]. unfold set_hw, set_log in *. cbn in *.
  rewrite (u32_small cm) by lia. set (h3 := (((h ++ l1) ++ [Wr SPI_CMD cm]) ++ l2) ++ l3).
  exists (l1 ++ [Wr SPI_CMD cm] ++ l2 ++ l3 ++ (if last then end_accesses h3 else [])). split.
  - assert (forall s, log s = h3 -> (if last then spi_send_end_cmd else ret tt) s = Some (tt, set_log s (log s ++ if last then end_accesses h3 else []))) as Hf.
    { intros s Hs. destruct last; [by rewrite spi_send_end_cmd_ok, Hs|]. destruct s. unfold set_log. cbn. by rewrite app_nil_r. }
    erewrite bind_eq by (by apply Hf). unfold ret, set_log, h3. cbn. rewrite <- !app_assoc. cbn.
    by replace (o + Z.of_nat (k - (k - 1)) + Z.of_nat (k - 1)) with (o + Z.of_nat k) by lia.
  - intros w. rewrite !foldl_app, Hw1, Hw2, (wire_quiet l3) by done. cbn [foldl].
    replace (put (wire_step _ _) _) with (command w cm (bytes m b o k)); [destruct last; [apply wire_end; cbn; by destruct (w_cmds w)|done]|].
    replace k with (k - (k - 1) + (k - 1))%nat at 1 by lia. rewrite bytes_app. unfold command, put. cbn. by rewrite app_assoc.
Qed.

(** The command half-word at a pointer. *)
Definition cmd_half (m : blk -> Z -> Z) (b : blk) (o : Z) : Z := u8 (m b o) .| (u8 (m b (o + 1)) .<< 8).

Lemma cmd_half_range m b o : 0 <= cmd_half m b o < 2 ^ 16.
Proof.
  unfold cmd_half. pose proof (u8_range (m b o)). pose proof (u8_range (m b (o + 1))).
  rewrite lor_shiftl_add by lia. lia.
Qed.

(** What a message's first transfer, of [k] bytes after its command, does to
    the wire; [last] when it is the only one. *)
Definition head_wire (w : wire) (cmd : Z) (bs : list Z) (last : bool) : wire :=
  match last, bs with
  | true, [] => close (command w cmd [])
  | true, _ :: _ => close (command (close (command w cmd bs)) cmd [])
  | false, [] => w
  | false, _ :: _ => command w cmd bs
  end.

(** A control word before any command closes nothing. *)
Lemma wire_select r v w : w_cmds w = [] -> foldl wire_step w [Rd SPI_CTRL r; Wr SPI_CTRL v] = w.
Proof.
  intros Hw. cbn [foldl wire_step]. change (SPI_CTRL =? SPI_DATA) with false. change (SPI_CTRL =? SPI_CMD) with false.
  cbn [andb]. rewrite Hw, bool_decide_eq_true_2 by done. by rewrite andb_false_r.
Qed.

Lemma txrx_head_ok k s t rest b o : tx_buf t = Some (b, o) -> b ∉ freed s -> 0 <= o -> o + t_len t <= blk_size b -> t_len t = 2 + Z.of_nat k -> t_len t < 2 ^ 31 ->
  exists l, silan_spi_txrx t rest s =
      (r <- txrx_rest rest ;; c <- gets hw_count ;; ret (s32 c, Transfer (Some (b, o + t_len t)) (rx_buf t) (t_len t) :: r))
      (set_hw (set_log s (log s ++ l)) (t_len t) (t_len t) (cmd_half (mem s) b o)) /\
    (forall w, w_cmds w = [] -> foldl wire_step w l =
      head_wire w (cmd_half (mem s) b o) (bytes (mem s) b (o + 2) k) (bool_decide (rest = []))) /\
    (k = 0%nat -> rest <> [] -> length l = 2%nat).
Proof.
  intros Ht Hb Ho Hob Hn Hl. destruct t as [tx rx tl], s as [h m ln c cm lk na fr]. cbn in Ht, Hb, Hob, Hn, Hl. subst tx.
  unfold silan_spi_txrx. rewrite bind_modify. cbn [tx_buf]. rewrite bool_decide_eq_false_2 by done. spi_run.
  rewrite (u32_small tl) by lia. fold (cmd_half m b o). pose proof (cmd_half_range m b o) as Hh.
  set (ctrl := [Rd SPI_CTRL (u32 (hw_read h SPI_CTRL)); Wr SPI_CTRL (u32 (((u32 (hw_read h SPI_CTRL) .| RISC_ACCESS) .& Z.lnot shl_sel_bank2) .& Z.lnot (1 .<< 9)))]).
  replace ((h ++ _) ++ _) with (h ++ ctrl) by (by rewrite <- app_assoc).
  assert (forall w, w_cmds w = [] -> foldl wire_step w ctrl = w) as Hctrl by (intros w; apply wire_select).
  set (last := bool_decide (rest = [])).
  assert (forall j s' o', b ∉ freed s' -> 0 <= o' -> o' + Z.of_nat j <= blk_size b -> hw_cmd s' = cmd_half m b o -> hw_count s' + Z.of_nat j = tl -> hw_len s' = tl -> 0 <= hw_count s' ->
    exists l, spi_send_cmd (Transfer (Some (b, o')) rx tl) last s' = Some (Transfer (Some (b, o' + Z.of_nat j)) rx tl,
      set_hw (set_log s' (log s' ++ l)) tl tl (cmd_half m b o)) /\
    forall w, foldl wire_step w l = let w' := command w (cmd_half m b o) (bytes (mem s') b o' j) in if last then close w' else w') as Hsend.
  { intros j s' o' Hf Ho1 Ho2 Hc' Hj Hl' H0. destruct (spi_send_cmd_ok j s' (Transfer (Some (b, o')) rx tl) b o' last) as (l & Hr & Hw); try done; try lia.
    exists l. rewrite Hr, Hl', Hc'. rewrite Hc' in Hw. by split. }
  match goal with |- context [bindM (if 2 <? tl then _ else _) _ ?s1] => set (s0 := s1) end.
  assert (exists l1, (if 2 <? tl then spi_send_cmd (Transfer (Some (b, o + 2)) rx tl) last else ret (Transfer (Some (b, o + 2)) rx tl)) s0 =
      Some (Transfer (Some (b, o + tl)) rx tl, set_hw (set_log s0 (log s0 ++ l1)) tl tl (cmd_half m b o)) /\
    (forall w, foldl wire_step w l1 = match bytes m b (o + 2) k with [] => w | bs => let w' := command w (cmd_half m b o) bs in if last then close w' else w' end) /\
    (k = 0%nat -> l1 = [])) as (l1 & H1 & Hw1 & Hk0).
  { destruct k as [|k].
    - exists []. rewrite (proj2 (Z.ltb_ge _ _)) by lia. split; [|done]. assert (tl = 2) as -> by lia. unfold set_hw, set_log, s0. cbn. by rewrite app_nil_r.
    - rewrite (proj2 (Z.ltb_lt _ _)) by lia. destruct (Hsend (S k) s0 (o + 2)) as (l1 & H1 & Hw1); try done; try lia; try (unfold s0; cbn [hw_count]; lia).
      exists l1. replace (o + tl) with (o + 2 + Z.of_nat (S k)) by lia. by split. }
  rewrite (bind_eq _ _ _ _ _ H1). clear H1. unfold s0, set_hw, set_log. cbn [log mem hw_len hw_count hw_cmd buf_lock nalloc freed].
  rewrite bind_gets. cbn [hw_count]. rewrite Z.eqb_refl, andb_true_r.
  destruct last eqn:Hlast.
  - match goal with |- context [bindM (spi_send_cmd _ true) _ ?s1] => destruct (Hsend 0%nat s1 (o + tl)) as (l2 & H2 & Hw2) end;
      try done; try lia; try (cbn [hw_count]; lia). rewrite (bind_eq _ _ _ _ _ H2), Z.add_0_r. exists (ctrl ++ l1 ++ l2). split; [|split].
    + unfold set_hw, set_log. cbn. by rewrite <- !app_assoc.
    + intros w Hw. rewrite !foldl_app, Hctrl, Hw1, Hw2 by done. unfold head_wire. by destruct (bytes m b (o + 2) k).
    + intros _ Hr. by apply bool_decide_eq_true in Hlast.
  - rewrite bind_ret. exists (ctrl ++ l1). split; [by rewrite <- app_assoc|]. split.
    + intros w Hw. rewrite !foldl_app, Hctrl, Hw1 by done. unfold head_wire. by destruct (bytes m b (o + 2) k).
    + intros Hk _. by rewrite Hk0.
Qed.

(** ** Messages

    The three shapes of message: a command alone, a command with data to
    write, and a command with data to read. *)

Lemma spi_sync_txrx t rest s : (tx_buf t = None -> rx_buf t = None -> False) -> t_len t <> 0 ->
  Forall (fun t => tx_buf t = None \/ rx_buf t = None) (t :: rest) ->
  spi_sync (t :: rest) s = (r <- silan_spi_txrx t rest ;; ret (r.1, if 0 <? r.1 then r.1 else 0, r.2)) s.
Proof.
  intros Ht Hl Hd. unfold spi_sync.
  replace (existsb _ (t :: rest)) with false; cycle 1.
  { symmetry. rewrite <- not_true_iff_false, existsb_exists. intros (x & Hx%list_elem_of_In & Hb).
    pose proof (proj1 (list.Forall_forall _ _) Hd x Hx) as [Hn|Hn]; rewrite Hn in Hb; [done|by rewrite andb_false_r in Hb]. }
  rewrite andb_false_r, (proj2 (Z.eqb_neq _ _) has_clock). unfold bitbang_work.
  rewrite (proj2 (Z.eqb_neq _ _) Hl). repeat case_bool_decide; cbn [andb]; try done. tauto.
Qed.

Lemma sync_command_ok k s b o : b ∉ freed s -> 0 <= o -> o + (2 + Z.of_nat k) <= blk_size b -> 2 + Z.of_nat k < 2 ^ 31 ->
  exists l, spi_sync [Transfer (Some (b, o)) None (2 + Z.of_nat k)] s =
      Some (2 + Z.of_nat k, 2 + Z.of_nat k, [Transfer (Some (b, o + (2 + Z.of_nat k))) None (2 + Z.of_nat k)],
        set_hw (set_log s (log s ++ l)) (2 + Z.of_nat k) (2 + Z.of_nat k) (cmd_half (mem s) b o)) /\
    forall w, w_cmds w = [] -> foldl wire_step w l = head_wire w (cmd_half (mem s) b o) (bytes (mem s) b (o + 2) k) true.
Proof.
  intros Hb Ho Hob Hk. destruct (txrx_head_ok k s (Transfer (Some (b, o)) None (2 + Z.of_nat k)) [] b o) as (l & Hr & Hw & _); try done.
  exists l. split; [|exact Hw]. rewrite spi_sync_txrx by (try done; try (cbn; lia); by repeat constructor; right).
  rewrite (bind_cong _ _ _ _ _ Hr). cbn [txrx_rest t_len tx_buf rx_buf]. spi_run. unfold ret. cbn [fst snd].
  rewrite s32_small, (proj2 (Z.ltb_lt _ _)) by lia. done.
Qed.

Lemma sync_write_ok k n s b o b1 o1 : b ∉ freed s -> 0 <= o -> o + (2 + Z.of_nat (S k)) <= blk_size b ->
  b1 ∉ freed s -> 0 <= o1 -> o1 + Z.of_nat n <= blk_size b1 -> 2 + Z.of_nat (S k) < 2 ^ 31 -> 0 < Z.of_nat n < 2 ^ 31 ->
  exists l, spi_sync [Transfer (Some (b, o)) None (2 + Z.of_nat (S k)); Transfer (Some (b1, o1)) None (Z.of_nat n)] s =
      Some (Z.of_nat n, Z.of_nat n, [Transfer (Some (b, o + (2 + Z.of_nat (S k)))) None (2 + Z.of_nat (S k));
          Transfer (Some (b1, o1 + Z.of_nat n)) None (Z.of_nat n)],
        set_hw (set_log s (log s ++ l)) (2 + Z.of_nat (S k)) (Z.of_nat n) (cmd_half (mem s) b o)) /\
    forall w, w_cmds w = [] -> foldl wire_step w l =
      close (command w (cmd_half (mem s) b o) (bytes (mem s) b (o + 2) (S k) ++ bytes (mem s) b1 o1 n)).
Proof.
  intros Hb Ho Hob Hb1 Ho1 Hob1 Hk Hn. set (t1 := Transfer (Some (b1, o1)) None (Z.of_nat n)).
  destruct (txrx_head_ok (S k) s (Transfer (Some (b, o)) None (2 + Z.of_nat (S k))) [t1] b o) as (l & Hr & Hw & _); try done.
  rewrite spi_sync_txrx by (try done; try (cbn; lia); by repeat constructor; right).
  rewrite (bind_cong _ _ _ _ _ Hr). cbn [txrx_rest t_len tx_buf rx_buf t1]. rewrite !bool_decide_eq_true_2 by done.
  unfold set_count, set_hw, set_log. spi_run. rewrite bool_decide_eq_false_2 by done. unfold spi_write_data. spi_run.
  match goal with |- context [bindM (write_data_loop ?m _) _ ?s1] => destruct (write_data_loop_ok n m s1 t1 b1 o1) as (l1 & H1 & Hw1) end;
    try done; try (cbn; lia). unfold t1 in H1. rewrite (bind_eq _ _ _ _ _ H1).
  rewrite bind_assoc, (bind_eq _ _ _ _ _ (spi_send_end_cmd_ok _)). unfold set_hw, set_log. spi_run. unfold ret. cbn [fst snd].
  rewrite s32_small, (proj2 (Z.ltb_lt _ _)) by lia. eexists (l ++ l1 ++ end_accesses _). split.
  - by rewrite <- !app_assoc.
  - intros w Hc. rewrite !foldl_app, Hw, Hw1 by done. cbn [mem]. unfold head_wire. rewrite bool_decide_eq_false_2 by done.
    cbn [bytes]. rewrite wire_end by (cbn; by destruct (w_cmds w)). unfold close, command, put. cbn. by rewrite <- app_assoc.
Qed.

(** The commands of a read: the one of the address phase, where there is one,
    and the one of the data phase, without bit 8. *)
Definition read_cmds (cmd : Z) (bs : list Z) : list Z :=
  match bs with [] => [] | _ => [cmd] end ++ [cmd .& (2 ^ 16 - 1 - 2 ^ 8)].

Lemma sync_read_ok k n s b o b1 o1 T r : b ∉ freed s -> 0 <= o -> o + (2 + Z.of_nat k) <= blk_size b ->
  b1 ∉ freed s -> 0 <= o1 -> o1 + Z.of_nat (S n) <= blk_size b1 -> 2 + Z.of_nat k < 2 ^ 31 -> Z.of_nat (S n) < 2 ^ 31 ->
  wire_of (log s) = Wire T [] [] r ->
  let cmd := cmd_half (mem s) b o in let bs := bytes (mem s) b (o + 2) k in
  exists l vs, spi_sync [Transfer (Some (b, o)) None (2 + Z.of_nat k); Transfer None (Some (b1, o1)) (Z.of_nat (S n))] s =
      Some (Z.of_nat (S n), Z.of_nat (S n), [Transfer (Some (b, o + (2 + Z.of_nat k))) None (2 + Z.of_nat k);
          Transfer None (Some (b1, o1 + Z.of_nat n)) (Z.of_nat (S n))],
        set_hw (set_mem (set_log s (log s ++ l)) (upds (mem s) b1 o1 vs)) (2 + Z.of_nat k) (Z.of_nat (S n)) (cmd .& (2 ^ 16 - 1 - 2 ^ 8))) /\
    length vs = S n /\ data_read T (read_cmds cmd bs) bs 0 vs /\
    wire_of (log s ++ l) = Wire (T ++ [(read_cmds cmd bs, bs)]) [] [] 0 /\
    (k = 0%nat -> length l <= 3 + S n * (spin + 4))%nat.
Proof.
  intros Hb Ho Hob Hb1 Ho1 Hob1 Hk Hn Hw0 cmd bs. set (t1 := Transfer None (Some (b1, o1)) (Z.of_nat (S n))).
  destruct (txrx_head_ok k s (Transfer (Some (b, o)) None (2 + Z.of_nat k)) [t1] b o) as (l & Hr & Hw & Hlen); try done. subst t1.
  rewrite spi_sync_txrx by (try done; try (cbn; lia); repeat constructor; (by left) || by right).
  rewrite (bind_cong _ _ _ _ _ Hr). cbn [txrx_rest t_len tx_buf rx_buf]. rewrite bool_decide_eq_false_2 by done.
  unfold set_count, set_hw, set_log, spi_read_data. spi_run. fold cmd.
  set (cmd' := cmd .& (2 ^ 16 - 1 - 2 ^ 8)). assert (0 <= cmd' < 2 ^ 16) as Hcmd' by (apply land_bound; [lia|apply cmd_half_range|lia]).
  rewrite (u32_small cmd') by lia.
  assert (wire_of ((log s ++ l) ++ [Wr SPI_CMD cmd']) = Wire T (read_cmds cmd bs) bs 0) as Hw1.
  { rewrite !wire_of_app, Hw0, Hw by done. rewrite bool_decide_eq_false_2 by done. fold cmd bs. unfold read_cmds. by destruct bs. }
  match goal with |- context [bindM (read_data_loop ?m true ?t2) _ ?s1] => destruct (read_data_loop_ok n m true s1 t2 b1 o1 0 T (read_cmds cmd bs) bs) as (l1 & vs & H1 & Hvs & Hd & Hw2 & Hl1) end;
    try done; try (cbn [hw_count hw_len t_len]; try change (u32 0) with 0; lia).
  { unfold read_cmds. by destruct bs. }
  rewrite (bind_eq _ _ _ _ _ H1). unfold set_hw, set_log, set_mem. spi_run. rewrite bool_decide_eq_true_2 by done. spi_run.
  unfold ret. cbn [fst snd]. rewrite s32_small, (proj2 (Z.ltb_lt _ _)) by lia.
  exists (l ++ [Wr SPI_CMD cmd'] ++ l1), vs. split; [|split; [done|split; [done|split]]].
  - replace (o1 + Z.of_nat (S n) + -1) with (o1 + Z.of_nat n) by lia. by rewrite <- !app_assoc.
  - rewrite !app_assoc. exact Hw2.
  - intros Hk0. rewrite !length_app, Hlen by done. cbn [length]. lia.
Qed.

(** ** The scratch buffer of [spi_write_then_read]

    The controller driver moves [tx_buf] of the transfer, so that the test
    [x[0].tx_buf == buf] fails: the first call frees the static buffer and
    leaves its mutex locked, and every later call allocates its own. *)

Definition driver_blk (b : blk) : bool :=
  match b with BScratch | BKmalloc _ => false | _ => true end.

Record heap_ok (s : spi_st) : Prop := {
  heap_nodup : NoDup (freed s);
  heap_scratch : BScratch ∈ freed s <-> buf_lock s = true;
  heap_fresh n : (nalloc s <= n)%nat -> BKmalloc n ∉ freed s;
  heap_driver b : driver_blk b = true -> b ∉ freed s
}.

Lemma heap_ok_ext s s' : buf_lock s' = buf_lock s -> nalloc s' = nalloc s -> freed s' = freed s -> heap_ok s -> heap_ok s'.
Proof. intros H1 H2 H3 [? ? ? ?]. split; rewrite ?H1, ?H2, ?H3; done. Qed.

Lemma scratch_ok s : heap_ok s ->
  (exists b na, scratch s = Some (Some b, set_heap s true na (freed s)) /\ driver_blk b = false /\ b ∉ freed s /\
     (b = BScratch /\ na = nalloc s /\ buf_lock s = false \/ b <> BScratch /\ buf_lock s = true) /\
     heap_ok (set_heap s true na (b :: freed s))) \/
  (scratch s = Some (None, set_heap s true (S (nalloc s)) (freed s)) /\ kmalloc_ok (nalloc s) = false /\ buf_lock s = true /\
     heap_ok (set_heap s true (S (nalloc s)) (freed s))).
Proof.
  intros [Hn Hs Hf Hd]. destruct s as [h m ln c cm lk na fr]. cbn in *. unfold scratch.
  destruct lk; [destruct (kmalloc_ok na) eqn:Hk|].
  - left. exists (BKmalloc na), (S na). split; [unfold bindM, kmalloc; cbn; by rewrite Hk|]. split; [done|]. split; [by apply Hf|].
    split; [by right|]. split; cbn.
    + constructor; [by apply Hf|done].
    + rewrite elem_of_cons. split; [done|]. intros _. right. by apply Hs.
    + intros n Hle. rewrite not_elem_of_cons. split; [intros [=]; lia|apply Hf; lia].
    + intros b Hb. rewrite not_elem_of_cons. split; [by intros ->|by apply Hd].
  - right. split; [unfold bindM, kmalloc; cbn; by rewrite Hk|]. split; [done|]. split; [done|]. split; cbn; try done. intros n Hle. apply Hf. lia.
  - left. exists BScratch, na. assert (BScratch ∉ fr) by (by intros ?%Hs). split; [done|]. split; [done|]. split; [done|].
    split; [by left|]. split; cbn.
    + by constructor.
    + rewrite elem_of_cons. split; [done|]. by left.
    + intros n Hle. rewrite not_elem_of_cons. split; [done|by apply Hf].
    + intros b Hb. rewrite not_elem_of_cons. split; [by intros ->|by apply Hd].
Qed.

Lemma memcpy_ok n : forall s b1 o1 b2 o2, b1 <> b2 -> b1 ∉ freed s -> b2 ∉ freed s ->
  0 <= o1 -> o1 + Z.of_nat n <= blk_size b1 -> 0 <= o2 -> o2 + Z.of_nat n <= blk_size b2 ->
  memcpy n (Some (b2, o2)) (Some (b1, o1)) s = Some (tt, set_mem s (upds (mem s) b2 o2 (bytes (mem s) b1 o1 n))).
Proof.
  induction n as [|n IH]; intros s b1 o1 b2 o2 Hne H1 H2 Ho1 Hb1 Ho2 Hb2; [by destruct s|]. cbn [memcpy]. rewrite bind_load, bind_store by (done || lia).
  cbn [ptr_add fmap option_fmap option_map fst snd]. rewrite IH; [|done|by destruct s|by destruct s|lia..].
  destruct s as [h m ln c cm lk na fr]. unfold set_mem. cbn [log mem hw_len hw_count hw_cmd buf_lock nalloc freed bytes upds] in *.
  rewrite (bytes_ext (upd m b2 o2 _) m); [done|]. intros i _. unfold upd. by rewrite bool_decide_eq_false_2 by tauto.
Qed.

(** What a helper of the flash driver keeps: its own blocks, but for the
    local variable it reads into. *)
Definition keeps (s s' : spi_st) : Prop :=
  forall b o, driver_blk b = true -> b <> BVal -> mem s' b o = mem s b o.

Lemma cmd_half_copied m b bt ot : cmd_half (upds m b 0 (bytes m bt ot 2)) b 0 = cmd_half m bt ot.
Proof.
  assert (forall m b o, cmd_half m b o = znth (bytes m b o 2) 0 .| (znth (bytes m b o 2) 1 .<< 8)) as Hh by done.
  rewrite !Hh. by rewrite (bytes_upds m b (bytes m bt ot 2) (bytes_u8 _ _ _ _) 0 : bytes _ b 0 2 = _).
Qed.

Lemma bufsiz_min : 32 <= SPI_BUFSIZ.
Proof. unfold SPI_BUFSIZ. lia. Qed.

Lemma bufsiz_ok n : 0 <= n <= 32 -> (SPI_BUFSIZ <? u32 n) = false.
Proof. intros. pose proof bufsiz_min. rewrite u32_small by lia. apply Z.ltb_ge. lia. Qed.

Lemma scratch_size b : driver_blk b = false -> blk_size b = SPI_BUFSIZ.
Proof. by destruct b. Qed.

Lemma driver_ne b b' : driver_blk b = true -> driver_blk b' = false -> b <> b'.
Proof. congruence. Qed.

(** Two bytes to send and none to receive. *)
Lemma wtr_send_ok s bt ot T r : heap_ok s -> driver_blk bt = true -> 0 <= ot -> ot + 2 <= blk_size bt -> wire_of (log s) = Wire T [] [] r ->
  exists v s', spi_write_then_read (Some (bt, ot)) 2 None 0 s = Some (v, s') /\ heap_ok s' /\ keeps s s' /\ buf_lock s' = true /\
    ((v = 0 /\ wire_of (log s') = Wire (T ++ [([cmd_half (mem s) bt ot], [])]) [] [] 0) \/
     (v = - ENOMEM /\ kmalloc_ok (nalloc s) = false /\ log s' = log s)).
Proof.
  intros Hok Hbt Hot Hotb Hw. unfold spi_write_then_read. rewrite bufsiz_ok by lia.
  destruct (scratch_ok s Hok) as [(b & na & Hs & Hdb & Hb & _ & Hok')|(Hs & Hk & _ & Hok')]; rewrite (bind_eq _ _ _ _ _ Hs).
  2: { eexists _, _. split; [done|]. split; [done|]. split; [by intros ?|]. split; [done|]. right. by destruct s. }
  pose proof bufsiz_min as Hsz. rewrite <- (scratch_size b Hdb) in Hsz. pose proof (heap_driver _ Hok _ Hbt) as Hfb. pose proof (driver_ne _ _ Hbt Hdb) as Hne.
  erewrite bind_eq by (apply memcpy_ok; [exact Hne|exact Hfb|exact Hb|lia..]). cbn [Z.eqb app].
  match goal with |- context [bindM (spi_sync _) _ ?s1] => destruct (sync_command_ok 0 s1 b 0) as (l & Hr & Hwl); [done|lia..|] end.
  change (2 + Z.of_nat 0) with 2 in Hr. rewrite (bind_eq _ _ _ _ _ Hr). cbn [lookup list_lookup default tx_buf rx_buf].
  change (Z.to_nat 0) with 0%nat. cbn [memcpy]. spi_run. rewrite bool_decide_eq_false_2 by (intros [=]; lia).
  rewrite bind_kfree by done. eexists _, _. split; [done|]. split; [by eapply heap_ok_ext; [..|exact Hok']|].
  split; [intros c o Hc _; apply upds_other; by apply driver_ne|]. split; [done|]. left. split; [done|].
  match goal with |- wire_of ?h = _ => change h with (log s ++ l) end. rewrite wire_of_app, Hw, Hwl by done.
  exact (f_equal (fun c => Wire (T ++ [([c], [])]) [] [] 0) (cmd_half_copied (mem s) b bt ot)).
Qed.

(** Two bytes to send and one to receive. *)
Lemma wtr_recv_ok s bt ot T r : heap_ok s -> driver_blk bt = true -> 0 <= ot -> ot + 2 <= blk_size bt -> wire_of (log s) = Wire T [] [] r ->
  let cmd := cmd_half (mem s) bt ot .& (2 ^ 16 - 1 - 2 ^ 8) in
  exists v s', spi_write_then_read (Some (bt, ot)) 2 (Some (BVal, 0)) 1 s = Some (v, s') /\ heap_ok s' /\ keeps s s' /\ buf_lock s' = true /\
    ((v = 0 /\ wire_of (log s') = Wire (T ++ [([cmd], [])]) [] [] 0 /\ data_read T [cmd] [] 0 [u8 (mem s' BVal 0)] /\
      exists l, log s' = log s ++ l /\ (0 < length l <= spin + 7)%nat) \/
     (v = - ENOMEM /\ kmalloc_ok (nalloc s) = false /\ log s' = log s)).
Proof.
  intros Hok Hbt Hot Hotb Hw cmd. unfold spi_write_then_read. rewrite bufsiz_ok by lia.
  destruct (scratch_ok s Hok) as [(b & na & Hs & Hdb & Hb & _ & Hok')|(Hs & Hk & _ & Hok')]; rewrite (bind_eq _ _ _ _ _ Hs).
  2: { eexists _, _. split; [done|]. split; [done|]. split; [by intros ?|]. split; [done|]. right. by destruct s. }
  pose proof bufsiz_min as Hsz. rewrite <- (scratch_size b Hdb) in Hsz. pose proof (heap_driver _ Hok _ Hbt) as Hfb. pose proof (heap_driver _ Hok BVal eq_refl) as Hfv. pose proof (driver_ne _ _ Hbt Hdb) as Hne.
  erewrite bind_eq by (apply memcpy_ok; [exact Hne|exact Hfb|exact Hb|lia..]). cbn [Z.eqb app].
  match goal with |- context [bindM (spi_sync _) _ ?s1] => destruct (sync_read_ok 0 0 s1 b 0 b 2 T r) as (l & vs & Hr & Hvs & Hd & Hwl & Hlen); [done|lia|lia|done|lia|lia|lia|lia|done|] end.
  cbn [mem set_mem set_heap bytes log] in *. change (Z.to_nat 2) with 2%nat in *. rewrite (cmd_half_copied (mem s) b bt ot) in *.
  unfold read_cmds in *. cbn [app] in *. fold cmd in Hr, Hd, Hwl. change (2 + Z.of_nat 0) with 2 in Hr. change (Z.of_nat 1) with 1 in Hr.
  rewrite (bind_eq _ _ _ _ _ Hr).
  cbn [lookup list_lookup default tx_buf rx_buf snd id].
  destruct vs as [|x [|]]; try done.
  erewrite bind_eq by (apply (memcpy_ok 1 _ b 2 BVal 0); [by apply not_eq_sym, driver_ne|exact Hb|exact Hfv|lia|lia|lia|by vm_compute]).
  rewrite bool_decide_eq_false_2 by done. rewrite bind_kfree by done. eexists _, _. split; [done|].
  split; [by eapply heap_ok_ext; [..|exact Hok']|]. split.
  { intros c o Hc Hcv. etransitivity; [by apply upds_other|]. etransitivity; apply upds_other; by apply driver_ne. }
  split; [done|]. left. split; [done|]. split; [exact Hwl|]. split.
  - destruct (Hd 0%nat x eq_refl) as (h & Hh & Hx). intros [|i] y Hy; [|done]. injection Hy as <-. exists h. split; [done|].
    rewrite <- Hx. cbn [mem set_heap set_mem set_hw set_log upds bytes]. unfold upd.
    rewrite !bool_decide_eq_true_2 by done. rewrite Hx. unfold u8, uwrap. by rewrite !Z.mod_mod by lia.
  - exists l. split; [done|]. split; [|specialize (Hlen eq_refl); lia]. destruct l; [|cbn; lia].
    rewrite app_nil_r, Hw in Hwl. injection Hwl as Hwl. by apply (f_equal length) in Hwl; rewrite length_app in Hwl; cbn in Hwl; lia.
Qed.

(** ** Any calls of [spi_write_then_read] *)

(** The read loop, whatever the command and its length. *)
Lemma read_data_safe n : forall k need s t b o, rx_buf t = Some (b, o) -> b ∉ freed s -> 0 <= o -> o + Z.of_nat n <= blk_size b ->
  0 <= hw_count s -> hw_count s + Z.of_nat n = t_len t -> t_len t < 2 ^ 32 -> (n <= k)%nat ->
  exists l vs, read_data_loop k need t s = Some (Transfer (tx_buf t) (Some (b, o + Z.of_nat n)) (t_len t),
      set_hw (set_mem (set_log s (log s ++ l)) (upds (mem s) b o vs)) (hw_len s) (t_len t) (hw_cmd s)).
Proof.
  induction n as [|n IH]; intros k need s t b o Ht Hb Ho Hob H0 Hc Hl Hk.
  - exists [], []. rewrite read_data_done by lia. destruct s, t. cbn in *. subst. by rewrite !Z.add_0_r, app_nil_r.
  - destruct k as [|k]; [lia|]. destruct s as [h m ln c cm lk na fr], t as [tx rx tl]. cbn in Ht, Hb, H0, Hc, Hl. subst rx.
    cbn [read_data_loop]. spi_run. rewrite (proj2 (Z.ltb_lt _ _)) by lia.
    assert (exists d need', (if negb (ln =? 1) || (cm =? 1539) then if need then readl SPI_DATA;; ret false else ret false else ret need)
      (SpiSt h m ln c cm lk na fr) = Some (need', SpiSt (h ++ d) m ln c cm lk na fr)) as (d & need' & Hd).
    { destruct (negb (ln =? 1) || (cm =? 1539)), need; [by eexists [_], _|..]; eexists [], _; by rewrite app_nil_r. }
    rewrite (bind_eq _ _ _ _ _ Hd).
    destruct (wait_ready_ok (SpiSt (h ++ d) m ln c cm lk na fr)) as (q & Hq & _). rewrite (bind_eq _ _ _ _ _ Hq). unfold set_count. spi_run.
    match goal with |- context [bindM (if ?x then spi_send_end_cmd else ret tt) _ ?s1] =>
      assert (exists f, (if x then spi_send_end_cmd else ret tt) s1 = Some (tt, set_log s1 (log s1 ++ f))) as [f Hf] end.
    { destr_if; [eexists; apply spi_send_end_cmd_ok|]. exists []. unfold set_log. cbn [log]. by rewrite app_nil_r. }
    rewrite (bind_eq _ _ _ _ _ Hf). clear Hf. unfold set_log. cbn [log mem hw_len hw_count hw_cmd buf_lock nalloc freed].
    rewrite (u32_small (c + 1)) by lia. edestruct (IH k need') as (l & vs & Hr); [..|rewrite Hr]; try done; try (cbn; lia).
    cbn [log mem hw_len hw_count hw_cmd buf_lock nalloc freed set_hw set_mem set_log tx_buf t_len].
    eexists _, (_ :: vs). cbn [upds]. rewrite <- !app_assoc. replace (o + Z.of_nat (S n)) with (o + 1 + Z.of_nat n) by lia. done.
Qed.

(** The first transfer of a message, from one byte on: its pointer has moved. *)
Lemma txrx_head_safe s t rest b o : tx_buf t = Some (b, o) -> b ∉ freed s -> 0 <= o -> o + 2 <= blk_size b -> o + t_len t <= blk_size b ->
  0 < t_len t < 2 ^ 31 ->
  exists l c cmd o', silan_spi_txrx t rest s =
      (r <- txrx_rest rest ;; c <- gets hw_count ;; ret (s32 c, Transfer (Some (b, o')) (rx_buf t) (t_len t) :: r))
      (set_hw (set_log s (log s ++ l)) (t_len t) c cmd) /\ o < o'.
Proof.
  intros Ht Hb Ho Ho2 Hob Hl. destruct (decide (t_len t = 1)) as [H1|H1].
  - destruct t as [tx rx tl], s as [h m ln c cm lk na fr]. cbn in Ht, Hb, Hob, Hl, H1. subst tx tl.
    unfold silan_spi_txrx. rewrite bind_modify. cbn [tx_buf]. rewrite bool_decide_eq_false_2 by done. spi_run.
    change (2 <? u32 1) with false. cbv iota. spi_run. change (2 =? u32 1) with false. rewrite andb_false_r. spi_run.
    eexists _, _, _, (o + 2). rewrite <- app_assoc. split; [done|lia].
  - destruct (txrx_head_ok (Z.to_nat (t_len t - 2)) s t rest b o) as (l & Hr & _); try done; try lia.
    eexists l, _, _, _. split; [exact Hr|lia].
Qed.

(** What a message leaves alone. *)
Definition untouched (b : blk) (s s' : spi_st) : Prop :=
  buf_lock s' = buf_lock s /\ nalloc s' = nalloc s /\ freed s' = freed s /\ forall b' o, b' <> b -> mem s' b' o = mem s b' o.

Lemma sync_head_safe s b n : b ∉ freed s -> driver_blk b = false -> 0 < n < 2 ^ 31 -> n <= SPI_BUFSIZ ->
  exists r s' o', spi_sync [Transfer (Some (b, 0)) None n] s = Some (r, s') /\ untouched b s s' /\
    r.2 = [Transfer (Some (b, o')) None n] /\ 0 < o'.
Proof.
  intros Hb Hd Hn Hsz. pose proof bufsiz_min. rewrite <- (scratch_size b Hd) in *.
  destruct (txrx_head_safe s (Transfer (Some (b, 0)) None n) [] b 0) as (l & c & cmd & o' & Hr & Ho'); try done; try (cbn [t_len]; lia).
  rewrite spi_sync_txrx by (try done; try (cbn; lia); by repeat constructor; right). rewrite (bind_cong _ _ _ _ _ Hr).
  cbn [txrx_rest rx_buf t_len]. spi_run. eexists _, _, o'. split; [done|]. by split.
Qed.

Lemma sync_both_safe s b n k : b ∉ freed s -> driver_blk b = false -> 0 < n < 2 ^ 31 -> 0 < k < 2 ^ 31 -> n + k <= SPI_BUFSIZ ->
  exists r s' o', spi_sync [Transfer (Some (b, 0)) None n; Transfer None (Some (b, n)) k] s = Some (r, s') /\ untouched b s s' /\
    r.2 = [Transfer (Some (b, o')) None n; Transfer None (Some (b, n + k - 1)) k] /\ 0 < o'.
Proof.
  intros Hb Hd Hn Hk Hsz. pose proof bufsiz_min. rewrite <- (scratch_size b Hd) in *.
  destruct (txrx_head_safe s (Transfer (Some (b, 0)) None n) [Transfer None (Some (b, n)) k] b 0) as (l & c & cmd & o' & Hr & Ho'); try done; try (cbn [t_len]; lia).
  rewrite spi_sync_txrx by (try done; try (cbn; lia); repeat constructor; (by left) || by right). rewrite (bind_cong _ _ _ _ _ Hr). clear Hr.
  cbn [txrx_rest rx_buf tx_buf t_len]. rewrite bool_decide_eq_false_2 by done. unfold set_count, set_hw, set_log, spi_read_data. spi_run.
  match goal with |- context [bindM (read_data_loop ?m true ?t2) _ ?s1] => destruct (read_data_safe (Z.to_nat k) m true s1 t2 b n) as (l1 & vs & H1) end;
    try done; try (cbn [hw_count t_len]; change (u32 0) with 0; lia); try lia.
  rewrite (bind_eq _ _ _ _ _ H1). unfold set_hw, set_log, set_mem. spi_run. rewrite bool_decide_eq_true_2 by done. spi_run.
  eexists _, _, o'. split; [done|]. split; [|split; [|lia]].
  - split; [done|]. split; [done|]. split; [done|]. intros b' x Hne. cbn [mem]. by apply upds_other.
  - cbn [snd]. do 5 f_equal. lia.
Qed.

(** A call: the bytes to send, the place for the answer. *)
Record wtr_call := WtrCall { w_tx : ptr; w_ntx : Z; w_rx : ptr; w_nrx : Z }.

Definition run_wtr (c : wtr_call) : M Z := spi_write_then_read (w_tx c) (w_ntx c) (w_rx c) (w_nrx c).

Fixpoint wtr_calls (cs : list wtr_call) : M (list Z) :=
  match cs with
  | [] => ret []
  | c :: cs' => v <- run_wtr c ;; vs <- wtr_calls cs' ;; ret (v :: vs)
  end.

(** [n] bytes of the caller at [p]. *)
Definition buffer (p : ptr) (n : Z) : Prop :=
  n = 0 \/ exists b o, p = Some (b, o) /\ driver_blk b = true /\ 0 <= o /\ o + n <= blk_size b.

Definition fits (c : wtr_call) : bool := w_ntx c + w_nrx c <=? SPI_BUFSIZ.
Definition sends (c : wtr_call) : bool := (0 <? w_ntx c) && fits c.

(** The master leaves [rx_buf] at the last byte it received, and the answer is
    copied from there: what is copied must end inside the scratch buffer. *)
Definition call_ok (c : wtr_call) : Prop :=
  0 <= w_ntx c /\ 0 <= w_nrx c /\ w_ntx c + w_nrx c < 2 ^ 31 /\ buffer (w_tx c) (w_ntx c) /\ buffer (w_rx c) (w_nrx c) /\
  (0 < w_ntx c -> 0 < w_nrx c -> fits c = true -> w_ntx c + 2 * w_nrx c - 1 <= SPI_BUFSIZ).

(** Copies between the caller's blocks and the scratch buffer. *)
Lemma copy_in s p b n : (forall c, driver_blk c = true -> c ∉ freed s) -> driver_blk b = false -> b ∉ freed s -> 0 <= n <= SPI_BUFSIZ -> buffer p n ->
  exists s', memcpy (Z.to_nat n) (Some (b, 0)) p s = Some (tt, s') /\ untouched b s s'.
Proof.
  intros Hok Hd Hb Hn [->|(b' & o & -> & Hd' & Ho & Hob)]; [by exists s|]. rewrite <- (scratch_size b Hd) in Hn.
  eexists. split; [apply memcpy_ok; try lia; try done; [by apply driver_ne|by apply Hok]|].
  split; [done|]. split; [done|]. split; [done|]. intros c x Hne. by apply upds_other.
Qed.

Lemma copy_out s p b o n : (forall c, driver_blk c = true -> c ∉ freed s) -> driver_blk b = false -> b ∉ freed s -> 0 <= n ->
  (0 < n -> 0 <= o /\ o + n <= SPI_BUFSIZ) -> buffer p n ->
  exists s', memcpy (Z.to_nat n) p (Some (b, o)) s = Some (tt, s') /\ buf_lock s' = buf_lock s /\ nalloc s' = nalloc s /\ freed s' = freed s.
Proof.
  intros Hok Hd Hb Hn Ho [->|(b' & o' & -> & Hd' & Ho' & Hob)]; [by exists s|]. rewrite <- (scratch_size b Hd) in Ho.
  destruct (decide (n = 0)) as [->|Hne]; [by exists s|]. specialize (Ho ltac:(lia)).
  eexists. split; [apply memcpy_ok; try lia; try done; [by apply not_eq_sym, driver_ne|by apply Hok]|done].
Qed.

(** The message of a call: where its pointers are afterwards. *)
Lemma call_message s b n k : b ∉ freed s -> driver_blk b = false -> 0 <= n -> 0 <= k -> n + k < 2 ^ 31 -> n + k <= SPI_BUFSIZ ->
  let x0 := Transfer (Some (b, 0)) None n in
  let x1 := Transfer None (Some (b, n)) k in
  exists r s' o', spi_sync ((if n =? 0 then [] else [x0]) ++ (if k =? 0 then [] else [x1])) s = Some (r, s') /\ untouched b s s' /\
    tx_buf (if n =? 0 then x0 else default x0 (r.2 !! 0%nat)) = Some (b, o') /\ (if n =? 0 then o' = 0 else 0 < o') /\
    rx_buf (if k =? 0 then x1 else default x1 (r.2 !! (if n =? 0 then 0%nat else 1%nat))) =
      Some (b, if (n =? 0) || (k =? 0) then n else n + k - 1).
Proof.
  intros Hb Hd Hn Hk Hlt Hsz x0 x1. destruct (Z.eqb_spec n 0) as [->|Hn0], (Z.eqb_spec k 0) as [->|Hk0]; cbn [app orb].
  - eexists _, _, 0. split; [|by split_and!]. unfold spi_sync. cbn [existsb]. rewrite andb_false_r, (proj2 (Z.eqb_neq _ _) has_clock). done.
  - eexists (0, 0, [x1]), _, 0. split; [|split; [|by split_and!]].
    { rewrite spi_sync_txrx by (try done; repeat constructor; by left).
      unfold silan_spi_txrx. cbn [x1 tx_buf]. rewrite bool_decide_eq_true_2 by done. rewrite bind_assoc, bind_modify, bind_ret. done. }
    by split_and!.
  - destruct (sync_head_safe s b n) as (r & s' & o' & Hr & Hu & Er & Ho'); try done; try lia.
    exists r, s', o'. rewrite Er. by split_and!.
  - destruct (sync_both_safe s b n k) as (r & s' & o' & Hr & Hu & Er & Ho'); try done; try lia.
    exists r, s', o'. rewrite Er. by split_and!.
Qed.

Lemma wtr_safe s c : heap_ok s -> call_ok c ->
  exists v s', run_wtr c s = Some (v, s') /\ heap_ok s' /\ buf_lock s' = buf_lock s || sends c /\
    (if fits c then v = 0 \/ v = - ENOMEM /\ buf_lock s = true else v = - EINVAL).
Proof.
  intros Hok (Hn & Hk & Hlt & Htx & Hrx & Hroom). unfold run_wtr, spi_write_then_read, sends. destruct c as [p n q k]. unfold fits in *.
  cbn [w_tx w_ntx w_rx w_nrx] in *. rewrite u32_small by lia. rewrite Z.leb_antisym in *.
  destruct (Z.ltb_spec SPI_BUFSIZ (n + k)) as [Hbig|Hfit]; cbn [negb] in *.
  { exists (- EINVAL), s. rewrite andb_false_r, orb_false_r. by split_and!. }
  destruct (scratch_ok s Hok) as [(b & na & Hs & Hdb & Hb & Hwhich & Hok')|(Hs & _ & Hlock & Hok')]; rewrite (bind_eq _ _ _ _ _ Hs).
  2: { eexists _, _. split; [done|]. rewrite Hlock. split_and!; try done. by right. }
  set (s1 := set_heap s true na (freed s)) in *.
  assert (forall c, driver_blk c = true -> c ∉ freed s) as Hdrv by (intros c; apply (heap_driver _ Hok)).
  destruct (copy_in s1 p b n) as (s2 & H2 & El2 & Ea2 & Ef2 & _); try done; [lia|]. rewrite (bind_eq _ _ _ _ _ H2).
  destruct (call_message s2 b n k) as (r & s3 & o' & H3 & (El3 & Ea3 & Ef3 & _) & Etx & Ho' & Erx); try done; try lia; [by rewrite Ef2|].
  rewrite (bind_eq _ _ _ _ _ H3), Etx, Erx.
  edestruct (copy_out s3 q b) as (s4 & H4 & El4 & Ea4 & Ef4); [..|rewrite (bind_eq _ _ _ _ _ H4)]; try done; try (by rewrite Ef3, Ef2).
  { intros Hpos. destruct (Z.eqb_spec n 0), (Z.eqb_spec k 0); cbn [orb]; try lia. }
  assert (freed s4 = freed s /\ nalloc s4 = na /\ buf_lock s4 = true) as (Ef & Ea & El)
    by (rewrite Ef4, Ef3, Ef2, Ea4, Ea3, Ea2, El4, El3, El2; done).
  case_bool_decide as Hcmp.
  - injection Hcmp as -> ->. destruct (Z.eqb_spec n 0) as [->|]; [|lia]. destruct Hwhich as [(_ & -> & Hl)|[? _]]; [|done].
    eexists _, _. split; [done|]. cbn [buf_lock set_heap]. rewrite Hl, Ef. split_and!; [|done|by left].
    by apply (heap_ok_ext s); cbn [buf_lock nalloc freed set_heap]; rewrite ?Ef, ?Ea.
  - rewrite bind_kfree by (by rewrite Ef). eexists _, _. split; [done|]. cbn [buf_lock set_heap]. rewrite El.
    split_and!; [by apply (heap_ok_ext (set_heap s true na (b :: freed s))); cbn [buf_lock nalloc freed set_heap]; rewrite ?El, ?Ef, ?Ea| |by left].
    destruct Hwhich as [(-> & _ & ->)|[_ ->]]; [|done]. destruct (Z.eqb_spec n 0) as [->|]; [by rewrite Ho' in Hcmp|].
    by rewrite (proj2 (Z.ltb_lt _ _)) by lia.
Qed.

Definition result_ok (c : wtr_call) (v : Z) : Prop := if fits c then v = 0 \/ v = - ENOMEM else v = - EINVAL.

Lemma wtr_calls_ok cs : forall s, heap_ok s -> Forall call_ok cs ->
  exists vs s', wtr_calls cs s = Some (vs, s') /\ heap_ok s' /\ Forall2 result_ok cs vs /\ buf_lock s' = buf_lock s || existsb sends cs.
Proof.
  induction cs as [|c cs IH]; intros s Hok Hcs; cbn [wtr_calls existsb]; [exists [], s; rewrite orb_false_r; by split_and!|].
  apply Forall_cons_1 in Hcs as [Hc Hcs]. destruct (wtr_safe s c Hok Hc) as (v & s1 & H1 & Hok1 & Hl1 & Hv). rewrite (bind_eq _ _ _ _ _ H1).
  destruct (IH s1 Hok1 Hcs) as (vs & s' & H2 & Hok' & Hvs & Hl'). rewrite (bind_eq _ _ _ _ _ H2).
  exists (v :: vs), s'. rewrite Hl', Hl1, orb_assoc. split_and!; try done. constructor; [|done]. unfold result_ok. destruct (fits c); naive_solver.
Qed.


End spi.

(** A controller that is always ready, and whose data register counts its reads. *)
Module SpiDemo.

Definition ready_env : SpiEnv :=
  {| hw_read h off := if off =? SPI_STATUS then READY_FOR_NEXT else if off =? SPI_DATA then 16 + Z.of_nat (w_reads (wire_of h)) else 0;
     spin := 1; jiffies _ := 0; kmalloc_ok n := Nat.even n;
     shl_sel_bank2 := 0; max_speed_hz := 25000000; half_duplex := false; smp_cache_bytes := 32; max_polls := 1;
     command_room := 32; user_room := 64; shr_undef _ _ := 0 |}.

Lemma ready_env_ok : @SpiEnvOk ready_env.
Proof. split; [intros h; exists 0%nat; split; [cbn; lia|done]|done]. Qed.

Definition boot_st : spi_st := SpiSt [] (fun _ _ => 0) 0 0 0 false 0 [].

(** Nothing to send, a status read, a command of one byte, and an answer of eight bytes. *)
Definition demo_calls : list wtr_call :=
  [WtrCall None 0 (Some (BVal, 0)) 1; WtrCall (Some (BCode, 0)) 2 (Some (BVal, 0)) 1; WtrCall (Some (BCode, 0)) 1 None 0;
   WtrCall (Some (BCode, 0)) 2 (Some (BUser, 0)) 8].

Lemma demo_calls_ok : Forall (@call_ok ready_env) demo_calls.
Proof.
  assert (forall b o n, driver_blk b = true -> 0 <= o -> o + n <= @blk_size ready_env b -> @buffer ready_env (Some (b, o)) n) as Hb
    by (intros b o n ? ? ?; right; by exists b, o).
  repeat (apply Forall_cons_2; [split_and!; cbn [w_ntx w_nrx w_tx w_rx]; try lia; try (by left); try (by apply Hb); by vm_compute|]). apply Forall_nil_2.
Qed.


(** Of an answer of three bytes, 17 to 19, the caller gets the last, and then
    what lies behind it in the scratch buffer. *)
Example answer_shifted :
  (fun r => (r.1, @bytes (mem r.2) BUser 0 3)) <$> @spi_write_then_read ready_env (Some (BCode, 0)) 2 (Some (BUser, 0)) 3 boot_st =
    Some (0, [19; 0; 0]).
Proof. vm_compute. reflexivity. Qed.

(** An answer of 20 bytes makes the copy run past the 32 bytes of the scratch buffer. *)
Example answer_overruns : @spi_write_then_read ready_env (Some (BCode, 0)) 2 (Some (BUser, 0)) 20 boot_st = None.
Proof. vm_compute. reflexivity. Qed.

End SpiDemo.
