(* ===== verification/SilanFlash.v ===== *)
(** * The serial flash driver (drivers/mtd/devices/silan_flash.c)

    The MTD operations of the driver ([m25p80_read], [m25p80_write],
    [m25p80_erase], [sst_write], lock and unlock) over the SPI stack of
    [SilanSpi], and the table of chips with the geometry the probe function
    derives from it.

    The flash chip is hardware: a state machine over the transactions on the
    wire ([NorChip]) with a memory, block protection, a write-enable latch and a
    busy flag.  What the driver relies on is the class [FlashOk]: a page program
    ands its bytes into the unprotected cells of one page and is ignored when
    the chip is busy or not enabled, an erase sets an unprotected sector to
    0xff, the clock runs, and the slab object behind [flash->command] has room
    for the sixth byte that [m25p_addr2cmd] stores past the five allocated.
    [prompt] adds that the chip ends its operations before the driver's
    deadline and that allocations succeed; without it [m25p80_write] can lose
    pages that it reports as written.

    [m25p_command] of the C structure is the block [BCommand]; the structure's
    mutex only serialises the operations, which are whole functions here.
    [jedec_probe] has no caller in this tree (its call is under #if 0); the
    registration calls of [m25p_probe] are not modelled. *)

From S2P Require Import Prelude SilanSpi.
From Stdlib Require Import ZArith Lia String.
From stdpp Require Import base numbers list option.

Local Open Scope Z_scope.
Local Open Scope spi_scope.

(** ** Constants *)

Definition OPCODE_WREN : Z := 0x06.
Definition OPCODE_RDSR : Z := 0x05.
Definition OPCODE_WRSR : Z := 0x01.
Definition OPCODE_READ : Z := 0x03.
Definition OPCODE_PP : Z := 0x02.
Definition OPCODE_CHIP_ERASE : Z := 0xc7.
Definition OPCODE_SE : Z := 0xd8.
Definition OPCODE_BP : Z := 0x02.
Definition OPCODE_WRDI : Z := 0x04.
Definition OPCODE_AAI_WP : Z := 0xad.
Definition OPCODE_EN4B : Z := 0xb7.
Definition OPCODE_EX4B : Z := 0xe9.
Definition OPCODE_BRWR : Z := 0x17.
Definition SR_WIP : Z := 1.
Definition RD_CMD_TYPE : Z := 6.
Definition WR_CMD_TYPE : Z := 7.
Definition HZ : Z := 100.
Definition MAX_READY_WAIT_JIFFIES : Z := 40 * HZ.
Definition EIO : Z := 5.
Definition CFI_MFR_MACRONIX : Z := 0x00C2.
Definition CFI_MFR_SST : Z := 0x00BF.

(** [struct m25p], with the fields of its [struct mtd_info]. *)
Record m25p : Type := M25p {
  page_size : Z;
  addr_width : Z;
  erase_opcode : Z;
  mtd_size : Z;
  mtd_erasesize : Z
}.

Definition JEDEC_MFR (jedec_id : Z) : Z := jedec_id .>> 16.

Section flash.

Context {E : SpiEnv}.

(** [p[i] = v] for an array of bytes. *)
Definition put_byte (b : blk) (i v : Z) : M unit := store (Some (b, i)) v.

(** ** Internal helper functions *)

Definition read_sr : M Z :=
  put_byte BCode 0 OPCODE_RDSR ;;
  put_byte BCode 1 RD_CMD_TYPE ;;
  retval <- spi_write_then_read (Some (BCode, 0)) 2 (Some (BVal, 0)) 1 ;;
  if retval <? 0 then ret retval else load (Some (BVal, 0)).

Definition write_sr (val : Z) : M Z :=
  put_byte BCommand 0 OPCODE_WRSR ;;
  put_byte BCommand 1 val ;;
  spi_write (Some (BCommand, 0)) 2.

Definition write_enable : M Z :=
  put_byte BCode 0 OPCODE_WREN ;;
  put_byte BCode 1 0 ;;
  spi_write_then_read (Some (BCode, 0)) 2 None 0.

Definition write_disable : M Z :=
  put_byte BCode 0 OPCODE_WRDI ;;
  spi_write_then_read (Some (BCode, 0)) 1 None 0.

Definition set_4byte (jedec_id : Z) (enable : bool) : M Z :=
  if JEDEC_MFR jedec_id =? CFI_MFR_MACRONIX then
    put_byte BCommand 0 (if enable then OPCODE_EN4B else OPCODE_EX4B) ;;
    spi_write (Some (BCommand, 0)) 1
  else
    put_byte BCommand 0 OPCODE_BRWR ;;
    put_byte BCommand 1 (Z.b2z enable .<< 7) ;;
    spi_write (Some (BCommand, 0)) 2.

(** [(long)(a) - (long)(b) >= 0] on 32-bit longs. *)
Definition time_after_eq (a b : Z) : bool := 0 <=? s32 (a - b).

Definition get_jiffies : M Z := gets (fun s => u32 (jiffies (log s))).

Fixpoint wait_loop (n : nat) (deadline : Z) : M Z :=
  match n with
  | O => failM
  | S n' =>
    sr <- read_sr ;;
    if sr <? 0 then ret 1
    else if sr .& SR_WIP =? 0 then ret 0
    else j <- get_jiffies ;; if time_after_eq j deadline then ret 1 else wait_loop n' deadline
  end.

Definition wait_till_ready : M Z :=
  j <- get_jiffies ;; wait_loop (S max_polls) (u32 (j + MAX_READY_WAIT_JIFFIES)).

Definition erase_chip : M Z :=
  r <- wait_till_ready ;;
  if negb (r =? 0) then ret 1 else
  write_enable ;;
  put_byte BCommand 0 OPCODE_CHIP_ERASE ;;
  put_byte BCommand 1 0 ;;
  spi_write (Some (BCommand, 0)) 2 ;;
  ret 0.

(** [addr >> n] on [unsigned int]. *)
Definition shr32 (addr n : Z) : Z := if (0 <=? n) && (n <? 32) then addr .>> n else shr_undef addr n.

(** [cmd[5]] is one byte past the allocation of MAX_CMD_SIZE bytes. *)
Definition m25p_addr2cmd (flash : m25p) (addr : Z) : M unit :=
  put_byte BCommand 2 (shr32 addr (addr_width flash * 8 - 8)) ;;
  put_byte BCommand 3 (shr32 addr (addr_width flash * 8 - 16)) ;;
  put_byte BCommand 4 (shr32 addr (addr_width flash * 8 - 24)) ;;
  put_byte BCommand 5 (shr32 addr (addr_width flash * 8 - 32)).

Definition m25p_cmdsz (flash : m25p) : Z := 2 + addr_width flash.

Definition erase_sector (flash : m25p) (offset : Z) : M Z :=
  r <- wait_till_ready ;;
  if negb (r =? 0) then ret 1 else
  write_enable ;;
  put_byte BCommand 0 (erase_opcode flash) ;;
  put_byte BCommand 1 WR_CMD_TYPE ;;
  m25p_addr2cmd flash offset ;;
  spi_write (Some (BCommand, 0)) (m25p_cmdsz flash) ;;
  ret 0.

(** [while (read_sr(flash)&0x1);] *)
Fixpoint busy_loop (n : nat) : M unit :=
  match n with
  | O => failM
  | S n' => sr <- read_sr ;; if sr .& 0x1 =? 0 then ret tt else busy_loop n'
  end.

Definition read_sr3 (cmd : Z) : M Z :=
  busy_loop (S max_polls) ;;
  put_byte BCode 0 cmd ;;
  put_byte BCode 1 RD_CMD_TYPE ;;
  retval <- spi_write_then_read (Some (BCode, 0)) 2 (Some (BVal, 0)) 1 ;;
  if retval <? 0 then ret retval else load (Some (BVal, 0)).

Definition write_sr3 (val : Z) : M Z :=
  busy_loop (S max_polls) ;;
  write_enable ;;
  put_byte BCommand 0 0x1 ;;
  put_byte BCommand 1 WR_CMD_TYPE ;;
  put_byte BCommand 2 ((val .>> 8) .& 0xff) ;;
  put_byte BCommand 3 (val .& 0xff) ;;
  spi_write (Some (BCommand, 0)) 4.

Definition m25p80_lock : M Z := write_sr3 0x1440 ;; ret 0.
Definition m25p80_unlock : M Z := write_sr3 0x1c40 ;; ret 0.

Definition m25p80_is_locked : M Z :=
  val <- read_sr3 OPCODE_RDSR ;;
  if u8 val =? 0x14 then ret 0 else ret (- 1).

(** ** MTD implementation *)

Inductive erase_state := MTD_ERASE_PENDING | MTD_ERASE_DONE | MTD_ERASE_FAILED.

(** The loop [while (len)]; true when a sector could not be erased. *)
Fixpoint erase_loop (n : nat) (flash : m25p) (addr len : Z) : M bool :=
  if len =? 0 then ret false else
  match n with
  | O => failM
  | S n' =>
    r <- erase_sector flash addr ;;
    if negb (r =? 0) then ret true
    else erase_loop n' flash (u32 (addr + mtd_erasesize flash)) (u32 (len - mtd_erasesize flash))
  end.

(** The status and [instr->state]. *)
Definition m25p80_erase (flash : m25p) (instr_addr instr_len : Z) : M (Z * erase_state) :=
  if mtd_size flash <? u64 (instr_addr + instr_len) then ret (- EINVAL, MTD_ERASE_PENDING)
  else if negb (instr_len mod mtd_erasesize flash =? 0) then ret (- EINVAL, MTD_ERASE_PENDING)
  else
    failed <- erase_loop (Z.to_nat (u32 instr_len)) flash (u32 instr_addr) (u32 instr_len) ;;
    if failed : bool then ret (- EIO, MTD_ERASE_FAILED) else ret (0, MTD_ERASE_DONE).

(** The status and [*retlen], which is [retlen] before the call. *)
Definition m25p80_read (flash : m25p) (from len retlen : Z) (buf : ptr) : M (Z * Z) :=
  if len =? 0 then ret (0, retlen)
  else if mtd_size flash <? u64 (from + len) then ret (- EINVAL, retlen)
  else
    r <- wait_till_ready ;;
    if negb (r =? 0) then ret (1, 0) else
    put_byte BCommand 0 OPCODE_READ ;;
    put_byte BCommand 1 WR_CMD_TYPE ;;
    m25p_addr2cmd flash (u32 from) ;;
    m <- spi_sync [Transfer (Some (BCommand, 0)) None (m25p_cmdsz flash); Transfer None buf len] ;;
    ret (0, m.1.2).

(** [for (i = page_size; i < len; i += page_size)] of [m25p80_write], with the
    transfers the earlier messages left behind. *)
Fixpoint write_loop (n : nat) (flash : m25p) (to len : Z) (buf : ptr) (i retlen : Z) (t0 t1 : spi_transfer) : M Z :=
  if i <? len then
    match n with
    | O => failM
    | S n' =>
      let page := if page_size flash <? u32 (len - i) then page_size flash else u32 (len - i) in
      m25p_addr2cmd flash (u32 (to + i)) ;;
      wait_till_ready ;;
      write_enable ;;
      m <- spi_sync [Transfer (Some (BCommand, 0)) (rx_buf t0) (t_len t0); Transfer (ptr_add buf i) (rx_buf t1) page] ;;
      match m.2 with
      | [t0'; t1'] => write_loop n' flash to len buf (u32 (i + page)) (u32 (retlen + m.1.2)) t0' t1'
      | _ => failM
      end
    end
  else ret retlen.

Definition m25p80_write (flash : m25p) (to len : Z) (buf : ptr) : M (Z * Z) :=
  if len =? 0 then ret (0, 0)
  else if mtd_size flash <? u64 (to + len) then ret (- EINVAL, 0)
  else
    let t0 := Transfer (Some (BCommand, 0)) None (m25p_cmdsz flash) in
    r <- wait_till_ready ;;
    if negb (r =? 0) then ret (1, 0) else
    write_enable ;;
    put_byte BCommand 0 OPCODE_PP ;;
    put_byte BCommand 1 WR_CMD_TYPE ;;
    m25p_addr2cmd flash (u32 to) ;;
    let page_offset := u32 (to .& (page_size flash - 1)) in
    retlen <-
      (if u32 (page_offset + len) <=? page_size flash then
         m <- spi_sync [t0; Transfer buf None len] ;; ret m.1.2
       else
         let page := u32 (page_size flash - page_offset) in
         m <- spi_sync [t0; Transfer buf None page] ;;
         match m.2 with
         | [t0'; t1'] => write_loop (Z.to_nat len) flash to len buf page m.1.2 t0' t1'
         | _ => failM
         end) ;;
    wait_till_ready ;;
    ret (0, retlen).

(** [for (; actual < len - 1; actual += 2)] of [sst_write]: the last [ret] and
    the variables after the loop.  [t[0].tx_buf] is not reset. *)
Fixpoint sst_loop (n : nat) (len : Z) (buf : ptr) (actual to retlen cmd_sz : Z) (t0 t1 : spi_transfer)
    : M (Z * (Z * Z * Z) * (spi_transfer * spi_transfer)) :=
  if actual <? u32 (len - 1) then
    match n with
    | O => failM
    | S n' =>
      m <- spi_sync [Transfer (tx_buf t0) (rx_buf t0) cmd_sz; Transfer (ptr_add buf actual) (rx_buf t1) 2] ;;
      match m.2 with
      | [t0'; t1'] =>
        r <- wait_till_ready ;;
        if negb (r =? 0) then ret (r, (actual, to, retlen), (t0', t1'))
        else sst_loop n' len buf (u32 (actual + 2)) (to + 2) (u32 (retlen + m.1.2 - cmd_sz)) 1 t0' t1'
      | _ => failM
      end
    end
  else ret (0, (actual, to, retlen), (t0, t1)).

Definition sst_write (flash : m25p) (to len : Z) (buf : ptr) : M (Z * Z) :=
  if len =? 0 then ret (0, 0)
  else if mtd_size flash <? u64 (to + len) then ret (- EINVAL, 0)
  else
    let cmdsz := m25p_cmdsz flash in
    let t0 := Transfer (Some (BCommand, 0)) None cmdsz in
    let t1 := Transfer buf None 0 in
    r <- wait_till_ready ;;
    if negb (r =? 0) then ret (r, 0) else
    write_enable ;;
    let actual := to mod 2 in
    first <-
      (if negb (actual =? 0) then
         put_byte BCommand 0 OPCODE_BP ;;
         m25p_addr2cmd flash (u32 to) ;;
         m <- spi_sync [t0; Transfer (tx_buf t1) None 1] ;;
         r <- wait_till_ready ;;
         ret (r, u32 (m.1.2 - cmdsz), default t0 (m.2 !! 0%nat), default t1 (m.2 !! 1%nat))
       else ret (0, 0, t0, t1)) ;;
    let '(r, retlen, t0, t1) := first in
    if negb (r =? 0) then ret (r, 0) else
    put_byte BCommand 0 OPCODE_AAI_WP ;;
    m25p_addr2cmd flash (u32 (to + actual)) ;;
    loop <- sst_loop (Z.to_nat len) len buf actual (to + actual) retlen cmdsz t0 t1 ;;
    let '(r, (actual, to, retlen), (t0, t1)) := loop in
    if negb (r =? 0) then ret (r, retlen) else
    write_disable ;;
    r <- wait_till_ready ;;
    if negb (r =? 0) then ret (r, retlen)
    else if actual =? len then ret (0, retlen)
    else
      write_enable ;;
      put_byte BCommand 0 OPCODE_BP ;;
      m25p_addr2cmd flash (u32 to) ;;
      m <- spi_sync [Transfer (tx_buf t0) (rx_buf t0) cmdsz; Transfer (ptr_add buf actual) (rx_buf t1) 1] ;;
      r <- wait_till_ready ;;
      if negb (r =? 0) then ret (r, retlen) else
      write_disable ;;
      ret (0, u32 (retlen + m.1.2 - cmdsz)).

End flash.

(** ** The chips and their geometry *)

Record flash_info : Type := FlashInfo {
  jedec_id : Z;
  ext_id : Z;
  sector_size : Z;
  n_sectors : Z;
  info_page_size : Z;
  info_addr_width : Z;
  info_flags : Z
}.

Definition SECT_4K : Z := 0x01.
Definition M25P_NO_ERASE : Z := 0x02.

Definition INFO (jedec ext size n flags : Z) : flash_info := FlashInfo jedec ext size n 256 0 flags.
Definition CAT25_INFO (size n page width : Z) : flash_info := FlashInfo 0 0 size n page width M25P_NO_ERASE.

Definition m25p_ids : list (string * flash_info) :=
  [("at25fs010", INFO 0x1f6601 0 (32 * 1024) 4 SECT_4K);
   ("at25fs040", INFO 0x1f6604 0 (64 * 1024) 8 SECT_4K);
   ("at25df041a", INFO 0x1f4401 0 (64 * 1024) 8 SECT_4K);
   ("at25df641", INFO 0x1f4800 0 (64 * 1024) 128 SECT_4K);
   ("at26f004", INFO 0x1f0400 0 (64 * 1024) 8 SECT_4K);
   ("at26df081a", INFO 0x1f4501 0 (64 * 1024) 16 SECT_4K);
   ("at26df161a", INFO 0x1f4601 0 (64 * 1024) 32 SECT_4K);
   ("at26df321", INFO 0x1f4700 0 (64 * 1024) 64 SECT_4K);
   ("en25f32", INFO 0x1c3116 0 (64 * 1024) 64 SECT_4K);
   ("en25p32", INFO 0x1c2016 0 (64 * 1024) 64 0);
   ("en25p64", INFO 0x1c2017 0 (64 * 1024) 128 0);
   ("160s33b", INFO 0x898911 0 (64 * 1024) 32 0);
   ("320s33b", INFO 0x898912 0 (64 * 1024) 64 0);
   ("640s33b", INFO 0x898913 0 (64 * 1024) 128 0);
   ("mx25l4005a", INFO 0xc22013 0 (64 * 1024) 8 SECT_4K);
   ("mx25l8005", INFO 0xc22014 0 (64 * 1024) 16 0);
   ("mx25l1606e", INFO 0xc22015 0 (64 * 1024) 32 SECT_4K);
   ("mx25l3205d", INFO 0xc22016 0 (64 * 1024) 64 0);
   ("mx25l6405d", INFO 0xc22017 0 (64 * 1024) 128 0);
   ("mx25l12805d", INFO 0xc22018 0 (64 * 1024) 256 0);
   ("mx25l12855e", INFO 0xc22618 0 (64 * 1024) 256 0);
   ("mx25l25635e", INFO 0xc22019 0 (64 * 1024) 512 0);
   ("mx25l25655e", INFO 0xc22619 0 (64 * 1024) 512 0);
   ("s25sl004a", INFO 0x010212 0 (64 * 1024) 8 0);
   ("s25sl008a", INFO 0x010213 0 (64 * 1024) 16 0);
   ("s25sl016a", INFO 0x010214 0 (64 * 1024) 32 0);
   ("s25sl032a", INFO 0x010215 0 (64 * 1024) 64 0);
   ("s25sl032p", INFO 0x010215 0x4d00 (64 * 1024) 64 SECT_4K);
   ("s25sl064a", INFO 0x010216 0 (64 * 1024) 128 0);
   ("s25fl256s0", INFO 0x010219 0x4d00 (256 * 1024) 128 0);
   ("s25fl256s1", INFO 0x010219 0x4d01 (64 * 1024) 512 0);
   ("s25fl512s", INFO 0x010220 0x4d00 (256 * 1024) 256 0);
   ("s70fl01gs", INFO 0x010221 0x4d00 (256 * 1024) 256 0);
   ("s25sl12800", INFO 0x012018 0x0300 (256 * 1024) 64 0);
   ("s25sl12801", INFO 0x012018 0x0301 (64 * 1024) 256 0);
   ("s25fl129p0", INFO 0x012018 0x4d00 (256 * 1024) 64 0);
   ("s25fl129p1", INFO 0x012018 0x4d01 (64 * 1024) 256 0);
   ("s25fl016k", INFO 0xef4015 0 (64 * 1024) 32 SECT_4K);
   ("s25fl064k", INFO 0xef4017 0 (64 * 1024) 128 SECT_4K);
   ("sst25vf040b", INFO 0xbf258d 0 (64 * 1024) 8 SECT_4K);
   ("sst25vf080b", INFO 0xbf258e 0 (64 * 1024) 16 SECT_4K);
   ("sst25vf016b", INFO 0xbf2541 0 (64 * 1024) 32 SECT_4K);
   ("sst25vf032b", INFO 0xbf254a 0 (64 * 1024) 64 SECT_4K);
   ("sst25wf512", INFO 0xbf2501 0 (64 * 1024) 1 SECT_4K);
   ("sst25wf010", INFO 0xbf2502 0 (64 * 1024) 2 SECT_4K);
   ("sst25wf020", INFO 0xbf2503 0 (64 * 1024) 4 SECT_4K);
   ("sst25wf040", INFO 0xbf2504 0 (64 * 1024) 8 SECT_4K);
   ("m25p05", INFO 0x202010 0 (32 * 1024) 2 0);
   ("m25p10", INFO 0x202011 0 (32 * 1024) 4 0);
   ("m25p20", INFO 0x202012 0 (64 * 1024) 4 0);
   ("m25p40", INFO 0x202013 0 (64 * 1024) 8 0);
   ("m25p80", INFO 0x202014 0 (64 * 1024) 16 0);
   ("m25p16", INFO 0x202015 0 (64 * 1024) 32 0);
   ("m25p32", INFO 0x202016 0 (64 * 1024) 64 0);
   ("m25p64", INFO 0x202017 0 (64 * 1024) 128 0);
   ("m25p128", INFO 0x202018 0 (256 * 1024) 64 0);
   ("m25p05-nonjedec", INFO 0 0 (32 * 1024) 2 0);
   ("m25p10-nonjedec", INFO 0 0 (32 * 1024) 4 0);
   ("m25p20-nonjedec", INFO 0 0 (64 * 1024) 4 0);
   ("m25p40-nonjedec", INFO 0 0 (64 * 1024) 8 0);
   ("m25p80-nonjedec", INFO 0 0 (64 * 1024) 16 0);
   ("m25p16-nonjedec", INFO 0 0 (64 * 1024) 32 0);
   ("m25p32-nonjedec", INFO 0 0 (64 * 1024) 64 0);
   ("m25p64-nonjedec", INFO 0 0 (64 * 1024) 128 0);
   ("m25p128-nonjedec", INFO 0 0 (256 * 1024) 64 0);
   ("m45pe10", INFO 0x204011 0 (64 * 1024) 2 0);
   ("m45pe80", INFO 0x204014 0 (64 * 1024) 16 0);
   ("m45pe16", INFO 0x204015 0 (64 * 1024) 32 0);
   ("m25pe80", INFO 0x208014 0 (64 * 1024) 16 0);
   ("m25pe16", INFO 0x208015 0 (64 * 1024) 32 SECT_4K);
   ("m25px32", INFO 0x207116 0 (64 * 1024) 64 SECT_4K);
   ("m25px32-s0", INFO 0x207316 0 (64 * 1024) 64 SECT_4K);
   ("m25px32-s1", INFO 0x206316 0 (64 * 1024) 64 SECT_4K);
   ("m25px64", INFO 0x207117 0 (64 * 1024) 128 0);
   ("w25x10", INFO 0xef3011 0 (64 * 1024) 2 SECT_4K);
   ("w25x20", INFO 0xef3012 0 (64 * 1024) 4 SECT_4K);
   ("w25x40", INFO 0xef3013 0 (64 * 1024) 8 SECT_4K);
   ("w25x80", INFO 0xef3014 0 (64 * 1024) 16 SECT_4K);
   ("w25x16", INFO 0xef3015 0 (64 * 1024) 32 SECT_4K);
   ("w25x32", INFO 0xef3016 0 (64 * 1024) 64 SECT_4K);
   ("w25q32", INFO 0xef4016 0 (64 * 1024) 64 SECT_4K);
   ("w25x64", INFO 0xef3017 0 (64 * 1024) 128 SECT_4K);
   ("w25q64", INFO 0xef4017 0 (64 * 1024) 128 SECT_4K);
   ("cat25c11", CAT25_INFO 16 8 16 1);
   ("cat25c03", CAT25_INFO 32 8 16 2);
   ("cat25c09", CAT25_INFO 128 8 32 2);
   ("cat25c17", CAT25_INFO 256 8 32 2);
   ("cat25128", CAT25_INFO 2048 8 64 2)]%string.

(** [strcmp] search of [m25p_probe] for the type of the platform data. *)
Definition probe_id (type : string) : option flash_info :=
  snd <$> List.find (fun e => String.eqb type (fst e)) m25p_ids.

(** The geometry [m25p_probe] sets up for a chip. *)
Definition probe_geometry (info : flash_info) : m25p :=
  let size := u32 (sector_size info * n_sectors info) in
  M25p (info_page_size info)
    (if info_addr_width info =? 0 then (if 0x1000000 <? size then 4 else 3) else info_addr_width info)
    OPCODE_SE size
    (if info_flags info .& SECT_4K =? 0 then sector_size info else 64 * 1024).

(** Whether the probe function installs [sst_write] as [mtd.write]. *)
Definition probe_sst (info : flash_info) : bool := JEDEC_MFR (jedec_id info) =? CFI_MFR_SST.

(** ** The flash chip *)

(** Transactions of the driver, as [SilanSpi.wire_of] reads them off the log. *)
Definition STATUS : txn := ([0x605], []).
Definition WREN : txn := ([0x006], []).
Definition addr_bytes (a : Z) : list Z := [u8 (a .>> 16); u8 (a .>> 8); u8 a].
Definition PROGRAM (a : Z) (ds : list Z) : txn := ([0x702], addr_bytes a ++ ds).
Definition SECTOR_ERASE (a : Z) : txn := ([0x7d8], addr_bytes a).
Definition NO_ADDRESS : txn := ([0x7d8], []).
Definition READ (a : Z) : txn := ([0x703; 0x603], addr_bytes a).

Class NorChip := {
  chip : Type;
  chip0 : chip;                    (* the chip when the log is empty *)
  exec : chip -> txn -> chip;
  cell : chip -> Z -> Z;           (* memory, once pending work is done *)
  locked : chip -> Z -> bool;      (* protected by the bits of the status register *)
  busy : chip -> bool;             (* a program or erase is in progress *)
  wel : chip -> bool               (* the write-enable latch *)
}.

Definition chip_of `{NorChip} (T : list txn) : chip := foldl exec chip0 T.

(** The same memory and protection. *)
Definition same `{NorChip} (c c' : chip) : Prop := forall x, cell c' x = cell c x /\ locked c' x = locked c x.

(** What the driver relies on, for chips with the geometry [fl]. *)
Class FlashOk `{E : SpiEnv, N : NorChip} (fl : m25p) : Prop := {
  exec_status c : same c (exec c STATUS) /\ (busy c = false -> busy (exec c STATUS) = false);
  exec_wren c : same c (exec c WREN) /\ (busy c = false -> busy (exec c WREN) = false /\ wel (exec c WREN) = true);
  exec_read c a : same c (exec c (READ a)) /\ (busy c = false -> busy (exec c (READ a)) = false);
  (* a page program clears bits, inside one page; a busy chip and one that is not write-enabled ignore it *)
  exec_program c a ds : 0 <= a < 2 ^ 24 -> a mod page_size fl + zlen ds <= page_size fl ->
    forall x, locked (exec c (PROGRAM a ds)) x = locked c x /\ cell (exec c (PROGRAM a ds)) x =
      if negb (busy c) && wel c && bool_decide (a <= x < a + zlen ds) && negb (locked c x)
      then cell c x .& znth ds (x - a) else cell c x;
  (* a sector erase takes any address of the sector *)
  exec_erase c a : busy c = false -> wel c = true -> 0 <= a < 2 ^ 24 ->
    (forall x, x / mtd_erasesize fl = a / mtd_erasesize fl -> locked c x = false) ->
    forall x, locked (exec c (SECTOR_ERASE a)) x = locked c x /\ cell (exec c (SECTOR_ERASE a)) x =
      if x / mtd_erasesize fl =? a / mtd_erasesize fl then 0xff else cell c x;
  (* an erase command without its address is not executed *)
  exec_no_address c : same c (exec c NO_ADDRESS);
  (* what the data register returns in a status read and in a memory read *)
  status_read h T : wire_of h = Wire T [0x605] [] 1 -> u8 (hw_read h SPI_DATA) .& SR_WIP = 0 <-> busy (chip_of T) = false;
  memory_read h T a i : wire_of h = Wire T [0x703; 0x603] (addr_bytes a) (S i) -> busy (chip_of T) = false ->
    0 <= a < 2 ^ 24 -> a + Z.of_nat i < mtd_size fl -> u8 (hw_read h SPI_DATA) = cell (chip_of T) (a + Z.of_nat i);
  (* the clock runs: the deadline of a wait passes within [max_polls] status reads *)
  clock_runs h l : (max_polls <= length l <= S max_polls * (spin + 7))%nat ->
    time_after_eq (u32 (jiffies (h ++ l))) (u32 (u32 (jiffies h) + MAX_READY_WAIT_JIFFIES)) = true;
  (* the smallest slab object is larger than MAX_CMD_SIZE bytes *)
  command_slab : 6 <= command_room
}.

(** The chip ends its operations within [op_polls] status reads and before the
    deadline of the driver, and the small allocations of the SPI core succeed. *)
Record prompt `{E : SpiEnv, N : NorChip} (op_polls : nat) : Prop := {
  op_polls_le : (op_polls <= max_polls)%nat;
  finishes c : busy (Nat.iter op_polls (fun c => exec c STATUS) c) = false;
  in_time h l : (length l <= op_polls * (spin + 7))%nat ->
    time_after_eq (u32 (jiffies (h ++ l))) (u32 (u32 (jiffies h) + MAX_READY_WAIT_JIFFIES)) = false;
  small_kmalloc n : kmalloc_ok n = true
}.

(** The geometry the proofs rely on. *)
Definition geometry_ok (fl : m25p) : bool :=
  (addr_width fl =? 3) && (erase_opcode fl =? OPCODE_SE) && (0 <? page_size fl) && (page_size fl <? 2 ^ 16) &&
  (page_size fl =? 2 ^ Z.log2 (page_size fl)) && (mtd_size fl <=? 2 ^ 24) && (0 <? mtd_erasesize fl) &&
  (mtd_size fl mod mtd_erasesize fl =? 0).

(** ** The driver's helpers

    [full] says that nothing goes wrong on the way: with it the lemmas give
    the whole effect, without it what is left of it. *)

Section driver.

Context {E : SpiEnv} {EO : SpiEnvOk} {N : NorChip} (fl : m25p) {FO : FlashOk fl}.
Context (full : bool) (op_polls : nat) (Hfull : full = true -> prompt op_polls).

(** Between two messages the wire is idle after the transactions [T]. *)
Record idle (s : spi_st) (T : list txn) : Prop := {
  idle_heap : heap_ok s;
  idle_wire : exists r, wire_of (log s) = Wire T [] [] r
}.

Definition frame (s s' : spi_st) : Prop := forall b o, b = BCommand \/ b = BUser -> mem s' b o = mem s b o.

Lemma frame_refl s : frame s s.
Proof. by intros b o _. Qed.

Lemma frame_trans s1 s2 s3 : frame s1 s2 -> frame s2 s3 -> frame s1 s3.
Proof. intros H1 H2 b o Hb. rewrite H2, H1; done. Qed.

Lemma same_refl c : same c c.
Proof. by intros x. Qed.

Lemma same_trans c1 c2 c3 : same c1 c2 -> same c2 c3 -> same c1 c3.
Proof. intros H1 H2 x. destruct (H1 x) as [<- <-]. apply H2. Qed.

Lemma put_byte_eq {B} b i v (k : unit -> M B) s : heap_ok s -> driver_blk b = true -> 0 <= i < blk_size b ->
  bindM (put_byte b i v) k s = k tt (set_mem s (upd (mem s) b i (u8 v))).
Proof. intros Hs Hb Hi. apply bind_store; [by apply (heap_driver _ Hs)|done]. Qed.

Lemma put_code_eq {B} i v (k : unit -> M B) s : heap_ok s -> 0 <= i < 2 ->
  bindM (put_byte BCode i v) k s = k tt (set_mem s (upd (mem s) BCode i (u8 v))).
Proof. intros Hs Hi. by apply put_byte_eq. Qed.

Lemma command_byte i : 0 <= i < 6 -> 0 <= i < blk_size BCommand.
Proof. intros Hi. pose proof command_slab. cbn. lia. Qed.

Lemma put_cmd_eq {B} i v (k : unit -> M B) s : heap_ok s -> 0 <= i < 6 ->
  bindM (put_byte BCommand i v) k s = k tt (set_mem s (upd (mem s) BCommand i (u8 v))).
Proof. intros Hs Hi. apply put_byte_eq; [done|done|by apply command_byte]. Qed.

Lemma set_mem_heap s m : heap_ok s -> heap_ok (set_mem s m).
Proof. by apply heap_ok_ext. Qed.

Lemma chip_of_snoc T t : chip_of (T ++ [t]) = exec (chip_of T) t.
Proof. unfold chip_of. by rewrite foldl_app. Qed.

Lemma kmalloc_full n : kmalloc_ok n = false -> full = false.
Proof. intros Hn. destruct full; [|done]. by rewrite (small_kmalloc _ (Hfull eq_refl)) in Hn. Qed.

Hint Resolve frame_refl same_refl set_mem_heap : core.

Lemma code_frame s s1 s' x y : mem s1 = upd (upd (mem s) BCode 0 x) BCode 1 y -> keeps s1 s' -> frame s s'.
Proof.
  intros Hm Hk b o Hb. rewrite Hk, Hm by (destruct Hb as [-> | ->]; done). by rewrite !upd_ne by (left; destruct Hb as [-> | ->]; done).
Qed.

Lemma write_enable_ok s T : idle s T -> exists v s' T', write_enable s = Some (v, s') /\ idle s' T' /\ frame s s' /\
  (T' = T ++ [WREN] \/ full = false /\ T' = T).
Proof.
  intros [Hh [r Hw]]. unfold write_enable. rewrite !put_code_eq by (by auto). cbn [mem set_mem].
  match goal with |- context [spi_write_then_read _ _ _ _ ?s1] => destruct (wtr_send_ok s1 BCode 0 T r) as (v & s' & Hr & Hh' & Hk & _ & Hcase) end;
    [by auto|done|lia|by vm_compute|done|].
  destruct Hcase as [[-> Hw']|(-> & Hbad & Hlog)].
  - exists 0, s', (T ++ [WREN]). split; [done|]. split; [split; [done|]|split; [eapply code_frame; [|exact Hk]; reflexivity|by left]].
    exists 0%nat. exact Hw'.
  - exists (- ENOMEM), s', T. split; [done|]. split; [split; [done|exists r; by rewrite Hlog]|].
    split; [eapply code_frame; [|exact Hk]; reflexivity|]. right. split; [by eapply kmalloc_full|done].
Qed.

Lemma read_sr_ok s T : idle s T -> exists v s' l T', read_sr s = Some (v, s') /\ idle s' T' /\ frame s s' /\
  log s' = log s ++ l /\ (length l <= spin + 7)%nat /\
  (0 <= v /\ T' = T ++ [STATUS] /\ (0 < length l)%nat /\ (v .& SR_WIP = 0 <-> busy (chip_of T) = false) \/ v < 0 /\ full = false /\ T' = T).
Proof.
  intros [Hh [r Hw]]. unfold read_sr. rewrite !put_code_eq by (by auto).
  match goal with |- context [bindM (spi_write_then_read _ _ _ _) _ ?s1] => destruct (wtr_recv_ok s1 BCode 0 T r)
    as (v & s' & Hr & Hh' & Hk & _ & Hcase) end; [by auto|done|lia|by vm_compute|done|].
  rewrite (bind_eq _ _ _ _ _ Hr). assert (frame s s') as Hf by (eapply code_frame; [|exact Hk]; reflexivity).
  destruct Hcase as [(-> & Hw' & Hd & l & Hl & Hlen)|(-> & Hbad & Hlog)]; cbn [Z.ltb Z.compare Z.opp].
  - exists (u8 (mem s' BVal 0)), s', l, (T ++ [STATUS]). split.
    { apply load_ok; [by apply (heap_driver _ Hh')|by vm_compute]. }
    split; [split; [done|by exists 0%nat]|]. split; [done|]. split; [done|]. split; [lia|]. left.
    split; [apply u8_range|]. split; [done|]. split; [lia|].
    destruct (Hd 0%nat _ eq_refl) as (h & Hwh & ->). by apply status_read.
  - exists (- ENOMEM), s', [], T. split; [done|]. split; [split; [done|exists r; by rewrite Hlog]|]. rewrite app_nil_r.
    split; [done|]. split; [done|]. split; [cbn; lia|]. right. split; [done|]. split; [by eapply kmalloc_full|done].
Qed.

Definition poll (c : chip) : chip := exec c STATUS.

(** The chip after a wait that returns [r]: ready if [r] is 0, with the memory it had. *)
Record waited (r : Z) (s s' : spi_st) (T T' : list txn) : Prop := {
  waited_idle : idle s' T';
  waited_frame : frame s s';
  waited_same : same (chip_of T) (chip_of T');
  waited_busy : r = 0 -> busy (chip_of T') = false
}.

Lemma waited_trans r s s1 s' T T1 T' : frame s s1 -> same (chip_of T) (chip_of T1) -> waited r s1 s' T1 T' -> waited r s s' T T'.
Proof. intros Hf Hs [Hi Hf' Hs' Hb]. split; [done|by eapply frame_trans|by eapply same_trans|done]. Qed.

(** Any chip: the wait ends, because the clock runs. *)
Lemma wait_loop_any n : forall s T h l, idle s T -> log s = h ++ l -> (n <= max_polls)%nat ->
  (max_polls - n <= length l <= (max_polls - n) * (spin + 7))%nat ->
  exists r s' T', wait_loop (S n) (u32 (u32 (jiffies h) + MAX_READY_WAIT_JIFFIES)) s = Some (r, s') /\ waited r s s' T T' /\ (r = 0 \/ r = 1).
Proof.
  induction n as [|n IH]; intros s T h l Hi Hlog Hn Hlen; cbn [wait_loop];
    destruct (read_sr_ok s T Hi) as (v & s1 & l1 & T1 & Hr & Hi1 & Hf & Hl1 & Hlen1 & [(Hv & -> & Hpos & Hwip)|(Hv & _ & ->)]); rewrite (bind_eq _ _ _ _ _ Hr).
  2, 4: rewrite (proj2 (Z.ltb_lt _ _)) by lia; exists 1, s1, T; split; [done|]; split; [by split|by right].
  all: rewrite (proj2 (Z.ltb_ge _ _)) by lia; assert (same (chip_of T) (chip_of (T ++ [STATUS]))) as Hsame by (rewrite chip_of_snoc; apply exec_status);
    (destruct (Z.eqb_spec (v .& SR_WIP) 0) as [Hz|Hz];
     [exists 0, s1, (T ++ [STATUS]); split; [done|]; split; [split; [done..|]; intros _; rewrite chip_of_snoc; by apply exec_status, Hwip|by left]|]);
    unfold get_jiffies; rewrite bind_gets, Hl1, Hlog, <- app_assoc.
  - rewrite clock_runs by (rewrite length_app; lia). exists 1, s1, (T ++ [STATUS]). split; [done|]. split; [by split|by right].
  - destruct (time_after_eq _ _); [exists 1, s1, (T ++ [STATUS]); split; [done|]; split; [by split|by right]|].
    destruct (IH s1 (T ++ [STATUS]) h (l ++ l1)) as (r & s' & T' & Hrun & Hw & Hr01); [done|by rewrite Hl1, Hlog, app_assoc|lia|rewrite length_app; nia|].
    exists r, s', T'. split; [done|]. split; [by eapply waited_trans|done].
Qed.

(** A prompt chip: the wait succeeds. *)
Lemma wait_loop_full n : full = true -> forall m s T h l, idle s T -> log s = h ++ l -> (n <= op_polls)%nat -> (n <= m)%nat ->
  (length l <= (op_polls - n) * (spin + 7))%nat -> busy (Nat.iter n poll (chip_of T)) = false ->
  exists s' T', wait_loop (S m) (u32 (u32 (jiffies h) + MAX_READY_WAIT_JIFFIES)) s = Some (0, s') /\ waited 0 s s' T T'.
Proof.
  intros Hft. induction n as [|n IH]; intros m s T h l Hi Hlog Hn Hm Hlen Hb; cbn [wait_loop];
    destruct (read_sr_ok s T Hi) as (v & s1 & l1 & T1 & Hr & Hi1 & Hf & Hl1 & Hlen1 & [(Hv & -> & Hpos & Hwip)|(_ & ? & _)]);
    try congruence; rewrite (bind_eq _ _ _ _ _ Hr); rewrite (proj2 (Z.ltb_ge _ _)) by lia;
    assert (same (chip_of T) (chip_of (T ++ [STATUS]))) as Hsame by (rewrite chip_of_snoc; apply exec_status);
    (destruct (Z.eqb_spec (v .& SR_WIP) 0) as [Hz|Hz];
     [exists s1, (T ++ [STATUS]); split; [done|]; split; [done..|]; intros _; rewrite chip_of_snoc; by apply exec_status, Hwip|]).
  - by apply Hwip in Hb.
  - destruct m as [|m]; [lia|]. unfold get_jiffies. rewrite bind_gets, Hl1, Hlog, <- app_assoc, (in_time _ (Hfull Hft)).
    2: { rewrite length_app. nia. }
    destruct (IH m s1 (T ++ [STATUS]) h (l ++ l1)) as (s' & T' & Hrun & Hw); [done|by rewrite Hl1, Hlog, app_assoc|lia|lia|rewrite length_app; nia| |].
    + rewrite chip_of_snoc. by rewrite Nat.iter_succ_r in Hb.
    + exists s', T'. split; [done|]. by eapply waited_trans.
Qed.

Lemma wait_till_ready_ok s T : idle s T -> exists r s' T', wait_till_ready s = Some (r, s') /\ waited r s s' T T' /\
  (r = 0 \/ r = 1 /\ full = false).
Proof.
  intros Hi. unfold wait_till_ready, get_jiffies. rewrite bind_gets. destruct (decide (full = true)) as [Hft|Hft%not_true_is_false].
  - destruct (wait_loop_full op_polls Hft max_polls s T (log s) []) as (s' & T' & Hr & Hw); [done|by rewrite app_nil_r|done|apply (op_polls_le _ (Hfull Hft))|cbn; lia| |].
    + apply (finishes _ (Hfull Hft)).
    + exists 0, s', T'. split; [done|]. split; [done|by left].
  - destruct (wait_loop_any max_polls s T (log s) []) as (r & s' & T' & Hr & Hw & Hr01); [done|by rewrite app_nil_r|done|cbn; lia|].
    exists r, s', T'. split; [done|]. split; [done|]. destruct Hr01; [by left|by right].
Qed.

Lemma geometry (Hg : geometry_ok fl = true) :
  addr_width fl = 3 /\ erase_opcode fl = OPCODE_SE /\ (exists k, 0 <= k < 16 /\ page_size fl = 2 ^ k) /\ mtd_size fl <= 2 ^ 24 /\
  0 < mtd_erasesize fl /\ mtd_size fl mod mtd_erasesize fl = 0.
Proof.
  unfold geometry_ok in Hg. rewrite !andb_true_iff, !Z.eqb_eq, !Z.ltb_lt, Z.leb_le in Hg.
  destruct Hg as [[[[[[[? ?] ?] ?] Hp] ?] ?] ?]. split; [done|]. split; [done|]. split; [|done].
  exists (Z.log2 (page_size fl)). split; [|done]. split; [apply Z.log2_nonneg|]. apply Z.log2_lt_pow2; lia.
Qed.

Context (Hg : geometry_ok fl = true).

Lemma addr2cmd_ok a s : heap_ok s -> exists m, m25p_addr2cmd fl a s = Some (tt, set_mem s m) /\
  bytes m BCommand 2 3 = addr_bytes a /\ (forall b o, b <> BCommand \/ o < 2 -> m b o = mem s b o).
Proof.
  intros Hh. destruct (geometry Hg) as (Haw & _). unfold m25p_addr2cmd. rewrite Haw.
  eexists. rewrite !put_cmd_eq by (by auto). unfold put_byte, store. cbn [mbind option_bind].
  rewrite valid_ok; [|by apply (heap_driver _ Hh)|by apply command_byte]. cbn [mem set_mem]. split; [done|]. split.
  - unfold addr_bytes. cbn [bytes]. change (2 + 1 + 1) with 4. change (2 + 1) with 3.
    rewrite !(upd_ne _ _ 5), upd_eq, (upd_ne _ _ 4 _ _ 3), upd_eq, (upd_ne _ _ 4 _ _ 2), (upd_ne _ _ 3 _ _ 2), upd_eq by (right; lia).
    unfold u8. by rewrite !uwrap_idem by lia.
  - intros b o Hb. by rewrite !upd_ne by (destruct Hb; [by left|right; lia]).
Qed.

(** [ds] was programmed at [a], where the cells are not protected; if not [full],
    bytes may have been lost. *)
Definition programmed (c c' : chip) (a : Z) (ds : list Z) : Prop :=
  forall x, locked c' x = locked c x /\
    if bool_decide (a <= x < a + zlen ds) && negb (locked c x)
    then cell c' x = cell c x .& znth ds (x - a) \/ full = false /\ cell c' x = cell c x
    else cell c' x = cell c x.

Lemma programmed_nil c a : programmed c c a [].
Proof. intros x. by rewrite bool_decide_eq_false_2 by (cbn; lia). Qed.

Lemma programmed_app c c1 c2 a ds es :
  programmed c c1 a ds -> programmed c1 c2 (a + zlen ds) es -> programmed c c2 a (ds ++ es).
Proof.
  intros H1 H2 x. specialize (H1 x) as [L1 H1]. specialize (H2 x) as [L2 H2]. rewrite L2, L1. split; [done|].
  rewrite L1 in H2. rewrite length_app. destruct (locked c x); [by rewrite !andb_false_r in *; rewrite H2|]. rewrite !andb_true_r in *.
  repeat case_bool_decide; try lia; try (rewrite H1 in H2); try done.
  - rewrite znth_app_r by lia. replace (x - a - zlen ds) with (x - (a + zlen ds)) by lia. done.
  - rewrite H2. by rewrite znth_app_l by lia.
Qed.

Lemma programmed_same c c0 c1 c' a ds : same c c0 -> programmed c0 c1 a ds -> same c1 c' -> programmed c c' a ds.
Proof. intros Hc Hp Hs x. destruct (Hp x) as [L H], (Hc x) as [Ec El], (Hs x) as [-> ->]. rewrite El, ?Ec in *. done. Qed.

Lemma sync_program_ok s T a n o : idle s T -> 0 <= o -> o + Z.of_nat n <= user_room -> cmd_half (mem s) BCommand 0 = 0x702 -> bytes (mem s) BCommand 2 3 = addr_bytes a ->
  0 < Z.of_nat n < 2 ^ 31 -> exists s', spi_sync [Transfer (Some (BCommand, 0)) None 5; Transfer (Some (BUser, o)) None (Z.of_nat n)] s =
      Some (Z.of_nat n, Z.of_nat n, [Transfer (Some (BCommand, 5)) None 5; Transfer (Some (BUser, o + Z.of_nat n)) None (Z.of_nat n)], s') /\
    idle s' (T ++ [PROGRAM a (bytes (mem s) BUser o n)]) /\ mem s' = mem s.
Proof.
  intros [Hh [r Hw]] Ho Hob Hc Ha Hn. pose proof command_slab.
  destruct (sync_write_ok 2 n s BCommand 0 BUser o) as (l & Hr & Hl); [by apply (heap_driver _ Hh)|lia|cbn; lia|by apply (heap_driver _ Hh)|lia|cbn; lia|lia|lia|].
  eexists. split; [exact Hr|]. split; [|done]. split; [by eapply heap_ok_ext; [..|exact Hh]|]. exists 0%nat.
  match goal with |- wire_of ?h = _ => change h with (log s ++ l) end. rewrite wire_of_app, Hw, Hl by done.
  change (0 + 2) with 2. rewrite Hc, Ha. done.
Qed.

(** The chip after a write enable, with its latch set if nothing went wrong. *)
Record armed (s s' : spi_st) (T T' : list txn) : Prop := {
  armed_idle : idle s' T';
  armed_frame : frame s s';
  armed_same : same (chip_of T) (chip_of T');
  armed_wel : full = true -> busy (chip_of T') = false /\ wel (chip_of T') = true
}.

Lemma enable_ok r s0 s T0 T : waited r s0 s T0 T -> r = 0 \/ r = 1 /\ full = false ->
  exists v s' T', write_enable s = Some (v, s') /\ armed s0 s' T0 T'.
Proof.
  intros [Hi Hf Hs Hb] Hr. destruct (write_enable_ok s T Hi) as (v & s' & T' & He & Hi' & Hf' & HT'). exists v, s', T'. split; [done|].
  assert (frame s0 s') as Hfr by (by eapply frame_trans). destruct HT' as [->|[Hno ->]].
  - destruct (exec_wren (chip_of T)) as [Hw1 Hw2]. rewrite <- chip_of_snoc in *. split; [done|done|by eapply same_trans|].
    intros Hft. apply Hw2, Hb. destruct Hr as [|[_ ?]]; [done|congruence].
  - split; [done..|]. congruence.
Qed.

Definition user_kept (s s' : spi_st) : Prop := forall o, mem s' BUser o = mem s BUser o.

Definition page_done (s s' : spi_st) (T T' : list txn) (a o : Z) (n : nat) : Prop :=
  idle s' T' /\ user_kept s s' /\ cmd_half (mem s') BCommand 0 = 0x702 /\
  programmed (chip_of T) (chip_of T') a (bytes (mem s) BUser o n).

Lemma exec_programmed c a ds : 0 <= a < 2 ^ 24 -> a mod page_size fl + zlen ds <= page_size fl ->
  (full = true -> busy c = false /\ wel c = true) -> programmed c (exec c (PROGRAM a ds)) a ds.
Proof.
  intros Ha Hp Hw x. destruct (exec_program c a ds Ha Hp x) as [-> ->]. split; [done|].
  destruct (bool_decide (a <= x < a + zlen ds)), (locked c x); cbn [andb negb]; rewrite ?andb_false_r; try done.
  rewrite !andb_true_r. destruct (decide (full = true)) as [Hft|Hft%not_true_is_false].
  - destruct (Hw Hft) as [-> ->]. by left.
  - destruct (negb (busy c) && wel c); [by left|by right].
Qed.

(** A program message in a state [s] reached from [s0] after a write enable. *)
Lemma program_ok s0 s s1 T0 T a n o m : armed s0 s1 T0 T -> s = set_mem s1 m -> (forall o, m BUser o = mem s1 BUser o) ->
  cmd_half m BCommand 0 = 0x702 -> bytes m BCommand 2 3 = addr_bytes a -> 0 <= o -> o + Z.of_nat n <= user_room ->
  0 < Z.of_nat n < 2 ^ 31 -> 0 <= a < 2 ^ 24 -> a mod page_size fl + Z.of_nat n <= page_size fl ->
  exists s' T', spi_sync [Transfer (Some (BCommand, 0)) None 5; Transfer (Some (BUser, o)) None (Z.of_nat n)] s =
      Some (Z.of_nat n, Z.of_nat n, [Transfer (Some (BCommand, 5)) None 5; Transfer (Some (BUser, o + Z.of_nat n)) None (Z.of_nat n)], s') /\
    page_done s0 s' T0 T' a o n.
Proof.
  intros [[Hh Hw] Hf Hc Hwel] -> Hu Hcmd Ha Ho Hob Hn Har Hp.
  destruct (sync_program_ok (set_mem s1 m) T a n o) as (s' & Hr & Hi' & Hm); [split; [by auto|done]|done..|].
  exists s', (T ++ [PROGRAM a (bytes m BUser o n)]). split; [done|]. split; [done|].
  assert (bytes m BUser o n = bytes (mem s0) BUser o n) as Hbytes
    by (apply bytes_ext; intros i _; rewrite Hu; apply Hf; by right).
  split; [intros i; rewrite Hm; cbn; rewrite Hu; apply Hf; by right|]. split; [by rewrite Hm|].
  rewrite chip_of_snoc, Hbytes. eapply programmed_same; [exact Hc|apply exec_programmed; [done|by rewrite bytes_length|done]|done].
Qed.

Lemma page_ok s T a n o : idle s T -> cmd_half (mem s) BCommand 0 = 0x702 -> 0 <= o -> o + Z.of_nat n <= user_room ->
  0 < Z.of_nat n < 2 ^ 31 -> 0 <= a < 2 ^ 24 -> a mod page_size fl + Z.of_nat n <= page_size fl ->
  exists s' T', (forall B (k : _ -> M B), (m25p_addr2cmd fl a ;; wait_till_ready ;; write_enable ;;
      m <- spi_sync [Transfer (Some (BCommand, 0)) None 5; Transfer (Some (BUser, o)) None (Z.of_nat n)] ;; k m) s =
    k (Z.of_nat n, Z.of_nat n, [Transfer (Some (BCommand, 5)) None 5; Transfer (Some (BUser, o + Z.of_nat n)) None (Z.of_nat n)]) s') /\
    page_done s s' T T' a o n.
Proof.
  intros Hi Hcmd Ho Hob Hn Ha Hp.
  destruct (addr2cmd_ok a s (idle_heap _ _ Hi)) as (m & H0 & Hab & Hm).
  assert (idle (set_mem s m) T) as Hi1 by (destruct Hi; split; by auto).
  destruct (wait_till_ready_ok _ _ Hi1) as (r & s1 & T1 & H1 & Hr1 & Hr). destruct (enable_ok _ _ _ _ _ Hr1 Hr) as (v & s2 & T2 & H2 & Har).
  assert (forall x, mem s2 BCommand x = m BCommand x) as Hm2 by (intros x; by apply (armed_frame _ _ _ _ Har); left).
  destruct (program_ok (set_mem s m) s2 s2 T T2 a n o (mem s2)) as (s' & T' & Hrun & Hid & Hu & Hcm & Hpr); try done.
  - by destruct s2.
  - unfold cmd_half. rewrite !Hm2, !Hm by (right; lia). exact Hcmd.
  - rewrite <- Hab. by apply bytes_ext.
  - exists s', T'. split.
    { intros B k. by rewrite (bind_eq _ _ _ _ _ H0), (bind_eq _ _ _ _ _ H1), (bind_eq _ _ _ _ _ H2), (bind_eq _ _ _ _ _ Hrun). }
    split; [done|]. split; [intros x; rewrite Hu; apply Hm; by left|]. split; [done|].
    erewrite bytes_ext; [exact Hpr|]. intros x _. symmetry. apply Hm. by left.
Qed.

Lemma write_loop_ok n : forall s T to len o i t0 t1, idle s T -> cmd_half (mem s) BCommand 0 = 0x702 -> 0 <= o -> o + len <= user_room ->
  rx_buf t0 = None -> t_len t0 = 5 -> rx_buf t1 = None -> 0 <= to -> to + len <= 2 ^ 24 -> 0 <= i <= len ->
  (i < len -> (to + i) mod page_size fl = 0) -> len - i <= Z.of_nat n ->
  exists s' T', write_loop n fl to len (Some (BUser, o)) i i t0 t1 s = Some (len, s') /\ idle s' T' /\ user_kept s s' /\
    programmed (chip_of T) (chip_of T') (to + i) (bytes (mem s) BUser (o + i) (Z.to_nat (len - i))).
Proof.
  destruct (geometry Hg) as (_ & _ & (k & Hk & Hps) & _).
  assert (0 < page_size fl < 2 ^ 16) as Hpage by (rewrite Hps; split; [lia|apply Z.pow_lt_mono_r; lia]).
  induction n as [|n IH]; intros s T to len o i t0 t1 Hi Hcmd Ho Hob Ht0 Hl0 Ht1 Hto Htl Hil Hal Hn; cbn [write_loop];
    (destruct (Z.ltb_spec i len) as [Hlt|Hge];
     [|exists s, T; assert (i = len) as -> by lia; rewrite Z.sub_diag; split; [done|]; split; [done|]; split; [by intros ?|apply programmed_nil]]).
  - lia.
  - rewrite (u32_small (len - i)), (u32_small (to + i)), Ht0, Hl0, Ht1 by lia. cbn [ptr_add fmap option_fmap option_map fst snd].
    set (pg := if page_size fl <? len - i then page_size fl else len - i).
    assert (0 < pg <= len - i /\ pg <= page_size fl /\ (pg < len - i -> pg = page_size fl)) as (Hpg & Hpg' & Hpgf)
      by (unfold pg; destruct (Z.ltb_spec (page_size fl) (len - i)); lia).
    specialize (Hal Hlt). destruct (page_ok s T (to + i) (Z.to_nat pg) (o + i)) as (s1 & T1 & Hrun & Hi1 & Hu1 & Hc1 & Hp1); try done; try lia.
    rewrite Z2Nat.id in Hrun by lia. rewrite Hrun. clear Hrun. cbn [fst snd]. rewrite (u32_small (i + pg)) by lia.
    destruct (IH s1 T1 to len o (i + pg) (Transfer (Some (BCommand, 5)) None 5) (Transfer (Some (BUser, o + i + pg)) None pg))
      as (s' & T' & Hrun & Hi' & Hu' & Hp'); try done; try lia.
    { intros Hlt'. rewrite Hpgf by lia. replace (to + (i + page_size fl)) with (to + i + 1 * page_size fl) by lia.
      rewrite Z.mod_add; lia. }
    exists s', T'. split; [exact Hrun|]. split; [done|]. split; [intros x; by rewrite Hu', Hu1|].
    replace (Z.to_nat (len - i)) with (Z.to_nat pg + Z.to_nat (len - (i + pg)))%nat by lia. rewrite bytes_app.
    eapply programmed_app; [exact Hp1|]. rewrite bytes_length, !Z2Nat.id by lia. replace (to + i + pg) with (to + (i + pg)) by lia.
    replace (o + i + pg) with (o + (i + pg)) by lia. erewrite bytes_ext; [exact Hp'|]. intros x _. by rewrite Hu1.
Qed.

(** The command, its type and the address in [flash->command]. *)
Lemma set_command_ok s op a : heap_ok s -> exists m,
  (forall B (k : M B), (put_byte BCommand 0 op ;; put_byte BCommand 1 WR_CMD_TYPE ;; m25p_addr2cmd fl a ;; k) s = k (set_mem s m)) /\
  bytes m BCommand 2 3 = addr_bytes a /\ cmd_half m BCommand 0 = u8 op .| (u8 WR_CMD_TYPE .<< 8) /\
  (forall o, m BUser o = mem s BUser o).
Proof.
  intros Hh. set (s1 := set_mem s (upd (upd (mem s) BCommand 0 (u8 op)) BCommand 1 (u8 WR_CMD_TYPE))).
  destruct (addr2cmd_ok a s1) as (m & Hr & Hb & Hm); [by apply set_mem_heap|]. exists m.
  split; [intros B k; rewrite !put_cmd_eq by (by auto); by rewrite (bind_eq _ _ _ _ _ Hr)|]. split; [done|]. split.
  - unfold cmd_half. rewrite !Hm by (right; lia). cbn [mem set_mem s1]. change (0 + 1) with 1.
    rewrite upd_eq, upd_ne, upd_eq by (right; lia). unfold u8. by rewrite !uwrap_idem by lia.
  - intros o. rewrite Hm by (by left). cbn. by rewrite !upd_ne by (by left).
Qed.

Lemma page_offset_mod to : 0 <= to < 2 ^ 24 -> u32 (to .& (page_size fl - 1)) = to mod page_size fl.
Proof.
  intros Hto. destruct (geometry Hg) as (_ & _ & (k & Hk & ->) & _). rewrite land_ones_mod by lia.
  apply u32_small. pose proof (Z.mod_pos_bound to (2 ^ k) ltac:(lia)). pose proof (Z.pow_lt_mono_r 2 k 16). lia.
Qed.

Definition written (s s' : spi_st) (T T' : list txn) (to o : Z) (n : nat) : Prop :=
  idle s' T' /\ user_kept s s' /\ programmed (chip_of T) (chip_of T') to (bytes (mem s) BUser o n).

(** The part of [m25p80_write] between the write enable and the last wait. *)
Lemma write_pages_ok s0 s T0 T to len o m : armed s0 s T0 T -> (forall o, m BUser o = mem s BUser o) ->
  cmd_half m BCommand 0 = 0x702 -> bytes m BCommand 2 3 = addr_bytes to -> 0 <= o -> o + len <= user_room ->
  0 <= to -> 0 < len -> to + len <= 2 ^ 24 ->
  let page_offset := u32 (to .& (page_size fl - 1)) in
  let t0 := Transfer (Some (BCommand, 0)) None 5 in
  let page := u32 (page_size fl - page_offset) in
  exists s' T', (if u32 (page_offset + len) <=? page_size fl then
      m <- spi_sync [t0; Transfer (Some (BUser, o)) None len] ;; ret m.1.2
    else m <- spi_sync [t0; Transfer (Some (BUser, o)) None page] ;;
      match m.2 with [t0'; t1'] => write_loop (Z.to_nat len) fl to len (Some (BUser, o)) page m.1.2 t0' t1' | _ => failM end)
    (set_mem s m) = Some (len, s') /\ written s0 s' T0 T' to o (Z.to_nat len).
Proof.
  intros Har Hu Hcmd Hab Ho Hob Hto Hlen Hend. cbv zeta. rewrite page_offset_mod by lia.
  destruct (geometry Hg) as (_ & _ & (k & Hk & Hps) & _).
  assert (0 < page_size fl < 2 ^ 16) as Hpage by (rewrite Hps; split; [lia|apply Z.pow_lt_mono_r; lia]).
  pose proof (Z.mod_pos_bound to (page_size fl) ltac:(lia)) as Hoff.
  rewrite (u32_small (_ + len)), (u32_small (_ - _)) by lia. destruct (Z.leb_spec (to mod page_size fl + len) (page_size fl)) as [Hfit|Hfit].
  - destruct (program_ok s0 (set_mem s m) s T0 T to (Z.to_nat len) o m) as (s' & T' & Hrun & Hid & Hus & _ & Hpr); try done; try lia.
    rewrite Z2Nat.id in Hrun by lia. rewrite (bind_eq _ _ _ _ _ Hrun). by exists s', T'.
  - set (pg := page_size fl - to mod page_size fl) in *.
    destruct (program_ok s0 (set_mem s m) s T0 T to (Z.to_nat pg) o m) as (s1 & T1 & Hrun & Hid & Hus & Hc1 & Hpr); try done; try lia.
    rewrite Z2Nat.id in Hrun by lia. rewrite (bind_eq _ _ _ _ _ Hrun). cbn [fst snd].
    destruct (write_loop_ok (Z.to_nat len) s1 T1 to len o pg (Transfer (Some (BCommand, 5)) None 5) (Transfer (Some (BUser, o + pg)) None pg))
      as (s' & T' & Hrun' & Hid' & Hus' & Hpr'); try done; try lia.
    { intros _. unfold pg. rewrite (Z.div_mod to (page_size fl)) at 1 by lia.
      replace (_ + _ + _) with ((to / page_size fl + 1) * page_size fl) by lia. apply Z.mod_mul. lia. }
    exists s', T'. split; [exact Hrun'|]. split; [done|]. split; [intros x; by rewrite Hus', Hus|].
    replace (Z.to_nat len) with (Z.to_nat pg + Z.to_nat (len - pg))%nat by lia. rewrite bytes_app.
    eapply programmed_app; [exact Hpr|]. rewrite bytes_length, Z2Nat.id by lia. erewrite bytes_ext; [exact Hpr'|]. intros x _. by rewrite Hus.
Qed.

Lemma m25p80_write_ok s T to len o : idle s T -> 0 <= o -> o + len <= user_room -> 0 <= to -> 0 < len -> to + len <= mtd_size fl ->
  exists r s' T', m25p80_write fl to len (Some (BUser, o)) s = Some (r, s') /\ idle s' T' /\ user_kept s s' /\
    (r = (1, 0) /\ full = false /\ same (chip_of T) (chip_of T') \/
     r = (0, len) /\ programmed (chip_of T) (chip_of T') to (bytes (mem s) BUser o (Z.to_nat len))) /\
    (full = true -> busy (chip_of T') = false).
Proof.
  intros Hi Ho Hob Hto Hlen Hend. destruct (geometry Hg) as (Haw & _ & _ & Hsize & _). unfold m25p80_write.
  rewrite (proj2 (Z.eqb_neq _ _)), (u64_small (to + len)), (proj2 (Z.ltb_ge _ _)) by lia.
  destruct (wait_till_ready_ok s T Hi) as (r1 & s1 & T1 & H1 & Hr1 & Hr). rewrite (bind_eq _ _ _ _ _ H1).
  destruct (Z.eqb_spec r1 0) as [Hz|Hz]; cbn [negb].
  2: { destruct Hr as [|[_ Hno]]; [done|]. destruct Hr1 as [Hi1 Hf1 Hs1 _]. exists (1, 0), s1, T1. split; [done|]. split; [done|].
       split; [intros x; apply Hf1; by right|]. split; [by left|congruence]. }
  destruct (enable_ok _ _ _ _ _ Hr1 Hr) as (v & s2 & T2 & H2 & Har). rewrite (bind_eq _ _ _ _ _ H2).
  destruct (set_command_ok s2 OPCODE_PP (u32 to)) as (m & Hset & Hab & Hcmd & Hu); [apply Har|]. rewrite Hset. clear Hset.
  rewrite (u32_small to) in Hab by lia. unfold m25p_cmdsz. rewrite Haw. change (2 + 3) with 5.
  destruct (write_pages_ok s s2 T T2 to len o m) as (s3 & T3 & H3 & Hid & Hus & Hpr); try done; try lia.
  rewrite (bind_eq _ _ _ _ _ H3). destruct (wait_till_ready_ok s3 T3 Hid) as (r4 & s4 & T4 & H4 & [Hi4 Hf4 Hs4 Hb4] & Hr4).
  rewrite (bind_eq _ _ _ _ _ H4). exists (0, len), s4, T4. split; [done|]. split; [done|]. split.
  - intros x. rewrite Hf4 by (by right). apply Hus.
  - split; [right; split; [done|]; by eapply programmed_same|]. intros Hft. apply Hb4. destruct Hr4 as [|[_ ?]]; [done|congruence].
Qed.

(** The sectors with numbers [i] to [j - 1] were erased. *)
Definition erased (c c' : chip) (i j : Z) : Prop :=
  forall x, locked c' x = locked c x /\ cell c' x = if bool_decide (i <= x / mtd_erasesize fl < j) then 0xff else cell c x.

(** None of their cells is protected. *)
Definition unlocked (c : chip) (i j : Z) : Prop := forall x, i <= x / mtd_erasesize fl < j -> locked c x = false.

Context (Hft : full = true).

Lemma wait_full s T : idle s T -> exists s' T', wait_till_ready s = Some (0, s') /\ waited 0 s s' T T'.
Proof.
  intros Hi. destruct (wait_till_ready_ok s T Hi) as (r & s' & T' & Hr & Hw & [->|[_ ?]]); [by exists s', T'|congruence].
Qed.

Lemma erase_sector_ok s T a : idle s T -> 0 <= a < 2 ^ 24 -> unlocked (chip_of T) (a / mtd_erasesize fl) (a / mtd_erasesize fl + 1) ->
  exists s' T', erase_sector fl a s = Some (0, s') /\ idle s' T' /\ user_kept s s' /\
    erased (chip_of T) (chip_of T') (a / mtd_erasesize fl) (a / mtd_erasesize fl + 1).
Proof.
  intros Hi Ha Hun. destruct (geometry Hg) as (Haw & Hop & _). pose proof command_slab. unfold erase_sector. rewrite Hop.
  destruct (wait_full s T Hi) as (s1 & T1 & H1 & Hr1). rewrite (bind_eq _ _ _ _ _ H1). cbn [negb Z.eqb].
  destruct (enable_ok _ _ _ _ _ Hr1 (or_introl eq_refl)) as (v & s2 & T2 & H2 & [[Hh [r Hw]] Hf Hs Hwel]). rewrite (bind_eq _ _ _ _ _ H2).
  destruct (Hwel Hft) as [Hb Hwl]. destruct (set_command_ok s2 OPCODE_SE a Hh) as (m & Hset & Hab & Hcmd & Hu). rewrite Hset. clear Hset.
  unfold m25p_cmdsz, spi_write. rewrite Haw. change (2 + 3) with (2 + Z.of_nat 3).
  destruct (sync_command_ok 3 (set_mem s2 m) BCommand 0) as (l & Hr & Hl); [by apply (heap_driver _ Hh)|lia|cbn; lia|lia|].
  rewrite bind_assoc, (bind_eq _ _ _ _ _ Hr). rewrite bind_ret.
  eexists _, (T2 ++ [SECTOR_ERASE a; NO_ADDRESS]). split; [done|]. split; [split|split].
  - by eapply heap_ok_ext; [..|exact Hh].
  - exists 0%nat. match goal with |- wire_of ?h = _ => change h with (log s2 ++ l) end. rewrite wire_of_app, Hw, Hl by done.
    cbn [mem set_mem]. change (0 + 2) with 2. rewrite Hcmd, Hab. unfold head_wire, addr_bytes, close, command. cbn. by rewrite <- app_assoc.
  - intros x. cbn. rewrite Hu. apply Hf. by right.
  - intros x. replace [SECTOR_ERASE a; NO_ADDRESS] with ([SECTOR_ERASE a] ++ [NO_ADDRESS]) by done. rewrite app_assoc, !chip_of_snoc.
    destruct (exec_no_address (exec (chip_of T2) (SECTOR_ERASE a)) x) as [-> ->].
    destruct (exec_erase (chip_of T2) a Hb Hwl Ha) with (x := x) as [-> ->].
    + intros y Hy. rewrite (proj2 (Hs y)). apply Hun. lia.
    + destruct (Hs x) as [-> ->]. split; [done|].
      destruct (Z.eqb_spec (x / mtd_erasesize fl) (a / mtd_erasesize fl)); case_bool_decide; (done || lia).
Qed.

Lemma erase_loop_ok n : forall s T a len, idle s T -> 0 <= a -> 0 <= len <= Z.of_nat n -> a + len <= 2 ^ 24 ->
  len mod mtd_erasesize fl = 0 -> unlocked (chip_of T) (a / mtd_erasesize fl) (a / mtd_erasesize fl + len / mtd_erasesize fl) ->
  exists s' T', erase_loop n fl a len s = Some (false, s') /\ idle s' T' /\ user_kept s s' /\
    erased (chip_of T) (chip_of T') (a / mtd_erasesize fl) (a / mtd_erasesize fl + len / mtd_erasesize fl).
Proof.
  destruct (geometry Hg) as (_ & _ & _ & _ & Hes & _). set (es := mtd_erasesize fl) in *.
  induction n as [|n IH]; intros s T a len Hi Ha Hl Hend Hmod Hun; cbn [erase_loop];
    (destruct (Z.eqb_spec len 0) as [->|Hne];
     [exists s, T; split; [done|]; split; [done|]; split; [by intros ?|]; intros x; rewrite bool_decide_eq_false_2; [done|rewrite Z.div_0_l by lia; lia]|]).
  - lia.
  - fold es. assert (es <= len) by (destruct (decide (es <= len)); [done|rewrite Z.mod_small in Hmod; lia]).
    assert (1 <= len / es) by (apply Z.div_le_lower_bound; lia).
    destruct (erase_sector_ok s T a) as (s1 & T1 & H1 & Hi1 & Hu1 & He1); [done|lia|intros x Hx; apply Hun; fold es in Hx |- *; lia|].
    rewrite (bind_eq _ _ _ _ _ H1). cbn [negb Z.eqb]. rewrite !u32_small by lia.
    assert ((a + es) / es = a / es + 1 /\ (len - es) / es = len / es - 1) as [Ea El].
    { replace (a + es) with (a + 1 * es) by lia. replace (len - es) with (len + (-1) * es) by lia. rewrite !Z.div_add by lia. lia. }
    destruct (IH s1 T1 (a + es) (len - es)) as (s' & T' & Hr & Hi' & Hu' & He'); try done; try lia.
    { rewrite <- (Z.mod_add _ 1) by lia. by replace (len - es + 1 * es) with len by lia. }
    { intros x Hx. rewrite Ea, El in Hx. fold es in Hx. rewrite (proj1 (He1 x)). apply Hun. fold es. lia. }
    exists s', T'. split; [done|]. split; [done|]. split; [intros x; by rewrite Hu', Hu1|].
    intros x. destruct (He' x) as [-> ->], (He1 x) as [-> ->]. split; [done|]. fold es. rewrite Ea, El. repeat case_bool_decide; (done || lia).
Qed.

Lemma m25p80_erase_ok s T a len : idle s T -> 0 <= a -> 0 <= len -> a + len <= mtd_size fl -> len mod mtd_erasesize fl = 0 ->
  unlocked (chip_of T) (a / mtd_erasesize fl) (a / mtd_erasesize fl + len / mtd_erasesize fl) ->
  exists s' T', m25p80_erase fl a len s = Some ((0, MTD_ERASE_DONE), s') /\ idle s' T' /\ user_kept s s' /\
    erased (chip_of T) (chip_of T') (a / mtd_erasesize fl) (a / mtd_erasesize fl + len / mtd_erasesize fl).
Proof.
  intros Hi Ha Hl Hend Hmod Hun. destruct (geometry Hg) as (_ & _ & _ & Hsize & _). unfold m25p80_erase.
  rewrite (u64_small (a + len)), (proj2 (Z.ltb_ge _ _)), Hmod, !u32_small by lia. cbn [negb Z.eqb].
  destruct (erase_loop_ok (Z.to_nat len) s T a len) as (s' & T' & Hr & Hok); try done; try lia.
  rewrite (bind_eq _ _ _ _ _ Hr). by exists s', T'.
Qed.

Lemma m25p80_read_ok s T from len o retlen : idle s T -> 0 <= o -> o + len <= user_room -> 0 <= from -> 0 < len -> from + len <= mtd_size fl ->
  exists s' T' vs, m25p80_read fl from len retlen (Some (BUser, o)) s = Some ((0, len), s') /\ idle s' T' /\
    same (chip_of T) (chip_of T') /\ zlen vs = len /\
    (forall i, 0 <= i < len -> znth vs i = cell (chip_of T) (from + i) /\ 0 <= znth vs i < 256) /\
    (forall x, mem s' BUser x = upds (mem s) BUser o vs BUser x).
Proof.
  intros Hi Ho Hob Hf Hl Hend. destruct (geometry Hg) as (Haw & _ & _ & Hsize & _). pose proof command_slab. unfold m25p80_read.
  rewrite (proj2 (Z.eqb_neq _ _)), (u64_small (from + len)), (proj2 (Z.ltb_ge _ _)) by lia.
  destruct (wait_full s T Hi) as (s1 & T1 & H1 & [[Hh [r Hw]] Hfr Hs Hbusy]). specialize (Hbusy eq_refl). rewrite (bind_eq _ _ _ _ _ H1). cbn [negb Z.eqb].
  destruct (set_command_ok s1 OPCODE_READ (u32 from) Hh) as (m & Hset & Hab & Hcmd & Hu). rewrite Hset. clear Hset.
  unfold m25p_cmdsz. rewrite Haw. change (2 + 3) with (2 + Z.of_nat 3).
  destruct (sync_read_ok 3 (Z.to_nat (len - 1)) (set_mem s1 m) BCommand 0 BUser o T1 r) as (l & vs & Hr & Hvs & Hd & Hw' & _);
    [by apply (heap_driver _ Hh)|lia|cbn; lia|by apply (heap_driver _ Hh)|lia|cbn; lia|lia|lia|done|].
  replace (Z.of_nat (S (Z.to_nat (len - 1)))) with len in Hr by lia.
  rewrite (bind_eq _ _ _ _ _ Hr). cbn [mem set_mem log] in Hd, Hw'. change (0 + 2) with 2 in Hd, Hw'.
  rewrite (u32_small from) in Hab by lia. rewrite Hcmd, Hab in Hd, Hw'.
  eexists _, (T1 ++ [READ from]), vs. split; [done|]. split; [split; [by eapply heap_ok_ext; [..|exact Hh]|by exists 0%nat]|].
  split; [rewrite chip_of_snoc; eapply same_trans; [exact Hs|apply exec_read]|]. split; [lia|]. split.
  - intros i Hil. destruct (lookup_lt_is_Some_2 vs (Z.to_nat i) ltac:(lia)) as [v Hv]. rewrite (znth_lookup _ _ _ Hv).
    destruct (Hd _ _ Hv) as (h & Hwh & ->). split; [|apply u8_range].
    rewrite (memory_read h T1 from (Z.to_nat i)), Z2Nat.id by (done || lia). apply Hs.
  - intros x. cbn. rewrite !upds_lookup. case_bool_decide; [done|]. rewrite Hu. apply Hfr. by right.
Qed.

End driver.

(** ** The table *)

Definition MAX_CMD_SIZE : Z := 5.

(** Every chip's name selects its own entry of the table; the geometry the
    probe function derives has whole sectors, and is the one the theorems on
    read, write and erase ask for exactly when addresses have three bytes. *)
Lemma flash_table_geometry :
  Forall (fun e => probe_id e.1 = Some e.2 /\
    let fl := probe_geometry e.2 in
    0 < mtd_size fl /\ mtd_size fl mod mtd_erasesize fl = 0 /\ geometry_ok fl = (addr_width fl =? 3)) m25p_ids.
Proof. unfold m25p_ids. repeat (apply Forall_cons_2; [vm_compute; repeat split; reflexivity|]). apply Forall_nil_2. Qed.

(** ** The command buffer *)

Section overrun.

Context {E : SpiEnv}.

Lemma bind_some {A B} (m : M A) (k : A -> M B) s y : bindM m k s = Some y -> exists x s', m s = Some (x, s') /\ k x s' = Some y.
Proof. unfold bindM. destruct (m s) as [[x s']|]; [|done]. cbn. intros H. by exists x, s'. Qed.

Lemma put_byte_some b i v s y : put_byte b i v s = Some y -> 0 <= i < blk_size b.
Proof.
  unfold put_byte, store. cbn [mbind option_bind]. unfold valid. destruct (Z.leb_spec 0 i), (Z.ltb_spec i (blk_size b)); try lia;
    by rewrite ?andb_false_r.
Qed.

Lemma addr2cmd_some fl a s y : m25p_addr2cmd fl a s = Some y -> 5 < command_room.
Proof.
  unfold m25p_addr2cmd. intros (? & ? & _ & H1)%bind_some. apply bind_some in H1 as (? & ? & _ & H2).
  apply bind_some in H2 as (? & ? & _ & H3). by apply put_byte_some in H3 as [_ ?].
Qed.

(** What needs an address does not get past [m25p_addr2cmd]. *)
Ltac overrun := repeat match goal with
  | H : bindM _ _ _ = Some _ |- _ => apply bind_some in H as (? & ? & ? & ?)
  | H : m25p_addr2cmd _ _ _ = Some _ |- _ => apply addr2cmd_some in H; lia
  | H : (if negb (?r =? 0) then _ else _) _ = Some _ |- _ => destruct (negb (r =? 0)); [by injection H|]
  end.


End overrun.

(** A sector range is an address range. *)
Lemma sector_range a len es : 0 < es -> a mod es = 0 -> len mod es = 0 ->
  forall x, a <= x < a + len <-> a / es <= x / es < a / es + len / es.
Proof.
  intros Hes Ha Hl x. apply Z.mod_divide in Ha as [p ->]; [|lia]. apply Z.mod_divide in Hl as [q ->]; [|lia].
  rewrite !Z.div_mul by lia. pose proof (Z.div_mod x es). pose proof (Z.mod_pos_bound x es). nia.
Qed.

(** ** Theorems *)

Section theorems.

Context {E : SpiEnv} {EO : SpiEnvOk} {N : NorChip} (fl : m25p) {FO : FlashOk fl}.


(** [m25p80_erase] on a prompt chip.  A range past the end of the chip or a
    length that is not a multiple of the sector size is refused; otherwise, if
    none of the sectors is protected, the call ends with MTD_ERASE_DONE, the
    [len / erasesize] sectors from the one of [addr] on read 0xff, and no other
    cell changed. *)
Theorem m25p80_erase_exact s T addr len op_polls :
  geometry_ok fl = true -> prompt op_polls -> idle s T -> 0 <= addr < 2 ^ 63 -> 0 <= len < 2 ^ 63 ->
  let es := mtd_erasesize fl in
  (mtd_size fl < addr + len \/ len mod es <> 0 -> m25p80_erase fl addr len s = Some ((- EINVAL, MTD_ERASE_PENDING), s)) /\
  (addr + len <= mtd_size fl -> len mod es = 0 ->
   (forall x, addr / es <= x / es < addr / es + len / es -> locked (chip_of T) x = false) ->
   exists s' T', m25p80_erase fl addr len s = Some ((0, MTD_ERASE_DONE), s') /\ idle s' T' /\
     forall x, cell (chip_of T') x = if bool_decide (addr / es <= x / es < addr / es + len / es) then 0xff else cell (chip_of T) x).
Proof.
  intros Hg Hpr Hi Ha Hl es. split.
  - intros Hbad. unfold m25p80_erase. fold es. rewrite u64_small by lia. destruct (Z.ltb_spec (mtd_size fl) (addr + len)); [done|].
    destruct Hbad as [|Hbad]; [lia|]. by rewrite (proj2 (Z.eqb_neq _ _) Hbad).
  - intros Hend Hmod Hun.
    destruct (m25p80_erase_ok fl true op_polls (fun _ => Hpr) Hg eq_refl s T addr len) as (s' & T' & Hr & Hid & _ & He); [done|lia|lia|done|done|done|].
    exists s', T'. split_and!; [done..|]. intros x. apply He.
Qed.

(** C3. Flash round trip: after an erase of whole sectors that are not
    protected, a write inside them and a read of the same range, the bytes read are
    the bytes written, and the cells outside the erased sectors are as before.  The
    chip ends its operations before the driver's deadline, the small allocations
    succeed, and the slab object behind the five-byte command buffer has a sixth byte. *)
Theorem flash_erase_write_read s T addr elen to len o o' retlen op_polls :
  geometry_ok fl = true -> prompt op_polls -> idle s T -> 0 <= addr -> 0 <= elen -> addr + elen <= mtd_size fl ->
  addr mod mtd_erasesize fl = 0 -> elen mod mtd_erasesize fl = 0 -> addr <= to -> 0 < len -> to + len <= addr + elen ->
  0 <= o -> o + len <= user_room -> 0 <= o' -> o' + len <= user_room ->
  (forall x, addr <= x < addr + elen -> locked (chip_of T) x = false) ->
  exists s' T', (m25p80_erase fl addr elen ;; m25p80_write fl to len (Some (BUser, o)) ;;
      m25p80_read fl to len retlen (Some (BUser, o'))) s = Some ((0, len), s') /\ idle s' T' /\
    bytes (mem s') BUser o' (Z.to_nat len) = bytes (mem s) BUser o (Z.to_nat len) /\
    forall x, ~ addr <= x < addr + elen -> cell (chip_of T') x = cell (chip_of T) x.
Proof.
  intros Hg Hpr Hi Ha Hel Hend Ham Hem Hto Hlen Hin Ho Hob Ho' Hob' Hun.
  destruct (geometry fl Hg) as (_ & _ & _ & _ & Hes & _). pose proof (sector_range addr elen (mtd_erasesize fl) Hes Ham Hem) as Hsec.
  destruct (m25p80_erase_ok fl true op_polls (fun _ => Hpr) Hg eq_refl s T addr elen) as (s1 & T1 & H1 & Hi1 & Hu1 & He); try done;
    [intros x Hx; by apply Hun, Hsec|].
  destruct (m25p80_write_ok fl true op_polls (fun _ => Hpr) Hg s1 T1 to len o) as (r & s2 & T2 & H2 & Hi2 & Hu2 & [(_ & ? & _)|(-> & Hp)] & _); try done; try lia.
  destruct (m25p80_read_ok fl true op_polls (fun _ => Hpr) Hg eq_refl s2 T2 to len o' retlen) as (s3 & T3 & vs & H3 & Hi3 & Hc3 & Hvs & Hv & Hm); try done; try lia.
  exists s3, T3. rewrite (bind_eq _ _ _ _ _ H1), (bind_eq _ _ _ _ _ H2), H3. split; [done|]. split; [done|]. split.
  - apply list_eq_znth; [by rewrite !bytes_length|]. rewrite bytes_length, Z2Nat.id by lia. intros i Hil.
    rewrite !znth_bytes by lia. rewrite Hm, upds_lookup, bool_decide_eq_true_2 by (split; [done|lia]).
    replace (o' + i - o') with i by lia. destruct (Hv i Hil) as [Hvi Hvr]. rewrite u8_idem, u8_small by lia. rewrite Hvi.
    specialize (Hp (to + i)) as [_ Hp]. specialize (He (to + i)) as [El Ec].
    rewrite El, Hun, bytes_length, Z2Nat.id, bool_decide_eq_true_2 in Hp by lia. cbn [andb negb] in Hp. destruct Hp as [Hp|[? _]]; [|done].
    rewrite Hp, Ec, bool_decide_eq_true_2 by (apply Hsec; lia). replace (to + i - to) with i by lia. rewrite znth_bytes, Hu1 by lia.
    change 0xff with (2 ^ 8 - 1). rewrite Z.land_comm, land_ones_mod by lia. apply (uwrap_idem 8). lia.
  - intros x Hx. rewrite (proj1 (Hc3 x)). specialize (Hp x) as [_ Hp]. rewrite bytes_length, Z2Nat.id, bool_decide_eq_false_2 in Hp by lia.
    cbn [andb] in Hp. rewrite Hp. destruct (He x) as [_ ->]. rewrite bool_decide_eq_false_2; [done|]. by rewrite <- Hsec.
Qed.

End theorems.


(** ** A chip and a controller

    A device that meets [SpiEnvOk], [FlashOk] and [prompt]: the controller is
    always ready for the next byte, every register access takes a second, the
    chip is busy until one status read after a program or an erase, and its
    first sector is protected.  Bytes past the end of a page wrap around in it. *)

Module NorDemo.

Record nor := Nor { nor_cell : Z -> Z; nor_busy : bool; nor_wel : bool }.

Definition demo_fl : m25p := probe_geometry (INFO 0xef4016 0 (64 * 1024) 64 SECT_4K).

Definition nor_locked (x : Z) : bool := x / 0x10000 =? 0.

Definition nor_program (c : nor) (a : Z) (ds : list Z) : nor :=
  Nor (fun x => if (x / 256 =? a / 256) && ((x - a) mod 256 <? zlen ds) && negb (nor_locked x)
                then nor_cell c x .& znth ds ((x - a) mod 256) else nor_cell c x) true false.

Definition nor_erase (c : nor) (a : Z) : nor :=
  Nor (fun x => if (x / 0x10000 =? a / 0x10000) && negb (nor_locked x) then 0xff else nor_cell c x) true false.

Definition nor_exec (c : nor) (t : txn) : nor :=
  match t with
  | ([op], ds) =>
    if op =? 0x605 then Nor (nor_cell c) false (nor_wel c)
    else if nor_busy c then c
    else if op =? 0x006 then Nor (nor_cell c) false true
    else match ds with
         | a2 :: a1 :: a0 :: bs =>
           let a := a2 * 65536 + a1 * 256 + a0 in
           if negb (nor_wel c) then c
           else if op =? 0x702 then nor_program c a bs
           else if op =? 0x7d8 then nor_erase c a
           else c
         | _ => c
         end
  | _ => c
  end.

#[local] Instance demo_chip : NorChip :=
  {| chip := nor; chip0 := Nor (fun x => (x * 7) mod 256) false false; exec := nor_exec;
     cell := nor_cell; locked _ := nor_locked; busy := nor_busy; wel := nor_wel |}.

Definition demo_data (w : wire) : Z :=
  match w_cmds w, w_data w, w_reads w with
  | [c], _, _ => if c =? 0x605 then Z.b2z (nor_busy (chip_of (w_txns w))) else 0
  | [c1; c2], [a2; a1; a0], S i =>
    if (c1 =? 0x703) && (c2 =? 0x603) then nor_cell (chip_of (w_txns w)) (a2 * 65536 + a1 * 256 + a0 + Z.of_nat i) else 0
  | _, _, _ => 0
  end.

(** [kmalloc] as given; [demo_env] has one that always succeeds. *)
Definition env_with (alloc : nat -> bool) : SpiEnv :=
  {| hw_read h off := if off =? SPI_STATUS then READY_FOR_NEXT else if off =? SPI_DATA then demo_data (wire_of h) else 0;
     spin := 1; jiffies h := HZ * zlen h; kmalloc_ok := alloc; shl_sel_bank2 := 0; max_speed_hz := 25000000; half_duplex := false;
     smp_cache_bytes := 32; max_polls := 40; command_room := 32; user_room := 8192; shr_undef _ _ := 0 |}.

#[local] Instance demo_env : SpiEnv := env_with (fun _ => true).

#[local] Instance demo_env_ok : SpiEnvOk.
Proof. split; [intros h; exists 0%nat; split; [cbn; lia|done]|done]. Qed.

Lemma addr_bytes_combine a : 0 <= a < 2 ^ 24 -> u8 (a .>> 16) * 65536 + u8 (a .>> 8) * 256 + u8 a = a.
Proof. intros Ha. unfold u8, uwrap. rewrite !Z.shiftr_div_pow2 by lia. zdm. Qed.

(** Inside one page the wrapped range is the range. *)
Lemma page_range a n x : a mod 256 + n <= 256 -> 0 <= n ->
  (x / 256 = a / 256 /\ (x - a) mod 256 < n <-> a <= x < a + n) /\ (a <= x < a + n -> (x - a) mod 256 = x - a).
Proof. intros. split; [split|]; intros; zdm. Qed.

Lemma nor_byte T x : 0 <= nor_cell (chip_of T) x < 256.
Proof.
  assert (forall c y, 0 <= y < 256 -> 0 <= y .& c < 256) as Hland.
  { intros c y Hy. assert (0 <= y .& c) by (apply Z.land_nonneg; lia). split; [done|].
    change 256 with (2 ^ 8) in *. rewrite <- (Z.mod_small y (2 ^ 8)), <- Z.land_ones, <- Z.land_assoc, (Z.land_comm _ c), Z.land_assoc, Z.land_ones by lia.
    apply Z.mod_pos_bound. lia. }
  revert x. induction T as [|t T IH] using rev_ind; intros x; [cbn; zdm|]. rewrite chip_of_snoc. unfold exec. cbn [demo_chip].
  unfold nor_exec. repeat case_match; cbn [nor_cell nor_program nor_erase]; try apply IH; repeat case_match; try apply IH; try lia.
  by apply Hland.
Qed.

(** A page program of the device, as [exec_program] describes it. *)
Lemma nor_program_cell c a ds x : a mod 256 + zlen ds <= 256 ->
  nor_cell (nor_program c a ds) x =
    if bool_decide (a <= x < a + zlen ds) && negb (nor_locked x) then nor_cell c x .& znth ds (x - a) else nor_cell c x.
Proof.
  intros Hp. cbn [nor_program nor_cell]. destruct (page_range a (zlen ds) x) as [Hr Hm]; [lia|lia|]. case_bool_decide as Hx.
  - pose proof (proj2 Hr Hx) as [Hq Hlt]. by rewrite (proj2 (Z.eqb_eq _ _) Hq), (proj2 (Z.ltb_lt _ _) Hlt), Hm.
  - destruct (Z.eqb_spec (x / 256) (a / 256)); [|done]. destruct (Z.ltb_spec ((x - a) mod 256) (zlen ds)); [|done]. by destruct Hx; apply Hr.
Qed.

(** The driver waits for 40 seconds. *)
Lemma ticks_passed (h l : list access) : zlen l < 2 ^ 16 ->
  time_after_eq (u32 (HZ * zlen (h ++ l))) (u32 (u32 (HZ * zlen h) + MAX_READY_WAIT_JIFFIES)) = (40 <=? zlen l).
Proof.
  intros Hl. rewrite length_app, Nat2Z.inj_add. unfold time_after_eq, MAX_READY_WAIT_JIFFIES, HZ.
  assert (0 <= zlen l) as Hl0 by lia. generalize dependent (zlen l). intros L. generalize (zlen h). intros H0 Hl Hl0.
  assert (s32 (u32 (100 * (H0 + L)) - u32 (u32 (100 * H0) + 40 * 100)) = 100 * (L - 40)) as ->
    by (unfold s32, u32, uwrap, swrap; zdm).
  destruct (Z.leb_spec 40 L), (Z.leb_spec 0 (100 * (L - 40))); (done || lia).
Qed.

#[local] Instance demo_flash_ok : FlashOk demo_fl.
Proof.
  split; try done.
  - intros c. cbn. destruct (nor_busy c) eqn:Hb; by split.
  - intros c a ds Ha Hp x. split; [done|]. unfold exec, PROGRAM, addr_bytes. cbn -[nor_program Z.mul Z.add bool_decide].
    destruct (nor_busy c); [done|]. destruct (nor_wel c); [|done]. cbn [negb andb].
    rewrite addr_bytes_combine by lia. by apply nor_program_cell.
  - intros c a Hb Hw Ha Hun x. split; [done|]. change (mtd_erasesize demo_fl) with 0x10000 in *. unfold exec, SECTOR_ERASE, addr_bytes. cbn -[nor_erase Z.mul Z.add]. cbn in Hb, Hw. rewrite Hb, Hw.
    cbn [negb]. rewrite addr_bytes_combine by lia. cbn [nor_erase nor_cell]. destruct (Z.eqb_spec (x / 0x10000) (a / 0x10000)) as [Hx|Hx].
    + specialize (Hun x Hx). cbn in Hun. by rewrite Hun.
    + done.
  - intros c. cbn. by destruct (nor_busy c).
  - intros h T Hw. cbn [hw_read demo_env env_with]. change (SPI_DATA =? SPI_STATUS) with false. change (SPI_DATA =? SPI_DATA) with true. cbv iota.
    rewrite Hw. cbn. by destruct (nor_busy _).
  - intros h T a i Hw _ Ha _. cbn [hw_read demo_env env_with]. change (SPI_DATA =? SPI_STATUS) with false. change (SPI_DATA =? SPI_DATA) with true. cbv iota.
    rewrite Hw. unfold demo_data, addr_bytes. cbn -[chip_of nor_cell u8 Z.mul Z.add]. rewrite addr_bytes_combine by lia. apply u8_small, nor_byte.
  - intros h l Hl. cbn [max_polls spin demo_env env_with jiffies] in *. rewrite ticks_passed by lia. apply Z.leb_le. lia.
Qed.

Lemma demo_prompt : prompt 1.
Proof.
  split; [cbn; lia|done| |done]. intros h l Hl. cbn [spin demo_env env_with jiffies] in *. rewrite ticks_passed by lia. apply Z.leb_gt. lia.
Qed.

Definition demo_st : spi_st := SpiSt [] (fun _ o => (o * o + 3) mod 256) 0 0 0 false 0 [].

Lemma demo_idle : idle demo_st [].
Proof.
  split; [|by exists 0%nat]. split; cbn; [apply NoDup_nil_2|by rewrite elem_of_nil|intros; apply not_elem_of_nil|intros; apply not_elem_of_nil].
Qed.


Lemma m25p80_erase_exact_witness :
  exists s' T', m25p80_erase demo_fl 0x20000 0x20000 demo_st = Some ((0, MTD_ERASE_DONE), s') /\ idle s' T' /\
    forall x, cell (chip_of T') x =
      if bool_decide (0x20000 / 0x10000 <= x / 0x10000 < 0x20000 / 0x10000 + 0x20000 / 0x10000) then 0xff else cell (chip_of []) x.
Proof.
  apply (m25p80_erase_exact demo_fl demo_st [] 0x20000 0x20000 1); [reflexivity|exact demo_prompt|apply demo_idle|lia|lia| |reflexivity|].
  - change (mtd_size demo_fl) with 0x400000. lia.
  - change (mtd_erasesize demo_fl) with 0x10000. intros x Hx. cbn. unfold nor_locked. apply Z.eqb_neq. zdm.
Defined.

Lemma flash_erase_write_read_witness :
  exists s' T', (m25p80_erase demo_fl 0x10000 0x10000 ;; m25p80_write demo_fl 0x101fe 600 (Some (BUser, 0)) ;;
      m25p80_read demo_fl 0x101fe 600 0 (Some (BUser, 4096))) demo_st = Some ((0, 600), s') /\ idle s' T' /\
    bytes (mem s') BUser 4096 (Z.to_nat 600) = bytes (mem demo_st) BUser 0 (Z.to_nat 600) /\
    forall x, ~ 0x10000 <= x < 0x10000 + 0x10000 -> cell (chip_of T') x = cell (chip_of []) x.
Proof.
  apply (flash_erase_write_read demo_fl demo_st [] 0x10000 0x10000 0x101fe 600 0 4096 0 1); try reflexivity; try lia.
  - exact demo_prompt.
  - apply demo_idle.
  - change (mtd_size demo_fl) with 0x400000. lia.
  - cbn. lia.
  - cbn. lia.
  - intros x Hx. cbn. unfold nor_locked. apply Z.eqb_neq. zdm.
Defined.

(** Five bytes behind [flash->command]. *)
Definition five_bytes : SpiEnv :=
  {| hw_read := @hw_read demo_env; spin := 1; jiffies h := HZ * zlen h; kmalloc_ok _ := true; shl_sel_bank2 := 0; max_speed_hz := 25000000;
     half_duplex := false; smp_cache_bytes := 32; max_polls := 40; command_room := MAX_CMD_SIZE; user_room := 8192; shr_undef _ _ := 0 |}.


(** The fourth allocation fails: the write enable before the second page is not
    sent, the page is not programmed (7 and 4 is 4), and all 512 bytes are
    reported as written. *)
Example page_lost :
  (fun r => (r.1, cell (chip_of (w_txns (wire_of (log r.2)))) <$> [0x10001; 0x10101])) <$>
    @m25p80_write (env_with (fun n => negb (n =? 3)%nat)) demo_fl 0x10000 512 (Some (BUser, 0)) demo_st = Some ((0, 512), [4; 7]).
Proof. vm_compute. reflexivity. Qed.

(** [sst_write] subtracts the length of the command from a count that does
    not contain it: one byte written reports 2^32 - 4 bytes. *)
Example sst_write_retlen : fst <$> sst_write demo_fl 0 1 (Some (BUser, 0)) demo_st = Some (0, 2 ^ 32 - 4).
Proof. vm_compute. reflexivity. Qed.

(** The one-byte message of [write_disable] never reaches the controller. *)
Example write_disable_silent :
  (fun r => (r.1, w_txns (wire_of (log r.2)))) <$> write_disable demo_st = Some (0, []).
Proof. vm_compute. reflexivity. Qed.

(** The erase command goes out twice, the second time without an address. *)
Example sector_erase_twice :
  (fun r => w_txns (wire_of (log r.2))) <$> erase_sector demo_fl 0x12345 demo_st =
    Some [STATUS; WREN; SECTOR_ERASE 0x12345; NO_ADDRESS].
Proof. vm_compute. reflexivity. Qed.

End NorDemo.
