(* ===== verification/Infrared.v ===== *)
(** * The infrared remote control (drivers/input/misc/ir_lg_input.c)

    The interrupt handler [ir_isr] runs on both edges of the receiver's output
    and drives a state machine with the time since the last edge; after a
    whole frame, or a repeat frame while a button is held, it schedules
    [ir_produce], which looks the code up and reports the key.

    A run is a list of events: an edge at a time of day, or the work queue
    calling [ir_produce] when it is scheduled.  The input layer is the list of
    the keys reported; the registration in [ir_init] and [ir_exit] is not
    modelled. *)

From S2P Require Import Prelude.
From Stdlib Require Import ZArith Lia.
From stdpp Require Import base numbers list option.

Local Open Scope Z_scope.

Definition CLK_ERR : Z := 100.
Definition CLK_HEADER_PULSE : Z := 9000.
Definition CLK_HEADER_SPACE : Z := 4500.
Definition CLK_REPEAT_SPACE : Z := 2300.
Definition CLK_DATA_PULSE : Z := 510.
Definition CLK_DATA_1_SPACE : Z := 1750.
Definition CLK_DATA_0_SPACE : Z := 600.
Definition CLK_GAP : Z := 96400.

Definition STATE_HEADER_PULSE : Z := 1.
Definition STATE_HEADER_SPACE : Z := 2.
Definition STATE_REPEAT_PULSE : Z := 3.
Definition STATE_REPEAT_SPACE : Z := 4.
Definition STATE_DATA_PULSE : Z := 5.
Definition STATE_DATA_SPACE : Z := 6.

Definition DATA_BITS : Z := 16.
Definition DATA_PRE_BITS : Z := 16.
Definition DATA_PRE : Z := 0x20DF.
Definition SKIP_REPEAT : Z := 2.

(** Code and key code of each button. *)
Definition ir_key_table : list (Z * Z) :=
  [(0x10EF, 116 (* KEY_POWER *));
   (0x0FF0, 0x181 (* KEY_RADIO *));
   (0xD02F, 0x186 (* KEY_AUX *));
   (0xC23D, 141 (* KEY_SETUP *));
   (0x9E61, 120 (* KEY_SCALE *));
   (0x9C63, 0x172 (* KEY_SUBTITLE *));
   (0x8877, 0x201 (* KEY_NUMERIC_1 *));
   (0x48B7, 0x202 (* KEY_NUMERIC_2 *));
   (0xC837, 0x203 (* KEY_NUMERIC_3 *));
   (0x28D7, 0x204 (* KEY_NUMERIC_4 *));
   (0xA857, 0x205 (* KEY_NUMERIC_5 *));
   (0x6897, 0x206 (* KEY_NUMERIC_6 *));
   (0xE817, 0x207 (* KEY_NUMERIC_7 *));
   (0x18E7, 0x208 (* KEY_NUMERIC_8 *));
   (0x9867, 0x209 (* KEY_NUMERIC_9 *));
   (0xD52A, 0x16a (* KEY_PROGRAM *));
   (0x08F7, 0x200 (* KEY_NUMERIC_0 *));
   (0x58A7, 0x19c (* KEY_PREVIOUS *));
   (0x40BF, 115 (* KEY_VOLUMEUP *));
   (0x7887, 0x16c (* KEY_FAVORITES *));
   (0x00FF, 0x192 (* KEY_CHANNELUP *));
   (0x55AA, 0x166 (* KEY_INFO *));
   (0xC03F, 114 (* KEY_VOLUMEDOWN *));
   (0x906F, 113 (* KEY_MUTE *));
   (0x807F, 0x193 (* KEY_CHANNELDOWN *));
   (0xF906, 148 (* KEY_PROG1 *));
   (0x3EC1, 102 (* KEY_HOME *));
   (0x42BD, 204 (* KEY_DASHBOARD *));
   (0x04FB, 0x184 (* KEY_TEXT *));
   (0x02FD, 103 (* KEY_UP *));
   (0x847B, 0x165 (* KEY_OPTION *));
   (0xE01F, 105 (* KEY_LEFT *));
   (0x22DD, 0x160 (* KEY_OK *));
   (0x609F, 106 (* KEY_RIGHT *));
   (0x14EB, 158 (* KEY_BACK *));
   (0x827D, 108 (* KEY_DOWN *));
   (0xDA25, 174 (* KEY_EXIT *));
   (0x8976, 0x1ad (* KEY_ADDRESSBOOK *));
   (0xBD42, 167 (* KEY_RECORD *));
   (0x8D72, 128 (* KEY_STOP *));
   (0xF10E, 168 (* KEY_REWIND *));
   (0x0DF2, 207 (* KEY_PLAY *));
   (0x718E, 159 (* KEY_FORWARD *));
   (0x5DA2, 119 (* KEY_PAUSE *));
   (0x4EB1, 0x18e (* KEY_RED *));
   (0x8E71, 0x18f (* KEY_GREEN *));
   (0xC639, 0x190 (* KEY_YELLOW *));
   (0x8679, 0x191 (* KEY_BLUE *))].

Record ir_private : Type := IrPrivate {
  idx : Z;
  state : Z;
  data : Z;
  data_ok : Z;
  repeat : Z;
  base_time : Z * Z      (* tv_sec, tv_usec *)
}.

(** ** The interrupt handler *)

(** [width >= c-CLK_ERR && width <= c+CLK_ERR] *)
Definition near (c width : Z) : bool := (c - CLK_ERR <=? width) && (width <=? c + CLK_ERR).

Definition set_state (p : ir_private) (s : Z) : ir_private :=
  IrPrivate (idx p) s (data p) (data_ok p) (repeat p) (base_time p).

(** The microseconds since the last edge. *)
Definition ir_width (p : ir_private) (tv : Z * Z) : Z :=
  u32 (1000000 * (tv.1 - (base_time p).1) + tv.2 - (base_time p).2).

(** The switch on the state; true when the work is scheduled. *)
Definition ir_switch (width : Z) (p : ir_private) : ir_private * bool :=
  if state p =? STATE_HEADER_PULSE then
    if near CLK_HEADER_PULSE width then (set_state p STATE_HEADER_SPACE, false) else (set_state p 0, false)
  else if state p =? STATE_HEADER_SPACE then
    if near CLK_HEADER_SPACE width then (IrPrivate 0 STATE_DATA_PULSE 0 (data_ok p) 0 (base_time p), false)
    else if near CLK_REPEAT_SPACE width then (set_state p STATE_REPEAT_PULSE, false)
    else (set_state p 0, false)
  else if state p =? STATE_REPEAT_PULSE then
    if near CLK_DATA_PULSE width then (set_state p STATE_REPEAT_SPACE, false) else (set_state p 0, false)
  else if state p =? STATE_REPEAT_SPACE then
    if (CLK_HEADER_PULSE + CLK_ERR <? width) && (width <=? CLK_GAP + CLK_ERR) then
      let r := s32 (repeat p + 1) in
      (IrPrivate (idx p) STATE_HEADER_PULSE (data p) (data_ok p) r (base_time p), SKIP_REPEAT <? r)
    else (set_state p 0, false)
  else if state p =? STATE_DATA_PULSE then
    if near CLK_DATA_PULSE width then
      if DATA_PRE_BITS + DATA_BITS <=? idx p
      then (IrPrivate (idx p) STATE_REPEAT_SPACE (data p) (data p) (repeat p) (base_time p), true)
      else (set_state p STATE_DATA_SPACE, false)
    else (set_state p 0, false)
  else if state p =? STATE_DATA_SPACE then
    if near CLK_DATA_1_SPACE width then
      (IrPrivate (s32 (idx p + 1)) STATE_DATA_PULSE (s32 (data p .<< 1) .| 1) (data_ok p) (repeat p) (base_time p), false)
    else if near CLK_DATA_0_SPACE width then
      (IrPrivate (s32 (idx p + 1)) STATE_DATA_PULSE (s32 (data p .<< 1)) (data_ok p) (repeat p) (base_time p), false)
    else (set_state p 0, false)
  else (p, false).

Definition ir_isr (tv : Z * Z) (p : ir_private) : ir_private * bool :=
  let width := ir_width p tv in
  let p := IrPrivate (idx p) (state p) (data p) (data_ok p) (repeat p) tv in
  if CLK_GAP + CLK_ERR <? width then (set_state p STATE_HEADER_PULSE, false) else ir_switch width p.

(** ** The work function: the keys it reports, each pressed and released *)

Definition ir_produce (p : ir_private) : list Z :=
  let key := u32 (data_ok p) in
  if key .>> DATA_BITS =? DATA_PRE then
    match List.find (fun e => key .& (2 ^ DATA_BITS - 1) =? fst e) ir_key_table with
    | Some (_, keycode) => [keycode]
    | None => []
    end
  else [].

(** ** Runs *)

Inductive event := Edge (tv : Z * Z) | Work.

Record ir_sys : Type := IrSys {
  priv : ir_private;
  pending : bool;          (* ir_work is scheduled *)
  reported : list Z;       (* keys, oldest first *)
  widths : list Z          (* the widths seen so far, for the statements only *)
}.

Definition ir_event (s : ir_sys) (e : event) : ir_sys :=
  match e with
  | Edge tv =>
    let r := ir_isr tv (priv s) in
    IrSys r.1 (pending s || r.2) (reported s) (widths s ++ [ir_width (priv s) tv])
  | Work => if pending s then IrSys (priv s) false (reported s ++ ir_produce (priv s)) (widths s) else s
  end.

Definition ir_run (s : ir_sys) (es : list event) : ir_sys := foldl ir_event s es.

(** The static data at boot. *)
Definition ir_boot : ir_sys := IrSys (IrPrivate 0 0 0 0 0 (0, 0)) false [] [].

(** ** The signal of a frame *)

(** A bit is a pulse and a space whose length is its value. *)
Inductive bits_signal : list bool -> list Z -> Prop :=
| bits_nil : bits_signal [] []
| bits_snoc bs ws b pulse space :
    bits_signal bs ws -> near CLK_DATA_PULSE pulse = true ->
    near (if b : bool then CLK_DATA_1_SPACE else CLK_DATA_0_SPACE) space = true ->
    bits_signal (bs ++ [b]) (ws ++ [pulse; space]).

(** Header, 32 bits, most significant first, and a closing pulse. *)
Definition value (bs : list bool) : Z := foldl (fun acc b => 2 * acc + Z.b2z b) 0 bs.

Inductive frame_signal (code : Z) : list Z -> Prop :=
| frame bs ws hp hs dp :
    near CLK_HEADER_PULSE hp = true -> near CLK_HEADER_SPACE hs = true ->
    bits_signal bs ws -> length bs = 32%nat -> value bs = code -> near CLK_DATA_PULSE dp = true ->
    frame_signal code ([hp; hs] ++ ws ++ [dp]).

(** A repeat frame: the gap before it, header, short space and closing pulse. *)
Inductive repeat_signal : list Z -> Prop :=
| repeat_frame gap hp rs dp :
    CLK_HEADER_PULSE + CLK_ERR < gap <= CLK_GAP + CLK_ERR -> near CLK_HEADER_PULSE hp = true ->
    near CLK_REPEAT_SPACE rs = true -> near CLK_DATA_PULSE dp = true -> repeat_signal [gap; hp; rs; dp].

(** The time [w] microseconds after [tv], and edges at given distances. *)
Definition after (tv : Z * Z) (w : Z) : Z * Z :=
  let us := 1000000 * tv.1 + tv.2 + w in (us / 1000000, us mod 1000000).

Fixpoint edges_at (tv : Z * Z) (ws : list Z) : list event :=
  match ws with
  | [] => []
  | w :: ws' => Edge (after tv w) :: edges_at (after tv w) ws'
  end.

(** ** Arithmetic *)

Lemma near_spec c w : near c w = true <-> c - CLK_ERR <= w <= c + CLK_ERR.
Proof. unfold near. by rewrite andb_true_iff, !Z.leb_le. Qed.

Lemma value_snoc bs b : value (bs ++ [b]) = 2 * value bs + Z.b2z b.
Proof. unfold value. by rewrite foldl_app. Qed.

Lemma value_range bs : 0 <= value bs < 2 ^ Z.of_nat (length bs).
Proof.
  induction bs as [|b bs IH] using rev_ind; [cbn; lia|]. rewrite value_snoc, length_app, Nat2Z.inj_add, Z.pow_add_r by lia.
  cbn [length]. change (2 ^ Z.of_nat 1) with 2. destruct b; cbn [Z.b2z]; lia.
Qed.

(** Shifting a bit into the 32-bit data. *)
Lemma s32_shift x : s32 (s32 x .<< 1) = s32 (2 * x).
Proof. rewrite Z.shiftl_mul_pow2 by lia. unfold s32, swrap. zdm. Qed.

Lemma s32_shift_1 x : s32 (s32 x .<< 1) .| 1 = s32 (2 * x + 1).
Proof.
  rewrite s32_shift. assert (exists y, s32 (2 * x) = 2 * y /\ s32 (2 * x + 1) = 2 * y + 1) as (y & -> & ->).
  { exists (swrap 31 x). unfold s32, swrap. split; zdm. }
  rewrite Z.lor_comm. transitivity (1 .| (y .<< 1)); [f_equal; rewrite Z.shiftl_mul_pow2; lia|]. rewrite lor_shiftl_add; lia.
Qed.

Lemma s32_value_snoc bs b :
  s32 (value (bs ++ [b])) = if b then s32 (s32 (value bs) .<< 1) .| 1 else s32 (s32 (value bs) .<< 1).
Proof. rewrite value_snoc. destruct b; cbn [Z.b2z]; [by rewrite s32_shift_1|]. rewrite s32_shift. f_equal. lia. Qed.

Lemma u32_of_s32 x : 0 <= x < 2 ^ 32 -> u32 (s32 x) = x.
Proof. intros. unfold u32, s32, uwrap, swrap. zdm. Qed.

(** ** Edges by their widths *)

Definition step_width (s : ir_sys) (w : Z) : ir_sys := ir_event s (Edge (after (base_time (priv s)) w)).

Lemma ir_width_after p w : ir_width p (after (base_time p) w) = u32 w.
Proof. unfold ir_width, after. cbn [fst snd]. f_equal. zdm. Qed.

Lemma base_time_isr tv p : base_time (ir_isr tv p).1 = tv.
Proof. unfold ir_isr, ir_switch. cbv zeta. repeat (case_match; try done). Qed.

Lemma ir_run_edges ws : forall s, ir_run s (edges_at (base_time (priv s)) ws) = foldl step_width s ws.
Proof.
  induction ws as [|w ws IH]; intros s; [done|]. cbn [edges_at foldl]. rewrite <- IH. unfold ir_run. cbn [foldl].
  unfold step_width at 2. cbn [ir_event priv]. by rewrite base_time_isr.
Qed.

(** ** Sending a frame *)

(** What the transitions depend on and change. *)
Definition ir_view : Type := Z * Z * Z * Z * Z * bool * list Z.

Definition view (s : ir_sys) : ir_view :=
  (state (priv s), idx (priv s), data (priv s), data_ok (priv s), repeat (priv s), pending s, reported s).

Definition view_step (v : ir_view) (w : Z) : ir_view :=
  let '(st, ix, d, ok, rp, pd, rep) := v in
  if CLK_GAP + CLK_ERR <? w then (STATE_HEADER_PULSE, ix, d, ok, rp, pd, rep)
  else let r := ir_switch w (IrPrivate ix st d ok rp (0, 0)) in
       (state r.1, idx r.1, data r.1, data_ok r.1, repeat r.1, pd || r.2, rep).

Lemma step_width_view s w : view (step_width s w) = view_step (view s) (u32 w).
Proof.
  destruct s as [[ix st d ok rp bt] pd rep ws]. unfold step_width, ir_event, ir_isr, view. cbn [priv]. cbv zeta.
  rewrite ir_width_after. set (u := u32 w). clearbody u. cbn [priv pending reported idx state data data_ok repeat view_step].
  destruct (CLK_GAP + CLK_ERR <? u); [cbn; by rewrite orb_false_r|].
  unfold ir_switch. cbv zeta. cbn [idx state data data_ok repeat]. repeat (case_match; try done).
Qed.

Lemma run_view ws : forall s, view (foldl step_width s ws) = foldl view_step (view s) (u32 <$> ws).
Proof. induction ws as [|w ws IH]; intros s; [done|]. cbn [foldl fmap list_fmap]. by rewrite IH, step_width_view. Qed.

Lemma u32_widths ws : Forall (fun w => 0 <= w < 2 ^ 32) ws -> u32 <$> ws = ws.
Proof. induction 1 as [|w ws Hw _ IH]; [done|]. cbn [fmap list_fmap]. by rewrite u32_small, IH. Qed.

(** Evaluating one transition: the comparisons of widths are decided. *)
Ltac view_eval :=
  repeat match goal with H : near _ _ = true |- _ => apply near_spec in H end;
  cbn [view_step]; unfold ir_switch, near, CLK_GAP, CLK_ERR, CLK_HEADER_PULSE, CLK_HEADER_SPACE, CLK_REPEAT_SPACE, CLK_DATA_PULSE,
    CLK_DATA_1_SPACE, CLK_DATA_0_SPACE, DATA_PRE_BITS, DATA_BITS, STATE_HEADER_PULSE, STATE_HEADER_SPACE, STATE_REPEAT_PULSE,
    STATE_REPEAT_SPACE, STATE_DATA_PULSE, STATE_DATA_SPACE in *;
  cbn [idx state data data_ok repeat Z.eqb Pos.eqb];
  repeat (match goal with
          | |- context [?x <? ?y] => first [rewrite (proj2 (Z.ltb_lt x y)) by lia | rewrite (proj2 (Z.ltb_ge x y)) by lia]
          | |- context [?x <=? ?y] => first [rewrite (proj2 (Z.leb_le x y)) by lia | rewrite (proj2 (Z.leb_gt x y)) by lia]
          end; cbn [andb]);
  cbn [idx state data data_ok repeat base_time set_state fst snd andb Z.eqb Pos.eqb].

Lemma view_header ix d ok rp pd rep hp hs st gap : CLK_GAP + CLK_ERR < gap -> near CLK_HEADER_PULSE hp = true -> near CLK_HEADER_SPACE hs = true ->
  foldl view_step (st, ix, d, ok, rp, pd, rep) [gap; hp; hs] = (STATE_DATA_PULSE, 0, 0, ok, 0, pd, rep).
Proof.
  intros. cbn [foldl].
  assert (view_step (st, ix, d, ok, rp, pd, rep) gap = (STATE_HEADER_PULSE, ix, d, ok, rp, pd, rep)) as -> by (view_eval; done).
  assert (view_step (STATE_HEADER_PULSE, ix, d, ok, rp, pd, rep) hp = (STATE_HEADER_SPACE, ix, d, ok, rp, pd, rep)) as -> by (view_eval; by rewrite orb_false_r).
  view_eval. by rewrite orb_false_r.
Qed.

Lemma view_bits bs ws ok rp pd rep : bits_signal bs ws -> (length bs <= 32)%nat ->
  foldl view_step (STATE_DATA_PULSE, 0, 0, ok, rp, pd, rep) ws = (STATE_DATA_PULSE, Z.of_nat (length bs), s32 (value bs), ok, rp, pd, rep).
Proof.
  intros Hb. induction Hb as [|bs ws b pulse space Hb IH Hp Hs]; intros Hl; [done|]. rewrite length_app in Hl. cbn [length] in Hl.
  rewrite foldl_app, IH by lia. cbn [foldl].
  assert (view_step (STATE_DATA_PULSE, Z.of_nat (length bs), s32 (value bs), ok, rp, pd, rep) pulse =
    (STATE_DATA_SPACE, Z.of_nat (length bs), s32 (value bs), ok, rp, pd, rep)) as -> by (clear Hs; view_eval; by rewrite orb_false_r).
  rewrite s32_value_snoc, length_app. cbn [length]. replace (Z.of_nat (length bs + 1)) with (s32 (Z.of_nat (length bs) + 1)) by (rewrite s32_small; lia).
  destruct b; view_eval; by rewrite orb_false_r.
Qed.

Lemma view_frame code ws gap st ix d ok rp pd rep : CLK_GAP + CLK_ERR < gap -> frame_signal code ws ->
  foldl view_step (st, ix, d, ok, rp, pd, rep) (gap :: ws) = (STATE_REPEAT_SPACE, 32, s32 code, s32 code, 0, true, rep).
Proof.
  intros Hgap [bs bw hp hs dp Hhp Hhs Hb Hl <- Hdp]. change (gap :: [hp; hs] ++ bw ++ [dp]) with ([gap; hp; hs] ++ bw ++ [dp]).
  rewrite !foldl_app, view_header, (view_bits bs) by (done || lia). rewrite Hl. cbn [foldl]. clear Hhp Hhs.
  change (Z.of_nat 32) with 32. view_eval. by rewrite orb_true_r.
Qed.

Lemma view_repeat ws ix d ok rp pd rep : repeat_signal ws -> 0 <= rp < 2 ^ 31 - 1 ->
  foldl view_step (STATE_REPEAT_SPACE, ix, d, ok, rp, pd, rep) ws =
    (STATE_REPEAT_SPACE, ix, d, ok, rp + 1, pd || (SKIP_REPEAT <? rp + 1), rep).
Proof.
  intros [gap hp rs dp Hgap Hhp Hrs Hdp] Hrp. cbn [foldl].
  assert (view_step (STATE_REPEAT_SPACE, ix, d, ok, rp, pd, rep) gap =
    (STATE_HEADER_PULSE, ix, d, ok, rp + 1, pd || (SKIP_REPEAT <? rp + 1), rep)) as ->.
  { clear Hhp Hrs Hdp. unfold SKIP_REPEAT. set (b := 2 <? rp + 1). cbn [view_step]. unfold ir_switch, SKIP_REPEAT. cbn [repeat]. rewrite (s32_small (rp + 1)) by lia.
    fold b. clearbody b. view_eval. done. }
  set (b := pd || _). clearbody b. clear Hgap.
  assert (view_step (STATE_HEADER_PULSE, ix, d, ok, rp + 1, b, rep) hp = (STATE_HEADER_SPACE, ix, d, ok, rp + 1, b, rep)) as ->
    by (view_eval; by rewrite orb_false_r).
  assert (view_step (STATE_HEADER_SPACE, ix, d, ok, rp + 1, b, rep) rs = (STATE_REPEAT_PULSE, ix, d, ok, rp + 1, b, rep)) as ->
    by (view_eval; by rewrite orb_false_r).
  view_eval. by rewrite orb_false_r.
Qed.

Lemma near_range c w : near c w = true -> CLK_ERR <= c < 10000 -> 0 <= w < 2 ^ 32.
Proof. rewrite near_spec. unfold CLK_ERR. lia. Qed.

Lemma bits_range bs ws : bits_signal bs ws -> Forall (fun w => 0 <= w < 2 ^ 32) ws.
Proof.
  induction 1 as [|bs ws b pulse space _ IH Hp Hs]; [apply Forall_nil_2|]. apply Forall_app_2; [done|].
  apply Forall_cons_2; [by eapply near_range|]. apply Forall_cons_2; [|apply Forall_nil_2].
  eapply near_range; [done|]. by destruct b.
Qed.

Lemma frame_range code ws : frame_signal code ws -> Forall (fun w => 0 <= w < 2 ^ 32) ws.
Proof.
  intros [bs bw hp hs dp Hhp Hhs Hb _ _ Hdp]. apply Forall_app_2; [|apply Forall_app_2; [by eapply bits_range|]];
    repeat (apply Forall_cons_2; [eapply near_range; [done|done]|]); apply Forall_nil_2.
Qed.

Lemma repeat_range ws : repeat_signal ws -> Forall (fun w => 0 <= w < 2 ^ 32) ws.
Proof.
  intros [gap hp rs dp Hgap Hhp Hrs Hdp]. apply Forall_cons_2; [unfold CLK_HEADER_PULSE, CLK_GAP, CLK_ERR in Hgap; lia|].
  repeat (apply Forall_cons_2; [eapply near_range; [done|done]|]). apply Forall_nil_2.
Qed.

(** A signal, after which the work queue runs. *)
Definition send (s : ir_sys) (ws : list Z) : ir_sys := ir_event (ir_run s (edges_at (base_time (priv s)) ws)) Work.

Lemma table_lookup c k : (c, k) ∈ ir_key_table ->
  0 <= c < 2 ^ 16 /\ List.find (fun e => c =? fst e) ir_key_table = Some (c, k).
Proof.
  assert (Forall (fun e => 0 <= fst e < 2 ^ 16 /\ List.find (fun e' => fst e =? fst e') ir_key_table = Some e) ir_key_table) as H.
  { unfold ir_key_table at 2. repeat (apply Forall_cons_2; [split; [cbn; lia|vm_compute; reflexivity]|]). apply Forall_nil_2. }
  intros Hk. exact (proj1 (list.Forall_forall _ _) H (c, k) Hk).
Qed.

Lemma produce_button p c k : (c, k) ∈ ir_key_table -> data_ok p = s32 (DATA_PRE * 2 ^ 16 + c) -> ir_produce p = [k].
Proof.
  intros Hk Hd. destruct (table_lookup c k Hk) as [Hc Hf]. unfold ir_produce, DATA_PRE, DATA_BITS in *. rewrite Hd, u32_of_s32 by lia.
  rewrite Z.shiftr_div_pow2, land_ones_mod by lia. cbv zeta.
  replace ((8415 * 2 ^ 16 + c) / 2 ^ 16) with 8415 by zdm. replace ((8415 * 2 ^ 16 + c) mod 2 ^ 16) with c by zdm. by rewrite Z.eqb_refl, Hf.
Qed.

Lemma send_view s ws st ix d ok rp pd rep :
  foldl view_step (view s) (u32 <$> ws) = (st, ix, d, ok, rp, pd, rep) ->
  exists p, data_ok p = ok /\ view (send s ws) = (st, ix, d, ok, rp, false, if pd then rep ++ ir_produce p else rep).
Proof.
  intros Hv. unfold send. rewrite ir_run_edges. rewrite <- run_view in Hv. set (s' := foldl step_width s ws) in *. clearbody s'.
  destruct s' as [p pd' rep' ws']. unfold view in Hv. cbn in Hv. injection Hv as <- <- <- <- <- <- <-. exists p. split; [done|].
  by destruct pd'.
Qed.

(** C39. A button that is pressed and held.  Whatever was received before, a
    frame with every pulse and space within its tolerance reports the key of its
    code; of the repeat frames that follow while the button is held, the first two
    report nothing and each later one the key again.  The pause before the frame is
    any number of microseconds that is longer than the gap between frames modulo
    2^32: the driver keeps the distance of two edges in 32 bits.  The work function
    runs after each frame. *)
Theorem ir_button_held s gap c k ws reps :
  (c, k) ∈ ir_key_table -> CLK_GAP + CLK_ERR < u32 gap -> frame_signal (DATA_PRE * 2 ^ 16 + c) ws ->
  Forall repeat_signal reps -> Z.of_nat (length reps) < 2 ^ 31 - 1 ->
  reported (foldl send s ((gap :: ws) :: reps)) = reported s ++ k :: replicate (length reps - 2) k.
Proof.
  intros Hk Hgap Hf Hr Hn. set (code := DATA_PRE * 2 ^ 16 + c) in *.
  assert (view (foldl send s ((gap :: ws) :: reps)) = (STATE_REPEAT_SPACE, 32, s32 code, s32 code, Z.of_nat (length reps), false,
    reported s ++ k :: replicate (length reps - 2) k)) as Hv; [|by injection Hv].
  induction reps as [|r reps IH] using rev_ind.
  - cbn [foldl length replicate]. destruct (send_view s (gap :: ws) STATE_REPEAT_SPACE 32 (s32 code) (s32 code) 0 true (reported s)) as (p & Hp & Hv).
    + cbn [fmap list_fmap]. rewrite (u32_widths ws) by (by eapply frame_range). by apply view_frame.
    + rewrite Hv. by rewrite (produce_button p c k).
  - apply Forall_app in Hr as [Hr Hr']. apply Forall_cons_1 in Hr' as [Hr' _]. rewrite length_app in *. cbn [length] in *.
    rewrite app_comm_cons, foldl_app. specialize (IH Hr ltac:(lia)). set (s1 := foldl send s ((gap :: ws) :: reps)) in *. cbn [foldl].
    destruct (send_view s1 r STATE_REPEAT_SPACE 32 (s32 code) (s32 code) (Z.of_nat (length reps) + 1) (SKIP_REPEAT <? Z.of_nat (length reps) + 1)
      (reported s ++ k :: replicate (length reps - 2) k)) as (p & Hp & Hv);
      [rewrite u32_widths, IH, view_repeat by (done || lia || by apply repeat_range); done|].
    rewrite Hv, (produce_button p c k) by done. unfold SKIP_REPEAT. destruct (Z.ltb_spec 2 (Z.of_nat (length reps) + 1)).
    + replace (length reps + 1 - 2)%nat with (length reps - 2 + 1)%nat by lia. rewrite replicate_add, <- app_assoc. cbn. repeat f_equal. lia.
    + replace (length reps + 1 - 2)%nat with (length reps - 2)%nat by lia. repeat f_equal. lia.
Qed.

(** ** What was received *)

(** The frame of [code] is among the widths. *)
Definition received (ws : list Z) (code : Z) : Prop :=
  exists pre fr post, ws = pre ++ fr ++ post /\ frame_signal code fr.

Lemma received_snoc ws w code : received ws code -> received (ws ++ [w]) code.
Proof. intros (pre & fr & post & -> & Hf). exists pre, fr, (post ++ [w]). by rewrite <- !app_assoc. Qed.

(** The widths end with a header, the bits of [data] and [tail]. *)
Definition receiving (p : ir_private) (ws tail : list Z) : Prop :=
  exists pre hp hs bs bw, ws = pre ++ [hp; hs] ++ bw ++ tail /\ near CLK_HEADER_PULSE hp = true /\ near CLK_HEADER_SPACE hs = true /\
    bits_signal bs bw /\ idx p = Z.of_nat (length bs) /\ (length bs <= 32)%nat /\ data p = s32 (value bs).

Record ir_inv (p : ir_private) (ws : list Z) : Prop := {
  inv_header : state p = STATE_HEADER_SPACE -> exists pre hp, ws = pre ++ [hp] /\ near CLK_HEADER_PULSE hp = true;
  inv_pulse : state p = STATE_DATA_PULSE -> receiving p ws [];
  inv_space : state p = STATE_DATA_SPACE -> idx p < 32 /\ exists dp, near CLK_DATA_PULSE dp = true /\ receiving p ws [dp];
  inv_ok : data_ok p = 0 \/ exists code, received ws code /\ data_ok p = s32 code
}.

(** Only the four other states are free of obligations. *)
Lemma ir_inv_plain p ws s : s <> STATE_HEADER_SPACE -> s <> STATE_DATA_PULSE -> s <> STATE_DATA_SPACE ->
  (data_ok p = 0 \/ exists code, received ws code /\ data_ok p = s32 code) -> state p = s -> ir_inv p ws.
Proof. intros H1 H2 H3 Hok Hs. split; [congruence..|done]. Qed.

Lemma inv_ok_snoc d ws w : (d = 0 \/ exists code, received ws code /\ d = s32 code) ->
  d = 0 \/ exists code, received (ws ++ [w]) code /\ d = s32 code.
Proof. intros [->|(code & Hr & ->)]; [by left|right]. exists code. split; [by apply received_snoc|done]. Qed.

Lemma header_inv p ws w : ir_inv p ws -> state p = STATE_HEADER_SPACE -> near CLK_HEADER_SPACE w = true ->
  ir_inv (IrPrivate 0 STATE_DATA_PULSE 0 (data_ok p) 0 (base_time p)) (ws ++ [w]).
Proof.
  intros [Hh _ _ Hok] Hs Hw. destruct (Hh Hs) as (pre & hp & -> & Hhp). split; cbn [state data_ok set_state]; try done; [|by apply inv_ok_snoc].
  intros _. exists pre, hp, w, [], []. rewrite <- !app_assoc. split; [done|]. repeat (split; [done|]). split; [constructor|]. split; [done|]. split; [cbn; lia|done].
Qed.

Lemma space_inv p ws w b : ir_inv p ws -> state p = STATE_DATA_SPACE -> near (if b : bool then CLK_DATA_1_SPACE else CLK_DATA_0_SPACE) w = true ->
  ir_inv (IrPrivate (s32 (idx p + 1)) STATE_DATA_PULSE (if b then s32 (data p .<< 1) .| 1 else s32 (data p .<< 1)) (data_ok p) (repeat p) (base_time p)) (ws ++ [w]).
Proof.
  intros [_ _ Hsp Hok] Hs Hw. destruct (Hsp Hs) as (Hi & dp & Hdp & pre & hp & hs & bs & bw & -> & Hhp & Hhs & Hb & Hix & Hl & Hd).
  split; cbn [state data_ok set_state]; try done; [|by apply inv_ok_snoc]. intros _. exists pre, hp, hs, (bs ++ [b]), (bw ++ [dp; w]).
  split; [by rewrite app_nil_r, <- !app_assoc|]. repeat (split; [done|]). split; [by constructor|]. rewrite length_app. cbn [length idx data].
  rewrite s32_small by lia. split; [lia|]. split; [lia|]. rewrite s32_value_snoc, Hd. done.
Qed.

Lemma pulse_inv p ws w : ir_inv p ws -> state p = STATE_DATA_PULSE -> near CLK_DATA_PULSE w = true ->
  (DATA_PRE_BITS + DATA_BITS <= idx p -> ir_inv (IrPrivate (idx p) STATE_REPEAT_SPACE (data p) (data p) (repeat p) (base_time p)) (ws ++ [w])) /\
  (idx p < DATA_PRE_BITS + DATA_BITS -> ir_inv (set_state p STATE_DATA_SPACE) (ws ++ [w])).
Proof.
  intros [_ Hp _ Hok] Hs Hw. destruct (Hp Hs) as (pre & hp & hs & bs & bw & -> & Hhp & Hhs & Hb & Hix & Hl & Hd).
  rewrite app_nil_r in *. unfold DATA_PRE_BITS, DATA_BITS. split; intros Hi.
  - eapply ir_inv_plain; cycle 4; [reflexivity|done..|]. right. cbn. exists (value bs). split; [|done].
    exists pre, ([hp; hs] ++ bw ++ [w]), []. split; [by rewrite app_nil_r, <- !app_assoc|]. econstructor; (done || lia).
  - split; cbn [state data_ok set_state idx]; try done; [|by apply inv_ok_snoc]. intros _. split; [lia|]. exists w. split; [done|].
    exists pre, hp, hs, bs, bw. split; [by rewrite <- !app_assoc|]. done.
Qed.

Lemma switch_inv p ws w : ir_inv p ws -> ir_inv (ir_switch w p).1 (ws ++ [w]).
Proof.
  intros Hi. pose proof (inv_ok_snoc _ _ w (inv_ok _ _ Hi)) as Hok. unfold ir_switch.
  assert (forall s, s <> STATE_HEADER_SPACE -> s <> STATE_DATA_PULSE -> s <> STATE_DATA_SPACE -> ir_inv (set_state p s) (ws ++ [w])) as Hplain
    by (intros s ? ? ?; by eapply ir_inv_plain).
  destruct (Z.eqb_spec (state p) STATE_HEADER_PULSE).
  { destruct (near _ w) eqn:Hw; [|by apply Hplain]. split; cbn [state data_ok set_state]; try done. intros _. by exists ws, w. }
  destruct (Z.eqb_spec (state p) STATE_HEADER_SPACE).
  { destruct (near CLK_HEADER_SPACE w) eqn:Hw; [by apply header_inv|]. by destruct (near CLK_REPEAT_SPACE w); apply Hplain. }
  destruct (Z.eqb_spec (state p) STATE_REPEAT_PULSE); [by destruct (near _ w); apply Hplain|].
  destruct (Z.eqb_spec (state p) STATE_REPEAT_SPACE); [destruct (_ && _); [by apply (ir_inv_plain _ _ STATE_HEADER_PULSE)|by apply Hplain]|].
  destruct (Z.eqb_spec (state p) STATE_DATA_PULSE).
  { destruct (near _ w) eqn:Hw; [|by apply Hplain]. destruct (pulse_inv p ws w) as [H1 H2]; try done.
    destruct (Z.leb_spec (DATA_PRE_BITS + DATA_BITS) (idx p)); [by apply H1|by apply H2]. }
  destruct (Z.eqb_spec (state p) STATE_DATA_SPACE).
  { destruct (near CLK_DATA_1_SPACE w) eqn:Hw1; [by apply (space_inv p ws w true)|].
    destruct (near CLK_DATA_0_SPACE w) eqn:Hw0; [by apply (space_inv p ws w false)|by apply Hplain]. }
  by eapply ir_inv_plain.
Qed.

Lemma isr_inv p ws tv : ir_inv p ws -> ir_inv (ir_isr tv p).1 (ws ++ [ir_width p tv]).
Proof.
  intros Hi. unfold ir_isr. cbv zeta. destruct (_ <? _).
  - by eapply ir_inv_plain; cycle 4; [reflexivity|done..|apply inv_ok_snoc, Hi].
  - apply switch_inv. destruct Hi as [Hh Hp Hs Hok]. by split.
Qed.

(** A key that was reported has its button's frame among the widths. *)
Definition justified (ws : list Z) (k : Z) : Prop :=
  exists code, received ws code /\ code .>> DATA_BITS = DATA_PRE /\ (code .& (2 ^ DATA_BITS - 1), k) ∈ ir_key_table.

Lemma frame_code_range code fr : frame_signal code fr -> 0 <= code < 2 ^ 32.
Proof. intros [bs bw hp hs dp _ _ _ Hl <- _]. pose proof (value_range bs). rewrite Hl in *. done. Qed.

Lemma produce_justified p ws k : ir_inv p ws -> k ∈ ir_produce p -> justified ws k.
Proof.
  intros Hi Hk. destruct (inv_ok _ _ Hi) as [H0|(code & Hr & Hd)]; [unfold ir_produce in Hk; rewrite H0 in Hk; by apply not_elem_of_nil in Hk|].
  exists code. split; [done|]. destruct Hr as (pre & fr & post & _ & Hf%frame_code_range).
  unfold ir_produce in Hk. rewrite Hd, u32_of_s32 in Hk by done. cbv zeta in Hk.
  destruct (Z.eqb_spec (code .>> DATA_BITS) DATA_PRE); [|by apply not_elem_of_nil in Hk]. split; [done|].
  destruct (List.find _ _) as [[c k']|] eqn:Hfind; [|by apply not_elem_of_nil in Hk]. apply list_elem_of_singleton in Hk as ->.
  apply List.find_some in Hfind as [Hin Hc%Z.eqb_eq]. cbn in Hc. rewrite Hc. by apply list_elem_of_In.
Qed.

Definition sys_inv (s : ir_sys) : Prop := ir_inv (priv s) (widths s) /\ forall k, k ∈ reported s -> justified (widths s) k.

Lemma ir_event_inv s e : sys_inv s -> sys_inv (ir_event s e).
Proof.
  intros [Hi Hr]. destruct e as [tv|]; cbn [ir_event].
  - split; [by apply isr_inv|]. intros k Hk. destruct (Hr k Hk) as (code & Hc & Hk'). exists code. split; [by apply received_snoc|done].
  - destruct (pending s); [|done]. split; [done|]. cbn. intros k [Hk|Hk]%elem_of_app; [by apply Hr|by eapply produce_justified].
Qed.

Lemma run_inv es : forall s, sys_inv s -> sys_inv (ir_run s es).
Proof. induction es as [|e es IH]; intros s Hs; [done|]. by apply IH, ir_event_inv. Qed.

(** C18. No key without its button.  Whatever the edges and whenever the work
    queue runs, from boot on, a key that is reported belongs to a complete
    frame among the widths measured: header, 32 bits and closing pulse in a
    row, each within its tolerance, whose upper half is the remote's prefix
    and whose lower half is the key's code in the table. *)
Theorem ir_reports_sound es k : k ∈ reported (ir_run ir_boot es) ->
  exists pre code fr post, widths (ir_run ir_boot es) = pre ++ fr ++ post /\ frame_signal code fr /\
    code .>> DATA_BITS = DATA_PRE /\ (code .& (2 ^ DATA_BITS - 1), k) ∈ ir_key_table.
Proof.
  intros Hk. destruct (run_inv es ir_boot) as [_ Hr].
  { split; [|intros k' Hk'; by apply not_elem_of_nil in Hk']. by eapply ir_inv_plain; cycle 4; [reflexivity|done..|left]. }
  destruct (Hr k Hk) as (code & (pre & fr & post & Hw & Hf) & Hp & Ht). by exists pre, code, fr, post.
Qed.

(** ** The power button, held for three repeats *)

Module IrDemo.

(** Nominal widths of bits. *)
Definition nominal (bs : list bool) : list Z := concat (map (fun b : bool => [CLK_DATA_PULSE; if b then CLK_DATA_1_SPACE else CLK_DATA_0_SPACE]) bs).

Lemma bits_nominal bs : bits_signal bs (nominal bs).
Proof.
  induction bs as [|b bs IH] using rev_ind; [constructor|]. unfold nominal. rewrite map_app, concat_app. cbn [map concat]. rewrite app_nil_r.
  constructor; [done|done|by destruct b].
Qed.

(** 0x20DF10EF. *)
Definition power_bits : list bool := map (fun i => Z.testbit 0x20DF10EF (31 - Z.of_nat i)) (seq 0 32).

Definition power : list Z := [CLK_HEADER_PULSE; CLK_HEADER_SPACE] ++ nominal power_bits ++ [CLK_DATA_PULSE].

Lemma power_frame : frame_signal (DATA_PRE * 2 ^ 16 + 0x10EF) power.
Proof. apply (frame _ power_bits); try done. apply bits_nominal. Qed.

Definition held : list Z := [CLK_GAP; CLK_HEADER_PULSE; CLK_REPEAT_SPACE; CLK_DATA_PULSE].

Lemma held_signal : repeat_signal held.
Proof. by constructor. Qed.

Lemma ir_button_held_witness : reported (foldl send ir_boot [5000000000 :: power; held; held; held]) = [116; 116].
Proof.
  apply (ir_button_held ir_boot 5000000000 0x10EF 116 power [held; held; held]).
  - apply list_elem_of_here.
  - done.
  - exact power_frame.
  - repeat (apply Forall_cons_2; [exact held_signal|]). apply Forall_nil_2.
  - done.
Defined.

Lemma ir_reports_sound_witness : exists pre code fr post,
  widths (ir_run ir_boot (edges_at (0, 0) (200000 :: power) ++ [Work])) = pre ++ fr ++ post /\ frame_signal code fr /\
    code .>> DATA_BITS = DATA_PRE /\ (code .& (2 ^ DATA_BITS - 1), 116) ∈ ir_key_table.
Proof. apply ir_reports_sound. vm_compute. apply list_elem_of_here. Defined.

End IrDemo.
