(* ===== verification/Calendar.v ===== *)
(** * Dates (lib/bcd.c, drivers/rtc/rtc-lib.c, mktime of kernel/time.c,
    kernel/time/timeconv.c)

    The kernel has two conversions from seconds to a date, [rtc_time_to_tm]
    and [time_to_tm], and one back, [mktime].  All three are compared with
    the calendar itself: [civil n c] says that [c] is the date [n] days after
    1970-01-01, by walking from day to day in either direction.

    [unsigned long], [long] and [time_t] have 32 bits on this processor.
    Divisions of signed values truncate ([Z.quot], [Z.rem]).  The loops of
    [time_to_tm] have fuel: one round for each day in the offset, and four
    for the year, which is never further off than that. *)

From S2P Require Import Prelude.
From Stdlib Require Import ZArith Lia.
From stdpp Require Import base numbers list option.

Local Open Scope Z_scope.

(** ** lib/bcd.c *)

Definition bcd2bin (val : Z) : Z := (u8 val .& 0x0f) + (u8 val .>> 4) * 10.

Definition bin2bcd (val : Z) : Z := u8 (u32 ((u32 val / 10) .<< 4) + u32 val mod 10).

(** ** drivers/rtc/rtc-lib.c *)

Record rtc_time : Type := RtcTime {
  tm_sec : Z;
  tm_min : Z;
  tm_hour : Z;
  tm_mday : Z;
  tm_mon : Z;
  tm_year : Z;
  tm_wday : Z;
  tm_yday : Z;
  tm_isdst : Z
}.

Definition rtc_days_in_month : list Z := [31; 28; 31; 30; 31; 30; 31; 31; 30; 31; 30; 31].

Definition rtc_ydays : list (list Z) :=
  [[0; 31; 59; 90; 120; 151; 181; 212; 243; 273; 304; 334; 365];
   [0; 31; 60; 91; 121; 152; 182; 213; 244; 274; 305; 335; 366]].

Definition is_leap_year (year : Z) : bool :=
  ((year mod 4 =? 0) && negb (year mod 100 =? 0)) || (year mod 400 =? 0).

Definition LEAPS_THRU_END_OF (y : Z) : Z := y / 4 - y / 100 + y / 400.

Definition rtc_month_days (month year : Z) : Z :=
  znth rtc_days_in_month month + Z.b2z (is_leap_year year && (month =? 1)).

Definition rtc_year_days (day month year : Z) : Z :=
  s32 (u32 (znth (default [] (rtc_ydays !! Z.to_nat (Z.b2z (is_leap_year year)))) month + day - 1)).

(** [for (month = 0; month < 11; month++)], from [month = 11 - fuel] *)
Fixpoint month_loop (fuel : nat) (month year days : Z) : Z * Z :=
  match fuel with
  | O => (month, days)
  | S fuel' =>
    let newdays := s32 (days - rtc_month_days month year) in
    if newdays <? 0 then (month, days) else month_loop fuel' (u32 (month + 1)) year newdays
  end.

(** The year and the day in it, from the guess. *)
Definition rtc_year (year days : Z) : Z * Z :=
  if days <? 0 then let year := u32 (year - 1) in (year, s32 (days + (365 + Z.b2z (is_leap_year year)))) else (year, days).

(** The fields that are not written keep the values of [tm]. *)
Definition rtc_time_to_tm (time : Z) (tm : rtc_time) : rtc_time :=
  let days := s32 (time / 86400) in
  let time := u32 (time - u32 (u32 days * 86400)) in
  let wday := Z.rem (s32 (days + 4)) 7 in
  let year := u32 (1970 + Z.quot days 365) in
  let days := s32 (u32 (days - u32 (u32 (u32 (u32 (year - 1970) * 365) + LEAPS_THRU_END_OF (u32 (year - 1))) - LEAPS_THRU_END_OF (1970 - 1)))) in
  let '(year, days) := rtc_year year days in
  let '(month, mdays) := month_loop 11 0 year days in
  let hour := s32 (time / 3600) in
  let time := u32 (time - u32 (hour * 3600)) in
  let min := s32 (time / 60) in
  RtcTime (s32 (u32 (time - u32 (min * 60)))) min hour (s32 (mdays + 1)) (s32 month) (s32 (u32 (year - 1900))) wday (s32 (days + 1)) (tm_isdst tm).

(** ** mktime (kernel/time.c) *)

Definition mktime (year0 mon0 day hour min sec : Z) : Z :=
  let mon := u32 (mon0 - 2) in
  let '(mon, year) := if s32 mon <=? 0 then (u32 (mon + 12), u32 (year0 - 1)) else (mon, year0) in
  u32 (u32 (u32 (u32 (u32 (u32 (u32 (u32 (year / 4 - year / 100 + year / 400 + u32 (367 * mon) / 12 + day) +
    u32 (year * 365) - 719499) * 24) + hour) * 60) + min) * 60) + sec).

(** ** drivers/rtc/rtc-lib.c, continued *)

Definition rtc_valid_tm (tm : rtc_time) : Z :=
  if (tm_year tm <? 70) || (12 <=? u32 (tm_mon tm)) || (tm_mday tm <? 1) ||
     (rtc_month_days (u32 (tm_mon tm)) (u32 (s32 (tm_year tm + 1900))) <? tm_mday tm) ||
     (24 <=? u32 (tm_hour tm)) || (60 <=? u32 (tm_min tm)) || (60 <=? u32 (tm_sec tm))
  then - EINVAL else 0.

Definition rtc_tm_to_time (tm : rtc_time) : Z :=
  mktime (u32 (tm_year tm + 1900)) (u32 (tm_mon tm + 1)) (u32 (tm_mday tm)) (u32 (tm_hour tm)) (u32 (tm_min tm)) (u32 (tm_sec tm)).

(** ** kernel/time/timeconv.c *)

Definition __isleap (year : Z) : bool :=
  (Z.rem year 4 =? 0) && (negb (Z.rem year 100 =? 0) || (Z.rem year 400 =? 0)).

Definition math_div (a b : Z) : Z := s32 (Z.quot a b - Z.b2z (Z.rem a b <? 0)).

Definition leaps_between (y1 y2 : Z) : Z :=
  let leaps1 := math_div (s32 (y1 - 1)) 4 - math_div (s32 (y1 - 1)) 100 + math_div (s32 (y1 - 1)) 400 in
  let leaps2 := math_div (s32 (y2 - 1)) 4 - math_div (s32 (y2 - 1)) 100 + math_div (s32 (y2 - 1)) 400 in
  s32 (leaps2 - leaps1).

Definition __mon_yday : list (list Z) :=
  [[0; 31; 59; 90; 120; 151; 181; 212; 243; 273; 304; 334; 365];
   [0; 31; 60; 91; 121; 152; 182; 213; 244; 274; 305; 335; 366]].

Definition SECS_PER_HOUR : Z := 60 * 60.
Definition SECS_PER_DAY : Z := SECS_PER_HOUR * 24.

(** [struct tm], which differs from [struct rtc_time] by the missing tm_isdst. *)
Record tm : Type := Tm {
  t_sec : Z;
  t_min : Z;
  t_hour : Z;
  t_mday : Z;
  t_mon : Z;
  t_year : Z;
  t_wday : Z;
  t_yday : Z
}.

Fixpoint rem_up (fuel : nat) (rem days : Z) : option (Z * Z) :=
  if rem <? 0 then
    match fuel with O => None | S fuel' => rem_up fuel' (s32 (rem + SECS_PER_DAY)) (s32 (days - 1)) end
  else Some (rem, days).

Fixpoint rem_down (fuel : nat) (rem days : Z) : option (Z * Z) :=
  if SECS_PER_DAY <=? rem then
    match fuel with O => None | S fuel' => rem_down fuel' (s32 (rem - SECS_PER_DAY)) (s32 (days + 1)) end
  else Some (rem, days).

Fixpoint year_loop (fuel : nat) (y days : Z) : option (Z * Z) :=
  if (days <? 0) || ((if __isleap y then 366 else 365) <=? days) then
    match fuel with
    | O => None
    | S fuel' =>
      let yg := s32 (y + math_div days 365) in
      year_loop fuel' yg (s32 (days - ((yg - y) * 365 + leaps_between y yg)))
    end
  else Some (y, days).

(** [for (y = 11; days < ip[y]; y--)]; None if it leaves the table *)
Fixpoint mon_loop (ip : list Z) (y : nat) (days : Z) : option Z :=
  if days <? znth ip (Z.of_nat y) then
    match y with O => None | S y' => mon_loop ip y' days end
  else Some (Z.of_nat y).

Definition time_to_tm (totalsecs offset : Z) : option tm :=
  let days := Z.quot totalsecs SECS_PER_DAY in
  let rem := s32 (Z.rem totalsecs SECS_PER_DAY + offset) in
  let fuel := S (Z.to_nat (Z.abs rem / SECS_PER_DAY)) in
  '(rem, days) ← rem_up fuel rem days;
  '(rem, days) ← rem_down fuel rem days;
  let hour := Z.quot rem SECS_PER_HOUR in
  let rem := Z.rem rem SECS_PER_HOUR in
  let wday := Z.rem (s32 (4 + days)) 7 in
  let wday := if wday <? 0 then wday + 7 else wday in
  '(y, days) ← year_loop 4 1970 days;
  let ip := default [] (__mon_yday !! Z.to_nat (Z.b2z (__isleap y))) in
  mon ← mon_loop ip 11 days;
  Some (Tm (Z.rem rem 60) (Z.quot rem 60) hour (days - znth ip mon + 1) mon (y - 1900) wday days).

(** ** The calendar *)

(** Year, month from 0, day of the month from 1. *)
Definition date : Type := Z * Z * Z.

Definition leap (y : Z) : bool :=
  if y mod 400 =? 0 then true else if y mod 100 =? 0 then false else y mod 4 =? 0.

Definition month_length (y m : Z) : Z :=
  if m =? 1 then if leap y then 29 else 28 else if (m =? 3) || (m =? 5) || (m =? 8) || (m =? 10) then 30 else 31.

Definition valid_date (c : date) : Prop := let '(y, m, d) := c in 0 <= m < 12 /\ 1 <= d <= month_length y m.

Definition next_day (c : date) : date :=
  let '(y, m, d) := c in
  if d <? month_length y m then (y, m, d + 1) else if m <? 11 then (y, m + 1, 1) else (y + 1, 0, 1).

(** [c] is the date [n] days after 1970-01-01. *)
Inductive civil : Z -> date -> Prop :=
| civil_epoch : civil 0 (1970, 0, 1)
| civil_next n c : civil n c -> civil (n + 1) (next_day c)
| civil_prev n c : valid_date c -> civil n (next_day c) -> civil (n - 1) c.

(** *** Day numbers *)

Definition jan1 (y : Z) : Z := 365 * (y - 1970) + (LEAPS_THRU_END_OF (y - 1) - LEAPS_THRU_END_OF 1969).

Definition before_month (y m : Z) : Z :=
  znth [0; 31; 59; 90; 120; 151; 181; 212; 243; 273; 304; 334; 365] m + Z.b2z (leap y && (1 <? m)).

Definition day_number (c : date) : Z := let '(y, m, d) := c in jan1 y + before_month y m + d - 1.

Lemma jan1_succ y : jan1 (y + 1) = jan1 y + 365 + Z.b2z (leap y).
Proof.
  unfold jan1, leap, LEAPS_THRU_END_OF. replace (y + 1 - 1) with y by lia.
  destruct (Z.eqb_spec (y mod 400) 0); [cbn [Z.b2z]; zdm|]. destruct (Z.eqb_spec (y mod 100) 0); [cbn [Z.b2z]; zdm|].
  destruct (Z.eqb_spec (y mod 4) 0); cbn [Z.b2z]; zdm.
Qed.

Lemma jan1_mono y y' : y <= y' -> jan1 y <= jan1 y'.
Proof. unfold jan1, LEAPS_THRU_END_OF. intros. zdm. Qed.

(** The twelve months, one at a time. *)
Ltac each_month m :=
  let H := fresh in
  assert (m = 0 \/ m = 1 \/ m = 2 \/ m = 3 \/ m = 4 \/ m = 5 \/ m = 6 \/ m = 7 \/ m = 8 \/ m = 9 \/ m = 10 \/ m = 11) as H by lia;
  repeat destruct H as [H|H]; subst m.

Lemma before_month_succ y m : 0 <= m < 12 -> before_month y (m + 1) = before_month y m + month_length y m.
Proof. intros. unfold before_month, month_length. destruct (leap y); each_month m; reflexivity. Qed.

Lemma before_month_mono y m m' : 0 <= m <= m' -> m' <= 12 -> before_month y m <= before_month y m'.
Proof.
  intros Hm. replace m' with (m + Z.of_nat (Z.to_nat (m' - m))) by lia. generalize (Z.to_nat (m' - m)). intros k.
  induction k as [|k IH]; intros Hk; [rewrite Z.add_0_r; lia|]. replace (m + Z.of_nat (S k)) with (m + Z.of_nat k + 1) by lia.
  rewrite before_month_succ by lia. specialize (IH ltac:(lia)).
  assert (0 <= month_length y (m + Z.of_nat k)) by (unfold month_length; repeat case_match; lia). lia.
Qed.

Lemma year_of_date y m d : valid_date (y, m, d) -> jan1 y <= day_number (y, m, d) < jan1 (y + 1).
Proof.
  intros [Hm Hd]. unfold day_number. rewrite jan1_succ. pose proof (before_month_mono y 0 m ltac:(lia) ltac:(lia)) as H0.
  pose proof (before_month_mono y (m + 1) 12 ltac:(lia) ltac:(lia)) as H1. rewrite before_month_succ in H1 by lia.
  change (before_month y 0) with (0 + Z.b2z (leap y && false)) in H0. change (before_month y 12) with (365 + Z.b2z (leap y && true)) in H1.
  rewrite andb_false_r, andb_true_r in *. cbn [Z.b2z] in H0. lia.
Qed.

(** A date is determined by its day number. *)
Lemma day_number_inj c c' : valid_date c -> valid_date c' -> day_number c = day_number c' -> c = c'.
Proof.
  destruct c as [[y m] d], c' as [[y' m'] d']. intros Hc Hc' Heq. pose proof (year_of_date _ _ _ Hc). pose proof (year_of_date _ _ _ Hc').
  assert (y = y') as <-.
  { destruct (Z.lt_trichotomy y y') as [Hl|[?|Hl]]; [pose proof (jan1_mono (y + 1) y' ltac:(lia)); lia|done|].
    pose proof (jan1_mono (y' + 1) y ltac:(lia)). lia. }
  destruct Hc as [Hm Hd], Hc' as [Hm' Hd']. unfold day_number in Heq.
  assert (m = m') as <-.
  { destruct (Z.lt_trichotomy m m') as [Hl|[?|Hl]]; [pose proof (before_month_mono y (m + 1) m' ltac:(lia) ltac:(lia)) as Hb|done|
      pose proof (before_month_mono y (m' + 1) m ltac:(lia) ltac:(lia)) as Hb]; rewrite before_month_succ in Hb by lia; lia. }
  repeat f_equal. lia.
Qed.

Lemma month_length_pos y m : 28 <= month_length y m <= 31.
Proof. unfold month_length. repeat case_match; lia. Qed.

Lemma next_day_number c : valid_date c -> valid_date (next_day c) /\ day_number (next_day c) = day_number c + 1.
Proof.
  destruct c as [[y m] d]. intros [Hm Hd]. unfold next_day. destruct (Z.ltb_spec d (month_length y m)); [cbn; lia|].
  destruct (Z.ltb_spec m 11).
  - pose proof (month_length_pos y (m + 1)). split; [cbn; lia|]. cbn [day_number]. rewrite before_month_succ by lia. lia.
  - split; [pose proof (month_length_pos (y + 1) 0); cbn -[month_length]; lia|]. assert (m = 11) as -> by lia. unfold day_number.
    rewrite jan1_succ. change (before_month (y + 1) 0) with (0 + Z.b2z (leap (y + 1) && false)).
    change (before_month y 11) with (334 + Z.b2z (leap y && true)). change (month_length y 11) with 31 in *. rewrite andb_false_r, andb_true_r. cbn [Z.b2z]. lia.
Qed.

Definition prev_day (c : date) : date :=
  let '(y, m, d) := c in
  if 1 <? d then (y, m, d - 1) else if 0 <? m then (y, m - 1, month_length y (m - 1)) else (y - 1, 11, 31).

Lemma prev_day_valid c : valid_date c -> valid_date (prev_day c) /\ next_day (prev_day c) = c.
Proof.
  destruct c as [[y m] d]. intros [Hm Hd]. unfold prev_day. destruct (Z.ltb_spec 1 d).
  { split; [cbn; lia|]. unfold next_day. rewrite (proj2 (Z.ltb_lt _ _)) by lia. repeat f_equal. lia. }
  assert (d = 1) as -> by lia. destruct (Z.ltb_spec 0 m).
  - pose proof (month_length_pos y (m - 1)). split; [cbn -[month_length]; lia|]. unfold next_day. rewrite Z.ltb_irrefl, (proj2 (Z.ltb_lt _ _)) by lia. repeat f_equal. lia.
  - assert (m = 0) as -> by lia. split; [cbn; lia|]. unfold next_day. cbn. repeat f_equal. lia.
Qed.

Lemma civil_number n c : civil n c <-> valid_date c /\ day_number c = n.
Proof.
  split.
  - induction 1 as [|n c _ [IHv IH]|n c Hv _ [_ IH]]; [split; [cbn; lia|reflexivity]| |].
    + destruct (next_day_number c IHv). split; [done|lia].
    + destruct (next_day_number c Hv). split; [done|lia].
  - intros [Hv <-]. assert (exists c', civil (day_number c) c' /\ valid_date c' /\ day_number c' = day_number c) as (c' & Hc & Hv' & Hn).
    { generalize (day_number c). clear. intros n. induction n as [|n (c & Hc & Hv & Hn)|n (c & Hc & Hv & Hn)] using Z.peano_ind.
      - exists (1970, 0, 1). split; [constructor|]. split; [cbn; lia|reflexivity].
      - exists (next_day c). destruct (next_day_number c Hv). split; [by constructor|]. split; [done|lia].
      - exists (prev_day c). destruct (prev_day_valid c Hv) as [Hp Hnp]. split; [constructor; [done|by rewrite Hnp]|].
        destruct (next_day_number (prev_day c) Hp) as [_ H]. rewrite Hnp in H. split; [done|lia]. }
    by destruct (day_number_inj c' c Hv' Hv Hn).
Qed.

(** ** The code's tables and the calendar *)

Lemma is_leap_year_leap y : is_leap_year y = leap y.
Proof.
  unfold is_leap_year, leap. destruct (Z.eqb_spec (y mod 400) 0), (Z.eqb_spec (y mod 100) 0), (Z.eqb_spec (y mod 4) 0); try reflexivity; exfalso; zdm.
Qed.

Lemma isleap_leap y : 0 <= y -> __isleap y = leap y.
Proof.
  intros. unfold __isleap. rewrite !Z.rem_mod_nonneg by lia. rewrite <- is_leap_year_leap. unfold is_leap_year.
  destruct (Z.eqb_spec (y mod 400) 0), (Z.eqb_spec (y mod 100) 0), (Z.eqb_spec (y mod 4) 0); try reflexivity; exfalso; zdm.
Qed.

Lemma rtc_month_days_length m y : 0 <= m < 12 -> rtc_month_days m y = month_length y m.
Proof. intros. unfold rtc_month_days, month_length. rewrite is_leap_year_leap. destruct (leap y); each_month m; reflexivity. Qed.

Lemma mon_yday_before y m : 0 <= m <= 12 -> znth (default [] (__mon_yday !! Z.to_nat (Z.b2z (leap y)))) m = before_month y m.
Proof.
  intros. unfold before_month. destruct (decide (m = 12)) as [->|]; [by destruct (leap y)|]. destruct (leap y); each_month m; reflexivity.
Qed.

Lemma before_0 y : before_month y 0 = 0.
Proof. unfold before_month. by rewrite andb_false_r. Qed.

Lemma before_12 y : before_month y 12 = 365 + Z.b2z (leap y).
Proof. unfold before_month. by rewrite andb_true_r. Qed.

Lemma s32_u32 x : - 2 ^ 31 <= x < 2 ^ 31 -> s32 (u32 x) = x.
Proof. intros. unfold s32, u32, swrap, uwrap. zdm. Qed.

Lemma b2z_range b : 0 <= Z.b2z b <= 1.
Proof. destruct b; cbn; lia. Qed.

(** ** rtc_time_to_tm *)

Lemma month_loop_spec y k : forall m d, m + Z.of_nat k = 11 -> 0 <= m -> 0 <= d < before_month y 12 - before_month y m ->
  exists m' d', month_loop k m y d = (m', d') /\ 0 <= m' < 12 /\ 0 <= d' < month_length y m' /\ before_month y m' + d' = before_month y m + d.
Proof.
  induction k as [|k IH]; intros m d Hm H0 Hd; cbn [month_loop].
  - exists m, d. split; [done|]. assert (m = 11) as -> by lia. change 12 with (11 + 1) in Hd. rewrite before_month_succ in Hd by lia. lia.
  - pose proof (month_length_pos y m). rewrite rtc_month_days_length by lia. pose proof (b2z_range (leap y)).
    rewrite before_12 in Hd. pose proof (before_month_mono y 0 m ltac:(lia) ltac:(lia)) as Hb. rewrite before_0 in Hb.
    rewrite s32_small by lia. destruct (Z.ltb_spec (d - month_length y m) 0); [exists m, d; split; [done|lia]|].
    rewrite u32_small by lia. destruct (IH (m + 1) (d - month_length y m)) as (m' & d' & Heq & Hr); [lia|lia|..].
    { rewrite before_12, before_month_succ by lia. lia. }
    exists m', d'. split; [done|]. rewrite before_month_succ in Hr by lia. lia.
Qed.

(** The first guess of the year is at most one too large. *)
Lemma year_guess n : 0 <= n < 2 ^ 32 / 86400 + 1 ->
  let y := 1970 + n / 365 in -35 <= n - jan1 y < 365 /\ 1970 <= y < 2107.
Proof. change (2 ^ 32 / 86400 + 1) with 49711. cbv zeta. intros Hn. unfold jan1, LEAPS_THRU_END_OF. change (1969 / 4 - 1969 / 100 + 1969 / 400) with 477. split; zdm. Qed.

(** The date and time of day of a time, as all conversions should give it. *)
Definition is_time (t y m d hour min sec wday yday : Z) : Prop :=
  civil (t / 86400) (y, m, d) /\ hour = t mod 86400 / 3600 /\ min = t mod 3600 / 60 /\ sec = t mod 60 /\
  wday = (t / 86400 + 4) mod 7 /\ yday = t / 86400 - jan1 y.

Lemma jan1_expr y n : 1970 <= y < 2107 -> -35 <= n - jan1 y < 365 ->
  s32 (u32 (n - u32 (u32 (u32 (u32 (y - 1970) * 365) + LEAPS_THRU_END_OF (u32 (y - 1))) - LEAPS_THRU_END_OF (1970 - 1)))) = n - jan1 y.
Proof.
  intros Hy Hn. unfold jan1 in *. rewrite (u32_small (y - 1970)), (u32_small (y - 1)) by lia.
  assert (0 <= LEAPS_THRU_END_OF (y - 1) <= 600) by (unfold LEAPS_THRU_END_OF; zdm).
  assert (LEAPS_THRU_END_OF 1969 <= LEAPS_THRU_END_OF (y - 1)) by (unfold LEAPS_THRU_END_OF; zdm).
  change (1970 - 1) with 1969. assert (0 <= LEAPS_THRU_END_OF 1969) by done. rewrite !u32_small with (x := _ * _) by lia.
  rewrite (u32_small (_ + _)), (u32_small (_ - LEAPS_THRU_END_OF 1969)) by lia. rewrite s32_u32 by lia. lia.
Qed.

Lemma rtc_year_spec n : 0 <= n < 2 ^ 32 / 86400 + 1 ->
  exists y, rtc_year (1970 + n / 365) (n - jan1 (1970 + n / 365)) = (y, n - jan1 y) /\ 0 <= n - jan1 y < 365 + Z.b2z (leap y) /\ 1970 <= y < 2107.
Proof.
  intros Hn. destruct (year_guess n Hn) as [Hd Hy]. unfold rtc_year. set (y := 1970 + n / 365) in *. clearbody y.
  destruct (Z.ltb_spec (n - jan1 y) 0).
  - assert (1970 <= y - 1). { destruct (decide (y = 1970)) as [->|]; [change (jan1 1970) with 0 in *; lia|lia]. }
    exists (y - 1). cbv zeta. rewrite u32_small, is_leap_year_leap by lia. pose proof (jan1_succ (y - 1)) as Hj. replace (y - 1 + 1) with y in Hj by lia.
    pose proof (b2z_range (leap (y - 1))). rewrite s32_small by lia. split; [f_equal; lia|]. lia.
  - exists y. split; [done|]. pose proof (b2z_range (leap y)). lia.
Qed.

Lemma rtc_time_to_tm_exact t tm : 0 <= t < 2 ^ 32 ->
  exists y m d hour min sec wday yday, is_time t y m d hour min sec wday yday /\ 1970 <= y < 2107 /\
    rtc_time_to_tm t tm = RtcTime sec min hour d m (y - 1900) wday (yday + 1) (tm_isdst tm).
Proof.
  intros Ht. set (n := t / 86400). assert (0 <= n < 2 ^ 32 / 86400 + 1) as Hn by (subst n; change (2 ^ 32 / 86400 + 1) with 49711; zdm).
  destruct (year_guess n Hn) as [Hg Hy]. destruct (rtc_year_spec n Hn) as (y & Hyear & Hd & Hyr).
  destruct (month_loop_spec y 11 0 (n - jan1 y)) as (m & d & Hmon & Hm & Hmd & Hsum); [done|done|rewrite before_0, before_12; lia|].
  pose proof (month_length_pos y m). change (2 ^ 32 / 86400 + 1) with 49711 in Hn. pose proof (b2z_range (leap y)).
  exists y, m, (d + 1), (t mod 86400 / 3600), (t mod 3600 / 60), (t mod 60), ((n + 4) mod 7), (n - jan1 y). split; [|split; [done|]].
  { split; [apply civil_number; split; [cbn -[month_length]; lia|]|done]. cbn [day_number]. rewrite before_0 in Hsum. lia. }
  unfold rtc_time_to_tm. cbv zeta. fold n. rewrite (s32_small n), (u32_small n), (s32_small (n + 4)) by lia.
  rewrite Z.quot_div_nonneg, (u32_small (1970 + _)), jan1_expr by lia.
  rewrite Hyear, Hmon. assert (u32 (t - u32 (n * 86400)) = t mod 86400) as ->.
  { rewrite (u32_small (n * 86400)) by lia. subst n. rewrite u32_small by zdm. zdm. }
  assert (0 <= t mod 86400 < 86400) by zdm. rewrite (s32_small (t mod 86400 / 3600)) by zdm.
  rewrite (u32_small (t mod 86400 / 3600 * 3600)) by zdm. assert (u32 (t mod 86400 - t mod 86400 / 3600 * 3600) = t mod 3600) as -> by (rewrite u32_small; zdm).
  rewrite (s32_small (t mod 3600 / 60)), (u32_small (t mod 3600 / 60 * 60)) by zdm.
  assert (u32 (t mod 3600 - t mod 3600 / 60 * 60) = t mod 60) as -> by (rewrite u32_small; zdm).
  rewrite (s32_small (t mod 60)), (s32_small (d + 1)), (s32_small m), (s32_small (n - jan1 y + 1)), (u32_small (y - 1900)), (s32_small (y - 1900)) by (lia || zdm).
  by rewrite Z.rem_mod_nonneg by lia.
Qed.

(** ** mktime *)

Lemma leaps_succ y : LEAPS_THRU_END_OF y = LEAPS_THRU_END_OF (y - 1) + Z.b2z (leap y).
Proof. pose proof (jan1_succ y) as H. unfold jan1 in H. replace (y + 1 - 1) with y in H by lia. lia. Qed.

(** The year that begins in March, and its months from 1. *)
Definition march (y m : Z) : Z * Z := if m <=? 1 then (m + 11, y - 1) else (m - 1, y).

Lemma march_number y m d : 0 <= m < 12 ->
  let '(mon, year) := march y m in 1 <= mon <= 12 /\ LEAPS_THRU_END_OF year + 367 * mon / 12 + d + year * 365 - 719499 = day_number (y, m, d).
Proof.
  intros Hm. unfold march, day_number, jan1. change (LEAPS_THRU_END_OF 1969) with 477. pose proof (leaps_succ y).
  destruct (Z.leb_spec m 1).
  - split; [lia|]. assert (before_month y m = 31 * m) as -> by (assert (m = 0 \/ m = 1) as [->| ->] by lia; unfold before_month; by rewrite andb_false_r). zdm.
  - split; [lia|]. assert (before_month y m = 367 * (m - 1) / 12 + 29 + Z.b2z (leap y)) as -> by (unfold before_month; rewrite <- (andb_true_r (leap y)) at 2;
      each_month m; try lia; destruct (leap y); reflexivity). lia.
Qed.

Lemma u32_sum p q c : u32 (u32 p + u32 q - c) = u32 (p + q - c).
Proof. unfold u32. rewrite <- Z.add_sub_assoc, uwrap_add_l. replace (p + (uwrap 32 q - c)) with (uwrap 32 q + (p - c)) by lia. rewrite uwrap_add_l. f_equal. lia. Qed.

Lemma u32_mul_add x k h : u32 (u32 (u32 x * k) + h) = u32 (x * k + h).
Proof. unfold u32. by rewrite uwrap_mul_l, uwrap_add_l. Qed.

Lemma mktime_exact y m d hour min sec : 0 <= m < 12 -> 1 <= y < 2 ^ 31 ->
  mktime y (m + 1) d hour min sec = u32 (86400 * day_number (y, m, d) + 3600 * hour + 60 * min + sec).
Proof.
  intros Hm Hy. pose proof (march_number y m d Hm) as Hn. unfold mktime. cbv zeta.
  assert ((if s32 (u32 (m + 1 - 2)) <=? 0 then (u32 (u32 (m + 1 - 2) + 12), u32 (y - 1)) else (u32 (m + 1 - 2), y)) = march y m) as ->.
  { rewrite s32_u32 by lia. unfold march. destruct (Z.leb_spec (m + 1 - 2) 0), (Z.leb_spec m 1); try lia.
    - rewrite (u32_small (y - 1)) by lia. unfold u32. rewrite uwrap_add_l, uwrap_small by lia. f_equal. lia.
    - rewrite u32_small by lia. f_equal. lia. }
  destruct (march y m) as [mon year]. destruct Hn as [Hmon <-]. unfold LEAPS_THRU_END_OF. rewrite (u32_small (367 * mon)) by lia.
  set (a := year / 4 - year / 100 + year / 400). set (b := 367 * mon / 12).
  rewrite u32_sum, (u32_mul_add _ 24), (u32_mul_add _ 60 min), (u32_mul_add _ 60 sec). f_equal. lia.
Qed.

(** ** rtc_valid_tm *)

Definition valid_tm (tm : rtc_time) : Prop :=
  70 <= tm_year tm /\ valid_date (tm_year tm + 1900, tm_mon tm, tm_mday tm) /\
  0 <= tm_hour tm < 24 /\ 0 <= tm_min tm < 60 /\ 0 <= tm_sec tm < 60.

Definition int_tm (tm : rtc_time) : Prop :=
  Forall (fun x => - 2 ^ 31 <= x < 2 ^ 31) [tm_sec tm; tm_min tm; tm_hour tm; tm_mday tm; tm_mon tm] /\ - 2 ^ 31 <= tm_year tm < 2 ^ 31 - 1900.

Lemma u32_lt x k : - 2 ^ 31 <= x < 2 ^ 31 -> 0 <= k <= 2 ^ 31 -> (k <=? u32 x) = negb ((0 <=? x) && (x <? k)).
Proof.
  intros Hx Hk. destruct (Z.leb_spec 0 x) as [H|H]; cbn [andb negb].
  - rewrite u32_small by lia. destruct (Z.leb_spec k x), (Z.ltb_spec x k); (done || lia).
  - apply Z.leb_le. unfold u32, uwrap. zdm.
Qed.

Lemma rtc_valid_tm_spec tm : int_tm tm -> rtc_valid_tm tm = 0 <-> valid_tm tm.
Proof.
  intros [Hi Hyr]. repeat (apply Forall_cons_1 in Hi as [? Hi]). unfold rtc_valid_tm, valid_tm, valid_date, EINVAL. rewrite !u32_lt by lia.
  destruct (Z.ltb_spec (tm_year tm) 70); [cbn; lia|]. destruct (Z.leb_spec 0 (tm_mon tm)); [|cbn; lia].
  destruct (Z.ltb_spec (tm_mon tm) 12); [|cbn; lia]. rewrite (u32_small (tm_mon tm)), s32_small, (u32_small (tm_year tm + 1900)) by lia.
  rewrite rtc_month_days_length by lia. set (l := month_length _ _). clearbody l. cbn [andb negb orb].
  destruct (Z.ltb_spec (tm_mday tm) 1); [cbn; lia|]. destruct (Z.ltb_spec l (tm_mday tm)); [cbn; lia|].
  destruct (Z.leb_spec 0 (tm_hour tm)), (Z.ltb_spec (tm_hour tm) 24); try (cbn; lia).
  destruct (Z.leb_spec 0 (tm_min tm)), (Z.ltb_spec (tm_min tm) 60); try (cbn; lia).
  destruct (Z.leb_spec 0 (tm_sec tm)), (Z.ltb_spec (tm_sec tm) 60); cbn; lia.
Qed.

Lemma rtc_valid_tm_cases tm : rtc_valid_tm tm = 0 \/ rtc_valid_tm tm = - EINVAL.
Proof. unfold rtc_valid_tm. case_match; [by right|by left]. Qed.

(** The seconds a broken-down time stands for. *)
Definition seconds (tm : rtc_time) : Z :=
  86400 * day_number (tm_year tm + 1900, tm_mon tm, tm_mday tm) + 3600 * tm_hour tm + 60 * tm_min tm + tm_sec tm.

Lemma rtc_tm_to_time_exact tm : valid_tm tm -> tm_year tm < 2 ^ 31 - 1900 -> rtc_tm_to_time tm = u32 (seconds tm).
Proof.
  intros (Hy & [Hm Hd] & Hh & Hmi & Hs) Hy'. pose proof (month_length_pos (tm_year tm + 1900) (tm_mon tm)). unfold rtc_tm_to_time.
  rewrite !u32_small by lia. by rewrite mktime_exact by lia.
Qed.

Lemma is_time_seconds t y m d hour min sec wday yday : is_time t y m d hour min sec wday yday ->
  86400 * day_number (y, m, d) + 3600 * hour + 60 * min + sec = t.
Proof. intros (Hc & -> & -> & -> & _). apply civil_number in Hc as [_ ->]. zdm. Qed.

Lemma rtc_time_to_tm_valid t tm : 0 <= t < 2 ^ 32 ->
  valid_tm (rtc_time_to_tm t tm) /\ seconds (rtc_time_to_tm t tm) = t /\ tm_year (rtc_time_to_tm t tm) < 207.
Proof.
  intros Ht. destruct (rtc_time_to_tm_exact t tm Ht) as (y & m & d & hour & min & sec & wday & yday & Hi & Hy & ->).
  unfold seconds, valid_tm. cbn [tm_year tm_mon tm_mday tm_hour tm_min tm_sec]. replace (y - 1900 + 1900) with y by lia.
  rewrite (is_time_seconds t y m d hour min sec wday yday Hi). destruct Hi as (Hc & -> & -> & -> & _). apply civil_number in Hc as [Hv _].
  split; [|split; [done|lia]]. split; [lia|]. split; [done|]. split; [zdm|]. split; zdm.
Qed.

Lemma valid_tm_int tm : valid_tm tm -> tm_year tm < 2 ^ 31 - 1900 -> int_tm tm.
Proof.
  intros (Hy & [Hm Hd] & Hh & Hmi & Hs) Hy'. pose proof (month_length_pos (tm_year tm + 1900) (tm_mon tm)).
  split; [|lia]. repeat (apply Forall_cons_2; [lia|]). apply Forall_nil_2.
Qed.

Lemma seconds_nonneg tm : valid_tm tm -> 0 <= seconds tm.
Proof.
  intros (Hy & Hv & Hh & Hmi & Hs). unfold seconds. pose proof (year_of_date _ _ _ Hv). pose proof (jan1_mono 1970 (tm_year tm + 1900) ltac:(lia)).
  change (jan1 1970) with 0 in *. lia.
Qed.

Lemma seconds_inj a b : valid_tm a -> valid_tm b -> seconds a = seconds b ->
  tm_year a = tm_year b /\ tm_mon a = tm_mon b /\ tm_mday a = tm_mday b /\ tm_hour a = tm_hour b /\ tm_min a = tm_min b /\ tm_sec a = tm_sec b.
Proof.
  intros (_ & Hva & Ha) (_ & Hvb & Hb) Heq. unfold seconds in Heq.
  assert (day_number (tm_year a + 1900, tm_mon a, tm_mday a) = day_number (tm_year b + 1900, tm_mon b, tm_mday b)) as Hn by lia.
  pose proof (day_number_inj _ _ Hva Hvb Hn) as Hd. injection Hd as ? ? ?. lia.
Qed.

(** C40. rtc_time_to_tm and rtc_tm_to_time are inverse.  Every time of 32 bits
    is converted to a date that rtc_valid_tm accepts and that rtc_tm_to_time
    converts back; every date that rtc_valid_tm accepts and whose seconds fit
    32 bits is given back by rtc_time_to_tm after rtc_tm_to_time in its six
    fields of date and time. *)
Theorem rtc_time_roundtrip t tm0 tm :
  (0 <= t < 2 ^ 32 -> rtc_valid_tm (rtc_time_to_tm t tm0) = 0 /\ rtc_tm_to_time (rtc_time_to_tm t tm0) = t) /\
  (int_tm tm -> rtc_valid_tm tm = 0 -> seconds tm < 2 ^ 32 ->
   let tm' := rtc_time_to_tm (rtc_tm_to_time tm) tm0 in
   tm_year tm' = tm_year tm /\ tm_mon tm' = tm_mon tm /\ tm_mday tm' = tm_mday tm /\
   tm_hour tm' = tm_hour tm /\ tm_min tm' = tm_min tm /\ tm_sec tm' = tm_sec tm).
Proof.
  split.
  - intros Ht. destruct (rtc_time_to_tm_valid t tm0 Ht) as (Hv & Hs & Hy). split.
    + apply rtc_valid_tm_spec; [by apply valid_tm_int; [|lia]|done].
    + rewrite rtc_tm_to_time_exact, Hs, u32_small by (done || lia). done.
  - intros Hi Hv%rtc_valid_tm_spec Hs; [|done]. assert (0 <= seconds tm) by by apply seconds_nonneg.
    rewrite rtc_tm_to_time_exact, u32_small by (done || apply Hi || lia). cbv zeta.
    destruct (rtc_time_to_tm_valid (seconds tm) tm0) as (Hv' & Hs' & _); [done|]. by apply seconds_inj.
Qed.

(** ** time_to_tm *)

Lemma rem_up_spec f : forall rem days, - 86400 * Z.of_nat f <= rem < 2 ^ 31 -> - 2 ^ 31 <= rem -> - 2 ^ 30 + Z.of_nat f <= days < 2 ^ 30 ->
  exists rem' days', rem_up f rem days = Some (rem', days') /\ 86400 * days' + rem' = 86400 * days + rem /\ 0 <= rem' /\
    (rem' < 86400 \/ rem' = rem) /\ days - Z.of_nat f <= days' <= days.
Proof.
  induction f as [|f IH]; intros rem days Hr Hr' Hd; cbn [rem_up]; (destruct (Z.ltb_spec rem 0); [|exists rem, days; split; [done|lia]]); [lia|].
  change SECS_PER_DAY with 86400. rewrite !s32_small by lia. destruct (IH (rem + 86400) (days - 1)) as (r & d & -> & H'); [lia..|]. exists r, d. split; [done|lia].
Qed.

Lemma rem_down_spec f : forall rem days, 0 <= rem < 86400 * Z.of_nat f + 86400 -> rem < 2 ^ 31 -> - 2 ^ 30 <= days < 2 ^ 30 - Z.of_nat f ->
  exists rem' days', rem_down f rem days = Some (rem', days') /\ 86400 * days' + rem' = 86400 * days + rem /\ 0 <= rem' < 86400.
Proof.
  induction f as [|f IH]; intros rem days Hr Hr' Hd; cbn [rem_down]; change SECS_PER_DAY with 86400;
    (destruct (Z.leb_spec 86400 rem); [|exists rem, days; split; [done|lia]]); [lia|].
  rewrite !s32_small by lia. destruct (IH (rem - 86400) (days + 1)) as (r & d & -> & H'); [lia..|]. exists r, d. split; [done|lia].
Qed.

Lemma math_div_floor a b : - 2 ^ 31 <= a < 2 ^ 31 -> 1 < b -> math_div a b = a / b.
Proof.
  intros Ha Hb. unfold math_div. pose proof (Z.quot_rem a b ltac:(lia)). assert (Z.quot a b - Z.b2z (Z.rem a b <? 0) = a / b) as ->.
  { apply Z.div_unique with (r := Z.rem a b + b * Z.b2z (Z.rem a b <? 0)).
    - left. pose proof (Z.rem_bound_abs a b ltac:(lia)). destruct (Z.ltb_spec (Z.rem a b) 0); cbn [Z.b2z]; lia.
    - destruct (Z.ltb_spec (Z.rem a b) 0); cbn [Z.b2z]; lia. }
  apply s32_small. split; [apply Z.div_le_lower_bound; lia|apply Z.div_lt_upper_bound; lia].
Qed.

Lemma leaps_between_jan1 y y' : 0 <= y < 2 ^ 20 -> 0 <= y' < 2 ^ 20 -> (y' - y) * 365 + leaps_between y y' = jan1 y' - jan1 y.
Proof.
  intros Hy Hy'. unfold leaps_between, jan1. cbv zeta. rewrite !(s32_small (_ - 1)), !math_div_floor by lia.
  fold (LEAPS_THRU_END_OF (y - 1)) (LEAPS_THRU_END_OF (y' - 1)). rewrite s32_small by (unfold LEAPS_THRU_END_OF; zdm). lia.
Qed.

Definition in_year (y n : Z) : Prop := 0 <= n - jan1 y < 365 + Z.b2z (leap y).

Lemma year_test y d : 0 <= y -> (d <? 0) || ((if __isleap y then 366 else 365) <=? d) = negb ((0 <=? d) && (d <? 365 + Z.b2z (leap y))).
Proof.
  intros Hy. rewrite isleap_leap by done. destruct (leap y); cbn [Z.b2z];
    destruct (Z.ltb_spec d 0), (Z.leb_spec 0 d); try lia; try done; cbn; rewrite Z.leb_antisym; done.
Qed.

Lemma year_loop_in f y n : 0 <= y -> in_year y n -> year_loop f y (n - jan1 y) = Some (y, n - jan1 y).
Proof.
  intros Hy [H1 H2]. destruct f; cbn [year_loop]; rewrite year_test by done;
    rewrite (proj2 (Z.leb_le _ _) H1), (proj2 (Z.ltb_lt _ _) H2); done.
Qed.

Lemma year_loop_step f y n : 0 <= y < 2 ^ 19 -> 0 <= y + (n - jan1 y) / 365 < 2 ^ 20 -> - 2 ^ 30 <= n < 2 ^ 30 -> ~ in_year y n ->
  year_loop (S f) y (n - jan1 y) = year_loop f (y + (n - jan1 y) / 365) (n - jan1 (y + (n - jan1 y) / 365)).
Proof.
  intros Hy Hyg Hn Hout. assert (- 2 ^ 29 <= jan1 y < 2 ^ 29) by (unfold jan1, LEAPS_THRU_END_OF; zdm). cbn [year_loop]. rewrite year_test by lia.
  destruct (Z.leb_spec 0 (n - jan1 y)) as [H1|H1], (Z.ltb_spec (n - jan1 y) (365 + Z.b2z (leap y))) as [H2|H2]; cbn [andb negb]; [by destruct Hout|..];
    cbv zeta; rewrite math_div_floor by lia; set (yg := y + (n - jan1 y) / 365) in *;
    (assert (- 2 ^ 29 <= jan1 yg < 2 ^ 29) by (clearbody yg; unfold jan1, LEAPS_THRU_END_OF; zdm));
    rewrite (s32_small yg), leaps_between_jan1, s32_small by lia; f_equal; lia.
Qed.

(** At most two corrections of the year. *)
Lemma year_loop_spec n : - 50000 <= n <= 50000 ->
  exists y, year_loop 4 1970 n = Some (y, n - jan1 y) /\ in_year y n /\ 1800 <= y < 2200.
Proof.
  intros Hn. assert (year_loop 4 1970 n = year_loop 4 1970 (n - jan1 1970)) as -> by (f_equal; change (jan1 1970) with 0; lia). set (y1 := 1970 + (n - jan1 1970) / 365).
  assert (-36 <= n - jan1 y1 < 401 /\ 1832 <= y1 < 2108) as [Hd Hy].
  { subst y1. change (jan1 1970) with 0. rewrite Z.sub_0_r. unfold jan1, LEAPS_THRU_END_OF. change (1969 / 4 - 1969 / 100 + 1969 / 400) with 477. split; zdm. }
  destruct (decide (0 <= n - jan1 1970 < 365 + Z.b2z (leap 1970))) as [Hi|Ho].
  { exists 1970. split; [by apply year_loop_in|]. split; [done|lia]. }
  rewrite year_loop_step by (done || (fold y1; lia)). fold y1. clearbody y1. clear Ho.
  destruct (decide (0 <= n - jan1 y1 < 365 + Z.b2z (leap y1))) as [Hi|Ho].
  { exists y1. split; [apply year_loop_in; [lia|done]|]. split; [done|lia]. }
  set (y2 := y1 + (n - jan1 y1) / 365). assert (in_year y2 n /\ 1800 <= y2 < 2200) as [Hi Hy2].
  { pose proof (b2z_range (leap y1)). unfold in_year. destruct (Z.lt_ge_cases (n - jan1 y1) 0).
    - assert (y2 = y1 - 1) as -> by (subst y2; zdm). pose proof (jan1_succ (y1 - 1)) as Hj. replace (y1 - 1 + 1) with y1 in Hj by lia.
      pose proof (b2z_range (leap (y1 - 1))). lia.
    - assert (y2 = y1 + 1) as -> by (subst y2; zdm). pose proof (b2z_range (leap (y1 + 1))). rewrite jan1_succ. lia. }
  rewrite year_loop_step by (done || (fold y2; lia)). fold y2. exists y2. split; [apply year_loop_in; [lia|done]|done].
Qed.

Lemma mon_loop_spec y k : forall d, (k < 12)%nat -> 0 <= d < before_month y (Z.of_nat k + 1) ->
  exists m, mon_loop (default [] (__mon_yday !! Z.to_nat (Z.b2z (leap y)))) k d = Some m /\ 0 <= m <= Z.of_nat k /\ before_month y m <= d < before_month y (m + 1).
Proof.
  induction k as [|k IH]; intros d Hk Hd; cbn [mon_loop]; rewrite mon_yday_before by lia.
  - change (Z.of_nat 0) with 0 in *. rewrite before_0. destruct (Z.ltb_spec d 0); [lia|]. exists 0. rewrite before_0. split; [done|lia].
  - destruct (Z.ltb_spec d (before_month y (Z.of_nat (S k)))).
    + destruct (IH d) as (m & Hm & Hr & Hb); [lia|replace (Z.of_nat k + 1) with (Z.of_nat (S k)) by lia; lia|]. exists m. split; [done|lia].
    + exists (Z.of_nat (S k)). split; [done|lia].
Qed.

(** The month and day of a day of the year. *)
Lemma mon_loop_date y n : in_year y n ->
  exists m, mon_loop (default [] (__mon_yday !! Z.to_nat (Z.b2z (leap y)))) 11 (n - jan1 y) = Some m /\ 0 <= m < 12 /\
    civil n (y, m, n - jan1 y - before_month y m + 1).
Proof.
  intros [H1 H2]. destruct (mon_loop_spec y 11 (n - jan1 y)) as (m & Hm & Hr & Hb); [lia|change (Z.of_nat 11 + 1) with 12; rewrite before_12; lia|].
  exists m. split; [done|]. split; [lia|]. apply civil_number. rewrite before_month_succ in Hb by lia. cbn [valid_date day_number]. lia.
Qed.

Lemma time_of_day_normal totalsecs offset : - 2 ^ 31 <= totalsecs < 2 ^ 31 -> - (2 ^ 31 - 86400) <= offset <= 2 ^ 31 - 86400 ->
  let rem := s32 (Z.rem totalsecs SECS_PER_DAY + offset) in
  let fuel := S (Z.to_nat (Z.abs rem / SECS_PER_DAY)) in
  exists rem1 days1, rem_up fuel rem (Z.quot totalsecs SECS_PER_DAY) = Some (rem1, days1) /\
    rem_down fuel rem1 days1 = Some ((totalsecs + offset) mod 86400, (totalsecs + offset) / 86400).
Proof.
  intros Ht Ho. change SECS_PER_DAY with 86400. cbv zeta. pose proof (Z.quot_rem totalsecs 86400 ltac:(lia)) as Hq.
  pose proof (Z.rem_bound_abs totalsecs 86400 ltac:(lia)). set (q := Z.quot totalsecs 86400) in *. set (r := Z.rem totalsecs 86400) in *. clearbody q r.
  rewrite s32_small by lia. set (x := r + offset). set (k := Z.abs x / 86400). assert (86400 * k <= Z.abs x < 86400 * k + 86400) by (subst k; zdm).
  destruct (rem_up_spec (S (Z.to_nat k)) x q) as (r1 & d1 & Hup & Hs1 & Hr1 & Hc & Hd1); [lia..|].
  destruct (rem_down_spec (S (Z.to_nat k)) r1 d1) as (r2 & d2 & Hdn & Hs2 & Hr2); [lia..|]. exists r1, d1. split; [done|]. rewrite Hdn.
  assert (86400 * d2 + r2 = totalsecs + offset) as <- by lia. repeat f_equal; zdm.
Qed.

Lemma weekday n : (if Z.rem (4 + n) 7 <? 0 then Z.rem (4 + n) 7 + 7 else Z.rem (4 + n) 7) = (n + 4) mod 7.
Proof.
  pose proof (Z.quot_rem (4 + n) 7 ltac:(lia)). pose proof (Z.rem_bound_abs (4 + n) 7 ltac:(lia)). destruct (Z.ltb_spec (Z.rem (4 + n) 7) 0); zdm.
Qed.

Lemma is_time_unique t y m d hour min sec wday yday y' m' d' hour' min' sec' wday' yday' :
  is_time t y m d hour min sec wday yday -> is_time t y' m' d' hour' min' sec' wday' yday' ->
  (y, m, d) = (y', m', d') /\ hour = hour' /\ min = min' /\ sec = sec' /\ wday = wday' /\ yday = yday'.
Proof.
  intros (Hc & -> & -> & -> & -> & ->) (Hc' & -> & -> & -> & -> & ->). apply civil_number in Hc as [Hv Hn], Hc' as [Hv' Hn'].
  assert ((y, m, d) = (y', m', d')) as Heq by (apply day_number_inj; [done..|congruence]). split; [done|]. by injection Heq as -> _ _.
Qed.

Lemma time_to_tm_date totalsecs offset : - 2 ^ 31 <= totalsecs < 2 ^ 31 -> - (2 ^ 31 - 86400) <= offset <= 2 ^ 31 - 86400 ->
  exists y m d hour min sec wday yday, is_time (totalsecs + offset) y m d hour min sec wday yday /\
    time_to_tm totalsecs offset = Some (Tm sec min hour d m (y - 1900) wday yday).
Proof.
  intros Ht Ho. destruct (time_of_day_normal totalsecs offset Ht Ho) as (r1 & d1 & Hup & Hdn). set (t := totalsecs + offset) in *.
  set (n := t / 86400) in *. assert (- 50000 <= n <= 50000) by (subst n t; zdm). destruct (year_loop_spec n) as (y & Hy & Hin & Hyr); [done|].
  destruct (mon_loop_date y n Hin) as (m & Hm & Hmr & Hc). set (d := n - jan1 y - before_month y m + 1) in *.
  exists y, m, d, (t mod 86400 / 3600), (t mod 3600 / 60), (t mod 60), ((n + 4) mod 7), (n - jan1 y). split; [by split|].
  unfold time_to_tm. cbv zeta. rewrite Hup. cbn [mbind option_bind]. rewrite Hdn. cbn [mbind option_bind]. rewrite Hy. cbn [mbind option_bind].
  rewrite isleap_leap, Hm by lia. cbn [mbind option_bind]. rewrite mon_yday_before by lia. change SECS_PER_HOUR with 3600.
  assert (0 <= t mod 86400 < 86400) by zdm. rewrite (Z.rem_mod_nonneg (t mod 86400)), (Z.quot_div_nonneg (t mod 86400)) by lia.
  assert (t mod 86400 mod 3600 = t mod 3600) as -> by zdm. assert (0 <= t mod 3600 < 3600) by zdm.
  rewrite Z.quot_div_nonneg, (Z.rem_mod_nonneg (t mod 3600)) by lia. assert (t mod 3600 mod 60 = t mod 60) as -> by zdm.
  rewrite s32_small by lia. by rewrite weekday.
Qed.

(** C16. time_to_tm returns, for every time of 32 bits, negative ones
    included, and every offset that does not overflow, with the date, time,
    day of the week and day of the year of the moment; from 1970 on it agrees
    with rtc_time_to_tm in every field but the day of the year, which the
    latter counts from 1. *)
Theorem time_to_tm_exact totalsecs offset tm0 :
  - 2 ^ 31 <= totalsecs < 2 ^ 31 -> - (2 ^ 31 - 86400) <= offset <= 2 ^ 31 - 86400 ->
  exists r, time_to_tm totalsecs offset = Some r /\
    is_time (totalsecs + offset) (t_year r + 1900) (t_mon r) (t_mday r) (t_hour r) (t_min r) (t_sec r) (t_wday r) (t_yday r) /\
    (0 <= totalsecs + offset -> let tm' := rtc_time_to_tm (totalsecs + offset) tm0 in
     t_year r = tm_year tm' /\ t_mon r = tm_mon tm' /\ t_mday r = tm_mday tm' /\ t_hour r = tm_hour tm' /\
     t_min r = tm_min tm' /\ t_sec r = tm_sec tm' /\ t_wday r = tm_wday tm' /\ t_yday r = tm_yday tm' - 1).
Proof.
  intros Ht Ho. destruct (time_to_tm_date totalsecs offset Ht Ho) as (y & m & d & hour & min & sec & wday & yday & Hi & ->).
  eexists. split; [done|]. cbn [t_year t_mon t_mday t_hour t_min t_sec t_wday t_yday]. replace (y - 1900 + 1900) with y by lia. split; [done|].
  intros H0. destruct (rtc_time_to_tm_exact (totalsecs + offset) tm0) as (y' & m' & d' & hour' & min' & sec' & wday' & yday' & Hi' & _ & ->); [lia|].
  cbv zeta. cbn [tm_year tm_mon tm_mday tm_hour tm_min tm_sec tm_wday tm_yday].
  destruct (is_time_unique _ _ _ _ _ _ _ _ _ _ _ _ _ _ _ _ _ Hi Hi') as [Hd Ht']. injection Hd as -> -> ->. lia.
Qed.

Module CalendarDemo.

(** 2013-11-05 12:34:56, a Tuesday. *)
Definition tuesday : rtc_time := RtcTime 56 34 12 5 10 113 2 309 0.

Lemma rtc_time_roundtrip_witness :
  (rtc_valid_tm (rtc_time_to_tm 1383654896 tuesday) = 0 /\ rtc_tm_to_time (rtc_time_to_tm 1383654896 tuesday) = 1383654896) /\
  tm_mday (rtc_time_to_tm (rtc_tm_to_time tuesday) tuesday) = 5.
Proof.
  destruct (rtc_time_roundtrip 1383654896 tuesday tuesday) as [H1 H2]. split; [apply H1; lia|].
  apply H2; [|reflexivity|vm_compute; reflexivity]. split; [|cbn; lia]. cbn. repeat (apply Forall_cons_2; [lia|]). apply Forall_nil_2.
Defined.

(** One second before the epoch, an hour west of Greenwich. *)
Lemma time_to_tm_exact_witness : exists r, time_to_tm (-1) (-3600) = Some r /\
  is_time (-3601) (t_year r + 1900) (t_mon r) (t_mday r) (t_hour r) (t_min r) (t_sec r) (t_wday r) (t_yday r).
Proof. destruct (time_to_tm_exact (-1) (-3600) tuesday) as (r & Hr & Hi & _); [lia..|]. by exists r. Defined.

(** The last second of the 32-bit calendar, and what comes before 1970. *)
Example rtc_time_to_tm_last : rtc_time_to_tm (2 ^ 32 - 1) tuesday = RtcTime 15 28 6 7 1 206 0 38 0.
Proof. vm_compute. reflexivity. Qed.

Example time_to_tm_first : time_to_tm (- 2 ^ 31) 0 = Some (Tm 52 45 20 13 11 1 5 346).
Proof. vm_compute. reflexivity. Qed.

End CalendarDemo.
