(* ===== verification/SilanRtc.v ===== *)
(** * The real-time clock (drivers/rtc/rtc-silan-dlna.c, and rtc_read_time,
    rtc_set_time, rtc_set_mmss of drivers/rtc/interface.c, and
    drivers/rtc/hctosys.c)

    The driver keeps the date in BCD registers; the core checks a date before
    it sets it; at boot [rtc_hctosys] reads the clock and sets the system time
    from it.

    The registers are a parameter ([RtcRegs]): a state with reads, which do
    not change it, and writes.  [RtcClock] is what is used of them: a register
    of the date or the alarm holds the byte that was written until the clock
    advances, a write leaves the other registers alone, and every second the
    time of day, in BCD, goes on by one; what the device does at midnight is not
    used.  The accesses of one call fall into one second.  The alarm
    timers of the core and the registration of the device are not modelled.
    Device operations that may be missing are options, as in
    struct rtc_class_ops; a lock that is interrupted by a signal is an
    argument. *)

From S2P Require Import Prelude Calendar.
From Stdlib Require Import ZArith Lia.
From stdpp Require Import base numbers list option gmap.

Local Open Scope Z_scope.

Definition ENODEV : Z := 19.

Definition RTC_REG_OFFSET : Z := 0x40.
Definition RTC_TIMER : Z := (0x0 + RTC_REG_OFFSET) .<< 2.
Definition RTC_TMCON : Z := (0x1 + RTC_REG_OFFSET) .<< 2.
Definition RTC_WEEK_ALARM : Z := (0x3 + RTC_REG_OFFSET) .<< 2.
Definition RTC_DAY_ALARM : Z := (0x4 + RTC_REG_OFFSET) .<< 2.
Definition RTC_HOUR_ALARM : Z := (0x5 + RTC_REG_OFFSET) .<< 2.
Definition RTC_MIN_ALARM : Z := (0x6 + RTC_REG_OFFSET) .<< 2.
Definition RTC_YEARL : Z := (0x7 + RTC_REG_OFFSET) .<< 2.
Definition RTC_MON : Z := (0x8 + RTC_REG_OFFSET) .<< 2.
Definition RTC_WEEK : Z := (0x9 + RTC_REG_OFFSET) .<< 2.
Definition RTC_DAY : Z := (0xA + RTC_REG_OFFSET) .<< 2.
Definition RTC_HOUR : Z := (0xB + RTC_REG_OFFSET) .<< 2.
Definition RTC_MIN : Z := (0xC + RTC_REG_OFFSET) .<< 2.
Definition RTC_SEC : Z := (0xD + RTC_REG_OFFSET) .<< 2.
Definition RTC_YEARH : Z := (0xE + RTC_REG_OFFSET) .<< 2.
Definition RTC_CS : Z := (0xF + RTC_REG_OFFSET) .<< 2.
Definition RTC_SRAM : Z := 0x400.

Definition IRQ_TIMER : Z := 0x04.
Definition IRQ_TIMER_ENB : Z := 0x11.
Definition IRQ_ALARM : Z := 0x08.
Definition IRQ_ALARM_ENB : Z := 0x02.

Definition RTC_WR_DATA : Z := 50.
Definition RTC_SET_PERIODIC_TIME : Z := 51.

Definition RTC_IRQF : Z := 0x80.
Definition RTC_AF : Z := 0x20.
Definition RTC_UF : Z := 0x10.

Record rtc_wkalrm : Type := RtcWkalrm {
  enabled : Z;
  alarm_pending : Z;
  alarm_time : rtc_time
}.

(** ** The registers *)

Class RtcRegs : Type := {
  regs : Type;
  readl : regs -> Z -> Z;
  writel : Z -> Z -> regs -> regs
}.

(** The registers of the date and of the alarm. *)
Definition date_regs : list Z :=
  [RTC_SEC; RTC_MIN; RTC_HOUR; RTC_DAY; RTC_MON; RTC_YEARH; RTC_YEARL; RTC_WEEK;
   RTC_WEEK_ALARM; RTC_DAY_ALARM; RTC_HOUR_ALARM; RTC_MIN_ALARM].

(** Two decimal digits in a byte. *)
Definition bcd (v : Z) : Z := v / 10 * 16 + v mod 10.

(** The registers show the [x]-th second of a day. *)
Definition shows `{RtcRegs} (r : regs) (x : Z) : Prop :=
  readl r RTC_HOUR = bcd (x / 3600) /\ readl r RTC_MIN = bcd (x / 60 mod 60) /\ readl r RTC_SEC = bcd (x mod 60).

(** [tick] is what a second does to the registers. *)
Class RtcClock `{RtcRegs} : Type := {
  tick : regs -> regs;
  readl_written a v r : a ∈ date_regs -> 0 <= v < 256 -> readl (writel v a r) a = v;
  readl_other a b v r : a <> b -> b ∈ date_regs -> readl (writel v a r) b = readl r b;
  tick_shows r x : 0 <= x < 86399 -> shows r x -> shows (tick r) (x + 1);
  tick_date r x a : 0 <= x < 86399 -> shows r x -> a ∈ [RTC_DAY; RTC_MON; RTC_YEARH; RTC_YEARL; RTC_WEEK] -> readl (tick r) a = readl r a
}.

Section Driver.
Context `{RtcRegs}.

(** ** drivers/rtc/rtc-silan-dlna.c *)

(** Also the events for rtc_update_irq. *)
Definition silan_rtc_interrupt (r : regs) : regs * Z :=
  let rtc_irq := u32 (readl r RTC_CS) in
  let '(rtc_irq, r, events) :=
    if negb (rtc_irq .& IRQ_ALARM =? 0) then
      let rtc_irq := rtc_irq .& u32 (Z.lnot IRQ_ALARM) in (rtc_irq, writel rtc_irq RTC_CS r, RTC_AF .| RTC_IRQF)
    else (rtc_irq, r, 0) in
  if negb (rtc_irq .& IRQ_TIMER =? 0) then
    let rtc_irq := rtc_irq .& u32 (Z.lnot IRQ_TIMER) in (writel rtc_irq RTC_CS r, events .| (RTC_UF .| RTC_IRQF))
  else (r, events).

Definition silan_alarm_irq_enable (enabled : Z) (r : regs) : Z * regs :=
  let dat := u32 (readl r RTC_CS) in
  let dat := if negb (enabled =? 0) then dat .| IRQ_ALARM_ENB else dat .& u32 (Z.lnot IRQ_ALARM_ENB) in
  (0, writel dat RTC_CS r).

Definition silan_rtc_read_alarm (r : regs) (alarm : rtc_wkalrm) : Z * rtc_wkalrm :=
  let tm := alarm_time alarm in
  (0, RtcWkalrm (enabled alarm) (alarm_pending alarm)
       (RtcTime (tm_sec tm) (bcd2bin (readl r RTC_MIN_ALARM)) (bcd2bin (readl r RTC_HOUR_ALARM)) (bcd2bin (readl r RTC_DAY_ALARM))
          (tm_mon tm) (tm_year tm) (bcd2bin (readl r RTC_WEEK_ALARM)) (tm_yday tm) (tm_isdst tm))).

Definition silan_rtc_set_alarm (alarm : rtc_wkalrm) (r : regs) : Z * regs :=
  if enabled alarm =? 0 then (0, (silan_alarm_irq_enable 0 r).2)
  else
    let r := writel (bin2bcd (tm_wday (alarm_time alarm))) RTC_WEEK_ALARM r in
    let r := writel (bin2bcd (tm_mday (alarm_time alarm))) RTC_DAY_ALARM r in
    let r := writel (bin2bcd (tm_hour (alarm_time alarm))) RTC_HOUR_ALARM r in
    let r := writel (bin2bcd (tm_min (alarm_time alarm))) RTC_MIN_ALARM r in
    (0, (silan_alarm_irq_enable 1 r).2).

Definition silan_periodic_irq_enable (enabled : Z) (r : regs) : Z * regs :=
  let dat := u32 (readl r RTC_CS) in
  let dat := if negb (enabled =? 0) then dat .| IRQ_TIMER_ENB else dat .& u32 (Z.lnot IRQ_TIMER_ENB) in
  (0, writel dat RTC_CS r).

Definition silan_rtc_set_periodic_time (time : Z) (r : regs) : Z * regs :=
  if (0 <? time) && (time <=? 255) then
    (0, (silan_periodic_irq_enable 1 (writel 0x06 RTC_TMCON (writel (time - 1) RTC_TIMER r))).2)
  else if (255 <? time) && (time <? 255 * 60) then
    (0, (silan_periodic_irq_enable 1 (writel 0x07 RTC_TMCON (writel (Z.quot time 60 - 1) RTC_TIMER r))).2)
  else (0, r).

Definition silan_rtc_read_time (r : regs) (tm : rtc_time) : Z * rtc_time :=
  (0, RtcTime (bcd2bin (readl r RTC_SEC)) (bcd2bin (readl r RTC_MIN)) (bcd2bin (readl r RTC_HOUR)) (bcd2bin (readl r RTC_DAY))
        (bcd2bin (readl r RTC_MON)) (bcd2bin (readl r RTC_YEARH) * 100 + bcd2bin (readl r RTC_YEARL)) (bcd2bin (readl r RTC_WEEK))
        (tm_yday tm) (tm_isdst tm)).

Definition silan_rtc_set_time (tm : rtc_time) (r : regs) : Z * regs :=
  let r := writel (bin2bcd (tm_sec tm)) RTC_SEC r in
  let r := writel (bin2bcd (tm_min tm)) RTC_MIN r in
  let r := writel (bin2bcd (tm_hour tm)) RTC_HOUR r in
  let r := writel (bin2bcd (tm_mday tm)) RTC_DAY r in
  let r := writel (bin2bcd (tm_wday tm)) RTC_WEEK r in
  let r := writel (bin2bcd (tm_mon tm)) RTC_MON r in
  let r := writel (bin2bcd (Z.quot (tm_year tm) 100)) RTC_YEARH r in
  (0, writel (bin2bcd (Z.rem (tm_year tm) 100)) RTC_YEARL r).

(** The reads that follow the writes go to a local array. *)
Definition silan_rtc_write_data (r : regs) : Z * regs :=
  (0, foldl (fun r i => writel i (RTC_SRAM + i * 4) r) r (seqZ 0 256)).

Definition silan_rtc_ioctl (cmd arg : Z) (r : regs) : Z * regs :=
  if cmd =? RTC_WR_DATA then (0, (silan_rtc_write_data r).2)
  else if cmd =? RTC_SET_PERIODIC_TIME then (0, (silan_rtc_set_periodic_time (s32 arg) r).2)
  else (0, r).

(** ** drivers/rtc/interface.c *)

Record rtc_class_ops : Type := RtcClassOps {
  read_time : option (regs -> rtc_time -> Z * rtc_time);
  set_time : option (rtc_time -> regs -> Z * regs);
  set_mmss : option (Z -> regs -> Z * regs)
}.

Definition silan_rtc_ops : rtc_class_ops := RtcClassOps (Some silan_rtc_read_time) (Some silan_rtc_set_time) None.

(** Its operations, if the driver is still there. *)
Definition rtc_device : Type := option rtc_class_ops.

Definition zero_tm : rtc_time := RtcTime 0 0 0 0 0 0 0 0 0.

Definition __rtc_read_time (rtc : rtc_device) (r : regs) (tm : rtc_time) : Z * rtc_time :=
  match rtc with
  | None => (- ENODEV, tm)
  | Some ops => match read_time ops with None => (- EINVAL, tm) | Some f => f r zero_tm end
  end.

(** mutex_lock_interruptible *)
Definition lock_result (interrupted : bool) : Z := if interrupted then - EINTR else 0.

Definition rtc_read_time (interrupted : bool) (rtc : rtc_device) (r : regs) (tm : rtc_time) : Z * rtc_time :=
  let err := lock_result interrupted in
  if negb (err =? 0) then (err, tm) else __rtc_read_time rtc r tm.

Definition rtc_set_time (interrupted : bool) (rtc : rtc_device) (tm : rtc_time) (r : regs) : Z * regs :=
  let err := rtc_valid_tm tm in
  if negb (err =? 0) then (err, r) else
  let err := lock_result interrupted in
  if negb (err =? 0) then (err, r) else
  match rtc with
  | None => (- ENODEV, r)
  | Some ops =>
    match set_time ops with
    | Some f => f tm r
    | None => match set_mmss ops with Some f => f (rtc_tm_to_time tm) r | None => (- EINVAL, r) end
    end
  end.

(** [old] and [new] start with what the stack holds. *)
Definition rtc_set_mmss (interrupted : bool) (rtc : rtc_device) (old new : rtc_time) (secs : Z) (r : regs) : Z * regs :=
  let err := lock_result interrupted in
  if negb (err =? 0) then (err, r) else
  match rtc with
  | None => (- ENODEV, r)
  | Some ops =>
    match set_mmss ops with
    | Some f => f secs r
    | None =>
      match read_time ops, set_time ops with
      | Some rd, Some st =>
        let '(err, old) := rd r old in
        if err =? 0 then
          let new := rtc_time_to_tm secs new in
          if negb ((tm_hour old =? 23) && (tm_min old =? 59) || (tm_hour new =? 23) && (tm_min new =? 59))
          then st new r else (err, r)
        else (err, r)
      | _, _ => (- EINVAL, r)
      end
    end
  end.

(** ** drivers/rtc/hctosys.c: the result, and the time given to do_settimeofday *)

Definition NSEC_PER_SEC : Z := 1000000000.

Definition rtc_hctosys (interrupted : bool) (rtc : option rtc_device) (tm : rtc_time) (r : regs) : Z * option (Z * Z) :=
  match rtc with
  | None => (- ENODEV, None)
  | Some rtc =>
    let '(err, tm) := rtc_read_time interrupted rtc r tm in
    if negb (err =? 0) then (err, None) else
    let err := rtc_valid_tm tm in
    if negb (err =? 0) then (err, None) else (0, Some (s32 (rtc_tm_to_time tm), NSEC_PER_SEC .>> 1))
  end.

End Driver.

(** ** Through the registers *)

Lemma bin2bcd_bcd v : 0 <= v < 100 -> bin2bcd v = bcd v.
Proof. intros Hv. unfold bin2bcd, bcd. by rewrite (u32_small v), Z.shiftl_mul_pow2, (u32_small (_ * _)), u8_small by zdm. Qed.

Lemma bcd2bin_bcd v : 0 <= v < 100 -> 0 <= bcd v < 256 /\ bcd2bin (bcd v) = v.
Proof.
  intros Hv. unfold bcd, bcd2bin. rewrite u8_small by zdm. change 15 with (2 ^ 4 - 1).
  rewrite land_ones_mod, Z.shiftr_div_pow2 by lia. split; zdm.
Qed.

Lemma bcd_roundtrip v : 0 <= v < 100 -> 0 <= bin2bcd v < 256 /\ bcd2bin (bin2bcd v) = v.
Proof. intros Hv. rewrite bin2bcd_bcd by done. by apply bcd2bin_bcd. Qed.

(** Reads of registers after writes to constant addresses. *)
Ltac reg_side := first [by apply bcd_roundtrip | by apply (bool_decide_unpack _); vm_compute | intros Heq; vm_compute in Heq; discriminate Heq].

Ltac reg_reads :=
  repeat match goal with
  | |- context [readl (writel ?v ?a ?r) ?b] => first [rewrite (readl_other a b v r) by reg_side | rewrite (readl_written a v r) by reg_side]
  end.

Section Correct.
Context `{RtcClock}.

(** What the clock can hold. *)
Definition clock_tm (tm : rtc_time) : Prop :=
  Forall (fun x => 0 <= x < 100) [tm_sec tm; tm_min tm; tm_hour tm; tm_mday tm; tm_mon tm; tm_wday tm] /\ 0 <= tm_year tm < 10000.

Lemma set_time_read tm tm' r : clock_tm tm ->
  silan_rtc_read_time (silan_rtc_set_time tm r).2 tm' =
    (0, RtcTime (tm_sec tm) (tm_min tm) (tm_hour tm) (tm_mday tm) (tm_mon tm) (tm_year tm) (tm_wday tm) (tm_yday tm') (tm_isdst tm')).
Proof.
  intros [Hf Hy]. repeat (apply Forall_cons_1 in Hf as [? Hf]).
  assert (0 <= Z.quot (tm_year tm) 100 < 100 /\ 0 <= Z.rem (tm_year tm) 100 < 100) as [Hq Hr].
  { rewrite Z.quot_div_nonneg, Z.rem_mod_nonneg by lia. split; zdm. }
  unfold silan_rtc_read_time, silan_rtc_set_time. cbn [snd]. reg_reads.
  rewrite !(fun v Hv => proj2 (bcd_roundtrip v Hv)) by done. repeat f_equal. pose proof (Z.quot_rem (tm_year tm) 100). lia.
Qed.

(** The alarm is read back as it was set, and setting it leaves the date alone. *)
Lemma set_alarm_read alarm alarm' r tm : enabled alarm <> 0 ->
  Forall (fun x => 0 <= x < 100) [tm_wday (alarm_time alarm); tm_mday (alarm_time alarm); tm_hour (alarm_time alarm); tm_min (alarm_time alarm)] ->
  let r' := (silan_rtc_set_alarm alarm r).2 in
  let tm' := alarm_time (silan_rtc_read_alarm r' alarm').2 in
  tm_wday tm' = tm_wday (alarm_time alarm) /\ tm_mday tm' = tm_mday (alarm_time alarm) /\ tm_hour tm' = tm_hour (alarm_time alarm) /\
  tm_min tm' = tm_min (alarm_time alarm) /\ silan_rtc_read_time r' tm = silan_rtc_read_time r tm.
Proof.
  intros He Hf. repeat (apply Forall_cons_1 in Hf as [? Hf]). cbv zeta. unfold silan_rtc_set_alarm, silan_alarm_irq_enable.
  rewrite (proj2 (Z.eqb_neq _ _) He). cbn [snd silan_rtc_read_alarm alarm_time tm_wday tm_mday tm_hour tm_min]. reg_reads.
  rewrite !(fun v Hv => proj2 (bcd_roundtrip v Hv)) by done. do 4 (split; [done|]). unfold silan_rtc_read_time. by reg_reads.
Qed.

Lemma rtc_time_clock t tm : 0 <= t < 2 ^ 32 -> clock_tm (rtc_time_to_tm t tm).
Proof.
  intros Ht. destruct (rtc_time_to_tm_valid t tm Ht) as ((Hy & [Hm Hd] & Hh & Hmi & Hs) & _ & Hy').
  pose proof (month_length_pos (tm_year (rtc_time_to_tm t tm) + 1900) (tm_mon (rtc_time_to_tm t tm))). split; [|lia].
  repeat (apply Forall_cons_2; [lia|]). apply Forall_cons_2; [|apply Forall_nil_2].
  destruct (rtc_time_to_tm_exact t tm Ht) as (y & m & d & hour & min & sec & wday & yday & (_ & _ & _ & _ & -> & _) & _ & ->). cbn. zdm.
Qed.

(** A boot from a clock that shows [x]. *)
Lemma hctosys_reads tm r x : silan_rtc_read_time r zero_tm = (0, x) -> valid_tm x -> tm_year x < 10000 ->
  rtc_hctosys false (Some (Some silan_rtc_ops)) tm r = (0, Some (s32 (u32 (seconds x)), 500000000)).
Proof.
  intros Hr Hv Hy. unfold rtc_hctosys, rtc_read_time, __rtc_read_time. cbn [lock_result Z.eqb negb silan_rtc_ops read_time]. rewrite Hr. cbn [Z.eqb negb].
  rewrite (proj2 (rtc_valid_tm_spec x (valid_tm_int x Hv ltac:(lia))) Hv), rtc_tm_to_time_exact by (done || lia). done.
Qed.

(** The second of its day that a time shows. *)
Definition day_second (tm : rtc_time) : Z := 3600 * tm_hour tm + 60 * tm_min tm + tm_sec tm.

Lemma set_time_shows tm r : valid_tm tm -> clock_tm tm -> 0 <= day_second tm < 86400 /\ shows (silan_rtc_set_time tm r).2 (day_second tm).
Proof.
  intros (_ & _ & Hh & Hm & Hs) [Hf _]. repeat (apply Forall_cons_1 in Hf as [? Hf]). unfold day_second, shows. split; [lia|].
  unfold silan_rtc_set_time. cbn [snd]. reg_reads. rewrite !bin2bcd_bcd by done. split_and!; f_equal; zdm.
Qed.

(** [n] seconds of the same day later. *)
Lemma ticks_show r x n : shows r x -> 0 <= x -> x + Z.of_nat n < 86400 ->
  shows (Nat.iter n tick r) (x + Z.of_nat n) /\
  forall a, a ∈ [RTC_DAY; RTC_MON; RTC_YEARH; RTC_YEARL; RTC_WEEK] -> readl (Nat.iter n tick r) a = readl r a.
Proof.
  intros Hx Hx0. induction n as [|n IH]; intros Hn; [by rewrite Z.add_0_r|]. destruct IH as [Hs Hd]; [lia|]. cbn [Nat.iter nat_rect].
  replace (x + Z.of_nat (S n)) with (x + Z.of_nat n + 1) by lia. split; [apply tick_shows; [lia|done]|].
  intros a Ha. rewrite <- (Hd a Ha). apply (tick_date _ (x + Z.of_nat n)); [lia|done|done].
Qed.

Lemma shows_read r x tm : shows r x -> 0 <= x < 86400 ->
  let tm' := (silan_rtc_read_time r tm).2 in tm_hour tm' = x / 3600 /\ tm_min tm' = x / 60 mod 60 /\ tm_sec tm' = x mod 60.
Proof.
  intros (Eh & Em & Es) Hx. unfold silan_rtc_read_time. cbn [snd tm_hour tm_min tm_sec]. rewrite Eh, Em, Es.
  rewrite !(fun v Hv => proj2 (bcd2bin_bcd v Hv)) by zdm. done.
Qed.

(** What the clock shows [n] seconds after it was set. *)
Lemma ticks_read tm r n : valid_tm tm -> clock_tm tm -> day_second tm + Z.of_nat n < 86400 ->
  exists x, silan_rtc_read_time (Nat.iter n tick (silan_rtc_set_time tm r).2) zero_tm = (0, x) /\
    valid_tm x /\ seconds x = seconds tm + Z.of_nat n /\ tm_year x = tm_year tm.
Proof.
  intros Hv Hc Hn. destruct (set_time_shows tm r Hv Hc) as [Hx Hs].
  destruct (ticks_show _ _ n Hs ltac:(lia) Hn) as [Hs' Hd]. pose proof (set_time_read tm zero_tm r Hc) as Hr.
  set (r1 := (silan_rtc_set_time tm r).2) in *. clearbody r1. set (r2 := Nat.iter n tick r1) in *. clearbody r2.
  destruct (shows_read r2 _ zero_tm Hs' ltac:(lia)) as (Eh & Em & Es). eexists. split; [done|].
  unfold silan_rtc_read_time in *. cbn [snd tm_hour tm_min tm_sec] in Eh, Em, Es. rewrite Eh, Em, Es, !Hd by set_solver.
  injection Hr as _ _ _ -> -> -> ->. destruct Hv as (Hy & Hdate & _).
  unfold valid_tm, seconds, day_second in *. cbn [tm_year tm_mon tm_mday tm_hour tm_min tm_sec].
  split_and!; try done; zdm.
Qed.

(** The system time that a boot takes from the clock, [n] seconds after it was set. *)
Lemma hctosys_after_set t tm0 tm r n : 0 <= t -> t + Z.of_nat n < 2 ^ 32 -> t mod 86400 + Z.of_nat n < 86400 ->
  rtc_hctosys false (Some (Some silan_rtc_ops)) tm (Nat.iter n tick (silan_rtc_set_time (rtc_time_to_tm t tm0) r).2) =
    (0, Some (s32 (t + Z.of_nat n), 500000000)).
Proof.
  intros Ht0 Ht Hn. pose proof (rtc_time_clock t tm0 ltac:(lia)) as Hc. destruct (rtc_time_to_tm_valid t tm0 ltac:(lia)) as (Hv & Hs & Hy).
  generalize dependent (rtc_time_to_tm t tm0). intros now Hc Hv Hs Hy.
  assert (day_second now = t mod 86400) as Ed.
  { rewrite <- Hs. destruct Hv as (_ & _ & Hh & Hm & Hsec). unfold day_second, seconds. generalize (day_number (tm_year now + 1900, tm_mon now, tm_mday now)). intros. zdm. }
  destruct (ticks_read now r n Hv Hc ltac:(lia)) as (x & Hr & Hvx & Hsx & Hyx).
  rewrite (hctosys_reads tm _ x Hr Hvx ltac:(lia)). by rewrite Hsx, Hs, u32_small by lia.
Qed.

Definition last_minute (tm : rtc_time) : bool := (tm_hour tm =? 23) && (tm_min tm =? 59).

Lemma silan_set_time now r : rtc_valid_tm now = 0 -> rtc_set_time false (Some silan_rtc_ops) now r = (0, (silan_rtc_set_time now r).2).
Proof. intros Hv. unfold rtc_set_time. by rewrite Hv. Qed.

Lemma silan_set_mmss old new t r : rtc_set_mmss false (Some silan_rtc_ops) old new t r =
  (0, if last_minute (silan_rtc_read_time r old).2 || last_minute (rtc_time_to_tm t new) then r else (silan_rtc_set_time (rtc_time_to_tm t new) r).2).
Proof.
  unfold rtc_set_mmss. cbn [lock_result Z.eqb negb silan_rtc_ops read_time set_time set_mmss]. generalize (rtc_time_to_tm t new). intros now.
  assert (silan_rtc_read_time r old = (0, (silan_rtc_read_time r old).2)) as -> by done. generalize (silan_rtc_read_time r old).2. intros o.
  cbn [Z.eqb snd]. unfold last_minute. by destruct (_ && _ || _).
Qed.


End Correct.

Module RtcDemo.

(** Registers that hold what is written, and count. *)
#[local] Instance demo_regs : RtcRegs := {|
  regs := gmap Z Z;
  readl r a := default 0 (r !! a);
  writel v a r := <[a := v]> r
|}.

Definition demo_tick (r : gmap Z Z) : gmap Z Z :=
  let x := 3600 * bcd2bin (readl r RTC_HOUR) + 60 * bcd2bin (readl r RTC_MIN) + bcd2bin (readl r RTC_SEC) + 1 in
  <[RTC_HOUR := bcd (x / 3600)]> (<[RTC_MIN := bcd (x / 60 mod 60)]> (<[RTC_SEC := bcd (x mod 60)]> r)).

#[local] Instance demo_clock : RtcClock.
Proof.
  refine {| tick := demo_tick |}.
  - intros a v r _ _. cbn. by rewrite lookup_insert_eq.
  - intros a b v r Hab _. cbn. by rewrite lookup_insert_ne.
  - intros r x Hx (Eh & Em & Es). unfold demo_tick. rewrite Eh, Em, Es, !(fun v Hv => proj2 (bcd2bin_bcd v Hv)) by zdm.
    replace (3600 * (x / 3600) + 60 * (x / 60 mod 60) + x mod 60 + 1) with (x + 1) by zdm.
    unfold shows. cbn [readl demo_regs]. repeat (rewrite lookup_insert_eq || rewrite lookup_insert_ne by done). done.
  - intros r x a _ _ Ha. unfold demo_tick. cbn [readl demo_regs].
    rewrite !lookup_insert_ne; [done|..]; intros <-; revert Ha; apply (bool_decide_unpack _); vm_compute; done.
Defined.


(** The same by evaluation, and the registers: 2013-11-05 12:34:56. *)
Example rtc_registers :
  let r := (silan_rtc_set_time (rtc_time_to_tm 1383654896 zero_tm) (∅ : gmap Z Z)).2 in
  map (readl r) [RTC_YEARH; RTC_YEARL; RTC_MON; RTC_DAY; RTC_HOUR; RTC_MIN; RTC_SEC; RTC_WEEK] = [0x01; 0x13; 0x10; 0x05; 0x12; 0x34; 0x56; 0x02].
Proof. vm_compute. reflexivity. Qed.

(** An alarm interrupt is acknowledged and leaves the enabled bits. *)
Example rtc_alarm_interrupt :
  silan_rtc_interrupt (<[RTC_CS := 0x0a]> (∅ : gmap Z Z)) = (<[RTC_CS := 0x02]> (<[RTC_CS := 0x0a]> ∅), 0xa0).
Proof. vm_compute. reflexivity. Qed.

End RtcDemo.
